(* ===== verification/_CoqProject ===== *)
-Q . S2P
Prelude.v
CoreError.v
Name.v
RecordData.v
Edns.v
Header.v
Message.v
Matcher.v
Time.v
FakeIpFamily.v
FakeIpPool.v
CacheConfig.v
StoreKey.v
Entry.v
Shard.v
ShardLists.v
ShardInv.v
ShardEvict.v
ShardOps.v
ShardSpec.v
Store.v
Flight.v
Response.v
Transport.v
ResponseWf.v
Reverse.v
FakeIpAnswer.v
FakeIpReply.v
EngineState.v
Reply.v
Upstreams.v
Resolve.v
EngineLogic.v
ResolveSpec.v
EngineProps.v
PurgeRace.v
Pending.v
StreamConn.v
Pool.v
PoolInv.v
PoolLife.v
PoolAcquire.v
StreamQuery.v
StreamLink.v
PooledQuery.v
PooledRetry.v
Server.v
Lifecycle.v
ServerEngine.v
ErrorChain.v
Dot.v
Quic.v
Doq.v
Doh.v
Doh3.v
DohGate.v
DohPool.v
PooledSession.v
Stack.v
Wire.v
WireSpec.v
Responder.v
ResponderServe.v
LoadGen.v
Cli.v
