(* ===== verification/Prelude.v ===== *)
(** * DNS Lattice: a verification library for the resolver engine

    DNS Lattice is an embeddable DNS resolver in Rust: a wire codec, split-DNS
    routing, Fake IP, an answer cache with coalescing, upstream transports with
    connection reuse, and a listening server. This library translates its core
    into Rocq function by function and proves what makes each part correct. Paths
    below are under src/; a file of the library names its own sources.

    ** Parts

    - Model crate (crates/dns-lattice-model, -core): CoreError (error.rs), Name,
      RecordData, Edns, Header, Message (message.rs, record.rs, edns.rs), Matcher
      (matcher.rs, policy.rs). Encoders append to a byte list; decoders read at a
      position of a buffer.
    - Fake IP (fakeip.rs): FakeIpFamily is one address family, with its two maps
      and counters; FakeIpPool is the pool of both with its policy and snapshots.
    - Cache (cache/): CacheConfig (mod.rs); StoreKey, Entry, Shard, Store
      (store.rs), with the invariant and lemmas of a shard in ShardLists, ShardInv,
      ShardEvict, ShardOps and ShardSpec; Flight (flight.rs).
    - Engine (engine.rs): Response shapes answers for the client and the cache, and
      ResponseWf shows that they stay replies to their query; Reverse and FakeIpAnswer
      are the local answers, FakeIpReply shows the same of them; EngineState is
      [ResolverInner], its builder and its events; Reply, Upstreams and Resolve are
      the steps of [Resolver::resolve] in a state monad. EngineLogic is the logic
      they are verified in, ResolveSpec and EngineProps hold the theorems, PurgeRace
      the interleaving of queries and purges.
    - Upstream (upstream/): Transport (mod.rs) validates responses, frames messages
      and is the UDP backend; Pending (pool.rs) is the wire-id table of a
      connection; StreamConn (stream.rs) is a pipelined connection; Pool and PoolInv
      (pool.rs) are the connection pool, PoolLife its janitor and observer as one
      executable machine, PoolAcquire the callers of [acquire] over it; StreamQuery
      (stream.rs, mod.rs) is a pooled query with its retry and the TCP backend;
      StreamLink adds a connection's writer, and PooledQuery is the pool, its
      connections and the calls over them in one state, with PooledRetry on where a
      query is sent again. ErrorChain holds what the encrypted
      backends share; Dot (dot.rs), Doq (doq.rs) with Quic (quic.rs), Doh, Doh3, and
      DohGate with DohPool (doh.rs) are those backends: Doh the requests, Doh3 the
      HTTP/3 pool, DohGate the state the calls over one HTTP client share, PooledSession
      the DoQ and HTTP/3 queries over one pool, both as instances of the class
      [SessionClient]. Stack puts
      the six backends together as the resolver's upstreams.
    - Server (server/mod.rs): Server answers a decoded query and turns the answer
      into a UDP, TCP, DoQ or DoH reply; Lifecycle binds, accepts and runs tasks;
      ServerEngine puts the resolver of the engine under both, and Stack the backends
      under that.
    - Benchmark (bench/resolver/src/): Wire is the upstream's own wire code (wire.rs),
      WireSpec puts it against Message; Responder is the upstream's counters and
      replies with all transports interleaved, ResponderServe its handlers
      (responder.rs) with the UDP backend over them; LoadGen the load generator
      (loadgen.rs) and the verdict on a run, Cli the command line (cli.rs).

    The engine calls the codec, the matcher, the Fake IP pool, the store, the
    flights and, through its World, the backends. The server calls the engine
    through a function of a query, which ServerEngine fills in. StreamConn owns a Pending table; Pool leases
    connections to StreamQuery, Doq and Doh3, and PooledQuery runs the calls of the
    first over Pool's and StreamLink's steps. Doh is put against the server's request
    handler.

    ** How code is written here

    - Integers are [Z] with their width's wrap-around or check written out, sizes and
      positions are [nat], bytes are [Z], byte strings lists of them, Rust strings
      either byte lists (names) or [string] (messages of errors).
    - [Result] is Rust's; [Run] adds the outcomes [Panic] and [Hang], so that a
      theorem that an operation returns says it neither panics nor loops.
    - A [HashMap] or slab is a [gmap]; where the code's iteration order matters the
      list of it is the model. Shared [Arc]s with atomics live in the cells of
      Entry.v; a mutex held for a whole operation makes the operation one step.
    - Concurrency is a step relation over the shared state, one step per lock
      section (Flight, PurgeRace, StreamConn, StreamLink, PoolInv, PoolAcquire,
      PooledQuery, PooledSession, DohGate, Responder), or an
      executable machine over its operations (PoolLife, Lifecycle), and theorems about
      its reachable states. What the pool does after it let go of its lock (closing,
      reporting, sending a connect's outcome, waking the janitor) is a list of actions
      of each operation, and every action is a step that any other operation's may
      precede (PoolLife, and all that is built on it). A permit changes hands in the
      step that begins or ends what it admits, and so do the counters of DohGate. In the engine, whatever an [await] lets run meanwhile is the
      World: functions that may change the whole state, within the laws [world_ok]
      states and the example worlds meet; what [resolve] leaves behind for other
      queries (entries, published outcomes, background refreshes) is part of
      [engine_ok], and [refresh_run] shows that a refresh keeps it too.
    - Well-formed messages have the TTLs decoders read as they are; the engine's
      theorems ask that of the minimum and stale TTLs a configuration sets
      ([huge_minimum_reads_zero]) and of the Fake IP pool's lifetime. They ask a
      failure recheck of at most 2^32-1 seconds: the builder takes longer ones, on
      which a failed refresh panics ([recheck_overflow]).
    - A computation over the network may loop only where the bytes that were delivered
      to it make the decoder loop, and the theorems name those bytes ([loops_on],
      [reached], [stuck]).
    - Libraries (tokio, base64, HTTP, TLS, the hash with its random key, the clock)
      are parameters. A socket or stream is what the network does with it: bytes or
      datagrams that arrive, the error that ends them (a timeout is one), the
      results of its writes.

    ** What the theorems show

    - Codec: decoding inverts encoding on well-formed messages, decoded messages are
      well formed and re-encode, decoding never panics; it terminates without
      compression pointers and can loop for ever with one ([decode_can_loop]).
    - Names, matching, keys: parsing and printing are inverse, the most specific
      rule wins, two queries share a cache key exactly when they must.
    - Fake IP: no reachable pool panics, an allocation disturbs at most the least
      recently used mapping, snapshots restore, answered addresses answer PTR.
    - Cache: a shard refines the map it stands for within its byte budget, hits are
      the latest insert under that key, purges remove exactly what they name.
    - Coalescing: no follower is stranded, and the leaders' own steps release all.
    - Engine: [resolve] returns from every sound state with the events in order, if
      there is a sink (or waits where its flights are abandoned again and again), and
      an answer from whatever source is a well-formed reply to the query with its OPT
      record following the query's; what is remembered is served locally; failover order; a finished purge wins over queries in flight.
    - Upstream: a backend returns only an answer to its own query; wire ids of
      waiting queries are distinct; every query on a connection is answered or
      given up exactly once; frames do not depend on how the stream is cut, and what
      a connection writes is what it accepted, in order; a lease always finds a free
      slot on its connection, no call waits on a closed one, and a query is sent again
      only on another connection, over TCP, TLS, QUIC and HTTP/3 alike; the
      pool keeps its bounds and never turns an admitted caller away, its janitor runs
      in time, every connection it opened is in it, closed or being closed by the one
      operation that retired it, [acquire] returns for its
      deadline or the connect it waited for and no waiter is stranded; the retry rule
      of each backend (when a query may be sent again, and when the documentation
      says it is; the two disagree for DoQ and HTTP/3: [doq_retries_mismatch],
      [doh3_retries_status]), and that an answer carries the caller's id. TLS failures are
      told from transport failures by their causes; every DoQ stream is ended, an
      HTTP/3 answer is bounded; a DoH request over well-formed URIs (RFC 3986, as the
      HTTP library parses them) reaches the server as the query it was built from; a cold DoH client runs one request until it has a connection.
    - Server: a UDP reply keeps the query's limit, whole or truncated with TC;
      sockets are bound in order; every reply answers a received datagram; a server
      over the resolver and its backends keeps it sound whatever arrives and
      whatever the network does, and all it sends over any transport decodes to
      replies to queries it received, in order on a stream.
    - Benchmark: the upstream's independent query encoder, parser and response builder
      agree with the codec; its counters tell what it did in every interleaving, and
      the UDP backend resolves every query against it, whole. The load generator
      counts every measured query once, cold names are never shared, a run is
      valid exactly when its counts say so, and an accepted command line is one
      whose options are sound.

    ** Fuel

    Recursion that is not structural carries fuel, and a lemma says it is enough:
    [decode_name] runs one iteration more than the buffer has bytes, and when that
    is not enough no number is ([decode_name_loop_hang]); FakeIpFamily's probe uses
    one more than the addresses in use ([probe_free]); making room in a shard five
    turns a slot ([make_room_spec]); the scan for a wire id 65536 ([scan_free]); the
    reader's [drain] the buffer's length ([drained_eq]); a pool sweep
    the number of connections; a query's attempts 2 ([retry_loop_two]); a TCP
    connection the bytes to come ([tcp_connection_ends]), like a stream of the
    benchmark's upstream ([read_queries_ends]).

    ** Not modelled

    The libraries under the backends and the server (sockets, TLS, HTTP/1.1 to
    HTTP/3, QUIC, base64, the URI parser): what their calls give is an argument, and
    sessions are theirs; the wrappers that only forward to
    them ([CountedIo]'s and [QuicStream]'s reads and writes, the HTTPS connectors);
    the scheduling of tasks, which are steps; the application's hooks and sinks; [Debug] output and
    documentation helpers; the benchmark's certificates, process samples, binaries and
    the two resolvers it drives, the examples and the tests. The benchmark's
    handlers are those of a latency of zero; with another, answers leave in any
    order, each still the one [responder_counts] gives. Over DoQ and HTTP/3 an
    attempt is one step that ends with whatever its stream gave: how many streams
    a peer grants is the QUIC library's. DoH over HTTP/2 shares one client of the
    HTTP library, whose connections are not seen one by one. *)

From stdpp Require Export base numbers list gmap finite.
From Stdlib Require Export ZArith Lia.

(** ** Results and outcomes *)

(** [Result<T, E>] of the Rust standard library. *)
Inductive Result (E A : Type) : Type :=
  | Ok (a : A)
  | Err (e : E).
Arguments Ok {E A} a.
Arguments Err {E A} e.

(** What running a piece of code can do: return a value, return [Err(e)]
    through [?], panic (an out-of-range slice index, a failed [expect]) or
    loop for ever. Code that can do neither of the last two is modelled with
    [Result] instead. *)
Inductive Run (E A : Type) : Type :=
  | Ret (a : A)
  | Throw (e : E)
  | Panic
  | Hang.
Arguments Ret {E A} a.
Arguments Throw {E A} e.
Arguments Panic {E A}.
Arguments Hang {E A}.

#[export] Instance result_ret {E} : MRet (Result E) := λ A a, Ok a.
#[export] Instance result_bind {E} : MBind (Result E) := λ A B f m,
  match m with Ok a => f a | Err e => Err e end.
#[export] Instance run_ret {E} : MRet (Run E) := λ A a, Ret a.
#[export] Instance run_bind {E} : MBind (Run E) := λ A B f m,
  match m with Ret a => f a | Throw e => Throw e | Panic => Panic | Hang => Hang end.

(** The [?] operator on a [Result] inside code that can also panic or loop. *)
Definition lift {E A} (r : Result E A) : Run E A :=
  match r with Ok a => Ret a | Err e => Throw e end.

Definition is_ok {E A} (r : Result E A) : bool :=
  match r with Ok _ => true | Err _ => false end.

(** The result of an [async] block, [?] inside it, as a value. *)
Definition catch {E A} (m : Run E A) : Run E (Result E A) :=
  match m with Ret a => Ret (Ok a) | Throw e => Ret (Err e) | Panic => Panic | Hang => Hang end.

(** [r.ok()] *)
Definition ok {E A} (r : Result E A) : option A :=
  match r with Ok a => Some a | Err _ => None end.

(** [o.ok_or(e)] *)
Definition ok_or {E A} (e : E) (o : option A) : Result E A :=
  match o with Some a => Ok a | None => Err e end.

#[export] Instance result_eq_dec {E A} `{!EqDecision E, !EqDecision A} :
  EqDecision (Result E A).
Proof. solve_decision. Defined.
#[export] Instance run_eq_dec {E A} `{!EqDecision E, !EqDecision A} :
  EqDecision (Run E A).
Proof. solve_decision. Defined.

Lemma run_bind_ret {E A B} (m : Run E A) (f : A → Run E B) b :
  (m ≫= f) = Ret b ↔ ∃ a, m = Ret a ∧ f a = Ret b.
Proof.
  destruct m; cbn; split; try naive_solver; intros (?&?&?); congruence.
Qed.

Lemma result_bind_ok {E A B} (m : Result E A) (f : A → Result E B) b :
  (m ≫= f) = Ok b ↔ ∃ a, m = Ok a ∧ f a = Ok b.
Proof. destruct m; cbn; naive_solver. Qed.

Lemma run_bind_panic {E A B} (m : Run E A) (f : A → Run E B) :
  (m ≫= f) = Panic ↔ m = Panic ∨ ∃ a, m = Ret a ∧ f a = Panic.
Proof. destruct m; cbn; naive_solver. Qed.

Lemma ret_pair_inj {E A B} (a c : A) (b d : B) : Ret (E:=E) (a, b) = Ret (c, d) → a = c ∧ b = d.
Proof. by intros [= -> ->]. Qed.

(** A computation that cannot panic stays so after a bind. *)
Definition no_panic {E A} (m : Run E A) : Prop := m ≠ Panic.

Lemma no_panic_bind {E A B} (m : Run E A) (f : A → Run E B) :
  no_panic m → (∀ a, m = Ret a → no_panic (f a)) → no_panic (m ≫= f).
Proof. unfold no_panic. rewrite run_bind_panic. naive_solver. Qed.

Lemma no_panic_lift {E A} (r : Result E A) : no_panic (lift r).
Proof. by destruct r. Qed.

Lemma no_panic_ret {E A} (a : A) : no_panic (Ret (E:=E) a).
Proof. done. Qed.
Lemma no_panic_throw {E A} (e : E) : no_panic (Throw (A:=A) e).
Proof. done. Qed.

Create HintDb run.
#[export] Hint Resolve no_panic_lift no_panic_ret no_panic_throw : run.

(** Splits every [≫=] of a hypothesis about success into its steps. *)
Ltac run_inv :=
  repeat match goal with
  | H : Ret _ = Ret _ |- _ => injection H as H
  | H : Ok _ = Ok _ |- _ => injection H as H
  | H : Throw _ = Ret _ |- _ => discriminate H
  | H : Panic = Ret _ |- _ => discriminate H
  | H : Hang = Ret _ |- _ => discriminate H
  | H : Err _ = Ok _ |- _ => discriminate H
  | H : mret _ = _ |- _ => progress (cbn in H)
  | H : @mbind (Run _) _ _ _ _ _ = Ret _ |- _ =>
      let a := fresh "r" in let E := fresh "Er" in
      apply run_bind_ret in H as (a & E & H)
  | H : @mbind (Result _) _ _ _ _ _ = Ok _ |- _ =>
      let a := fresh "r" in let E := fresh "Er" in
      apply result_bind_ok in H as (a & E & H)
  | H : (_, _) = (_, _) |- _ => injection H as H
  | x : (_ * _)%type |- _ => destruct x
  end; subst; cbn [fst snd] in *.

(** ** Addresses *)

Inductive IpAddr : Type :=
  | V4 (a : Z)
  | V6 (a : Z).

#[export] Instance ip_addr_eq_dec : EqDecision IpAddr.
Proof. solve_decision. Defined.

(** ** Machine integers *)

Notation is_uint w x := (0 ≤ x < 2 ^ w)%Z.
Notation is_u8 x := (0 ≤ x < 256)%Z.
Notation is_u16 x := (0 ≤ x < 65536)%Z.
Notation is_u32 x := (0 ≤ x < 4294967296)%Z.
Notation is_u64 x := (0 ≤ x < 18446744073709551616)%Z.
Notation is_u128 x := (0 ≤ x < 2 ^ 128)%Z.

Notation u16_max := 65535%Z (only parsing).
Notation u32_max := 4294967295%Z (only parsing).
Notation u64_max := 18446744073709551615%Z (only parsing).

(** [wrapping_add] and [wrapping_mul] on [w]-bit unsigned integers. *)
Definition wrapping_add (w a b : Z) : Z := (a + b) mod 2 ^ w.
Definition wrapping_mul (w a b : Z) : Z := (a * b) mod 2 ^ w.

(** Byte strings are lists of [u8]. *)
Definition bytes_ok (l : list Z) : Prop := Forall (λ b, is_u8 b) l.

(** [to_be_bytes] of an unsigned integer of [n] bytes and its inverse. *)
Fixpoint to_be (n : nat) (v : Z) : list Z :=
  match n with
  | O => []
  | S n => to_be n (v / 256) ++ [(v mod 256)%Z]
  end.

Definition from_be (l : list Z) : Z := foldl (λ acc b, (acc * 256 + b)%Z) 0%Z l.

Lemma length_to_be n v : length (to_be n v) = n.
Proof. revert v; induction n as [|n IH]; intros v; cbn; rewrite ?length_app, ?IH; cbn; lia. Qed.

Lemma from_be_app l b : from_be (l ++ [b]) = (from_be l * 256 + b)%Z.
Proof. unfold from_be. by rewrite foldl_app. Qed.

Lemma from_to_be n v : (0 ≤ v < 256 ^ Z.of_nat n)%Z → from_be (to_be n v) = v.
Proof.
  revert v; induction n as [|n IH]; intros v Hv; cbn [to_be].
  - cbn in *. lia.
  - rewrite from_be_app, IH.
    + pose proof (Z.div_mod v 256). lia.
    + rewrite Nat2Z.inj_succ, Z.pow_succ_r in Hv by lia.
      split; [apply Z.div_pos; lia|]. apply Z.div_lt_upper_bound; lia.
Qed.

Lemma bytes_ok_to_be n v : bytes_ok (to_be n v).
Proof.
  revert v; induction n as [|n IH]; intros v; cbn; [constructor|].
  apply Forall_app; split; [apply IH|]. repeat constructor; apply Z.mod_pos_bound; lia.
Qed.

Lemma from_be_bound l : bytes_ok l → (0 ≤ from_be l < 256 ^ Z.of_nat (length l))%Z.
Proof.
  induction l as [|b l IH] using rev_ind; intros Hl; [cbn; lia|].
  apply Forall_app in Hl as [Hl Hb]. rewrite Forall_singleton in Hb.
  specialize (IH Hl). rewrite from_be_app, length_app. cbn [length].
  replace (Z.of_nat (length l + 1)) with (Z.succ (Z.of_nat (length l))) by lia.
  rewrite Z.pow_succ_r by lia. lia.
Qed.

Lemma to_from_be l : bytes_ok l → to_be (length l) (from_be l) = l.
Proof.
  induction l as [|b l IH] using rev_ind; intros Hl; [done|].
  apply Forall_app in Hl as [Hl Hb]. rewrite Forall_singleton in Hb.
  rewrite length_app, Nat.add_1_r. cbn [to_be]. rewrite from_be_app.
  rewrite Z.div_add_l by lia. rewrite (Z.div_small b) by lia.
  rewrite Z.add_0_r, IH by done. f_equal. f_equal.
  rewrite Z.add_comm, Z.mod_add by lia. apply Z.mod_small. lia.
Qed.

(** Disjoint bit fields: [|] of a shifted field and a smaller one is a sum. *)
Lemma lor_shiftl_add a b n :
  (0 ≤ n)%Z → (0 ≤ b < 2 ^ n)%Z → Z.lor (Z.shiftl a n) b = (a * 2 ^ n + b)%Z.
Proof.
  intros Hn Hb. rewrite <-Z.shiftl_mul_pow2 by done.
  assert (Hl : Z.land (Z.shiftl a n) b = 0%Z).
  { apply Z.bits_inj'. intros i Hi. rewrite Z.land_spec, Z.bits_0.
    destruct (Z.lt_ge_cases i n).
    - by rewrite Z.shiftl_spec_low.
    - rewrite <-(Z.mod_small b (2 ^ n)) by done.
      rewrite Z.mod_pow2_bits_high by lia. apply andb_false_r. }
  rewrite Z.add_nocarry_lxor by done. by rewrite Z.lxor_lor.
Qed.

(** [^] stays within the width of its operands. *)
Lemma lxor_uint w a b :
  (0 ≤ w)%Z → is_uint w a → is_uint w b → is_uint w (Z.lxor a b).
Proof.
  intros Hw Ha Hb. assert (H0 : (0 ≤ Z.lxor a b)%Z) by (apply Z.lxor_nonneg; lia).
  split; [done|]. apply Z.bounded_iff_bits_nonneg; [done|done|]. intros l Hl.
  rewrite Z.lxor_spec, (proj1 (Z.bounded_iff_bits_nonneg w a Hw ltac:(lia)) ltac:(lia)),
    (proj1 (Z.bounded_iff_bits_nonneg w b Hw ltac:(lia)) ltac:(lia)); done.
Qed.

(** Testing one bit with a mask. *)
Lemma land_pow2 v n :
  (0 ≤ n)%Z → Z.land v (2 ^ n) = (if Z.testbit v n then 2 ^ n else 0)%Z.
Proof.
  intros Hn. apply Z.bits_inj'. intros i Hi. rewrite Z.land_spec, Z.pow2_bits_eqb by done.
  destruct (Z.eqb_spec n i) as [<-|Hne].
  - destruct (Z.testbit v n); [|by rewrite Z.bits_0].
    by rewrite Z.pow2_bits_eqb, Z.eqb_refl by done.
  - rewrite andb_false_r. destruct (Z.testbit v n); [|by rewrite Z.bits_0].
    rewrite Z.pow2_bits_eqb by done. symmetry. by apply Z.eqb_neq.
Qed.

Lemma land_pow2_ne v n :
  (0 ≤ n)%Z → bool_decide (Z.land v (2 ^ n) ≠ 0)%Z = Z.testbit v n.
Proof.
  intros Hn. rewrite land_pow2 by done. pose proof (Z.pow_pos_nonneg 2 n).
  destruct (Z.testbit v n); [apply bool_decide_true; lia|apply bool_decide_false; lia].
Qed.

(** The top bit of a [u32], the sign under two's complement. *)
Lemma u32_top_bit v : is_u32 v → Z.testbit v 31 = bool_decide (2147483648 ≤ v)%Z.
Proof.
  intros Hv. rewrite Z.testbit_odd, Z.shiftr_div_pow2 by lia.
  change (2 ^ 31)%Z with 2147483648%Z. case_bool_decide.
  - replace (v / 2147483648)%Z with 1%Z; [done|].
    Z.to_euclidean_division_equations; lia.
  - by rewrite Z.div_small by lia.
Qed.

(** ** Slices *)

(** [buf[i]] and [buf[i..j]], which panic out of range. *)
Definition index {E} (buf : list Z) (i : nat) : Run E Z :=
  match buf !! i with Some b => Ret b | None => Panic end.

Definition slice {E A} (buf : list A) (i j : nat) : Run E (list A) :=
  if decide (i ≤ j ∧ j ≤ length buf) then Ret (take (j - i) (drop i buf)) else Panic.

Lemma index_ret {E} buf i : i < length buf → ∃ b, @index E buf i = Ret b ∧ buf !! i = Some b.
Proof. intros [b Hb]%lookup_lt_is_Some. exists b. unfold index. by rewrite Hb. Qed.

Lemma slice_ret {E A} (buf : list A) i j :
  i ≤ j → j ≤ length buf → @slice E A buf i j = Ret (take (j - i) (drop i buf)).
Proof. intros. unfold slice. by rewrite decide_True. Qed.

Lemma slice_middle {E A} (pre mid post : list A) i j :
  i = length pre → j = length pre + length mid →
  @slice E A (pre ++ mid ++ post) i j = Ret mid.
Proof.
  intros -> ->. rewrite slice_ret by (rewrite ?length_app; lia). f_equal.
  rewrite drop_app_length.
  replace (length pre + length mid - length pre) with (length mid) by lia.
  apply take_app_length.
Qed.

Lemma bytes_ok_take_drop l i n : bytes_ok l → bytes_ok (take n (drop i l)).
Proof. intros H. by apply Forall_take, Forall_drop. Qed.

Lemma bytes_ok_app a b : bytes_ok a → bytes_ok b → bytes_ok (a ++ b).
Proof. intros. by apply Forall_app. Qed.

#[export] Hint Resolve bytes_ok_take_drop bytes_ok_to_be bytes_ok_app : run.

(** [has_at buf pos rest]: the bytes of [buf] from [pos] on are [rest]. *)
Definition has_at (buf : list Z) (pos : nat) (rest : list Z) : Prop :=
  drop pos buf = rest ∧ pos ≤ length buf.

Lemma has_at_start pre rest : has_at (pre ++ rest) (length pre) rest.
Proof. split; [apply drop_app_length|]. rewrite length_app. lia. Qed.

Lemma has_at_split buf pos rest : has_at buf pos rest → buf = take pos buf ++ rest ∧ length (take pos buf) = pos.
Proof. intros [<- H]. rewrite take_drop. split; [done|]. rewrite length_take. lia. Qed.

Lemma has_at_app buf pos w rest : has_at buf pos (w ++ rest) → has_at buf (pos + length w) rest.
Proof.
  intros [H Hle]. split.
  - by rewrite <-drop_drop, H, drop_app_length.
  - apply (f_equal length) in H. rewrite length_drop, length_app in H. lia.
Qed.

Lemma has_at_length buf pos rest : has_at buf pos rest → length buf = pos + length rest.
Proof. intros [<- H]. rewrite length_drop. lia. Qed.

(** Turns a fact about a read at the end of a prefix into one about
    [has_at]. *)
Lemma has_at_read {E A} (f : list Z → nat → Run E A) (w : list Z) (a : nat → A) :
  (∀ pre post, f (pre ++ w ++ post) (length pre) = Ret (a (length pre + length w))) →
  ∀ buf pos rest, has_at buf pos (w ++ rest) →
    f buf pos = Ret (a (pos + length w)) ∧ has_at buf (pos + length w) rest.
Proof.
  intros Hf buf pos rest H. split; [|by apply has_at_app].
  destruct (has_at_split _ _ _ H) as [Hb Hl].
  rewrite Hb. rewrite <-Hl at 2. rewrite Hf, Hl. done.
Qed.

(** ASCII case folding of one byte: [u8::to_ascii_lowercase]. *)
Definition to_ascii_lowercase (b : Z) : Z :=
  if decide (65 ≤ b ≤ 90)%Z then (b + 32)%Z else b.

(** [eq_ignore_ascii_case] on byte slices. *)
Definition eq_ignore_ascii_case (a b : list Z) : bool :=
  bool_decide (map to_ascii_lowercase a = map to_ascii_lowercase b).

Lemma to_ascii_lowercase_idem b :
  to_ascii_lowercase (to_ascii_lowercase b) = to_ascii_lowercase b.
Proof. unfold to_ascii_lowercase. repeat case_decide; lia. Qed.

Lemma to_ascii_lowercase_u8 b : is_u8 b → is_u8 (to_ascii_lowercase b).
Proof. unfold to_ascii_lowercase. case_decide; lia. Qed.

(** ** Lists *)

Lemma sum_list_with_app {A} (f : A → nat) l k :
  sum_list_with f (l ++ k) = sum_list_with f l + sum_list_with f k.
Proof. induction l; cbn; lia. Qed.

(** ** Loops driven by a partial step on positions

    A loop whose only state that matters for control is a position below [n]
    either stops within [n] iterations or never stops: the bound that makes
    the fuel of such a loop complete. *)
Section loops.
Context (f : nat → option nat).

(** The position after [k] iterations, if the loop is still running. *)
Fixpoint iterate (k : nat) (x : nat) : option nat :=
  match k with
  | O => Some x
  | S k => f x ≫= iterate k
  end.

Lemma iterate_add i j x : iterate (i + j) x = iterate i x ≫= iterate j.
Proof.
  revert x; induction i as [|i IH]; intros x; cbn; [done|].
  destruct (f x) as [y|]; cbn; auto.
Qed.

Lemma iterate_le i j x : i ≤ j → is_Some (iterate j x) → is_Some (iterate i x).
Proof.
  intros Hij. replace j with (i + (j - i)) by lia. rewrite iterate_add.
  destruct (iterate i x); cbn; [done|]. by intros [? ?].
Qed.

Lemma iterate_cycle d y k : iterate d y = Some y → iterate (k * d) y = Some y.
Proof.
  intros Hd. induction k as [|k IH]; cbn; [done|]. by rewrite iterate_add, Hd.
Qed.

Lemma iterate_forever n x :
  (∀ y z, f y = Some z → y < n) →
  is_Some (iterate (S n) x) → ∀ k, is_Some (iterate k x).
Proof.
  intros Hf Hn k.
  set (pos i := default 0 (iterate i x)).
  assert (Hpos : ∀ i, i ≤ n → iterate i x = Some (pos i) ∧ pos i < n).
  { intros i Hi. unfold pos.
    assert (is_Some (iterate (i + 1) x)) as [z Hz] by (eapply iterate_le; [|done]; lia).
    rewrite iterate_add in Hz. destruct (iterate i x) as [y|]; [|done].
    split; [done|]. cbn in Hz |- *. destruct (f y) as [w|] eqn:Hy; [|done]. eauto. }
  destruct (nat_pigeonhole pos (S n) n) as (i & j & [Hij Hj] & Heq); [lia| |].
  { intros i Hi. apply Hpos. lia. }
  destruct (Hpos i) as [Hit _]; [lia|]. destruct (Hpos j) as [Hjt _]; [lia|].
  assert (Hcyc : iterate (j - i) (pos i) = Some (pos i)).
  { replace j with (i + (j - i)) in Hjt by lia. rewrite iterate_add, Hit in Hjt.
    cbn in Hjt. rewrite Hjt. f_equal. rewrite Heq. f_equal. lia. }
  apply (iterate_le k (i + k * (j - i))); [nia|].
  rewrite iterate_add, Hit. cbn. rewrite iterate_cycle; eauto.
Qed.
End loops.

(** ** Finite checks on bytes *)

(** Proves a decidable closed proposition by running its decision. *)
Ltac decide_eval := apply (bool_decide_unpack _); vm_compute; exact I.

Lemma u8_forall (P : Z → bool) :
  forallb (λ n, P (Z.of_nat n)) (seq 0 256) = true → ∀ b, is_u8 b → P b = true.
Proof.
  rewrite forallb_forall. intros H b Hb.
  rewrite <-(Z2Nat.id b) by lia. apply H, in_seq. lia.
Qed.

(** The same on [u16], by running the check on every value. *)
Fixpoint check_up_to (n : nat) (v : Z) (P : Z → bool) : bool :=
  match n with O => true | S n => P v && check_up_to n (v + 1) P end.

Lemma check_up_to_spec n v P :
  check_up_to n v P = true → ∀ w, (v ≤ w < v + Z.of_nat n)%Z → P w = true.
Proof.
  revert v; induction n as [|n IH]; intros v H w Hw; cbn in *; [lia|].
  apply andb_true_iff in H as [HP H].
  destruct (decide (w = v)) as [->|]; [done|]. apply (IH _ H). lia.
Qed.

Lemma u16_forall (P : Z → bool) :
  check_up_to (Z.to_nat 65536) 0 P = true → ∀ v, is_u16 v → P v = true.
Proof.
  intros H v Hv. eapply check_up_to_spec; [exact H|].
  rewrite Z2Nat.id by lia. lia.
Qed.

Lemma land_192_low b : (0 ≤ b < 64)%Z → Z.land b 192 = 0%Z.
Proof.
  intros Hb.
  pose proof (u8_forall (λ b, (64 <=? b)%Z || (Z.land b 192 =? 0)%Z)
    ltac:(vm_compute; reflexivity) b ltac:(lia)) as H. cbv beta in H.
  apply orb_true_iff in H. lia.
Qed.

Lemma land_192_zero b : is_u8 b → Z.land b 192 = 0%Z → (b < 64)%Z.
Proof.
  intros Hb Hz.
  pose proof (u8_forall (λ b, (b <? 64)%Z || negb (Z.land b 192 =? 0)%Z)
    ltac:(vm_compute; reflexivity) b Hb) as H. cbv beta in H. rewrite Hz in H.
  apply orb_true_iff in H. lia.
Qed.

Lemma land_192_full b : is_u8 b → (b < 192)%Z → Z.land b 192 ≠ 192%Z.
Proof.
  intros Hb Hlt Hz.
  pose proof (u8_forall (λ b, (192 <=? b)%Z || negb (Z.land b 192 =? 192)%Z)
    ltac:(vm_compute; reflexivity) b Hb) as H. cbv beta in H. rewrite Hz in H.
  apply orb_true_iff in H. lia.
Qed.
