(* ===== verification/CoreError.v ===== *)
(** * The workspace error type

    Models [crates/dns-lattice-core/src/error.rs]: the [Error] enum and its
    [Display] text. A [String] is a Rocq [string]; a [usize] is a [nat]; a
    [u16] is a [Z]. *)

From stdpp Require Import base strings pretty.
From S2P Require Import Prelude.

Inductive Error : Type :=
  | Truncated (len : nat)
  | BadNamePointer (offset : nat)
  | LabelTooLong (offset : nat)
  | NameTooLong
  | InvalidName
  | CountMismatch
  | RDataLengthMismatch (declared : Z)
  | InvalidClass (class : Z)
  | MessageTooLong
  | WildcardPosition
  | NoRoute
  | Timeout
  | Transport (message : string)
  | Tls (message : string)
  | Hook (message : string)
  | InvalidFakeIpRange
  | FakeIpPoolUnconfigured
  | FakeIpFamilyDisabled
  | InvalidFakeIpTtl
  | FakeIpTtlOutOfRange
  | InvalidFakeIpSnapshot.

#[export] Instance error_eq_dec : EqDecision Error.
Proof. solve_decision. Defined.

Local Open Scope string_scope.

Definition fmt (e : Error) : string :=
  match e with
  | Truncated len => "message truncated: " +:+ pretty len +:+ " bytes available"
  | BadNamePointer offset =>
      "invalid name compression pointer at offset " +:+ pretty offset
  | LabelTooLong offset => "label exceeds 63 bytes at offset " +:+ pretty offset
  | NameTooLong => "name exceeds 255 bytes"
  | InvalidName => "invalid domain name"
  | CountMismatch => "header section count does not match parsed records"
  | RDataLengthMismatch declared =>
      "rdlength " +:+ pretty declared +:+ " does not match available rdata bytes"
  | InvalidClass class => "invalid class value " +:+ pretty class
  | MessageTooLong => "encoded message would exceed 65535 bytes"
  | WildcardPosition => "wildcard label may only appear as the leftmost label"
  | NoRoute => "no split-dns rule matched and no default upstream group is configured"
  | Timeout => "upstream backend timed out"
  | Transport message => "upstream transport error: " +:+ message
  | Tls message => "upstream tls error: " +:+ message
  | Hook message => "route hook error: " +:+ message
  | InvalidFakeIpRange => "fake ip range start exceeds its end"
  | FakeIpPoolUnconfigured => "fake ip pool requires an ipv4 or ipv6 range"
  | FakeIpFamilyDisabled => "fake ip address family is not configured"
  | InvalidFakeIpTtl => "fake ip ttl must be a non-zero whole number of seconds"
  | FakeIpTtlOutOfRange =>
      "fake ip ttl cannot be represented by the pool clock or dns wire ttl"
  | InvalidFakeIpSnapshot => "invalid fake ip pool snapshot"
  end.

Example fmt_truncated : fmt (Truncated 3) = "message truncated: 3 bytes available".
Proof. vm_compute. reflexivity. Qed.
Example fmt_invalid_class : fmt (InvalidClass 9999) = "invalid class value 9999".
Proof. vm_compute. reflexivity. Qed.
