(* ===== verification/Name.v ===== *)
(** * Domain names

    Models [Name] and its wire form from
    [crates/dns-lattice-model/src/message.rs]: presentation parsing
    ([from_ascii]), case-insensitive equality and suffix test, the
    big-endian readers and writers, and name decoding (with compression
    pointers) and encoding. A [&str] is the list of its UTF-8 bytes; a
    [usize] position is a [nat]. *)

From stdpp Require Import base numbers list.
From S2P Require Import Prelude CoreError.

Record Name : Type := mkName { labels : list (list Z) }.

#[export] Instance name_eq_dec : EqDecision Name.
Proof. solve_decision. Defined.

Definition root : Name := mkName [].

Definition is_root (n : Name) : bool := bool_decide (labels n = []).

Definition label_count (n : Name) : nat := length (labels n).

(** The encoded length: one length byte per label and the final zero. *)
Definition total_length (n : Name) : nat :=
  sum_list_with (λ l, length l + 1) (labels n) + 1.

Definition check_total_length (n : Name) : Result Error unit :=
  if decide (255 < total_length n) then Err NameTooLong else Ok tt.

Definition lowercased_labels (n : Name) : list (list Z) :=
  map (map to_ascii_lowercase) (labels n).

(** [PartialEq for Name] *)
Definition name_eq (a b : Name) : bool :=
  bool_decide (lowercased_labels a = lowercased_labels b).

Definition ends_with (self suffix : Name) : bool :=
  if decide (length (labels self) < length (labels suffix)) then false
  else
    let offset := length (labels self) - length (labels suffix) in
    forallb (λ p, eq_ignore_ascii_case p.1 p.2)
      (combine (drop offset (labels self)) (labels suffix)).

(** ** Presentation form *)

Definition dot : Z := 46.

(** [str::split('.')]: the segments between the dots, at least one. *)
Fixpoint split_dots (s : list Z) : list (list Z) :=
  match s with
  | [] => [[]]
  | c :: s =>
      if decide (c = dot) then [] :: split_dots s
      else match split_dots s with
           | seg :: segs => (c :: seg) :: segs
           | [] => [[c]]
           end
  end.

(** [s.strip_suffix('.').unwrap_or(s)] *)
Definition strip_trailing_dot (s : list Z) : list Z :=
  if decide (last s = Some dot) then take (length s - 1) s else s.

(** The loop body of [from_ascii] over the parts, in order. *)
Fixpoint parts_to_labels (parts : list (list Z)) : Result Error (list (list Z)) :=
  match parts with
  | [] => Ok []
  | part :: parts =>
      if decide (part = []) then Err InvalidName
      else if decide (Forall (λ b, b < 128)%Z part) then
        if decide (63 < length part) then Err (LabelTooLong 0)
        else rest ← parts_to_labels parts; Ok (part :: rest)
      else Err InvalidName
  end.

Definition from_ascii (s : list Z) : Result Error Name :=
  if decide (s = [] ∨ s = [dot]) then Ok root
  else
    let trimmed := strip_trailing_dot s in
    if decide (trimmed = []) then Err InvalidName
    else
      ls ← parts_to_labels (split_dots trimmed);
      let name := mkName ls in
      _ ← check_total_length name;
      Ok name.

(** [String::from_utf8_lossy]: every maximal ill-formed part of a UTF-8
    sequence becomes U+FFFD. *)
Definition replacement : list Z := [239; 191; 189]%Z.

Definition continuation (b : Z) : bool := (128 <=? b)%Z && (b <=? 191)%Z.

(** Whether [b] may follow the lead byte [l] of a sequence of three or four. *)
Definition second3 (l b : Z) : bool :=
  if (l =? 224)%Z then (160 <=? b)%Z && (b <=? 191)%Z
  else if (l =? 237)%Z then (128 <=? b)%Z && (b <=? 159)%Z
  else continuation b.
Definition second4 (l b : Z) : bool :=
  if (l =? 240)%Z then (144 <=? b)%Z && (b <=? 191)%Z
  else if (l =? 244)%Z then (128 <=? b)%Z && (b <=? 143)%Z
  else continuation b.

(** The length of the first part of [s], and whether it is well formed. *)
Definition utf8_part (s : list Z) : nat * bool :=
  match s with
  | [] => (0, true)
  | l :: s =>
      if (l <? 128)%Z then (1, true)
      else if (194 <=? l)%Z && (l <=? 223)%Z then
        match s with
        | b :: _ => if continuation b then (2, true) else (1, false)
        | [] => (1, false)
        end
      else if (224 <=? l)%Z && (l <=? 239)%Z then
        match s with
        | b :: s =>
            if second3 l b then
              match s with
              | c :: _ => if continuation c then (3, true) else (2, false)
              | [] => (2, false)
              end
            else (1, false)
        | [] => (1, false)
        end
      else if (240 <=? l)%Z && (l <=? 244)%Z then
        match s with
        | b :: s =>
            if second4 l b then
              match s with
              | c :: s =>
                  if continuation c then
                    match s with
                    | d :: _ => if continuation d then (4, true) else (3, false)
                    | [] => (3, false)
                    end
                  else (2, false)
              | [] => (2, false)
              end
            else (1, false)
        | [] => (1, false)
        end
      else (1, false)
  end.

(** Every part has at least one byte, so [length s] steps are enough. *)
Fixpoint utf8_lossy (fuel : nat) (s : list Z) : list Z :=
  match fuel, s with
  | S fuel, _ :: _ =>
      let '(n, good) := utf8_part s in
      (if good then take n s else replacement) ++ utf8_lossy fuel (drop n s)
  | _, _ => []
  end.

Definition from_utf8_lossy (s : list Z) : list Z := utf8_lossy (length s) s.

(** [Display for Name] *)
Definition fmt_name (n : Name) : list Z :=
  if is_root n then [dot]
  else concat (map (λ label, from_utf8_lossy label ++ [dot]) (labels n)).

(** ** Big-endian readers and writers *)

Definition read_u16 (buf : list Z) (pos : nat) : Run Error (Z * nat) :=
  if decide (length buf < pos + 2) then Throw (Truncated (length buf))
  else
    a ← index buf pos; b ← index buf (pos + 1);
    Ret (from_be [a; b], pos + 2).

Definition read_u32 (buf : list Z) (pos : nat) : Run Error (Z * nat) :=
  if decide (length buf < pos + 4) then Throw (Truncated (length buf))
  else
    a ← index buf pos; b ← index buf (pos + 1);
    c ← index buf (pos + 2); d ← index buf (pos + 3);
    Ret (from_be [a; b; c; d], pos + 4).

Definition write_u16 (buf : list Z) (value : Z) : list Z := buf ++ to_be 2 value.
Definition write_u32 (buf : list Z) (value : Z) : list Z := buf ++ to_be 4 value.

(** ** Decoding *)

(** The local variables of [decode_name]'s loop. *)
Record Cursor : Type := mkCursor {
  c_labels : list (list Z);
  c_cur : nat;
  c_jumped : bool;
  c_real_end : nat;
}.

(** One iteration of the loop: [inl] to go round again ([continue] or the end
    of the body), [inr] for [break]. *)
Definition decode_name_step (buf : list Z) (c : Cursor) : Run Error (Cursor + Cursor) :=
  let cur := c_cur c in
  if decide (length buf ≤ cur) then Throw (Truncated (length buf))
  else
    len_byte ← index buf cur;
    if decide (Z.land len_byte 192 = 192)%Z then
      if decide (length buf ≤ cur + 1) then Throw (Truncated (length buf))
      else
        low ← index buf (cur + 1);
        let pointer := Z.to_nat (Z.lor (Z.shiftl (Z.land len_byte 63) 8) low) in
        let real_end := if c_jumped c then c_real_end c else cur + 2 in
        if decide (cur ≤ pointer) then Throw (BadNamePointer cur)
        else Ret (inl (mkCursor (c_labels c) pointer true real_end))
    else if decide (Z.land len_byte 192 ≠ 0)%Z then Throw (BadNamePointer cur)
    else if decide (len_byte = 0)%Z then
      Ret (inr (mkCursor (c_labels c) (cur + 1) (c_jumped c) (c_real_end c)))
    else
      let len := Z.to_nat len_byte in
      if decide (63 < len) then Throw (LabelTooLong cur)
      else
        let cur := cur + 1 in
        if decide (length buf < cur + len) then Throw (Truncated (length buf))
        else
          label ← slice buf cur (cur + len);
          Ret (inl (mkCursor (c_labels c ++ [label]) (cur + len) (c_jumped c) (c_real_end c))).

(** The loop, cut off with [Hang] after [fuel] iterations. *)
Fixpoint decode_name_loop (fuel : nat) (buf : list Z) (c : Cursor) : Run Error Cursor :=
  match fuel with
  | O => Hang
  | S fuel =>
      next ← decode_name_step buf c;
      match next with
      | inl c' => decode_name_loop fuel buf c'
      | inr c' => Ret c'
      end
  end.

(** [decode_name] with its loop bounded by one iteration more than the buffer
    has bytes. That bound is complete: when it runs out, no number of
    iterations ends the loop ([decode_name_loop_hang]), so [Hang] here means
    that the Rust code does not return. *)
Definition decode_name (buf : list Z) (pos : nat) : Run Error (Name * nat) :=
  c ← decode_name_loop (S (length buf)) buf (mkCursor [] pos false 0);
  let name := mkName (c_labels c) in
  _ ← lift (check_total_length name);
  Ret (name, if c_jumped c then c_real_end c else c_cur c).

(** ** Encoding *)

Fixpoint encode_labels (ls : list (list Z)) (buf : list Z) : Result Error (list Z) :=
  match ls with
  | [] => Ok buf
  | label :: ls =>
      if decide (63 < length label) then Err (LabelTooLong (length buf))
      else encode_labels ls (buf ++ [Z.of_nat (length label)] ++ label)
  end.

(** [encode_name] appends to [buf]; what a failed call leaves in the buffer is
    discarded by every caller and is not modelled. *)
Definition encode_name (n : Name) (buf : list Z) : Result Error (list Z) :=
  _ ← check_total_length n;
  buf ← encode_labels (labels n) buf;
  Ok (buf ++ [0%Z]).

(** ** Equality and suffixes *)

Section equality.
Implicit Types n m : Name.

#[export] Instance name_equiv : Equiv Name := λ n m, Is_true (name_eq n m).

Lemma name_eq_spec n m : name_eq n m = true ↔ lowercased_labels n = lowercased_labels m.
Proof. apply bool_decide_eq_true. Qed.

Lemma name_equiv_eq n m : n ≡ m ↔ name_eq n m = true.
Proof. apply Is_true_true. Qed.

Lemma name_equiv_spec n m : n ≡ m ↔ lowercased_labels n = lowercased_labels m.
Proof. by rewrite name_equiv_eq, name_eq_spec. Qed.

#[export] Instance name_equivalence : Equivalence (≡@{Name}).
Proof.
  split.
  - intros n. by apply name_equiv_spec.
  - intros n m. rewrite !name_equiv_spec. done.
  - intros n m k. rewrite !name_equiv_spec. congruence.
Qed.

Lemma length_lowercased_labels n : length (lowercased_labels n) = label_count n.
Proof. apply length_map. Qed.

#[export] Instance label_count_proper : Proper ((≡) ==> (=)) label_count.
Proof. intros n m H%name_equiv_spec. by rewrite <-!length_lowercased_labels, H. Qed.

Lemma all_eq_ignore_case (a b : list (list Z)) :
  length a = length b →
  forallb (λ p, eq_ignore_ascii_case p.1 p.2) (combine a b) = true ↔
  map (map to_ascii_lowercase) a = map (map to_ascii_lowercase) b.
Proof.
  revert b; induction a as [|x a IH]; intros [|y b] Hl; cbn in *; try done.
  rewrite andb_true_iff, IH by lia. unfold eq_ignore_ascii_case.
  rewrite bool_decide_eq_true. split; [intros [-> ->]; done|].
  intros [= -> ->]. done.
Qed.

(** [ends_with] is the suffix order of the case-folded label lists. *)
Lemma ends_with_spec n m :
  ends_with n m = true ↔ lowercased_labels m `suffix_of` lowercased_labels n.
Proof.
  unfold ends_with, lowercased_labels. case_decide as Hlen.
  - split; [done|]. intros [k Hk]. apply (f_equal length) in Hk.
    rewrite length_app, !length_map in Hk. lia.
  - set (off := length (labels n) - length (labels m)).
    rewrite all_eq_ignore_case by (rewrite length_drop; lia).
    split.
    + intros Heq. exists (map (map to_ascii_lowercase) (take off (labels n))).
      rewrite <-Heq, <-map_app, take_drop. done.
    + intros [k Hk].
      assert (length k = off) as Hk'.
      { apply (f_equal length) in Hk. rewrite length_app, !length_map in Hk. lia. }
      replace (map (map to_ascii_lowercase) (drop off (labels n)))
        with (drop off (map (map to_ascii_lowercase) (labels n)))
        by (apply skipn_map).
      by rewrite Hk, <-Hk', drop_app_length.
Qed.

#[export] Instance ends_with_proper : Proper ((≡) ==> (≡) ==> (=)) ends_with.
Proof.
  intros n n' Hn%name_equiv_spec m m' Hm%name_equiv_spec.
  apply eq_true_iff_eq. by rewrite !ends_with_spec, Hn, Hm.
Qed.

#[export] Instance name_eq_proper : Proper ((≡) ==> (≡) ==> (=)) name_eq.
Proof.
  intros n n' Hn m m' Hm. apply eq_true_iff_eq. rewrite <-!name_equiv_eq. by rewrite Hn, Hm.
Qed.

Lemma ends_with_refl n : ends_with n n = true.
Proof. by apply ends_with_spec. Qed.

Lemma ends_with_trans n m k :
  ends_with n m = true → ends_with m k = true → ends_with n k = true.
Proof. rewrite !ends_with_spec. intros; by etrans. Qed.

Lemma ends_with_root n : ends_with n root = true.
Proof. apply ends_with_spec. apply suffix_nil. Qed.

Lemma ends_with_antisym n m :
  ends_with n m = true → label_count n ≤ label_count m → name_eq n m = true.
Proof.
  rewrite ends_with_spec, name_eq_spec, <-!length_lowercased_labels.
  intros [k Hk] Hlen. rewrite Hk, length_app in Hlen.
  destruct k as [|x k]; [done|cbn in *; lia].
Qed.
End equality.

(** ** Well-formed names *)

Definition label_ok (l : list Z) : Prop := 1 ≤ length l ≤ 63 ∧ bytes_ok l.

(** What the wire format can carry: labels of 1 to 63 bytes, at most 255
    bytes in all. *)
Definition wf_name (n : Name) : Prop :=
  Forall label_ok (labels n) ∧ total_length n ≤ 255.

Lemma wf_root : wf_name root.
Proof. split; [constructor|cbn; lia]. Qed.

Lemma check_total_length_ok n : check_total_length n = Ok tt ↔ total_length n ≤ 255.
Proof. unfold check_total_length. case_decide; split; (done || lia). Qed.

Lemma parts_to_labels_ok parts ls :
  bytes_ok (concat parts) → parts_to_labels parts = Ok ls →
  ls = parts ∧ Forall label_ok ls.
Proof.
  revert ls; induction parts as [|p parts IH]; intros ls Hb H; cbn in H; [by run_inv|].
  cbn in Hb. apply Forall_app in Hb as [Hp Hb].
  repeat case_decide; try discriminate H.
  run_inv. destruct (IH _ Hb Er) as [-> Hls]. split; [done|].
  constructor; [|done]. split; [|done]. destruct p; cbn in *; [done|lia].
Qed.

Lemma split_dots_bytes s : bytes_ok s → bytes_ok (concat (split_dots s)).
Proof.
  induction s as [|c s IH]; intros Hs; cbn; [constructor|].
  apply Forall_cons in Hs as [Hc Hs]. specialize (IH Hs).
  case_decide; [done|]. destruct (split_dots s); cbn in *;
    (apply Forall_cons_2; [done|done || constructor]).
Qed.

(** A parsed name is well formed. *)
Lemma from_ascii_wf s n : bytes_ok s → from_ascii s = Ok n → wf_name n.
Proof.
  intros Hs H. unfold from_ascii in H. case_decide; [run_inv; apply wf_root|].
  case_decide; [discriminate H|]. run_inv. destruct r0.
  apply parts_to_labels_ok in Er as [-> Hls].
  - split; [done|]. by apply check_total_length_ok.
  - apply split_dots_bytes. unfold strip_trailing_dot. case_decide; [|done].
    by apply Forall_take.
Qed.

(** ** Reading *)

Lemma bytes_ok_lookup buf i b : bytes_ok buf → buf !! i = Some b → is_u8 b.
Proof. intros H. by apply (Forall_lookup_1 _ _ _ _ H). Qed.

Lemma index_spec buf i b : @index Error buf i = Ret b ↔ buf !! i = Some b.
Proof. unfold index. destruct (buf !! i); naive_solver. Qed.

Lemma lookup_middle (pre mid post : list Z) i b :
  mid !! i = Some b → (pre ++ mid ++ post) !! (length pre + i) = Some b.
Proof.
  intros H. rewrite lookup_app_r by lia. replace (_ + _ - _) with i by lia.
  by rewrite lookup_app_l by (by eapply lookup_lt_Some).
Qed.

Lemma index_middle pre mid post i j b :
  j = length pre + i → mid !! i = Some b → @index Error (pre ++ mid ++ post) j = Ret b.
Proof. intros -> H. apply index_spec. by apply lookup_middle. Qed.

(** Reading back what the writers wrote, wherever it is in the buffer. *)
Lemma read_u16_bytes pre post a b :
  read_u16 (pre ++ [a; b] ++ post) (length pre) = Ret (from_be [a; b], length pre + 2).
Proof.
  unfold read_u16. rewrite decide_False by (rewrite !length_app; cbn [length]; lia).
  rewrite (index_middle pre [a; b] post 0 (length pre) a), (index_middle pre [a; b] post 1 (length pre + 1) b)
    by (done || lia). done.
Qed.

Lemma read_u32_bytes pre post a b c d :
  read_u32 (pre ++ [a; b; c; d] ++ post) (length pre) =
  Ret (from_be [a; b; c; d], length pre + 4).
Proof.
  unfold read_u32. rewrite decide_False by (rewrite !length_app; cbn [length]; lia).
  rewrite (index_middle pre [a; b; c; d] post 0 (length pre) a),
    (index_middle pre [a; b; c; d] post 1 (length pre + 1) b),
    (index_middle pre [a; b; c; d] post 2 (length pre + 2) c),
    (index_middle pre [a; b; c; d] post 3 (length pre + 3) d) by (done || lia). done.
Qed.

Lemma read_u16_at pre post v :
  is_u16 v → read_u16 (pre ++ to_be 2 v ++ post) (length pre) = Ret (v, length pre + 2).
Proof.
  intros Hv. pose proof (from_to_be 2 v ltac:(cbn; lia)) as Hr.
  pose proof (length_to_be 2 v) as Hl.
  destruct (to_be 2 v) as [|a [|b [|]]]; try discriminate Hl.
  by rewrite read_u16_bytes, Hr.
Qed.

Lemma read_u32_at pre post v :
  is_u32 v → read_u32 (pre ++ to_be 4 v ++ post) (length pre) = Ret (v, length pre + 4).
Proof.
  intros Hv. pose proof (from_to_be 4 v ltac:(cbn; lia)) as Hr.
  pose proof (length_to_be 4 v) as Hl.
  destruct (to_be 4 v) as [|a [|b [|c [|d [|]]]]]; try discriminate Hl.
  by rewrite read_u32_bytes, Hr.
Qed.

Lemma read_u16_has buf pos v rest :
  is_u16 v → has_at buf pos (to_be 2 v ++ rest) →
  read_u16 buf pos = Ret (v, pos + 2) ∧ has_at buf (pos + 2) rest.
Proof.
  intros Hv. rewrite <-(length_to_be 2 v). apply (has_at_read read_u16 (to_be 2 v) (pair v)).
  intros. rewrite length_to_be. by apply read_u16_at.
Qed.

Lemma read_u32_has buf pos v rest :
  is_u32 v → has_at buf pos (to_be 4 v ++ rest) →
  read_u32 buf pos = Ret (v, pos + 4) ∧ has_at buf (pos + 4) rest.
Proof.
  intros Hv. rewrite <-(length_to_be 4 v). apply (has_at_read read_u32 (to_be 4 v) (pair v)).
  intros. rewrite length_to_be. by apply read_u32_at.
Qed.

(** A successful read stays inside the buffer and returns a value of the
    right width. *)
Lemma read_u16_ret buf pos v pos' :
  read_u16 buf pos = Ret (v, pos') →
  pos' = pos + 2 ∧ pos' ≤ length buf ∧ (bytes_ok buf → is_u16 v).
Proof.
  unfold read_u16. case_decide; [done|]. intros H0. run_inv.
  split; [done|split; [lia|intros Hb]];
    apply index_spec in Er, Er0; cbn;
    pose proof (bytes_ok_lookup _ _ _ Hb Er); pose proof (bytes_ok_lookup _ _ _ Hb Er0); lia.
Qed.

Lemma read_u32_ret buf pos v pos' :
  read_u32 buf pos = Ret (v, pos') →
  pos' = pos + 4 ∧ pos' ≤ length buf ∧ (bytes_ok buf → is_u32 v).
Proof.
  unfold read_u32. case_decide; [done|]. intros H0. run_inv.
  split; [done|split; [lia|intros Hb]];
    apply index_spec in Er, Er0, Er1, Er2; cbn;
    pose proof (bytes_ok_lookup _ _ _ Hb Er); pose proof (bytes_ok_lookup _ _ _ Hb Er0);
    pose proof (bytes_ok_lookup _ _ _ Hb Er1); pose proof (bytes_ok_lookup _ _ _ Hb Er2); lia.
Qed.

Lemma no_panic_index buf i : i < length buf → no_panic (@index Error buf i).
Proof. intros H. destruct (index_ret (E:=Error) buf i H) as (b & -> & _). done. Qed.

Lemma no_panic_slice {A} (buf : list A) i j :
  i ≤ j → j ≤ length buf → no_panic (@slice Error A buf i j).
Proof. intros. by rewrite slice_ret. Qed.

#[export] Hint Resolve no_panic_index no_panic_slice : run.

(** Discharges [no_panic] goals step by step; [lia] closes the bounds. *)
Ltac no_panic :=
  repeat first
    [ progress (cbn beta iota zeta)
    | done
    | solve [eauto with run]
    | apply no_panic_index; lia
    | apply no_panic_slice; lia
    | lazymatch goal with |- no_panic (match ?a with (_, _) => _ end) => destruct a end
    | apply no_panic_bind; [|intros]
    | case_decide ].

Lemma no_panic_read_u16 buf pos : no_panic (read_u16 buf pos).
Proof. unfold read_u16. no_panic. Qed.
Lemma no_panic_read_u32 buf pos : no_panic (read_u32 buf pos).
Proof. unfold read_u32. no_panic. Qed.

#[export] Hint Resolve no_panic_read_u16 no_panic_read_u32 : run.

(** ** The decoding loop *)

Lemma no_panic_decode_name_step buf c : no_panic (decode_name_step buf c).
Proof. unfold decode_name_step. no_panic. Qed.

Lemma no_panic_decode_name_loop fuel buf c : no_panic (decode_name_loop fuel buf c).
Proof.
  revert c; induction fuel as [|fuel IH]; intros c; cbn [decode_name_loop]; [done|].
  apply no_panic_bind; [apply no_panic_decode_name_step|].
  intros [c'|c'] _; [apply IH|done].
Qed.

Lemma no_panic_decode_name buf pos : no_panic (decode_name buf pos).
Proof.
  unfold decode_name. apply no_panic_bind; [apply no_panic_decode_name_loop|].
  intros c _. no_panic.
Qed.

#[export] Hint Resolve no_panic_decode_name : run.

(** The position one iteration moves to, when it goes round again. It does
    not depend on the labels read so far. *)
Definition step_cur (buf : list Z) (cur : nat) : option nat :=
  match decode_name_step buf (mkCursor [] cur false 0) with
  | Ret (inl c') => Some (c_cur c')
  | _ => None
  end.

Lemma step_cur_spec buf c :
  step_cur buf (c_cur c) =
  match decode_name_step buf c with Ret (inl c') => Some (c_cur c') | _ => None end.
Proof.
  unfold step_cur, decode_name_step, index, slice. cbn [c_cur c_labels c_jumped c_real_end].
  case_decide; [done|]. destruct (buf !! c_cur c); cbn; [|done].
  case_decide.
  - case_decide; [done|]. destruct (buf !! _); cbn; [|done]. by case_decide.
  - repeat (case_decide; cbn; try done).
Qed.

Lemma step_cur_lt buf cur z : step_cur buf cur = Some z → cur < length buf.
Proof.
  unfold step_cur, decode_name_step. cbn [c_cur]. case_decide; [done|]. lia.
Qed.

Lemma step_no_hang buf c : decode_name_step buf c ≠ Hang.
Proof.
  unfold decode_name_step, index, slice.
  case_decide; [done|]. destruct (buf !! c_cur c); cbn; [|done].
  case_decide.
  - case_decide; [done|]. destruct (buf !! _); cbn; [|done]. by case_decide.
  - repeat (case_decide; cbn; try done).
Qed.

Lemma decode_name_loop_iterate fuel buf c :
  decode_name_loop fuel buf c = Hang ↔ is_Some (iterate (step_cur buf) fuel (c_cur c)).
Proof.
  revert c; induction fuel as [|fuel IH]; intros c; cbn [decode_name_loop iterate].
  { split; [eauto|done]. }
  rewrite step_cur_spec. unfold step_cur in IH.
  destruct (decode_name_step buf c) as [[c'|c']| | |] eqn:Hs; cbn; try (split; [done|by intros []]).
  - apply IH.
  - by destruct (step_no_hang buf c).
Qed.

(** The fuel is complete: if one iteration more than the buffer has bytes is
    not enough, no number of iterations is. *)
Lemma decode_name_loop_hang buf c :
  decode_name_loop (S (length buf)) buf c = Hang →
  ∀ fuel, decode_name_loop fuel buf c = Hang.
Proof.
  rewrite decode_name_loop_iterate. intros H fuel.
  rewrite decode_name_loop_iterate. eapply iterate_forever; [|done].
  apply step_cur_lt.
Qed.

Lemma decode_name_loop_mono fuel fuel' buf c :
  fuel ≤ fuel' → decode_name_loop fuel buf c ≠ Hang →
  decode_name_loop fuel' buf c = decode_name_loop fuel buf c.
Proof.
  revert fuel' c; induction fuel as [|fuel IH]; intros fuel' c Hle Hne; [done|].
  destruct fuel' as [|fuel']; [lia|]. cbn [decode_name_loop] in *.
  destruct (decode_name_step buf c) as [[c'|c']| | |]; cbn in *; try done.
  apply IH; [lia|done].
Qed.

(** ** Wire form *)

(** The uncompressed wire form of a list of labels, without the final zero. *)
Definition labels_wire (ls : list (list Z)) : list Z :=
  concat (map (λ l, Z.of_nat (length l) :: l) ls).

Definition name_wire (n : Name) : list Z := labels_wire (labels n) ++ [0%Z].

Lemma length_name_wire n : length (name_wire n) = total_length n.
Proof.
  unfold name_wire, total_length. rewrite length_app. cbn [length]. f_equal.
  induction (labels n) as [|l ls IH]; cbn; [done|].
  rewrite length_app, <-IH. unfold labels_wire. lia.
Qed.

Lemma bytes_ok_name_wire n : wf_name n → bytes_ok (name_wire n).
Proof.
  intros [H _]. apply bytes_ok_app; [|by repeat constructor].
  unfold labels_wire. induction H as [|l ls [Hl Hb] _ IH]; cbn; [constructor|].
  apply Forall_cons; split; [lia|]. by apply bytes_ok_app.
Qed.

(** [encode_name] is the wire form, appended; on a well-formed name it
    succeeds. *)
Lemma encode_name_wf n buf : wf_name n → encode_name n buf = Ok (buf ++ name_wire n).
Proof.
  intros [Hls Htot]. unfold encode_name.
  rewrite (proj2 (check_total_length_ok n) Htot). cbn [mbind result_bind].
  assert (encode_labels (labels n) buf = Ok (buf ++ labels_wire (labels n))) as ->.
  { clear Htot. revert buf. induction Hls as [|l ls [Hl Hb] _ IH]; intros buf; cbn.
    - by rewrite app_nil_r.
    - rewrite decide_False by lia. rewrite IH, <-!app_assoc. done. }
  cbn. unfold name_wire. by rewrite app_assoc.
Qed.

(** Whatever [encode_name] accepts, its output is the wire form: the errors
    are the only way it departs from it. *)
Lemma encode_name_ok n buf out :
  encode_name n buf = Ok out → out = buf ++ name_wire n ∧ total_length n ≤ 255.
Proof.
  unfold encode_name, name_wire. intros H. run_inv. destruct r.
  apply check_total_length_ok in Er. split; [|done].
  rewrite app_assoc. f_equal. revert buf r0 Er0. unfold labels_wire.
  induction (labels n) as [|l ls IH]; intros buf r0 H; cbn in *.
  - run_inv. by rewrite app_nil_r.
  - case_decide; [done|]. apply IH in H as ->. by rewrite <-!app_assoc.
Qed.

(** ** Round trip *)

Lemma decode_step_label pre l post acc j r :
  label_ok l →
  decode_name_step (pre ++ (Z.of_nat (length l) :: l) ++ post) (mkCursor acc (length pre) j r) =
  Ret (inl (mkCursor (acc ++ [l]) (length pre + S (length l)) j r)).
Proof.
  intros [Hl _]. unfold decode_name_step. cbn [c_cur c_labels c_jumped c_real_end].
  rewrite decide_False by (rewrite !length_app; cbn [length]; lia).
  rewrite (index_middle pre (Z.of_nat (length l) :: l) post 0 (length pre) (Z.of_nat (length l))) by (done || lia).
  cbn [mbind run_bind]. rewrite land_192_low by lia.
  rewrite decide_False by done. rewrite decide_False by (intros []; done).
  rewrite decide_False by lia. rewrite decide_False by lia.
  rewrite decide_False by (rewrite !length_app; cbn [length]; lia).
  rewrite Nat2Z.id.
  replace (pre ++ (Z.of_nat (length l) :: l) ++ post)
    with ((pre ++ [Z.of_nat (length l)]) ++ l ++ post) by (by rewrite <-app_assoc).
  rewrite slice_middle by (rewrite ?length_app; cbn [length]; lia).
  cbn [mbind run_bind]. do 3 f_equal. lia.
Qed.

Lemma decode_step_zero pre post acc j r :
  decode_name_step (pre ++ [0%Z] ++ post) (mkCursor acc (length pre) j r) =
  Ret (inr (mkCursor acc (length pre + 1) j r)).
Proof.
  unfold decode_name_step. cbn [c_cur c_labels c_jumped c_real_end].
  rewrite decide_False by (rewrite !length_app; cbn [length]; lia).
  by rewrite (index_middle pre [0%Z] post 0 (length pre) 0%Z) by (done || lia).
Qed.

Lemma decode_loop_wire ls pre post fuel acc j r :
  Forall label_ok ls → length ls < fuel →
  decode_name_loop fuel (pre ++ labels_wire ls ++ [0%Z] ++ post) (mkCursor acc (length pre) j r) =
  Ret (mkCursor (acc ++ ls) (length pre + length (labels_wire ls) + 1) j r).
Proof.
  intros Hls. revert pre fuel acc.
  induction Hls as [|l ls Hl Hls IH]; intros pre fuel acc Hf; (destruct fuel as [|fuel]; [cbn in Hf; lia|]);
    cbn [decode_name_loop].
  - cbn [labels_wire concat map app].
    rewrite (decode_step_zero pre post). cbn [mbind run_bind]. rewrite app_nil_r.
    do 2 f_equal. cbn. lia.
  - unfold labels_wire in *. cbn [concat map]. rewrite <-app_assoc.
    rewrite decode_step_label by done. cbn [mbind run_bind].
    rewrite app_assoc.
    replace (length pre + S (length l)) with (length (pre ++ Z.of_nat (length l) :: l))
      by (rewrite length_app; cbn; lia).
    rewrite IH by (cbn in Hf; lia). rewrite <-app_assoc. do 2 f_equal.
    rewrite !length_app. cbn [length]. lia.
Qed.

Lemma length_labels_wire ls : length ls ≤ length (labels_wire ls).
Proof.
  unfold labels_wire. induction ls as [|l ls IH]; cbn; [lia|]. rewrite length_app. lia.
Qed.

(** Decoding an encoded name gives the name back, with its case, and moves
    past it. *)
Lemma decode_name_wire n pre post :
  wf_name n →
  decode_name (pre ++ name_wire n ++ post) (length pre) =
  Ret (n, length pre + length (name_wire n)).
Proof.
  intros [Hls Htot]. unfold decode_name, name_wire. rewrite <-app_assoc.
  rewrite decode_loop_wire; [|done|].
  - cbn [mbind run_bind c_labels c_jumped c_cur app]. destruct n as [ls]. cbn [labels] in *.
    rewrite (proj2 (check_total_length_ok (mkName ls)) Htot). cbn.
    do 2 f_equal. rewrite length_app. cbn. lia.
  - pose proof (length_labels_wire (labels n)). rewrite !length_app. lia.
Qed.

Lemma decode_name_has n buf pos rest :
  wf_name n → has_at buf pos (name_wire n ++ rest) →
  decode_name buf pos = Ret (n, pos + length (name_wire n)) ∧
  has_at buf (pos + length (name_wire n)) rest.
Proof.
  intros Hn. apply (has_at_read decode_name (name_wire n) (pair n)).
  intros. by apply decode_name_wire.
Qed.

(** Runs the read at the head of a decoder: rewrites the goal with the value
    read and moves the [has_at] hypothesis past it. *)
Ltac read_step :=
  lazymatch goal with
  | H : has_at ?buf ?pos (to_be 2 ?v ++ _) |- context [read_u16 ?buf ?pos] =>
      let E := fresh in let H' := fresh "Hat" in
      destruct (read_u16_has _ _ v _ ltac:(done || lia) H) as [E H'];
      rewrite E; clear E H; cbn [mbind run_bind]
  | H : has_at ?buf ?pos (to_be 4 ?v ++ _) |- context [read_u32 ?buf ?pos] =>
      let E := fresh in let H' := fresh "Hat" in
      destruct (read_u32_has _ _ v _ ltac:(done || lia) H) as [E H'];
      rewrite E; clear E H; cbn [mbind run_bind]
  | H : has_at ?buf ?pos (name_wire ?n ++ _) |- context [decode_name ?buf ?pos] =>
      let E := fresh in let H' := fresh "Hat" in
      destruct (decode_name_has n _ _ _ ltac:(done) H) as [E H'];
      rewrite E; clear E H; cbn [mbind run_bind]
  end.

(** ** What decoding returns *)

Definition cursor_ok (buf : list Z) (start : nat) (c : Cursor) : Prop :=
  (bytes_ok buf → Forall label_ok (c_labels c)) ∧
  (if c_jumped c then start < c_real_end c ≤ length buf else start ≤ c_cur c).

Lemma decode_step_ok buf start c next :
  cursor_ok buf start c → decode_name_step buf c = Ret next →
  match next with
  | inl c' => cursor_ok buf start c'
  | inr c' => cursor_ok buf start c' ∧ start < c_cur c' ∨
              cursor_ok buf start c' ∧ c_jumped c' = true
  end ∧
  match next with inl _ => True | inr c' => c_cur c' ≤ length buf end.
Proof.
  intros [Hls Hpos]. destruct c as [ls cur j re]. unfold decode_name_step.
  cbn [c_cur c_labels c_jumped c_real_end] in *. intros H.
  case_decide as Hcur; [done|]. run_inv. rename r into b.
  apply index_spec in Er.
  case_decide as Hptr.
  { case_decide; [done|]. run_inv. case_decide; [done|]. run_inv.
    split; [|done]. split; [done|]. cbn. destruct j; [done|lia]. }
  case_decide as Hres; [done|]. case_decide as Hz.
  { run_inv. cbn. split; [|lia]. destruct j; [right|left]; (split; [split; cbn; auto; lia|]); (lia || done). }
  case_decide; [done|]. case_decide; [done|]. run_inv. split; [|done].
  unfold slice in Er0. case_decide; [|done]. run_inv.
  split; cbn; [|destruct j; lia]. intros Hb. specialize (Hls Hb).
  apply Forall_app; split; [done|]. constructor; [|constructor].
  pose proof (bytes_ok_lookup _ _ _ Hb Er).
  split; [|by apply bytes_ok_take_drop]. rewrite length_take, length_drop. lia.
Qed.

Lemma decode_loop_ok fuel buf start c c' :
  cursor_ok buf start c → decode_name_loop fuel buf c = Ret c' →
  cursor_ok buf start c' ∧ (c_jumped c' = false → start < c_cur c' ≤ length buf).
Proof.
  revert c; induction fuel as [|fuel IH]; intros c Hc H; cbn in H; [done|].
  run_inv. pose proof (decode_step_ok _ _ _ _ Hc Er) as [Hs Hle]. destruct r as [c1|c1].
  - by apply (IH c1).
  - run_inv. destruct Hs as [[? ?]|[? ?]]; (split; [done|intros Hj]); (lia || congruence).
Qed.

(** A decoded name is well formed and its decoding consumes at least one byte
    of the buffer. *)
Lemma decode_name_ret buf pos n pos' :
  decode_name buf pos = Ret (n, pos') →
  pos < pos' ≤ length buf ∧ (bytes_ok buf → wf_name n).
Proof.
  unfold decode_name. intros H. apply run_bind_ret in H as (c & Hc & H).
  apply run_bind_ret in H as ([] & Htot & H). injection H as <- <-.
  apply (decode_loop_ok _ _ pos) in Hc as [[Hls Hpos] Hend].
  - split.
    + destruct (c_jumped c); [done|auto].
    + intros Hb. split; [by apply Hls|]. apply check_total_length_ok.
      revert Htot. unfold lift. destruct (check_total_length _) as [[]|]; done.
  - split; cbn; [constructor|lia].
Qed.

(** ** Termination *)

Lemma decode_step_forward buf pos c c1 :
  bytes_ok buf → Forall (λ b, b < 192)%Z (drop pos buf) → pos ≤ c_cur c →
  decode_name_step buf c = Ret (inl c1) → c_cur c < c_cur c1 ∧ c_cur c < length buf.
Proof.
  intros Hb Hp Hge. unfold decode_name_step. intros H.
  case_decide as Hcur; [done|]. run_inv. apply index_spec in Er.
  assert (r < 192)%Z.
  { apply (Forall_lookup_1 _ _ (c_cur c - pos) r Hp). rewrite lookup_drop.
    by replace (pos + (c_cur c - pos)) with (c_cur c) by lia. }
  pose proof (bytes_ok_lookup _ _ _ Hb Er).
  case_decide as Hptr; [exfalso; by apply (land_192_full r)|].
  case_decide; [done|]. case_decide; [by run_inv|]. case_decide; [done|].
  case_decide; [done|]. run_inv. cbn. lia.
Qed.

(** With no byte of 0xC0 or above from [pos] on there is no pointer to follow:
    every iteration moves forward, and decoding returns. *)
Lemma decode_name_no_pointer buf pos :
  bytes_ok buf → Forall (λ b, b < 192)%Z (drop pos buf) → decode_name buf pos ≠ Hang.
Proof.
  intros Hb Hp. unfold decode_name.
  assert (Hfuel : ∀ fuel c, pos ≤ c_cur c → length buf - c_cur c < fuel →
    decode_name_loop fuel buf c ≠ Hang).
  { induction fuel as [|fuel IH]; intros c Hge Hlt; [lia|]. cbn.
    destruct (decode_name_step buf c) as [[c1|c1]| | |] eqn:Hs; cbn; try done.
    2: by destruct (step_no_hang buf c).
    assert (c_cur c < c_cur c1 ∧ c_cur c < length buf) by (revert Hs; clear IH; intros Hs;
      eapply decode_step_forward; eauto).
    apply IH; lia. }
  destruct (decode_name_loop _ _ _) as [c| | |] eqn:Hl; cbn; try done.
  - by destruct (check_total_length _).
  - by apply Hfuel in Hl; cbn; [|lia|lia].
Qed.

(** A pointer back to a label that runs forward onto the pointer again: the
    strictly-smaller-offset rule does not stop this one. *)
Definition looping_name : list Z := [1; 97; 192; 0]%Z.

Lemma looping_name_hangs fuel :
  decode_name_loop fuel looping_name (mkCursor [] 0 false 0) = Hang.
Proof. apply decode_name_loop_hang. vm_compute. reflexivity. Qed.

(** ** Parsing and printing *)

(** A label presentation form can carry: ASCII, without the separator. *)
Definition presentable (l : list Z) : Prop :=
  1 ≤ length l ≤ 63 ∧ Forall (λ b, 0 ≤ b < 128)%Z l ∧ dot ∉ l.

Lemma utf8_lossy_ascii fuel s :
  Forall (λ b, 0 ≤ b < 128)%Z s → length s ≤ fuel → utf8_lossy fuel s = s.
Proof.
  intros H. revert fuel. induction H as [|b s Hb _ IH]; intros [|fuel] Hf; cbn [length] in Hf;
    try done; [lia|].
  cbn [utf8_lossy utf8_part]. rewrite (proj2 (Z.ltb_lt b 128)) by lia.
  cbn [take drop app]. by rewrite IH by lia.
Qed.

Lemma split_dots_cons l s :
  dot ∉ l → split_dots (l ++ dot :: s) = l :: split_dots s.
Proof.
  induction l as [|c l IH]; intros Hn; cbn [app split_dots].
  - by rewrite decide_True.
  - apply not_elem_of_cons in Hn as [Hc Hn]. rewrite decide_False by congruence.
    by rewrite IH.
Qed.

Lemma split_dots_single l : dot ∉ l → split_dots l = [l].
Proof.
  induction l as [|c l IH]; intros Hn; [done|]. cbn [split_dots].
  apply not_elem_of_cons in Hn as [Hc Hn]. rewrite decide_False by congruence. by rewrite IH.
Qed.

Lemma split_dots_nonempty s : split_dots s ≠ [].
Proof.
  destruct s as [|c s]; [done|]. cbn [split_dots]. case_decide; [done|].
  destruct (split_dots s); done.
Qed.

(** The labels of a name, separated by dots. *)
Fixpoint join_dots (ls : list (list Z)) : list Z :=
  match ls with
  | [] => []
  | [l] => l
  | l :: ls => l ++ dot :: join_dots ls
  end.

Lemma split_join ls :
  ls ≠ [] → Forall (λ l, dot ∉ l) ls → split_dots (join_dots ls) = ls.
Proof.
  intros Hne H. induction H as [|l ls Hl H IH]; [done|]. destruct ls as [|l' ls].
  - by apply split_dots_single.
  - cbn [join_dots]. rewrite split_dots_cons by done. f_equal. by apply IH.
Qed.

Lemma split_dots_dotless s : Forall (λ l, dot ∉ l) (split_dots s).
Proof.
  induction s as [|c s IH]; cbn [split_dots].
  - constructor; [|constructor]. apply not_elem_of_nil.
  - case_decide as Hc; [constructor; [apply not_elem_of_nil|done]|].
    destruct (split_dots s) as [|seg segs].
    + constructor; [|constructor]. apply not_elem_of_cons. split; [congruence|apply not_elem_of_nil].
    + apply Forall_cons in IH as [? ?]. constructor; [|done].
      apply not_elem_of_cons. split; [congruence|done].
Qed.

Lemma parts_to_labels_presentable ls :
  Forall presentable ls → parts_to_labels ls = Ok ls.
Proof.
  induction 1 as [|l ls (Hl & Ha & _) _ IH]; [done|]. cbn [parts_to_labels].
  rewrite decide_False by (intros ->; cbn in Hl; lia).
  rewrite decide_True by (eapply Forall_impl; [exact Ha|cbn; lia]).
  rewrite decide_False by lia. by rewrite IH.
Qed.

Lemma parts_to_labels_inv parts ls :
  bytes_ok (concat parts) → Forall (λ l, dot ∉ l) parts → parts_to_labels parts = Ok ls →
  ls = parts ∧ Forall presentable ls.
Proof.
  intros Hb Hd. revert ls Hb; induction Hd as [|p parts Hp _ IH]; intros ls Hb H;
    cbn [parts_to_labels] in H; [by run_inv|].
  cbn in Hb. apply Forall_app in Hb as [Hpb Hb].
  repeat case_decide; try discriminate H.
  run_inv. destruct (IH _ Hb Er) as [-> Hls]. split; [done|].
  constructor; [|done]. split; [destruct p; cbn in *; [done|lia]|]. split; [|done].
  rewrite Forall_forall in *. intros b Hin. split; [by apply Hpb|auto].
Qed.

Lemma last_join ls :
  ls ≠ [] → Forall presentable ls → last (join_dots ls) ≠ Some dot ∧ join_dots ls ≠ [].
Proof.
  intros Hne H. induction H as [|l ls (Hl & Ha & Hd) H IH]; [done|]. destruct ls as [|l' ls].
  - cbn [join_dots]. split; [|intros ->; cbn in Hl; lia].
    intros Hlast. apply last_Some_elem_of in Hlast. done.
  - change (join_dots (l :: l' :: ls)) with (l ++ dot :: join_dots (l' :: ls)).
    destruct IH as [Hlast Hne']; [done|].
    split; [|destruct l; [cbn in Hl; lia|done]].
    rewrite last_app_cons, last_cons. destruct (last (join_dots (l' :: ls))) eqn:E; [done|].
    by apply last_None in E.
Qed.

Lemma fmt_name_join n :
  Forall presentable (labels n) →
  fmt_name n = if decide (labels n = []) then [dot] else join_dots (labels n) ++ [dot].
Proof.
  intros H. unfold fmt_name, is_root. case_decide as Hr.
  { by rewrite bool_decide_true. }
  rewrite bool_decide_false by done.
  induction H as [|l ls (Hl & Ha & Hd) H IH]; [done|]. cbn [map concat].
  unfold from_utf8_lossy at 1. rewrite utf8_lossy_ascii by done.
  destruct ls as [|l' ls]; [cbn; by rewrite app_nil_r|].
  rewrite IH by done. cbn [join_dots]. by rewrite <-!app_assoc.
Qed.

(** Both presentation forms, with and without the final dot, parse back. *)
Lemma from_ascii_join ls (t : bool) :
  ls ≠ [] → Forall presentable ls → total_length (mkName ls) ≤ 255 →
  from_ascii (join_dots ls ++ if t then [dot] else []) = Ok (mkName ls).
Proof.
  intros Hne Hp Ht. destruct (last_join ls Hne Hp) as [Hlast Hj]. unfold from_ascii.
  assert (Hdot : join_dots ls ≠ [dot]) by (intros E; by rewrite E in Hlast).
  rewrite decide_False.
  2: { destruct t; rewrite ?app_nil_r; [|naive_solver].
       intros [?%app_nil|E]; [naive_solver|]. apply (app_inj_tail _ []) in E as [? _]. done. }
  assert (strip_trailing_dot (join_dots ls ++ if t then [dot] else []) = join_dots ls) as ->.
  { unfold strip_trailing_dot. destruct t.
    - rewrite last_snoc, decide_True by done. rewrite length_app, Nat.add_sub. apply take_app_length.
    - by rewrite app_nil_r, decide_False. }
  rewrite decide_False by done. rewrite split_join; [|done|].
  - rewrite parts_to_labels_presentable by done. cbn [mbind result_bind].
    by rewrite (proj2 (check_total_length_ok _) Ht).
  - eapply Forall_impl; [exact Hp|]. by intros l (_ & _ & ?).
Qed.

Definition example_text : list Z := [119; 119; 119; 46; 101; 120; 46; 111; 114; 103]%Z.

(** C5: parsing and printing. A parsed name is within the limits of the wire
    format and made of ASCII labels without dots; printing it and parsing the
    text gives it back, and the text is the input with exactly one final
    dot. *)
Theorem from_ascii_fmt s n :
  bytes_ok s → from_ascii s = Ok n →
  wf_name n ∧ Forall presentable (labels n) ∧ from_ascii (fmt_name n) = Ok n ∧
  fmt_name n = (if decide (s = []) then [] else strip_trailing_dot s) ++ [dot].
Proof.
  intros Hb H. pose proof (from_ascii_wf s n Hb H) as Hwf. split; [done|].
  unfold from_ascii in H. case_decide as Hroot.
  { injection H as <-. split; [constructor|]. split; [reflexivity|].
    destruct Hroot as [-> | ->]; reflexivity. }
  case_decide as Ht; [done|]. run_inv. destruct r0. apply check_total_length_ok in Er0.
  apply parts_to_labels_inv in Er as [-> Hp].
  - split; [done|]. cbn [labels] in *. rewrite fmt_name_join by done. cbn [labels].
    pose proof (split_dots_nonempty (strip_trailing_dot s)) as Hne.
    rewrite decide_False by done. split; [by apply (from_ascii_join _ true)|].
    rewrite decide_False by naive_solver. f_equal.
    clear. induction (strip_trailing_dot s) as [|c t IH]; [done|]. cbn [split_dots].
    case_decide as Hc.
    + subst c. pose proof (split_dots_nonempty t).
      destruct (split_dots t) eqn:E; [done|]. by rewrite <-IH.
    + destruct (split_dots t) as [|seg segs]; [cbn in IH; by rewrite <-IH|].
      rewrite <-IH. by destruct segs.
  - apply split_dots_bytes. unfold strip_trailing_dot. case_decide; [|done]. by apply Forall_take.
  - apply split_dots_dotless.
Qed.

Lemma from_ascii_fmt_witness :
  ∃ n, from_ascii example_text = Ok n ∧ fmt_name n = example_text ++ [dot] ∧
    from_ascii (fmt_name n) = Ok n.
Proof.
  eexists. split; [vm_compute; reflexivity|].
  destruct (from_ascii_fmt example_text _
    ltac:(unfold bytes_ok, example_text; repeat (constructor; [lia|]); constructor)
    ltac:(vm_compute; reflexivity)) as (_ & _ & Hr & Hf).
  split; [exact Hf|exact Hr].
Defined.
