(* ===== verification/RecordData.v ===== *)
(** * Record types, classes and resource data

    Models [crates/dns-lattice-model/src/record.rs]. An [Ipv4Addr] is the
    32-bit number of its octets in network order, an [Ipv6Addr] the 128-bit
    one. *)

From stdpp Require Import base numbers list.
From S2P Require Import Prelude CoreError Name.

Inductive RecordType : Type :=
  | TA | TAaaa | TCname | TPtr | TNs | TTxt | TMx | TSoa
  | TOther (value : Z).

#[export] Instance record_type_eq_dec : EqDecision RecordType.
Proof. solve_decision. Defined.

Definition type_from_u16 (value : Z) : RecordType :=
  match value with
  | 1 => TA
  | 2 => TNs
  | 5 => TCname
  | 6 => TSoa
  | 12 => TPtr
  | 15 => TMx
  | 16 => TTxt
  | 28 => TAaaa
  | other => TOther other
  end%Z.

Definition type_to_u16 (t : RecordType) : Z :=
  match t with
  | TA => 1
  | TNs => 2
  | TCname => 5
  | TSoa => 6
  | TPtr => 12
  | TMx => 15
  | TTxt => 16
  | TAaaa => 28
  | TOther value => value
  end%Z.

Inductive Class : Type :=
  | In
  | Ch
  | COther (value : Z).

#[export] Instance class_eq_dec : EqDecision Class.
Proof. solve_decision. Defined.

Definition class_from_u16 (value : Z) : Result Error Class :=
  match value with
  | 0 => Err (InvalidClass 0)
  | 1 => Ok In
  | 3 => Ok Ch
  | other => Ok (COther other)
  end%Z.

Definition class_to_u16 (c : Class) : Z :=
  match c with
  | In => 1
  | Ch => 3
  | COther value => value
  end%Z.

Inductive RData : Type :=
  | A (addr : Z)
  | Aaaa (addr : Z)
  | Cname (name : Name)
  | Ptr (name : Name)
  | Ns (name : Name)
  | Txt (strings : list (list Z))
  | Mx (preference : Z) (exchange : Name)
  | Soa (mname rname : Name) (serial refresh retry expire minimum : Z)
  | Unknown (rtype : Z) (data : list Z).

#[export] Instance rdata_eq_dec : EqDecision RData.
Proof. solve_decision. Defined.

Definition record_type (r : RData) : RecordType :=
  match r with
  | A _ => TA
  | Aaaa _ => TAaaa
  | Cname _ => TCname
  | Ptr _ => TPtr
  | Ns _ => TNs
  | Txt _ => TTxt
  | Mx _ _ => TMx
  | Soa _ _ _ _ _ _ _ => TSoa
  | Unknown rtype _ => TOther rtype
  end.

(** ** Encoding *)

Fixpoint encode_strings (strings : list (list Z)) (buf : list Z) : Result Error (list Z) :=
  match strings with
  | [] => Ok buf
  | s :: strings =>
      if decide (255 < length s) then Err (LabelTooLong (length buf))
      else encode_strings strings (buf ++ [Z.of_nat (length s)] ++ s)
  end.

Definition rdata_encode (r : RData) (buf : list Z) : Result Error (list Z) :=
  match r with
  | A addr => Ok (buf ++ to_be 4 addr)
  | Aaaa addr => Ok (buf ++ to_be 16 addr)
  | Cname name | Ptr name | Ns name => encode_name name buf
  | Txt strings => encode_strings strings buf
  | Mx preference exchange => encode_name exchange (write_u16 buf preference)
  | Soa mname rname serial refresh retry expire minimum =>
      buf ← encode_name mname buf;
      buf ← encode_name rname buf;
      let buf := write_u32 buf serial in
      let buf := write_u32 buf refresh in
      let buf := write_u32 buf retry in
      let buf := write_u32 buf expire in
      Ok (write_u32 buf minimum)
  | Unknown _ data => Ok (buf ++ data)
  end.

(** ** Decoding *)

(** [rdlength as u16] in the length-mismatch errors. *)
Definition length_mismatch (rdlength : nat) : Error :=
  RDataLengthMismatch (Z.of_nat rdlength mod 65536).

(** [*pos - start], which underflows (a panic) when [pos] is before [start]. *)
Definition consumed (pos start : nat) : Run Error nat :=
  if decide (pos < start) then Panic else Ret (pos - start).

Definition decode_checked_name (buf : list Z) (pos start rdlength : nat) :
    Run Error (Name * nat) :=
  '(name, pos) ← decode_name buf pos;
  n ← consumed pos start;
  if decide (n ≠ rdlength) then Throw (length_mismatch rdlength) else Ret (name, pos).

(** The character-string loop of a TXT record, from [p] to [stop]. *)
Fixpoint decode_strings (fuel : nat) (buf : list Z) (rdlength p stop : nat)
    (strings : list (list Z)) : Run Error (list (list Z)) :=
  match fuel with
  | O => Hang
  | S fuel =>
      if decide (p < stop) then
        b ← index buf p;
        let len := Z.to_nat b in
        let p := p + 1 in
        if decide (stop < p + len) then Throw (length_mismatch rdlength)
        else
          s ← slice buf p (p + len);
          decode_strings fuel buf rdlength (p + len) stop (strings ++ [s])
      else Ret strings
  end.

Definition rdata_decode (buf : list Z) (pos : nat) (rtype : RecordType) (rdlength : nat) :
    Run Error (RData * nat) :=
  let start := pos in
  let stop := start + rdlength in
  if decide (length buf < stop) then Throw (Truncated (length buf))
  else
    match rtype with
    | TA =>
        if decide (rdlength ≠ 4) then Throw (length_mismatch rdlength)
        else octets ← slice buf start (start + 4); Ret (A (from_be octets), pos + 4)
    | TAaaa =>
        if decide (rdlength ≠ 16) then Throw (length_mismatch rdlength)
        else octets ← slice buf start (start + 16); Ret (Aaaa (from_be octets), pos + 16)
    | TCname =>
        '(name, pos) ← decode_checked_name buf pos start rdlength; Ret (Cname name, pos)
    | TPtr =>
        '(name, pos) ← decode_checked_name buf pos start rdlength; Ret (Ptr name, pos)
    | TNs =>
        '(name, pos) ← decode_checked_name buf pos start rdlength; Ret (Ns name, pos)
    | TTxt =>
        strings ← decode_strings (S rdlength) buf rdlength start stop [];
        Ret (Txt strings, stop)
    | TMx =>
        '(preference, pos) ← read_u16 buf pos;
        '(exchange, pos) ← decode_name buf pos;
        n ← consumed pos start;
        if decide (n ≠ rdlength) then Throw (length_mismatch rdlength)
        else Ret (Mx preference exchange, pos)
    | TSoa =>
        '(mname, pos) ← decode_name buf pos;
        '(rname, pos) ← decode_name buf pos;
        '(serial, pos) ← read_u32 buf pos;
        '(refresh, pos) ← read_u32 buf pos;
        '(retry, pos) ← read_u32 buf pos;
        '(expire, pos) ← read_u32 buf pos;
        '(minimum, pos) ← read_u32 buf pos;
        n ← consumed pos start;
        if decide (n ≠ rdlength) then Throw (length_mismatch rdlength)
        else Ret (Soa mname rname serial refresh retry expire minimum, pos)
    | TOther value =>
        data ← slice buf start stop;
        Ret (Unknown value data, stop)
    end.

(** ** Canonical types and classes *)

Definition known_types : list Z := [1; 2; 5; 6; 12; 15; 16; 28]%Z.

(** A type as [from_u16] produces it: [Other] never holds the number of a
    named type. *)
Definition wf_type (t : RecordType) : Prop :=
  match t with TOther v => is_u16 v ∧ v ∉ known_types | _ => True end.

Definition wf_class (c : Class) : Prop :=
  match c with COther v => is_u16 v ∧ v ∉ [0; 1; 3]%Z | _ => True end.

Definition type_canonical (v : Z) : bool :=
  match type_from_u16 v with
  | TOther w => bool_decide (w = v) && bool_decide (v ∉ known_types)
  | t => bool_decide (type_to_u16 t = v) && bool_decide (v ∈ known_types)
  end.

Lemma type_from_canonical v : is_u16 v → type_canonical v = true.
Proof. apply u16_forall. vm_compute. reflexivity. Qed.

Lemma type_to_from v : is_u16 v → type_to_u16 (type_from_u16 v) = v.
Proof.
  intros Hv%type_from_canonical. unfold type_canonical in Hv.
  destruct (type_from_u16 v); apply andb_true_iff in Hv as [Hv%bool_decide_eq_true _]; done.
Qed.

Lemma wf_type_from v : is_u16 v → wf_type (type_from_u16 v).
Proof.
  intros Hu. pose proof (type_from_canonical v Hu) as Hv. unfold type_canonical in Hv.
  destruct (type_from_u16 v); try done.
  apply andb_true_iff in Hv as [->%bool_decide_eq_true ?%bool_decide_eq_true]. done.
Qed.

Lemma type_from_to t : wf_type t → type_from_u16 (type_to_u16 t) = t.
Proof.
  destruct t as [| | | | | | | |v]; try done. cbn. intros [Hu Hn].
  pose proof (type_from_canonical v Hu) as Hv. unfold type_canonical in Hv.
  destruct (type_from_u16 v); apply andb_true_iff in Hv as [Ha Hb];
    apply bool_decide_eq_true in Ha, Hb; by subst.
Qed.

Lemma type_to_u16_range t : wf_type t → is_u16 (type_to_u16 t).
Proof. destruct t; cbn; lia. Qed.

Definition class_canonical (v : Z) : bool :=
  match class_from_u16 v with
  | Ok (COther w) => bool_decide (w = v) && bool_decide (v ∉ [0; 1; 3]%Z)
  | Ok c => bool_decide (class_to_u16 c = v) && bool_decide (v ∈ [1; 3]%Z)
  | Err e => bool_decide (e = InvalidClass 0) && bool_decide (v = 0%Z)
  end.

Lemma class_from_canonical v : is_u16 v → class_canonical v = true.
Proof. apply u16_forall. vm_compute. reflexivity. Qed.

Lemma class_from_ok v c : is_u16 v → class_from_u16 v = Ok c → wf_class c ∧ class_to_u16 c = v.
Proof.
  intros Hu. pose proof (class_from_canonical v Hu) as Hv. unfold class_canonical in Hv.
  intros E. rewrite E in Hv.
  destruct c; apply andb_true_iff in Hv as [Ha Hb]; apply bool_decide_eq_true in Ha, Hb;
    cbn in *; subst; done.
Qed.

Lemma class_from_to c : wf_class c → class_from_u16 (class_to_u16 c) = Ok c.
Proof.
  destruct c as [| |v]; try done. cbn. intros [Hu Hn].
  pose proof (class_from_canonical v Hu) as Hv. unfold class_canonical in Hv.
  destruct (class_from_u16 v) as [[]|]; apply andb_true_iff in Hv as [Ha Hb];
    apply bool_decide_eq_true in Ha, Hb; cbn in *; subst; set_solver.
Qed.

Lemma class_from_err v e : is_u16 v → class_from_u16 v = Err e → v = 0%Z.
Proof.
  intros Hu. pose proof (class_from_canonical v Hu) as Hv. unfold class_canonical in Hv.
  intros E. rewrite E in Hv. apply andb_true_iff in Hv as [_ ?%bool_decide_eq_true]. done.
Qed.

Lemma class_to_u16_range c : wf_class c → is_u16 (class_to_u16 c).
Proof. destruct c; cbn; lia. Qed.

(** ** Well-formed data and its wire form *)

Definition string_ok (s : list Z) : Prop := length s ≤ 255 ∧ bytes_ok s.

Definition wf_rdata (r : RData) : Prop :=
  match r with
  | A addr => is_u32 addr
  | Aaaa addr => is_u128 addr
  | Cname name | Ptr name | Ns name => wf_name name
  | Txt strings => Forall string_ok strings
  | Mx preference exchange => is_u16 preference ∧ wf_name exchange
  | Soa mname rname serial refresh retry expire minimum =>
      wf_name mname ∧ wf_name rname ∧ is_u32 serial ∧ is_u32 refresh ∧ is_u32 retry ∧
      is_u32 expire ∧ is_u32 minimum
  | Unknown rtype data => wf_type (TOther rtype) ∧ bytes_ok data
  end.

Definition strings_wire (strings : list (list Z)) : list Z :=
  concat (map (λ s, Z.of_nat (length s) :: s) strings).

Definition rdata_wire (r : RData) : list Z :=
  match r with
  | A addr => to_be 4 addr
  | Aaaa addr => to_be 16 addr
  | Cname name | Ptr name | Ns name => name_wire name
  | Txt strings => strings_wire strings
  | Mx preference exchange => to_be 2 preference ++ name_wire exchange
  | Soa mname rname serial refresh retry expire minimum =>
      name_wire mname ++ name_wire rname ++ to_be 4 serial ++ to_be 4 refresh ++
      to_be 4 retry ++ to_be 4 expire ++ to_be 4 minimum
  | Unknown _ data => data
  end.

Lemma wf_record_type r : wf_rdata r → wf_type (record_type r).
Proof. destruct r; cbn; naive_solver. Qed.

Lemma encode_strings_ok strings buf :
  Forall string_ok strings → encode_strings strings buf = Ok (buf ++ strings_wire strings).
Proof.
  intros H. revert buf. unfold strings_wire.
  induction H as [|s strings [Hs _] _ IH]; intros buf; cbn.
  - by rewrite app_nil_r.
  - rewrite decide_False by lia. rewrite IH, <-!app_assoc. done.
Qed.

Lemma rdata_encode_wf r buf : wf_rdata r → rdata_encode r buf = Ok (buf ++ rdata_wire r).
Proof.
  intros H. destruct r; cbn [rdata_encode rdata_wire wf_rdata] in *; try done.
  1-3: by apply encode_name_wf.
  - by apply encode_strings_ok.
  - destruct H as [_ H]. rewrite encode_name_wf by done. unfold write_u16.
    by rewrite app_assoc.
  - destruct H as (H1 & H2 & _).
    rewrite encode_name_wf by done. cbn [mbind result_bind].
    rewrite encode_name_wf by done. cbn [mbind result_bind].
    unfold write_u32. by rewrite !app_assoc.
Qed.

Lemma bytes_ok_rdata_wire r : wf_rdata r → bytes_ok (rdata_wire r).
Proof.
  destruct r; cbn [wf_rdata rdata_wire]; intros H; auto using bytes_ok_to_be, bytes_ok_name_wire.
  - unfold strings_wire. induction H as [|s l [Hs Hb] _ IH]; cbn; [constructor|].
    apply Forall_cons; split; [lia|]. by apply bytes_ok_app.
  - destruct H as [_ H].
    apply bytes_ok_app; [apply bytes_ok_to_be|by apply bytes_ok_name_wire].
  - destruct H as (? & ? & _).
    repeat first [apply bytes_ok_to_be | by apply bytes_ok_name_wire | apply bytes_ok_app].
  - by destruct H.
Qed.

(** ** Round trip *)

Lemma slice_has (buf : list Z) pos w rest j :
  has_at buf pos (w ++ rest) → j = pos + length w → @slice Error Z buf pos j = Ret w.
Proof.
  intros H ->. destruct (has_at_split _ _ _ H) as [Hb Hl].
  rewrite Hb, <-Hl at 1. by apply slice_middle; rewrite ?Hl.
Qed.

Lemma index_has (buf : list Z) pos b rest :
  has_at buf pos (b :: rest) → @index Error buf pos = Ret b ∧ has_at buf (pos + 1) rest.
Proof.
  intros H. split; [|by apply (has_at_app _ _ [b])].
  apply index_spec. destruct H as [H _]. rewrite <-(Nat.add_0_r pos).
  by rewrite <-lookup_drop, H.
Qed.

Lemma decode_strings_has strings buf pos rest acc fuel rdlength stop :
  Forall string_ok strings → length (strings_wire strings) < fuel →
  has_at buf pos (strings_wire strings ++ rest) →
  stop = pos + length (strings_wire strings) →
  decode_strings fuel buf rdlength pos stop acc = Ret (acc ++ strings).
Proof.
  intros H. revert pos acc fuel. unfold strings_wire.
  induction H as [|s strings [Hs _] _ IH]; intros pos acc [|fuel] Hf Hat ->;
    try (cbn in Hf; lia); cbn [decode_strings concat map] in *.
  - rewrite decide_False by (cbn; lia). by rewrite app_nil_r.
  - set (w := concat _) in *. cbn [app length] in *. rewrite length_app in *.
    rewrite decide_True by lia. rewrite <-app_assoc in Hat.
    destruct (index_has _ _ _ _ Hat) as [-> Hat']. cbn [mbind run_bind].
    rewrite Nat2Z.id, decide_False by lia.
    rewrite (slice_has _ _ s _ _ Hat') by done. cbn [mbind run_bind].
    apply has_at_app in Hat'.
    rewrite IH by (done || lia). by rewrite <-app_assoc.
Qed.

Lemma consumed_ret pos start n : pos = start + n → consumed pos start = Ret n.
Proof. intros ->. unfold consumed. rewrite decide_False by lia. f_equal. lia. Qed.

Lemma decode_checked_name_has n buf pos rest rdlength :
  wf_name n → rdlength = length (name_wire n) → has_at buf pos (name_wire n ++ rest) →
  decode_checked_name buf pos pos rdlength = Ret (n, pos + rdlength).
Proof.
  intros Hn -> Hat. unfold decode_checked_name. read_step.
  rewrite (consumed_ret _ _ (length (name_wire n))) by lia.
  cbn [mbind run_bind]. rewrite decide_False by lia. done.
Qed.

(** Decoding encoded data gives it back. *)
Lemma rdata_decode_has r buf pos rest rdlength :
  wf_rdata r → rdlength = length (rdata_wire r) → has_at buf pos (rdata_wire r ++ rest) →
  rdata_decode buf pos (record_type r) rdlength = Ret (r, pos + rdlength).
Proof.
  intros Hr -> Hat. unfold rdata_decode.
  rewrite decide_False by (rewrite (has_at_length _ _ _ Hat), length_app; lia).
  destruct r; cbn [record_type rdata_wire wf_rdata] in *.
  - rewrite length_to_be, decide_False by lia.
    rewrite (slice_has _ _ _ _ _ Hat) by (by rewrite length_to_be).
    cbn [mbind run_bind]. by rewrite from_to_be by (cbn; lia).
  - rewrite length_to_be, decide_False by lia.
    rewrite (slice_has _ _ _ _ _ Hat) by (by rewrite length_to_be).
    cbn [mbind run_bind]. rewrite from_to_be; [done|].
    change (256 ^ Z.of_nat 16)%Z with (2 ^ 128)%Z. lia.
  - by rewrite (decode_checked_name_has name _ _ rest).
  - by rewrite (decode_checked_name_has name _ _ rest).
  - by rewrite (decode_checked_name_has name _ _ rest).
  - by rewrite (decode_strings_has strings _ _ rest) by (done || lia).
  - destruct Hr. rewrite <-app_assoc in Hat. do 2 read_step.
    rewrite (consumed_ret _ _ (2 + length (name_wire exchange))) by lia.
    cbn [mbind run_bind]. rewrite length_app, length_to_be, decide_False by lia.
    do 2 f_equal. lia.
  - destruct Hr as (? & ? & ? & ? & ? & ? & ?). rewrite <-!app_assoc in Hat. do 7 read_step.
    rewrite (consumed_ret _ _ (length (name_wire mname) + length (name_wire rname) + 20)) by lia.
    cbn [mbind run_bind]. rewrite !length_app, !length_to_be, decide_False by lia.
    do 2 f_equal. lia.
  - by rewrite (slice_has _ _ _ _ _ Hat).
Qed.

(** ** What decoding returns *)

Lemma no_panic_decode_strings fuel buf rdlength p stop acc :
  stop ≤ length buf → no_panic (decode_strings fuel buf rdlength p stop acc).
Proof.
  intros Hstop. revert p acc; induction fuel as [|fuel IH]; intros p acc; cbn [decode_strings];
    [done|]. no_panic.
Qed.

Lemma no_panic_consumed pos start : start ≤ pos → no_panic (consumed pos start).
Proof. intros. by rewrite (consumed_ret _ _ (pos - start)) by lia. Qed.

Lemma no_panic_decode_checked_name buf pos rdlength :
  no_panic (decode_checked_name buf pos pos rdlength).
Proof.
  unfold decode_checked_name. apply no_panic_bind; [no_panic|].
  intros [n pos'] H. apply decode_name_ret in H as [? _].
  apply no_panic_bind; [apply no_panic_consumed; lia|]. intros. no_panic.
Qed.

#[export] Hint Resolve no_panic_decode_checked_name : run.

(** Walks a chain of reads, keeping the bound each successful one gives. *)
Ltac no_panic_reads :=
  repeat lazymatch goal with
  | |- no_panic (read_u16 _ _ ≫= _) =>
      apply no_panic_bind; [no_panic|intros [? ?] [? _]%read_u16_ret]
  | |- no_panic (read_u32 _ _ ≫= _) =>
      apply no_panic_bind; [no_panic|intros [? ?] [? _]%read_u32_ret]
  | |- no_panic (decode_name _ _ ≫= _) =>
      apply no_panic_bind; [no_panic|intros [? ?] [? _]%decode_name_ret]
  | |- no_panic (consumed _ _ ≫= _) =>
      apply no_panic_bind; [apply no_panic_consumed; lia|intros]
  end.

Lemma no_panic_rdata_decode buf pos rtype rdlength :
  no_panic (rdata_decode buf pos rtype rdlength).
Proof.
  unfold rdata_decode. case_decide; [done|]. destruct rtype; no_panic_reads; no_panic.
  apply no_panic_decode_strings; lia.
Qed.

#[export] Hint Resolve no_panic_rdata_decode : run.

Lemma decode_strings_ret fuel buf rdlength p stop acc strings :
  bytes_ok buf → Forall string_ok acc →
  decode_strings fuel buf rdlength p stop acc = Ret strings → Forall string_ok strings.
Proof.
  intros Hb. revert p acc; induction fuel as [|fuel IH]; intros p acc Hacc H;
    cbn [decode_strings] in H; [done|].
  case_decide; [|by run_inv]. run_inv. case_decide; [done|]. run_inv.
  apply index_spec in Er. pose proof (bytes_ok_lookup _ _ _ Hb Er).
  eapply IH; [|done]. apply Forall_app; split; [done|]. constructor; [|done].
  unfold slice in Er0. case_decide; [|done]. run_inv.
  split; [|by apply bytes_ok_take_drop]. rewrite length_take. lia.
Qed.

Lemma decode_strings_no_hang fuel buf rdlength p stop acc :
  stop - p < fuel → decode_strings fuel buf rdlength p stop acc ≠ Hang.
Proof.
  revert p acc; induction fuel as [|fuel IH]; intros p acc Hf; [lia|]. cbn [decode_strings].
  case_decide; [|done]. unfold index, slice. destruct (buf !! p); cbn; [|done].
  case_decide; [done|]. case_decide; [|done]. cbn. apply IH. lia.
Qed.

Lemma consumed_inv pos start n : consumed pos start = Ret n → start ≤ pos ∧ n = pos - start.
Proof. unfold consumed. case_decide; [done|]. intros [= <-]. lia. Qed.

(** Inverts a chain of reads in a hypothesis about a successful decode. *)
Ltac reads_inv :=
  repeat (run_inv; match goal with
  | H : (if decide _ then Throw _ else _) = Ret _ |- _ => case_decide; [discriminate H|]
  | H : read_u16 _ _ = Ret _ |- _ => apply read_u16_ret in H as (? & ? & ?)
  | H : read_u32 _ _ = Ret _ |- _ => apply read_u32_ret in H as (? & ? & ?)
  | H : decode_name _ _ = Ret _ |- _ => apply decode_name_ret in H as [? ?]
  | H : consumed _ _ = Ret _ |- _ => apply consumed_inv in H as [? ?]
  end); run_inv.

Lemma decode_checked_name_ret buf pos start rdlength n pos' :
  decode_checked_name buf pos start rdlength = Ret (n, pos') →
  pos' = start + rdlength ∧ (bytes_ok buf → wf_name n).
Proof. unfold decode_checked_name. intros H. reads_inv. split; [lia|done]. Qed.

Lemma slice_bytes buf i j l :
  bytes_ok buf → @slice Error Z buf i j = Ret l → bytes_ok l ∧ length l = j - i.
Proof.
  unfold slice. case_decide; [|done]. intros Hb [= <-].
  split; [by apply bytes_ok_take_drop|]. rewrite length_take, length_drop. lia.
Qed.

(** Decoded data is well formed, of the type asked for, and exactly
    [rdlength] bytes of the buffer were read. *)
Lemma rdata_decode_ret buf pos rtype rdlength r pos' :
  bytes_ok buf → wf_type rtype → rdata_decode buf pos rtype rdlength = Ret (r, pos') →
  wf_rdata r ∧ record_type r = rtype ∧ pos' = pos + rdlength ∧ pos' ≤ length buf.
Proof.
  intros Hb Ht. unfold rdata_decode. case_decide as Hlen; [done|].
  assert (Hend : pos + rdlength ≤ length buf) by lia.
  destruct rtype as [| | | | | | | |v]; intros H; reads_inv;
    try (apply decode_checked_name_ret in Er as [-> Hn]; cbn [wf_rdata record_type]; auto).
  - apply slice_bytes in Er as [Hr Hl]; [|done]. apply from_be_bound in Hr.
    rewrite Hl in Hr. replace (pos + 4 - pos) with 4 in Hr by lia.
    change (256 ^ Z.of_nat 4)%Z with 4294967296%Z in Hr. cbn [wf_rdata record_type].
    split; [done|]. split; [done|]. lia.
  - apply slice_bytes in Er as [Hr Hl]; [|done]. apply from_be_bound in Hr.
    rewrite Hl in Hr. replace (pos + 16 - pos) with 16 in Hr by lia.
    change (256 ^ Z.of_nat 16)%Z with (2 ^ 128)%Z in Hr. cbn [wf_rdata record_type].
    split; [done|]. split; [done|]. lia.
  - split; [|done]. by eapply decode_strings_ret; [| |exact Er].
  - cbn [wf_rdata record_type]. split; [auto|]. split; [done|]. lia.
  - cbn [wf_rdata record_type]. split; [auto 10|]. split; [done|]. lia.
  - apply slice_bytes in Er as [Hr Hl]; [|done]. done.
Qed.
