(* ===== verification/Edns.v ===== *)
(** * Resource records and EDNS(0)

    Models [ResourceRecord] of [crates/dns-lattice-model/src/message.rs] and
    [crates/dns-lattice-model/src/edns.rs]: the OPT pseudo-record, its typed
    form [Edns] and the conversions between the two. *)

From stdpp Require Import base numbers list.
From S2P Require Import Prelude CoreError Name RecordData.

Record ResourceRecord : Type := mkRR {
  rr_name : Name;
  rr_rtype : RecordType;
  rr_class : Class;
  rr_ttl : Z;
  rr_rdata : RData;
}.

#[export] Instance rr_eq_dec : EqDecision ResourceRecord.
Proof. solve_decision. Defined.

Definition OPT_RTYPE : Z := 41.
Definition DNSSEC_OK_BIT : Z := 32768.

Record EdnsOption : Type := mkOption { opt_code : Z; opt_bytes : list Z }.

#[export] Instance edns_option_eq_dec : EqDecision EdnsOption.
Proof. solve_decision. Defined.

(** [EdnsOption::new] *)
Definition option_new (code : Z) (data : list Z) : Result Error EdnsOption :=
  if decide (u16_max < Z.of_nat (length data))%Z then Err MessageTooLong else Ok (mkOption code data).

Record Edns : Type := mkEdns {
  udp_payload_size : Z;
  extended_rcode : Z;
  version : Z;
  dnssec_ok : bool;
  options : list EdnsOption;
}.

#[export] Instance edns_eq_dec : EqDecision Edns.
Proof. solve_decision. Defined.

Definition edns_new (udp_payload_size : Z) : Edns := mkEdns udp_payload_size 0 0 false [].

Definition set_udp_payload_size (e : Edns) (size : Z) : Edns :=
  mkEdns size (extended_rcode e) (version e) (dnssec_ok e) (options e).
Definition set_extended_rcode (e : Edns) (value : Z) : Edns :=
  mkEdns (udp_payload_size e) value (version e) (dnssec_ok e) (options e).
Definition set_version (e : Edns) (v : Z) : Edns :=
  mkEdns (udp_payload_size e) (extended_rcode e) v (dnssec_ok e) (options e).
Definition set_dnssec_ok (e : Edns) (b : bool) : Edns :=
  mkEdns (udp_payload_size e) (extended_rcode e) (version e) b (options e).
Definition push_option (e : Edns) (o : EdnsOption) : Edns :=
  mkEdns (udp_payload_size e) (extended_rcode e) (version e) (dnssec_ok e) (options e ++ [o]).
Definition clear_options (e : Edns) : Edns :=
  mkEdns (udp_payload_size e) (extended_rcode e) (version e) (dnssec_ok e) [].

Definition opt_class (value : Z) : Class :=
  match class_from_u16 value with Ok c => c | Err _ => COther value end.

Definition opt_data (rdata : RData) : option (list Z) :=
  match rdata with
  | Unknown rtype data => if decide (rtype = OPT_RTYPE) then Some data else None
  | _ => None
  end.

(** The option loop of [from_record]; [rest] is [data[pos..]]. Every iteration
    consumes at least the four header bytes, so [length data] iterations are
    enough ([parse_options_step]). *)
Fixpoint parse_options (fuel : nat) (declared : Z) (rest : list Z) (options : list EdnsOption) :
    Result Error (list EdnsOption) :=
  match fuel with
  | O => Ok options
  | S fuel =>
      match rest with
      | [] => Ok options
      | c1 :: c0 :: l1 :: l0 :: rest =>
          let code := from_be [c1; c0] in
          let len := Z.to_nat (from_be [l1; l0]) in
          if decide (length rest < len) then Err (RDataLengthMismatch declared)
          else parse_options fuel declared (drop len rest)
                 (options ++ [mkOption code (take len rest)])
      | _ => Err (RDataLengthMismatch declared)
      end
  end.

Definition from_record (record : ResourceRecord) (data : list Z) : Result Error Edns :=
  if negb (is_root (rr_name record)) then Err InvalidName
  else
    let declared := (Z.of_nat (length data) `min` u16_max)%Z in
    options ← parse_options (length data) declared data [];
    let ttl := rr_ttl record in
    Ok {| udp_payload_size := class_to_u16 (rr_class record);
          extended_rcode := Z.land (Z.shiftr ttl 24) 255;
          version := Z.land (Z.shiftr ttl 16) 255;
          dnssec_ok := bool_decide (Z.land ttl DNSSEC_OK_BIT ≠ 0)%Z;
          options := options |}.

Definition options_data (options : list EdnsOption) : list Z :=
  concat (map (λ o, to_be 2 (opt_code o) ++
    to_be 2 (Z.of_nat (length (opt_bytes o)) mod 65536) ++ opt_bytes o) options).

Definition to_record (e : Edns) : ResourceRecord :=
  let data := options_data (options e) in
  let ttl := Z.lor (Z.shiftl (extended_rcode e) 24) (Z.shiftl (version e) 16) in
  let ttl := if dnssec_ok e then Z.lor ttl DNSSEC_OK_BIT else ttl in
  {| rr_name := root;
     rr_rtype := TOther OPT_RTYPE;
     rr_class := opt_class (udp_payload_size e);
     rr_ttl := ttl;
     rr_rdata := Unknown OPT_RTYPE data |}.

(** ** Well-formed options and parameters *)

(** What [EdnsOption::new] lets through. *)
Definition wf_option (o : EdnsOption) : Prop :=
  is_u16 (opt_code o) ∧ bytes_ok (opt_bytes o) ∧ (Z.of_nat (length (opt_bytes o)) ≤ u16_max)%Z.

Definition wf_edns (e : Edns) : Prop :=
  is_u16 (udp_payload_size e) ∧ is_u8 (extended_rcode e) ∧ is_u8 (version e) ∧
  Forall wf_option (options e).

Lemma option_new_wf code data o :
  is_u16 code → bytes_ok data → option_new code data = Ok o → wf_option o.
Proof.
  unfold option_new. case_decide; [done|]. intros ?? [= <-]. split; [done|]. split; [done|].
  cbn. lia.
Qed.

(** The classes an OPT record can carry. *)
Definition wf_opt_class (c : Class) : Prop := wf_class c ∨ c = COther 0.

Lemma wf_opt_class_opt v : is_u16 v → wf_opt_class (opt_class v) ∧ class_to_u16 (opt_class v) = v.
Proof.
  intros Hv. unfold opt_class, wf_opt_class. destruct (class_from_u16 v) as [c|e] eqn:Hc.
  - apply class_from_ok in Hc as [? ?]; auto.
  - apply class_from_err in Hc as ->; auto.
Qed.

Lemma opt_class_to c : wf_opt_class c → opt_class (class_to_u16 c) = c.
Proof.
  intros [Hc| ->]; [|done]. unfold opt_class. by rewrite class_from_to.
Qed.

Lemma wf_opt_class_range c : wf_opt_class c → is_u16 (class_to_u16 c).
Proof. intros [?| ->]; [by apply class_to_u16_range|cbn; lia]. Qed.

(** The parser always consumes: with at least [length rest] fuel its result
    obeys the source's loop, whatever the fuel. *)
Lemma parse_options_fuel fuel fuel' declared rest acc :
  length rest ≤ fuel → length rest ≤ fuel' →
  parse_options fuel declared rest acc = parse_options fuel' declared rest acc.
Proof.
  revert fuel' rest acc. induction fuel as [|fuel IH]; intros [|fuel'] rest acc H H'.
  - done.
  - destruct rest; [done|cbn in H; lia].
  - destruct rest; [done|cbn in H'; lia].
  - cbn [parse_options]. destruct rest as [|c1 [|c0 [|l1 [|l0 rest]]]]; try done.
    case_decide; [done|]. cbn [length] in *. apply IH; rewrite length_drop; lia.
Qed.

Lemma parse_options_data opts declared acc fuel :
  Forall wf_option opts → length (options_data opts) ≤ fuel →
  parse_options fuel declared (options_data opts) acc = Ok (acc ++ opts).
Proof.
  intros H. revert acc fuel. induction H as [|o opts (Hc & Hb & Hl) _ IH]; intros acc fuel Hf.
  - rewrite app_nil_r. by destruct fuel.
  - unfold options_data in *. cbn [map concat] in *.
    set (w := concat _) in *.
    rewrite Z.mod_small in * by lia.
    pose proof (length_to_be 2 (opt_code o)) as L1.
    pose proof (length_to_be 2 (Z.of_nat (length (opt_bytes o)))) as L2.
    pose proof (from_to_be 2 (opt_code o) ltac:(cbn; lia)) as F1.
    pose proof (from_to_be 2 (Z.of_nat (length (opt_bytes o))) ltac:(cbn; lia)) as F2.
    destruct (to_be 2 (opt_code o)) as [|c1 [|c0 [|]]]; try discriminate L1.
    destruct (to_be 2 (Z.of_nat _)) as [|l1 [|l0 [|]]]; try discriminate L2.
    rewrite !length_app in Hf. cbn [length] in Hf.
    destruct fuel as [|fuel]; [lia|]. rewrite <-!app_assoc. cbn [app parse_options].
    rewrite F1, F2, Nat2Z.id, decide_False by (rewrite length_app; lia).
    rewrite drop_app_length, take_app_length, IH by lia.
    rewrite <-app_assoc. by destruct o.
Qed.

(** Parsed options have the widths [EdnsOption::new] asks for. *)
Lemma parse_options_wf fuel declared rest acc opts :
  bytes_ok rest → Forall wf_option acc →
  parse_options fuel declared rest acc = Ok opts → Forall wf_option opts.
Proof.
  revert rest acc. induction fuel as [|fuel IH]; intros rest acc Hb Hacc H;
    cbn [parse_options] in H; [by run_inv|].
  destruct rest as [|c1 [|c0 [|l1 [|l0 rest]]]]; try (by run_inv).
  unfold bytes_ok in Hb. rewrite !Forall_cons in Hb. destruct Hb as (? & ? & ? & ? & Hb).
  case_decide; [done|]. apply IH in H; [done|by apply Forall_drop|].
  apply Forall_app; split; [done|]. repeat constructor; cbn [opt_code opt_bytes].
  1-2: cbn; lia.
  - by apply Forall_take.
  - rewrite length_take. cbn. lia.
Qed.

Lemma bytes_ok_options_data opts : Forall wf_option opts → bytes_ok (options_data opts).
Proof.
  unfold options_data. induction 1 as [|o opts (_ & Hb & _) _ IH]; cbn [map concat]; [constructor|].
  repeat first [apply bytes_ok_to_be | done | apply bytes_ok_app].
Qed.

(** ** The TTL field *)

Lemma opt_ttl_fields x v (d : bool) ttl :
  is_u8 x → is_u8 v →
  ttl = (let t := Z.lor (Z.shiftl x 24) (Z.shiftl v 16) in
         if d then Z.lor t DNSSEC_OK_BIT else t) →
  is_u32 ttl ∧ Z.land (Z.shiftr ttl 24) 255 = x ∧ Z.land (Z.shiftr ttl 16) 255 = v ∧
  bool_decide (Z.land ttl DNSSEC_OK_BIT ≠ 0)%Z = d.
Proof.
  intros Hx Hv ->. cbv zeta.
  assert (Hs : Z.lor (Z.shiftl x 24) (Z.shiftl v 16) = Z.shiftl (x * 256 + v) 16).
  { rewrite lor_shiftl_add; rewrite ?Z.shiftl_mul_pow2 by lia; lia. }
  set (b := (if d then 1 else 0)%Z).
  assert (Ht : (if d then Z.lor (Z.lor (Z.shiftl x 24) (Z.shiftl v 16)) DNSSEC_OK_BIT
                else Z.lor (Z.shiftl x 24) (Z.shiftl v 16))
               = ((x * 256 + v) * 65536 + b * 32768)%Z).
  { rewrite Hs. unfold b. destruct d.
    - rewrite lor_shiftl_add by (unfold DNSSEC_OK_BIT; lia). unfold DNSSEC_OK_BIT. lia.
    - rewrite Z.shiftl_mul_pow2 by lia. lia. }
  rewrite Ht. assert (Hb : (0 ≤ b ≤ 1)%Z) by (unfold b; destruct d; lia).
  change 255%Z with (Z.ones 8). rewrite !Z.land_ones, !Z.shiftr_div_pow2 by lia.
  change (2 ^ 24)%Z with 16777216%Z. change (2 ^ 16)%Z with 65536%Z. change (2 ^ 8)%Z with 256%Z.
  split; [lia|].
  split; [clear -Hx Hv Hb; Z.to_euclidean_division_equations; lia|].
  split; [clear -Hx Hv Hb; Z.to_euclidean_division_equations; lia|].
  assert (Hbit : Z.testbit ((x * 256 + v) * 65536 + b * 32768) 15 = d).
  { rewrite Z.testbit_odd, Z.shiftr_div_pow2 by lia. change (2 ^ 15)%Z with 32768%Z.
    replace ((x * 256 + v) * 65536 + b * 32768)%Z with ((2 * (x * 256 + v) + b) * 32768)%Z by lia.
    rewrite Z.div_mul by lia. rewrite Z.add_comm, Z.odd_add_mul_2. unfold b. by destruct d. }
  change DNSSEC_OK_BIT with (2 ^ 15)%Z. by rewrite land_pow2_ne.
Qed.

(** ** Round trip through a record *)

Lemma from_to_record e :
  wf_edns e → from_record (to_record e) (options_data (options e)) = Ok e.
Proof.
  intros (Hu & Hx & Hv & Ho). unfold from_record. cbn [negb is_root to_record rr_name].
  rewrite parse_options_data by done. cbn [mbind result_bind rr_class rr_ttl to_record app].
  pose proof (opt_ttl_fields _ _ (dnssec_ok e) _ Hx Hv eq_refl) as (_ & E1 & E2 & E3).
  cbv zeta in E1, E2, E3 |- *. rewrite E1, E2, E3.
  rewrite (proj2 (wf_opt_class_opt _ Hu)). by destruct e.
Qed.
