(* ===== verification/Header.v ===== *)
(** * The message header

    Models the opcode, response-code and header codecs of
    [crates/dns-lattice-model/src/message.rs]. *)

From stdpp Require Import base numbers list.
From S2P Require Import Prelude CoreError Name RecordData.

Inductive Opcode : Type :=
  | Query | IQuery | Status | Notify | Update
  | OpOther (value : Z).

Inductive Rcode : Type :=
  | NoError | FormErr | ServFail | NxDomain | NotImp | Refused
  | RcOther (value : Z).

#[export] Instance opcode_eq_dec : EqDecision Opcode.
Proof. solve_decision. Defined.
#[export] Instance rcode_eq_dec : EqDecision Rcode.
Proof. solve_decision. Defined.

Definition opcode_from_u8 (value : Z) : Opcode :=
  match value with
  | 0 => Query
  | 1 => IQuery
  | 2 => Status
  | 4 => Notify
  | 5 => Update
  | other => OpOther other
  end%Z.

Definition opcode_to_u8 (o : Opcode) : Z :=
  match o with
  | Query => 0
  | IQuery => 1
  | Status => 2
  | Notify => 4
  | Update => 5
  | OpOther value => Z.land value 15
  end%Z.

Definition rcode_from_u8 (value : Z) : Rcode :=
  match value with
  | 0 => NoError
  | 1 => FormErr
  | 2 => ServFail
  | 3 => NxDomain
  | 4 => NotImp
  | 5 => Refused
  | other => RcOther other
  end%Z.

Definition rcode_to_u8 (r : Rcode) : Z :=
  match r with
  | NoError => 0
  | FormErr => 1
  | ServFail => 2
  | NxDomain => 3
  | NotImp => 4
  | Refused => 5
  | RcOther value => Z.land value 15
  end%Z.

Record Header : Type := mkHeader {
  id : Z;
  qr : bool;
  opcode : Opcode;
  authoritative : bool;
  truncated : bool;
  recursion_desired : bool;
  recursion_available : bool;
  rcode : Rcode;
}.

#[export] Instance header_eq_dec : EqDecision Header.
Proof. solve_decision. Defined.

Definition header_of_flags (id flags : Z) : Header :=
  {| id := id;
     qr := bool_decide (Z.land flags 32768 ≠ 0)%Z;
     opcode := opcode_from_u8 (Z.land (Z.shiftr flags 11) 15);
     authoritative := bool_decide (Z.land flags 1024 ≠ 0)%Z;
     truncated := bool_decide (Z.land flags 512 ≠ 0)%Z;
     recursion_desired := bool_decide (Z.land flags 256 ≠ 0)%Z;
     recursion_available := bool_decide (Z.land flags 128 ≠ 0)%Z;
     rcode := rcode_from_u8 (Z.land flags 15) |}.

Record Counts : Type := mkCounts { qc : Z; ac : Z; nsc : Z; arc : Z }.

Definition decode_header (buf : list Z) (pos : nat) : Run Error (Header * Counts * nat) :=
  '(id, pos) ← read_u16 buf pos;
  '(flags, pos) ← read_u16 buf pos;
  '(qdcount, pos) ← read_u16 buf pos;
  '(ancount, pos) ← read_u16 buf pos;
  '(nscount, pos) ← read_u16 buf pos;
  '(arcount, pos) ← read_u16 buf pos;
  Ret (header_of_flags id flags, mkCounts qdcount ancount nscount arcount, pos).

(** [if b { flags |= mask }] *)
Definition set_if (b : bool) (mask flags : Z) : Z := if b then Z.lor flags mask else flags.

Definition flags_of_header (h : Header) : Z :=
  let flags := set_if (qr h) 32768 0 in
  let flags := Z.lor flags (Z.shiftl (opcode_to_u8 (opcode h)) 11) in
  let flags := set_if (authoritative h) 1024 flags in
  let flags := set_if (truncated h) 512 flags in
  let flags := set_if (recursion_desired h) 256 flags in
  let flags := set_if (recursion_available h) 128 flags in
  Z.lor flags (rcode_to_u8 (rcode h)).

Definition encode_header (h : Header) (counts : Counts) (buf : list Z) : list Z :=
  let buf := write_u16 buf (id h) in
  let buf := write_u16 buf (flags_of_header h) in
  let buf := write_u16 buf (qc counts) in
  let buf := write_u16 buf (ac counts) in
  let buf := write_u16 buf (nsc counts) in
  write_u16 buf (arc counts).

(** ** Canonical headers *)

Definition wf_opcode (o : Opcode) : Prop :=
  match o with OpOther v => (0 ≤ v < 16)%Z ∧ v ∉ [0; 1; 2; 4; 5]%Z | _ => True end.
Definition wf_rcode (r : Rcode) : Prop :=
  match r with RcOther v => (0 ≤ v < 16)%Z ∧ v ∉ [0; 1; 2; 3; 4; 5]%Z | _ => True end.

#[export] Instance wf_opcode_dec o : Decision (wf_opcode o).
Proof. destruct o; cbn; apply _. Defined.
#[export] Instance wf_rcode_dec r : Decision (wf_rcode r).
Proof. destruct r; cbn; apply _. Defined.

(** A header with canonical fields: what a decoder can produce. *)
Definition wf_header (h : Header) : Prop :=
  is_u16 (id h) ∧ wf_opcode (opcode h) ∧ wf_rcode (rcode h).

(** Every value of a four-bit field. *)
Definition nibbles : list Z := [0; 1; 2; 3; 4; 5; 6; 7; 8; 9; 10; 11; 12; 13; 14; 15]%Z.

Lemma nibble_elem v : (0 ≤ v < 16)%Z → v ∈ nibbles.
Proof. intros Hv. unfold nibbles. rewrite !elem_of_cons. lia. Qed.

Lemma nibble_forall (P : Z → Prop) : Forall P nibbles → ∀ v, (0 ≤ v < 16)%Z → P v.
Proof. rewrite Forall_forall. intros H v Hv. by apply H, nibble_elem. Qed.

Lemma wf_opcode_from v : (0 ≤ v < 16)%Z → wf_opcode (opcode_from_u8 v).
Proof. apply (nibble_forall (λ v, wf_opcode (opcode_from_u8 v))). by decide_eval. Qed.

Lemma wf_rcode_from v : (0 ≤ v < 16)%Z → wf_rcode (rcode_from_u8 v).
Proof. apply (nibble_forall (λ v, wf_rcode (rcode_from_u8 v))). by decide_eval. Qed.

Lemma opcode_nibble o :
  wf_opcode o → ∃ v, v ∈ nibbles ∧ opcode_to_u8 o = v ∧ opcode_from_u8 v = o.
Proof.
  intros Ho. exists (opcode_to_u8 o).
  destruct o as [| | | | |v]; try (split; [unfold nibbles; set_solver|done]).
  destruct Ho as [Hv Hn]. revert v Hv Hn.
  apply (nibble_forall (λ v, v ∉ [0; 1; 2; 4; 5]%Z → opcode_to_u8 (OpOther v) ∈ nibbles ∧
    opcode_to_u8 (OpOther v) = opcode_to_u8 (OpOther v) ∧
    opcode_from_u8 (opcode_to_u8 (OpOther v)) = OpOther v)). by decide_eval.
Qed.

Lemma rcode_nibble r :
  wf_rcode r → ∃ v, v ∈ nibbles ∧ rcode_to_u8 r = v ∧ rcode_from_u8 v = r.
Proof.
  intros Ho. exists (rcode_to_u8 r).
  destruct r as [| | | | | |v]; try (split; [unfold nibbles; set_solver|done]).
  destruct Ho as [Hv Hn]. revert v Hv Hn.
  apply (nibble_forall (λ v, v ∉ [0; 1; 2; 3; 4; 5]%Z → rcode_to_u8 (RcOther v) ∈ nibbles ∧
    rcode_to_u8 (RcOther v) = rcode_to_u8 (RcOther v) ∧
    rcode_from_u8 (rcode_to_u8 (RcOther v)) = RcOther v)). by decide_eval.
Qed.

(** The flag word is injective on canonical headers, checked on all of its
    fields' values. *)
Definition flags_check (h : Header) : bool :=
  bool_decide (header_of_flags (id h) (flags_of_header h) = h) &&
  bool_decide (is_u16 (flags_of_header h)).

(** [P] on all ten-fold combinations of five flags and two nibbles. *)
Definition for_all_fields (P : bool → bool → bool → bool → bool → Z → Z → bool) : bool :=
  let bools (f : bool → bool) := f true && f false in
  bools (λ b1, bools (λ b2, bools (λ b3, bools (λ b4, bools (λ b5,
    forallb (λ o, forallb (P b1 b2 b3 b4 b5 o) nibbles) nibbles))))).

Lemma for_all_fields_spec P :
  for_all_fields P = true → ∀ b1 b2 b3 b4 b5 o r, o ∈ nibbles → r ∈ nibbles →
  P b1 b2 b3 b4 b5 o r = true.
Proof.
  unfold for_all_fields. intros H b1 b2 b3 b4 b5 o r Ho%list_elem_of_In Hr%list_elem_of_In.
  repeat match goal with
  | H : _ && _ = true |- _ => apply andb_true_iff in H as [? ?]
  end.
  destruct b1, b2, b3, b4, b5; repeat match goal with
  | H : forallb (λ o, forallb (P ?a ?b ?c ?d ?e o) _) _ = true |- P ?a ?b ?c ?d ?e _ _ = true =>
      rewrite forallb_forall in H; specialize (H o Ho); cbv beta in H;
      rewrite forallb_forall in H; exact (H r Hr)
  end.
Qed.

Lemma flags_check_all b1 b2 b3 b4 b5 i o r :
  o ∈ nibbles → r ∈ nibbles →
  flags_check (mkHeader i b1 (opcode_from_u8 o) b2 b3 b4 b5 (rcode_from_u8 r)) = true.
Proof.
  assert (Hi : ∀ h, flags_check h = flags_check (mkHeader 0 (qr h) (opcode h) (authoritative h)
    (truncated h) (recursion_desired h) (recursion_available h) (rcode h))).
  { intros [j ???????]. unfold flags_check.
    change (flags_of_header (mkHeader j _ _ _ _ _ _ _))
      with (flags_of_header (mkHeader 0 qr0 opcode0 authoritative0 truncated0
        recursion_desired0 recursion_available0 rcode0)).
    f_equal. apply bool_decide_ext. unfold header_of_flags. cbn [id].
    split; intros [=]; f_equal; done. }
  rewrite Hi. cbn [id qr opcode authoritative truncated recursion_desired recursion_available rcode].
  apply (for_all_fields_spec (λ b1 b2 b3 b4 b5 o r,
    flags_check (mkHeader 0 b1 (opcode_from_u8 o) b2 b3 b4 b5 (rcode_from_u8 r)))).
  vm_compute. reflexivity.
Qed.

Lemma header_flags h :
  wf_header h →
  header_of_flags (id h) (flags_of_header h) = h ∧ is_u16 (flags_of_header h).
Proof.
  destruct h as [i b1 o b2 b3 b4 b5 r]. intros (_ & Ho & Hr). cbn in *.
  destruct (opcode_nibble o Ho) as (v & Hv & _ & <-).
  destruct (rcode_nibble r Hr) as (w & Hw & _ & <-).
  pose proof (flags_check_all b1 b2 b3 b4 b5 i v w Hv Hw) as H.
  apply andb_true_iff in H as [?%bool_decide_eq_true ?%bool_decide_eq_true]. done.
Qed.

Lemma wf_header_of_flags i flags : is_u16 i → wf_header (header_of_flags i flags).
Proof.
  intros Hi. unfold wf_header, header_of_flags. cbn [id opcode rcode].
  change 15%Z with (Z.ones 4). rewrite !Z.land_ones by lia.
  split; [done|]. split; [apply wf_opcode_from|apply wf_rcode_from]; apply Z.mod_pos_bound; lia.
Qed.

(** ** Wire form *)

Definition counts_ok (c : Counts) : Prop :=
  is_u16 (qc c) ∧ is_u16 (ac c) ∧ is_u16 (nsc c) ∧ is_u16 (arc c).

Definition header_wire (h : Header) (c : Counts) : list Z :=
  to_be 2 (id h) ++ to_be 2 (flags_of_header h) ++ to_be 2 (qc c) ++ to_be 2 (ac c) ++
  to_be 2 (nsc c) ++ to_be 2 (arc c).

Lemma encode_header_wire h c buf : encode_header h c buf = buf ++ header_wire h c.
Proof. unfold encode_header, header_wire, write_u16. by rewrite <-!app_assoc. Qed.

Lemma length_header_wire h c : length (header_wire h c) = 12.
Proof. unfold header_wire. by rewrite !length_app, !length_to_be. Qed.

Lemma bytes_ok_header_wire h c : bytes_ok (header_wire h c).
Proof. repeat first [apply bytes_ok_to_be | apply bytes_ok_app]. Qed.

Lemma decode_header_has h c buf pos rest :
  wf_header h → counts_ok c → has_at buf pos (header_wire h c ++ rest) →
  decode_header buf pos = Ret (h, c, pos + 12) ∧ has_at buf (pos + 12) rest.
Proof.
  intros Hh (? & ? & ? & ?) Hat. split; [|by apply has_at_app in Hat].
  destruct (header_flags h Hh) as [Hf Hr]. destruct Hh as [? _].
  unfold header_wire in Hat. rewrite <-!app_assoc in Hat.
  unfold decode_header. do 6 read_step. rewrite Hf. destruct c. do 2 f_equal. lia.
Qed.

Lemma decode_header_ret buf pos h c pos' :
  bytes_ok buf → decode_header buf pos = Ret (h, c, pos') →
  wf_header h ∧ counts_ok c ∧ pos' = pos + 12 ∧ pos' ≤ length buf.
Proof.
  intros Hb. unfold decode_header. intros H. reads_inv.
  split; [by apply wf_header_of_flags; auto|]. split; [repeat split; cbn; naive_solver lia|]. lia.
Qed.

Lemma no_panic_decode_header buf pos : no_panic (decode_header buf pos).
Proof. unfold decode_header. no_panic. Qed.
#[export] Hint Resolve no_panic_decode_header : run.

Lemma read_u16_no_hang buf pos : read_u16 buf pos ≠ Hang.
Proof.
  unfold read_u16, index. case_decide; [done|]. destruct (buf !! pos), (buf !! (pos + 1)); done.
Qed.

Lemma read_u32_no_hang buf pos : read_u32 buf pos ≠ Hang.
Proof.
  unfold read_u32, index. case_decide; [done|].
  destruct (buf !! pos), (buf !! (pos + 1)), (buf !! (pos + 2)), (buf !! (pos + 3)); done.
Qed.
