(* ===== verification/Message.v ===== *)
(** * DNS messages

    Models the question and record codecs, [Message::decode],
    [Message::encode], [Message::edns] and [Message::set_edns] of
    [crates/dns-lattice-model/src/message.rs]. Decoders run in [Run]: they can
    return an error, and [decode_name] can loop. *)

From stdpp Require Import base numbers list.
From S2P Require Import Prelude CoreError Name RecordData Edns Header.

(** ** Data *)

Record Question : Type := mkQuestion { q_name : Name; qtype : RecordType; qclass : Class }.

Record Message : Type := mkMessage {
  header : Header;
  questions : list Question;
  answers : list ResourceRecord;
  authorities : list ResourceRecord;
  additionals : list ResourceRecord;
}.

#[export] Instance question_eq_dec : EqDecision Question.
Proof. solve_decision. Defined.
#[export] Instance message_eq_dec : EqDecision Message.
Proof. solve_decision. Defined.

(** ** Decoding *)

Definition decode_question (buf : list Z) (pos : nat) : Run Error (Question * nat) :=
  '(name, pos) ← decode_name buf pos;
  '(t, pos) ← read_u16 buf pos;
  '(c, pos) ← read_u16 buf pos;
  qclass ← lift (class_from_u16 c);
  Ret (mkQuestion name (type_from_u16 t) qclass, pos).

Definition decode_rr (buf : list Z) (pos : nat) : Run Error (ResourceRecord * nat) :=
  '(name, pos) ← decode_name buf pos;
  '(rtype_raw, pos) ← read_u16 buf pos;
  let rtype := type_from_u16 rtype_raw in
  let is_opt := bool_decide (rtype_raw = OPT_RTYPE) in
  '(class_raw, pos) ← read_u16 buf pos;
  class ← (if is_opt then Ret (opt_class class_raw) else lift (class_from_u16 class_raw));
  '(ttl_raw, pos) ← read_u32 buf pos;
  let ttl := if negb is_opt && bool_decide (Z.land ttl_raw 2147483648 ≠ 0)%Z
             then 0%Z else ttl_raw in
  '(rdlength, pos) ← read_u16 buf pos;
  '(rdata, pos) ← rdata_decode buf pos rtype (Z.to_nat rdlength);
  Ret (mkRR name rtype class ttl rdata, pos).

(** [for _ in 0..n { v.push(f(buf, &mut pos)?) }] *)
Fixpoint decode_many {A} (f : nat → Run Error (A * nat)) (n pos : nat) : Run Error (list A * nat) :=
  match n with
  | O => Ret ([], pos)
  | S n =>
      '(x, pos) ← f pos;
      '(xs, pos) ← decode_many f n pos;
      Ret (x :: xs, pos)
  end.

Definition decode (bytes : list Z) : Run Error Message :=
  '(header, counts, pos) ← decode_header bytes 0;
  '(questions, pos) ← decode_many (decode_question bytes) (Z.to_nat (qc counts)) pos;
  '(answers, pos) ← decode_many (decode_rr bytes) (Z.to_nat (ac counts)) pos;
  '(authorities, pos) ← decode_many (decode_rr bytes) (Z.to_nat (nsc counts)) pos;
  '(additionals, pos) ← decode_many (decode_rr bytes) (Z.to_nat (arc counts)) pos;
  Ret (mkMessage header questions answers authorities additionals).

(** ** Encoding *)

Definition to_u16_count (len : nat) : Result Error Z :=
  if decide (Z.of_nat len ≤ u16_max)%Z then Ok (Z.of_nat len) else Err MessageTooLong.

Definition encode_question (q : Question) (buf : list Z) : Result Error (list Z) :=
  buf ← encode_name (q_name q) buf;
  let buf := write_u16 buf (type_to_u16 (qtype q)) in
  Ok (write_u16 buf (class_to_u16 (qclass q))).

(** [buf[i..i + v.len()].copy_from_slice(v)], with the range inside [buf]. *)
Definition copy_at (buf : list Z) (i : nat) (v : list Z) : list Z :=
  take i buf ++ v ++ drop (i + length v) buf.

Definition encode_rr (rr : ResourceRecord) (buf : list Z) : Result Error (list Z) :=
  buf ← encode_name (rr_name rr) buf;
  let buf := write_u16 buf (type_to_u16 (record_type (rr_rdata rr))) in
  let buf := write_u16 buf (class_to_u16 (rr_class rr)) in
  let buf := write_u32 buf (rr_ttl rr) in
  let placeholder := length buf in
  let buf := buf ++ [0; 0]%Z in
  let start := length buf in
  buf ← rdata_encode (rr_rdata rr) buf;
  let len := length buf - start in
  len_u16 ← to_u16_count len;
  Ok (copy_at buf placeholder (to_be 2 len_u16)).

(** [for x in xs { f(x, buf)? }] *)
Fixpoint encode_many {A} (f : A → list Z → Result Error (list Z)) (xs : list A) (buf : list Z) :
    Result Error (list Z) :=
  match xs with
  | [] => Ok buf
  | x :: xs => buf ← f x buf; encode_many f xs buf
  end.

Definition encode_into (m : Message) (buf : list Z) : Result Error (list Z) :=
  qc ← to_u16_count (length (questions m));
  ac ← to_u16_count (length (answers m));
  nsc ← to_u16_count (length (authorities m));
  arc ← to_u16_count (length (additionals m));
  let buf := encode_header (header m) (mkCounts qc ac nsc arc) buf in
  buf ← encode_many encode_question (questions m) buf;
  buf ← encode_many encode_rr (answers m ++ authorities m ++ additionals m) buf;
  if decide (u16_max < Z.of_nat (length buf))%Z then Err MessageTooLong else Ok buf.

Definition encode (m : Message) : Result Error (list Z) := encode_into m [].

(** ** EDNS *)

(** The scan of [edns] over the additional section; [found] is the record
    found so far. *)
Fixpoint find_opt (found : option (ResourceRecord * list Z)) (records : list ResourceRecord) :
    Result Error (option (ResourceRecord * list Z)) :=
  match records with
  | [] => Ok found
  | record :: records =>
      match opt_data (rr_rdata record) with
      | Some data =>
          match found with
          | Some _ => Err CountMismatch
          | None => find_opt (Some (record, data)) records
          end
      | None => find_opt found records
      end
  end.

Definition edns (m : Message) : Result Error (option Edns) :=
  found ← find_opt None (additionals m);
  match found with
  | None => Ok None
  | Some (record, data) => e ← from_record record data; Ok (Some e)
  end.

Definition is_opt_record (record : ResourceRecord) : bool :=
  match opt_data (rr_rdata record) with Some _ => true | None => false end.

Definition set_edns (m : Message) (e : option Edns) : Message :=
  let additionals := List.filter (λ r, negb (is_opt_record r)) (additionals m) in
  let additionals :=
    match e with Some e => additionals ++ [to_record e] | None => additionals end in
  mkMessage (header m) (questions m) (answers m) (authorities m) additionals.


(** ** Well-formed messages *)

Definition wf_question (q : Question) : Prop :=
  wf_name (q_name q) ∧ wf_type (qtype q) ∧ wf_class (qclass q).

Definition is_opt_type (t : RecordType) : bool := bool_decide (t = TOther OPT_RTYPE).

(** A record whose type agrees with its data and whose class and TTL are what
    the decoder produces for that type. *)
Definition wf_rr (rr : ResourceRecord) : Prop :=
  wf_name (rr_name rr) ∧ wf_rdata (rr_rdata rr) ∧ rr_rtype rr = record_type (rr_rdata rr) ∧
  if is_opt_type (rr_rtype rr) then wf_opt_class (rr_class rr) ∧ is_u32 (rr_ttl rr)
  else wf_class (rr_class rr) ∧ (0 ≤ rr_ttl rr < 2147483648)%Z.

Definition wf_message (m : Message) : Prop :=
  wf_header (header m) ∧ Forall wf_question (questions m) ∧ Forall wf_rr (answers m) ∧
  Forall wf_rr (authorities m) ∧ Forall wf_rr (additionals m).

(** ** Wire form *)

Definition question_wire (q : Question) : list Z :=
  name_wire (q_name q) ++ to_be 2 (type_to_u16 (qtype q)) ++ to_be 2 (class_to_u16 (qclass q)).

(** A record after its owner name. *)
Definition rr_rest (rr : ResourceRecord) : list Z :=
  to_be 2 (type_to_u16 (record_type (rr_rdata rr))) ++
  to_be 2 (class_to_u16 (rr_class rr)) ++ to_be 4 (rr_ttl rr) ++
  to_be 2 (Z.of_nat (length (rdata_wire (rr_rdata rr)))) ++ rdata_wire (rr_rdata rr).

Definition rr_wire (rr : ResourceRecord) : list Z := name_wire (rr_name rr) ++ rr_rest rr.

Definition many_wire {A} (wire : A → list Z) (xs : list A) : list Z := concat (map wire xs).

Definition counts_of (m : Message) : Counts :=
  mkCounts (Z.of_nat (length (questions m))) (Z.of_nat (length (answers m)))
    (Z.of_nat (length (authorities m))) (Z.of_nat (length (additionals m))).

(** The uncompressed wire form of a message. *)
Definition message_wire (m : Message) : list Z :=
  header_wire (header m) (counts_of m) ++ many_wire question_wire (questions m) ++
  many_wire rr_wire (answers m) ++ many_wire rr_wire (authorities m) ++
  many_wire rr_wire (additionals m).

Lemma many_wire_app {A} (wire : A → list Z) xs ys :
  many_wire wire (xs ++ ys) = many_wire wire xs ++ many_wire wire ys.
Proof. unfold many_wire. by rewrite map_app, concat_app. Qed.

Lemma length_many_wire {A} (wire : A → list Z) xs :
  (∀ x, 1 ≤ length (wire x)) → length xs ≤ length (many_wire wire xs).
Proof.
  intros H. unfold many_wire. induction xs as [|x xs IH]; cbn; [lia|].
  rewrite length_app. specialize (H x). lia.
Qed.

Lemma length_question_wire q : 1 ≤ length (question_wire q).
Proof. unfold question_wire. rewrite !length_app, !length_to_be. lia. Qed.

Lemma length_rr_wire rr : length (rdata_wire (rr_rdata rr)) + 1 ≤ length (rr_wire rr).
Proof. unfold rr_wire, rr_rest. rewrite !length_app, !length_to_be. lia. Qed.

(** ** Encoding computes the wire form *)

Lemma copy_at_middle pre old post v :
  length v = length old → copy_at (pre ++ old ++ post) (length pre) v = pre ++ v ++ post.
Proof.
  intros Hl. unfold copy_at. rewrite take_app_length. do 2 f_equal.
  rewrite <-drop_drop, drop_app_length, Hl. apply drop_app_length.
Qed.

Definition fits (n : nat) : Prop := (Z.of_nat n ≤ u16_max)%Z.

#[export] Instance fits_dec n : Decision (fits n).
Proof. unfold fits. apply _. Defined.

Lemma fits_le n m : fits n → m ≤ n → fits m.
Proof. unfold fits. lia. Qed.

Lemma to_u16_count_spec n :
  to_u16_count n = if decide (fits n) then Ok (Z.of_nat n) else Err MessageTooLong.
Proof. done. Qed.

(** A count too large for its field stands for a message too long. *)
Lemma to_u16_count_bind {B} n (k : Z → Result Error B) r :
  (¬ fits n → r = Err MessageTooLong) → (fits n → k (Z.of_nat n) = r) →
  (to_u16_count n ≫= k) = r.
Proof. rewrite to_u16_count_spec. intros Hno Hyes. case_decide; cbn; [auto|]. by rewrite Hno. Qed.

Lemma encode_question_wf q buf :
  wf_question q → encode_question q buf = Ok (buf ++ question_wire q).
Proof.
  intros (Hn & _ & _). unfold encode_question. rewrite encode_name_wf by done.
  cbn [mbind result_bind]. unfold write_u16, question_wire. by rewrite <-!app_assoc.
Qed.

Lemma encode_rr_wf rr buf :
  wf_rr rr →
  encode_rr rr buf =
  if decide (fits (length (rdata_wire (rr_rdata rr)))) then Ok (buf ++ rr_wire rr)
  else Err MessageTooLong.
Proof.
  intros (Hn & Hr & _ & _). unfold encode_rr. rewrite encode_name_wf by done.
  cbn [mbind result_bind]. rewrite rdata_encode_wf by done. cbn [mbind result_bind].
  set (pre := write_u32 _ _). rewrite to_u16_count_spec.
  replace (length ((pre ++ [0%Z; 0%Z]) ++ rdata_wire (rr_rdata rr)) - length (pre ++ [0%Z; 0%Z]))
    with (length (rdata_wire (rr_rdata rr))) by (rewrite (length_app (pre ++ _)); lia).
  case_decide; [|done]. cbn [mbind result_bind]. rewrite <-app_assoc.
  rewrite copy_at_middle by (by rewrite length_to_be). f_equal. unfold pre, write_u32, write_u16, rr_wire, rr_rest.
  by rewrite <-!app_assoc.
Qed.

Lemma encode_questions_wf qs buf :
  Forall wf_question qs → encode_many encode_question qs buf = Ok (buf ++ many_wire question_wire qs).
Proof.
  intros H. revert buf. unfold many_wire.
  induction H as [|q qs Hq _ IH]; intros buf; cbn [encode_many map concat]; [by rewrite app_nil_r|].
  rewrite encode_question_wf by done. cbn [mbind result_bind]. by rewrite IH, app_assoc.
Qed.

Lemma encode_rrs_wf rrs buf :
  Forall wf_rr rrs →
  encode_many encode_rr rrs buf =
  if decide (Forall (λ rr, fits (length (rdata_wire (rr_rdata rr)))) rrs)
  then Ok (buf ++ many_wire rr_wire rrs) else Err MessageTooLong.
Proof.
  intros H. revert buf. unfold many_wire.
  induction H as [|q qs Hq _ IH]; intros buf; cbn [encode_many map concat]; [by rewrite app_nil_r|].
  rewrite encode_rr_wf by done.
  destruct (decide (fits (length (rdata_wire (rr_rdata q))))) as [Hf|Hf]; cbn [mbind result_bind].
  - rewrite IH. case_decide as Hfs.
    + rewrite decide_True by (by constructor). by rewrite app_assoc.
    + rewrite decide_False; [done|]. by intros [_ ?]%Forall_cons.
  - rewrite decide_False; [done|]. by intros [? _]%Forall_cons.
Qed.

Lemma many_wire_fits rrs :
  fits (length (many_wire rr_wire rrs)) → Forall (λ rr, fits (length (rdata_wire (rr_rdata rr)))) rrs.
Proof.
  unfold many_wire. induction rrs as [|rr rrs IH]; intros Hf; [constructor|].
  cbn [map concat] in Hf. rewrite length_app in Hf. pose proof (length_rr_wire rr).
  constructor; [|apply IH]; (eapply fits_le; [exact Hf|lia]).
Qed.

(** The exact behaviour of [encode_into] on a well-formed message, counts and
    data lengths that do not fit included. *)
Lemma encode_into_wf m buf :
  wf_message m →
  encode_into m buf =
  if decide (fits (length buf + length (message_wire m))) then Ok (buf ++ message_wire m)
  else Err MessageTooLong.
Proof.
  intros (Hh & Hq & Ha & Hn & Hx). unfold encode_into.
  assert (Hone : ∀ rr, 1 ≤ length (rr_wire rr)) by (intros rr; pose proof (length_rr_wire rr); lia).
  pose proof (length_many_wire question_wire (questions m) length_question_wire).
  pose proof (length_many_wire rr_wire (answers m) Hone).
  pose proof (length_many_wire rr_wire (authorities m) Hone).
  pose proof (length_many_wire rr_wire (additionals m) Hone).
  set (Q := many_wire question_wire (questions m)) in *.
  set (A := many_wire rr_wire (answers m)) in *. set (N := many_wire rr_wire (authorities m)) in *.
  set (X := many_wire rr_wire (additionals m)) in *.
  assert (Hl : length (message_wire m) = 12 + length Q + length A + length N + length X).
  { unfold message_wire. rewrite !length_app, length_header_wire. unfold Q, A, N, X. lia. }
  do 4 (apply to_u16_count_bind;
    [intros F; rewrite decide_False; [done|]; unfold fits in *; lia|intros _]).
  rewrite encode_questions_wf by done. cbn [mbind result_bind].
  rewrite encode_rrs_wf by (by rewrite !Forall_app).
  rewrite encode_header_wire, !many_wire_app. fold Q A N X. fold (counts_of m).
  case_decide as Hf; cbn [mbind result_bind].
  - rewrite !length_app, length_header_wire.
    case_decide; [rewrite decide_False; [done|]; unfold fits; lia|].
    rewrite decide_True by (unfold fits; lia). unfold message_wire. fold Q A N X.
    by rewrite <-!app_assoc.
  - rewrite decide_False; [done|]. intros Hfit. apply Hf.
    apply many_wire_fits. rewrite !many_wire_app, !length_app. fold A N X.
    eapply fits_le; [exact Hfit|lia].
Qed.

Lemma bytes_ok_question_wire q : wf_question q → bytes_ok (question_wire q).
Proof.
  intros (? & _ & _). unfold question_wire.
  repeat first [apply bytes_ok_to_be | by apply bytes_ok_name_wire | apply bytes_ok_app].
Qed.

Lemma bytes_ok_rr_wire rr : wf_rr rr → bytes_ok (rr_wire rr).
Proof.
  intros (? & ? & _). unfold rr_wire.
  repeat first [apply bytes_ok_to_be | by apply bytes_ok_name_wire
               | by apply bytes_ok_rdata_wire | apply bytes_ok_app].
Qed.

Lemma bytes_ok_many_wire {A} (P : A → Prop) wire xs :
  (∀ x, P x → bytes_ok (wire x)) → Forall P xs → bytes_ok (many_wire wire xs).
Proof.
  intros HP. induction 1; cbn; [constructor|]. apply bytes_ok_app; auto.
Qed.

Lemma bytes_ok_message_wire m : wf_message m → bytes_ok (message_wire m).
Proof.
  intros (Hh & Hq & Ha & Hn & Hx). unfold message_wire.
  apply bytes_ok_app; [apply bytes_ok_header_wire|].
  apply bytes_ok_app; [by eapply bytes_ok_many_wire, Hq; apply bytes_ok_question_wire|].
  repeat apply Forall_app_2; by eapply bytes_ok_many_wire; [apply bytes_ok_rr_wire|].
Qed.

(** ** Decoding the wire form *)

Lemma decode_question_has q buf pos rest :
  wf_question q → has_at buf pos (question_wire q ++ rest) →
  decode_question buf pos = Ret (q, pos + length (question_wire q)) ∧
  has_at buf (pos + length (question_wire q)) rest.
Proof.
  intros (Hn & Ht & Hc) Hat. split; [|by apply has_at_app].
  unfold question_wire in Hat. rewrite <-!app_assoc in Hat. unfold decode_question.
  pose proof (type_to_u16_range _ Ht). pose proof (class_to_u16_range _ Hc).
  do 3 read_step. rewrite class_from_to, type_from_to by done. cbn [lift mbind run_bind].
  destruct q. cbn [q_name qtype qclass]. do 2 f_equal.
  unfold question_wire. rewrite !length_app, !length_to_be. cbn [q_name]. lia.
Qed.

Lemma is_opt_raw r :
  wf_rdata r → bool_decide (type_to_u16 (record_type r) = OPT_RTYPE) = is_opt_type (record_type r).
Proof. intros Hr. apply bool_decide_ext. unfold OPT_RTYPE. destruct r; cbn; split; (congruence || lia). Qed.

Lemma rdata_decode_at r buf pos rest :
  wf_rdata r → has_at buf pos (rdata_wire r ++ rest) →
  rdata_decode buf pos (record_type r) (length (rdata_wire r)) =
  Ret (r, pos + length (rdata_wire r)).
Proof. intros. by eapply rdata_decode_has. Qed.

Lemma length_rr_rest rr : length (rr_rest rr) = 10 + length (rdata_wire (rr_rdata rr)).
Proof. unfold rr_rest. rewrite !length_app, !length_to_be. lia. Qed.

(** However the owner name is written, what follows it is read back. *)
Lemma decode_rr_named rr buf pos pos' rest :
  wf_rr rr → fits (length (rdata_wire (rr_rdata rr))) →
  decode_name buf pos = Ret (rr_name rr, pos') → has_at buf pos' (rr_rest rr ++ rest) →
  decode_rr buf pos = Ret (rr, pos' + length (rr_rest rr)) ∧
  has_at buf (pos' + length (rr_rest rr)) rest.
Proof.
  intros (Hn & Hr & Ht & Hc) Hfit Hname Hat. split; [|by apply has_at_app].
  rewrite length_rr_rest. unfold rr_rest in Hat. rewrite <-!app_assoc in Hat. unfold decode_rr, fits in *.
  rewrite Hname. cbn [mbind run_bind].
  pose proof (type_to_u16_range _ (wf_record_type _ Hr)).
  assert (is_u16 (class_to_u16 (rr_class rr)) ∧ is_u32 (rr_ttl rr)) as [? ?].
  { destruct (is_opt_type (rr_rtype rr)); destruct Hc as [Hc ?].
    - auto using wf_opt_class_range.
    - split; [by apply class_to_u16_range|lia]. }
  do 2 read_step. rewrite is_opt_raw by done. rewrite Ht in Hc.
  destruct rr as [n t c ttl r]. cbn [rr_name rr_rtype rr_class rr_ttl rr_rdata] in *. subst t.
  rewrite type_from_to by (by apply wf_record_type).
  destruct (is_opt_type (record_type r)); cbn [negb andb mbind run_bind].
  - destruct Hc as [Hc _]. rewrite opt_class_to by done. do 2 read_step.
    rewrite Nat2Z.id, (rdata_decode_at r _ _ rest) by done. cbn [mbind run_bind]. do 2 f_equal. lia.
  - destruct Hc as [Hc Httl]. rewrite class_from_to by done. cbn [lift mbind run_bind]. do 2 read_step.
    change 2147483648%Z with (2 ^ 31)%Z at 1.
    rewrite land_pow2_ne, u32_top_bit, bool_decide_false by lia.
    rewrite Nat2Z.id, (rdata_decode_at r _ _ rest) by done. cbn [mbind run_bind]. do 2 f_equal. lia.
Qed.

Lemma decode_rr_has rr buf pos rest :
  wf_rr rr → fits (length (rdata_wire (rr_rdata rr))) → has_at buf pos (rr_wire rr ++ rest) →
  decode_rr buf pos = Ret (rr, pos + length (rr_wire rr)) ∧
  has_at buf (pos + length (rr_wire rr)) rest.
Proof.
  intros Hrr Hfit Hat. unfold rr_wire in *. rewrite <-app_assoc in Hat. rewrite length_app, Nat.add_assoc.
  destruct (decode_name_has (rr_name rr) _ _ _ (proj1 Hrr) Hat) as [Hname Hat'].
  by apply decode_rr_named.
Qed.

(** A loop of decoders reads back a sequence of wire forms; [from] bounds the
    positions it reads at. *)
Lemma decode_many_has {A} (f : list Z → nat → Run Error (A * nat)) wire (P : A → Prop) (from : nat) xs buf pos rest :
  (∀ x pos rest, from ≤ pos → P x → has_at buf pos (wire x ++ rest) →
    f buf pos = Ret (x, pos + length (wire x)) ∧ has_at buf (pos + length (wire x)) rest) →
  from ≤ pos → Forall P xs → has_at buf pos (many_wire wire xs ++ rest) →
  decode_many (f buf) (length xs) pos = Ret (xs, pos + length (many_wire wire xs)) ∧
  has_at buf (pos + length (many_wire wire xs)) rest.
Proof.
  intros Hf Hp H. revert pos Hp. unfold many_wire.
  induction H as [|x xs Hx _ IH]; intros pos Hp Hat; cbn [decode_many length map concat] in *.
  { rewrite Nat.add_0_r. done. }
  rewrite <-app_assoc in Hat. destruct (Hf _ _ _ Hp Hx Hat) as [-> Hat'].
  destruct (IH (pos + length (wire x)) ltac:(lia) Hat') as [E Hat'']. cbn [mbind run_bind]. rewrite E. cbn [mbind run_bind].
  rewrite length_app, Nat.add_assoc. done.
Qed.

Definition rr_fits (rr : ResourceRecord) : Prop :=
  wf_rr rr ∧ fits (length (rdata_wire (rr_rdata rr))).

Lemma decode_rrs_has rrs buf pos rest :
  Forall wf_rr rrs → fits (length (many_wire rr_wire rrs)) →
  has_at buf pos (many_wire rr_wire rrs ++ rest) →
  decode_many (decode_rr buf) (length rrs) pos = Ret (rrs, pos + length (many_wire rr_wire rrs)) ∧
  has_at buf (pos + length (many_wire rr_wire rrs)) rest.
Proof.
  intros Hw Hf%many_wire_fits. apply (decode_many_has decode_rr rr_wire rr_fits 0).
  - intros x p r _ [? ?]. by apply decode_rr_has.
  - lia.
  - apply Forall_and. done.
Qed.

(** Decoding does not look past the message: trailing bytes are ignored. *)
Lemma decode_message_wire m rest :
  wf_message m → fits (length (message_wire m)) → decode (message_wire m ++ rest) = Ret m.
Proof.
  intros (Hh & Hq & Ha & Hn & Hx) Hf. set (buf := message_wire m ++ rest).
  assert (Hat : has_at buf 0 (message_wire m ++ rest)) by (split; [done|lia]).
  assert (Hl : length (message_wire m) = 12 + length (many_wire question_wire (questions m)) +
    length (many_wire rr_wire (answers m)) + length (many_wire rr_wire (authorities m)) +
    length (many_wire rr_wire (additionals m))).
  { unfold message_wire. rewrite !length_app, length_header_wire. lia. }
  assert (Hone : ∀ rr, 1 ≤ length (rr_wire rr)) by (intros rr; pose proof (length_rr_wire rr); lia).
  pose proof (length_many_wire question_wire (questions m) length_question_wire).
  pose proof (length_many_wire rr_wire (answers m) Hone).
  pose proof (length_many_wire rr_wire (authorities m) Hone).
  pose proof (length_many_wire rr_wire (additionals m) Hone).
  unfold message_wire in Hat. rewrite <-!app_assoc in Hat. unfold decode.
  apply decode_header_has in Hat as [-> Hat]; [|done|unfold counts_ok, counts_of; cbn; unfold fits in *; lia].
  cbn [mbind run_bind counts_of qc ac nsc arc]. rewrite !Nat2Z.id.
  apply (decode_many_has decode_question question_wire wf_question 0) in Hat as [-> Hat];
    [|intros ????; by apply decode_question_has|lia|done]. cbn [mbind run_bind].
  apply decode_rrs_has in Hat as [-> Hat]; [|done|eapply fits_le; [exact Hf|lia]]. cbn [mbind run_bind].
  apply decode_rrs_has in Hat as [-> Hat]; [|done|eapply fits_le; [exact Hf|lia]]. cbn [mbind run_bind].
  apply decode_rrs_has in Hat as [-> Hat]; [|done|eapply fits_le; [exact Hf|lia]]. cbn [mbind run_bind].
  by destruct m.
Qed.

(** ** What decoding returns *)

Lemma lift_ret {A} (r : Result Error A) a : lift r = Ret a ↔ r = Ok a.
Proof. destruct r; cbn; naive_solver. Qed.

Lemma decode_question_ret buf pos q pos' :
  bytes_ok buf → decode_question buf pos = Ret (q, pos') →
  wf_question q ∧ pos < pos' ≤ length buf.
Proof.
  intros Hb. unfold decode_question. intros H. reads_inv.
  apply lift_ret, class_from_ok in Er2 as [? _]; [|auto].
  split; [|lia]. split; [auto|]. split; [|done]. cbn. apply wf_type_from. auto.
Qed.

Lemma is_opt_from raw :
  is_u16 raw → bool_decide (raw = OPT_RTYPE) = is_opt_type (type_from_u16 raw).
Proof.
  intros Hr. apply bool_decide_ext. rewrite <-(type_to_from raw Hr) at 1.
  pose proof (wf_type_from raw Hr) as Hw. unfold OPT_RTYPE.
  destruct (type_from_u16 raw); cbn; split; (congruence || lia).
Qed.

Lemma decode_rr_ret buf pos rr pos' :
  bytes_ok buf → decode_rr buf pos = Ret (rr, pos') → wf_rr rr ∧ pos < pos' ≤ length buf.
Proof.
  intros Hb. unfold decode_rr. intros H. reads_inv.
  assert (Hraw : is_u16 z) by auto.
  apply rdata_decode_ret in Er5 as (Hr & Ht & ? & ?); [|done|by apply wf_type_from].
  split; [|lia]. unfold wf_rr. cbn [rr_name rr_rdata rr_rtype rr_class rr_ttl].
  split; [auto|]. split; [done|]. split; [done|].
  rewrite is_opt_from in * by done. destruct (is_opt_type (type_from_u16 z)); cbn [negb andb].
  - run_inv. split; [apply wf_opt_class_opt; auto|auto].
  - apply lift_ret, class_from_ok in Er2 as [? _]; [|auto]. split; [done|].
    assert (is_u32 z1) by auto. change 2147483648%Z with (2 ^ 31)%Z.
    rewrite land_pow2_ne, u32_top_bit by done. case_bool_decide; lia.
Qed.

Lemma decode_many_ret {A} (f : nat → Run Error (A * nat)) (P : A → Prop) (end_ : nat) n pos xs pos' :
  (∀ pos x pos', f pos = Ret (x, pos') → P x ∧ pos < pos' ≤ end_) →
  decode_many f n pos = Ret (xs, pos') → Forall P xs ∧ length xs = n ∧ pos ≤ pos'.
Proof.
  intros Hf. revert pos xs. induction n as [|n IH]; intros pos xs H; cbn [decode_many] in H.
  { run_inv. done. }
  run_inv. apply Hf in Er as [? ?]. apply IH in Er0 as (? & ? & ?).
  split; [by constructor|]. cbn. lia.
Qed.

(** A decoded message is well formed. *)
Lemma decode_ret_wf buf m : bytes_ok buf → decode buf = Ret m → wf_message m.
Proof.
  intros Hb. unfold decode. intros H. run_inv.
  apply decode_header_ret in Er as (? & _); [|done].
  pose proof (λ pos q pos', decode_question_ret buf pos q pos' Hb) as Hq.
  pose proof (λ pos rr pos', decode_rr_ret buf pos rr pos' Hb) as Hr.
  apply (decode_many_ret _ wf_question (length buf)) in Er0 as [? _]; [|done].
  apply (decode_many_ret _ wf_rr (length buf)) in Er1 as [? _]; [|done].
  apply (decode_many_ret _ wf_rr (length buf)) in Er2 as [? _]; [|done].
  apply (decode_many_ret _ wf_rr (length buf)) in Er3 as [? _]; [|done].
  done.
Qed.

(** ** Decoding never panics *)

Lemma no_panic_decode_question buf pos : no_panic (decode_question buf pos).
Proof. unfold decode_question. no_panic. Qed.

Lemma no_panic_decode_rr buf pos : no_panic (decode_rr buf pos).
Proof.
  unfold decode_rr. no_panic. case_bool_decide; no_panic.
Qed.

Lemma no_panic_decode_many {A} (f : nat → Run Error (A * nat)) n pos :
  (∀ pos, no_panic (f pos)) → no_panic (decode_many f n pos).
Proof. intros Hf. revert pos. induction n; intros pos; cbn [decode_many]; no_panic. Qed.

Lemma decode_no_panic_aux buf : no_panic (decode buf).
Proof.
  unfold decode. apply no_panic_bind; [no_panic|]. intros [[h c] pos] _.
  apply no_panic_bind; [apply no_panic_decode_many, no_panic_decode_question|]. intros [? ?] _.
  do 3 (apply no_panic_bind; [apply no_panic_decode_many, no_panic_decode_rr|]; intros [? ?] _).
  done.
Qed.

(** ** Termination *)

Lemma run_bind_no_hang {E A B} (m : Run E A) (f : A → Run E B) :
  m ≠ Hang → (∀ a, m = Ret a → f a ≠ Hang) → (m ≫= f) ≠ Hang.
Proof. destruct m; cbn; naive_solver. Qed.

Lemma decode_checked_name_no_hang buf pos start rdlength :
  decode_name buf pos ≠ Hang → decode_checked_name buf pos start rdlength ≠ Hang.
Proof.
  intros H. unfold decode_checked_name, consumed. apply run_bind_no_hang; [done|].
  intros [n p] _. repeat (case_decide; cbn; try done).
Qed.

(** Where no compression pointer can be read, decoding returns. *)
Section no_pointer.
Context (buf : list Z) (from : nat) (Hb : bytes_ok buf).
Hypothesis Hlow : Forall (λ b, b < 192)%Z (drop from buf).

Lemma decode_name_returns pos : from ≤ pos → decode_name buf pos ≠ Hang.
Proof.
  intros Hle. apply decode_name_no_pointer; [done|].
  replace pos with (from + (pos - from)) by lia. rewrite <-drop_drop. by apply Forall_drop.
Qed.

Ltac no_hang :=
  repeat first
    [ done | lia
    | apply read_u16_no_hang | apply read_u32_no_hang
    | apply decode_name_returns
    | apply decode_checked_name_no_hang
    | apply run_bind_no_hang; [|intros; run_inv; reads_inv]
    | case_decide ].

Lemma rdata_decode_returns pos t rdlength :
  from ≤ pos → rdata_decode buf pos t rdlength ≠ Hang.
Proof.
  intros Hle. unfold rdata_decode, consumed, slice.
  case_decide; [done|]. destruct t; no_hang. apply decode_strings_no_hang. lia.
Qed.

Lemma decode_question_returns pos : from ≤ pos → decode_question buf pos ≠ Hang.
Proof.
  intros Hle. unfold decode_question. no_hang. by destruct (class_from_u16 _).
Qed.

Lemma decode_rr_returns pos : from ≤ pos → decode_rr buf pos ≠ Hang.
Proof.
  intros Hle. unfold decode_rr. no_hang.
  all: first [apply rdata_decode_returns; lia | by destruct (class_from_u16 _)].
Qed.

Lemma decode_many_returns {A} (f : nat → Run Error (A * nat)) n pos :
  (∀ pos, from ≤ pos → f pos ≠ Hang) →
  (∀ pos x pos', f pos = Ret (x, pos') → True ∧ pos < pos' ≤ length buf) →
  from ≤ pos → decode_many f n pos ≠ Hang.
Proof.
  intros Hf Hpos. revert pos. induction n as [|n IH]; intros pos Hle; cbn [decode_many]; [done|].
  apply run_bind_no_hang; [by apply Hf|]. intros [x p] [_ ?]%Hpos.
  apply run_bind_no_hang; [apply IH; lia|]. by intros [xs q].
Qed.
End no_pointer.

(** ** EDNS in a message *)

Lemma find_opt_none found rs :
  Forall (λ r, opt_data (rr_rdata r) = None) rs → find_opt found rs = Ok found.
Proof. induction 1 as [|r rs Hr _ IH]; cbn; [done|]. by rewrite Hr. Qed.

Lemma find_opt_app found rs rs' :
  find_opt found (rs ++ rs') = (f ← find_opt found rs; find_opt f rs').
Proof.
  revert found. induction rs as [|r rs IH]; intros found; cbn; [done|].
  destruct (opt_data _); [destruct found|]; cbn; auto.
Qed.

Lemma filter_not_opt rs :
  Forall (λ r, opt_data (rr_rdata r) = None) (List.filter (λ r, negb (is_opt_record r)) rs).
Proof.
  apply Forall_forall. intros r Hr%list_elem_of_In. apply filter_In in Hr as [_ Hr].
  unfold is_opt_record in Hr. by destruct (opt_data _).
Qed.

(** How many OPT records a section holds. *)
Definition opt_count (rs : list ResourceRecord) : nat :=
  length (List.filter is_opt_record rs).

Lemma find_opt_some r0 rs :
  find_opt (Some r0) rs = if decide (opt_count rs = 0) then Ok (Some r0) else Err CountMismatch.
Proof.
  unfold opt_count, is_opt_record. induction rs as [|r rs IH]; cbn; [done|].
  destruct (opt_data _); cbn; [done|apply IH].
Qed.

Lemma find_opt_spec rs :
  match find_opt None rs with
  | Ok None => opt_count rs = 0
  | Ok (Some (r, d)) => opt_count rs = 1 ∧ r ∈ rs ∧ opt_data (rr_rdata r) = Some d
  | Err e => e = CountMismatch ∧ 2 ≤ opt_count rs
  end.
Proof.
  induction rs as [|r rs IH]; [done|]. cbn [find_opt].
  destruct (opt_data (rr_rdata r)) as [d|] eqn:Hd.
  - rewrite find_opt_some. assert (Hc : opt_count (r :: rs) = S (opt_count rs)).
    { unfold opt_count, is_opt_record. cbn. by rewrite Hd. }
    rewrite Hc. case_decide; [|split; [done|lia]].
    split; [lia|]. split; [by left|done].
  - assert (Hc : opt_count (r :: rs) = opt_count rs).
    { unfold opt_count, is_opt_record. cbn. by rewrite Hd. }
    rewrite Hc. destruct (find_opt None rs) as [[[r' d']|]|]; try done.
    destruct IH as (? & ? & ?). split; [done|]. split; [by right|done].
Qed.

Lemma wf_to_record e : wf_edns e → wf_rr (to_record e).
Proof.
  intros (Hu & Hx & Hv & Ho). unfold wf_rr, to_record. cbn [rr_name rr_rdata rr_rtype rr_class rr_ttl].
  split; [apply wf_root|]. split.
  { split; [|by apply bytes_ok_options_data]. split; [done|]. by decide_eval. }
  split; [done|]. assert (is_opt_type (TOther OPT_RTYPE) = true) as -> by done.
  split; [by apply wf_opt_class_opt|].
  pose proof (opt_ttl_fields _ _ (dnssec_ok e) _ Hx Hv eq_refl) as [? _]. done.
Qed.

Lemma edns_set_some m e :
  wf_edns e → edns (set_edns m (Some e)) = Ok (Some e).
Proof.
  intros He. unfold edns, set_edns. cbn [additionals]. rewrite find_opt_app.
  rewrite find_opt_none by apply filter_not_opt. cbn [mbind result_bind].
  assert (find_opt None [to_record e] = Ok (Some (to_record e, options_data (options e)))) as -> by done.
  cbn [mbind result_bind]. by rewrite from_to_record.
Qed.

Lemma edns_set_none m : edns (set_edns m None) = Ok None.
Proof.
  unfold edns, set_edns. cbn [additionals]. by rewrite find_opt_none by apply filter_not_opt.
Qed.

(** [set_edns] keeps every other record, in order. *)
Lemma set_edns_others m e :
  List.filter (λ r, negb (is_opt_record r)) (additionals (set_edns m e)) =
    List.filter (λ r, negb (is_opt_record r)) (additionals m).
Proof.
  assert (Hidem : ∀ rs : list ResourceRecord, List.filter (λ r, negb (is_opt_record r))
    (List.filter (λ r, negb (is_opt_record r)) rs) = List.filter (λ r, negb (is_opt_record r)) rs).
  { induction rs as [|r rs IH]; cbn; [done|]. destruct (is_opt_record r) eqn:Hr; cbn; [done|].
    rewrite Hr. cbn. by rewrite IH. }
  unfold set_edns. cbn [additionals]. destruct e as [e|]; [|apply Hidem].
  rewrite List.filter_app, Hidem. cbn. by rewrite app_nil_r.
Qed.

Lemma wf_set_edns m e :
  wf_message m → match e with Some e => wf_edns e | None => True end → wf_message (set_edns m e).
Proof.
  intros (? & ? & ? & ? & Hx) He. unfold set_edns, wf_message. cbn [header questions answers authorities additionals].
  split; [done|]. split; [done|]. split; [done|]. split; [done|].
  assert (Forall wf_rr (List.filter (λ r, negb (is_opt_record r)) (additionals m))).
  { apply Forall_forall. intros r Hr%list_elem_of_In. apply filter_In in Hr as [Hr _].
    apply list_elem_of_In in Hr. by eapply Forall_forall in Hx. }
  destruct e; [|done]. apply Forall_app. split; [done|]. constructor; [by apply wf_to_record|constructor].
Qed.

(** ** The properties of the codec *)

Definition example_header : Header := mkHeader 4660 false Query false false true false NoError.

(** A query for "ex.org"/A with EDNS. *)
Definition example_name : Name := mkName [[101; 120]; [111; 114; 103]]%Z.
Definition example_query : Message :=
  set_edns (mkMessage example_header [mkQuestion example_name TA In] [] [] [])
    (Some (push_option (set_dnssec_ok (edns_new 1232) true) (mkOption 12 [0; 0]%Z))).

Lemma wf_example_query : wf_message example_query.
Proof.
  repeat split; repeat constructor; cbn; try lia; try done; by decide_eval.
Qed.

(** C1: round trip. When a well-formed message encodes, decoding its bytes
    returns exactly the message, whatever bytes follow it. *)
Theorem encode_decode m bytes rest :
  wf_message m → encode m = Ok bytes → decode (bytes ++ rest) = Ret m.
Proof.
  intros Hm. unfold encode. rewrite encode_into_wf by done. case_decide; [|done].
  intros [= <-]. by apply decode_message_wire.
Qed.

Lemma encode_decode_witness :
  ∃ bytes, encode example_query = Ok bytes ∧ length bytes = 41 ∧
    decode (bytes ++ [7]%Z) = Ret example_query.
Proof.
  eexists. split; [vm_compute; reflexivity|]. split; [reflexivity|].
  apply (encode_decode example_query); [apply wf_example_query|vm_compute; reflexivity].
Defined.

(** C2: whatever bytes decode to is well formed: names within their limits,
    canonical types, classes and header fields, data of the record's type and
    TTLs below 2^31 except in an OPT record. So it encodes again, unless its
    uncompressed form is longer than a message can be, and decoding that
    encoding gives it back. *)
Theorem decode_encode bytes m :
  bytes_ok bytes → decode bytes = Ret m →
  wf_message m ∧
  match encode m with
  | Ok bytes' => bytes_ok bytes' ∧ fits (length bytes') ∧ decode bytes' = Ret m
  | Err e => e = MessageTooLong ∧ ¬ fits (length (message_wire m))
  end.
Proof.
  intros Hb Hm%decode_ret_wf; [|done]. split; [done|]. unfold encode.
  rewrite encode_into_wf by done. case_decide as Hf; [|done]. cbn [app].
  split; [by apply bytes_ok_message_wire|]. split; [done|].
  rewrite <-(app_nil_r (message_wire m)). by apply decode_message_wire.
Qed.

(** A response whose answer name is a compression pointer to the question. *)
Definition example_response : list Z :=
  [18; 52; 129; 128; 0; 1; 0; 1; 0; 0; 0; 0;
   2; 101; 120; 3; 111; 114; 103; 0; 0; 1; 0; 1;
   192; 12; 0; 1; 0; 1; 0; 0; 0; 60; 0; 4; 192; 0; 2; 1]%Z.

Lemma decode_encode_witness :
  ∃ m bytes', decode example_response = Ret m ∧ encode m = Ok bytes' ∧ decode bytes' = Ret m.
Proof.
  eexists. eexists. split; [vm_compute; reflexivity|].
  assert (Hb : bytes_ok example_response).
  { unfold example_response, bytes_ok. repeat (constructor; [lia|]). constructor. }
  pose proof (proj2 (decode_encode example_response _ Hb ltac:(vm_compute; reflexivity))) as H.
  vm_compute encode in H. destruct H as (_ & _ & H).
  split; [vm_compute; reflexivity|exact H].
Defined.

(** C3: decoding never panics: every slice index of the header, name, record
    and data decoders is in range, on every input. *)
Theorem decode_no_panic bytes : decode bytes ≠ Panic.
Proof. apply decode_no_panic_aux. Qed.

(** A one-question query whose name is the label "a" followed by a pointer to
    itself. *)
Definition looping_query : list Z :=
  [0; 0; 1; 0; 0; 1; 0; 0; 0; 0; 0; 0; 1; 97; 192; 12; 0; 1; 0; 1]%Z.

(** C4: decoding is not total. A pointer may lead back to a label that runs
    forward onto the same pointer; its target is strictly before it each time,
    so the check that is meant to reject loops passes and the decoder goes
    round for ever, for any number of iterations. *)
Theorem decode_can_loop :
  decode looping_query = Hang ∧
  ∀ fuel, decode_name_loop fuel looping_query (mkCursor [] 12 false 0) = Hang.
Proof.
  split; [vm_compute; reflexivity|].
  apply decode_name_loop_hang. vm_compute. reflexivity.
Qed.

(** decoding terminates when the bytes after the header hold no
    compression pointer (no byte of 0xC0 or more). *)
Theorem decode_terminates bytes :
  bytes_ok bytes → Forall (λ b, b < 192)%Z (drop 12 bytes) → decode bytes ≠ Hang.
Proof.
  intros Hb Hlow. unfold decode. apply run_bind_no_hang.
  { unfold decode_header. repeat (apply run_bind_no_hang; [apply read_u16_no_hang|intros [? ?] _]). done. }
  intros [[h c] pos] (_ & _ & -> & _)%decode_header_ret; [|done].
  pose proof (decode_question_returns bytes 12 Hb Hlow) as Hq.
  pose proof (decode_rr_returns bytes 12 Hb Hlow) as Hr.
  assert (Hqr : ∀ p x p', decode_question bytes p = Ret (x, p') → True ∧ p < p' ≤ length bytes).
  { intros p x p' H. by apply decode_question_ret in H as [_ ?]. }
  assert (Hrr : ∀ p x p', decode_rr bytes p = Ret (x, p') → True ∧ p < p' ≤ length bytes).
  { intros p x p' H. by apply decode_rr_ret in H as [_ ?]. }
  apply run_bind_no_hang; [by apply (decode_many_returns bytes 12)|].
  intros [qs p1] (_ & _ & ?)%(decode_many_ret _ (λ _, True) (length bytes)); [|done].
  apply run_bind_no_hang; [apply (decode_many_returns bytes 12); (done || lia)|].
  intros [an p2] (_ & _ & ?)%(decode_many_ret _ (λ _, True) (length bytes)); [|done].
  apply run_bind_no_hang; [apply (decode_many_returns bytes 12); (done || lia)|].
  intros [ns p3] (_ & _ & ?)%(decode_many_ret _ (λ _, True) (length bytes)); [|done].
  apply run_bind_no_hang; [apply (decode_many_returns bytes 12); (done || lia)|].
  by intros [ar p4] _.
Qed.

Lemma decode_terminates_witness :
  decode [18; 52; 1; 0; 0; 1; 0; 0; 0; 0; 0; 0; 2; 101; 120; 0; 0; 1; 0; 1]%Z ≠ Hang.
Proof.
  apply decode_terminates.
  - unfold bytes_ok. repeat (constructor; [lia|]). constructor.
  - cbn. repeat (constructor; [lia|]). constructor.
Defined.

(** [encode_into] appends the wire form of a well-formed message exactly
    when the whole buffer then fits in 65535 bytes, and otherwise returns
    [MessageTooLong], also when a section count or a data length overflows its
    16-bit field. *)
Theorem encode_into_spec m buf :
  wf_message m →
  encode_into m buf =
  if decide (Z.of_nat (length (buf ++ message_wire m)) ≤ u16_max)%Z
  then Ok (buf ++ message_wire m) else Err MessageTooLong.
Proof.
  intros Hm. rewrite encode_into_wf by done. rewrite length_app. done.
Qed.

Lemma encode_into_spec_witness :
  encode_into example_query [1; 2]%Z = Ok ([1; 2]%Z ++ message_wire example_query).
Proof. rewrite encode_into_spec by apply wf_example_query. reflexivity. Defined.

(** EDNS through the wire. After [set_edns] a well-formed message that
    encodes decodes to one whose [edns] is exactly what was set, with every
    other record kept in order. *)
Theorem set_edns_wire m e bytes :
  wf_message m → match e with Some e => wf_edns e | None => True end →
  encode (set_edns m e) = Ok bytes →
  ∃ m', decode bytes = Ret m' ∧ edns m' = Ok e ∧
    header m' = header m ∧ questions m' = questions m ∧ answers m' = answers m ∧
    authorities m' = authorities m ∧
    List.filter (λ r, negb (is_opt_record r)) (additionals m') =
      List.filter (λ r, negb (is_opt_record r)) (additionals m).
Proof.
  intros Hm He Henc. exists (set_edns m e). split.
  { pose proof (wf_set_edns m e Hm He) as Hw. unfold encode in Henc.
    rewrite encode_into_wf in Henc by done. case_decide; [|done]. injection Henc as <-.
    rewrite <-(app_nil_r (message_wire _)). by apply decode_message_wire. }
  split; [destruct e; [by apply edns_set_some|apply edns_set_none]|].
  do 4 (split; [done|]). apply set_edns_others.
Qed.

Lemma set_edns_wire_witness :
  ∃ bytes m', encode (set_edns example_query (Some (edns_new 0))) = Ok bytes ∧
    decode bytes = Ret m' ∧ edns m' = Ok (Some (edns_new 0)).
Proof.
  eexists. destruct (set_edns_wire example_query (Some (edns_new 0)) _ wf_example_query
    ltac:(repeat split; cbn; try lia; constructor) ltac:(vm_compute; reflexivity))
    as (m' & Hd & He & _).
  exists m'. split; [vm_compute; reflexivity|]. split; [exact Hd|exact He].
Defined.

(** the errors of [edns]. It answers [None] exactly when no additional
    record is an OPT record, and [CountMismatch] exactly when there are two or
    more; with one, the result is what parsing that record gives. *)
Theorem edns_spec m :
  (opt_count (additionals m) = 0 → edns m = Ok None) ∧
  (2 ≤ opt_count (additionals m) → edns m = Err CountMismatch) ∧
  (opt_count (additionals m) = 1 → ∃ r d, r ∈ additionals m ∧ opt_data (rr_rdata r) = Some d ∧
     edns m = (e ← from_record r d; Ok (Some e)) ∧ edns m ≠ Err CountMismatch ∧ edns m ≠ Ok None).
Proof.
  pose proof (find_opt_spec (additionals m)) as H. unfold edns.
  destruct (find_opt None (additionals m)) as [[[r d]|]|e].
  - destruct H as (Hc & Hr & Hd). repeat split; [lia|lia|]. intros _. exists r, d.
    cbn [mbind result_bind]. repeat split; try done.
    + unfold from_record. destruct (is_root _); [|done]. cbn [negb].
      set (n := (_ `min` _)%Z).
      assert (Hp : ∀ fuel rest acc, parse_options fuel n rest acc ≠ Err CountMismatch).
      { induction fuel as [|fuel IH]; intros rest acc; [done|]. cbn [parse_options].
        destruct rest as [|? [|? [|? [|? ?]]]]; try done. by case_decide. }
      destruct (parse_options _ _ _ _) eqn:E; cbn; [done|]. intros [= ->]. by eapply Hp.
    + by destruct (from_record r d).
  - cbn [mbind result_bind]. split; [done|]. split; lia.
  - destruct H as [-> Hc]. cbn [mbind result_bind]. split; [lia|]. split; [done|lia].
Qed.

Lemma edns_spec_witness : edns example_query ≠ Ok None.
Proof.
  destruct (edns_spec example_query) as (_ & _ & H).
  destruct (H ltac:(reflexivity)) as (r & d & _ & _ & _ & _ & Hn). exact Hn.
Defined.
