(* ===== verification/Matcher.v ===== *)
(** * Domain matching and split-DNS policy

    Models [crates/dns-lattice-model/src/matcher.rs] and
    [crates/dns-lattice-model/src/policy.rs]. The rules are kept in insertion
    order, which breaks ties. *)

From stdpp Require Import base numbers list sorting.
From S2P Require Import Prelude CoreError Name.

(** ** Patterns *)

Inductive DomainPattern : Type :=
  | Exact (name : Name)
  | Suffix (name : Name)
  | Wildcard (name : Name).

#[export] Instance pattern_eq_dec : EqDecision DomainPattern.
Proof. solve_decision. Defined.

Definition star : Z := 42.

(** [s.strip_prefix("*.")] *)
Definition strip_star_dot (s : list Z) : option (list Z) :=
  match s with
  | a :: b :: rest => if decide (a = star ∧ b = dot) then Some rest else None
  | _ => None
  end.

Definition contains_star (s : list Z) : bool := bool_decide (star ∈ s).

Definition parse (s : list Z) : Result Error DomainPattern :=
  match strip_star_dot s with
  | Some rest =>
      if contains_star rest then Err WildcardPosition
      else n ← from_ascii rest; Ok (Wildcard n)
  | None =>
      if contains_star s then Err WildcardPosition
      else n ← from_ascii s; Ok (Suffix n)
  end.

Definition matches (p : DomainPattern) (candidate : Name) : bool :=
  match p with
  | Exact name => name_eq candidate name
  | Suffix name => ends_with candidate name
  | Wildcard name =>
      bool_decide (label_count name < label_count candidate) && ends_with candidate name
  end.

Definition specificity (p : DomainPattern) : nat * nat :=
  match p with
  | Exact name => (2, label_count name)
  | Suffix name => (1, label_count name)
  | Wildcard name => (0, label_count name)
  end.

(** [Ord] on [(u8, usize)]: lexicographic. *)
Definition score_le (a b : nat * nat) : Prop :=
  a.1 < b.1 ∨ a.1 = b.1 ∧ a.2 ≤ b.2.

#[export] Instance score_le_dec a b : Decision (score_le a b).
Proof. unfold score_le. apply _. Defined.

#[export] Instance score_le_total : Total score_le.
Proof. intros a b. unfold score_le. lia. Qed.
#[export] Instance score_le_trans : Transitive score_le.
Proof. intros a b c. unfold score_le. lia. Qed.
#[export] Instance score_le_refl : Reflexive score_le.
Proof. intros a. unfold score_le. lia. Qed.

(** ** The matcher *)

Record DomainMatcher (T : Type) : Type := mkMatcher { rules : list (DomainPattern * T) }.
Arguments mkMatcher {T} rules.
Arguments rules {T} d.

Section matcher.
Context {T : Type}.
Implicit Types (m : DomainMatcher T) (best : option ((nat * nat) * T)).

Definition matcher_new : DomainMatcher T := mkMatcher [].

Definition insert (m : DomainMatcher T) (p : DomainPattern) (value : T) : DomainMatcher T :=
  mkMatcher (rules m ++ [(p, value)]).

(** The scan of [resolve] over the rules, in insertion order. *)
Fixpoint resolve_loop (name : Name) (rs : list (DomainPattern * T))
    (best : option ((nat * nat) * T)) : option ((nat * nat) * T) :=
  match rs with
  | [] => best
  | (pattern, value) :: rs =>
      if matches pattern name then
        let score := specificity pattern in
        match best with
        | Some (best_score, v) =>
            if decide (score_le score best_score) then resolve_loop name rs best
            else resolve_loop name rs (Some (score, value))
        | None => resolve_loop name rs (Some (score, value))
        end
      else resolve_loop name rs best
  end.

Definition resolve (m : DomainMatcher T) (name : Name) : option T :=
  snd <$> resolve_loop name (rules m) None.

(** [sort_by_key(|score| Reverse(score))], which is stable: equal scores
    stay in order. *)
Fixpoint insert_sorted (x : (nat * nat) * T) (l : list ((nat * nat) * T)) :
    list ((nat * nat) * T) :=
  match l with
  | [] => [x]
  | y :: l' => if decide (score_le y.1 x.1) then x :: l else y :: insert_sorted x l'
  end.

Fixpoint sort_by_score (l : list ((nat * nat) * T)) : list ((nat * nat) * T) :=
  match l with
  | [] => []
  | x :: l => insert_sorted x (sort_by_score l)
  end.

Definition resolve_all (m : DomainMatcher T) (name : Name) : list T :=
  let matches :=
    map (λ r, (specificity r.1, r.2)) (List.filter (λ r, matches r.1 name) (rules m)) in
  map snd (sort_by_score matches).
End matcher.

(** ** Policy *)

(** An [UpstreamGroupId] is its string. *)
Record SplitDnsPolicy (G : Type) : Type := mkPolicy {
  policy_matcher : DomainMatcher G;
  default_group : option G;
}.
Arguments mkPolicy {G} policy_matcher default_group.
Arguments policy_matcher {G} s.
Arguments default_group {G} s.

Section policy.
Context {G : Type}.

(** The builder has the policy's fields; [build] moves them over. *)
Definition builder : SplitDnsPolicy G := mkPolicy matcher_new None.
Definition rule (b : SplitDnsPolicy G) (p : DomainPattern) (g : G) : SplitDnsPolicy G :=
  mkPolicy (insert (policy_matcher b) p g) (default_group b).
Definition set_default_group (b : SplitDnsPolicy G) (g : G) : SplitDnsPolicy G :=
  mkPolicy (policy_matcher b) (Some g).

Definition resolve_group (p : SplitDnsPolicy G) (name : Name) : option G :=
  match resolve (policy_matcher p) name with
  | Some g => Some g
  | None => default_group p
  end.
End policy.

(** ** First of the greatest *)

Section first_max.
Context {T : Type}.
Implicit Types (x y b : (nat * nat) * T) (l : list ((nat * nat) * T)).

(** [x] is an element of greatest score, and the first of them. *)
Definition first_max l x : Prop :=
  ∃ i, l !! i = Some x ∧
    ∀ j y, l !! j = Some y → score_le y.1 x.1 ∧ (j < i → ¬ score_le x.1 y.1).

Lemma first_max_unique l x y : first_max l x → first_max l y → x = y.
Proof.
  intros (i & Hi & Hx) (j & Hj & Hy).
  destruct (Hx _ _ Hj) as [H1 H2]. destruct (Hy _ _ Hi) as [H3 H4].
  destruct (Nat.lt_trichotomy i j) as [?|[->|?]]; [naive_solver|congruence|naive_solver].
Qed.

Lemma first_max_here x l : Forall (λ y, score_le y.1 x.1) l → first_max (x :: l) x.
Proof.
  intros H. exists 0. split; [done|]. intros [|j] y Hy; cbn in Hy.
  - injection Hy as <-. split; [done|lia].
  - split; [by eapply (Forall_lookup_1 _ _ _ _ H)|lia].
Qed.

Lemma first_max_later x z l : first_max l x → ¬ score_le x.1 z.1 → first_max (z :: l) x.
Proof.
  intros (i & Hi & Hx) Hz. exists (S i). split; [done|]. intros [|j] y Hy; cbn in Hy.
  - injection Hy as <-. split; [|done]. by destruct (total score_le x.1 z.1).
  - destruct (Hx _ _ Hy). split; [done|]. intros ?. auto with lia.
Qed.

Lemma first_max_all x l : first_max l x → Forall (λ y, score_le y.1 x.1) l.
Proof. intros (i & _ & H). apply Forall_lookup. intros j y Hy. by apply (H j). Qed.

Lemma first_max_cons x b l :
  first_max (b :: l) x ↔
  (x = b ∧ Forall (λ y, score_le y.1 b.1) l) ∨ (first_max l x ∧ ¬ score_le x.1 b.1).
Proof.
  split.
  - intros (i & Hi & H). destruct i as [|i]; cbn in Hi.
    + left. injection Hi as <-. split; [done|]. apply Forall_lookup. intros j y Hy.
      by apply (H (S j)).
    + right. split; [|by apply (H 0); [done|lia]].
      exists i. split; [done|]. intros j y Hy. destruct (H (S j) y Hy). auto with lia.
  - intros [[-> H]|[H Hn]]; [by apply first_max_here|by apply first_max_later].
Qed.

(** An element that an earlier one beats makes no difference. *)
Lemma first_max_skip x b y l :
  score_le y.1 b.1 → first_max (b :: l) x → first_max (b :: y :: l) x.
Proof.
  rewrite !first_max_cons. intros Hyb [[-> H]|[H Hn]].
  - left. split; [done|]. by constructor.
  - right. split; [|done]. right. split; [done|]. intros Hxy. apply Hn. by etrans.
Qed.

Lemma insert_sorted_head x l :
  head (insert_sorted x l) =
  match head l with
  | Some y => if decide (score_le y.1 x.1) then Some x else Some y
  | None => Some x
  end.
Proof. destruct l as [|y l]; cbn; [done|]. by case_decide. Qed.

Lemma sort_head l :
  match head (sort_by_score l) with Some x => first_max l x | None => l = [] end.
Proof.
  induction l as [|x l IH]; [done|]. cbn [sort_by_score]. rewrite insert_sorted_head.
  destruct (head (sort_by_score l)) as [y|]; [|subst; by apply first_max_here].
  case_decide as Hle; [|by apply first_max_later].
  apply first_max_here. apply first_max_all in IH. eapply Forall_impl; [exact IH|].
  cbn. intros z Hz. by etrans.
Qed.

Lemma insert_sorted_perm x l : insert_sorted x l ≡ₚ x :: l.
Proof.
  induction l as [|y l IH]; cbn; [done|]. case_decide; [done|]. rewrite IH. constructor.
Qed.

Lemma sort_perm l : sort_by_score l ≡ₚ l.
Proof. induction l as [|x l IH]; cbn; [done|]. by rewrite insert_sorted_perm, IH. Qed.

Lemma insert_sorted_sorted x l :
  StronglySorted (λ a b, score_le b.1 a.1) l →
  StronglySorted (λ a b, score_le b.1 a.1) (insert_sorted x l).
Proof.
  induction 1 as [|y l Hl IH Hy]; cbn; [by repeat constructor|]. case_decide as Hle.
  - constructor; [by constructor|]. constructor; [done|].
    eapply Forall_impl; [exact Hy|]. cbn. intros z Hz. by etrans.
  - constructor; [done|]. rewrite insert_sorted_perm. constructor; [|done].
    by destruct (total score_le x.1 y.1).
Qed.

Lemma sort_sorted l : StronglySorted (λ a b, score_le b.1 a.1) (sort_by_score l).
Proof. induction l as [|x l IH]; cbn; [constructor|]. by apply insert_sorted_sorted. Qed.

(** Stability: the elements of one score keep their order. *)
Lemma insert_sorted_filter s x l :
  StronglySorted (λ a b, score_le b.1 a.1) l →
  filter (λ y, y.1 = s) (insert_sorted x l) = filter (λ y, y.1 = s) (x :: l).
Proof.
  induction 1 as [|y l Hl IH Hy]; [done|]. cbn [insert_sorted]. case_decide as Hle; [done|].
  rewrite !filter_cons. rewrite IH, filter_cons.
  destruct (decide (x.1 = s)) as [<-|]; [|done].
  assert (y.1 ≠ x.1) by (intros E; apply Hle; by rewrite E). by repeat case_decide.
Qed.

Lemma sort_stable s l : filter (λ y, y.1 = s) (sort_by_score l) = filter (λ y, y.1 = s) l.
Proof.
  induction l as [|x l IH]; cbn [sort_by_score]; [done|].
  rewrite insert_sorted_filter by apply sort_sorted. by rewrite !filter_cons, IH.
Qed.
End first_max.

(** ** Resolution *)

Section resolution.
Context {T : Type}.
Implicit Types (m : DomainMatcher T) (n : Name).

(** The scores and values of the matching rules, in insertion order. *)
Definition candidates (rs : list (DomainPattern * T)) n : list ((nat * nat) * T) :=
  map (λ r, (specificity r.1, r.2)) (List.filter (λ r, matches r.1 n) rs).

Lemma resolve_loop_some n rs b :
  ∃ x, resolve_loop n rs (Some b) = Some x ∧ first_max (b :: candidates rs n) x.
Proof.
  revert b. induction rs as [|[p v] rs IH]; intros b; cbn [resolve_loop].
  - exists b. split; [done|]. by apply first_max_here.
  - unfold candidates in *. cbn [List.filter fst]. destruct (matches p n); cbn [map fst snd]; [|apply IH].
    destruct b as [sb vb]. case_decide as Hle.
    + destruct (IH (sb, vb)) as (x & -> & Hx). exists x. split; [done|].
      by apply first_max_skip.
    + destruct (IH (specificity p, v)) as (x & -> & Hx). exists x. split; [done|].
      apply first_max_later; [done|]. apply first_max_all in Hx.
      apply Forall_cons in Hx as [Hx _]. cbn in *. intros ?. apply Hle. by etrans.
Qed.

Lemma resolve_loop_none n rs :
  match resolve_loop n rs None with
  | Some x => first_max (candidates rs n) x
  | None => candidates rs n = []
  end.
Proof.
  induction rs as [|[p v] rs IH]; cbn [resolve_loop]; [done|].
  unfold candidates in *. cbn [List.filter fst]. destruct (matches p n); cbn [map fst snd]; [|done].
  destruct (resolve_loop_some n rs (specificity p, v)) as (x & -> & Hx). done.
Qed.

Lemma matches_equiv p n n' : n ≡ n' → matches p n = matches p n'.
Proof.
  intros Hn. destruct p as [k|k|k]; cbn [matches];
    rewrite ?(label_count_proper _ _ Hn); by rewrite Hn.
Qed.

Lemma candidates_equiv rs n n' : n ≡ n' → candidates rs n = candidates rs n'.
Proof.
  intros Hn. unfold candidates. f_equal. apply filter_ext. intros r. by apply matches_equiv.
Qed.
End resolution.

Section extension.
Context {T : Type}.
Implicit Types (n : Name) (rs : list (DomainPattern * T)).

Lemma resolve_loop_app n rs rs' best :
  resolve_loop n (rs ++ rs') best = resolve_loop n rs' (resolve_loop n rs best).
Proof.
  revert best. induction rs as [|[p v] rs IH]; intros best; cbn [app resolve_loop]; [done|].
  destruct (matches p n); [|done]. destruct best as [[s w]|]; [case_decide|]; apply IH.
Qed.

Lemma elem_candidates rs n x :
  x ∈ candidates rs n ↔ ∃ p, (p, x.2) ∈ rs ∧ matches p n = true ∧ x.1 = specificity p.
Proof.
  unfold candidates. rewrite list_elem_of_In, in_map_iff. split.
  - intros ([p v] & <- & [Hin Hm]%filter_In). exists p. cbn in *.
    by rewrite list_elem_of_In.
  - intros (p & Hin & Hm & Hs). exists (p, x.2). destruct x as [s v]. cbn in *. subst.
    split; [done|]. apply filter_In. by rewrite <-list_elem_of_In.
Qed.

Lemma first_max_elem (l : list ((nat * nat) * T)) x : first_max l x → x ∈ l.
Proof. intros (i & Hi & _). by eapply list_elem_of_lookup_2. Qed.
End extension.

(** ** Properties *)

(** Rules over "ex.org" and "a.ex.org". *)
Definition ex_org : Name := mkName [[101; 120]; [111; 114; 103]]%Z.
Definition a_ex_org : Name := mkName [[97]; [101; 120]; [111; 114; 103]]%Z.
Definition example_matcher : DomainMatcher nat :=
  insert (insert (insert (insert matcher_new (Wildcard ex_org) 0) (Suffix ex_org) 1)
    (Suffix ex_org) 2) (Exact a_ex_org) 3.

(** C6: [resolve] returns the value of a matching rule no matching rule
    outranks, the first inserted one of those, and nothing exactly when no rule
    matches; [resolve_all] lists the matching values in descending order of
    specificity, ties in insertion order, and [resolve] is its head. *)
Theorem resolve_spec {T} (m : DomainMatcher T) n :
  match resolve m n with
  | None => ∀ p v, (p, v) ∈ rules m → matches p n = false
  | Some v => ∃ x, first_max (candidates (rules m) n) x ∧ x.2 = v
  end ∧
  resolve m n = head (resolve_all m n) ∧
  ∃ sorted, resolve_all m n = map snd sorted ∧ sorted ≡ₚ candidates (rules m) n ∧
    StronglySorted (λ a b, score_le b.1 a.1) sorted ∧
    ∀ s, filter (λ y, y.1 = s) sorted = filter (λ y, y.1 = s) (candidates (rules m) n).
Proof.
  pose proof (resolve_loop_none n (rules m)) as H.
  pose proof (sort_head (candidates (rules m) n)) as Hs.
  split; [|split].
  - unfold resolve. destruct (resolve_loop n (rules m) None) as [x|]; cbn; [by eauto|].
    intros p v Hin. destruct (matches p n) eqn:Hm; [|done]. exfalso.
    assert ((specificity p, v) ∈ candidates (rules m) n) as Hc; [|by rewrite H in Hc; inversion Hc].
    unfold candidates. apply list_elem_of_In, (in_map (λ r, (specificity r.1, r.2)) _ (p, v)).
    apply filter_In. by rewrite <-list_elem_of_In.
  - unfold resolve, resolve_all. fold (candidates (rules m) n).
    assert (∀ l : list ((nat * nat) * T), head (map snd l) = snd <$> head l) as -> by (by intros []).
    destruct (resolve_loop n (rules m) None) as [x|], (head (sort_by_score _)) as [y|];
      cbn; try done.
    + by rewrite (first_max_unique _ _ _ H Hs).
    + rewrite Hs in H. destruct H as (? & ? & _). done.
    + rewrite H in Hs. destruct Hs as (? & ? & _). done.
  - exists (sort_by_score (candidates (rules m) n)). split; [done|]. split; [apply sort_perm|].
    split; [apply sort_sorted|]. intros s. apply sort_stable.
Qed.

(** matching is case-insensitive, a suffix pattern covers exactly its own
    name and what the wildcard over it covers, and nested suffixes agree: what
    an exact pattern matches, any suffix pattern over an ancestor matches. *)
Theorem matches_spec p n n' name sub :
  n ≡ n' →
  matches p n = matches p n' ∧
  matches (Suffix name) n = (matches (Exact name) n || matches (Wildcard name) n) ∧
  matches (Exact name) n && matches (Wildcard name) n = false ∧
  (ends_with sub name = true → matches (Exact sub) n = true → matches (Suffix name) n = true) ∧
  (ends_with sub name = true → matches (Suffix sub) n = true → matches (Suffix name) n = true).
Proof.
  intros Hn. split; [by apply matches_equiv|]. cbn [matches]. split; [|split; [|split]].
  - destruct (ends_with n name) eqn:He; [|rewrite andb_false_r, orb_false_r; symmetry].
    + rewrite andb_true_r. case_bool_decide as Hl; [by rewrite orb_true_r|].
      rewrite orb_false_r. symmetry. apply ends_with_antisym; [done|lia].
    + apply not_true_iff_false. intros Heq. apply not_true_iff_false in He. apply He.
      apply name_equiv_eq in Heq. rewrite Heq. apply ends_with_refl.
  - apply andb_false_iff. destruct (name_eq n name) eqn:Heq; [right|by left].
    apply andb_false_iff. left. apply bool_decide_eq_false.
    apply name_equiv_eq in Heq. rewrite Heq. lia.
  - intros Hs Heq%name_equiv_eq. by rewrite Heq.
  - intros Hs He. by eapply ends_with_trans.
Qed.

Lemma matches_spec_witness :
  matches (Wildcard ex_org) (mkName [[65]; [69; 120]; [79; 82; 71]]%Z) =
  matches (Wildcard ex_org) a_ex_org.
Proof.
  exact (proj1 (matches_spec (Wildcard ex_org)
    (mkName [[65]; [69; 120]; [79; 82; 71]]%Z) a_ex_org ex_org ex_org
    ltac:(apply name_equiv_eq; reflexivity))).
Defined.

(** a policy routes to the best matching rule's group and falls back to
    the default group only when no rule matches; adding a rule never changes
    the route of a name it does not match, nor of a name an existing rule of
    at least its rank matches. *)
Theorem resolve_group_spec {G} (b : SplitDnsPolicy G) p g n :
  resolve_group b n = match resolve (policy_matcher b) n with
                      | Some g' => Some g' | None => default_group b end ∧
  (matches p n = false → resolve_group (rule b p g) n = resolve_group b n) ∧
  (∀ q h, (q, h) ∈ rules (policy_matcher b) → matches q n = true →
     score_le (specificity p) (specificity q) →
     resolve_group (rule b p g) n = resolve_group b n) ∧
  (matches p n = true →
     (∀ q h, (q, h) ∈ rules (policy_matcher b) → matches q n = true →
        ¬ score_le (specificity p) (specificity q)) →
     resolve_group (rule b p g) n = Some g).
Proof.
  unfold resolve_group, rule, resolve. cbn [policy_matcher default_group insert rules].
  rewrite resolve_loop_app. cbn [resolve_loop].
  pose proof (resolve_loop_none n (rules (policy_matcher b))) as Hbest.
  destruct (resolve_loop n (rules (policy_matcher b)) None) as [[s v]|].
  - split; [done|]. split; [by intros ->|]. pose proof (first_max_all _ _ Hbest) as Hall.
    rewrite Forall_forall in Hall. split.
    + intros q h Hin Hq Hpq. destruct (matches p n); [|done]. rewrite decide_True; [done|].
      etrans; [exact Hpq|]. apply (Hall (specificity q, h)), elem_candidates. by exists q.
    + intros Hp Hno. rewrite Hp. apply first_max_elem, elem_candidates in Hbest as (q & Hin & Hq & Hs).
      cbn in *. subst. rewrite decide_False; [done|by eapply Hno].
  - split; [done|]. split; [by intros ->|]. split.
    + intros q h Hin Hq _. exfalso. assert ((specificity q, h) ∈ candidates (rules (policy_matcher b)) n) as Hc.
      { apply elem_candidates. by exists q. }
      rewrite Hbest in Hc. by apply not_elem_of_nil in Hc.
    + intros -> _. done.
Qed.

Lemma resolve_group_spec_witness :
  resolve_group (rule (mkPolicy example_matcher (Some 9)) (Exact a_ex_org) 7) a_ex_org =
  resolve_group (mkPolicy example_matcher (Some 9)) a_ex_org.
Proof.
  destruct (resolve_group_spec (mkPolicy example_matcher (Some 9)) (Exact a_ex_org) 7 a_ex_org)
    as (_ & _ & H & _).
  apply (H (Exact a_ex_org) 3); [by decide_eval|reflexivity|].
  unfold score_le. cbn. lia.
Defined.
