(* ===== verification/Time.v ===== *)
(** * Instants and durations

    [std::time::Instant] and [Duration] on Unix: an instant is a number of
    nanoseconds since the clock's origin whose seconds fit in an [i64], a
    duration one whose seconds fit in a [u64]. *)

From stdpp Require Import base numbers.
From S2P Require Import Prelude.

Definition nanos_per_sec : Z := 1000000000.

Definition instant_max : Z := (9223372036854775807 * 1000000000 + 999999999)%Z.
Definition duration_max : Z := (18446744073709551615 * 1000000000 + 999999999)%Z.

(** [Instant::checked_add] *)
Definition checked_add (now d : Z) : option Z :=
  if decide (now + d ≤ instant_max)%Z then Some (now + d)%Z else None.

(** [Instant::checked_duration_since] *)
Definition checked_duration_since (now earlier : Z) : option Z :=
  if decide (earlier ≤ now)%Z then Some (now - earlier)%Z else None.

(** [Instant::saturating_duration_since] *)
Definition saturating_duration_since (now earlier : Z) : Z := Z.max 0 (now - earlier).

(** [Duration::checked_sub], [Duration::as_secs] and [Duration::subsec_nanos] *)
Definition checked_sub (a b : Z) : option Z :=
  if decide (b ≤ a)%Z then Some (a - b)%Z else None.
Definition as_secs (d : Z) : Z := (d / nanos_per_sec)%Z.
Definition subsec_nanos (d : Z) : Z := (d mod nanos_per_sec)%Z.
Definition from_secs (s : Z) : Z := (s * nanos_per_sec)%Z.

Lemma checked_add_some now d e : checked_add now d = Some e → e = (now + d)%Z.
Proof. unfold checked_add. case_decide; naive_solver. Qed.

Lemma as_secs_from_secs s : as_secs (from_secs s) = s.
Proof. unfold as_secs, from_secs, nanos_per_sec. apply Z.div_mul. lia. Qed.
