(* ===== verification/FakeIpFamily.v ===== *)
(** * Fake IP: one address family

    Models [FamilyState], the [Address] trait with its [u32] and [u128]
    implementations and [fnv1a] of [crates/dns-lattice/src/fakeip.rs]. A
    [HashMap<Name, Mapping>] is a [gmap] from the case-folded labels, which is
    what [Name]'s equality and hash see, to the key stored with its value.
    Addresses are numbers. *)

From stdpp Require Import base numbers list gmap sorting.
From S2P Require Import Prelude CoreError Name Time.

(** ** Addresses *)

(** The [Address] trait. *)
Class Address : Type := {
  address_bits : Z;
  capacity : Z → Z → option Z;
  candidate : Z → Z → Z → Z;
  advance : Z → Z;
  is_full : nat → Z → bool;
}.

(** [end.checked_sub(start)?.checked_add(1)] at width [w]. *)
Definition checked_length (w start end_ : Z) : option Z :=
  if decide (end_ < start)%Z then None
  else if decide (end_ - start + 1 < 2 ^ w)%Z then Some (end_ - start + 1)%Z else None.

#[export] Instance address_u32 : Address := {
  address_bits := 32;
  capacity start end_ := checked_length 32 start end_;
  candidate start end_ hash :=
    let length := (end_ - start + 1)%Z in (start + (hash mod length) mod 2 ^ 32)%Z;
  advance value := wrapping_add 32 value 1;
  is_full entries capacity := bool_decide (capacity ≤ Z.of_nat entries)%Z;
}.

Definition address_u128 : Address := {|
  address_bits := 128;
  capacity start end_ := checked_length 128 start end_;
  candidate start end_ hash :=
    match checked_length 128 start end_ with
    | Some length => (start + hash mod length)%Z
    | None => wrapping_add 128 start hash
    end;
  advance value := wrapping_add 128 value 1;
  is_full entries capacity := bool_decide (capacity ≤ Z.of_nat entries)%Z;
|}.

(** What the pool relies on. *)
Class AddressLaws (A : Address) : Prop := {
  bits_pos : (0 ≤ address_bits)%Z;
  capacity_spec start end_ :
    (0 ≤ start ≤ end_)%Z → (end_ < 2 ^ address_bits)%Z →
    capacity start end_ = (if decide (end_ - start + 1 < 2 ^ address_bits)%Z
                           then Some (end_ - start + 1)%Z else None);
  candidate_in start end_ hash :
    (0 ≤ start ≤ end_)%Z → (end_ < 2 ^ address_bits)%Z → is_u64 hash →
    (start ≤ candidate start end_ hash ≤ end_)%Z;
  advance_spec v : (0 ≤ v)%Z → (v + 1 < 2 ^ address_bits)%Z → advance v = (v + 1)%Z;
  is_full_spec n c : is_full n c = bool_decide (c ≤ Z.of_nat n)%Z;
}.

#[export] Instance address_u32_laws : AddressLaws address_u32.
Proof.
  split; cbn -[Z.pow]; try done.
  - intros start end_ H1 H2. unfold checked_length. by rewrite decide_False by lia.
  - intros start end_ hash H1 H2 H3.
    pose proof (Z.mod_pos_bound hash (end_ - start + 1)).
    rewrite (Z.mod_small _ (2 ^ 32)) by lia. lia.
  - intros v H1 H2. unfold wrapping_add. apply Z.mod_small. lia.
Qed.

#[export] Instance address_u128_laws : AddressLaws address_u128.
Proof.
  split; cbn -[Z.pow]; try done.
  - intros start end_ H1 H2. unfold checked_length. by rewrite decide_False by lia.
  - intros start end_ hash H1 H2 H3. unfold checked_length.
    rewrite decide_False by lia. case_decide.
    + pose proof (Z.mod_pos_bound hash (end_ - start + 1)). lia.
    + assert (start = 0 ∧ end_ = 2 ^ 128 - 1)%Z as [-> ->] by lia.
      unfold wrapping_add. rewrite Z.mod_small; lia.
  - intros v H1 H2. unfold wrapping_add. apply Z.mod_small. lia.
Qed.

(** ** The state *)

(** What [Eq] and [Hash] see of a name. *)
Definition key : Type := list (list Z).
Definition name_key (n : Name) : key := lowercased_labels n.

Record Mapping : Type := mkMapping {
  address : Z;
  recency : Z;
  allocation : Z;
  expires_at : Z;
}.

Record FamilyState : Type := mkFamily {
  start : Z;
  end_ : Z;
  forward : gmap key (Name * Mapping);
  reverse : gmap Z Name;
  next_recency : Z;
  next_allocation : Z;
}.

(** Entries with the key stored in the map. *)
Definition with_maps (s : FamilyState) f r : FamilyState :=
  mkFamily (start s) (end_ s) f r (next_recency s) (next_allocation s).

Definition family_new (range : Z * Z) : Result Error FamilyState :=
  let '(start, end_) := range in
  if decide (end_ < start)%Z then Err InvalidFakeIpRange
  else Ok (mkFamily start end_ ∅ ∅ 0 0).

Definition contains (s : FamilyState) (a : Z) : bool :=
  bool_decide (start s ≤ a ∧ a ≤ end_ s)%Z.

(** [touch] and the matching bump of [next_allocation]. *)
Definition touch (s : FamilyState) : Z * FamilyState :=
  (next_recency s,
   mkFamily (start s) (end_ s) (forward s) (reverse s)
     (wrapping_add 64 (next_recency s) 1) (next_allocation s)).

Definition bump_allocation (s : FamilyState) : Z * FamilyState :=
  (next_allocation s,
   mkFamily (start s) (end_ s) (forward s) (reverse s)
     (next_recency s) (wrapping_add 64 (next_allocation s) 1)).

(** [forward.remove(name).expect(..)] and [reverse.remove(&mapping.address)] *)
Definition remove_mapping (s : FamilyState) (k : key) : Run Error FamilyState :=
  match forward s !! k with
  | None => Panic
  | Some (_, m) => Ret (with_maps s (delete k (forward s)) (delete (address m) (reverse s)))
  end.

Fixpoint remove_all (s : FamilyState) (ks : list key) : Run Error FamilyState :=
  match ks with
  | [] => Ret s
  | k :: ks => s ← remove_mapping s k; remove_all s ks
  end.

Definition purge_expired (s : FamilyState) (now : Z) : Run Error (nat * FamilyState) :=
  let expired := map fst (filter (λ e, (expires_at e.2.2 ≤ now)%Z) (map_to_list (forward s))) in
  s ← remove_all s expired;
  Ret (length expired, s).

(** [Ord] on [(recency, allocation)]. *)
Definition older (a b : Mapping) : Prop :=
  (recency a < recency b ∨ recency a = recency b ∧ allocation a ≤ allocation b)%Z.

#[export] Instance older_dec a b : Decision (older a b).
Proof. unfold older. apply _. Defined.

(** [min_by_key]: the first of the least. *)
Fixpoint min_entry (l : list (key * (Name * Mapping))) : option (key * (Name * Mapping)) :=
  match l with
  | [] => None
  | e :: l =>
      match min_entry l with
      | None => Some e
      | Some e' => if decide (older e.2.2 e'.2.2) then Some e else Some e'
      end
  end.

Definition evict_lru (s : FamilyState) : Run Error FamilyState :=
  match min_entry (map_to_list (forward s)) with
  | None => Panic
  | Some (k, _) => remove_mapping s k
  end.

(** [fnv1a] *)
Definition fnv_prime : Z := 1099511628211.
Definition fnv_basis : Z := 14695981039346656037.

Definition fnv_step (hash byte : Z) : Z := wrapping_mul 64 (Z.lxor hash byte) fnv_prime.

Definition fnv_label (hash : Z) (label : list Z) : Z :=
  fnv_step (foldl (λ h b, fnv_step h (to_ascii_lowercase b)) hash label) 0.

Definition fnv1a (n : Name) (salt : Z) : Z :=
  foldl fnv_label (Z.lxor fnv_basis salt) (labels n).

Definition IPV4_HASH_SALT : Z := 0x9B739F4AA5C317D1.
Definition IPV6_HASH_SALT : Z := 0xE1D462B83F90AC75.

Section family.
Context (A : Address).

(** [if address == self.end { self.start } else { T::advance(address) }] *)
Definition next_address (s : FamilyState) (a : Z) : Z :=
  if decide (a = end_ s) then start s else advance a.

(** The probe loop, cut off with [Hang] after [fuel] occupied addresses. *)
Fixpoint probe (fuel : nat) (s : FamilyState) (a : Z) : Run Error Z :=
  match fuel with
  | O => Hang
  | S fuel =>
      match reverse s !! a with
      | Some _ => probe fuel s (next_address s a)
      | None => Ret a
      end
  end.

(** Insertion of a new mapping, the common end of [allocate_with_ttl] and
    [restore]. *)
Definition insert_mapping (s : FamilyState) (name : Name) (a expires_at : Z) : FamilyState :=
  let '(recency, s) := touch s in
  let '(allocation, s) := bump_allocation s in
  with_maps s
    (<[name_key name := (name, mkMapping a recency allocation expires_at)]> (forward s))
    (<[a := name]> (reverse s)).

(** [get_mut] and [mapping.recency = recency] *)
Definition set_recency (s : FamilyState) (k : key) (recency : Z) : FamilyState :=
  with_maps s
    (alter (λ e, (e.1, mkMapping (address e.2) recency (allocation e.2) (expires_at e.2))) k
       (forward s))
    (reverse s).

(** More probes than there are occupied addresses are never needed when one
    is free ([probe_free]). *)
Definition allocate_with_ttl (s : FamilyState) (name : Name) (salt now ttl : Z) :
    Run Error (Z * Z * FamilyState) :=
  match checked_add now ttl with
  | None => Throw FakeIpTtlOutOfRange
  | Some expires =>
      '(_, s) ← purge_expired s now;
      match forward s !! name_key name with
      | Some (_, m) =>
          let '(recency, s) := touch s in
          let s := set_recency s (name_key name) recency in
          match checked_duration_since (expires_at m) now with
          | None => Panic
          | Some remaining => Ret (address m, remaining, s)
          end
      | None =>
          s ← (match capacity (start s) (end_ s) with
               | Some c => if is_full (size (forward s)) c then evict_lru s else Ret s
               | None => Ret s
               end);
          a ← probe (S (size (reverse s))) s (candidate (start s) (end_ s) (fnv1a name salt));
          Ret (a, ttl, insert_mapping s name a expires)
      end
  end.

Definition lookup_with_ttl (s : FamilyState) (a now : Z) :
    Run Error (option (Name * Z) * FamilyState) :=
  '(_, s) ← purge_expired s now;
  if negb (contains s a) then Ret (None, s)
  else
    match reverse s !! a with
    | None => Ret (None, s)
    | Some name =>
        let '(recency, s) := touch s in
        match forward s !! name_key name with
        | None => Ret (None, s)
        | Some (_, m) =>
            let s := set_recency s (name_key name) recency in
            match checked_duration_since (expires_at m) now with
            | None => Panic
            | Some remaining => Ret (Some (name, remaining), s)
            end
        end
    end.
End family.

(** [restore] of one mapping *)
Definition restore_mapping (s : FamilyState) (name : Name) (a expires_at : Z) :
    Result Error FamilyState :=
  if decide (is_Some (forward s !! name_key name) ∨ is_Some (reverse s !! a))
  then Err InvalidFakeIpSnapshot
  else Ok (insert_mapping s name a expires_at).

(** [sort_by_key] on [(recency, allocation)], stable. *)
Fixpoint insert_older (e : key * (Name * Mapping)) (l : list (key * (Name * Mapping))) :=
  match l with
  | [] => [e]
  | e' :: l' => if decide (older e.2.2 e'.2.2) then e :: l else e' :: insert_older e l'
  end.

Fixpoint sort_older (l : list (key * (Name * Mapping))) : list (key * (Name * Mapping)) :=
  match l with
  | [] => []
  | e :: l => insert_older e (sort_older l)
  end.

(** [snapshot] of a family: name, address and remaining lifetime, least
    recently used first. *)
Definition family_snapshot (s : FamilyState) (now : Z) : list (Name * Z * Z) :=
  omap (λ e, remaining ← checked_duration_since (expires_at e.2.2) now;
             Some (e.2.1, address e.2.2, remaining))
    (sort_older (map_to_list (forward s))).

(** ** The invariant *)

(** Ranges and counters in their widths, and the two maps inverse to each
    other with every address in the range. *)
Record fam_inv (A : Address) (s : FamilyState) : Prop := {
  fi_range : (0 ≤ start s ≤ end_ s)%Z ∧ (end_ s < 2 ^ address_bits)%Z;
  fi_forward k n m : forward s !! k = Some (n, m) →
    k = name_key n ∧ reverse s !! address m = Some n ∧ (start s ≤ address m ≤ end_ s)%Z;
  fi_reverse a n : reverse s !! a = Some n →
    ∃ m, forward s !! name_key n = Some (n, m) ∧ address m = a;
  fi_size : size (forward s) = size (reverse s);
}.

(** What no operation but [insert] changes. *)
Definition same_frame (s s' : FamilyState) : Prop :=
  start s' = start s ∧ end_ s' = end_ s ∧ next_recency s' = next_recency s ∧
  next_allocation s' = next_allocation s.

#[export] Instance same_frame_refl : Reflexive same_frame.
Proof. intros s. done. Qed.
#[export] Instance same_frame_trans : Transitive same_frame.
Proof. intros s t u (? & ? & ? & ?) (? & ? & ? & ?). repeat split; congruence. Qed.

Section invariant.
Context (A : Address) {LA : AddressLaws A}.
Implicit Types (s : FamilyState) (k : key).

Lemma fam_inv_inj s k1 k2 n1 m1 n2 m2 :
  fam_inv A s → forward s !! k1 = Some (n1, m1) → forward s !! k2 = Some (n2, m2) →
  address m1 = address m2 → k1 = k2.
Proof.
  intros Hs H1 H2 Ha. apply (fi_forward _ _ Hs) in H1 as (-> & H1 & _), H2 as (-> & H2 & _).
  rewrite Ha in H1. congruence.
Qed.

Lemma remove_mapping_spec s k n m :
  fam_inv A s → forward s !! k = Some (n, m) →
  remove_mapping s k =
    Ret (with_maps s (delete k (forward s)) (delete (address m) (reverse s))) ∧
  fam_inv A (with_maps s (delete k (forward s)) (delete (address m) (reverse s))).
Proof.
  intros Hs Hk. unfold remove_mapping. rewrite Hk. split; [done|].
  pose proof (fi_forward _ _ Hs _ _ _ Hk) as (-> & Hr & _).
  split; cbn.
  - apply (fi_range _ _ Hs).
  - intros k' n' m' [Hne H]%lookup_delete_Some.
    destruct (fi_forward _ _ Hs _ _ _ H) as (-> & Hr' & Hin). split; [done|]. split; [|done].
    apply lookup_delete_Some. split; [|done]. intros Ha. rewrite Ha in Hr. congruence.
  - intros a n' [Hne H]%lookup_delete_Some.
    destruct (fi_reverse _ _ Hs _ _ H) as (m' & H' & Ha). exists m'. split; [|done].
    apply lookup_delete_Some. split; [|done]. intros Heq. rewrite <-Heq, Hk in H'. congruence.
  - rewrite !map_size_delete, Hk, Hr, (fi_size _ _ Hs). done.
Qed.

Lemma remove_all_spec s ks :
  fam_inv A s → NoDup ks → (∀ k, k ∈ ks → is_Some (forward s !! k)) →
  ∃ s', remove_all s ks = Ret s' ∧ fam_inv A s' ∧ same_frame s s' ∧
    forward s' = filter (λ e, e.1 ∉ ks) (forward s).
Proof.
  intros Hs Hnd. revert s Hs. induction Hnd as [|k ks Hk Hnd IH]; intros s Hs Hin.
  { exists s. split; [done|]. split; [done|]. split; [done|]. symmetry.
    apply map_filter_id. intros i x _. apply not_elem_of_nil. }
  destruct (Hin k) as [[n m] Hkm]; [by left|].
  destruct (remove_mapping_spec s k n m Hs Hkm) as [E Hs']. cbn [remove_all]. rewrite E.
  cbn [mbind run_bind]. set (s1 := with_maps _ _ _) in *.
  destruct (IH s1 Hs') as (s' & E' & Hs'' & Hfr & Hf).
  { intros k' Hk'. destruct (Hin k') as [e He]; [by right|]. exists e. cbn.
    apply lookup_delete_Some. split; [|done]. intros ->. done. }
  exists s'. split; [done|]. split; [done|]. split; [by etrans; [|exact Hfr]|].
  rewrite Hf. unfold s1. cbn [forward with_maps]. apply map_eq. intros i. apply option_eq. intros e.
  rewrite !map_lookup_filter_Some, lookup_delete_Some, not_elem_of_cons. cbn. naive_solver.
Qed.

(** [purge_expired] keeps exactly the mappings that outlive [now]; it never
    panics. *)
Lemma purge_expired_spec s now :
  fam_inv A s →
  ∃ n s', purge_expired s now = Ret (n, s') ∧ fam_inv A s' ∧ same_frame s s' ∧
    forward s' = filter (λ e, (now < expires_at e.2.2)%Z) (forward s).
Proof.
  intros Hs. unfold purge_expired. set (ks := map fst _).
  assert (Hks : ∀ k, k ∈ ks ↔ ∃ e, forward s !! k = Some e ∧ (expires_at e.2 ≤ now)%Z).
  { intros k. unfold ks. rewrite list_elem_of_fmap. split.
    - intros ([k' e] & -> & [Hle Hin]%list_elem_of_filter). apply elem_of_map_to_list in Hin. eauto.
    - intros (e & He & Hle). exists (k, e). split; [done|].
      apply list_elem_of_filter. by rewrite elem_of_map_to_list. }
  destruct (remove_all_spec s ks Hs) as (s' & E & Hs' & Hfr & Hf).
  - unfold ks. generalize (NoDup_fst_map_to_list (forward s)).
    generalize (map_to_list (forward s)). clear. intros l. induction l as [|e l IH]; intros Hnd; [constructor|].
    cbn [fmap list_fmap] in Hnd. apply NoDup_cons in Hnd as [Hn Hnd]. rewrite filter_cons. case_decide; [|by apply IH].
    cbn. apply NoDup_cons. split; [|by apply IH]. intros (e' & He & Hin)%list_elem_of_fmap.
    apply Hn. apply list_elem_of_filter in Hin as [_ Hin]. rewrite He. by apply list_elem_of_fmap_2.
  - intros k (e & He & _)%Hks. by exists e.
  - rewrite E. cbn [mbind run_bind]. eexists _, s'. split; [done|]. split; [done|]. split; [done|].
    rewrite Hf. apply map_eq. intros i. apply option_eq. intros e.
    rewrite !map_lookup_filter_Some, Hks. cbn. split.
    + intros [He Hn]. split; [done|]. apply Z.nle_gt. intros Hle. apply Hn. eauto.
    + intros [He Hlt]. split; [done|]. intros (e' & He' & Hle). simplify_eq. lia.
Qed.

Lemma min_entry_spec l :
  match min_entry l with
  | None => l = []
  | Some e => e ∈ l ∧ ∀ e', e' ∈ l → older e.2.2 e'.2.2
  end.
Proof.
  induction l as [|e l IH]; cbn; [done|]. destruct (min_entry l) as [e'|].
  - destruct IH as [Hin Hmin]. case_decide as Hle.
    + split; [by left|]. intros x [->|Hx]%elem_of_cons; [unfold older; lia|].
      specialize (Hmin x Hx). unfold older in *. lia.
    + split; [by right|]. intros x [->|Hx]%elem_of_cons; [unfold older in *; lia|auto].
  - subst. split; [by left|]. intros x [->|Hx]%elem_of_cons; [unfold older; lia|].
    by apply not_elem_of_nil in Hx.
Qed.

(** Eviction removes one mapping, none older. *)
Lemma evict_lru_spec s :
  fam_inv A s → forward s ≠ ∅ →
  ∃ k n m s', evict_lru s = Ret s' ∧ fam_inv A s' ∧ same_frame s s' ∧
    forward s !! k = Some (n, m) ∧ forward s' = delete k (forward s) ∧
    (∀ k' n' m', forward s !! k' = Some (n', m') → older m m').
Proof.
  intros Hs Hne. unfold evict_lru. pose proof (min_entry_spec (map_to_list (forward s))) as Hm.
  destruct (min_entry _) as [[k [n m]]|].
  - destruct Hm as [Hin Hmin]. apply elem_of_map_to_list in Hin.
    destruct (remove_mapping_spec s k n m Hs Hin) as [E Hs'].
    exists k, n, m, (with_maps s (delete k (forward s)) (delete (address m) (reverse s))).
    split; [done|]. split; [done|]. split; [done|]. split; [done|]. split; [done|].
    intros k' n' m' Hk'. apply (Hmin (k', (n', m'))). by apply elem_of_map_to_list.
  - by apply map_to_list_empty_iff in Hm.
Qed.

Lemma insert_mapping_inv s name a e :
  fam_inv A s → forward s !! name_key name = None → reverse s !! a = None →
  (start s ≤ a ≤ end_ s)%Z → fam_inv A (insert_mapping s name a e).
Proof.
  intros Hs Hn Ha Hr. unfold insert_mapping. cbn. split; cbn.
  - apply (fi_range _ _ Hs).
  - intros k n m [[<- [= <- <-]]|[Hne H]]%lookup_insert_Some.
    + cbn. split; [done|]. split; [by rewrite lookup_insert_eq|done].
    + destruct (fi_forward _ _ Hs _ _ _ H) as (-> & Hrev & ?). split; [done|]. split; [|done].
      rewrite lookup_insert_ne; [done|]. intros E. congruence.
  - intros a' n [[<- <-]|[Hne H]]%lookup_insert_Some.
    + eexists. by rewrite lookup_insert_eq.
    + destruct (fi_reverse _ _ Hs _ _ H) as (m & Hm & ?). exists m. split; [|done].
      rewrite lookup_insert_ne; [done|]. intros E. rewrite E in Hn. congruence.
  - rewrite !map_size_insert, Hn, Ha, (fi_size _ _ Hs). done.
Qed.

Lemma set_recency_inv s k r : fam_inv A s → fam_inv A (set_recency s k r).
Proof.
  intros Hs. split; cbn.
  - apply (fi_range _ _ Hs).
  - intros k' n m H. apply lookup_alter_Some in H as [(<- & [n' m'] & H & [= -> ->])|[Hne H]];
      apply (fi_forward _ _ Hs _ _ _ H).
  - intros a n H. destruct (fi_reverse _ _ Hs _ _ H) as (m & Hm & Ha).
    destruct (decide (k = name_key n)) as [->|Hne].
    + rewrite lookup_alter_eq, Hm. cbn. by eexists.
    + rewrite lookup_alter_ne by done. eauto.
  - rewrite <-(fi_size _ _ Hs), <-(size_dom (alter _ _ _)), <-(size_dom (forward s)).
    by rewrite dom_alter_L.
Qed.

Lemma touch_inv s : fam_inv A s → fam_inv A (touch s).2.
Proof. intros []. by split. Qed.

(** ** Probing *)

Definition range_length s : Z := (end_ s - start s + 1)%Z.

(** The address [i] steps after [a], going round the range. *)
Definition probe_address s (a : Z) (i : nat) : Z :=
  (start s + (a - start s + Z.of_nat i) mod range_length s)%Z.

Lemma probe_address_next s a i :
  fam_inv A s → (start s ≤ a ≤ end_ s)%Z →
  probe_address s (next_address A s a) i = probe_address s a (S i).
Proof.
  intros Hs Ha. destruct (fi_range _ _ Hs) as [Hr Hb]. unfold probe_address, next_address, range_length.
  f_equal. case_decide as Hend.
  - subst a. replace (end_ s - start s + Z.of_nat (S i))%Z
      with (start s - start s + Z.of_nat i + 1 * (end_ s - start s + 1))%Z by lia.
    by rewrite Z.mod_add by lia.
  - rewrite advance_spec by lia. f_equal. lia.
Qed.

Lemma next_address_in s a :
  fam_inv A s → (start s ≤ a ≤ end_ s)%Z → (start s ≤ next_address A s a ≤ end_ s)%Z.
Proof.
  intros Hs Ha. destruct (fi_range _ _ Hs) as [Hr Hb]. unfold next_address.
  case_decide; [lia|]. rewrite advance_spec by lia. lia.
Qed.

Lemma probe_address_zero s a : (start s ≤ a ≤ end_ s)%Z → probe_address s a 0 = a.
Proof. intros Ha. unfold probe_address, range_length. rewrite Z.mod_small; lia. Qed.

(** The probe returns the first free address going round from [a]. *)
Lemma probe_first s fuel a :
  fam_inv A s → (start s ≤ a ≤ end_ s)%Z →
  (∃ i, i < fuel ∧ probe A fuel s a = Ret (probe_address s a i) ∧
     reverse s !! probe_address s a i = None ∧
     ∀ j, j < i → is_Some (reverse s !! probe_address s a j)) ∨
  (probe A fuel s a = Hang ∧ ∀ j, j < fuel → is_Some (reverse s !! probe_address s a j)).
Proof.
  intros Hs. revert a. induction fuel as [|fuel IH]; intros a Ha; [right; split; [done|lia]|].
  cbn [probe]. destruct (reverse s !! a) as [n|] eqn:Hn.
  - pose proof (next_address_in s a Hs Ha) as Hin.
    destruct (IH _ Hin) as [(i & Hi & E & Hfree & Hall)|[E Hall]].
    + left. exists (S i). rewrite probe_address_next in E, Hfree by done.
      split; [lia|]. split; [done|]. split; [done|]. intros [|j] Hj.
      * by rewrite probe_address_zero, Hn.
      * rewrite <-probe_address_next by done. apply Hall. lia.
    + right. split; [done|]. intros [|j] Hj.
      * by rewrite probe_address_zero, Hn.
      * rewrite <-probe_address_next by done. apply Hall. lia.
  - left. exists 0. rewrite probe_address_zero by done. split; [lia|]. split; [done|].
    split; [done|]. lia.
Qed.

Lemma probe_address_inj s a i j :
  fam_inv A s → (Z.of_nat i < range_length s)%Z → (Z.of_nat j < range_length s)%Z →
  probe_address s a i = probe_address s a j → i = j.
Proof.
  intros Hs Hi Hj. unfold probe_address. set (c := (a - start s)%Z). set (L := range_length s) in *.
  intros Heq. assert ((c + Z.of_nat i) mod L = (c + Z.of_nat j) mod L)%Z as E by lia.
  pose proof (Z.div_mod (c + Z.of_nat i) L ltac:(lia)).
  pose proof (Z.div_mod (c + Z.of_nat j) L ltac:(lia)).
  rewrite E in *. assert ((c + Z.of_nat i) / L = (c + Z.of_nat j) / L)%Z; nia.
Qed.

(** With a free address in the range, the fuel is enough. *)
Lemma probe_free s a :
  fam_inv A s → (start s ≤ a ≤ end_ s)%Z → (Z.of_nat (size (reverse s)) < range_length s)%Z →
  ∃ i, probe A (S (size (reverse s))) s a = Ret (probe_address s a i) ∧
    reverse s !! probe_address s a i = None ∧
    (start s ≤ probe_address s a i ≤ end_ s)%Z ∧
    ∀ j, j < i → is_Some (reverse s !! probe_address s a j).
Proof.
  intros Hs Ha Hroom. destruct (fi_range _ _ Hs) as [Hr _].
  assert (Hin : ∀ i, (start s ≤ probe_address s a i ≤ end_ s)%Z).
  { intros i. unfold probe_address.
    pose proof (Z.mod_pos_bound (a - start s + Z.of_nat i) (range_length s)).
    unfold range_length in *. lia. }
  destruct (probe_first s (S (size (reverse s))) a Hs Ha) as [(i & _ & E & Hfree & Hall)|[_ Hall]].
  { exists i. auto. }
  exfalso. set (n := size (reverse s)) in *.
  assert (Hnd : NoDup (map (probe_address s a) (seq 0 (S n)))).
  { apply NoDup_fmap_2_strong; [|apply NoDup_seq].
    intros i j Hi%elem_of_seq Hj%elem_of_seq. apply probe_address_inj; [done|lia|lia]. }
  assert (Hsub : (list_to_set (map (probe_address s a) (seq 0 (S n))) : gset Z) ⊆ dom (reverse s)).
  { intros x Hx%elem_of_list_to_set. apply list_elem_of_fmap in Hx as (j & -> & Hj%elem_of_seq).
    apply elem_of_dom, Hall. lia. }
  apply subseteq_size in Hsub. rewrite size_list_to_set in Hsub by done.
  rewrite length_map, length_seq, size_dom in Hsub. unfold n in Hsub. lia.
Qed.
End invariant.

(** ** Hashing *)

Lemma fnv_step_u64 h b : is_u64 (fnv_step h b).
Proof. unfold fnv_step, wrapping_mul. apply (Z.mod_pos_bound _ (2 ^ 64)). lia. Qed.

Lemma fnv1a_u64 n salt : is_u64 salt → is_u64 (fnv1a n salt).
Proof.
  intros Hs. unfold fnv1a. assert (H : is_u64 (Z.lxor fnv_basis salt)).
  { apply (lxor_uint 64); [lia| |exact Hs]. unfold fnv_basis. lia. }
  revert H. generalize (Z.lxor fnv_basis salt). induction (labels n) as [|l ls IH]; intros h Hh; cbn; [done|].
  apply IH. apply fnv_step_u64.
Qed.

(** The hash sees a name up to case. *)
Lemma fnv1a_equiv n n' salt : n ≡ n' → fnv1a n salt = fnv1a n' salt.
Proof.
  intros H%name_equiv_spec. unfold fnv1a, lowercased_labels in *.
  generalize (Z.lxor fnv_basis salt). revert H. generalize (labels n'). clear n'.
  induction (labels n) as [|l ls IH]; intros [|l' ls'] H h; try done. cbn in *.
  injection H as Hl Hls. rewrite (IH ls' Hls). f_equal. unfold fnv_label. f_equal.
  assert (Hg : ∀ l l', map to_ascii_lowercase l = map to_ascii_lowercase l' → ∀ h,
    foldl (λ h b, fnv_step h (to_ascii_lowercase b)) h l =
    foldl (λ h b, fnv_step h (to_ascii_lowercase b)) h l').
  { clear. induction l as [|b l IH]; intros [|b' l'] E h; try done. cbn in *.
    injection E as Eb El. by rewrite Eb, (IH l'). }
  by apply Hg.
Qed.

(** ** Allocation *)

(** The mappings that outlive [now]. *)
Definition live (s : FamilyState) (now : Z) : gmap key (Name * Mapping) :=
  filter (λ e, (now < expires_at e.2.2)%Z) (forward s).

(** Not the whole address space, so that the pool has a capacity. *)
Definition bounded (A : Address) (s : FamilyState) : Prop :=
  (range_length s < 2 ^ address_bits)%Z.

Section allocation.
Context (A : Address) {LA : AddressLaws A}.
Implicit Types (s : FamilyState).

(** At most one mapping per address of the range. *)
Lemma family_size_le s : fam_inv A s → (Z.of_nat (size (reverse s)) ≤ range_length s)%Z.
Proof.
  intros Hs. destruct (fi_range _ _ Hs) as [Hr _].
  set (all := map (λ i, (start s + Z.of_nat i)%Z) (seq 0 (Z.to_nat (range_length s)))).
  assert (Hsub : dom (reverse s) ⊆ (list_to_set all : gset Z)).
  { intros a [n Hn]%elem_of_dom. destruct (fi_reverse _ _ Hs _ _ Hn) as (m & Hm & Ha).
    destruct (fi_forward _ _ Hs _ _ _ Hm) as (_ & _ & Hin). rewrite Ha in Hin.
    apply elem_of_list_to_set, list_elem_of_fmap. exists (Z.to_nat (a - start s)).
    split; [lia|]. apply elem_of_seq. unfold range_length. lia. }
  apply subseteq_size in Hsub. rewrite size_dom in Hsub.
  assert (size (list_to_set all : gset Z) ≤ length all).
  { clear. induction all as [|x l IH]; cbn; [by rewrite size_empty|].
    rewrite size_union_alt, size_singleton. etrans; [|apply (le_n_S _ _ IH)].
    rewrite Nat.add_1_l. apply le_n_S. apply subseteq_size. set_solver. }
  unfold all in *. rewrite length_map, length_seq in *. unfold range_length in *. lia.
Qed.

(** Room is made when there is none. *)
Lemma make_room s :
  fam_inv A s → bounded A s →
  ∃ s', match capacity (start s) (end_ s) with
        | Some c => if is_full (size (forward s)) c then evict_lru s else Ret s
        | None => Ret s
        end = Ret s' ∧
    fam_inv A s' ∧ same_frame s s' ∧ (Z.of_nat (size (reverse s')) < range_length s)%Z ∧
    ((Z.of_nat (size (forward s)) < range_length s)%Z ∧ forward s' = forward s ∨
     Z.of_nat (size (forward s)) = range_length s ∧
     ∃ k n m, forward s !! k = Some (n, m) ∧ forward s' = delete k (forward s) ∧
       ∀ k' n' m', forward s !! k' = Some (n', m') → older m m').
Proof.
  intros Hs Hb. destruct (fi_range _ _ Hs) as [Hr Hw]. pose proof (family_size_le s Hs) as Hle.
  unfold bounded, range_length in *. rewrite capacity_spec, decide_True by done.
  rewrite is_full_spec. rewrite (fi_size _ _ Hs) in *. case_bool_decide as Hfull.
  - destruct (evict_lru_spec A s Hs) as (k & n & m & s' & E & Hs' & Hfr & Hk & Hf & Hold).
    { intros He. pose proof (fi_size _ _ Hs) as Hsz. rewrite He, map_size_empty in Hsz. lia. }
    exists s'. split; [done|]. split; [done|]. split; [done|]. split.
    + rewrite <-(fi_size _ _ Hs'), Hf, map_size_delete, Hk, (fi_size _ _ Hs). lia.
    + right. split; [lia|]. exists k, n, m. auto.
  - exists s. split; [done|]. split; [done|]. split; [done|]. split; [lia|]. left. split; [lia|done].
Qed.

(** The two ways [allocate_with_ttl] returns; it does return. *)
Lemma allocate_cases s name salt now ttl :
  fam_inv A s → bounded A s → is_u64 salt → (now + ttl ≤ instant_max)%Z →
  (∃ n m s', live s now !! name_key name = Some (n, m) ∧
     allocate_with_ttl A s name salt now ttl = Ret (address m, (expires_at m - now)%Z, s') ∧
     fam_inv A s' ∧ start s' = start s ∧ end_ s' = end_ s ∧
     next_recency s' = wrapping_add 64 (next_recency s) 1 ∧
     forward s' = <[name_key name := (n, mkMapping (address m) (next_recency s) (allocation m) (expires_at m))]>
                    (live s now)) ∨
  (∃ a i s1, live s now !! name_key name = None ∧
     allocate_with_ttl A s name salt now ttl =
       Ret (a, ttl, insert_mapping s1 name a (now + ttl)) ∧
     fam_inv A s1 ∧ same_frame s s1 ∧ fam_inv A (insert_mapping s1 name a (now + ttl)) ∧
     a = probe_address s (candidate (start s) (end_ s) (fnv1a name salt)) i ∧
     (start s ≤ a ≤ end_ s)%Z ∧
     reverse s1 !! a = None ∧
     (∀ j, j < i → is_Some (reverse s1 !!
        probe_address s (candidate (start s) (end_ s) (fnv1a name salt)) j)) ∧
     ((Z.of_nat (size (live s now)) < range_length s)%Z ∧ forward s1 = live s now ∨
      Z.of_nat (size (live s now)) = range_length s ∧
      ∃ k n m, live s now !! k = Some (n, m) ∧ forward s1 = delete k (live s now) ∧
        ∀ k' n' m', live s now !! k' = Some (n', m') → older m m')).
Proof.
  intros Hs Hb Hsalt Hnow. unfold allocate_with_ttl, checked_add. rewrite decide_True by done.
  destruct (purge_expired_spec A s now Hs) as (cnt & s0 & E & Hs0 & Hfr & Hf).
  rewrite E. cbn [mbind run_bind]. fold (live s now) in Hf. rewrite Hf.
  destruct Hfr as (Hst & Hen & Hre & Hal).
  destruct (live s now !! name_key name) as [[n m]|] eqn:Hk.
  - left. exists n, m. cbn [touch]. unfold checked_duration_since.
    apply map_lookup_filter_Some in Hk as Hk'. destruct Hk' as [_ Hlt]. cbn in Hlt.
    rewrite decide_True by lia. eexists. split; [done|]. split; [done|].
    split; [by apply set_recency_inv, (touch_inv A s0)|]. cbn.
    rewrite Hst, Hen, Hre. split; [done|]. split; [done|]. split; [done|].
    rewrite Hf. apply map_eq. intros i. destruct (decide (i = name_key name)) as [->|Hne].
    + by rewrite lookup_alter_eq, lookup_insert_eq, Hk.
    + by rewrite lookup_alter_ne, lookup_insert_ne by done.
  - right. assert (Hrl : range_length s0 = range_length s) by (unfold range_length; congruence).
    assert (Hb0 : bounded A s0) by (unfold bounded in *; by rewrite Hrl).
    destruct (make_room s0 Hs0 Hb0) as (s1 & E1 & Hs1 & Hfr1 & Hroom & Hcase).
    destruct Hfr1 as (Hst1 & Hen1 & Hre1 & Hal1).
    rewrite Hf in E1. rewrite E1. cbn [mbind run_bind].
    assert (Hrl1 : range_length s1 = range_length s) by (unfold range_length; congruence).
    destruct (fi_range _ _ Hs) as [Hrange Hw].
    set (c := candidate (start s) (end_ s) (fnv1a name salt)).
    assert (Hc : (start s ≤ c ≤ end_ s)%Z) by (apply candidate_in; auto using fnv1a_u64).
    rewrite Hst1, Hen1, Hst, Hen. fold c.
    destruct (probe_free A s1 c Hs1) as (i & Ep & Hfree & Hin & Hbusy); [congruence|lia|].
    rewrite Ep. cbn [mbind run_bind].
    assert (Hpa : ∀ j, probe_address s1 c j = probe_address s c j).
    { intros j. unfold probe_address. by rewrite Hrl1, Hst1, Hst. }
    rewrite Hpa in Hfree, Hin. rewrite Hpa. exists (probe_address s c i), i, s1.
    assert (Hnone : forward s1 !! name_key name = None).
    { destruct Hcase as [[_ ->]|(_ & k & n & m & _ & -> & _)]; rewrite ?Hf; [done|].
      destruct (decide (k = name_key name)) as [->|]; [by rewrite lookup_delete_eq|].
      by rewrite lookup_delete_ne. }
    split; [done|]. split; [done|]. split; [done|]. split; [repeat split; congruence|].
    split; [by apply insert_mapping_inv|]. split; [done|].
    split; [by rewrite Hst1, Hen1, Hst, Hen in Hin|]. split; [done|].
    split; [intros j Hj; rewrite <-Hpa; auto|]. rewrite Hf, Hrl in Hcase. done.
Qed.
End allocation.

(** ** Lookup *)

Section lookup.
Context (A : Address) {LA : AddressLaws A}.
Implicit Types (s : FamilyState).

(** A reverse lookup answers exactly the live mapping of the address, with
    its remaining lifetime, and changes nothing but that mapping's recency. *)
Lemma lookup_spec s a now :
  fam_inv A s →
  ∃ r s', lookup_with_ttl s a now = Ret (r, s') ∧ fam_inv A s' ∧
    start s' = start s ∧ end_ s' = end_ s ∧
    match r with
    | Some (n, d) => ∃ m, live s now !! name_key n = Some (n, m) ∧ address m = a ∧
        d = (expires_at m - now)%Z ∧ (0 < d)%Z ∧ next_recency s' = wrapping_add 64 (next_recency s) 1 ∧
        forward s' = <[name_key n := (n, mkMapping a (next_recency s) (allocation m) (expires_at m))]> (live s now)
    | None => (∀ k n m, live s now !! k = Some (n, m) → address m ≠ a) ∧
        next_recency s' = next_recency s ∧ forward s' = live s now
    end.
Proof.
  intros Hs. unfold lookup_with_ttl.
  destruct (purge_expired_spec A s now Hs) as (cnt & s0 & E & Hs0 & Hfr & Hf).
  rewrite E. cbn [mbind run_bind]. fold (live s now) in Hf. destruct Hfr as (Hst & Hen & Hre & Hal).
  unfold contains. case_bool_decide as Hin; cbn [negb].
  - destruct (reverse s0 !! a) as [n|] eqn:Hr.
    + destruct (fi_reverse _ _ Hs0 _ _ Hr) as (m & Hm & Ha). cbn [touch forward].
      assert (Hlive : live s now !! name_key n = Some (n, m)) by congruence.
      apply map_lookup_filter_Some in Hlive as Hlt. destruct Hlt as [_ Hlt]. cbn in Hlt.
      rewrite Hm. unfold checked_duration_since. rewrite decide_True by lia.
      eexists _, _. split; [done|]. split; [by apply set_recency_inv, (touch_inv A s0)|].
      cbn. rewrite Hst, Hen, Hre. split; [done|]. split; [done|]. exists m.
      split; [done|]. split; [done|]. split; [done|]. split; [lia|]. split; [done|].
      rewrite Hf. apply map_eq. intros i. destruct (decide (i = name_key n)) as [->|Hne].
      * rewrite lookup_alter_eq, lookup_insert_eq, Hlive. cbn. congruence.
      * by rewrite lookup_alter_ne, lookup_insert_ne by done.
    + exists None, s0. split; [done|]. split; [done|]. split; [done|]. split; [done|].
      split; [|done]. intros k n m Hk Ha. rewrite <-Hf in Hk.
      apply (fi_forward _ _ Hs0) in Hk as (_ & Hk & _). congruence.
  - exists None, s0. split; [done|]. split; [done|]. split; [done|]. split; [done|].
    split; [|done]. intros k n m Hk Ha. rewrite <-Hf in Hk.
    apply (fi_forward _ _ Hs0) in Hk as (_ & _ & Hk). lia.
Qed.
End lookup.

(** ** Recency *)

(** Each mapping has its own recency, below the counter. *)
Definition rec_inv (s : FamilyState) : Prop :=
  (0 ≤ next_recency s)%Z ∧
  (∀ k n m, forward s !! k = Some (n, m) → (0 ≤ recency m < next_recency s)%Z) ∧
  (∀ k1 k2 n1 n2 m1 m2, forward s !! k1 = Some (n1, m1) → forward s !! k2 = Some (n2, m2) →
     recency m1 = recency m2 → k1 = k2).

Lemma rec_inv_sub (f g : gmap key (Name * Mapping)) s s' :
  f = forward s → g = forward s' → g ⊆ f → next_recency s' = next_recency s →
  rec_inv s → rec_inv s'.
Proof.
  intros -> -> Hsub Hn (H0 & H1 & H2). unfold rec_inv. rewrite Hn. split; [done|]. split.
  - intros k n m Hk. eapply H1, lookup_weaken; done.
  - intros k1 k2 n1 n2 m1 m2 Hk1 Hk2. eapply H2; by eapply lookup_weaken.
Qed.

(** Giving one name the next recency keeps the invariant and makes it the most
    recently used, as long as the counter does not wrap. *)
Lemma rec_inv_bump s s' k n m :
  rec_inv s → (next_recency s + 1 < 2 ^ 64)%Z →
  next_recency s' = wrapping_add 64 (next_recency s) 1 →
  recency m = next_recency s →
  (∀ k' e, forward s' !! k' = Some e → k' = k ∧ e = (n, m) ∨ k' ≠ k ∧ forward s !! k' = Some e) →
  rec_inv s'.
Proof.
  intros (H0 & H1 & H2) Hlt Hn Hm Hf. unfold wrapping_add in Hn. rewrite Z.mod_small in Hn by lia.
  unfold rec_inv. rewrite Hn. split; [lia|]. split.
  - intros k' n' m' Hk'. destruct (Hf _ _ Hk') as [(-> & [= -> ->])|[_ Hk]]; [lia|].
    specialize (H1 _ _ _ Hk). lia.
  - intros k1 k2 n1 n2 m1 m2 Hk1 Hk2 E.
    destruct (Hf _ _ Hk1) as [(-> & [= -> ->])|[_ Hk1']], (Hf _ _ Hk2) as [(-> & [= -> ->])|[_ Hk2']].
    + done.
    + specialize (H1 _ _ _ Hk2'). lia.
    + specialize (H1 _ _ _ Hk1'). lia.
    + by eapply H2.
Qed.

(** ** Snapshots *)

Section snapshot.
Implicit Types (s : FamilyState).

Lemma insert_older_perm e l : insert_older e l ≡ₚ e :: l.
Proof. induction l as [|e' l IH]; cbn; [done|]. case_decide; [done|]. rewrite IH. constructor. Qed.

Lemma sort_older_perm l : sort_older l ≡ₚ l.
Proof. induction l as [|e l IH]; cbn; [done|]. by rewrite insert_older_perm, IH. Qed.

Definition entry_older (e e' : key * (Name * Mapping)) : Prop := older e.2.2 e'.2.2.

Lemma insert_older_sorted e l :
  StronglySorted entry_older l → StronglySorted entry_older (insert_older e l).
Proof.
  induction 1 as [|e' l Hl IH He]; cbn; [by repeat constructor|]. case_decide as Hle.
  - constructor; [by constructor|]. constructor; [done|].
    eapply Forall_impl; [exact He|]. unfold entry_older, older in *. intros x Hx. lia.
  - constructor; [done|]. rewrite insert_older_perm. constructor; [|done].
    unfold entry_older, older in *. lia.
Qed.

Lemma sort_older_sorted l : StronglySorted entry_older (sort_older l).
Proof. induction l as [|e l IH]; cbn; [constructor|]. by apply insert_older_sorted. Qed.

(** What restoring a list of mappings from counter [r] on puts in the map. *)
Fixpoint restored_entries (r : Z) (l : list (Name * Z * Z)) : list (key * (Name * Mapping)) :=
  match l with
  | [] => []
  | (n, a, e) :: l => (name_key n, (n, mkMapping a r r e)) :: restored_entries (r + 1) l
  end.

Definition insert_all (s : FamilyState) (l : list (Name * Z * Z)) : FamilyState :=
  foldl (λ s x, insert_mapping s x.1.1 x.1.2 x.2) s l.

Lemma restored_entries_keys r l : map fst (restored_entries r l) = map (λ x, name_key x.1.1) l.
Proof. revert r. induction l as [|[[n a] e] l IH]; intros r; cbn; [done|]. by rewrite IH. Qed.

Lemma insert_all_forward s r l :
  next_recency s = r → next_allocation s = r → (0 ≤ r)%Z → (r + Z.of_nat (length l) < 2 ^ 64)%Z →
  NoDup (map (λ x, name_key x.1.1) l) →
  forward (insert_all s l) = list_to_map (restored_entries r l) ∪ forward s.
Proof.
  revert s r. induction l as [|[[n a] e] l IH]; intros s r Hr Ha Hpos Hb Hnd; cbn [insert_all foldl restored_entries].
  { cbn. by rewrite map_empty_union. }
  cbn [map] in Hnd. apply NoDup_cons in Hnd as [Hn Hnd]. cbn [length] in Hb.
  assert (Hw : wrapping_add 64 r 1 = (r + 1)%Z) by (unfold wrapping_add; rewrite Z.mod_small; lia).
  change (foldl _ ?x l) with (insert_all x l). rewrite (IH _ (r + 1)%Z); [| | |lia|lia|done].
  - cbn [fst snd]. unfold insert_mapping. cbn [touch bump_allocation with_maps forward].
    cbn [list_to_map foldr]. rewrite Hr, Ha. cbn. rewrite <-insert_union_l.
    symmetry. apply insert_union_r, not_elem_of_list_to_map_1. by rewrite restored_entries_keys.
  - cbn. by rewrite Hr, Hw.
  - cbn. by rewrite Ha, Hw.
Qed.

Lemma restored_entries_sorted r l : StronglySorted entry_older (restored_entries r l).
Proof.
  revert r. induction l as [|[[n a] e] l IH]; intros r; cbn; [constructor|]. constructor; [apply IH|].
  assert (Hge : ∀ r' l, (r ≤ r')%Z → Forall (λ x, (r ≤ recency x.2.2)%Z ∧ allocation x.2.2 = recency x.2.2) (restored_entries r' l)).
  { clear. intros r' l. revert r'. induction l as [|[[n a] e] l IH]; intros r' Hr; cbn; [constructor|].
    constructor; [cbn; lia|]. apply IH. lia. }
  eapply Forall_impl; [apply (Hge (r + 1)%Z l); lia|].
  intros x [Hx Ha]. unfold entry_older, older. cbn in *. lia.
Qed.

Lemma restored_entries_inj r l x y :
  x ∈ restored_entries r l → y ∈ restored_entries r l → recency x.2.2 = recency y.2.2 → x = y.
Proof.
  revert r. induction l as [|[[n a] e] l IH]; intros r; cbn; [by intros ?%not_elem_of_nil|].
  assert (Hge : ∀ r' l x, x ∈ restored_entries r' l → (r' ≤ recency x.2.2)%Z).
  { clear. intros r' l. revert r'. induction l as [|[[n a] e] l IH]; intros r' x; cbn; [by intros ?%not_elem_of_nil|].
    intros [->|Hx]%elem_of_cons; [cbn; lia|]. apply IH in Hx. lia. }
  intros [->|Hx]%elem_of_cons [->|Hy]%elem_of_cons Heq; [done| | |by eapply IH].
  - apply Hge in Hy. cbn in *. lia.
  - apply Hge in Hx. cbn in *. lia.
Qed.

(** A freshly restored family snapshots to the restored list. *)
Lemma snapshot_restored s now l :
  forward s = list_to_map (restored_entries 0 l) → NoDup (map (λ x, name_key x.1.1) l) →
  Forall (λ x, (now ≤ x.2)%Z) l →
  family_snapshot s now = map (λ x, (x.1, (x.2 - now)%Z)) l.
Proof.
  intros Hf Hnd Hlive. unfold family_snapshot.
  assert (Hp : map_to_list (forward s) ≡ₚ restored_entries 0 l).
  { rewrite Hf. apply map_to_list_to_map. by rewrite restored_entries_keys. }
  assert (sort_older (map_to_list (forward s)) = restored_entries 0 l) as ->.
  { apply (StronglySorted_unique_strong entry_older).
    - intros x y Hx Hy Hxy Hyx. rewrite sort_older_perm, Hp in Hx.
      apply (restored_entries_inj 0 l); [done|done|]. unfold entry_older, older in *. lia.
    - apply sort_older_sorted.
    - apply restored_entries_sorted.
    - by rewrite sort_older_perm. }
  clear Hf Hp Hnd. generalize 0%Z. induction Hlive as [|[[n a] e] l He _ IH]; intros r; cbn; [done|].
  cbn in He. unfold checked_duration_since. rewrite decide_True by done. cbn. by rewrite IH.
Qed.
End snapshot.
