(* ===== verification/FakeIpPool.v ===== *)
(** * Fake IP: the pool

    Models [FakeIpPolicy], [FakeIpPool], its builder, snapshots and
    restoration of [crates/dns-lattice/src/fakeip.rs]. The clock's reading is
    an argument of every operation that takes one. Each family's mutex is held
    for a whole operation on it, so operations on a pool are a sequence. *)

From stdpp Require Import base numbers list gmap sorting.
From S2P Require Import Prelude CoreError Name Matcher Time FakeIpFamily.

(** ** Policy *)

Record FakeIpPolicy : Type := mkFakeIpPolicy { fake_matcher : DomainMatcher unit }.

Definition fake_builder : FakeIpPolicy := mkFakeIpPolicy matcher_new.
Definition fake_rule (p : FakeIpPolicy) (pattern : DomainPattern) : FakeIpPolicy :=
  mkFakeIpPolicy (Matcher.insert (fake_matcher p) pattern tt).
Definition fake_matches (p : FakeIpPolicy) (name : Name) : bool :=
  match resolve (fake_matcher p) name with Some _ => true | None => false end.

(** ** The pool *)


Record FakeIpPool : Type := mkPool {
  ipv4 : option FamilyState;
  ipv6 : option FamilyState;
  pool_ttl : Z;
}.

Record FakeIpMappingSnapshot : Type := mkMappingSnapshot {
  ms_name : Name;
  ms_address : IpAddr;
  remaining_lifetime : Z;
}.

Record FakeIpPoolSnapshot : Type := mkSnapshot {
  captured_at : Z;
  ipv4_range : option (Z * Z);
  ipv6_range : option (Z * Z);
  snap_ttl : Z;
  mappings : list FakeIpMappingSnapshot;
}.

Definition validate_ttl (ttl : Z) : Result Error unit :=
  if decide (ttl = 0 ∨ subsec_nanos ttl ≠ 0)%Z then Err InvalidFakeIpTtl else Ok tt.

(** [Option::transpose] of a fallible constructor. *)
Definition family_opt (range : option (Z * Z)) : Result Error (option FamilyState) :=
  match range with
  | None => Ok None
  | Some r => s ← family_new r; Ok (Some s)
  end.

Record FakeIpPoolBuilder : Type := mkPoolBuilder {
  b_ipv4 : option (Z * Z);
  b_ipv6 : option (Z * Z);
  b_ttl : option Z;
}.

Definition pool_builder : FakeIpPoolBuilder := mkPoolBuilder None None None.
Definition with_ipv4_range (b : FakeIpPoolBuilder) (start end_ : Z) : FakeIpPoolBuilder :=
  mkPoolBuilder (Some (start, end_)) (b_ipv6 b) (b_ttl b).
Definition with_ipv6_range (b : FakeIpPoolBuilder) (start end_ : Z) : FakeIpPoolBuilder :=
  mkPoolBuilder (b_ipv4 b) (Some (start, end_)) (b_ttl b).
Definition with_ttl (b : FakeIpPoolBuilder) (ttl : Z) : FakeIpPoolBuilder :=
  mkPoolBuilder (b_ipv4 b) (b_ipv6 b) (Some ttl).

Definition build (b : FakeIpPoolBuilder) : Result Error FakeIpPool :=
  ttl ← ok_or InvalidFakeIpTtl (b_ttl b);
  _ ← validate_ttl ttl;
  ipv4 ← family_opt (b_ipv4 b);
  ipv6 ← family_opt (b_ipv6 b);
  match ipv4, ipv6 with
  | None, None => Err FakeIpPoolUnconfigured
  | _, _ => Ok (mkPool ipv4 ipv6 ttl)
  end.

Definition set_ipv4 (p : FakeIpPool) (s : option FamilyState) : FakeIpPool :=
  mkPool s (ipv6 p) (pool_ttl p).
Definition set_ipv6 (p : FakeIpPool) (s : option FamilyState) : FakeIpPool :=
  mkPool (ipv4 p) s (pool_ttl p).

Definition allocate_ipv4_with_ttl (p : FakeIpPool) (name : Name) (now : Z) :
    Run Error (Z * Z * FakeIpPool) :=
  s ← lift (ok_or FakeIpFamilyDisabled (ipv4 p));
  '(a, ttl, s) ← allocate_with_ttl address_u32 s name IPV4_HASH_SALT now (pool_ttl p);
  Ret (a, ttl, set_ipv4 p (Some s)).

Definition allocate_ipv6_with_ttl (p : FakeIpPool) (name : Name) (now : Z) :
    Run Error (Z * Z * FakeIpPool) :=
  s ← lift (ok_or FakeIpFamilyDisabled (ipv6 p));
  '(a, ttl, s) ← allocate_with_ttl address_u128 s name IPV6_HASH_SALT now (pool_ttl p);
  Ret (a, ttl, set_ipv6 p (Some s)).

Definition lookup_ipv4_with_ttl (p : FakeIpPool) (a now : Z) :
    Run Error (option (Name * Z) * FakeIpPool) :=
  match ipv4 p with
  | None => Ret (None, p)
  | Some s => '(r, s) ← lookup_with_ttl s a now; Ret (r, set_ipv4 p (Some s))
  end.

Definition lookup_ipv6_with_ttl (p : FakeIpPool) (a now : Z) :
    Run Error (option (Name * Z) * FakeIpPool) :=
  match ipv6 p with
  | None => Ret (None, p)
  | Some s => '(r, s) ← lookup_with_ttl s a now; Ret (r, set_ipv6 p (Some s))
  end.

Definition contains_ipv4 (p : FakeIpPool) (a : Z) : bool :=
  match ipv4 p with Some s => contains s a | None => false end.
Definition contains_ipv6 (p : FakeIpPool) (a : Z) : bool :=
  match ipv6 p with Some s => contains s a | None => false end.
Definition ipv4_enabled (p : FakeIpPool) : bool :=
  match ipv4 p with Some _ => true | None => false end.
Definition ipv6_enabled (p : FakeIpPool) : bool :=
  match ipv6 p with Some _ => true | None => false end.

(** [map_or(0, |state| state.purge_expired(now))] *)
Definition purge_opt (s : option FamilyState) (now : Z) : Run Error (nat * option FamilyState) :=
  match s with
  | None => Ret (0, None)
  | Some s => '(n, s) ← purge_expired s now; Ret (n, Some s)
  end.

Definition pool_purge_expired (p : FakeIpPool) (now : Z) : Run Error (nat * FakeIpPool) :=
  '(n4, v4) ← purge_opt (ipv4 p) now;
  '(n6, v6) ← purge_opt (ipv6 p) now;
  Ret (n4 + n6, mkPool v4 v6 (pool_ttl p)).

(** ** Snapshots *)

Definition range_of (s : FamilyState) : Z * Z := (start s, end_ s).

Definition mapping_snapshots (to_ip : Z → IpAddr) (l : list (Name * Z * Z)) :
    list FakeIpMappingSnapshot :=
  map (λ x, mkMappingSnapshot x.1.1 (to_ip x.1.2) x.2) l.

Definition family_mappings (to_ip : Z → IpAddr) (s : option FamilyState) (now : Z) :
    list FakeIpMappingSnapshot :=
  match s with None => [] | Some s => mapping_snapshots to_ip (family_snapshot s now) end.

Definition snapshot (p : FakeIpPool) (now : Z) : Run Error (FakeIpPoolSnapshot * FakeIpPool) :=
  '(_, v4) ← purge_opt (ipv4 p) now;
  '(_, v6) ← purge_opt (ipv6 p) now;
  Ret (mkSnapshot now (range_of <$> v4) (range_of <$> v6) (pool_ttl p)
         (family_mappings V4 v4 now ++ family_mappings V6 v6 now),
       mkPool v4 v6 (pool_ttl p)).

(** [state.as_mut().filter(|s| s.contains(a)).ok_or(..)?.restore(..)?] *)
Definition restore_into (s : option FamilyState) (name : Name) (a expires_at : Z) :
    Result Error (option FamilyState) :=
  match s with
  | Some s =>
      if contains s a then s ← restore_mapping s name a expires_at; Ok (Some s)
      else Err InvalidFakeIpSnapshot
  | None => Err InvalidFakeIpSnapshot
  end.

Fixpoint restore_loop (now elapsed ttl : Z) (ms : list FakeIpMappingSnapshot)
    (ipv4 ipv6 : option FamilyState) : Result Error (option FamilyState * option FamilyState) :=
  match ms with
  | [] => Ok (ipv4, ipv6)
  | m :: ms =>
      if decide (ttl < remaining_lifetime m)%Z then Err InvalidFakeIpSnapshot
      else
        match checked_sub (remaining_lifetime m) elapsed with
        | None => restore_loop now elapsed ttl ms ipv4 ipv6
        | Some remaining =>
            if decide (remaining = 0)%Z then restore_loop now elapsed ttl ms ipv4 ipv6
            else
              expires_at ← ok_or InvalidFakeIpSnapshot (checked_add now remaining);
              match ms_address m with
              | V4 a =>
                  ipv4 ← restore_into ipv4 (ms_name m) a expires_at;
                  restore_loop now elapsed ttl ms ipv4 ipv6
              | V6 a =>
                  ipv6 ← restore_into ipv6 (ms_name m) a expires_at;
                  restore_loop now elapsed ttl ms ipv4 ipv6
              end
        end
  end.

(** [r.map_err(|_| Error::InvalidFakeIpSnapshot)] *)
Definition invalid_snapshot {A} (r : Result Error A) : Result Error A :=
  match r with Ok a => Ok a | Err _ => Err InvalidFakeIpSnapshot end.

Definition restore (snap : FakeIpPoolSnapshot) (now : Z) : Result Error FakeIpPool :=
  _ ← invalid_snapshot (validate_ttl (snap_ttl snap));
  elapsed ← ok_or InvalidFakeIpSnapshot (checked_duration_since now (captured_at snap));
  ipv4 ← invalid_snapshot (family_opt (ipv4_range snap));
  ipv6 ← invalid_snapshot (family_opt (ipv6_range snap));
  match ipv4, ipv6 with
  | None, None => Err InvalidFakeIpSnapshot
  | _, _ =>
      '(ipv4, ipv6) ← restore_loop now elapsed (snap_ttl snap) (mappings snap) ipv4 ipv6;
      Ok (mkPool ipv4 ipv6 (snap_ttl snap))
  end.

(** ** Every operation keeps the pool consistent *)

Definition family_ok (A : Address) (s : option FamilyState) : Prop :=
  match s with None => True | Some s => fam_inv A s ∧ bounded A s end.

Record pool_inv (p : FakeIpPool) : Prop := {
  pi_ipv4 : family_ok address_u32 (ipv4 p);
  pi_ipv6 : family_ok address_u128 (ipv6 p);
  pi_ttl : (0 < pool_ttl p)%Z;
}.

(** A range of the address type that is not the whole address space, or is
    rejected as empty. *)
Definition range_ok (A : Address) (r : option (Z * Z)) : Prop :=
  match r with
  | None => True
  | Some (a, b) => (0 ≤ a)%Z ∧ (b < 2 ^ address_bits)%Z ∧ (b - a + 1 < 2 ^ address_bits)%Z
  end.

Lemma family_new_inv A r s :
  range_ok A (Some r) → family_new r = Ok s →
  fam_inv A s ∧ bounded A s ∧ start s = r.1 ∧ end_ s = r.2 ∧ forward s = ∅ ∧ reverse s = ∅ ∧
  next_recency s = 0%Z ∧ next_allocation s = 0%Z.
Proof.
  destruct r as [a b]. intros (Ha & Hb & Hl) H. unfold family_new in H. case_decide; [done|].
  injection H as <-. split; [|by repeat split]. split; cbn -[Z.pow].
  - lia.
  - intros k n m H'. by rewrite lookup_empty in H'.
  - intros x n H'. by rewrite lookup_empty in H'.
  - by rewrite !map_size_empty.
Qed.

Lemma family_opt_ok A r s :
  range_ok A r → family_opt r = Ok s → family_ok A s.
Proof.
  intros Hr H. destruct r as [r|]; cbn in H; [|by run_inv]. run_inv.
  apply (family_new_inv A) in Er as (? & ? & _); done.
Qed.

Lemma purge_opt_spec A s now :
  family_ok A s → ∃ n s', purge_opt s now = Ret (n, s') ∧ family_ok A s' ∧
    range_of <$> s' = range_of <$> s ∧
    match s, s' with
    | None, None => True
    | Some s, Some s' => forward s' = live s now ∧ same_frame s s'
    | _, _ => False
    end.
Proof.
  destruct s as [s|]; cbn; [|by exists 0, None]. intros [Hs Hb].
  destruct (purge_expired_spec A s now Hs) as (n & s' & -> & Hs' & Hfr & Hf).
  exists n, (Some s'). split; [done|]. destruct Hfr as (H1 & H2 & H3 & H4).
  split; [split; [done|]; unfold bounded, range_length in *; by rewrite H1, H2|].
  split; [cbn; unfold range_of; by rewrite H1, H2|]. split; [done|]. done.
Qed.

Lemma bounded_frame A s s' :
  start s' = start s → end_ s' = end_ s → bounded A s → bounded A s'.
Proof. unfold bounded, range_length. by intros -> ->. Qed.

(** The operations of a pool, one clock reading each. *)
Inductive PoolOp : Type :=
  | AllocateV4 (name : Name)
  | AllocateV6 (name : Name)
  | LookupV4 (a : Z)
  | LookupV6 (a : Z)
  | PurgeExpired
  | Snapshot.

Definition pool_apply (p : FakeIpPool) (op : PoolOp) (now : Z) : Run Error FakeIpPool :=
  match op with
  | AllocateV4 name => '(_, p) ← allocate_ipv4_with_ttl p name now; Ret p
  | AllocateV6 name => '(_, p) ← allocate_ipv6_with_ttl p name now; Ret p
  | LookupV4 a => '(_, p) ← lookup_ipv4_with_ttl p a now; Ret p
  | LookupV6 a => '(_, p) ← lookup_ipv6_with_ttl p a now; Ret p
  | PurgeExpired => '(_, p) ← pool_purge_expired p now; Ret p
  | Snapshot => '(_, p) ← snapshot p now; Ret p
  end.

(** The errors an operation can return. *)
Definition pool_error (e : Error) : Prop := e = FakeIpFamilyDisabled ∨ e = FakeIpTtlOutOfRange.

Lemma allocate_ok (A : Address) {LA : AddressLaws A} s name salt now ttl :
  fam_inv A s → bounded A s → is_u64 salt →
  (∃ a d s', allocate_with_ttl A s name salt now ttl = Ret (a, d, s') ∧ fam_inv A s' ∧ bounded A s') ∨
  allocate_with_ttl A s name salt now ttl = Throw FakeIpTtlOutOfRange.
Proof.
  intros Hs Hb Hsalt. destruct (decide (now + ttl ≤ instant_max)%Z) as [Hle|Hgt].
  - left. destruct (allocate_cases A s name salt now ttl Hs Hb Hsalt Hle)
      as [(n & m & s' & _ & E & Hs' & H1 & H2 & _)|(a & i & s1 & _ & E & _ & Hfr & Hs' & _)].
    + eexists _, _, s'. split; [exact E|]. split; [done|]. by eapply bounded_frame.
    + eexists _, _, _. split; [exact E|]. split; [done|]. destruct Hfr as (H1 & H2 & _).
      by apply (bounded_frame A s).
  - right. unfold allocate_with_ttl, checked_add. by rewrite decide_False.
Qed.

Lemma pool_apply_ok p op now :
  pool_inv p →
  (∃ p', pool_apply p op now = Ret p' ∧ pool_inv p') ∨
  (∃ e, pool_apply p op now = Throw e ∧ pool_error e).
Proof.
  intros [H4 H6 Ht]. destruct op as [n|n|a|a| |]; cbn [pool_apply].
  - unfold allocate_ipv4_with_ttl. destruct (ipv4 p) as [s|] eqn:E; cbn [ok_or lift mbind run_bind];
      [|right; eexists; split; [done|by left]]. destruct H4 as [Hs Hb].
    destruct (allocate_ok address_u32 s n IPV4_HASH_SALT now (pool_ttl p) Hs Hb)
      as [(a & d & s' & -> & Hs' & Hb')| ->]; [unfold IPV4_HASH_SALT; lia| |right; eexists; split; [done|by right]].
    left. eexists. split; [done|]. by split.
  - unfold allocate_ipv6_with_ttl. destruct (ipv6 p) as [s|] eqn:E; cbn [ok_or lift mbind run_bind];
      [|right; eexists; split; [done|by left]]. destruct H6 as [Hs Hb].
    destruct (allocate_ok address_u128 s n IPV6_HASH_SALT now (pool_ttl p) Hs Hb)
      as [(a & d & s' & -> & Hs' & Hb')| ->]; [unfold IPV6_HASH_SALT; lia| |right; eexists; split; [done|by right]].
    left. eexists. split; [done|]. by split.
  - left. unfold lookup_ipv4_with_ttl. destruct (ipv4 p) as [s|] eqn:E; [|eexists; split; [done|split; [by rewrite E| |]; done]].
    destruct H4 as [Hs Hb]. destruct (lookup_spec address_u32 s a now Hs) as (r & s' & -> & Hs' & H1 & H2 & _).
    eexists. split; [done|]. split; [|done|done]. split; [done|]. by eapply bounded_frame.
  - left. unfold lookup_ipv6_with_ttl. destruct (ipv6 p) as [s|] eqn:E; [|eexists; split; [done|split; [|by rewrite E|]; done]].
    destruct H6 as [Hs Hb]. destruct (lookup_spec address_u128 s a now Hs) as (r & s' & -> & Hs' & H1 & H2 & _).
    eexists. split; [done|]. split; [done| |done]. split; [done|]. by eapply bounded_frame.
  - left. unfold pool_purge_expired. destruct (purge_opt_spec address_u32 _ now H4) as (? & ? & -> & ? & _).
    cbn [mbind run_bind]. destruct (purge_opt_spec address_u128 _ now H6) as (? & ? & -> & ? & _).
    eexists. split; [done|]. by split.
  - left. unfold snapshot. destruct (purge_opt_spec address_u32 _ now H4) as (? & ? & -> & ? & _).
    cbn [mbind run_bind]. destruct (purge_opt_spec address_u128 _ now H6) as (? & ? & -> & ? & _).
    eexists. split; [done|]. by split.
Qed.

Lemma validate_ttl_ok ttl : validate_ttl ttl = Ok tt → (0 ≤ ttl)%Z → (0 < ttl)%Z.
Proof. unfold validate_ttl. case_decide; [done|]. lia. Qed.

Lemma build_inv b p :
  range_ok address_u32 (b_ipv4 b) → range_ok address_u128 (b_ipv6 b) →
  (∀ t, b_ttl b = Some t → 0 ≤ t)%Z → build b = Ok p → pool_inv p.
Proof.
  intros H4 H6 Ht H. unfold build in H. run_inv. destruct r0.
  assert (0 < r)%Z.
  { destruct (b_ttl b) as [t|] eqn:E; cbn in Er; [|done]. injection Er as ->.
    by apply validate_ttl_ok; auto. }
  apply (family_opt_ok address_u32) in Er1; [|done].
  apply (family_opt_ok address_u128) in Er2; [|done].
  destruct r1, r2; run_inv; by split.
Qed.

Lemma restore_mapping_ok A s n a e s' :
  fam_inv A s → bounded A s → (start s ≤ a ≤ end_ s)%Z → restore_mapping s n a e = Ok s' →
  fam_inv A s' ∧ bounded A s'.
Proof.
  intros Hs Hb Hin H. unfold restore_mapping in H. case_decide as Hn; [done|]. injection H as <-.
  split; [|by apply (bounded_frame A s)].
  apply insert_mapping_inv; [done| | |done]; apply eq_None_not_Some; naive_solver.
Qed.

Lemma restore_into_ok A s n a e s' :
  family_ok A s → restore_into s n a e = Ok s' → family_ok A s'.
Proof.
  intros Hs H. unfold restore_into in H. destruct s as [s|]; [|done].
  unfold contains in H. case_bool_decide; [|done]. run_inv. destruct Hs.
  by eapply restore_mapping_ok.
Qed.

Lemma restore_loop_ok now elapsed ttl ms v4 v6 v4' v6' :
  family_ok address_u32 v4 → family_ok address_u128 v6 →
  restore_loop now elapsed ttl ms v4 v6 = Ok (v4', v6') →
  family_ok address_u32 v4' ∧ family_ok address_u128 v6'.
Proof.
  revert v4 v6. induction ms as [|m ms IH]; intros v4 v6 H4 H6 H; cbn [restore_loop] in H.
  { by run_inv. }
  case_decide; [done|]. destruct (checked_sub _ _); [|by eapply IH].
  case_decide; [by eapply IH|]. run_inv. destruct (ms_address m); run_inv.
  - eapply IH; [|exact H6|done]. by eapply restore_into_ok.
  - eapply IH; [exact H4| |done]. by eapply restore_into_ok.
Qed.

Lemma restore_inv snap now p :
  range_ok address_u32 (ipv4_range snap) → range_ok address_u128 (ipv6_range snap) →
  (0 ≤ snap_ttl snap)%Z → restore snap now = Ok p → pool_inv p.
Proof.
  intros H4 H6 Ht H. unfold restore in H. run_inv.
  assert (Ht' : (0 < snap_ttl snap)%Z).
  { destruct (validate_ttl (snap_ttl snap)) as [[]|] eqn:E; [|done]. by apply validate_ttl_ok. }
  destruct (family_opt (ipv4_range snap)) as [v4|] eqn:E4; [|done]. injection Er1 as <-.
  destruct (family_opt (ipv6_range snap)) as [v6|] eqn:E6; [|done]. injection Er2 as <-.
  apply (family_opt_ok address_u32) in E4; [|done].
  apply (family_opt_ok address_u128) in E6; [|done].
  destruct v4, v6; run_inv; try done;
    match goal with
    | H : restore_loop _ _ _ _ _ _ = Ok _ |- _ =>
        destruct (restore_loop_ok _ _ _ _ _ _ _ _ E4 E6 H); by split
    end.
Qed.

(** A pool as the program can make one: built or restored with ranges that are
    not a whole address space, then used at any clock readings. *)
Inductive reachable : FakeIpPool → Prop :=
  | reach_build b p :
      range_ok address_u32 (b_ipv4 b) → range_ok address_u128 (b_ipv6 b) →
      (∀ t, b_ttl b = Some t → 0 ≤ t)%Z → build b = Ok p → reachable p
  | reach_restore snap now p :
      range_ok address_u32 (ipv4_range snap) → range_ok address_u128 (ipv6_range snap) →
      (0 ≤ snap_ttl snap)%Z → restore snap now = Ok p → reachable p
  | reach_apply p op now p' :
      reachable p → pool_apply p op now = Ret p' → reachable p'.

Lemma reachable_inv p : reachable p → pool_inv p.
Proof.
  induction 1 as [b p H4 H6 Ht Hb|snap now p H4 H6 Ht Hb|p op now p' _ IH Hop].
  - by eapply build_inv.
  - by eapply restore_inv.
  - destruct (pool_apply_ok p op now IH) as [(p'' & E & ?)|(e & E & _)]; congruence.
Qed.

(** ** Restoring a snapshot *)

(** A snapshot seen [elapsed] later: expired mappings gone, the others'
    lifetimes reduced, in the same order. *)
Definition age_mappings (elapsed : Z) (ms : list FakeIpMappingSnapshot) :
    list FakeIpMappingSnapshot :=
  omap (λ m, if decide (elapsed < remaining_lifetime m)%Z
             then Some (mkMappingSnapshot (ms_name m) (ms_address m) (remaining_lifetime m - elapsed))
             else None) ms.

Definition age (now : Z) (snap : FakeIpPoolSnapshot) : FakeIpPoolSnapshot :=
  mkSnapshot now (ipv4_range snap) (ipv6_range snap) (snap_ttl snap)
    (age_mappings (now - captured_at snap) (mappings snap)).

(** What [restore_loop] inserts, with the expiry of each mapping. *)
Definition survivors (now elapsed : Z) (l : list (Name * Z * Z)) : list (Name * Z * Z) :=
  omap (λ x, if decide (elapsed < x.2)%Z then Some (x.1, (now + (x.2 - elapsed))%Z) else None) l.

Definition keys_of (l : list (Name * Z * Z)) : list key := map (λ x, name_key x.1.1) l.
Definition addresses_of (l : list (Name * Z * Z)) : list Z := map (λ x, x.1.2) l.

Lemma survivors_keys now elapsed l : keys_of (survivors now elapsed l) `sublist_of` keys_of l.
Proof.
  unfold survivors, keys_of. induction l as [|x l IH]; cbn; [done|].
  case_decide; cbn; by constructor.
Qed.

(** The mappings of one family in a snapshot, restorable into it. *)
Record restorable (A : Address) (s : FamilyState) (now elapsed ttl : Z) (l : list (Name * Z * Z)) : Prop := {
  rs_keys : NoDup (keys_of l);
  rs_addresses : NoDup (addresses_of l);
  rs_fresh_keys k : k ∈ keys_of l → forward s !! k = None;
  rs_fresh_addresses a : a ∈ addresses_of l → reverse s !! a = None;
  rs_in a : a ∈ addresses_of l → (start s ≤ a ≤ end_ s)%Z;
  rs_ttl : Forall (λ x, x.2 ≤ ttl ∧ now + (x.2 - elapsed) ≤ instant_max)%Z l;
}.

Lemma restorable_tail A s now elapsed ttl x l :
  restorable A s now elapsed ttl (x :: l) → restorable A s now elapsed ttl l.
Proof.
  intros [H1 H2 H3 H4 H5 H6]. unfold keys_of, addresses_of in *. cbn [map] in *.
  apply NoDup_cons in H1 as [_ H1], H2 as [_ H2]. apply Forall_cons in H6 as [_ H6].
  split; [done|done| | | |done]; intros; [apply H3|apply H4|apply H5]; by right.
Qed.

Lemma restorable_insert A s now elapsed ttl x l e :
  restorable A s now elapsed ttl (x :: l) →
  restorable A (insert_mapping s x.1.1 x.1.2 e) now elapsed ttl l.
Proof.
  intros H. pose proof (restorable_tail _ _ _ _ _ _ _ H) as [H1 H2 H3 H4 H5 H6].
  destruct H as [N1 N2 _ _ _ _]. unfold keys_of, addresses_of in *. cbn [map] in *.
  apply NoDup_cons in N1 as [N1 _], N2 as [N2 _].
  split; [done|done| | |done|done].
  - intros k Hk. cbn. rewrite lookup_insert_ne; [by apply H3|]. by intros <-.
  - intros a Ha. cbn. rewrite lookup_insert_ne; [by apply H4|]. by intros <-.
Qed.

Lemma restore_mapping_fresh s n a e :
  forward s !! name_key n = None → reverse s !! a = None →
  restore_mapping s n a e = Ok (insert_mapping s n a e).
Proof.
  intros Hf Hr. unfold restore_mapping. rewrite Hf, Hr.
  rewrite decide_False; [done|]. intros [[? [=]]|[? [=]]].
Qed.

(** Restoring a run of mappings of one family, [b] telling which. *)
Lemma restore_loop_family (b : bool) A s now elapsed ttl l rest other :
  restorable A s now elapsed ttl l →
  restore_loop now elapsed ttl (mapping_snapshots (if b then V4 else V6) l ++ rest)
    (if b then Some s else other) (if b then other else Some s) =
  restore_loop now elapsed ttl rest
    (if b then Some (insert_all s (survivors now elapsed l)) else other)
    (if b then other else Some (insert_all s (survivors now elapsed l))).
Proof.
  revert s. induction l as [|[[n a] rem] l IH]; intros s H; [done|].
  pose proof (rs_ttl _ _ _ _ _ _ H) as [[Httl Hmax] _]%Forall_cons. cbn in Httl, Hmax.
  cbn [mapping_snapshots map app restore_loop fst snd remaining_lifetime ms_name ms_address].
  rewrite decide_False by lia. unfold checked_sub, survivors. cbn [omap list_omap fst snd].
  destruct (decide (elapsed ≤ rem)%Z) as [Hle|Hgt].
  2: { rewrite decide_False by lia. apply IH. by eapply restorable_tail. }
  destruct (decide (rem - elapsed = 0)%Z) as [Hz|Hnz].
  { rewrite decide_False by lia. apply IH. by eapply restorable_tail. }
  rewrite (decide_True (P:=(elapsed < rem)%Z)) by lia.
  unfold checked_add. rewrite decide_True by lia. cbn [ok_or mbind result_bind].
  assert (Hk : forward s !! name_key n = None) by (apply (rs_fresh_keys _ _ _ _ _ _ H); by left).
  assert (Ha : reverse s !! a = None) by (apply (rs_fresh_addresses _ _ _ _ _ _ H); by left).
  assert (Hin : contains s a = true).
  { apply bool_decide_eq_true. apply (rs_in _ _ _ _ _ _ H). by left. }
  pose proof (IH _ (restorable_insert _ _ _ _ _ _ _ (now + (rem - elapsed)) H)) as IH'.
  destruct b; cbn [restore_into]; rewrite Hin, restore_mapping_fresh by done; exact IH'.
Qed.

(** The mappings a purged family reports are restorable into an empty family
    of its range. *)
Lemma family_snapshot_spec A s t0 t1 ttl :
  fam_inv A s → live s t0 = forward s → (t0 ≤ t1)%Z →
  (∀ k n m, forward s !! k = Some (n, m) → expires_at m ≤ t0 + ttl ∧ expires_at m ≤ instant_max)%Z →
  length (family_snapshot s t0) = size (forward s) ∧
  ∀ s', start s' = start s → end_ s' = end_ s → forward s' = ∅ → reverse s' = ∅ →
    restorable A s' t1 (t1 - t0) ttl (family_snapshot s t0).
Proof.
  intros Hs Hlive Hle Hexp. set (L := sort_older (map_to_list (forward s))).
  assert (HL : ∀ e, e ∈ L → forward s !! e.1 = Some e.2).
  { intros [k e] He. unfold L in He. rewrite sort_older_perm in He. by apply elem_of_map_to_list in He. }
  assert (Hsnap : family_snapshot s t0 = map (λ e, (e.2.1, address e.2.2, (expires_at e.2.2 - t0)%Z)) L).
  { unfold family_snapshot. fold L. assert (Hl : Forall (λ e, t0 < expires_at e.2.2)%Z L).
    { apply Forall_forall. intros [k e] He%HL. rewrite <-Hlive in He.
      by apply map_lookup_filter_Some in He as [_ ?]. }
    clear HL. induction Hl as [|e l He _ IH]; cbn; [done|].
    unfold checked_duration_since in *. rewrite decide_True by lia. cbn. f_equal. exact IH. }
  rewrite Hsnap. split.
  { rewrite length_map. unfold L. rewrite sort_older_perm. apply length_map_to_list. }
  intros s' H1 H2 H3 H4.
  assert (HndL : NoDup (map fst L)).
  { unfold L. rewrite sort_older_perm. apply NoDup_fst_map_to_list. }
  assert (Hkeys : keys_of (map (λ e, (e.2.1, address e.2.2, (expires_at e.2.2 - t0)%Z)) L) = map fst L).
  { unfold keys_of. rewrite map_map. apply map_ext_in. intros [k [n m]] Hin%list_elem_of_In. cbn.
    apply HL in Hin. cbn in Hin. symmetry. by apply (fi_forward _ _ Hs _ _ _ Hin). }
  assert (Haddr : addresses_of (map (λ e, (e.2.1, address e.2.2, (expires_at e.2.2 - t0)%Z)) L) =
                  map (λ e, address e.2.2) L) by (unfold addresses_of; by rewrite map_map).
  split.
  - by rewrite Hkeys.
  - rewrite Haddr. apply NoDup_fmap_2_strong; [|by eapply NoDup_fmap_1].
    intros [k [n m]] [k' [n' m']] Hin Hin' Heq. apply HL in Hin, Hin'. cbn in *.
    pose proof (fam_inv_inj A s _ _ _ _ _ _ Hs Hin Hin' Heq) as ->. congruence.
  - intros k _. by rewrite H3.
  - intros a _. by rewrite H4.
  - intros a Ha. rewrite Haddr in Ha. apply list_elem_of_fmap in Ha as ([k [n m]] & -> & He%HL).
    cbn in *. rewrite H1, H2. by apply (fi_forward _ _ Hs _ _ _ He).
  - apply Forall_forall. intros x Hx. apply list_elem_of_fmap in Hx as ([k [n m]] & -> & He%HL).
    cbn in *. apply Hexp in He. lia.
Qed.

Lemma purge_all_live s now :
  (∀ k n m, forward s !! k = Some (n, m) → now < expires_at m)%Z →
  purge_expired s now = Ret (0, s) ∧ live s now = forward s.
Proof.
  intros H. split.
  - unfold purge_expired.
    assert (filter (λ e, (expires_at e.2.2 ≤ now)%Z) (map_to_list (forward s)) = []) as ->; [|done].
    apply elem_of_nil_inv. intros [k [n m]] [Hle Hin]%list_elem_of_filter.
    apply elem_of_map_to_list, H in Hin. cbn in Hle. lia.
  - unfold live. apply map_filter_id. intros k [n m] Hk. by apply (H k n).
Qed.

(** Mappings expire within the pool's TTL of now: true of every pool whose
    clock does not go back. *)
Definition fresh (now ttl : Z) (s : option FamilyState) : Prop :=
  match s with
  | None => True
  | Some s => (∀ k n m, forward s !! k = Some (n, m) →
      expires_at m ≤ now + ttl ∧ expires_at m ≤ instant_max)%Z ∧
      (Z.of_nat (size (forward s)) < 2 ^ 64)%Z
  end.

(** One family through [snapshot], [restore] and [snapshot] again. *)
Lemma family_restored (A : Address) s s0 n t0 t1 ttl r :
  fam_inv A s → fresh t0 ttl (Some s) → (t0 ≤ t1)%Z →
  purge_expired s t0 = Ret (n, s0) → same_frame s s0 → fam_inv A s0 → forward s0 = live s t0 →
  start r = start s → end_ r = end_ s → forward r = ∅ → reverse r = ∅ →
  next_recency r = 0%Z → next_allocation r = 0%Z →
  let l := family_snapshot s0 t0 in
  let r' := insert_all r (survivors t1 (t1 - t0) l) in
  restorable A r t1 (t1 - t0) ttl l ∧
  purge_expired r' t1 = Ret (0, r') ∧
  range_of r' = range_of s ∧
  family_snapshot r' t1 = map (λ x, (x.1, x.2 - t1)%Z) (survivors t1 (t1 - t0) l).
Proof.
  intros Hs [Hfr Hsz] Hle Hp (Hst & Hen & _) Hs0 Hf0 R1 R2 R3 R4 R5 R6 l r'.
  assert (Hlive0 : live s0 t0 = forward s0).
  { unfold live at 1. rewrite Hf0. unfold live. apply map_filter_id.
    intros k [n' m] Hk. by apply map_lookup_filter_Some in Hk as [_ ?]. }
  assert (Hexp0 : ∀ k n' m, forward s0 !! k = Some (n', m) →
    (expires_at m ≤ t0 + ttl ∧ expires_at m ≤ instant_max)%Z).
  { intros k n' m Hk. rewrite Hf0 in Hk. apply map_lookup_filter_Some in Hk as [Hk _]. by eapply Hfr. }
  destruct (family_snapshot_spec A s0 t0 t1 ttl Hs0 Hlive0 Hle Hexp0) as [Hlen Hrest].
  assert (Hres : restorable A r t1 (t1 - t0) ttl l) by (apply Hrest; congruence).
  assert (Hsub : keys_of (survivors t1 (t1 - t0) l) `sublist_of` keys_of l) by apply survivors_keys.
  assert (Hnd : NoDup (keys_of (survivors t1 (t1 - t0) l))).
  { eapply sublist_NoDup; [|exact Hsub]. apply (rs_keys _ _ _ _ _ _ Hres). }
  assert (Hlt : (Z.of_nat (length (survivors t1 (t1 - t0) l)) < 2 ^ 64)%Z).
  { apply sublist_length in Hsub. unfold keys_of in Hsub. rewrite !length_map in Hsub.
    assert (size (forward s0) ≤ size (forward s)).
    { rewrite Hf0. apply map_subseteq_size, map_filter_subseteq. }
    unfold l in *. lia. }
  assert (Hforward : forward r' = list_to_map (restored_entries 0 (survivors t1 (t1 - t0) l))).
  { unfold r'. rewrite (insert_all_forward r 0) by (done || lia). rewrite R3. apply map_union_empty. }
  assert (Hsurv : ∀ x, x ∈ survivors t1 (t1 - t0) l → (t1 < x.2)%Z).
  { intros x Hx. unfold survivors in Hx. apply list_elem_of_omap in Hx as (y & _ & E).
    case_decide; [|done]. injection E as <-. cbn. lia. }
  split; [done|]. split; [|split].
  - apply purge_all_live. intros k n' m Hk. rewrite Hforward in Hk.
    apply elem_of_list_to_map_2 in Hk. revert Hk Hsurv. generalize 0%Z. clear.
    induction (survivors t1 (t1 - t0) l) as [|[[n0 a0] e0] l' IH]; intros z Hk Hsurv; cbn in Hk.
    { by apply not_elem_of_nil in Hk. }
    apply elem_of_cons in Hk as [[= -> -> ->]|Hk].
    + apply (Hsurv (n0, a0, e0)). by left.
    + eapply IH; [exact Hk|]. intros x Hx. apply Hsurv. by right.
  - unfold r', range_of. clear -R1 R2.
    assert (Hall : ∀ k q, start (insert_all q k) = start q ∧ end_ (insert_all q k) = end_ q).
    { induction k as [|x k IH]; intros q; [done|]. cbn. apply (IH (insert_mapping q x.1.1 x.1.2 x.2)). }
    destruct (Hall (survivors t1 (t1 - t0) l) r) as [-> ->]. congruence.
  - rewrite (snapshot_restored r' t1 (survivors t1 (t1 - t0) l)); [done|done|done|].
    apply Forall_forall. intros x Hx%Hsurv. lia.
Qed.

Lemma age_survivors to_ip now elapsed l :
  mapping_snapshots to_ip (map (λ x, (x.1, x.2 - now)%Z) (survivors now elapsed l)) =
  age_mappings elapsed (mapping_snapshots to_ip l).
Proof.
  unfold mapping_snapshots, age_mappings, survivors.
  induction l as [|x l IH]; cbn; [done|]. case_decide; cbn; [|done].
  f_equal; [|done]. f_equal. lia.
Qed.

(** A family's slot through [restore]: built empty, filled by its mappings
    and reporting them aged. *)
Lemma slot_restored (A : Address) t0 t1 ttl s s0 n :
  (t0 ≤ t1)%Z → family_ok A s → family_ok A s0 → fresh t0 ttl s →
  purge_opt s t0 = Ret (n, s0) →
  match s, s0 with None, None => True
    | Some s, Some s' => forward s' = live s t0 ∧ same_frame s s' | _, _ => False end →
  ∃ r r', family_opt (range_of <$> s0) = Ok r ∧ (s = None ↔ r = None) ∧
    purge_opt r' t1 = Ret (0, r') ∧ range_of <$> r' = range_of <$> s0 ∧
    (∀ to_ip, family_mappings to_ip r' t1 =
       age_mappings (t1 - t0) (family_mappings to_ip s0 t0)) ∧
    (∀ (b : bool) rest other,
       restore_loop t1 (t1 - t0) ttl (family_mappings (if b then V4 else V6) s0 t0 ++ rest)
         (if b then r else other) (if b then other else r) =
       restore_loop t1 (t1 - t0) ttl rest (if b then r' else other) (if b then other else r')).
Proof.
  intros Hle. destruct s as [s|], s0 as [s0|]; intros Hs Hs0 Hf Hp Hm; try done.
  2: { exists None, None. repeat split; try done. }
  destruct Hs as [Hs Hb], Hs0 as [Hs0 Hb0], Hm as [Hfw (Q1 & Q2 & Q3 & Q4)].
  pose proof (fi_range _ _ Hs) as [Hrg Hw]. unfold bounded, range_length in Hb.
  set (r := mkFamily (start s) (end_ s) ∅ ∅ 0 0).
  assert (Hnew : family_opt (range_of <$> Some s0) = Ok (Some r)).
  { cbn. rewrite Q1, Q2. rewrite decide_False by lia. done. }
  assert (Hp' : purge_expired s t0 = Ret (n, s0)).
  { cbn in Hp. destruct (purge_expired s t0) as [[n' s']| | |]; try done. cbn in Hp. congruence. }
  destruct (family_restored A s s0 n t0 t1 ttl r Hs Hf Hle Hp') as (Hres & Hpr & Hrr & Hfs);
    try done.
  exists (Some r), (Some (insert_all r (survivors t1 (t1 - t0) (family_snapshot s0 t0)))).
  split; [done|]. split; [done|]. split; [cbn; by rewrite Hpr|]. split.
  { cbn. rewrite Hrr. unfold range_of. by rewrite Q1, Q2. }
  split; [intros to_ip; cbn [family_mappings]; by rewrite Hfs, age_survivors|].
  intros b rest other. cbn [family_mappings]. by apply (restore_loop_family b A).
Qed.

(** The whole pool, from the state of each family. *)
Lemma restore_snapshot_age p t0 t1 snap p0 :
  pool_inv p → (pool_ttl p mod nanos_per_sec = 0)%Z →
  fresh t0 (pool_ttl p) (ipv4 p) → fresh t0 (pool_ttl p) (ipv6 p) → (t0 ≤ t1)%Z →
  ipv4 p ≠ None ∨ ipv6 p ≠ None →
  snapshot p t0 = Ret (snap, p0) →
  ∃ p1, restore snap t1 = Ok p1 ∧ snapshot p1 t1 = Ret (age t1 snap, p1).
Proof.
  intros [H4 H6 Ht] Hsec F4 F6 Hle Hsome Hsnap. unfold snapshot in Hsnap.
  destruct (purge_opt_spec _ _ t0 H4) as (n4 & v4 & E4 & Hv4 & Hr4 & Hl4).
  destruct (purge_opt_spec _ _ t0 H6) as (n6 & v6 & E6 & Hv6 & Hr6 & Hl6).
  rewrite E4 in Hsnap. cbn [mbind run_bind] in Hsnap. rewrite E6 in Hsnap.
  cbn [mbind run_bind] in Hsnap. injection Hsnap as <- <-.
  unfold restore. cbn [snap_ttl captured_at ipv4_range ipv6_range mappings].
  assert (validate_ttl (pool_ttl p) = Ok tt) as ->.
  { unfold validate_ttl, subsec_nanos. rewrite decide_False; [done|]. lia. }
  cbn [invalid_snapshot mbind result_bind]. unfold checked_duration_since at 1.
  rewrite decide_True by done. cbn [ok_or mbind result_bind].
  destruct (slot_restored _ _ _ _ _ _ _ Hle H4 Hv4 F4 E4 Hl4) as (r4 & r4' & -> & Hn4 & P4 & R4 & M4 & L4).
  destruct (slot_restored _ _ _ _ _ _ _ Hle H6 Hv6 F6 E6 Hl6) as (r6 & r6' & -> & Hn6 & P6 & R6 & M6 & L6).
  cbn [invalid_snapshot mbind result_bind].
  exists (mkPool r4' r6' (pool_ttl p)). split.
  - specialize (L4 true (family_mappings V6 v6 t0) r6). cbn in L4.
    specialize (L6 false [] r4'). cbn in L6. rewrite app_nil_r in L6.
    rewrite L4, L6. destruct r4, r6; try done. naive_solver.
  - unfold snapshot. cbn [ipv4 ipv6 pool_ttl]. rewrite P4. cbn [mbind run_bind]. rewrite P6.
    cbn [mbind run_bind]. unfold age. cbn [ipv4_range ipv6_range snap_ttl mappings captured_at].
    rewrite R4, R6, M4, M6. unfold age_mappings. by rewrite omap_app.
Qed.

(** The mapping an allocation leaves behind. *)
Lemma allocate_result (A : Address) {LA : AddressLaws A} s name salt now ttl a d s' :
  fam_inv A s → bounded A s → is_u64 salt → (0 < ttl)%Z →
  allocate_with_ttl A s name salt now ttl = Ret (a, d, s') →
  ∃ n m, forward s' !! name_key name = Some (n, m) ∧ name_key n = name_key name ∧
    address m = a ∧ expires_at m = (now + d)%Z ∧ fam_inv A s' ∧
    start s' = start s ∧ end_ s' = end_ s ∧ (0 < d)%Z ∧
    (d = ttl ∨ ∃ m0, forward s !! name_key name = Some (n, m0) ∧ expires_at m0 = (now + d)%Z).
Proof.
  intros Hs Hb Hsalt Ht E. destruct (decide (now + ttl ≤ instant_max)%Z) as [Hle|Hgt].
  2: { unfold allocate_with_ttl, checked_add in E. by rewrite decide_False in E. }
  destruct (allocate_cases A s name salt now ttl Hs Hb Hsalt Hle)
    as [(n & m & s1 & Hl & E' & Hs' & H1 & H2 & _ & Hf)|(a' & i & s1 & _ & E' & _ & Hfr & Hs' & _)];
    rewrite E' in E; injection E as <- <- <-.
  - exists n. eexists. split; [by rewrite Hf, lookup_insert_eq|].
    apply map_lookup_filter_Some in Hl as [Hk Hlt]. cbn in Hlt.
    split; [by apply (fi_forward _ _ Hs) in Hk as [<- _]|]. cbn.
    split; [done|]. split; [lia|]. split; [done|]. split; [done|]. split; [done|]. split; [lia|].
    right. exists m. split; [done|]. lia.
  - exists name. eexists. split; [apply lookup_insert_eq|]. split; [done|]. split; [done|].
    split; [done|]. split; [done|]. destruct Hfr as (H1 & H2 & _). cbn. auto.
Qed.

(** Looking up the address of a mapping returns its name until it expires. *)
Lemma lookup_mapping (A : Address) {LA : AddressLaws A} s k n m now :
  fam_inv A s → forward s !! k = Some (n, m) →
  ∃ s', lookup_with_ttl s (address m) now =
    Ret (if decide (now < expires_at m)%Z then Some (n, (expires_at m - now)%Z) else None, s').
Proof.
  intros Hs Hk. destruct (lookup_spec A s (address m) now Hs) as (r & s' & E & _ & _ & _ & Hr).
  exists s'. rewrite E. do 2 f_equal. destruct r as [[n1 d1]|].
  - destruct Hr as (m1 & Hl & Ha & -> & Hd & _). apply map_lookup_filter_Some in Hl as [Hl _].
    pose proof (fam_inv_inj A s _ _ _ _ _ _ Hs Hl Hk Ha) as E1. rewrite <-E1, Hl in Hk.
    injection Hk as -> ->. by rewrite decide_True by lia.
  - destruct Hr as [Hr _]. case_decide as Hlt; [|done]. exfalso.
    apply (Hr k n m); [|done]. by apply map_lookup_filter_Some.
Qed.

(** An allocation, then a lookup of its address. *)
Lemma family_allocate_lookup (A : Address) {LA : AddressLaws A} s name salt now ttl a d s' now' :
  fam_inv A s → bounded A s → is_u64 salt → (0 < ttl)%Z → fresh now ttl (Some s) →
  allocate_with_ttl A s name salt now ttl = Ret (a, d, s') →
  contains s a = true ∧ (0 < d ≤ ttl)%Z ∧ ∃ n, n ≡ name ∧ ∃ s'',
    lookup_with_ttl s' a now' =
      Ret (if decide (now' < now + d)%Z then Some (n, (now + d - now')%Z) else None, s'').
Proof.
  intros Hs Hb Hsalt Ht Hfresh Ea.
  destruct (allocate_result A s name salt now ttl a d s' Hs Hb)
    as (n & m & Hk & Hn & Ha & He & Hs' & H1 & H2 & Hd & Hor); [done..|].
  destruct (lookup_mapping A s' _ n m now' Hs' Hk) as [s'' El]. rewrite Ha, He in El.
  assert (Hin : (start s ≤ a ≤ end_ s)%Z).
  { apply (fi_forward _ _ Hs') in Hk as (_ & _ & Hin). by rewrite Ha, H1, H2 in Hin. }
  split; [by apply bool_decide_eq_true|]. split.
  - split; [done|]. destruct Hor as [->|(m0 & Hm0 & He0)]; [done|].
    apply Hfresh in Hm0 as [? _]. lia.
  - exists n. split; [by apply name_equiv_spec|]. eauto.
Qed.

(** ** Properties *)

(** A pool over 198.18.0.0 and 198.18.0.1 with a lifetime of one minute. *)
Definition example_builder : FakeIpPoolBuilder :=
  with_ttl (with_ipv4_range pool_builder 3323068416 3323068417) (from_secs 60).

Definition host (c : Z) : Name := mkName [[c]; [116; 101; 115; 116]]%Z.

(** The pool after [build], or an empty one. *)
Definition example_pool : FakeIpPool :=
  match build example_builder with Ok p => p | Err _ => mkPool None None 0 end.

Lemma example_reachable : reachable example_pool.
Proof.
  apply (reach_build example_builder).
  - cbn. lia.
  - done.
  - cbn. unfold from_secs, nanos_per_sec. intros t [= <-]. lia.
  - vm_compute. reflexivity.
Qed.

(** C9: a pool never breaks. However it was built or restored and used, with
    ranges short of a whole address space and whatever its clock read, no
    operation panics or loops: each returns, or fails because its family is
    not configured or the expiry is past the clock's range. Its names and
    addresses correspond one to one, each address is in the family's range and
    there are never more mappings than addresses. *)
Theorem pool_safe p op now :
  reachable p →
  ((∃ p', pool_apply p op now = Ret p') ∨ (∃ e, pool_apply p op now = Throw e ∧ pool_error e)) ∧
  ∀ s, ipv4 p = Some s ∨ ipv6 p = Some s →
    (∀ k n m, forward s !! k = Some (n, m) → k = name_key n ∧ contains s (address m) = true) ∧
    (∀ k1 k2 n1 n2 m1 m2, forward s !! k1 = Some (n1, m1) → forward s !! k2 = Some (n2, m2) →
       address m1 = address m2 → k1 = k2) ∧
    (∀ a n, reverse s !! a = Some n ↔ ∃ m, forward s !! name_key n = Some (n, m) ∧ address m = a) ∧
    (Z.of_nat (size (forward s)) ≤ end_ s - start s + 1)%Z.
Proof.
  intros Hp%reachable_inv. split.
  { destruct (pool_apply_ok p op now Hp) as [(p' & ? & _)|]; eauto. }
  assert (H : ∀ (A : Address), AddressLaws A → ∀ s, fam_inv A s →
    (∀ k n m, forward s !! k = Some (n, m) → k = name_key n ∧ contains s (address m) = true) ∧
    (∀ k1 k2 n1 n2 m1 m2, forward s !! k1 = Some (n1, m1) → forward s !! k2 = Some (n2, m2) →
       address m1 = address m2 → k1 = k2) ∧
    (∀ a n, reverse s !! a = Some n ↔ ∃ m, forward s !! name_key n = Some (n, m) ∧ address m = a) ∧
    (Z.of_nat (size (forward s)) ≤ end_ s - start s + 1)%Z).
  { intros A LA s Hs. split; [|split; [|split]].
    - intros k n m Hk. destruct (fi_forward _ _ Hs _ _ _ Hk) as (? & _ & ?).
      split; [done|]. by apply bool_decide_eq_true.
    - intros k1 k2 n1 n2 m1 m2 H1 H2. by apply (fam_inv_inj A s k1 k2 n1 m1 n2 m2).
    - intros a n. split; [apply (fi_reverse _ _ Hs)|]. intros (m & Hm & <-).
      by apply (fi_forward _ _ Hs) in Hm as (_ & ? & _).
    - rewrite (fi_size _ _ Hs). by apply (family_size_le A s). }
  destruct Hp as [H4 H6 _]. intros s [E|E]; rewrite E in *.
  - destruct H4. by apply (H address_u32 _).
  - destruct H6. by apply (H address_u128 _).
Qed.

Lemma pool_safe_witness :
  ∃ p', pool_apply example_pool (AllocateV4 (host 97)) 0 = Ret p'.
Proof.
  destruct (proj1 (pool_safe example_pool (AllocateV4 (host 97)) 0 example_reachable))
    as [H|(e & He & _)]; [exact H|]. vm_compute in He. discriminate He.
Defined.

(** allocation and reverse lookup agree. After an IPv4 allocation returned
    an address and a lifetime, the address is in the configured range, the
    lifetime is positive and at most the pool's, looking the address up before
    that lifetime is over returns a name equal to the one asked for with
    exactly the time that is left, and looking it up later returns nothing. *)
Theorem allocate_lookup p name now a d p' now' :
  reachable p → allocate_ipv4_with_ttl p name now = Ret (a, d, p') →
  fresh now (pool_ttl p) (ipv4 p) →
  contains_ipv4 p a = true ∧ (0 < d ≤ pool_ttl p)%Z ∧
  ((now' < now + d)%Z → ∃ n p'', n ≡ name ∧
     lookup_ipv4_with_ttl p' a now' = Ret (Some (n, (now + d - now')%Z), p'')) ∧
  ((now + d ≤ now')%Z → ∃ p'', lookup_ipv4_with_ttl p' a now' = Ret (None, p'')).
Proof.
  intros Hp%reachable_inv E Hfresh. unfold allocate_ipv4_with_ttl in E.
  destruct (ipv4 p) as [s|] eqn:Es; cbn [ok_or lift mbind run_bind] in E; [|done].
  destruct (allocate_with_ttl _ _ _ _ _ _) as [[[a1 d1] s']| | |] eqn:Ea; try done.
  cbn [mbind run_bind] in E. injection E as -> -> <-.
  pose proof (pi_ipv4 p Hp) as Hok. rewrite Es in Hok. destruct Hok as [Hs Hb].
  destruct (family_allocate_lookup address_u32 s name IPV4_HASH_SALT now (pool_ttl p) a d s' now' Hs Hb)
    as (Hc & Hd & n & Hn & s'' & El); [unfold IPV4_HASH_SALT; lia|apply Hp|done|done|].
  unfold contains_ipv4, lookup_ipv4_with_ttl. rewrite Es. cbn [ipv4 set_ipv4]. rewrite El.
  split; [done|]. split; [done|]. split; intros Hlt.
  - rewrite decide_True by done. exists n. by eexists.
  - rewrite decide_False by lia. by eexists.
Qed.

Lemma allocate_lookup_witness :
  ∃ a d p' n p'', allocate_ipv4_with_ttl example_pool (host 97) 5 = Ret (a, d, p') ∧
    n ≡ host 97 ∧ lookup_ipv4_with_ttl p' a 7 = Ret (Some (n, (5 + d - 7)%Z), p'').
Proof.
  do 3 eexists.
  assert (E : allocate_ipv4_with_ttl example_pool (host 97) 5 =
    Ret (3323068417, from_secs 60, match allocate_ipv4_with_ttl example_pool (host 97) 5 with
      | Ret (_, _, p') => p' | _ => example_pool end)%Z) by (vm_compute; reflexivity).
  destruct (allocate_lookup example_pool (host 97) 5 _ _ _ 7 example_reachable E) as (_ & _ & H & _).
  - split; [|vm_compute; reflexivity]. intros k n m Hk. vm_compute in Hk. discriminate Hk.
  - destruct H as (n & p'' & Hn & Hl); [vm_compute; reflexivity|].
    exists n, p''. split; [exact E|]. split; [exact Hn|exact Hl].
Defined.

(** An allocation disturbs as little as it can. A name that has a live
    mapping keeps its address and its expiry, and every other live mapping
    stays. A new name gets the first address no live mapping holds, going
    round the range from a start that depends on the name only up to case; no
    mapping is lost while the range has room, and when it is full exactly one
    is: the one used least recently. *)
Theorem allocate_least_disturbance (A : Address) (LA : AddressLaws A) s name salt now ttl :
  fam_inv A s → bounded A s → rec_inv s → is_u64 salt → (now + ttl ≤ instant_max)%Z →
  ∃ a d s', allocate_with_ttl A s name salt now ttl = Ret (a, d, s') ∧
  match live s now !! name_key name with
  | Some (n, m) => a = address m ∧ (now + d)%Z = expires_at m ∧
      ∀ k, k ≠ name_key name → forward s' !! k = live s now !! k
  | None => d = ttl ∧
      ∃ lost : option key,
        (∀ k, k ≠ name_key name → forward s' !! k = if decide (Some k = lost) then None else live s now !! k) ∧
        match lost with
        | None => (Z.of_nat (size (live s now)) < range_length s)%Z
        | Some v => Z.of_nat (size (live s now)) = range_length s ∧
            ∃ n m, live s now !! v = Some (n, m) ∧
              ∀ k' n' m', live s now !! k' = Some (n', m') → k' ≠ v → (recency m < recency m')%Z
        end ∧
        ∃ i, a = probe_address s (candidate (start s) (end_ s) (fnv1a name salt)) i ∧
          (∀ k n m, live s now !! k = Some (n, m) → Some k ≠ lost → address m ≠ a) ∧
          ∀ j, j < i → ∃ k n m, live s now !! k = Some (n, m) ∧ Some k ≠ lost ∧
            address m = probe_address s (candidate (start s) (end_ s) (fnv1a name salt)) j
  end.
Proof.
  intros Hs Hb Hrec Hsalt Hle.
  destruct (allocate_cases A s name salt now ttl Hs Hb Hsalt Hle)
    as [(n & m & s' & Hl & E & _ & _ & _ & _ & Hf)|
        (a & i & s1 & Hl & E & Hs1 & _ & _ & Ha & _ & Hfree & Hbusy & Hcase)];
    do 3 eexists; (split; [exact E|]); rewrite Hl.
  { split; [done|]. split; [lia|]. intros k Hk. by rewrite Hf, lookup_insert_ne. }
  split; [done|].
  assert (Hnone : ∀ k n m, forward s1 !! k = Some (n, m) → address m ≠ a).
  { intros k n m Hk Heq. apply (fi_forward _ _ Hs1) in Hk as (_ & Hk & _). congruence. }
  assert (Htaken : ∀ j, j < i → ∃ k n m, forward s1 !! k = Some (n, m) ∧
    address m = probe_address s (candidate (start s) (end_ s) (fnv1a name salt)) j).
  { intros j [n Hn]%Hbusy. destruct (fi_reverse _ _ Hs1 _ _ Hn) as (m & Hm & Haj). eauto 10. }
  destruct Hcase as [[Hroom Hf]|(Hfull & v & n & m & Hv & Hf & Hold)].
  - exists None. rewrite Hf in *. split; [|split; [done|]].
    { intros k Hk. rewrite decide_False by done. cbn. by rewrite lookup_insert_ne, Hf. }
    exists i. split; [done|]. split; [eauto|]. intros j Hj.
    destruct (Htaken j Hj) as (k & n & m & Hk & ?). exists k, n, m. done.
  - exists (Some v). split; [|split].
    { intros k Hk. cbn. rewrite lookup_insert_ne, Hf by done. case_decide as Hkv.
      - injection Hkv as ->. apply lookup_delete_eq.
      - rewrite lookup_delete_ne; [done|]. congruence. }
    { split; [done|]. exists n, m. split; [done|]. intros k' n' m' Hk' Hne.
      destruct Hrec as (_ & _ & Hinj). specialize (Hold _ _ _ Hk').
      apply map_lookup_filter_Some in Hv as [Hv _], Hk' as [Hk' _].
      destruct (Z.eq_dec (recency m) (recency m')) as [Heq|]; [|unfold older in Hold; lia].
      exfalso. apply Hne. by eapply Hinj. }
    exists i. split; [done|]. rewrite Hf in Hnone, Htaken. split.
    + intros k n' m' Hk Hkv. apply (Hnone k n'). rewrite lookup_delete_ne; [done|]. congruence.
    + intros j Hj. destruct (Htaken j Hj) as (k & n' & m' & [Hne Hk]%lookup_delete_Some & ?).
      exists k, n', m'. split; [done|]. split; [congruence|done].
Qed.

(** The example pool with both addresses taken. *)
Definition full_pool : FakeIpPool :=
  match pool_apply example_pool (AllocateV4 (host 97)) 0 with
  | Ret p => match pool_apply p (AllocateV4 (host 98)) 1 with Ret p => p | _ => p end
  | _ => example_pool
  end.

Lemma full_pool_reachable : reachable full_pool.
Proof.
  apply (reach_apply (match pool_apply example_pool (AllocateV4 (host 97)) 0 with
    Ret p => p | _ => example_pool end) (AllocateV4 (host 98)) 1).
  - apply (reach_apply example_pool (AllocateV4 (host 97)) 0); [apply example_reachable|].
    vm_compute. reflexivity.
  - vm_compute. reflexivity.
Qed.

Definition full_family : FamilyState :=
  match ipv4 full_pool with Some s => s | None => mkFamily 0 0 ∅ ∅ 0 0 end.

Lemma full_family_rec : rec_inv full_family.
Proof.
  split; [vm_compute; done|].
  assert (H : map_Forall (λ k e, (0 ≤ recency e.2 < next_recency full_family)%Z ∧
    map_Forall (λ k' e', recency e.2 = recency e'.2 → k = k') (forward full_family))
    (forward full_family)) by decide_eval.
  split.
  - intros k n m Hk. by apply H in Hk as [? _].
  - intros k1 k2 n1 n2 m1 m2 H1 H2. apply H in H1 as [_ H1]. by apply H1 in H2.
Qed.

Lemma allocate_least_disturbance_witness :
  ∃ a d s', allocate_with_ttl address_u32 full_family (host 99) IPV4_HASH_SALT 2 (from_secs 60) = Ret (a, d, s') ∧
    d = from_secs 60.
Proof.
  destruct (allocate_least_disturbance address_u32 _ full_family (host 99) IPV4_HASH_SALT 2 (from_secs 60))
    as (a & d & s' & E & H).
  - exact (proj1 (pi_ipv4 _ (reachable_inv _ full_pool_reachable))).
  - exact (proj2 (pi_ipv4 _ (reachable_inv _ full_pool_reachable))).
  - exact full_family_rec.
  - unfold IPV4_HASH_SALT. lia.
  - vm_compute. discriminate.
  - exists a, d, s'. split; [exact E|].
    assert (live full_family 2 !! name_key (host 99) = None) as Hn by (vm_compute; reflexivity).
    rewrite Hn in H. exact (proj1 H).
Defined.

Lemma full_fresh : fresh 3 (pool_ttl full_pool) (ipv4 full_pool).
Proof.
  assert (ipv4 full_pool = Some full_family) as -> by (vm_compute; reflexivity).
  assert (H : map_Forall (λ k e, (expires_at e.2 ≤ 3 + pool_ttl full_pool ∧ expires_at e.2 ≤ instant_max)%Z)
    (forward full_family)) by decide_eval.
  split; [|apply Z.ltb_lt; vm_compute; reflexivity]. intros k n m Hk. exact (H k (n, m) Hk).
Qed.

(** C10: [restore] undoes [snapshot]. A pool restored from a snapshot taken at
    [t0], at any [t1] not before it, reports at [t1] the same ranges, lifetime
    and mappings, in the same order of use, each with its lifetime reduced by
    the time between, less those that expired meanwhile: no mapping lives
    longer for having been restored. *)
Theorem snapshot_restore p t0 t1 snap p0 :
  pool_inv p → subsec_nanos (pool_ttl p) = 0%Z →
  fresh t0 (pool_ttl p) (ipv4 p) → fresh t0 (pool_ttl p) (ipv6 p) → (t0 ≤ t1)%Z →
  (ipv4 p ≠ None ∨ ipv6 p ≠ None) →
  snapshot p t0 = Ret (snap, p0) →
  ∃ p1, restore snap t1 = Ok p1 ∧ snapshot p1 t1 = Ret (age t1 snap, p1).
Proof. intros. by eapply restore_snapshot_age. Qed.

Lemma snapshot_restore_witness :
  ∃ snap p0 p1, snapshot full_pool 3 = Ret (snap, p0) ∧ length (mappings snap) = 2 ∧
    restore snap (from_secs 60) = Ok p1 ∧ snapshot p1 (from_secs 60) = Ret (age (from_secs 60) snap, p1).
Proof.
  pose proof full_fresh as F.
  assert (E : ∃ x, snapshot full_pool 3 = Ret x) by (eexists; vm_compute; reflexivity).
  destruct E as [[snap p0] E]. exists snap, p0.
  destruct (snapshot_restore full_pool 3 (from_secs 60) snap p0 (reachable_inv _ full_pool_reachable)
    eq_refl F I ltac:(vm_compute; discriminate) ltac:(left; vm_compute; discriminate) E) as (p1 & H1 & H2).
  exists p1. split; [exact E|]. split; [|split; [exact H1|exact H2]].
  vm_compute in E. injection E as <- _. reflexivity.
Defined.
