(* ===== verification/CacheConfig.v ===== *)
(** * Answer-cache configuration

    Models [crates/dns-lattice/src/cache/mod.rs]: the TTL bounds and policy, the
    serve-stale, prefetch and failure-cache policies and [CacheConfig] itself.
    Durations are nanoseconds. *)

From stdpp Require Import base numbers list.
From S2P Require Import Prelude CoreError Time.

(** [Ord::clamp] panics when the bounds are the wrong way round. *)
Definition clamp_checked (v min max : Z) : Run Error Z :=
  if decide (max < min)%Z then Panic else Ret (Z.max min (Z.min v max)).

Definition clamp (v min max : Z) : Z := Z.max min (Z.min v max).

(** [whole_seconds] *)
Definition whole_seconds (d : Z) : Z := Z.min (as_secs d) u32_max.

Record TtlBounds : Type := mkBounds { tb_min : Z; tb_max : Z }.

Definition bounds_new (min max : Z) : TtlBounds :=
  let min := whole_seconds min in
  let max := Z.max (whole_seconds max) min in
  mkBounds min max.

Definition bounds_clamp (b : TtlBounds) (ttl : Z) : Run Error Z :=
  clamp_checked ttl (tb_min b) (tb_max b).

Record TtlPolicy : Type := mkTtlPolicy {
  positive : TtlBounds;
  negative : TtlBounds;
  negative_without_soa : option Z;
  stale_window : Z;
}.

(** ** Failure cache *)

Record FailureCache : Type := mkFailureCache { fc_initial : Z; fc_max : Z }.

Definition MIN_FAILURE_TTL : Z := from_secs 1.
Definition MAX_FAILURE_TTL : Z := from_secs 300.
Definition DEFAULT_FAILURE_INITIAL : Z := from_secs 1.
Definition DEFAULT_FAILURE_MAX : Z := from_secs 30.

Definition failure_new : FailureCache := mkFailureCache DEFAULT_FAILURE_INITIAL DEFAULT_FAILURE_MAX.
Definition failure_initial (f : FailureCache) (d : Z) : FailureCache :=
  mkFailureCache (clamp d MIN_FAILURE_TTL MAX_FAILURE_TTL) (fc_max f).
Definition failure_max (f : FailureCache) (d : Z) : FailureCache :=
  mkFailureCache (fc_initial f) (clamp d MIN_FAILURE_TTL MAX_FAILURE_TTL).
Definition first_backoff (f : FailureCache) : Z := fc_initial f.
Definition longest_backoff (f : FailureCache) : Z := Z.max (fc_max f) (fc_initial f).

(** [previous.saturating_mul(2).max(initial).min(longest)] *)
Definition next_backoff (f : FailureCache) (previous : Z) : Z :=
  Z.min (Z.max (Z.min (previous * 2) duration_max) (fc_initial f)) (longest_backoff f).

(** ** Serve stale *)

Record ServeStale : Type := mkServeStale {
  max_stale : Z;
  reply_ttl : Z;
  failure_recheck : Z;
  client_timeout : option Z;
}.

Definition MAX_STALE_WINDOW : Z := from_secs (7 * 86400).
Definition DEFAULT_STALE_WINDOW : Z := from_secs 86400.
Definition DEFAULT_STALE_REPLY_TTL : Z := 30.
Definition DEFAULT_STALE_RECHECK : Z := from_secs 30.
Definition MIN_STALE_RECHECK : Z := from_secs 1.

Definition stale_new : ServeStale :=
  mkServeStale DEFAULT_STALE_WINDOW DEFAULT_STALE_REPLY_TTL DEFAULT_STALE_RECHECK None.
Definition set_max_stale (s : ServeStale) (d : Z) : ServeStale :=
  mkServeStale (Z.min d MAX_STALE_WINDOW) (reply_ttl s) (failure_recheck s) (client_timeout s).
Definition set_reply_ttl (s : ServeStale) (ttl : Z) : ServeStale :=
  mkServeStale (max_stale s) (Z.max (whole_seconds ttl) 1) (failure_recheck s) (client_timeout s).
Definition set_failure_recheck (s : ServeStale) (d : Z) : ServeStale :=
  mkServeStale (max_stale s) (reply_ttl s) (Z.max d MIN_STALE_RECHECK) (client_timeout s).
Definition set_client_timeout (s : ServeStale) (t : option Z) : ServeStale :=
  mkServeStale (max_stale s) (reply_ttl s) (failure_recheck s) t.

(** ** Prefetch *)

Record Prefetch : Type := mkPrefetch { threshold_percent : Z; min_hits : Z }.

Definition MIN_PREFETCH_PERCENT : Z := 1.
Definition MAX_PREFETCH_PERCENT : Z := 50.

Definition prefetch_new : Prefetch := mkPrefetch 10 2.
Definition set_threshold_percent (p : Prefetch) (percent : Z) : Prefetch :=
  mkPrefetch (clamp percent MIN_PREFETCH_PERCENT MAX_PREFETCH_PERCENT) (min_hits p).
Definition set_min_hits (p : Prefetch) (hits : Z) : Prefetch :=
  mkPrefetch (threshold_percent p) hits.

(** ** The configuration *)

Record CacheConfig : Type := mkConfig {
  max_bytes : Z;
  shards : option Z;
  cfg_positive : TtlBounds;
  cfg_negative : TtlBounds;
  cfg_negative_without_soa : option Z;
  coalesce : bool;
  prefetch : option Prefetch;
  serve_stale : option ServeStale;
  failure_cache : option FailureCache;
}.

Definition DEFAULT_MAX_BYTES : Z := 16 * 1024 * 1024.
Definition MIN_SHARDS : Z := 1.
Definition MAX_SHARDS : Z := 1024.

(** [usize::next_power_of_two] *)
Definition next_power_of_two (n : Z) : Z :=
  if decide (n ≤ 1)%Z then 1 else (2 ^ (Z.log2 (n - 1) + 1))%Z.

Definition config_new : CacheConfig :=
  mkConfig DEFAULT_MAX_BYTES None (mkBounds 0 86400) (mkBounds 0 3600) (Some 60%Z) true None None None.
Definition config_max_bytes (c : CacheConfig) (bytes : Z) : CacheConfig :=
  mkConfig bytes (shards c) (cfg_positive c) (cfg_negative c) (cfg_negative_without_soa c)
    (coalesce c) (prefetch c) (serve_stale c) (failure_cache c).
Definition config_disabled : CacheConfig := config_max_bytes config_new 0.
Definition config_shards (c : CacheConfig) (n : Z) : CacheConfig :=
  mkConfig (max_bytes c) (Some (next_power_of_two (clamp n MIN_SHARDS MAX_SHARDS)))
    (cfg_positive c) (cfg_negative c) (cfg_negative_without_soa c)
    (coalesce c) (prefetch c) (serve_stale c) (failure_cache c).
Definition config_positive_ttl (c : CacheConfig) (min max : Z) : CacheConfig :=
  mkConfig (max_bytes c) (shards c) (bounds_new min max) (cfg_negative c)
    (cfg_negative_without_soa c) (coalesce c) (prefetch c) (serve_stale c) (failure_cache c).
Definition config_negative_ttl (c : CacheConfig) (min max : Z) : CacheConfig :=
  mkConfig (max_bytes c) (shards c) (cfg_positive c) (bounds_new min max)
    (cfg_negative_without_soa c) (coalesce c) (prefetch c) (serve_stale c) (failure_cache c).
Definition config_negative_ttl_without_soa (c : CacheConfig) (ttl : option Z) : CacheConfig :=
  mkConfig (max_bytes c) (shards c) (cfg_positive c) (cfg_negative c) (whole_seconds <$> ttl)
    (coalesce c) (prefetch c) (serve_stale c) (failure_cache c).
Definition config_coalesce (c : CacheConfig) (enabled : bool) : CacheConfig :=
  mkConfig (max_bytes c) (shards c) (cfg_positive c) (cfg_negative c) (cfg_negative_without_soa c)
    enabled (prefetch c) (serve_stale c) (failure_cache c).
Definition config_prefetch (c : CacheConfig) (p : option Prefetch) : CacheConfig :=
  mkConfig (max_bytes c) (shards c) (cfg_positive c) (cfg_negative c) (cfg_negative_without_soa c)
    (coalesce c) p (serve_stale c) (failure_cache c).
Definition config_serve_stale (c : CacheConfig) (s : option ServeStale) : CacheConfig :=
  mkConfig (max_bytes c) (shards c) (cfg_positive c) (cfg_negative c) (cfg_negative_without_soa c)
    (coalesce c) (prefetch c) s (failure_cache c).
Definition config_failure_cache (c : CacheConfig) (f : option FailureCache) : CacheConfig :=
  mkConfig (max_bytes c) (shards c) (cfg_positive c) (cfg_negative c) (cfg_negative_without_soa c)
    (coalesce c) (prefetch c) (serve_stale c) f.

Definition store_enabled (c : CacheConfig) : bool := bool_decide (0 < max_bytes c)%Z.

Definition ttl_policy (c : CacheConfig) : TtlPolicy :=
  mkTtlPolicy (cfg_positive c) (cfg_negative c) (cfg_negative_without_soa c)
    (match serve_stale c with Some s => max_stale s | None => 0%Z end).

(** ** Configurations the builders make *)

Definition bounds_ok (b : TtlBounds) : Prop := (0 ≤ tb_min b ≤ tb_max b)%Z ∧ (tb_max b ≤ u32_max)%Z.

Definition failure_ok (f : FailureCache) : Prop :=
  (MIN_FAILURE_TTL ≤ fc_initial f ≤ MAX_FAILURE_TTL)%Z ∧
  (MIN_FAILURE_TTL ≤ fc_max f ≤ MAX_FAILURE_TTL)%Z.

Definition stale_ok (s : ServeStale) : Prop :=
  (0 ≤ max_stale s ≤ MAX_STALE_WINDOW)%Z ∧ (1 ≤ reply_ttl s ≤ u32_max)%Z ∧
  (MIN_STALE_RECHECK ≤ failure_recheck s)%Z.

Definition prefetch_ok (p : Prefetch) : Prop :=
  (MIN_PREFETCH_PERCENT ≤ threshold_percent p ≤ MAX_PREFETCH_PERCENT)%Z.

(** The builder's policies, reached by their setters only. *)
Inductive failure_built : FailureCache → Prop :=
  | fb_new : failure_built failure_new
  | fb_initial f d : failure_built f → (0 ≤ d)%Z → failure_built (failure_initial f d)
  | fb_max f d : failure_built f → (0 ≤ d)%Z → failure_built (failure_max f d).

Inductive stale_built : ServeStale → Prop :=
  | sb_new : stale_built stale_new
  | sb_max s d : stale_built s → (0 ≤ d)%Z → stale_built (set_max_stale s d)
  | sb_ttl s d : stale_built s → (0 ≤ d)%Z → stale_built (set_reply_ttl s d)
  | sb_recheck s d : stale_built s → (0 ≤ d)%Z → stale_built (set_failure_recheck s d)
  | sb_timeout s t : stale_built s → stale_built (set_client_timeout s t).

Inductive prefetch_built : Prefetch → Prop :=
  | pb_new : prefetch_built prefetch_new
  | pb_threshold p n : prefetch_built p → prefetch_built (set_threshold_percent p n)
  | pb_hits p n : prefetch_built p → prefetch_built (set_min_hits p n).

Definition opt_built {T} (P : T → Prop) (o : option T) : Prop :=
  match o with Some x => P x | None => True end.

Inductive config_built : CacheConfig → Prop :=
  | cb_new : config_built config_new
  | cb_bytes c n : config_built c → (0 ≤ n)%Z → config_built (config_max_bytes c n)
  | cb_shards c n : config_built c → config_built (config_shards c n)
  | cb_positive c a b : config_built c → (0 ≤ a)%Z → (0 ≤ b)%Z → config_built (config_positive_ttl c a b)
  | cb_negative c a b : config_built c → (0 ≤ a)%Z → (0 ≤ b)%Z → config_built (config_negative_ttl c a b)
  | cb_without_soa c t : config_built c → opt_built (λ t, 0 ≤ t)%Z t →
      config_built (config_negative_ttl_without_soa c t)
  | cb_coalesce c b : config_built c → config_built (config_coalesce c b)
  | cb_prefetch c p : config_built c → opt_built prefetch_built p → config_built (config_prefetch c p)
  | cb_stale c s : config_built c → opt_built stale_built s → config_built (config_serve_stale c s)
  | cb_failure c f : config_built c → opt_built failure_built f → config_built (config_failure_cache c f).

Record config_ok (c : CacheConfig) : Prop := {
  co_bytes : (0 ≤ max_bytes c)%Z;
  co_shards n : shards c = Some n → (1 ≤ n ≤ 1024)%Z ∧ ∃ k, (0 ≤ k)%Z ∧ n = (2 ^ k)%Z;
  co_positive : bounds_ok (cfg_positive c);
  co_negative : bounds_ok (cfg_negative c);
  co_without_soa : opt_built (λ t, 0 ≤ t ≤ u32_max)%Z (cfg_negative_without_soa c);
  co_prefetch : opt_built prefetch_ok (prefetch c);
  co_stale : opt_built stale_ok (serve_stale c);
  co_failure : opt_built failure_ok (failure_cache c);
}.

Lemma whole_seconds_range d : (0 ≤ d)%Z → (0 ≤ whole_seconds d ≤ u32_max)%Z.
Proof.
  intros Hd. unfold whole_seconds, as_secs, nanos_per_sec.
  pose proof (Z.div_pos d 1000000000). lia.
Qed.

Lemma bounds_new_ok a b : (0 ≤ a)%Z → (0 ≤ b)%Z → bounds_ok (bounds_new a b).
Proof.
  intros Ha%whole_seconds_range Hb%whole_seconds_range. unfold bounds_ok, bounds_new. cbn. lia.
Qed.

Lemma failure_built_ok f : failure_built f → failure_ok f.
Proof.
  unfold failure_ok. induction 1; cbn; unfold clamp, MIN_FAILURE_TTL, MAX_FAILURE_TTL,
    DEFAULT_FAILURE_INITIAL, DEFAULT_FAILURE_MAX, from_secs, nanos_per_sec in *; lia.
Qed.

Lemma stale_built_ok s : stale_built s → stale_ok s.
Proof.
  unfold stale_ok. induction 1 as [|s d _ IH Hd|s d _ IH Hd%whole_seconds_range|s d _ IH Hd|]; cbn;
    unfold MAX_STALE_WINDOW, DEFAULT_STALE_WINDOW, DEFAULT_STALE_REPLY_TTL, DEFAULT_STALE_RECHECK,
    MIN_STALE_RECHECK, from_secs, nanos_per_sec in *; lia.
Qed.

Lemma prefetch_built_ok p : prefetch_built p → prefetch_ok p.
Proof.
  unfold prefetch_ok, MIN_PREFETCH_PERCENT, MAX_PREFETCH_PERCENT.
  induction 1; cbn; unfold clamp, MIN_PREFETCH_PERCENT, MAX_PREFETCH_PERCENT in *; lia.
Qed.

Lemma next_power_of_two_spec n :
  (1 ≤ n)%Z → ∃ k, (0 ≤ k)%Z ∧ next_power_of_two n = (2 ^ k)%Z ∧ (n ≤ 2 ^ k < 2 * n)%Z.
Proof.
  intros Hn. unfold next_power_of_two. case_decide as H1.
  - exists 0%Z. cbn. lia.
  - exists (Z.log2 (n - 1) + 1)%Z. pose proof (Z.log2_nonneg (n - 1)).
    pose proof (Z.log2_spec (n - 1) ltac:(lia)) as [Hlo Hhi].
    rewrite <-Z.add_1_r in Hhi. split; [lia|]. split; [done|].
    rewrite Z.pow_add_r in * by lia. change (2 ^ 1)%Z with 2%Z in *. lia.
Qed.

Lemma config_built_ok c : config_built c → config_ok c.
Proof.
  induction 1 as [|c n _ [] Hn|c n _ []|c a b _ [] Ha Hb|c a b _ [] Ha Hb|c t _ [] Ht|c b _ []|c p _ [] Hp|c s _ [] Hs|c f _ [] Hf];
    split; cbn; try done.
  - intros m [= <-]. unfold MIN_SHARDS, MAX_SHARDS. set (v := clamp n 1 1024).
    assert (Hv : (1 ≤ v ≤ 1024)%Z) by (unfold v, clamp; lia).
    destruct (next_power_of_two_spec v) as (k & Hk & E & Hle); [lia|]. rewrite E. split; [|eauto].
    split; [lia|]. assert (k ≤ 10)%Z; [|by apply (Z.pow_le_mono_r 2 k 10)].
    apply Z.nlt_ge. intros Hgt. pose proof (Z.pow_le_mono_r 2 11 k ltac:(lia) ltac:(lia)) as Hp.
    change (2 ^ 11)%Z with 2048%Z in Hp. lia.
  - by apply bounds_new_ok.
  - by apply bounds_new_ok.
  - destruct t as [t|]; cbn in *; [by apply whole_seconds_range|done].
  - destruct p; cbn in *; [by apply prefetch_built_ok|done].
  - destruct s; cbn in *; [by apply stale_built_ok|done].
  - destruct f; cbn in *; [by apply failure_built_ok|done].
Qed.

(** ** Properties *)

(** every configuration the builders can make is within the documented
    limits: TTL bounds in order (so clamping a TTL into them never panics and
    lands between them), a power-of-two shard count of at most 1024, a
    serve-stale window of at most seven days with a reply TTL of at least one
    second, a prefetch threshold between 1 and 50 percent and failure windows
    between one second and five minutes. *)
Theorem config_limits c :
  config_built c →
  config_ok c ∧
  ∀ ttl, (∃ v, bounds_clamp (cfg_positive c) ttl = Ret v ∧
            (tb_min (cfg_positive c) ≤ v ≤ tb_max (cfg_positive c))%Z) ∧
         (∃ v, bounds_clamp (cfg_negative c) ttl = Ret v ∧
            (tb_min (cfg_negative c) ≤ v ≤ tb_max (cfg_negative c))%Z).
Proof.
  intros Hc%config_built_ok. split; [done|]. destruct Hc as [_ _ [Hp _] [Hn _] _ _ _ _].
  intros ttl. unfold bounds_clamp, clamp_checked. rewrite !decide_False by lia.
  split; eexists; (split; [done|]); lia.
Qed.

Lemma config_limits_witness :
  config_ok (config_serve_stale (config_shards (config_positive_ttl config_new (from_secs 9) (from_secs 2)) 5)
    (Some (set_reply_ttl stale_new 0))).
Proof.
  refine (proj1 (config_limits _ _)).
  apply cb_stale; [|apply sb_ttl; [apply sb_new|lia]]. apply cb_shards.
  apply cb_positive; [apply cb_new|unfold from_secs, nanos_per_sec; lia|unfold from_secs, nanos_per_sec; lia].
Defined.

(** [n] further failures after the first. *)
Fixpoint backoff_after (f : FailureCache) (n : nat) : Z :=
  match n with O => first_backoff f | S n => next_backoff f (backoff_after f n) end.

(** exponential backoff of cached failures. After [n] further failures the
    window is the first one doubled [n] times, cut off at the longest, so it
    never shrinks and stays between one second and five minutes; no doubling
    overflows. *)
Theorem backoff_exponential f n :
  failure_built f →
  backoff_after f n = Z.min (first_backoff f * 2 ^ Z.of_nat n) (longest_backoff f) ∧
  (backoff_after f n ≤ backoff_after f (S n))%Z ∧
  (MIN_FAILURE_TTL ≤ backoff_after f n ≤ MAX_FAILURE_TTL)%Z.
Proof.
  intros Hf%failure_built_ok. destruct Hf as [Hi Hm].
  assert (Hl : (fc_initial f ≤ longest_backoff f ≤ MAX_FAILURE_TTL)%Z)
    by (unfold longest_backoff; lia).
  assert (Hmin : (0 < MIN_FAILURE_TTL)%Z) by (unfold MIN_FAILURE_TTL, from_secs, nanos_per_sec; lia).
  assert (Hmax : (2 * MAX_FAILURE_TTL < duration_max)%Z) by (vm_compute; done).
  assert (H : ∀ n, backoff_after f n = Z.min (first_backoff f * 2 ^ Z.of_nat n) (longest_backoff f)).
  { intros k. induction k as [|k IH]; cbn [backoff_after].
    - unfold first_backoff. change (2 ^ Z.of_nat 0)%Z with 1%Z. lia.
    - rewrite IH. unfold next_backoff, first_backoff. rewrite Nat2Z.inj_succ, Z.pow_succ_r by lia.
      assert (1 ≤ 2 ^ Z.of_nat k)%Z by (pose proof (Z.pow_pos_nonneg 2 (Z.of_nat k)); lia). nia. }
  rewrite !H, Nat2Z.inj_succ, Z.pow_succ_r by lia. unfold first_backoff.
  assert (1 ≤ 2 ^ Z.of_nat n)%Z by (pose proof (Z.pow_pos_nonneg 2 (Z.of_nat n)); lia).
  split; [done|]. split; nia.
Qed.

Lemma backoff_exponential_witness : backoff_after failure_new 3 = from_secs 8.
Proof. rewrite (proj1 (backoff_exponential failure_new 3 fb_new)). reflexivity. Defined.
