(* ===== verification/StoreKey.v ===== *)
(** * Cache keys

    Models [KeyBuf], [wire_name], [in_subtree] and the key accessors of
    [crates/dns-lattice/src/cache/store.rs]. A key is the list of its bytes. *)

From stdpp Require Import base numbers list.
From S2P Require Import Prelude CoreError Name RecordData.

Definition MAX_KEY_LEN : nat := 4 + 2 + 2 + 1 + 255.
Definition KEY_NAME_OFFSET : nat := 9.

Definition type_code (t : RecordType) : Z :=
  match t with
  | TA => 1
  | TNs => 2
  | TCname => 5
  | TSoa => 6
  | TPtr => 12
  | TMx => 15
  | TTxt => 16
  | TAaaa => 28
  | TOther value => value
  end%Z.

Definition class_code (c : Class) : Z :=
  match c with In => 1 | Ch => 3 | COther value => value end%Z.

Definition b2z (b : bool) : Z := if b then 1%Z else 0%Z.

(** The label loop of [KeyBuf::new]; [bytes] is [bytes[..len]]. *)
Fixpoint key_labels (ls : list (list Z)) (bytes : list Z) : option (list Z) :=
  match ls with
  | [] => Some bytes
  | label :: ls =>
      if decide (63 < length label) then None
      else if decide (MAX_KEY_LEN < length bytes + 1 + length label + 1) then None
      else key_labels ls (bytes ++ [Z.of_nat (length label)] ++ map to_ascii_lowercase label)
  end.

(** [KeyBuf::new] and [as_bytes]. *)
Definition key_new (group : Z) (rtype : RecordType) (class : Class)
    (recursion_desired dnssec_ok : bool) (name : Name) : option (list Z) :=
  bytes ← key_labels (labels name)
    (to_be 4 group ++ to_be 2 (type_code rtype) ++ to_be 2 (class_code class) ++
     [Z.lor (b2z recursion_desired) (Z.shiftl (b2z dnssec_ok) 1)]);
  Some (bytes ++ [0%Z]).

Fixpoint wire_labels (ls : list (list Z)) (wire : list Z) : option (list Z) :=
  match ls with
  | [] => Some wire
  | label :: ls =>
      if decide (63 < length label) then None
      else wire_labels ls (wire ++ [Z.of_nat (length label)] ++ map to_ascii_lowercase label)
  end.

Definition wire_name (name : Name) : option (list Z) :=
  wire ← wire_labels (labels name) [];
  let wire := wire ++ [0%Z] in
  if decide (length wire ≤ 255) then Some wire else None.

(** [key.get(KEY_NAME_OFFSET..)] *)
Definition key_name (key : list Z) : option (list Z) :=
  if decide (KEY_NAME_OFFSET ≤ length key) then Some (drop KEY_NAME_OFFSET key) else None.

Definition key_type (key : list Z) : option Z :=
  a ← key !! 4; b ← key !! 5; Some (from_be [a; b]).

(** The loop of [in_subtree]; [rest] is [name[at..]]. Each turn drops at least
    a length byte, so [length name] turns are enough. *)
Fixpoint in_subtree_loop (fuel : nat) (rest zone : list Z) : bool :=
  match fuel, rest with
  | S fuel, label_len :: rest' =>
      if decide (rest = zone) then true
      else if decide (label_len = 0)%Z then false
      else in_subtree_loop fuel (drop (Z.to_nat label_len) rest') zone
  | _, _ => false
  end.

Definition in_subtree (name zone : list Z) : bool := in_subtree_loop (length name) name zone.

(** ** Keys are injective *)

(** The name with its labels case-folded. *)
Definition lower (n : Name) : Name := mkName (lowercased_labels n).

Lemma total_length_lower n : total_length (lower n) = total_length n.
Proof.
  unfold total_length, lower, lowercased_labels. cbn [labels]. f_equal.
  induction (labels n) as [|l ls IH]; cbn; [done|]. by rewrite length_map, IH.
Qed.

Lemma wf_lower n : wf_name n → wf_name (lower n).
Proof.
  intros [Hls Ht]. split; [|by rewrite total_length_lower].
  unfold lower, lowercased_labels. cbn [labels].
  induction Hls as [|l ls [Hl Hb] _ IH]; cbn; [constructor|]. constructor; [|done].
  split; [by rewrite length_map|]. apply Forall_fmap. eapply Forall_impl; [exact Hb|].
  intros b. apply to_ascii_lowercase_u8.
Qed.

Lemma key_labels_wf ls bytes :
  Forall label_ok ls → length bytes + sum_list_with (λ l, length l + 1) ls + 1 ≤ MAX_KEY_LEN →
  key_labels ls bytes = Some (bytes ++ labels_wire (map (map to_ascii_lowercase) ls)).
Proof.
  intros H. revert bytes. unfold labels_wire.
  induction H as [|l ls [Hl _] _ IH]; intros bytes Hlen; cbn [key_labels map concat] in *.
  - by rewrite app_nil_r.
  - cbn [sum_list_with foldr] in Hlen. rewrite decide_False by lia. rewrite decide_False by lia.
    rewrite IH.
    + rewrite length_map, <-!app_assoc. done.
    + rewrite !length_app, length_map. cbn [length]. lia.
Qed.

Definition key_header (group : Z) (t : RecordType) (c : Class) (rd dnssec : bool) : list Z :=
  to_be 4 group ++ to_be 2 (type_code t) ++ to_be 2 (class_code c) ++
  [Z.lor (b2z rd) (Z.shiftl (b2z dnssec) 1)].

Lemma length_key_header g t c rd dn : length (key_header g t c rd dn) = 9.
Proof. unfold key_header. by rewrite !length_app, !length_to_be. Qed.

Lemma key_new_wf g t c rd dn n :
  wf_name n → key_new g t c rd dn n = Some (key_header g t c rd dn ++ name_wire (lower n)).
Proof.
  intros [Hls Ht]. unfold key_new. fold (key_header g t c rd dn).
  rewrite key_labels_wf; [|done|].
  - cbn [mbind option_bind]. by rewrite <-app_assoc.
  - rewrite length_key_header. unfold total_length, MAX_KEY_LEN in *. lia.
Qed.

Lemma wire_labels_wf ls wire :
  Forall label_ok ls →
  wire_labels ls wire = Some (wire ++ labels_wire (map (map to_ascii_lowercase) ls)).
Proof.
  intros H. revert wire. unfold labels_wire.
  induction H as [|l ls [Hl _] _ IH]; intros wire; cbn [wire_labels map concat] in *.
  - by rewrite app_nil_r.
  - rewrite decide_False by lia. rewrite IH, length_map, <-!app_assoc. done.
Qed.

Lemma wire_name_wf n : wf_name n → wire_name n = Some (name_wire (lower n)).
Proof.
  intros Hn. pose proof Hn as [Hls Ht]. unfold wire_name. rewrite wire_labels_wf by done.
  cbn [mbind option_bind app].
  assert (Hw : labels_wire (map (map to_ascii_lowercase) (labels n)) ++ [0%Z] = name_wire (lower n)) by done.
  rewrite Hw, length_name_wire, total_length_lower. by rewrite decide_True.
Qed.

(** The wire form determines a well-formed name: decoding inverts it. *)
Lemma name_wire_inj n m : wf_name n → wf_name m → name_wire n = name_wire m → n = m.
Proof.
  intros Hn Hm E. pose proof (decode_name_wire n [] [] Hn) as Dn.
  pose proof (decode_name_wire m [] [] Hm) as Dm. cbn [app length] in *.
  rewrite E, Dm in Dn. by injection Dn.
Qed.

Lemma lower_equiv n m : lower n = lower m ↔ n ≡ m.
Proof.
  rewrite name_equiv_spec. unfold lower. split; [by intros [= H]|by intros ->].
Qed.

Lemma shape_inj a b c d :
  Z.lor (b2z a) (Z.shiftl (b2z b) 1) = Z.lor (b2z c) (Z.shiftl (b2z d) 1) → a = c ∧ b = d.
Proof. destruct a, b, c, d; cbn; naive_solver. Qed.

Lemma to_be_inj n v w :
  (0 ≤ v < 256 ^ Z.of_nat n)%Z → (0 ≤ w < 256 ^ Z.of_nat n)%Z → to_be n v = to_be n w → v = w.
Proof. intros Hv Hw E. rewrite <-(from_to_be n v Hv), E. by apply from_to_be. Qed.

(** ** Subtrees *)

Lemma drop_label l rest : drop (length (l : list Z)) (l ++ rest) = rest.
Proof. apply drop_app_length. Qed.

Lemma in_subtree_loop_spec fuel ls zone :
  Forall label_ok ls → length ls < fuel → wf_name zone →
  in_subtree_loop fuel (labels_wire ls ++ [0%Z]) (name_wire zone) =
  bool_decide (labels zone `suffix_of` ls).
Proof.
  intros Hls Hf Hz. revert fuel Hf. induction Hls as [|l ls [Hl Hb] Hls IH]; intros fuel Hf;
    (destruct fuel as [|fuel]; [cbn in Hf; lia|]).
  - cbn [labels_wire map concat app in_subtree_loop].
    match goal with |- context [decide (?a = name_wire zone)] =>
      destruct (decide (a = name_wire zone)) as [E|E] end.
    + apply (name_wire_inj root zone wf_root Hz) in E. rewrite <-E. cbn.
      symmetry. apply bool_decide_eq_true. apply suffix_nil.
    + rewrite decide_True by done. symmetry. apply bool_decide_eq_false. intros Hsuf.
      apply suffix_nil_inv in Hsuf. apply E. unfold name_wire. by rewrite Hsuf.
  - unfold labels_wire in *. cbn [map concat app in_subtree_loop]. cbn [length] in Hf.
    match goal with |- context [decide (?a = name_wire zone)] =>
      destruct (decide (a = name_wire zone)) as [E|E] end.
    + symmetry. apply bool_decide_eq_true.
      assert (Heq : concat (map (λ l, Z.of_nat (length l) :: l) (labels zone)) ++ [0%Z] =
        concat (map (λ l, Z.of_nat (length l) :: l) (l :: ls)) ++ [0%Z]) by (cbn; rewrite E; done).
      (* the wire form has length at most 255, so the list is a name *)
      assert (Hw : wf_name (mkName (l :: ls))).
      { split; [by constructor|]. rewrite <-length_name_wire. unfold name_wire, labels_wire. cbn [labels].
        rewrite <-Heq. fold (labels_wire (labels zone)). fold (name_wire zone).
        rewrite length_name_wire. apply Hz. }
      assert (Hn : name_wire zone = name_wire (mkName (l :: ls))) by exact Heq.
      apply name_wire_inj in Hn; [|done|done]. by rewrite Hn.
    + rewrite decide_False by lia. rewrite Nat2Z.id, <-app_assoc, drop_label, IH by lia.
      apply bool_decide_ext. split; intros Hsuf.
      * by apply suffix_cons_r.
      * destruct Hsuf as [[|x k] Hk]; [|injection Hk as _ ->; by exists k].
        exfalso. apply E. unfold name_wire, labels_wire. cbn in Hk. rewrite <-Hk. done.
Qed.

Lemma in_subtree_wire n zone :
  wf_name n → wf_name zone →
  in_subtree (name_wire (lower n)) (name_wire (lower zone)) = ends_with n zone.
Proof.
  intros Hn Hz. unfold in_subtree, name_wire at 2.
  rewrite in_subtree_loop_spec.
  - apply eq_true_iff_eq. rewrite bool_decide_eq_true, ends_with_spec. done.
  - apply (wf_lower n Hn).
  - unfold name_wire. rewrite length_app. cbn [length].
    pose proof (length_labels_wire (labels (lower n))). lia.
  - by apply wf_lower.
Qed.

(** What the store reads back from a key. *)
Lemma key_new_fields g t c rd dn n :
  wf_name n → is_u16 (type_code t) →
  ∃ k, key_new g t c rd dn n = Some k ∧ length k ≤ MAX_KEY_LEN ∧
    key_name k = wire_name n ∧ key_type k = Some (type_code t).
Proof.
  intros Hn Ht. rewrite key_new_wf by done. eexists. split; [done|]. unfold MAX_KEY_LEN. split; [|split].
  - rewrite length_app, length_key_header, length_name_wire, total_length_lower. destruct Hn. lia.
  - unfold key_name, KEY_NAME_OFFSET. rewrite length_app, length_key_header, decide_True by lia.
    rewrite (wire_name_wf n Hn). f_equal.
  - unfold key_type, key_header.
    pose proof (length_to_be 4 g) as L1. pose proof (length_to_be 2 (type_code t)) as L2.
    pose proof (from_to_be 2 (type_code t) ltac:(cbn; lia)) as F.
    destruct (to_be 4 g) as [|? [|? [|? [|? [|]]]]]; try discriminate L1.
    destruct (to_be 2 (type_code t)) as [|a [|b [|]]]; try discriminate L2. cbn in *. by rewrite F.
Qed.

(** ** Properties *)

(** A cache key identifies its query. For well-formed names a key always
    exists, fits its buffer, and two queries have the same key exactly when
    they agree on group, type code, class code, the RD and DO bits, and the
    name up to case: no two different questions can share a key. *)
Theorem key_injective g t c rd dn n g' t' c' rd' dn' n' :
  wf_name n → wf_name n' → is_u32 g → is_u32 g' →
  is_u16 (type_code t) → is_u16 (type_code t') → is_u16 (class_code c) → is_u16 (class_code c') →
  (∃ k, key_new g t c rd dn n = Some k ∧ length k ≤ MAX_KEY_LEN ∧
     key_name k = wire_name n ∧ key_type k = Some (type_code t)) ∧
  (key_new g t c rd dn n = key_new g' t' c' rd' dn' n' ↔
   g = g' ∧ type_code t = type_code t' ∧ class_code c = class_code c' ∧ rd = rd' ∧ dn = dn' ∧ n ≡ n').
Proof.
  intros Hn Hn' Hg Hg' Ht Ht' Hc Hc'. split; [by apply key_new_fields|]. rewrite !key_new_wf by done.
  split.
    + intros E%(inj Some). apply app_inj_1 in E as [Eh En]; [|by rewrite !length_key_header].
      apply name_wire_inj in En; [|by apply wf_lower|by apply wf_lower]. apply lower_equiv in En.
      unfold key_header in Eh.
      apply app_inj_1 in Eh as [E1 Eh]; [|by rewrite !length_to_be].
      apply app_inj_1 in Eh as [E2 Eh]; [|by rewrite !length_to_be].
      apply app_inj_1 in Eh as [E3 Eh]; [|by rewrite !length_to_be].
      injection Eh as E4. apply shape_inj in E4 as [-> ->].
      apply to_be_inj in E1; [|cbn; lia|cbn; lia]. apply to_be_inj in E2; [|cbn; lia|cbn; lia].
      apply to_be_inj in E3; [|cbn; lia|cbn; lia]. done.
    + intros (-> & E2 & E3 & -> & -> & En). apply lower_equiv in En. unfold key_header. by rewrite E2, E3, En.
Qed.

Definition key_name_a : Name := mkName [[65]; [67; 111; 109]]%Z.
Definition key_name_b : Name := mkName [[97]; [99; 79; 77]]%Z.

Lemma key_injective_witness :
  key_new 7 TA In true false key_name_a = key_new 7 (TOther 1) In true false key_name_b.
Proof.
  apply (key_injective 7 TA In true false key_name_a 7 (TOther 1) In true false key_name_b);
    try (cbn; lia).
  - split; [repeat constructor; cbn; lia|cbn; lia].
  - split; [repeat constructor; cbn; lia|cbn; lia].
  - split; [done|]. split; [done|]. split; [done|]. split; [done|]. split; [done|].
    apply name_equiv_eq. reflexivity.
Defined.

(** purging a subtree compares whole labels. On the key forms of
    well-formed names [in_subtree] is [Name::ends_with]: it holds for the zone
    itself and every name below it and for no other name, such as one that
    only ends in the same letters. *)
Theorem in_subtree_ends_with n zone wn wz :
  wf_name n → wf_name zone → wire_name n = Some wn → wire_name zone = Some wz →
  in_subtree wn wz = ends_with n zone.
Proof.
  intros Hn Hz. rewrite !wire_name_wf by done. intros [= <-] [= <-]. by apply in_subtree_wire.
Qed.

Lemma in_subtree_ends_with_witness :
  in_subtree [3; 97; 111; 109; 0]%Z [2; 111; 109; 0]%Z = false.
Proof.
  rewrite (in_subtree_ends_with (mkName [[97; 111; 109]]%Z) (mkName [[111; 109]]%Z));
    [reflexivity| | |reflexivity|reflexivity];
    (split; [repeat constructor; cbn; lia|cbn; lia]).
Defined.
