(* ===== verification/Entry.v ===== *)
(** * Cached answers

    Models [CachedAnswer], its failure state and recheck window, and the cost
    estimate of [crates/dns-lattice/src/cache/store.rs]. An [Arc<CachedAnswer>]
    is shared: its immutable fields are a record and its atomics live in the
    cells its [cells] field names, one set per allocation. The sizes of the
    Rust types, which the compiler chooses, are parameters. *)

From stdpp Require Import base numbers list.
From S2P Require Import Prelude CoreError Name RecordData Edns Header Message Time.

Record FailureState : Type := mkFailure { fs_error : option Error; fs_backoff : Z }.

Record CachedAnswer : Type := mkAnswer {
  ca_message : Message;
  inserted : Z;
  expires : Z;
  stale_until : Z;
  failure : option FailureState;
  cells : nat;
}.

#[export] Instance failure_state_eq_dec : EqDecision FailureState.
Proof. solve_decision. Defined.
#[export] Instance cached_answer_eq_dec : EqDecision CachedAnswer.
Proof. solve_decision. Defined.

(** The atomics of one answer. *)
Record Cells : Type := mkCells { hits : Z; refreshing : bool; recheck_after : Z }.

Definition new_cells : Cells := mkCells 0 false 0.

(** [CachedAnswer::new], with the allocation's cells. *)
Definition answer_new (message : Message) (inserted expires : Z) (cells : nat) : CachedAnswer :=
  mkAnswer message inserted expires expires None cells.

(** [Instant + Duration], which panics past the clock's range. *)
Definition instant_add (t d : Z) : Run Error Z :=
  match checked_add t d with Some t => Ret t | None => Panic end.

Definition retained_for (a : CachedAnswer) (window : Z) : Run Error CachedAnswer :=
  until ← instant_add (expires a) window;
  Ret (mkAnswer (ca_message a) (inserted a) (expires a) until (failure a) (cells a)).

(** [CachedAnswer::failure] *)
Definition answer_failure (message : Message) (error : option Error) (inserted backoff retain : Z)
    (cells : nat) : Run Error CachedAnswer :=
  expires ← instant_add inserted backoff;
  a ← retained_for (answer_new message inserted expires cells) retain;
  Ret (mkAnswer (ca_message a) (Entry.inserted a) (Entry.expires a) (stale_until a)
         (Some (mkFailure error backoff)) (Entry.cells a)).

(** [u64::try_from(nanos).unwrap_or(u64::MAX)] *)
Definition saturate_u64 (n : Z) : Z := Z.min n u64_max.

Definition recheck_pending (a : CachedAnswer) (c : Cells) (now : Z) : bool :=
  let elapsed := saturating_duration_since now (inserted a) in
  bool_decide (recheck_after c ≠ 0)%Z && bool_decide (saturate_u64 elapsed < recheck_after c)%Z.

(** [fetch_max] on the cell. *)
Definition defer_recheck (a : CachedAnswer) (c : Cells) (until : Z) : Cells :=
  let nanos := Z.max (saturate_u64 (saturating_duration_since until (inserted a))) 1 in
  mkCells (hits c) (refreshing c) (Z.max (recheck_after c) nanos).

(** ** Cost *)

(** [size_of] of the types the estimate counts. *)
Record Sizes : Type := mkSizes {
  size_vec : Z;
  size_question : Z;
  size_record : Z;
  size_cached_answer : Z;
  size_option_slot : Z;
}.

Definition sizes_ok (z : Sizes) : Prop :=
  (0 ≤ size_vec z ∧ 0 ≤ size_question z ∧ 0 ≤ size_record z ∧ 0 ≤ size_cached_answer z ∧
   0 ≤ size_option_slot z)%Z.

Definition sum_z {A} (f : A → Z) (l : list A) : Z := foldr (λ x acc, (f x + acc)%Z) 0%Z l.

Definition len_z {A} (l : list A) : Z := Z.of_nat (length l).

Section cost.
Context (z : Sizes).

Definition ENTRY_OVERHEAD : Z := (size_option_slot z + 64)%Z.
Definition ARC_HEADER : Z := 16.

Definition name_heap (n : Name) : Z := sum_z (λ l, size_vec z + len_z l)%Z (labels n).

Definition rdata_heap (r : RData) : Z :=
  match r with
  | A _ | Aaaa _ => 0
  | Cname name | Ptr name | Ns name => name_heap name
  | Txt strings => sum_z (λ s, size_vec z + len_z s) strings
  | Mx _ exchange => name_heap exchange
  | Soa mname rname _ _ _ _ _ => name_heap mname + name_heap rname
  | Unknown _ data => len_z data
  end%Z.

Definition records_heap (rs : list ResourceRecord) : Z :=
  (len_z rs * size_record z + sum_z (λ r, name_heap (rr_name r) + rdata_heap (rr_rdata r)) rs)%Z.

Definition message_heap (m : Message) : Z :=
  (len_z (questions m) * size_question z + sum_z (λ q, name_heap (q_name q)) (questions m) +
   records_heap (answers m) + records_heap (authorities m) + records_heap (additionals m))%Z.

Definition entry_cost (key_len : nat) (a : CachedAnswer) : Z :=
  (ENTRY_OVERHEAD + Z.of_nat key_len + ARC_HEADER + size_cached_answer z +
   message_heap (ca_message a))%Z.

Lemma sum_z_nonneg {A} (f : A → Z) l : (∀ x, 0 ≤ f x)%Z → (0 ≤ sum_z f l)%Z.
Proof. intros H. induction l as [|x l IH]; cbn; [lia|]. specialize (H x). unfold sum_z in *. lia. Qed.

(** An entry always costs more than a remembered hash. *)
Lemma entry_cost_min n a : sizes_ok z → (80 ≤ entry_cost n a)%Z.
Proof.
  intros (H1 & H2 & H3 & H4 & H5).
  assert (Hn : ∀ n, (0 ≤ name_heap n)%Z)
    by (intros m; apply sum_z_nonneg; unfold len_z; lia).
  assert (Hr : ∀ r, (0 ≤ rdata_heap r)%Z).
  { intros r. destruct r as [| | | | |ss|? e|m r ? ? ? ? ?|? d]; cbn; unfold len_z; try lia; try apply Hn.
    - apply sum_z_nonneg. unfold len_z. lia.
    - pose proof (Hn m). pose proof (Hn r). lia. }
  assert (Hrs : ∀ rs, (0 ≤ records_heap rs)%Z).
  { intros rs. unfold records_heap, len_z. assert (0 ≤ sum_z (λ r, name_heap (rr_name r) + rdata_heap (rr_rdata r)) rs)%Z.
    { apply sum_z_nonneg. intros r. pose proof (Hn (rr_name r)). pose proof (Hr (rr_rdata r)). lia. }
    nia. }
  unfold entry_cost, ENTRY_OVERHEAD, ARC_HEADER, message_heap, len_z.
  assert (0 ≤ sum_z (λ q, name_heap (q_name q)) (questions (ca_message a)))%Z
    by (apply sum_z_nonneg; intros q; apply Hn).
  pose proof (Hrs (answers (ca_message a))). pose proof (Hrs (authorities (ca_message a))).
  pose proof (Hrs (additionals (ca_message a))). nia.
Qed.
End cost.

(** ** The recheck window *)

(** While the clock is not before the entry, a deferred entry is pending
    exactly before the latest deferral (to the nanosecond, from the first
    nanosecond after insertion on). *)
Lemma recheck_defer a c until now :
  (0 ≤ recheck_after c)%Z → (inserted a < until)%Z → (inserted a ≤ now)%Z →
  (until - inserted a < u64_max)%Z →
  recheck_pending a (defer_recheck a c until) now =
  (bool_decide (now < until)%Z || recheck_pending a c now).
Proof.
  intros Hc Hu Hn Hmax. unfold recheck_pending, defer_recheck, saturate_u64, saturating_duration_since.
  cbn [recheck_after]. apply eq_true_iff_eq.
  rewrite orb_true_iff, !andb_true_iff, !bool_decide_eq_true. lia.
Qed.
