(* ===== verification/Shard.v ===== *)
(** * One shard of the answer store

    Models [Slot], [List] and [Shard] of
    [crates/dns-lattice/src/cache/store.rs]: a slab of slots threaded by two
    intrusive FIFO lists, a hash map into the slab, an expiry index and a ghost
    ring. Slab indices are [u32]s with [NIL] as the null link; an operation
    panics where a slot index is not live. [usize] byte counts are integers: an
    invariant keeps them non-negative. *)

From stdpp Require Import base numbers list gmap.
From S2P Require Import Prelude CoreError Entry.

Definition MAX_FREQ : Z := 3.
Definition SMALL_PERCENT : Z := 10.
Definition OVERSIZE_DIVISOR : Z := 8.
Definition GHOST_COST : Z := 16.
Definition GHOST_DIVISOR : Z := 128.
Definition NIL : N := 4294967295.

Inductive Queue : Type := Small | Main.

#[export] Instance queue_eq_dec : EqDecision Queue.
Proof. solve_decision. Defined.

Record Slot : Type := mkSlot {
  sl_key : list Z;
  sl_hash : Z;
  sl_entry : CachedAnswer;
  sl_cost : Z;
  sl_expires : Z;
  sl_freq : Z;
  sl_queue : Queue;
  sl_prev : N;
  sl_next : N;
}.

Record FList : Type := mkList { fl_head : N; fl_tail : N; fl_bytes : Z }.

Definition list_new : FList := mkList NIL NIL 0.

Record Counters : Type := mkCounters {
  inserts : Z;
  evictions : Z;
  expirations : Z;
  oversized : Z;
}.

Record Shard : Type := mkShard {
  counters : Counters;
  budget : Z;
  small_target : Z;
  ghost_cap : Z;
  smap : gmap Z N;
  slots : list (option Slot);
  free : list N;
  small : FList;
  main : FList;
  expiry : gset (Z * N);
  ghost : gmap Z Z;
  ghost_order : list (Z * Z);
  ghost_seq : Z;
}.

Definition shard_new (budget : Z) : Shard :=
  mkShard (mkCounters 0 0 0 0) budget (budget / (100 / SMALL_PERCENT)) (budget / GHOST_DIVISOR)
    ∅ [] [] list_new list_new ∅ ∅ [] 0.

(** Field updates. *)
Definition set_counters c s := mkShard c (budget s) (small_target s) (ghost_cap s) (smap s) (slots s)
  (free s) (small s) (main s) (expiry s) (ghost s) (ghost_order s) (ghost_seq s).
Definition set_smap m s := mkShard (counters s) (budget s) (small_target s) (ghost_cap s) m (slots s)
  (free s) (small s) (main s) (expiry s) (ghost s) (ghost_order s) (ghost_seq s).
Definition set_slots l s := mkShard (counters s) (budget s) (small_target s) (ghost_cap s) (smap s) l
  (free s) (small s) (main s) (expiry s) (ghost s) (ghost_order s) (ghost_seq s).
Definition set_free f s := mkShard (counters s) (budget s) (small_target s) (ghost_cap s) (smap s) (slots s)
  f (small s) (main s) (expiry s) (ghost s) (ghost_order s) (ghost_seq s).
Definition set_expiry e s := mkShard (counters s) (budget s) (small_target s) (ghost_cap s) (smap s) (slots s)
  (free s) (small s) (main s) e (ghost s) (ghost_order s) (ghost_seq s).
Definition set_ghost g o q s := mkShard (counters s) (budget s) (small_target s) (ghost_cap s) (smap s) (slots s)
  (free s) (small s) (main s) (expiry s) g o q.

Definition list_of (s : Shard) (q : Queue) : FList :=
  match q with Small => small s | Main => main s end.

(** Writing through [list_mut]. *)
Definition set_list (q : Queue) (l : FList) (s : Shard) : Shard :=
  mkShard (counters s) (budget s) (small_target s) (ghost_cap s) (smap s) (slots s) (free s)
    (match q with Small => l | Main => small s end) (match q with Small => main s | Main => l end)
    (expiry s) (ghost s) (ghost_order s) (ghost_seq s).

Definition count_expiration (s : Shard) : Shard :=
  let c := counters s in
  set_counters (mkCounters (inserts c) (evictions c) (expirations c + 1) (oversized c)) s.
Definition count_eviction (s : Shard) : Shard :=
  let c := counters s in
  set_counters (mkCounters (inserts c) (evictions c + 1) (expirations c) (oversized c)) s.
Definition count_insert (s : Shard) : Shard :=
  let c := counters s in
  set_counters (mkCounters (inserts c + 1) (evictions c) (expirations c) (oversized c)) s.
Definition count_oversized (s : Shard) : Shard :=
  let c := counters s in
  set_counters (mkCounters (inserts c) (evictions c) (expirations c) (oversized c + 1)) s.

Definition total_bytes (s : Shard) : Z :=
  (fl_bytes (small s) + fl_bytes (main s) + Z.of_nat (length (ghost_order s)) * GHOST_COST)%Z.

Definition live_slot (l : list (option Slot)) (i : N) : option Slot :=
  match l !! N.to_nat i with Some (Some sl) => Some sl | _ => None end.

(** [slot] and, with [put], [slot_mut]. *)
Definition slot (s : Shard) (i : N) : Run Error Slot :=
  match live_slot (slots s) i with Some sl => Ret sl | None => Panic end.

Definition put (i : N) (sl : Slot) (s : Shard) : Shard :=
  set_slots (<[N.to_nat i := Some sl]> (slots s)) s.

Definition with_links (sl : Slot) (prev next : N) (q : Queue) : Slot :=
  mkSlot (sl_key sl) (sl_hash sl) (sl_entry sl) (sl_cost sl) (sl_expires sl) (sl_freq sl) q prev next.
Definition with_next (sl : Slot) (next : N) : Slot := with_links sl (sl_prev sl) next (sl_queue sl).
Definition with_prev (sl : Slot) (prev : N) : Slot := with_links sl prev (sl_next sl) (sl_queue sl).
Definition with_freq (sl : Slot) (f : Z) : Slot :=
  mkSlot (sl_key sl) (sl_hash sl) (sl_entry sl) (sl_cost sl) (sl_expires sl) f (sl_queue sl)
    (sl_prev sl) (sl_next sl).

Definition push_back (s : Shard) (index : N) (q : Queue) : Run Error Shard :=
  let tail := fl_tail (list_of s q) in
  sl ← slot s index;
  let s := put index (with_links sl tail NIL q) s in
  s ← (if decide (tail = NIL) then Ret s
       else t ← slot s tail; Ret (put tail (with_next t index) s));
  let l := list_of s q in
  let head := if decide (tail = NIL) then index else fl_head l in
  Ret (set_list q (mkList head index (fl_bytes l + sl_cost sl)) s).

Definition unlink (s : Shard) (index : N) : Run Error Shard :=
  sl ← slot s index;
  let prev := sl_prev sl in
  let next := sl_next sl in
  let q := sl_queue sl in
  s ← (if decide (prev = NIL) then Ret s
       else p ← slot s prev; Ret (put prev (with_next p next) s));
  s ← (if decide (next = NIL) then Ret s
       else n ← slot s next; Ret (put next (with_prev n prev) s));
  let l := list_of s q in
  let head := if decide (fl_head l = index) then next else fl_head l in
  let tail := if decide (fl_tail l = index) then prev else fl_tail l in
  Ret (set_list q (mkList head tail (fl_bytes l - sl_cost sl)) s).

Definition remove_slot (s : Shard) (index : N) : Run Error (Slot * Shard) :=
  s ← unlink s index;
  sl ← slot s index;
  let s := set_slots (<[N.to_nat index := None]> (slots s)) s in
  let s := if decide (smap s !! sl_hash sl = Some index)
           then set_smap (delete (sl_hash sl) (smap s)) s else s in
  let s := set_expiry (expiry s ∖ {[ (sl_expires sl, index) ]}) s in
  let s := set_free (index :: free s) s in
  Ret (sl, s).

(** The inner loop of [push_ghost]; every turn takes one hash off the ring. *)
Fixpoint trim_ghost (cap : Z) (g : gmap Z Z) (order : list (Z * Z)) : gmap Z Z * list (Z * Z) :=
  if decide (cap < Z.of_nat (length order))%Z then
    match order with
    | [] => (g, [])
    | (h, q) :: order =>
        trim_ghost cap (if decide (g !! h = Some q) then delete h g else g) order
    end
  else (g, order).

Definition push_ghost (s : Shard) (hash : Z) : Shard :=
  if decide (ghost_cap s = 0)%Z then s
  else
    let seq := (ghost_seq s + 1)%Z in
    let '(g, order) := trim_ghost (ghost_cap s) (<[hash := seq]> (ghost s))
                         (ghost_order s ++ [(hash, seq)]) in
    set_ghost g order seq s.

Definition get (s : Shard) (hash : Z) (key : list Z) (now : Z) :
    Run Error (option CachedAnswer * Shard) :=
  match smap s !! hash with
  | None => Ret (None, s)
  | Some index =>
      match slots s !! N.to_nat index with
      | None => Panic
      | Some None => Ret (None, s)
      | Some (Some sl) =>
          if decide (sl_key sl ≠ key) then Ret (None, s)
          else if decide (sl_expires sl ≤ now)%Z then
            '(removed, s) ← remove_slot s index;
            let s := count_expiration s in
            let s := if decide (0 < sl_freq removed)%Z then push_ghost s (sl_hash removed) else s in
            Ret (None, s)
          else Ret (Some (sl_entry sl), put index (with_freq sl (Z.min (sl_freq sl + 1) MAX_FREQ)) s)
      end
  end.

Definition forget_failure (s : Shard) (hash : Z) (key : list Z) : Run Error (bool * Shard) :=
  match smap s !! hash with
  | None => Ret (false, s)
  | Some index =>
      sl ← slot s index;
      if decide (sl_key sl ≠ key ∨ failure (sl_entry sl) = None) then Ret (false, s)
      else '(_, s) ← remove_slot s index; Ret (true, s)
  end.

(** One S3-FIFO step. *)
Definition evict_one (s : Shard) : Run Error (bool * Shard) :=
  if decide (small_target s < fl_bytes (small s) ∨ fl_head (main s) = NIL)%Z then
    let index := fl_head (small s) in
    if decide (index = NIL) then Ret (false, s)
    else
      sl ← slot s index;
      if decide (0 < sl_freq sl)%Z then
        s ← unlink s index;
        sl ← slot s index;
        s ← push_back (put index (with_freq sl 0) s) index Main;
        Ret (true, s)
      else
        '(removed, s) ← remove_slot s index;
        Ret (true, push_ghost (count_eviction s) (sl_hash removed))
  else
    let index := fl_head (main s) in
    sl ← slot s index;
    if decide (0 < sl_freq sl)%Z then
      s ← unlink s index;
      sl ← slot s index;
      s ← push_back (put index (with_freq sl (sl_freq sl - 1)) s) index Main;
      Ret (true, s)
    else
      '(_, s) ← remove_slot s index;
      Ret (true, count_eviction s).

(** [BTreeSet::first]: the least pair. *)
Definition pair_le (a b : Z * N) : Prop := (a.1 < b.1)%Z ∨ a.1 = b.1 ∧ (a.2 ≤ b.2)%N.

#[export] Instance pair_le_dec a b : Decision (pair_le a b).
Proof. unfold pair_le. apply _. Defined.

Fixpoint least (l : list (Z * N)) : option (Z * N) :=
  match l with
  | [] => None
  | x :: l =>
      match least l with
      | None => Some x
      | Some y => if decide (pair_le x y) then Some x else Some y
      end
  end.

Definition first (e : gset (Z * N)) : option (Z * N) := least (elements e).

(** The loop of [make_room]. *)
Fixpoint make_room_loop (fuel : nat) (s : Shard) (now : Z) : Run Error Shard :=
  match fuel with
  | O => Hang
  | S fuel =>
      if decide (budget s < total_bytes s)%Z then
        match first (expiry s) with
        | Some (e, index) =>
            if decide (e ≤ now)%Z then
              '(_, s) ← remove_slot s index;
              make_room_loop fuel (count_expiration s) now
            else
              '(more, s) ← evict_one s;
              if more : bool then make_room_loop fuel s now else Ret s
        | None =>
            '(more, s) ← evict_one s;
            if more : bool then make_room_loop fuel s now else Ret s
        end
      else Ret s
  end.

(** Each turn removes a slot or uses up one of its at most four chances, so
    five turns a slot are enough ([make_room_spec]). *)
Definition make_room (s : Shard) (now : Z) : Run Error Shard :=
  make_room_loop (S (5 * length (slots s))) s now.

(** Taking a slot index for a new entry: from the free list or a new one. *)
Definition take_index (s : Shard) (sl : Slot) : N * Shard :=
  match free s with
  | index :: free => (index, put index sl (set_free free s))
  | [] =>
      let n := length (slots s) in
      (if decide (Z.of_nat n ≤ u32_max)%Z then N.of_nat n else NIL,
       set_slots (slots s ++ [Some sl]) s)
  end.

(** [self.slots.pop()] *)
Definition pop_slot (s : Shard) : Shard := set_slots (take (length (slots s) - 1) (slots s)) s.

Definition insert (z : Sizes) (s : Shard) (hash : Z) (key : list Z) (entry : CachedAnswer) (now : Z) :
    Run Error (bool * Shard) :=
  let cost := entry_cost z (length key) entry in
  '(reused, s) ←
    match smap s !! hash with
    | Some old_index =>
        '(old, s) ← remove_slot s old_index;
        Ret (bool_decide (sl_key old = key) &&
             (bool_decide (0 < sl_freq old)%Z || bool_decide (sl_queue old = Main)), s)
    | None => Ret (false, s)
    end;
  if decide (budget s / OVERSIZE_DIVISOR < cost)%Z then Ret (false, count_oversized s)
  else
    let remembered := bool_decide (is_Some (ghost s !! hash)) in
    let s := set_ghost (delete hash (ghost s)) (ghost_order s) (ghost_seq s) s in
    let queue := if reused || remembered then Main else Small in
    let sl := mkSlot key hash entry cost (stale_until entry) 0 queue NIL NIL in
    let '(index, s) := take_index s sl in
    if decide (index = NIL) then Ret (false, pop_slot s)
    else
      let s := set_smap (<[hash := index]> (smap s)) s in
      sl ← slot s index;
      let s := set_expiry ({[ (sl_expires sl, index) ]} ∪ expiry s) s in
      s ← push_back s index queue;
      let s := count_insert s in
      s ← make_room s now;
      Ret (true, s).

Definition clear (s : Shard) : nat * Shard :=
  (size (smap s), set_counters (counters s) (shard_new (budget s))).

Fixpoint remove_each (s : Shard) (ixs : list N) : Run Error Shard :=
  match ixs with
  | [] => Ret s
  | i :: ixs => '(_, s) ← remove_slot s i; remove_each s ixs
  end.

(** The slots of the slab that hold a matching key, in index order. *)
Fixpoint doomed_from (matches : list Z → bool) (i : nat) (l : list (option Slot)) : list N :=
  match l with
  | [] => []
  | Some sl :: l =>
      if matches (sl_key sl) && bool_decide (Z.of_nat i < u32_max)%Z
      then N.of_nat i :: doomed_from matches (S i) l else doomed_from matches (S i) l
  | None :: l => doomed_from matches (S i) l
  end.

Definition remove_matching (s : Shard) (matches : list Z → bool) : Run Error (nat * Shard) :=
  let doomed := doomed_from matches 0 (slots s) in
  s ← remove_each s doomed;
  Ret (length doomed, s).
