(* ===== verification/ShardLists.v ===== *)
(** * The shard's intrusive lists

    The two doubly linked lists threaded through a shard's slab implement two
    disjoint FIFO sequences of slab indices: [push_back] appends, [unlink]
    removes from anywhere, and neither touches anything but links. *)

From stdpp Require Import base numbers list gmap.
From S2P Require Import Prelude CoreError Entry Shard.

Implicit Types (l : list (option Slot)) (L : list N) (q : Queue) (s : Shard).

(** ** Slots *)

Lemma live_slot_lt l i sl : live_slot l i = Some sl → N.to_nat i < length l.
Proof.
  unfold live_slot. intros H. apply lookup_lt_is_Some. destruct (l !! N.to_nat i); [by eexists|done].
Qed.

Lemma live_slot_insert l i j o :
  N.to_nat i < length l →
  live_slot (<[N.to_nat i := o]> l) j = if decide (i = j) then o else live_slot l j.
Proof.
  intros Hi. unfold live_slot. case_decide as Hij.
  - subst j. rewrite list_lookup_insert_eq by done. by destruct o.
  - rewrite list_lookup_insert_ne by lia. done.
Qed.

Lemma live_slot_put l i j sl sl' :
  live_slot l i = Some sl →
  live_slot (<[N.to_nat i := Some sl']> l) j = if decide (i = j) then Some sl' else live_slot l j.
Proof. intros H. apply live_slot_insert. by eapply live_slot_lt. Qed.

Lemma slot_ret s i sl : slot s i = Ret sl ↔ live_slot (slots s) i = Some sl.
Proof. unfold slot. destruct (live_slot _ _); naive_solver. Qed.

(** A slot without its links. *)
Definition strip (sl : Slot) : Slot := with_links sl NIL NIL Small.

(** Slabs that differ in links only. *)
Definition same_core l l' : Prop := map (fmap strip) l' = map (fmap strip) l.

#[export] Instance same_core_equiv : Equivalence same_core.
Proof. split; red; unfold same_core; congruence. Qed.

Lemma same_core_put l i sl sl' :
  live_slot l i = Some sl → strip sl' = strip sl → same_core l (<[N.to_nat i := Some sl']> l).
Proof.
  intros Hi Hs. unfold same_core. change (map ?f ?x) with (f <$> x). rewrite list_fmap_insert.
  apply list_insert_id. rewrite list_lookup_fmap. unfold live_slot in Hi.
  destruct (l !! N.to_nat i) as [[x|]|]; try done. injection Hi as ->. cbn. by rewrite Hs.
Qed.

Lemma same_core_length l l' : same_core l l' → length l' = length l.
Proof. intros H. apply (f_equal length) in H. by rewrite !length_map in H. Qed.

Lemma same_core_slot l l' i :
  same_core l l' → strip <$> live_slot l' i = strip <$> live_slot l i.
Proof.
  intros H. unfold live_slot. apply (f_equal (λ x, x !! N.to_nat i)) in H.
  change (map ?f ?x) with (f <$> x) in H. rewrite !list_lookup_fmap in H.
  destruct (l' !! N.to_nat i) as [[]|], (l !! N.to_nat i) as [[]|]; cbn in *; congruence.
Qed.

Lemma same_core_live l l' i sl :
  same_core l l' → live_slot l i = Some sl → ∃ sl', live_slot l' i = Some sl' ∧ strip sl' = strip sl.
Proof.
  intros H Hi. pose proof (same_core_slot _ _ i H) as E. rewrite Hi in E.
  destruct (live_slot l' i) as [sl'|]; [|done]. exists sl'. split; [done|]. cbn in E. congruence.
Qed.

Lemma strip_cost sl sl' : strip sl = strip sl' → sl_cost sl = sl_cost sl'.
Proof. by intros [= ? ? ? ? ? ?]. Qed.

(** ** Segments *)

(** [L] is linked in [l] by queue [q], after [p] and before [n]. *)
Fixpoint seg l q (p : N) L (n : N) : Prop :=
  match L with
  | [] => True
  | i :: L =>
      (∃ sl, live_slot l i = Some sl ∧ sl_queue sl = q ∧ sl_prev sl = p ∧
         sl_next sl = default n (head L)) ∧ seg l q i L n
  end.

Lemma seg_frame l l' q p L n :
  (∀ i, i ∈ L → live_slot l' i = live_slot l i) → seg l q p L n → seg l' q p L n.
Proof.
  revert p. induction L as [|i L IH]; intros p Hf; cbn; [done|].
  intros [(sl & Hi & H) Hs]. split; [exists sl; split; [|done]; rewrite Hf; [done|by left]|].
  apply IH; [|done]. intros j Hj. apply Hf. by right.
Qed.

Lemma seg_app l q p L1 L2 n :
  seg l q p (L1 ++ L2) n ↔ seg l q p L1 (default n (head L2)) ∧ seg l q (default p (last L1)) L2 n.
Proof.
  revert p. induction L1 as [|i L1 IH]; intros p; [cbn; naive_solver|].
  cbn [app seg]. rewrite IH.
  assert (Hh : default n (head (L1 ++ L2)) = default (default n (head L2)) (head L1)) by by destruct L1.
  assert (Hl : default p (last (i :: L1)) = default i (last L1)).
  { rewrite last_cons. by destruct (last L1). }
  rewrite Hh, Hl. naive_solver.
Qed.

Lemma seg_live l q p L n i : seg l q p L n → i ∈ L → is_Some (live_slot l i).
Proof.
  revert p. induction L as [|j L IH]; intros p H Hi; [by apply not_elem_of_nil in Hi|].
  destruct H as [(sl & Hj & _) H]. apply elem_of_cons in Hi as [->|Hi]; [by exists sl|by eapply IH].
Qed.

(** Relinking the last element of a segment to a new successor. *)
Lemma seg_set_next l q p L t n m sl :
  seg l q p (L ++ [t]) n → t ∉ L → live_slot l t = Some sl →
  seg (<[N.to_nat t := Some (with_next sl m)]> l) q p (L ++ [t]) m.
Proof.
  rewrite !seg_app. cbn. intros [H1 [(sl' & Ht & Hq & Hp & _) _]] Hn Hl.
  rewrite Ht in Hl. injection Hl as ->. split.
  - eapply seg_frame; [|exact H1]. intros i Hi. rewrite (live_slot_put _ _ _ sl) by done.
    rewrite decide_False; [done|]. by intros ->.
  - split; [|done]. exists (with_next sl m). rewrite (live_slot_put _ _ _ sl) by done.
    by rewrite decide_True.
Qed.

(** Relinking the first element to a new predecessor. *)
Lemma seg_set_prev l q p p' h L n sl :
  seg l q p (h :: L) n → h ∉ L → live_slot l h = Some sl →
  seg (<[N.to_nat h := Some (with_prev sl p')]> l) q p' (h :: L) n.
Proof.
  cbn. intros [(sl' & Hh & Hq & _ & Hn) H] Hnin Hl. rewrite Hh in Hl. injection Hl as ->. split.
  - exists (with_prev sl p'). rewrite (live_slot_put _ _ _ sl) by done. by rewrite decide_True.
  - eapply seg_frame; [|exact H]. intros i Hi. rewrite (live_slot_put _ _ _ sl) by done.
    rewrite decide_False; [done|]. by intros ->.
Qed.

(** ** Queues *)

Definition cost_at l (i : N) : Z := match live_slot l i with Some sl => sl_cost sl | None => 0 end.
Definition cost_sum l L : Z := sum_z (cost_at l) L.

Lemma cost_sum_frame l l' L :
  (∀ i, i ∈ L → cost_at l' i = cost_at l i) → cost_sum l' L = cost_sum l L.
Proof.
  unfold cost_sum, sum_z. intros H. induction L as [|i L IH]; cbn; [done|].
  rewrite H by by left. f_equal. apply IH. intros j Hj. apply H. by right.
Qed.

Lemma cost_sum_app l L1 L2 : cost_sum l (L1 ++ L2) = (cost_sum l L1 + cost_sum l L2)%Z.
Proof. unfold cost_sum, sum_z in *. induction L1 as [|i L1 IH]; cbn; [done|]. rewrite IH. lia. Qed.

Lemma cost_at_core l l' i : same_core l l' → cost_at l' i = cost_at l i.
Proof.
  intros H. pose proof (same_core_slot _ _ i H) as E. unfold cost_at.
  destruct (live_slot l' i) as [a|], (live_slot l i) as [b|]; try done.
  apply strip_cost. exact (inj Some _ _ E).
Qed.

(** The list record [fl] represents the sequence [L]. *)
Record queue_inv l q (fl : FList) L : Prop := {
  qi_seg : seg l q NIL L NIL;
  qi_head : fl_head fl = default NIL (head L);
  qi_tail : fl_tail fl = default NIL (last L);
  qi_bytes : fl_bytes fl = cost_sum l L;
}.

Lemma queue_inv_frame l l' q fl L :
  (∀ i, i ∈ L → live_slot l' i = live_slot l i) → queue_inv l q fl L → queue_inv l' q fl L.
Proof.
  intros Hf [H1 H2 H3 H4]. split; [by eapply seg_frame|done|done|].
  rewrite H4. symmetry. apply cost_sum_frame. intros i Hi. unfold cost_at. by rewrite Hf.
Qed.

(** The sequences of both queues. *)
Record lists_inv s (f : Queue → list N) : Prop := {
  li_queue q : queue_inv (slots s) q (list_of s q) (f q);
  li_nodup q : NoDup (f q);
  li_disjoint i q q' : i ∈ f q → i ∈ f q' → q = q';
  li_valid i q : i ∈ f q → i ≠ NIL;
}.

Definition upd (f : Queue → list N) q L : Queue → list N :=
  λ q', if decide (q' = q) then L else f q'.

Lemma lists_inv_frame s s' f :
  lists_inv s f → (∀ q, list_of s' q = list_of s q) →
  (∀ i q, i ∈ f q → live_slot (slots s') i = live_slot (slots s) i) → lists_inv s' f.
Proof.
  intros [H1 H2 H3 H4] Hl Hs. split; [|done..]. intros q. rewrite Hl.
  eapply queue_inv_frame; [|apply H1]. intros i Hi. by eapply Hs.
Qed.

(** A shard without its slab and lists. *)
Definition rest s : Shard := set_slots [] (set_list Small list_new (set_list Main list_new s)).

Definition links_only s s' : Prop := same_core (slots s) (slots s') ∧ rest s' = rest s.

#[export] Instance links_only_trans : Transitive links_only.
Proof. intros a b c [H1 H2] [H3 H4]. split; [by etrans|congruence]. Qed.
#[export] Instance links_only_refl : Reflexive links_only.
Proof. intros a. split; [done|done]. Qed.

Lemma list_of_set_list s q q' fl :
  list_of (set_list q fl s) q' = if decide (q' = q) then fl else list_of s q'.
Proof. by destruct q, q'. Qed.

Lemma set_list_slots s q fl : slots (set_list q fl s) = slots s.
Proof. done. Qed.

Lemma links_only_make s l q fl :
  same_core (slots s) l → links_only s (set_list q fl (set_slots l s)).
Proof. intros H. split; [done|]. by destruct q. Qed.

Lemma last_snoc_eq L : L = [] ∨ ∃ L' t, L = L' ++ [t].
Proof. destruct L as [|t L' _] using rev_ind; [by left|right; eauto]. Qed.

(** Replacing the sequence of one queue, the other queue's slots being
    untouched. *)
Lemma upd_inv s s' f q L :
  lists_inv s f →
  queue_inv (slots s') q (list_of s' q) L →
  (∀ q', q' ≠ q → list_of s' q' = list_of s q' ∧
     ∀ i, i ∈ f q' → live_slot (slots s') i = live_slot (slots s) i) →
  NoDup L → (∀ i, i ∈ L → i ≠ NIL ∧ ∀ q', q' ≠ q → i ∉ f q') →
  lists_inv s' (upd f q L).
Proof.
  intros Hf Hq Ho Hn HL. split; unfold upd.
  - intros q'. destruct (decide (q' = q)) as [->|Hne]; [done|].
    destruct (Ho q' Hne) as [-> Hs]. eapply queue_inv_frame; [done|]. apply Hf.
  - intros q'. destruct (decide (q' = q)); [done|]. apply Hf.
  - intros i q1 q2. destruct (decide (q1 = q)), (decide (q2 = q)); subst; try done.
    + intros Hi Hi2. destruct (HL i Hi) as [_ H]. by apply H in Hi2.
    + intros Hi2 Hi. destruct (HL i Hi) as [_ H]. by apply H in Hi2.
    + by apply (li_disjoint _ _ Hf).
  - intros i q'. destruct (decide (q' = q)); [by intros [Hi _]%HL|]. by eapply li_valid.
Qed.

(** Relinking the last slot of a sequence, if there is one. *)
Lemma relink_last s q L n m :
  seg (slots s) q NIL L n → NoDup L → NIL ∉ L →
  ∃ l', (if decide (default NIL (last L) = NIL) then Ret s
         else t ← slot s (default NIL (last L)); Ret (put (default NIL (last L)) (with_next t m) s))
        = Ret (E:=Error) (set_slots l' s) ∧
    same_core (slots s) l' ∧ seg l' q NIL L m ∧ (∀ j, j ∉ L → live_slot l' j = live_slot (slots s) j).
Proof.
  intros Hseg Hnd Hnil. destruct (last_snoc_eq L) as [->|(L' & t & ->)]; cbn [last].
  - rewrite decide_True by done. exists (slots s). by destruct s.
  - rewrite last_snoc. cbn [from_option id].
    assert (Ht : t ∈ L' ++ [t]) by (apply elem_of_app; right; by left).
    rewrite decide_False by (intros ->; done).
    destruct (seg_live _ _ _ _ _ t Hseg Ht) as [tl Htl].
    rewrite (proj2 (slot_ret s t tl) Htl). cbn [mbind run_bind].
    exists (<[N.to_nat t := Some (with_next tl m)]> (slots s)). split; [done|].
    split; [by apply (same_core_put _ _ tl)|].
    apply NoDup_app in Hnd as (_ & Hnd & _). split.
    + eapply seg_set_next; [done| |done]. intros Hin. apply (Hnd t Hin). by left.
    + intros j Hj. rewrite (live_slot_put _ _ _ tl), decide_False by (done || by intros ->). done.
Qed.

(** Relinking the first slot of a sequence, if there is one. *)
Lemma relink_first s q L p p' :
  seg (slots s) q p L NIL → NoDup L → NIL ∉ L →
  ∃ l', (if decide (default NIL (head L) = NIL) then Ret s
         else n ← slot s (default NIL (head L)); Ret (put (default NIL (head L)) (with_prev n p') s))
        = Ret (E:=Error) (set_slots l' s) ∧
    same_core (slots s) l' ∧ seg l' q p' L NIL ∧ (∀ j, j ∉ L → live_slot l' j = live_slot (slots s) j).
Proof.
  intros Hseg Hnd Hnil. destruct L as [|h L]; cbn [head from_option id].
  - rewrite decide_True by done. exists (slots s). by destruct s.
  - assert (Hh : h ∈ h :: L) by by left. rewrite decide_False by (intros ->; done).
    destruct (seg_live _ _ _ _ _ h Hseg Hh) as [hl Hhl].
    rewrite (proj2 (slot_ret s h hl) Hhl). cbn [mbind run_bind].
    exists (<[N.to_nat h := Some (with_prev hl p')]> (slots s)). split; [done|].
    split; [by apply (same_core_put _ _ hl)|]. apply NoDup_cons in Hnd as [Hnd _]. split.
    + by eapply seg_set_prev.
    + intros j Hj. rewrite (live_slot_put _ _ _ hl), decide_False by (done || by intros ->). done.
Qed.

Lemma lists_not_nil s f q : lists_inv s f → NIL ∉ f q.
Proof. intros H Hin. by apply (li_valid _ _ H _ _ Hin). Qed.

Lemma default_last_nil L : NIL ∉ L → default NIL (last L) = NIL ↔ L = [].
Proof.
  intros H. destruct (last_snoc_eq L) as [->|(L' & t & ->)]; [done|]. rewrite last_snoc. cbn.
  split; [|by destruct L']. intros ->. destruct H. apply elem_of_app. right. by left.
Qed.

(** [push_back] appends a live slot that is in no queue. *)
Lemma push_back_spec s f q i sl :
  lists_inv s f → live_slot (slots s) i = Some sl → (∀ q', i ∉ f q') → i ≠ NIL →
  ∃ s', push_back s i q = Ret s' ∧ lists_inv s' (upd f q (f q ++ [i])) ∧ links_only s s'.
Proof.
  intros Hf Hi Hfresh Hnil. unfold push_back. destruct (li_queue _ _ Hf q) as [Hseg Hh Ht Hb].
  rewrite (proj2 (slot_ret s i sl) Hi). cbn [mbind run_bind]. rewrite Ht.
  set (s1 := put i _ s).
  assert (Hl1 : ∀ j, live_slot (slots s1) j =
    if decide (i = j) then Some (with_links sl (default NIL (last (f q))) NIL q)
    else live_slot (slots s) j) by (intros j; by apply (live_slot_put _ _ _ sl)).
  assert (Hc1 : same_core (slots s) (slots s1)) by by apply (same_core_put _ _ sl).
  destruct (relink_last s1 q (f q) NIL i) as (l2 & -> & Hc2 & Hseg2 & Hfr).
  { eapply seg_frame; [|exact Hseg]. intros j Hj. rewrite Hl1, decide_False; [done|]. intros <-. by eapply Hfresh. }
  { apply Hf. }
  { by eapply lists_not_nil. }
  cbn [mbind run_bind]. assert (Hc : same_core (slots s) l2) by by etrans.
  change (list_of (set_slots l2 s1) q) with (list_of s q).
  eexists. split; [done|]. split; [|exact (links_only_make s l2 q _ Hc)].
  apply (upd_inv s); [done|..]; cbn [slots set_slots set_list].
  - rewrite list_of_set_list, decide_True by done. split; cbn [fl_head fl_tail fl_bytes].
    + apply seg_app. split; [done|]. split; [|done]. eexists. rewrite Hfr by done.
      rewrite Hl1, decide_True by done. done.
    + rewrite Hh. destruct (decide _) as [E|E]; rewrite default_last_nil in E by (by eapply lists_not_nil).
      * by rewrite E.
      * by destruct (f q).
    + by rewrite last_snoc.
    + rewrite Hb, cost_sum_app. f_equal; [apply cost_sum_frame; intros; symmetry; by apply cost_at_core|].
      unfold cost_sum. cbn. rewrite (cost_at_core (slots s) l2 i Hc). unfold cost_at. rewrite Hi. lia.
  - intros q' Hq. rewrite list_of_set_list, decide_False by done. split; [done|].
    intros j Hj. rewrite Hfr by (intros Hj'; apply Hq; by eapply li_disjoint).
    rewrite Hl1, decide_False; [done|]. intros <-. by eapply Hfresh.
  - apply NoDup_app. split; [apply (li_nodup _ _ Hf)|]. split; [|apply NoDup_singleton].
    intros j Hj Hj'. apply list_elem_of_singleton in Hj'. subst. by eapply Hfresh.
  - intros j [Hj| ->%list_elem_of_singleton]%elem_of_app; [|done].
    split; [by eapply li_valid|]. intros q' Hq Hj'. apply Hq. by eapply li_disjoint.
Qed.

(** [unlink] takes a slot out of the middle of its queue. *)
Lemma unlink_spec s f q i L1 L2 :
  lists_inv s f → f q = L1 ++ i :: L2 →
  ∃ s', unlink s i = Ret s' ∧ lists_inv s' (upd f q (L1 ++ L2)) ∧ links_only s s'.
Proof.
  intros Hf HL. unfold unlink. destruct (li_queue _ _ Hf q) as [Hseg Hh Ht Hb].
  pose proof (li_nodup _ _ Hf q) as Hnd. pose proof (lists_not_nil _ _ q Hf) as Hnil.
  rewrite HL in *. apply seg_app in Hseg as [Hs1 [(sl & Hi & Hq & Hp & Hn) Hs2]].
  apply NoDup_app in Hnd as (Hn1 & Hn12 & [Hn0 Hn2]%NoDup_cons).
  apply not_elem_of_app in Hnil as [Hnil1 [Hnili Hnil2]%not_elem_of_cons].
  assert (HiL1 : i ∉ L1) by (intros Hin; apply (Hn12 i Hin); by left).
  rewrite (proj2 (slot_ret s i sl) Hi). cbn [mbind run_bind]. rewrite Hp, Hn.
  destruct (relink_last s q L1 _ (default NIL (head L2)) Hs1) as (l1 & -> & Hc1 & Hs1' & Hfr1); [done..|].
  cbn [mbind run_bind].
  destruct (relink_first (set_slots l1 s) q L2 i (default NIL (last L1))) as (l2 & -> & Hc2 & Hs2' & Hfr2); [|done..|].
  { eapply seg_frame; [|exact Hs2]. intros j Hj. apply Hfr1. intros Hj'. apply (Hn12 j Hj'). by right. }
  cbn [mbind run_bind slots set_slots] in *. assert (Hc : same_core (slots s) l2) by by etrans.
  rewrite Hq. change (list_of _ q) with (list_of s q).
  eexists. split; [done|]. split; [|exact (links_only_make s l2 q _ Hc)].
  apply (upd_inv s); [done|..]; cbn [slots set_slots set_list].
  - rewrite list_of_set_list, decide_True by done. split; cbn [fl_head fl_tail fl_bytes].
    + apply seg_app. split; [|done]. eapply seg_frame; [|exact Hs1'].
      intros j Hj. apply Hfr2. intros Hj'. apply (Hn12 j Hj). by right.
    + rewrite Hh. destruct L1 as [|h L1]; cbn; [by rewrite decide_True|].
      rewrite decide_False; [done|]. intros ->. apply HiL1. by left.
    + rewrite Ht, last_app, last_cons, last_app. destruct (last_snoc_eq L2) as [->|(L2' & t & ->)].
      * cbn. by rewrite decide_True.
      * rewrite last_snoc. cbn. rewrite decide_False; [done|]. intros ->. apply Hn0. apply elem_of_app. right. by left.
    + rewrite Hb, !cost_sum_app. unfold cost_sum at 2, sum_z. cbn [foldr].
      rewrite !(cost_sum_frame (slots s) l2) by (intros; by apply cost_at_core).
      unfold cost_sum, sum_z. unfold cost_at at 2. rewrite Hi. lia.
  - intros q' Hne. rewrite list_of_set_list, decide_False by done. split; [done|].
    intros j Hj. assert (HjL : j ∉ f q) by (intros Hj'; apply Hne; by eapply li_disjoint).
    rewrite HL in HjL. apply not_elem_of_app in HjL as [? [? ?]%not_elem_of_cons].
    rewrite Hfr2, Hfr1 by done. done.
  - apply NoDup_app. split; [done|]. split; [|done]. intros j Hj Hj'. apply (Hn12 j Hj). by right.
  - intros j Hj. assert (Hjq : j ∈ f q).
    { rewrite HL. apply elem_of_app in Hj as [?|?]; apply elem_of_app; [by left|right; by right]. }
    split; [by eapply li_valid|]. intros q' Hne Hj'. apply Hne. by eapply li_disjoint.
Qed.
