(* ===== verification/ShardInv.v ===== *)
(** * The shard's representation invariant

    Every index of a shard describes the same set of live slots: the hash map,
    the expiry index, the free list and the two FIFO queues. [shard_inv] says
    so; the lemmas show that removing a slot, queueing a new one and recording
    a ghost hash keep it. [view] is the map a shard stands for. *)

From stdpp Require Import base numbers list gmap.
From S2P Require Import Prelude CoreError Entry Shard ShardLists.

Implicit Types (l : list (option Slot)) (L : list N) (q : Queue) (s : Shard) (h : Z) (i : N).

(** The slot at an index, less its links. *)
Definition core s i : option Slot := strip <$> live_slot (slots s) i.

Record index_inv s : Prop := {
  ii_map h i : smap s !! h = Some i ↔ ∃ sl, core s i = Some sl ∧ sl_hash sl = h;
  ii_expiry e i : (e, i) ∈ expiry s ↔ ∃ sl, core s i = Some sl ∧ sl_expires sl = e;
  ii_free i : i ∈ free s ↔ N.to_nat i < length (slots s) ∧ core s i = None;
  ii_free_nodup : NoDup (free s);
  ii_len : (Z.of_nat (length (slots s)) ≤ u32_max)%Z;
  ii_slot i sl : core s i = Some sl →
    (80 ≤ sl_cost sl)%Z ∧ (0 ≤ sl_freq sl ≤ MAX_FREQ)%Z ∧ sl_expires sl = stale_until (sl_entry sl);
}.

Record ghost_inv s : Prop := {
  gi_budget : (0 ≤ budget s)%Z;
  gi_target : small_target s = (budget s / 10)%Z;
  gi_cap : ghost_cap s = (budget s / GHOST_DIVISOR)%Z;
  gi_len : (Z.of_nat (length (ghost_order s)) ≤ ghost_cap s)%Z;
  gi_ring h n : ghost s !! h = Some n → (h, n) ∈ ghost_order s;
}.

Record shard_inv s (f : Queue → list N) : Prop := {
  si_lists : lists_inv s f;
  si_queued i sl : core s i = Some sl → ∃ q, i ∈ f q;
  si_index : index_inv s;
  si_ghost : ghost_inv s;
}.

(** The map a shard implements: a hash to the key and the entry stored for it. *)
Definition view s : gmap Z (list Z * CachedAnswer) :=
  omap (λ i, (λ sl, (sl_key sl, sl_entry sl)) <$> core s i) (smap s).

Lemma core_live s i sl : live_slot (slots s) i = Some sl → core s i = Some (strip sl).
Proof. unfold core. by intros ->. Qed.

Lemma core_some s i c : core s i = Some c → ∃ sl, live_slot (slots s) i = Some sl ∧ strip sl = c.
Proof. unfold core. destruct (live_slot _ _); [|done]. intros [= <-]. by eexists. Qed.

Lemma core_insert s i j o :
  N.to_nat i < length (slots s) →
  core (set_slots (<[N.to_nat i := o]> (slots s)) s) j = if decide (i = j) then strip <$> o else core s j.
Proof. intros Hi. unfold core. cbn [slots set_slots]. rewrite live_slot_insert by done. by destruct (decide _). Qed.

Lemma view_spec s h k e :
  index_inv s →
  view s !! h = Some (k, e) ↔ ∃ i sl, core s i = Some sl ∧ sl_hash sl = h ∧ sl_key sl = k ∧ sl_entry sl = e.
Proof.
  intros Hi. unfold view. rewrite lookup_omap. split.
  - destruct (smap s !! h) as [i|] eqn:E; [|done]. cbn. destruct (core s i) as [sl|] eqn:Ec; [|done].
    intros [= <- <-]. apply (ii_map _ Hi) in E as (sl' & Ec' & Hh). rewrite Ec in Ec'. injection Ec' as <-.
    exists i, sl. done.
  - intros (i & sl & Hc & Hh & <- & <-).
    assert (smap s !! h = Some i) as -> by (apply (ii_map _ Hi); eauto). cbn. by rewrite Hc.
Qed.

(** Two live slots never share a hash. *)
Lemma hash_inj s i j sl sl' :
  index_inv s → core s i = Some sl → core s j = Some sl' → sl_hash sl = sl_hash sl' → i = j.
Proof.
  intros Hi H1 H2 Hh. assert (smap s !! sl_hash sl = Some i) as E1 by (apply (ii_map _ Hi); eauto).
  assert (smap s !! sl_hash sl = Some j) as E2 by (apply (ii_map _ Hi); eauto). congruence.
Qed.

(** ** Steps that touch links only *)

Lemma links_only_core s s' i : links_only s s' → core s' i = core s i.
Proof. intros [H _]. by apply same_core_slot. Qed.

Lemma links_only_fields s s' :
  links_only s s' →
  counters s' = counters s ∧ budget s' = budget s ∧ small_target s' = small_target s ∧
  ghost_cap s' = ghost_cap s ∧ smap s' = smap s ∧ free s' = free s ∧ expiry s' = expiry s ∧
  ghost s' = ghost s ∧ ghost_order s' = ghost_order s ∧ ghost_seq s' = ghost_seq s ∧
  length (slots s') = length (slots s).
Proof.
  intros [Hc H]. apply same_core_length in Hc. destruct s, s'. unfold rest in H. cbn in *.
  injection H as -> -> -> -> -> -> -> -> -> ->. done.
Qed.

Lemma links_only_index s s' : links_only s s' → index_inv s → index_inv s'.
Proof.
  intros Hl [H1 H2 H3 H4 H5 H6]. pose proof (λ i, links_only_core _ _ i Hl) as Hc.
  destruct (links_only_fields _ _ Hl) as (_ & _ & _ & _ & Em & Ef & Ee & _ & _ & _ & El).
  split; rewrite ?Em, ?Ef, ?Ee, ?El; intros; rewrite ?Hc in *; auto. by eapply H6.
Qed.

Lemma links_only_ghost s s' : links_only s s' → ghost_inv s → ghost_inv s'.
Proof.
  intros Hl [H1 H2 H3 H4 H5].
  destruct (links_only_fields _ _ Hl) as (_ & Eb & Et & Ec & _ & _ & _ & Eg & Eo & _ & _).
  split; rewrite ?Eb, ?Et, ?Ec, ?Eo, ?Eg; auto.
Qed.

Lemma links_only_view s s' : links_only s s' → view s' = view s.
Proof.
  intros Hl. pose proof (λ i, links_only_core _ _ i Hl) as Hc.
  destruct (links_only_fields _ _ Hl) as (_ & _ & _ & _ & Em & _).
  apply map_eq. intros h. unfold view. rewrite !lookup_omap, Em.
  destruct (smap s !! h) as [i|]; [|done]. cbn. by rewrite Hc.
Qed.

(** ** Removing a slot *)

(** What is left of a slot that was taken out of its queue. *)
Definition drop_slot s i sl : Shard :=
  set_free (i :: free s)
    (set_expiry (expiry s ∖ {[ (sl_expires sl, i) ]})
       (set_smap (delete (sl_hash sl) (smap s)) (set_slots (<[N.to_nat i := None]> (slots s)) s))).

Lemma drop_slot_core s i sl j :
  is_Some (core s i) → core (drop_slot s i sl) j = if decide (i = j) then None else core s j.
Proof.
  intros [c (x & Hx & _)%core_some]. change (core (drop_slot s i sl) j) with
    (core (set_slots (<[N.to_nat i := None]> (slots s)) s) j).
  rewrite core_insert by (by eapply live_slot_lt). by destruct (decide _).
Qed.

Lemma drop_slot_index s i sl :
  index_inv s → core s i = Some sl → index_inv (drop_slot s i sl).
Proof.
  intros Hinv Hi. assert (Hc : ∀ j, core (drop_slot s i sl) j = if decide (i = j) then None else core s j)
    by (intros j; apply drop_slot_core; by eexists).
  assert (Hlt : N.to_nat i < length (slots s))
    by (apply core_some in Hi as (x & Hx & _); by eapply live_slot_lt).
  split; cbn [smap expiry free slots drop_slot set_free set_expiry set_smap set_slots].
  - intros h j. rewrite lookup_delete_Some, (ii_map _ Hinv), Hc. split.
    + intros (Hne & sl' & Hj & Hh). exists sl'. rewrite decide_False by (intros ->; congruence). done.
    + intros (sl' & Hj & Hh). destruct (decide (i = j)) as [|Hne]; [done|]. split; [|eauto].
      intros E. apply Hne. eapply hash_inj; eauto. congruence.
  - intros e j. rewrite elem_of_difference, not_elem_of_singleton, (ii_expiry _ Hinv), Hc. split.
    + intros ((sl' & Hj & He) & Hne). exists sl'. rewrite decide_False by (intros ->; congruence). done.
    + intros (sl' & Hj & He). destruct (decide (i = j)) as [|Hne]; [done|]. split; [eauto|congruence].
  - intros j. rewrite elem_of_cons, (ii_free _ Hinv), length_insert, Hc.
    destruct (decide (i = j)) as [<-|Hne]; naive_solver.
  - apply NoDup_cons. split; [|apply Hinv]. rewrite (ii_free _ Hinv). intros [_ H]. congruence.
  - rewrite length_insert. apply Hinv.
  - intros j sl'. rewrite Hc. destruct (decide (i = j)); [done|]. apply Hinv.
Qed.

Lemma drop_slot_view s i sl :
  index_inv s → core s i = Some sl → view (drop_slot s i sl) = delete (sl_hash sl) (view s).
Proof.
  intros Hinv Hi. apply map_eq. intros h. unfold view. rewrite lookup_delete, !lookup_omap.
  cbn [smap drop_slot set_free set_expiry set_smap]. rewrite lookup_delete.
  destruct (decide (sl_hash sl = h)) as [|Hne]; [done|].
  destruct (smap s !! h) as [j|] eqn:E; [|done]. cbn. rewrite drop_slot_core by by eexists.
  rewrite decide_False; [done|]. intros ->.
  apply (ii_map _ Hinv) in E as (sl' & ? & ?). congruence.
Qed.

(** The sum of both queues' bytes. *)
Definition queue_bytes s : Z := (fl_bytes (small s) + fl_bytes (main s))%Z.

Lemma queue_bytes_sum s f :
  lists_inv s f → queue_bytes s = (cost_sum (slots s) (f Small) + cost_sum (slots s) (f Main))%Z.
Proof.
  intros H. unfold queue_bytes.
  pose proof (qi_bytes _ _ _ _ (li_queue _ _ H Small)) as E1.
  pose proof (qi_bytes _ _ _ _ (li_queue _ _ H Main)) as E2. cbn in E1, E2. lia.
Qed.

Lemma cost_sum_core s s' L :
  (∀ i, i ∈ L → core s' i = core s i) → cost_sum (slots s') L = cost_sum (slots s) L.
Proof.
  intros H. apply cost_sum_frame. intros i Hi. specialize (H i Hi). unfold core, cost_at in *.
  destruct (live_slot (slots s') i) as [a|], (live_slot (slots s) i) as [b|]; try done.
  apply strip_cost. exact (inj Some _ _ H).
Qed.

Lemma cost_sum_cons l i L : cost_sum l (i :: L) = (cost_at l i + cost_sum l L)%Z.
Proof. done. Qed.

Lemma cost_at_slot s i sl : core s i = Some sl → cost_at (slots s) i = sl_cost sl.
Proof. intros (x & Hx & <-)%core_some. unfold cost_at. by rewrite Hx. Qed.

Lemma upd_eq f q L : upd f q L q = L.
Proof. unfold upd. by rewrite decide_True. Qed.

Lemma upd_ne f q q' L : q' ≠ q → upd f q L q' = f q'.
Proof. intros. unfold upd. by rewrite decide_False. Qed.

Lemma upd_elem f q L1 L2 i j q' :
  f q = L1 ++ i :: L2 → j ∈ upd f q (L1 ++ L2) q' → j ∈ f q'.
Proof.
  intros Hf. unfold upd. destruct (decide (q' = q)) as [->|]; [|done]. rewrite Hf, !elem_of_app, elem_of_cons.
  tauto.
Qed.

(** A queue's sequence without an element, and that the element is gone. *)
Lemma upd_removed s f q L1 L2 i q' :
  lists_inv s f → f q = L1 ++ i :: L2 → i ∉ upd f q (L1 ++ L2) q'.
Proof.
  intros Hf HL. pose proof (li_nodup _ _ Hf q) as Hnd. rewrite HL in Hnd.
  apply NoDup_app in Hnd as (_ & H12 & [H2 _]%NoDup_cons).
  unfold upd. destruct (decide (q' = q)) as [->|Hne].
  - rewrite elem_of_app. intros [H|H]; [|done]. apply (H12 i H). by left.
  - intros Hi. apply Hne. eapply li_disjoint; [done..|]. rewrite HL. apply elem_of_app. right. by left.
Qed.

Lemma unlink_bytes s s' f q L1 L2 i :
  lists_inv s f → f q = L1 ++ i :: L2 → links_only s s' → lists_inv s' (upd f q (L1 ++ L2)) →
  queue_bytes s' = (queue_bytes s - cost_at (slots s) i)%Z.
Proof.
  intros Hf HL Hl Hf'. rewrite (queue_bytes_sum _ _ Hf), (queue_bytes_sum _ _ Hf').
  rewrite !(cost_sum_core s s') by (intros; by apply links_only_core).
  destruct q; rewrite upd_eq, upd_ne by done; rewrite HL, !cost_sum_app, cost_sum_cons; lia.
Qed.

(** [remove_slot] on a live slot never panics and takes it out of every
    index. *)
Record removed s i sl s' : Prop := {
  rm_core j : core s' j = if decide (i = j) then None else core s j;
  rm_view : view s' = delete (sl_hash sl) (view s);
  rm_bytes : queue_bytes s' = (queue_bytes s - sl_cost sl)%Z;
  rm_counters : counters s' = counters s;
  rm_budget : budget s' = budget s;
  rm_target : small_target s' = small_target s;
  rm_ghost : ghost s' = ghost s ∧ ghost_order s' = ghost_order s ∧ ghost_seq s' = ghost_seq s;
  rm_length : length (slots s') = length (slots s);
  rm_map h : smap s' !! h = if decide (h = sl_hash sl) then None else smap s !! h;
}.

Lemma remove_slot_spec s f i sl :
  shard_inv s f → core s i = Some sl →
  ∃ q L1 L2 sl' s', f q = L1 ++ i :: L2 ∧ remove_slot s i = Ret (sl', s') ∧ strip sl' = sl ∧
    shard_inv s' (upd f q (L1 ++ L2)) ∧ removed s i sl s'.
Proof.
  intros [Hf Hq Hx Hg] Hi. destruct (Hq i sl Hi) as [q Hin].
  destruct (list_elem_of_split _ _ Hin) as (L1 & L2 & HL).
  destruct (unlink_spec s f q i L1 L2 Hf HL) as (s1 & E1 & Hf1 & Hl1).
  assert (Hc1 : ∀ j, core s1 j = core s j) by (intros; by apply links_only_core).
  destruct (core_some s1 i sl) as (sl' & Hsl' & Hs); [by rewrite Hc1|].
  assert (Hh : sl_hash sl' = sl_hash sl ∧ sl_expires sl' = sl_expires sl) by (by rewrite <-Hs).
  assert (Hx1 : index_inv s1) by by eapply links_only_index.
  assert (Hc1i : core s1 i = Some sl) by by rewrite Hc1.
  assert (Hm : smap s1 !! sl_hash sl = Some i) by (apply (ii_map _ Hx1); eauto).
  exists q, L1, L2, sl', (drop_slot s1 i sl). split; [done|].
  destruct (links_only_fields _ _ Hl1) as (E2 & E3 & E4 & E5 & E6 & E7 & E8 & E9 & E10 & E11 & E12).
  assert (Hcd : ∀ j, core (drop_slot s1 i sl) j = if decide (i = j) then None else core s j).
  { intros j. rewrite drop_slot_core by by eexists. by rewrite Hc1. }
  split; [|split; [done|split]].
  - unfold remove_slot. rewrite E1. cbn [mbind run_bind].
    rewrite (proj2 (slot_ret s1 i sl') Hsl'). cbn [mbind run_bind].
    destruct Hh as [-> ->]. rewrite decide_True by done. done.
  - split.
    + eapply lists_inv_frame; [exact Hf1|done|].
      intros j q' Hj. unfold drop_slot. cbn [slots set_free set_expiry set_smap set_slots].
      rewrite (live_slot_insert _ _ _ _), decide_False; [done| |by eapply live_slot_lt].
      intros <-. by apply (upd_removed s f q L1 L2 i q' Hf HL).
    + intros j c. rewrite Hcd. destruct (decide (i = j)) as [|Hne]; [done|]. intros Hj.
      destruct (Hq j c Hj) as [q' Hj']. exists q'. unfold upd. destruct (decide (q' = q)) as [->|]; [|done].
      rewrite HL in Hj'. apply elem_of_app in Hj' as [?|[->|?]%elem_of_cons]; apply elem_of_app; tauto.
    + by apply drop_slot_index.
    + eapply (links_only_ghost _ s1) in Hg; [|done]. destruct Hg. by split.
  - split; cbn [counters budget small_target ghost ghost_order ghost_seq slots smap drop_slot set_free set_expiry set_smap set_slots];
      rewrite ?E2, ?E3, ?E4, ?E9, ?E10, ?E11, ?E6; try done.
    + rewrite drop_slot_view by done. by rewrite (links_only_view _ _ Hl1).
    + change (queue_bytes (drop_slot s1 i sl)) with (queue_bytes s1).
      rewrite (unlink_bytes _ _ _ _ _ _ _ Hf HL Hl1 Hf1). by rewrite (cost_at_slot s i sl).
    + by rewrite length_insert.
    + intros h. rewrite lookup_delete. destruct (decide (sl_hash sl = h)), (decide (h = sl_hash sl)); congruence.
Qed.

(** ** Changing a slot's frequency *)

(** [s'] is [s] but for slot [i]'s frequency, the links and the queues. *)
Record refreq s i (sl : Slot) (n : Z) s' : Prop := {
  rf_core j : core s' j = if decide (i = j) then Some (with_freq sl n) else core s j;
  rf_bytes : queue_bytes s' = queue_bytes s;
  rf_counters : counters s' = counters s;
  rf_budget : budget s' = budget s ∧ small_target s' = small_target s ∧ ghost_cap s' = ghost_cap s;
  rf_map : smap s' = smap s;
  rf_expiry : expiry s' = expiry s;
  rf_free : free s' = free s;
  rf_ghost : ghost s' = ghost s ∧ ghost_order s' = ghost_order s ∧ ghost_seq s' = ghost_seq s;
  rf_length : length (slots s') = length (slots s);
}.

Lemma refreq_index s i sl n s' :
  refreq s i sl n s' → core s i = Some sl → (0 ≤ n ≤ MAX_FREQ)%Z → index_inv s → index_inv s'.
Proof.
  intros [Hc _ _ _ Em Ee Ef _ El] Hi Hn [H1 H2 H3 H4 H5 H6].
  split; rewrite ?Em, ?Ee, ?Ef, ?El; try done; intros; rewrite ?H1, ?H2, ?H3, Hc in *;
    destruct (decide (i = _)) as [<-|]; rewrite ?Hi in *; naive_solver.
Qed.

Lemma refreq_ghost s i sl n s' : refreq s i sl n s' → ghost_inv s → ghost_inv s'.
Proof.
  intros [_ _ _ (Eb & Et & Ec) _ _ _ (Eg & Eo & Es) _] [H1 H2 H3 H4 H5].
  split; rewrite ?Eb, ?Et, ?Ec, ?Eg, ?Eo; done.
Qed.

Lemma refreq_view s i sl n s' : refreq s i sl n s' → core s i = Some sl → view s' = view s.
Proof.
  intros H Hi. apply map_eq. intros h. unfold view. rewrite !lookup_omap, (rf_map _ _ _ _ _ H).
  destruct (smap s !! h) as [j|]; [|done]. cbn. rewrite (rf_core _ _ _ _ _ H).
  destruct (decide (i = j)) as [<-|]; [|done]. by rewrite Hi.
Qed.

Lemma refreq_put s i sl x n :
  live_slot (slots s) i = Some x → strip x = sl →
  refreq s i sl n (put i (with_freq x n) s).
Proof.
  intros Hi <-. unfold put. split; try done.
  - intros j. rewrite core_insert by (by eapply live_slot_lt). by destruct (decide _).
  - cbn. by rewrite length_insert.
Qed.

(** Changing a frequency in place keeps the queues. *)
Lemma seg_freq l q p L m i x n :
  live_slot l i = Some x → seg l q p L m → seg (<[N.to_nat i := Some (with_freq x n)]> l) q p L m.
Proof.
  intros Hi. revert p. induction L as [|j L IH]; intros p; cbn [seg]; [done|].
  intros [(sl & Hj & Hs) Hr]. split; [|by apply IH]. rewrite (live_slot_put _ _ _ x) by done.
  destruct (decide (i = j)) as [<-|]; [|by exists sl].
  rewrite Hi in Hj. injection Hj as ->. by exists (with_freq sl n).
Qed.

Lemma lists_inv_freq s f i x n :
  lists_inv s f → live_slot (slots s) i = Some x → lists_inv (put i (with_freq x n) s) f.
Proof.
  intros [H1 H2 H3 H4] Hi. split; [|done..]. intros q.
  destruct (H1 q) as [Hs Hh Ht Hb]. split; [by apply seg_freq|by destruct q..|].
  transitivity (fl_bytes (list_of s q)); [by destruct q|].
  rewrite Hb. symmetry. apply cost_sum_frame. intros j _. unfold cost_at, put. cbn [slots set_slots].
  rewrite (live_slot_put _ _ _ x) by done. destruct (decide (i = j)) as [<-|]; [by rewrite Hi|done].
Qed.

(** A slot's second chance: out of its queue, a new frequency, and to the back
    of [Main]. *)
Definition requeue s i (f : Slot → Z) : Run Error Shard :=
  s ← unlink s i;
  sl ← slot s i;
  push_back (put i (with_freq sl (f sl)) s) i Main.

Lemma push_back_bytes s s' f q i :
  lists_inv s f → links_only s s' → lists_inv s' (upd f q (f q ++ [i])) →
  queue_bytes s' = (queue_bytes s + cost_at (slots s) i)%Z.
Proof.
  intros Hf Hl Hf'. rewrite (queue_bytes_sum _ _ Hf), (queue_bytes_sum _ _ Hf').
  rewrite !(cost_sum_core s s') by (intros; by apply links_only_core).
  destruct q; rewrite upd_eq, upd_ne by done; rewrite !cost_sum_app, cost_sum_cons; cbn; lia.
Qed.

Lemma refreq_links s s1 s2 s3 i sl n :
  links_only s s1 → refreq s1 i sl n s2 → links_only s2 s3 → queue_bytes s3 = queue_bytes s →
  refreq s i sl n s3.
Proof.
  intros H1 H2 H3 Hb.
  pose proof (λ i, links_only_core _ _ i H1) as C1. pose proof (λ i, links_only_core _ _ i H3) as C3.
  destruct (links_only_fields _ _ H1) as (? & ? & ? & ? & ? & ? & ? & ? & ? & ? & ?).
  destruct (links_only_fields _ _ H3) as (? & ? & ? & ? & ? & ? & ? & ? & ? & ? & ?).
  destruct H2 as [C2 _ ? (? & ? & ?) ? ? ? (? & ? & ?) ?].
  split; try congruence; try (split_and!; congruence). intros j. rewrite C3, C2. by rewrite C1.
Qed.

Lemma requeue_spec s f i sl q L1 L2 g n :
  shard_inv s f → f q = L1 ++ i :: L2 → core s i = Some sl →
  (∀ x, strip x = sl → g x = n) → (0 ≤ n ≤ MAX_FREQ)%Z →
  let f1 := upd f q (L1 ++ L2) in
  ∃ s', requeue s i g = Ret s' ∧ refreq s i sl n s' ∧ shard_inv s' (upd f1 Main (f1 Main ++ [i])).
Proof.
  intros [Hf Hq Hx Hg] HL Hi Hgn Hn f1. unfold requeue.
  destruct (unlink_spec s f q i L1 L2 Hf HL) as (s1 & -> & Hf1 & Hl1). cbn [mbind run_bind].
  destruct (core_some s1 i sl) as (x & Hx1 & Hsx); [by rewrite (links_only_core s)|].
  rewrite (proj2 (slot_ret s1 i x) Hx1). cbn [mbind run_bind]. rewrite (Hgn x Hsx).
  set (s2 := put i (with_freq x n) s1).
  assert (Hr : refreq s1 i sl n s2) by by apply refreq_put.
  assert (Hf2 : lists_inv s2 f1) by by apply lists_inv_freq.
  assert (Hi2 : live_slot (slots s2) i = Some (with_freq x n)).
  { unfold s2, put. cbn [slots set_slots]. by rewrite (live_slot_put _ _ _ x), decide_True. }
  destruct (push_back_spec s2 f1 Main i _ Hf2 Hi2) as (s3 & E3 & Hf3 & Hl3).
  { intros q'. by apply (upd_removed s f q L1 L2 i q' Hf HL). }
  { apply (li_valid _ _ Hf i q). rewrite HL. apply elem_of_app. right. by left. }
  assert (Hr3 : refreq s i sl n s3).
  { apply (refreq_links s s1 s2 s3); [done..|].
    rewrite (push_back_bytes _ _ _ _ _ Hf2 Hl3 Hf3), (rf_bytes _ _ _ _ _ Hr).
    rewrite (unlink_bytes _ _ _ _ _ _ _ Hf HL Hl1 Hf1), (cost_at_slot s i sl) by done.
    rewrite (cost_at_slot s2 i (with_freq sl n)); [cbn; lia|].
    by rewrite (rf_core _ _ _ _ _ Hr), decide_True. }
  exists s3. split; [done|]. split; [done|]. split; [done| |by eapply refreq_index|by eapply refreq_ghost].
  intros j c. rewrite (rf_core _ _ _ _ _ Hr3). destruct (decide (i = j)) as [<-|Hne].
  - intros _. exists Main. rewrite upd_eq. apply elem_of_app. right. by left.
  - intros Hj. destruct (Hq j c Hj) as [q' Hj'].
    assert (Hj1 : j ∈ f1 q').
    { unfold f1, upd. destruct (decide (q' = q)) as [->|]; [|done]. rewrite HL in Hj'.
      apply elem_of_app in Hj' as [?|[->|?]%elem_of_cons]; apply elem_of_app; tauto. }
    exists q'. unfold upd at 1. destruct (decide (q' = Main)) as [->|]; [|done]. apply elem_of_app. by left.
Qed.

(** ** The ghost ring *)

Lemma trim_ghost_spec cap g order g' order' :
  (0 ≤ cap)%Z → (∀ h n, g !! h = Some n → (h, n) ∈ order) → trim_ghost cap g order = (g', order') →
  (∀ h n, g' !! h = Some n → (h, n) ∈ order') ∧ (Z.of_nat (length order') ≤ cap)%Z ∧
  length order' ≤ length order.
Proof.
  intros Hcap. revert g. induction order as [|[h m] order IH]; intros g Hg; cbn.
  - rewrite decide_False by lia. intros [= <- <-]. split; [done|]. cbn. lia.
  - destruct (decide _) as [Hlt|]; [|intros [= <- <-]; cbn; split; [done|lia]].
    intros E. apply IH in E as (H1 & H2 & H3); [split_and!; [done|done|lia]|].
    intros h' n Hn. destruct (decide (g !! h = Some m)) as [Hm|Hm].
    + apply lookup_delete_Some in Hn as [Hne Hn]. apply Hg, elem_of_cons in Hn as [[= -> ->]|]; done.
    + pose proof (Hg _ _ Hn) as [[= -> ->]|]%elem_of_cons; done.
Qed.

Lemma push_ghost_spec s f h :
  shard_inv s f →
  shard_inv (push_ghost s h) f ∧ (∀ i, core (push_ghost s h) i = core s i) ∧
  smap (push_ghost s h) = smap s ∧ queue_bytes (push_ghost s h) = queue_bytes s ∧
  length (ghost_order (push_ghost s h)) ≤ S (length (ghost_order s)) ∧
  budget (push_ghost s h) = budget s ∧ small_target (push_ghost s h) = small_target s ∧
  counters (push_ghost s h) = counters s ∧ slots (push_ghost s h) = slots s.
Proof.
  intros [Hf Hq [I1 I2 I3 I4 I5 I6] [H1 H2 H3 H4 H5]]. unfold push_ghost.
  assert (0 ≤ ghost_cap s)%Z by (rewrite H3; unfold GHOST_DIVISOR; apply Z.div_pos; lia).
  destruct (decide (ghost_cap s = 0)%Z); [split_and!; try done; try lia; by split|].
  destruct (trim_ghost _ _ _) as [g' o'] eqn:E.
  apply trim_ghost_spec in E as (G1 & G2 & G3); [|done|].
  - rewrite length_app in G3. cbn in G3. split_and!; try done; [|cbn; lia].
    split; [by eapply lists_inv_frame|done|by split|]. by split.
  - intros h' m [[-> <-]|[Hne Hn]]%lookup_insert_Some; apply elem_of_app; [right; by left|left; auto].
Qed.
