(* ===== verification/ShardEvict.v ===== *)
(** * Eviction

    [make_room] terminates within its fuel, never panics and ends within the
    budget: every turn takes a slot out of the shard or uses up one of its
    chances, and the weight of a slot counts the chances it has left. *)

From stdpp Require Import base numbers list gmap.
From S2P Require Import Prelude CoreError Entry Shard ShardLists ShardInv.

Implicit Types (l : list (option Slot)) (L : list N) (q : Queue) (s : Shard) (h : Z) (i : N).

(** ** The weight of a shard *)

(** Turns the slot can still take: [Main] spends one frequency a turn, [Small]
    all of it at once. *)
Definition slot_weight q (o : option Slot) : nat :=
  match o with
  | None => 0
  | Some sl => match q with Small => if decide (0 < sl_freq sl)%Z then 2 else 1
                          | Main => S (Z.to_nat (sl_freq sl)) end
  end.

Definition queue_weight s q L : nat := sum_list_with (λ i, slot_weight q (core s i)) L.
Definition weight s (f : Queue → list N) : nat :=
  queue_weight s Small (f Small) + queue_weight s Main (f Main).

Lemma queue_weight_app s q L1 L2 :
  queue_weight s q (L1 ++ L2) = queue_weight s q L1 + queue_weight s q L2.
Proof. apply sum_list_with_app. Qed.

Lemma queue_weight_frame s s' q L :
  (∀ i, i ∈ L → core s' i = core s i) → queue_weight s' q L = queue_weight s q L.
Proof.
  unfold queue_weight. intros H. induction L as [|i L IH]; cbn; [done|].
  rewrite H by by left. f_equal. apply IH. intros j Hj. apply H. by right.
Qed.

Lemma weight_frame s s' f :
  (∀ i q, i ∈ f q → core s' i = core s i) → weight s' f = weight s f.
Proof.
  intros H. unfold weight. f_equal; apply queue_weight_frame; intros i Hi; by eapply H.
Qed.

Lemma weight_remove s f q L1 L2 i :
  f q = L1 ++ i :: L2 → weight s f = weight s (upd f q (L1 ++ L2)) + slot_weight q (core s i).
Proof.
  intros HL. unfold weight. destruct q; rewrite upd_eq, upd_ne, HL, !queue_weight_app by done;
    unfold queue_weight; cbn; lia.
Qed.

Lemma weight_snoc s f i :
  weight s (upd f Main (f Main ++ [i])) = weight s f + slot_weight Main (core s i).
Proof.
  unfold weight. rewrite upd_eq, upd_ne, queue_weight_app by done. unfold queue_weight. cbn. lia.
Qed.

Lemma slot_weight_pos q sl : 0 < slot_weight q (Some sl).
Proof. destruct q; cbn; [destruct (decide _)|]; lia. Qed.

Lemma slot_weight_max s q i : index_inv s → slot_weight q (core s i) ≤ 4.
Proof.
  intros Hx. destruct (core s i) as [sl|] eqn:E; [|cbn; lia].
  destruct (ii_slot _ Hx _ _ E) as (_ & Hf & _). unfold MAX_FREQ in Hf.
  destruct q; cbn; [destruct (decide _)|]; lia.
Qed.

Lemma queued_le s f : lists_inv s f → length (f Small ++ f Main) ≤ length (slots s).
Proof.
  intros Hf. rewrite <-(length_fmap N.to_nat), <-(length_seq (length (slots s)) 0).
  apply submseteq_length, NoDup_submseteq.
  - apply NoDup_fmap_2; [apply _|]. apply NoDup_app. split; [apply Hf|]. split; [|apply Hf].
    intros i H1 H2. by specialize (li_disjoint _ _ Hf _ _ _ H1 H2).
  - intros n (i & -> & Hi)%list_elem_of_fmap. apply elem_of_seq. split; [lia|]. cbn.
    assert (∃ q, i ∈ f q) as [q Hq] by (apply elem_of_app in Hi as [?|?]; eauto).
    destruct (seg_live _ _ _ _ _ i (qi_seg _ _ _ _ (li_queue _ _ Hf q)) Hq) as [sl Hsl].
    by eapply live_slot_lt.
Qed.

Lemma weight_bound s f : shard_inv s f → weight s f ≤ 4 * length (slots s).
Proof.
  intros [Hf _ Hx _]. pose proof (queued_le _ _ Hf) as H. rewrite length_app in H.
  assert (Hw : ∀ q L, queue_weight s q L ≤ 4 * length L).
  { intros q L. unfold queue_weight. induction L as [|i L IH]; cbn; [lia|].
    pose proof (slot_weight_max s q i Hx). lia. }
  unfold weight. pose proof (Hw Small (f Small)). pose proof (Hw Main (f Main)). lia.
Qed.

(** ** An entry at the back of [Small] *)

(** [i] is the newest slot of [Small], unused so far, and within the share of
    the budget [Small] is kept at. *)
Definition held s (f : Queue → list N) i (sl : Slot) : Prop :=
  (∃ L, f Small = L ++ [i]) ∧ core s i = Some sl ∧ (sl_freq sl = 0)%Z ∧ (sl_cost sl ≤ small_target s)%Z.

Lemma held_frame s s' f i sl :
  core s' i = core s i → small_target s' = small_target s → held s f i sl → held s' f i sl.
Proof. intros Hc Ht. unfold held. by rewrite Hc, Ht. Qed.

Lemma snoc_split L L1 L2 i j : L ++ [i] = L1 ++ j :: L2 → i ≠ j → ∃ L', L1 ++ L2 = L' ++ [i].
Proof.
  intros E Hne. destruct (last_snoc_eq L2) as [->|(L2' & t & ->)].
  - apply app_inj_tail in E as [_ ->]. done.
  - rewrite app_comm_cons, (assoc_L app) in E. apply app_inj_tail in E as [_ ->].
    exists (L1 ++ L2'). by rewrite (assoc_L app).
Qed.

Lemma held_upd s f i sl q L1 L2 j :
  held s f i sl → f q = L1 ++ j :: L2 → i ≠ j → held s (upd f q (L1 ++ L2)) i sl.
Proof.
  intros [[L HL] H] Hq Hne. split; [|done]. unfold upd. destruct (decide (Small = q)) as [<-|]; [|eauto].
  rewrite HL in Hq. by eapply snoc_split.
Qed.

(** ** One turn *)

(** Removing a slot, and what it does to the weight and to a held slot. *)
Lemma drop_step s f i sl :
  shard_inv s f → core s i = Some sl →
  ∃ sl' s' f', remove_slot s i = Ret (sl', s') ∧ strip sl' = sl ∧ shard_inv s' f' ∧
    removed s i sl s' ∧ weight s' f' < weight s f ∧
    (∀ j c, j ≠ i → held s f j c → held s' f' j c).
Proof.
  intros Hs Hi. destruct (remove_slot_spec s f i sl Hs Hi) as (q & L1 & L2 & sl' & s' & HL & E & Hsl & Hs' & Hr).
  exists sl', s', (upd f q (L1 ++ L2)). split_and!; try done.
  - rewrite (weight_remove s f q L1 L2 i HL), Hi. pose proof (slot_weight_pos q sl).
    rewrite (weight_frame s s'); [lia|]. intros j q' Hj. rewrite (rm_core _ _ _ _ Hr), decide_False; [done|].
    intros <-. by apply (upd_removed s f q L1 L2 i q' (si_lists _ _ Hs) HL).
  - intros j c Hne Hh. apply (held_frame s); [|by rewrite (rm_target _ _ _ _ Hr)|by eapply held_upd].
    by rewrite (rm_core _ _ _ _ Hr), decide_False by congruence.
Qed.

(** What one turn guarantees. *)
Record turn s (f : Queue → list N) s' (f' : Queue → list N) : Prop := {
  tn_inv : shard_inv s' f';
  tn_weight : weight s' f' < weight s f;
  tn_budget : budget s' = budget s;
  tn_view : view s' ⊆ view s;
  tn_length : length (slots s') = length (slots s);
}.

Lemma requeue_step s f i sl q L g n :
  shard_inv s f → f q = i :: L → core s i = Some sl →
  (∀ x, strip x = sl → g x = n) → (0 ≤ n ≤ MAX_FREQ)%Z →
  (slot_weight Main (Some (with_freq sl n)) < slot_weight q (Some sl)) →
  ∃ s' f', requeue s i g = Ret s' ∧ turn s f s' f' ∧
    (∀ j c, j ≠ i → held s f j c → held s' f' j c).
Proof.
  intros Hs HL Hi Hg Hn Hw. destruct (requeue_spec s f i sl q [] L g n Hs HL Hi Hg Hn) as (s' & E & Hr & Hs').
  set (f1 := upd f q ([] ++ L)) in *. exists s', (upd f1 Main (f1 Main ++ [i])). split; [done|].
  assert (Hf1 : ∀ j q', j ∈ f1 q' → core s' j = core s j).
  { intros j q' Hj. rewrite (rf_core _ _ _ _ _ Hr), decide_False; [done|]. intros <-.
    by apply (upd_removed s f q [] L i q' (si_lists _ _ Hs) HL). }
  split; [split; [done| | | |]|].
  - rewrite weight_snoc, (weight_frame s s' f1 Hf1), (rf_core _ _ _ _ _ Hr), decide_True by done.
    rewrite (weight_remove s f q [] L i HL), Hi. fold f1. lia.
  - apply (rf_budget _ _ _ _ _ Hr).
  - by rewrite (refreq_view _ _ _ _ _ Hr Hi).
  - apply (rf_length _ _ _ _ _ Hr).
  - intros j c Hne Hh. apply (held_upd _ _ _ _ q [] L i) in Hh as ([L' HL'] & H); [|done..].
    fold f1 in HL'. split; [exists L'; by rewrite upd_ne|].
    rewrite (rf_core _ _ _ _ _ Hr), decide_False by congruence.
    destruct (rf_budget _ _ _ _ _ Hr) as (_ & -> & _). done.
Qed.

(** Counting events changes nothing else. *)
Lemma counters_inv s f c : shard_inv s f → shard_inv (set_counters c s) f.
Proof. intros [H1 H2 [] []]. split; [by eapply lists_inv_frame|done|by split|by split]. Qed.

Lemma removed_turn s f i sl s' f' c :
  shard_inv s' f' → removed s i sl s' → weight s' f' < weight s f → turn s f (set_counters c s') f'.
Proof.
  intros Hs' Hr Hw. split; [by apply counters_inv|done|apply Hr| |apply Hr].
  change (view (set_counters c s')) with (view s'). rewrite (rm_view _ _ _ _ Hr). apply delete_subseteq.
Qed.

Lemma push_ghost_turn s f s' f' h : turn s f s' f' → turn s f (push_ghost s' h) f'.
Proof.
  intros [H1 H2 H3 H4 H5]. destruct (push_ghost_spec s' f' h H1) as (G1 & G2 & G3 & G4 & G5 & G6 & G7 & G8 & G9).
  split; [done| |congruence| |congruence].
  - rewrite (weight_frame s'); [done|]. intros. apply G2.
  - assert (view (push_ghost s' h) = view s') as ->; [|done].
    apply map_eq. intros h'. unfold view. rewrite !lookup_omap, G3. destruct (smap s' !! h'); [|done]. cbn. by rewrite G2.
Qed.

Lemma head_nil s f q : lists_inv s f → fl_head (list_of s q) = NIL ↔ f q = [].
Proof.
  intros Hf. rewrite (qi_head _ _ _ _ (li_queue _ _ Hf q)). destruct (f q) as [|i L] eqn:E; [done|].
  cbn. split; [|done]. intros ->. destruct (li_valid _ _ Hf NIL q); [rewrite E; by left|done].
Qed.

Lemma head_cons s f q i L : lists_inv s f → f q = i :: L → fl_head (list_of s q) = i.
Proof. intros Hf E. rewrite (qi_head _ _ _ _ (li_queue _ _ Hf q)). by rewrite E. Qed.

Lemma queued_core s f q i : lists_inv s f → i ∈ f q → ∃ sl, core s i = Some sl.
Proof.
  intros Hf Hi. destruct (seg_live _ _ _ _ _ i (qi_seg _ _ _ _ (li_queue _ _ Hf q)) Hi) as [sl Hsl].
  exists (strip sl). by apply core_live.
Qed.

Lemma ghost_bytes s f :
  shard_inv s f → (total_bytes s ≤ queue_bytes s + budget s / 8)%Z ∧ (0 ≤ budget s)%Z.
Proof.
  intros [_ _ _ [H1 H2 H3 H4 _]]. unfold total_bytes, queue_bytes, GHOST_COST. rewrite H3 in H4.
  unfold GHOST_DIVISOR in H4. split; [|done].
  pose proof (Z.mul_div_le (budget s) 128). pose proof (Z.mul_div_le (budget s) 8).
  pose proof (Z.mul_succ_div_gt (budget s) 8). lia.
Qed.

(** The queue [evict_one] turns to. *)
Definition victim s : Queue :=
  if decide (small_target s < fl_bytes (small s) ∨ fl_head (main s) = NIL)%Z then Small else Main.

(** The frequency a second chance leaves. *)
Definition spent q (sl : Slot) : Z := match q with Small => 0 | Main => sl_freq sl - 1 end.

Definition record_eviction q h s : Shard :=
  match q with Small => push_ghost (count_eviction s) h | Main => count_eviction s end.

Lemma evict_one_eq s i sl :
  fl_head (list_of s (victim s)) = i → i ≠ NIL → live_slot (slots s) i = Some sl →
  evict_one s =
    (if decide (0 < sl_freq sl)%Z then s' ← requeue s i (spent (victim s)); Ret (true, s')
     else '(removed, s') ← remove_slot s i; Ret (true, record_eviction (victim s) (sl_hash removed) s')).
Proof.
  intros Hh Hne Hi. apply slot_ret in Hi. unfold evict_one, victim, requeue in *.
  destruct (decide (small_target s < _ ∨ _)%Z) as [Hv|Hv]; cbn [list_of] in Hh; rewrite Hh.
  - rewrite decide_False, Hi by done. cbn [mbind run_bind]. destruct (decide (0 < sl_freq sl)%Z).
    + destruct (unlink s i) as [s1| | |]; cbn; [destruct (slot s1 i)|..]; done.
    + by destruct (remove_slot s i) as [[]| | |].
  - rewrite Hi. cbn [mbind run_bind]. destruct (decide (0 < sl_freq sl)%Z).
    + destruct (unlink s i) as [s1| | |]; cbn; [destruct (slot s1 i)|..]; done.
    + by destruct (remove_slot s i) as [[]| | |].
Qed.

(** Over budget, the chosen queue has a head, and it is not the held slot. *)
Lemma victim_cons s f :
  shard_inv s f → (budget s < total_bytes s)%Z →
  ∃ i L, f (victim s) = i :: L ∧ (∀ c, ¬ held s f i c).
Proof.
  intros Hs Hover. destruct (ghost_bytes s f Hs) as [Hgb Hb]. pose proof (si_lists _ _ Hs) as Hf.
  pose proof (queue_bytes_sum _ _ Hf) as Hqb. pose proof (head_nil s f Main Hf) as Hmain. cbn in Hmain.
  pose proof (qi_bytes _ _ _ _ (li_queue _ _ Hf Small)) as Hsb. cbn [list_of] in Hsb.
  pose proof (Z.div_le_upper_bound (budget s) 8 (budget s)). pose proof (gi_target _ (si_ghost _ _ Hs)) as Ht.
  unfold victim. destruct (decide (_ ∨ _)) as [Hv|Hv].
  - destruct (f Small) as [|i L] eqn:EL.
    + exfalso. change (cost_sum (slots s) []) with 0%Z in *.
      assert (Hn : fl_head (main s) = NIL).
      { destruct Hv as [Hv|]; [|done]. pose proof (Z.div_pos (budget s) 10). lia. }
      apply Hmain in Hn. rewrite Hn in Hqb. change (cost_sum (slots s) []) with 0%Z in *. lia.
    + exists i, L. split; [done|]. intros c ([L' HL'] & Hc & _ & Hcost). destruct L' as [|j L'].
      * rewrite EL in HL'. injection HL' as ->. rewrite cost_sum_cons in *. change (cost_sum (slots s) []) with 0%Z in *.
        rewrite (cost_at_slot s i c Hc) in *. destruct Hv as [Hv|Hv]; [lia|].
        apply Hmain in Hv. rewrite Hv in Hqb. change (cost_sum (slots s) []) with 0%Z in *.
        pose proof (Z.mul_div_le (budget s) 10). pose proof (Z.mul_div_le (budget s) 8). lia.
      * rewrite EL in HL'. injection HL' as -> ->. pose proof (li_nodup _ _ Hf Small) as Hnd. rewrite EL in Hnd.
        apply NoDup_cons in Hnd as [Hnd _]. apply Hnd. apply elem_of_app. right. by left.
  - destruct (f Main) as [|i L] eqn:EL; [exfalso; apply Hv; right; by apply Hmain|].
    exists i, L. split; [done|]. intros c ([L' HL'] & _).
    assert (Small = Main); [|done]. apply (li_disjoint _ _ Hf i); [rewrite HL'; apply elem_of_app; right; by left|].
    rewrite EL. by left.
Qed.

Lemma evict_one_spec s f :
  shard_inv s f → (budget s < total_bytes s)%Z →
  ∃ s' f', evict_one s = Ret (true, s') ∧ turn s f s' f' ∧ (∀ i c, held s f i c → held s' f' i c).
Proof.
  intros Hs Hover. destruct (victim_cons s f Hs Hover) as (i & L & HL & Hnh).
  pose proof (si_lists _ _ Hs) as Hf. pose proof (head_cons _ _ _ _ _ Hf HL) as Hh.
  assert (Hin : i ∈ f (victim s)) by (rewrite HL; by left).
  destruct (queued_core _ _ _ _ Hf Hin) as [c Hc]. destruct (core_some _ _ _ Hc) as (sl & Hsl & Hs1).
  rewrite (evict_one_eq s i sl Hh (li_valid _ _ Hf _ _ Hin) Hsl).
  assert (Ef : sl_freq sl = sl_freq c) by (by rewrite <-Hs1).
  destruct (ii_slot _ (si_index _ _ Hs) _ _ Hc) as (_ & Hfr & _).
  destruct (decide (0 < sl_freq sl)%Z) as [Hpos|Hpos].
  - destruct (requeue_step s f i c (victim s) L (spent (victim s)) (spent (victim s) c)) as (s' & f' & E & Ht & Hh');
      [done..| | | |].
    + intros x <-. by destruct (victim s).
    + unfold MAX_FREQ in *. destruct (victim s); cbn; lia.
    + destruct (victim s); cbn; [rewrite decide_True by lia|]; lia.
    + rewrite E. cbn. exists s', f'. split_and!; try done.
      intros j c' Hj. apply Hh'; [|done]. intros ->. by eapply Hnh.
  - destruct (drop_step s f i c Hs Hc) as (sl' & s' & f' & E & Hsl' & Hs' & Hr & Hw & Hh').
    rewrite E. cbn. exists (record_eviction (victim s) (sl_hash sl') s'), f'. split; [done|].
    assert (Ht : turn s f (count_eviction s') f') by by eapply removed_turn.
    assert (Hj : ∀ j c', held s f j c' → held (count_eviction s') f' j c').
    { intros j c' Hj. destruct (decide (j = i)) as [->|]; [by apply Hnh in Hj|].
      eapply (held_frame s'); [done..|]. by apply Hh'. }
    unfold record_eviction. destruct (victim s); [|done]. split; [by apply push_ghost_turn|].
    destruct (push_ghost_spec _ _ (sl_hash sl') (tn_inv _ _ _ _ Ht)) as (_ & G2 & _ & _ & _ & _ & G7 & _).
    intros j c' Hj'. eapply held_frame; [apply G2|done|]. by apply Hj.
Qed.

(** ** [make_room] *)

Lemma least_elem (l : list (Z * N)) x : least l = Some x → x ∈ l.
Proof.
  revert x. induction l as [|y l IH]; intros x; cbn; [done|].
  destruct (least l) as [z|]; [destruct (decide _)|]; intros [= <-]; [by left|right; auto|by left].
Qed.

Lemma first_live s e i : index_inv s → first (expiry s) = Some (e, i) → ∃ sl, core s i = Some sl ∧ sl_expires sl = e.
Proof. intros Hx H%least_elem%elem_of_elements. by apply (ii_expiry _ Hx). Qed.

Lemma make_room_loop_spec fuel s f now :
  shard_inv s f → weight s f < fuel →
  ∃ s' f', make_room_loop fuel s now = Ret s' ∧ shard_inv s' f' ∧ budget s' = budget s ∧
    view s' ⊆ view s ∧ (total_bytes s' ≤ budget s')%Z ∧
    (∀ i c, held s f i c → (now < sl_expires c)%Z → held s' f' i c).
Proof.
  revert s f. induction fuel as [|fuel IH]; intros s f Hs Hw; [lia|]. cbn [make_room_loop].
  destruct (decide (budget s < total_bytes s)%Z) as [Hover|]; [|exists s, f; split_and!; done || lia].
  assert (Hgo : ∀ s1 f1, turn s f s1 f1 → (∀ i c, held s f i c → (now < sl_expires c)%Z → held s1 f1 i c) →
    ∃ s' f', make_room_loop fuel s1 now = Ret s' ∧ shard_inv s' f' ∧ budget s' = budget s ∧
    view s' ⊆ view s ∧ (total_bytes s' ≤ budget s')%Z ∧
    (∀ i c, held s f i c → (now < sl_expires c)%Z → held s' f' i c)).
  { intros s1 f1 [T1 T2 T3 T4 T5] Hh. destruct (IH s1 f1 T1) as (s' & f' & H1 & H2 & H3 & H4 & H5 & H6); [lia|].
    exists s', f'. split_and!; [done|done|congruence|by etrans|done|auto]. }
  assert (Hev : ∃ s' f', ('(more, s) ← evict_one s; if more : bool then make_room_loop fuel s now else Ret s) = Ret s' ∧
    shard_inv s' f' ∧ budget s' = budget s ∧ view s' ⊆ view s ∧ (total_bytes s' ≤ budget s')%Z ∧
    (∀ i c, held s f i c → (now < sl_expires c)%Z → held s' f' i c)).
  { destruct (evict_one_spec s f Hs Hover) as (s1 & f1 & -> & Ht & Hh). cbn. eapply Hgo; [done|auto]. }
  destruct (first (expiry s)) as [[e i]|] eqn:Efirst; [|done].
  destruct (decide (e ≤ now)%Z) as [He|]; [|done].
  destruct (first_live _ _ _ (si_index _ _ Hs) Efirst) as (sl & Hi & <-).
  destruct (drop_step s f i sl Hs Hi) as (sl' & s1 & f1 & -> & _ & Hs1 & Hr & Hw1 & Hh). cbn.
  apply (Hgo _ f1); [by eapply removed_turn|]. intros j c Hj Hexp. apply (held_frame s1); [done..|].
  apply Hh; [|done]. intros ->. destruct Hj as (_ & Hj & _). rewrite Hi in Hj. injection Hj as ->. lia.
Qed.

(** [make_room] returns, within the budget, with a subset of the entries; an
    unexpired slot held at the back of [Small] is never evicted. *)
Lemma make_room_spec s f now :
  shard_inv s f →
  ∃ s' f', make_room s now = Ret s' ∧ shard_inv s' f' ∧ budget s' = budget s ∧
    view s' ⊆ view s ∧ (total_bytes s' ≤ budget s')%Z ∧
    (∀ i c, held s f i c → (now < sl_expires c)%Z → held s' f' i c).
Proof. intros Hs. apply make_room_loop_spec; [done|]. pose proof (weight_bound s f Hs). lia. Qed.
