(* ===== verification/ShardOps.v ===== *)
(** * The operations of a shard

    [get], [forget_failure], [insert], [remove_matching] and [clear] on a shard
    whose representation invariant holds: each returns, keeps the invariant and
    the byte budget, and acts on the shard's [view] as its specification
    says. *)

From stdpp Require Import base numbers list gmap.
From S2P Require Import Prelude CoreError Entry Shard ShardLists ShardInv ShardEvict.

Implicit Types (l : list (option Slot)) (L : list N) (q : Queue) (s : Shard) (h : Z) (i : N)
  (f : Queue → list N).

(** A well-formed shard within its budget. *)
Definition shard_ok s : Prop := (∃ f, shard_inv s f) ∧ (total_bytes s ≤ budget s)%Z.

(** ** The specification *)

Notation View := (gmap Z (list Z * CachedAnswer)).

(** The answer a view serves, and the view after the lookup dropped an expired
    entry. *)
Definition view_get (v : View) h (key : list Z) (now : Z) : option CachedAnswer * View :=
  match v !! h with
  | Some (k, e) =>
      if decide (k = key) then
        if decide (stale_until e ≤ now)%Z then (None, delete h v) else (Some e, v)
      else (None, v)
  | None => (None, v)
  end.

(** A cached failure is forgotten, anything else stays. *)
Definition view_forget (v : View) h (key : list Z) : bool * View :=
  match v !! h with
  | Some (k, e) =>
      if decide (k = key ∧ failure e ≠ None) then (true, delete h v) else (false, v)
  | None => (false, v)
  end.

Definition view_remove (v : View) (matches : list Z → bool) : View :=
  filter (λ p, matches p.2.1 = false) v.

(** Lookups only lose entries. *)
Lemma view_get_sub v h key now : (view_get v h key now).2 ⊆ v.
Proof.
  unfold view_get. destruct (v !! h) as [[k e]|]; [|done]. destruct (decide (k = key)); [|done].
  destruct (decide _); [apply delete_subseteq|done].
Qed.

Lemma view_forget_sub v h key : (view_forget v h key).2 ⊆ v.
Proof. unfold view_forget. destruct (v !! h) as [[k e]|]; [|done]. destruct (decide _); [apply delete_subseteq|done]. Qed.

(** What a lookup gives was there. *)
Lemma view_get_some v h key now e : (view_get v h key now).1 = Some e → v !! h = Some (key, e).
Proof.
  unfold view_get. destruct (v !! h) as [[k e']|]; [|done]. destruct (decide (k = key)) as [->|]; [|done].
  destruct (decide _); [done|]. by intros [= ->].
Qed.

(** ** Helpers *)

Lemma map_slot s h i :
  index_inv s → smap s !! h = Some i →
  ∃ sl c, slots s !! N.to_nat i = Some (Some sl) ∧ live_slot (slots s) i = Some sl ∧
    core s i = Some c ∧ strip sl = c ∧ sl_hash c = h.
Proof.
  intros Hx (c & Hc & Hh)%(ii_map _ Hx). destruct (core_some _ _ _ Hc) as (sl & Hsl & Hs).
  exists sl, c. split_and!; try done. unfold live_slot in Hsl.
  destruct (slots s !! N.to_nat i) as [[x|]|]; try done. by injection Hsl as ->.
Qed.

Lemma view_slot s h i c :
  index_inv s → core s i = Some c → sl_hash c = h → view s !! h = Some (sl_key c, sl_entry c).
Proof. intros Hx Hc Hh. apply view_spec; [done|]. exists i, c. done. Qed.

Lemma view_unmapped s h : index_inv s → smap s !! h = None → view s !! h = None.
Proof. intros Hx E. unfold view. by rewrite lookup_omap, E. Qed.

Lemma total_bytes_eq s : total_bytes s = (queue_bytes s + Z.of_nat (length (ghost_order s)) * 16)%Z.
Proof. done. Qed.

Lemma removed_total s i c s' :
  index_inv s → core s i = Some c → removed s i c s' → (total_bytes s' + 80 ≤ total_bytes s)%Z.
Proof.
  intros Hx Hc Hr. rewrite !total_bytes_eq, (rm_bytes _ _ _ _ Hr).
  destruct (rm_ghost _ _ _ _ Hr) as (_ & -> & _). destruct (ii_slot _ Hx _ _ Hc). lia.
Qed.

(** Removing a slot keeps a shard well-formed and within its budget. *)
Lemma remove_ok s f i c :
  shard_inv s f → core s i = Some c →
  ∃ sl' s' f', remove_slot s i = Ret (sl', s') ∧ strip sl' = c ∧ shard_inv s' f' ∧ removed s i c s' ∧
    (total_bytes s' + 80 ≤ total_bytes s)%Z ∧ budget s' = budget s.
Proof.
  intros Hs Hc. destruct (drop_step s f i c Hs Hc) as (sl' & s' & f' & E & Hsl & Hs' & Hr & _).
  exists sl', s', f'. split_and!; try done; [|apply Hr]. by apply (removed_total s i c s' (si_index _ _ Hs)).
Qed.

Lemma view_push_ghost s f h : shard_inv s f → view (push_ghost s h) = view s.
Proof.
  intros Hs. destruct (push_ghost_spec s f h Hs) as (_ & G2 & G3 & _).
  apply map_eq. intros h'. unfold view. rewrite !lookup_omap, G3.
  destruct (smap s !! h'); [|done]. cbn. by rewrite G2.
Qed.

(** ** [get] *)

Lemma get_ok s h key now :
  shard_ok s →
  ∃ s', get s h key now = Ret ((view_get (view s) h key now).1, s') ∧ shard_ok s' ∧
    view s' = (view_get (view s) h key now).2 ∧ budget s' = budget s.
Proof.
  intros [[f Hs] Hb]. pose proof (si_index _ _ Hs) as Hx. unfold get, view_get.
  destruct (smap s !! h) as [i|] eqn:Em.
  2: { rewrite view_unmapped by done. exists s. split_and!; try done. split; [by exists f|done]. }
  destruct (map_slot s h i Hx Em) as (sl & c & -> & Hl & Hc & Hsc & Hh).
  rewrite (view_slot s h i c Hx Hc Hh).
  assert (sl_key sl = sl_key c ∧ sl_expires sl = stale_until (sl_entry c) ∧ sl_entry sl = sl_entry c) as (-> & -> & ->).
  { destruct (ii_slot _ Hx _ _ Hc) as (_ & _ & <-). by rewrite <-Hsc. }
  destruct (decide (sl_key c = key)) as [Hk|Hk].
  2: { rewrite decide_True by done. exists s. split_and!; try done. split; [by exists f|done]. }
  rewrite decide_False by (intros H; done). destruct (decide (stale_until (sl_entry c) ≤ now)%Z).
  - destruct (remove_ok s f i c Hs Hc) as (sl' & s' & f' & -> & Hsl' & Hs' & Hr & Ht & Hbud). cbn [mbind run_bind].
    pose proof (counters_inv s' f' (counters (count_expiration s')) Hs') as Hs2.
    change (set_counters _ s') with (count_expiration s') in Hs2.
    assert (Hv : view (count_expiration s') = delete h (view s)) by (rewrite <-Hh; apply Hr).
    destruct (push_ghost_spec _ _ (sl_hash sl') Hs2) as (G1 & _ & _ & G4 & G5 & G6 & _).
    destruct (decide (0 < sl_freq sl')%Z); eexists; (split; [done|]); cbn [fst snd]; split_and!; try done.
    + split; [by eexists|]. rewrite total_bytes_eq, G4, G6. cbn [count_expiration set_counters queue_bytes ghost_order] in *.
      rewrite total_bytes_eq in Ht. change (queue_bytes (count_expiration s')) with (queue_bytes s').
      change (budget (count_expiration s')) with (budget s'). lia.
    + by rewrite (view_push_ghost _ f').
    + rewrite G6. done.
    + split; [by eexists|]. change (total_bytes s' ≤ budget s')%Z. lia.
  - set (nf := Z.min (sl_freq sl + 1) MAX_FREQ).
    assert (Hr : refreq s i c nf (put i (with_freq sl nf) s)) by by apply refreq_put.
    assert (Hn : (0 ≤ nf ≤ MAX_FREQ)%Z).
    { destruct (ii_slot _ Hx _ _ Hc) as (_ & Hf & _). rewrite <-Hsc in Hf. cbn in Hf. unfold nf, MAX_FREQ in *. lia. }
    eexists. split; [done|]. cbn [snd]. split_and!; [|by eapply refreq_view|done].
    split; [|done]. exists f. split; [by apply lists_inv_freq; [apply Hs|]| |by eapply refreq_index|eapply refreq_ghost; [done|apply Hs]].
    intros j x. rewrite (rf_core _ _ _ _ _ Hr). destruct (decide (i = j)) as [<-|]; [intros _|]; by eapply si_queued.
Qed.

(** ** [forget_failure] *)

Lemma forget_ok s h key :
  shard_ok s →
  ∃ s', forget_failure s h key = Ret ((view_forget (view s) h key).1, s') ∧ shard_ok s' ∧
    view s' = (view_forget (view s) h key).2 ∧ budget s' = budget s.
Proof.
  intros [[f Hs] Hb]. pose proof (si_index _ _ Hs) as Hx. unfold forget_failure, view_forget.
  destruct (smap s !! h) as [i|] eqn:Em.
  2: { rewrite view_unmapped by done. exists s. split_and!; try done. split; [by exists f|done]. }
  destruct (map_slot s h i Hx Em) as (sl & c & _ & Hl & Hc & Hsc & Hh).
  rewrite (view_slot s h i c Hx Hc Hh), (proj2 (slot_ret s i sl) Hl). cbn [mbind run_bind].
  assert (sl_key sl = sl_key c ∧ sl_entry sl = sl_entry c) as [-> ->] by (by rewrite <-Hsc).
  destruct (decide (sl_key c ≠ key ∨ failure (sl_entry c) = None)) as [Hk|Hk];
    destruct (decide (sl_key c = key ∧ failure (sl_entry c) ≠ None)); try tauto.
  - exists s. split_and!; try done. split; [by exists f|done].
  - destruct (remove_ok s f i c Hs Hc) as (sl' & s' & f' & -> & Hsl' & Hs' & Hr & Ht & Hbud). cbn.
    exists s'. split_and!; try done; [split; [by eexists|lia]|]. rewrite <-Hh. apply Hr.
Qed.

(** ** [insert] *)

(** A new index comes off the free list or extends the slab; [NIL] means the
    slab is full. *)
Lemma take_index_spec s sl i s' :
  index_inv s → take_index s sl = (i, s') →
  s' = set_slots (slots s') (set_free (free s') s) ∧
  ((i = NIL ∧ free s = [] ∧ Z.of_nat (length (slots s)) = u32_max ∧ pop_slot s' = s) ∨
   (i ≠ NIL ∧ live_slot (slots s) i = None ∧
    (∀ j, live_slot (slots s') j = if decide (i = j) then Some sl else live_slot (slots s) j) ∧
    (∀ j, j ∈ free s' ↔ j ∈ free s ∧ j ≠ i) ∧ NoDup (free s') ∧
    (∀ j, N.to_nat j < length (slots s') ↔ N.to_nat j < length (slots s) ∨ j = i) ∧
    (Z.of_nat (length (slots s')) ≤ u32_max)%Z)).
Proof.
  intros Hx. unfold take_index. pose proof (ii_len _ Hx) as Hlen. destruct (free s) as [|j fr] eqn:Efree.
  - intros [= Hi <-]. split; [by destruct s; cbn in *; subst|].
    destruct (decide (length (slots s) = N.to_nat NIL)) as [E|E].
    + left. rewrite decide_True in Hi by (unfold NIL in E; lia). split_and!; [unfold NIL in *; lia|done|unfold NIL in E; lia|].
      unfold pop_slot. cbn [slots set_slots]. rewrite length_app. cbn [length].
      replace (length (slots s) + 1 - 1) with (length (slots s)) by lia. rewrite take_app_length. by destruct s.
    + right. rewrite decide_True in Hi by lia. assert (Hlt : length (slots s) < N.to_nat NIL) by (unfold NIL in *; lia).
      assert (Hl : ∀ j, live_slot (slots s ++ [Some sl]) j = if decide (i = j) then Some sl else live_slot (slots s) j).
      { intros j. unfold live_slot. destruct (decide (i = j)) as [<-|Hne].
        - rewrite lookup_app_r, <-Hi, Nat2N.id, Nat.sub_diag by lia. done.
        - destruct (decide (N.to_nat j < length (slots s))) as [Hj|Hj]; [by rewrite lookup_app_l|].
          rewrite (lookup_ge_None_2 (slots s)) by lia. rewrite lookup_app_r by lia.
          rewrite lookup_ge_None_2; [done|]. cbn. lia. }
      split_and!; [unfold NIL in *; lia| |done|intros j; cbn [free set_slots]; rewrite Efree; set_solver| | |].
      * unfold live_slot. rewrite lookup_ge_None_2; [done|]. lia.
      * cbn. rewrite Efree. constructor.
      * intros j. cbn [slots set_slots]. rewrite length_app. cbn. lia.
      * cbn [slots set_slots]. rewrite length_app. cbn. unfold NIL in *. lia.
  - intros [= <- <-]. split; [done|]. right. pose proof (ii_free_nodup _ Hx) as Hnd. rewrite Efree in Hnd.
    apply NoDup_cons in Hnd as [Hj Hnd].
    assert (j ∈ free s) as [Hlt Hc]%(ii_free _ Hx) by (rewrite Efree; by left).
    unfold put. cbn [slots set_slots set_free free]. split_and!; try done.
    + unfold NIL. lia.
    + unfold core in Hc. by destruct (live_slot _ _).
    + intros k. by apply live_slot_insert.
    + intros k. rewrite elem_of_cons. split; [|tauto]. intros Hk. split; [by right|]. by intros ->.
    + intros k. rewrite length_insert. split; [by left|]. intros [?| ->]; done.
    + by rewrite length_insert.
Qed.

(** Entering a slot in the slab, the hash map and the expiry index. *)
Definition enter s i sl : Shard :=
  set_expiry ({[ (sl_expires sl, i) ]} ∪ expiry s) (set_smap (<[sl_hash sl := i]> (smap s)) s).

Lemma enter_spec s f sl i s' :
  shard_inv s f → take_index s sl = (i, s') → i ≠ NIL → smap s !! sl_hash sl = None →
  (80 ≤ sl_cost sl)%Z → (0 ≤ sl_freq sl ≤ MAX_FREQ)%Z → sl_expires sl = stale_until (sl_entry sl) →
  let s2 := enter s' i sl in
  live_slot (slots s2) i = Some sl ∧ (∀ q, i ∉ f q) ∧ lists_inv s2 f ∧ index_inv s2 ∧ ghost_inv s2 ∧
  (∀ j, core s2 j = if decide (i = j) then Some (strip sl) else core s j) ∧
  view s2 = <[sl_hash sl := (sl_key sl, sl_entry sl)]> (view s) ∧
  budget s2 = budget s ∧ small_target s2 = small_target s.
Proof.
  intros Hs Et Hne Hm Hcost Hfreq Hexp s2. pose proof (si_index _ _ Hs) as Hx. pose proof (si_lists _ _ Hs) as Hf.
  destruct (take_index_spec s sl i s' Hx Et) as [E [[? _]|(_ & Hfree & Hl & Hfr & Hnd & Hlt & Hlen)]]; [done|].
  assert (Hi : core s i = None) by (unfold core; by rewrite Hfree).
  assert (Hin : ∀ q, i ∉ f q).
  { intros q Hq. destruct (queued_core _ _ _ _ Hf Hq) as [c Hc]. congruence. }
  assert (Hc : ∀ j, core s2 j = if decide (i = j) then Some (strip sl) else core s j).
  { intros j. unfold core at 1. change (slots s2) with (slots s'). rewrite Hl. by destruct (decide _). }
  assert (Em : smap s2 = <[sl_hash sl := i]> (smap s)) by (unfold s2, enter; by rewrite E).
  assert (Ee : expiry s2 = {[ (sl_expires sl, i) ]} ∪ expiry s) by (unfold s2, enter; by rewrite E).
  assert (Hx2 : index_inv s2).
  { split.
    - intros h j. rewrite Em, lookup_insert_Some, (ii_map _ Hx), Hc. destruct (decide (i = j)) as [<-|Hj].
      + rewrite Hi. cbn. naive_solver.
      + split; [naive_solver|]. intros (x & Hx' & Hh). right. split; [|eauto]. intros E'.
        assert (smap s !! sl_hash sl = Some j) by (apply (ii_map _ Hx); exists x; by rewrite E').
        congruence.
    - intros e j. rewrite Ee, elem_of_union, elem_of_singleton, (ii_expiry _ Hx), Hc.
      destruct (decide (i = j)) as [<-|Hj]; [rewrite Hi; cbn; naive_solver|naive_solver].
    - intros j. change (free s2) with (free s'). change (slots s2) with (slots s').
      rewrite Hfr, (ii_free _ Hx), Hlt, Hc. destruct (decide (i = j)) as [<-|Hj]; naive_solver.
    - done.
    - done.
    - intros j x. rewrite Hc. destruct (decide (i = j)); [|apply Hx]. intros [= <-]. done. }
  split_and!; try done.
  - change (slots s2) with (slots s'). by rewrite Hl, decide_True.
  - apply (lists_inv_frame s); [done|intros q; unfold s2, enter; rewrite E; by destruct q|].
    intros j q Hj. change (slots s2) with (slots s'). rewrite Hl, decide_False; [done|]. intros ->. by eapply Hin.
  - unfold s2, enter. rewrite E. pose proof (si_ghost _ _ Hs) as []. by split.
  - apply map_eq. intros h. unfold view. rewrite lookup_insert, !lookup_omap, Em, lookup_insert.
    destruct (decide (sl_hash sl = h)) as [<-|Hh]; [cbn; by rewrite Hc, decide_True|].
    destruct (smap s !! h) as [j|] eqn:Ej; [|done]. cbn. rewrite Hc, decide_False; [done|]. intros <-.
    apply (ii_map _ Hx) in Ej as (x & Hx' & _). congruence.
  - unfold s2, enter. by rewrite E.
  - unfold s2, enter. by rewrite E.
Qed.

(** The first step of [insert]: whatever the hash maps to goes. *)
Lemma insert_old_spec s f h key :
  shard_inv s f →
  ∃ reused s1 f1,
    match smap s !! h with
    | Some old_index =>
        '(old, s) ← remove_slot s old_index;
        Ret (bool_decide (sl_key old = key) &&
             (bool_decide (0 < sl_freq old)%Z || bool_decide (sl_queue old = Main)), s)
    | None => Ret (false, s)
    end = Ret (E:=Error) (reused, s1) ∧
    shard_inv s1 f1 ∧ (total_bytes s1 ≤ total_bytes s)%Z ∧ view s1 = delete h (view s) ∧
    smap s1 !! h = None ∧ budget s1 = budget s ∧ small_target s1 = small_target s ∧
    ghost s1 = ghost s ∧ (view s !! h = None → reused = false).
Proof.
  intros Hs. pose proof (si_index _ _ Hs) as Hx. destruct (smap s !! h) as [i|] eqn:Em.
  - destruct (map_slot s h i Hx Em) as (sl & c & _ & _ & Hc & _ & Hh).
    destruct (remove_ok s f i c Hs Hc) as (sl' & s' & f' & -> & _ & Hs' & Hr & Ht & Hbud). cbn [mbind run_bind].
    eexists _, s', f'. split; [done|]. split_and!; try done; try apply Hr; [lia|rewrite <-Hh; apply Hr| |].
    + rewrite (rm_map _ _ _ _ Hr), decide_True; done.
    + intros Hv. pose proof (view_slot s h i c Hx Hc Hh). congruence.
  - exists false, s, f. split_and!; try done. symmetry. apply delete_id. by apply view_unmapped.
Qed.

(** Forgetting a ghost hash. *)
Lemma forget_ghost_inv s f h :
  shard_inv s f → shard_inv (set_ghost (delete h (ghost s)) (ghost_order s) (ghost_seq s) s) f.
Proof.
  intros [H1 H2 [] []]. split; [by eapply lists_inv_frame|done|by split|]. split; try done.
  intros h' n Hn. cbn [ghost ghost_order set_ghost] in *. apply lookup_delete_Some in Hn as [_ Hn]. auto.
Qed.

(** A slab with no free slot is full of live ones, each of which costs at
    least 80 bytes. *)
Lemma full_slab s f :
  shard_inv s f → free s = [] → (80 * Z.of_nat (length (slots s)) ≤ total_bytes s)%Z.
Proof.
  intros Hs Hfree. pose proof (si_index _ _ Hs) as Hx. pose proof (si_lists _ _ Hs) as Hf.
  assert (Hcost : ∀ q L, (∀ i, i ∈ L → i ∈ f q) → (80 * Z.of_nat (length L) ≤ cost_sum (slots s) L)%Z).
  { intros q L. induction L as [|i L IH]; intros HL; [done|]. rewrite cost_sum_cons. cbn [length].
    assert (i ∈ f q) as Hi by (apply HL; by left). destruct (queued_core _ _ _ _ Hf Hi) as [c Hc].
    rewrite (cost_at_slot s i c Hc). destruct (ii_slot _ Hx _ _ Hc).
    assert (80 * Z.of_nat (length L) ≤ cost_sum (slots s) L)%Z; [|lia].
    apply IH. intros j Hj. apply HL. by right. }
  assert (Hlen : length (slots s) ≤ length (f Small) + length (f Main)).
  { rewrite <-length_app, <-(length_seq (length (slots s)) 0), <-(length_fmap N.of_nat).
    apply submseteq_length, NoDup_submseteq; [apply NoDup_fmap_2; [apply _|apply NoDup_seq]|].
    intros i (n & -> & Hn)%list_elem_of_fmap. apply elem_of_seq in Hn.
    destruct (core s (N.of_nat n)) as [c|] eqn:Ec.
    - destruct (si_queued _ _ Hs _ _ Ec) as [[] Hq]; apply elem_of_app; auto.
    - exfalso. assert (N.of_nat n ∈ free s) as H; [|rewrite Hfree in H; by apply not_elem_of_nil in H].
      apply (ii_free _ Hx). split; [lia|done]. }
  rewrite total_bytes_eq, (queue_bytes_sum _ _ Hf).
  pose proof (Hcost Small _ (λ i H, H)). pose proof (Hcost Main _ (λ i H, H)). lia.
Qed.

(** The rest of [insert]: queueing the new slot and making room for it. *)
Lemma admit_spec s f sl i s' q now :
  shard_inv s f → take_index s sl = (i, s') → i ≠ NIL → smap s !! sl_hash sl = None →
  (80 ≤ sl_cost sl)%Z → sl_freq sl = 0%Z → sl_expires sl = stale_until (sl_entry sl) →
  ∃ s3, (s2 ← push_back (enter s' i sl) i q; s2 ← make_room (count_insert s2) now; Ret (true, s2))
          = Ret (E:=Error) (true, s3) ∧
    shard_ok s3 ∧ budget s3 = budget s ∧ view s3 ⊆ <[sl_hash sl := (sl_key sl, sl_entry sl)]> (view s) ∧
    (q = Small → (sl_cost sl ≤ small_target s)%Z → (now < sl_expires sl)%Z →
     view s3 !! sl_hash sl = Some (sl_key sl, sl_entry sl)).
Proof.
  intros Hs Et Hne Hm Hcost Hfreq Hexp.
  destruct (enter_spec s f sl i s' Hs Et Hne Hm Hcost) as (Hl & Hin & Hf2 & Hx2 & Hg2 & Hc2 & Hv2 & Hb2 & Ht2);
    [rewrite Hfreq; unfold MAX_FREQ; lia|done|].
  destruct (push_back_spec _ f q i sl Hf2 Hl Hin Hne) as (s2 & -> & Hf3 & Hlinks). cbn [mbind run_bind].
  set (f3 := upd f q (f q ++ [i])) in *.
  assert (Hs2 : shard_inv s2 f3).
  { split; [done| |by eapply links_only_index|by eapply links_only_ghost].
    intros j c. rewrite (links_only_core _ _ _ Hlinks), Hc2. destruct (decide (i = j)) as [<-|].
    - intros _. exists q. unfold f3. rewrite upd_eq. apply elem_of_app. right. by left.
    - intros [q' Hq']%(si_queued _ _ Hs). exists q'. unfold f3, upd. destruct (decide (q' = q)) as [->|]; [|done].
      apply elem_of_app. by left. }
  destruct (links_only_fields _ _ Hlinks) as (_ & Eb & Etg & _).
  pose proof (counters_inv s2 f3 (counters (count_insert s2)) Hs2) as Hs3.
  change (set_counters _ s2) with (count_insert s2) in Hs3.
  destruct (make_room_spec _ f3 now Hs3) as (s3 & f4 & -> & Hs4 & Eb4 & Hv4 & Ht4 & Hh4). cbn [mbind run_bind].
  change (view (count_insert s2)) with (view s2) in Hv4. rewrite (links_only_view _ _ Hlinks), Hv2 in Hv4.
  change (budget (count_insert s2)) with (budget s2) in Eb4.
  exists s3. split_and!; [done|by split; [exists f4|]|congruence|done|].
  intros -> Hsmall Hnow. destruct (Hh4 i (strip sl)) as (_ & Hc & _); [|done|].
  - split; [exists (f Small); unfold f3; by rewrite upd_eq|]. split; [|split; [done|]].
    + change (core (count_insert s2) i) with (core s2 i).
      by rewrite (links_only_core _ _ _ Hlinks), Hc2, decide_True.
    + change (small_target (count_insert s2)) with (small_target s2). cbn. by rewrite Etg, Ht2.
  - apply view_spec; [apply Hs4|]. exists i, (strip sl). done.
Qed.

Lemma insert_ok z s h key e now :
  sizes_ok z → shard_ok s →
  ∃ b s', insert z s h key e now = Ret (b, s') ∧ shard_ok s' ∧ budget s' = budget s ∧
    (if b : bool
     then view s' ⊆ <[h := (key, e)]> (view s) ∧ (entry_cost z (length key) e ≤ budget s / OVERSIZE_DIVISOR)%Z
     else view s' = delete h (view s) ∧
       (budget s / OVERSIZE_DIVISOR < entry_cost z (length key) e ∨ 80 * u32_max ≤ budget s)%Z) ∧
    (b = true → view s !! h = None → ghost s !! h = None →
     (entry_cost z (length key) e ≤ small_target s)%Z → (now < stale_until e)%Z →
     view s' !! h = Some (key, e)).
Proof.
  intros Hz [[f Hs] Hb]. unfold insert.
  destruct (insert_old_spec s f h key Hs) as (reused & s1 & f1 & E & Hs1 & Ht1 & Hv1 & Hm1 & Eb1 & Etg1 & Eg1 & Hre).
  rewrite E. cbn [mbind run_bind]. clear E. rewrite Eb1.
  assert (Hcost : (80 ≤ entry_cost z (length key) e)%Z) by by apply entry_cost_min.
  set (cost := entry_cost z (length key) e) in *.
  destruct (decide (budget s / OVERSIZE_DIVISOR < cost)%Z) as [Hover|Hfits].
  { exists false, (count_oversized s1). split_and!; try done; [|by left].
    split; [exists f1; by apply counters_inv|]. change (total_bytes s1 ≤ budget s1)%Z. lia. }
  pose proof (forget_ghost_inv s1 f1 h Hs1) as Hs2.
  set (s2 := set_ghost _ _ _ s1) in *. set (q := if _ || _ then Main else Small).
  set (sl := mkSlot key h e cost (stale_until e) 0 q NIL NIL).
  destruct (take_index s2 sl) as [i s'] eqn:Et.
  destruct (decide (i = NIL)) as [->|Hne].
  - destruct (take_index_spec _ _ _ _ (si_index _ _ Hs2) Et) as [E' [(_ & Hfree & Hlen & Hpop)|[? _]]]; [|done].
    pose proof (full_slab _ _ Hs2 Hfree) as Hfull. change (total_bytes s2) with (total_bytes s1) in Hfull.
    assert (pop_slot s' = s2) as -> by done.
    exists false, s2. split_and!; try done; [split; [by exists f1|change (total_bytes s1 ≤ budget s1)%Z; lia]|].
    right. lia.
  - destruct (take_index_spec _ _ _ _ (si_index _ _ Hs2) Et) as [E' [[? _]|(_ & _ & Hl & _)]]; [done|].
    change (slot (set_smap _ s') i) with (slot s' i).
    rewrite (proj2 (slot_ret s' i sl)) by (by rewrite Hl, decide_True). cbn [mbind run_bind].
    destruct (admit_spec s2 f1 sl i s' q now Hs2 Et Hne Hm1 Hcost) as (s3 & E3 & Hok & Eb3 & Hv3 & Hret); [done..|].
    exists true, s3. split; [exact E3|]. split; [done|]. split; [by rewrite Eb3|].
    change (view s2) with (view s1) in *. cbn [sl sl_hash sl_key sl_entry] in *.
    split; [rewrite Hv1, insert_delete_eq in Hv3; split; [done|lia]|].
    intros _ Hvn Hgn Hsmall Hnow. apply Hret; [|by rewrite <-Etg1 in Hsmall|done].
    unfold q. rewrite Hre, Eg1, Hgn by done. done.
Qed.

(** ** [remove_matching] and [clear] *)

Lemma doomed_spec matches k l i :
  (Z.of_nat (k + length l) ≤ u32_max)%Z →
  i ∈ doomed_from matches k l ↔
  k ≤ N.to_nat i ∧ ∃ sl, l !! (N.to_nat i - k) = Some (Some sl) ∧ matches (sl_key sl) = true.
Proof.
  revert k. induction l as [|o l IH]; intros k Hk; cbn [doomed_from].
  { split; [by intros ?%not_elem_of_nil|]. intros (_ & sl & H & _). done. }
  cbn [length] in Hk. assert (Hrec : i ∈ doomed_from matches (S k) l ↔
    k ≤ N.to_nat i ∧ N.to_nat i ≠ k ∧ ∃ sl, (o :: l) !! (N.to_nat i - k) = Some (Some sl) ∧ matches (sl_key sl) = true).
  { rewrite IH by lia. split.
    - intros (Hle & sl & Hl & Hm). split_and!; [lia|lia|]. exists sl. split; [|done].
      replace (N.to_nat i - k) with (S (N.to_nat i - S k)) by lia. done.
    - intros (Hle & Hne & sl & Hl & Hm). split; [lia|]. exists sl. split; [|done].
      replace (N.to_nat i - k) with (S (N.to_nat i - S k)) in Hl by lia. done. }
  destruct o as [sl|]; [destruct (matches (sl_key sl) && _) eqn:Em|].
  - apply andb_prop in Em as [Em _]. rewrite elem_of_cons, Hrec. split.
    + intros [->|H]; [|tauto]. rewrite Nat2N.id, Nat.sub_diag. split; [lia|]. by exists sl.
    + intros [Hle H]. destruct (decide (N.to_nat i = k)) as [<-|]; [left; lia|tauto].
  - rewrite bool_decide_true, andb_true_r in Em by lia. rewrite Hrec. split; [tauto|].
    intros (Hle & x & Hx & Hm). split_and!; [done| |eauto]. intros E. rewrite E, Nat.sub_diag in Hx.
    injection Hx as <-. congruence.
  - rewrite Hrec. split; [tauto|]. intros (Hle & x & Hx & Hm). split_and!; [done| |eauto].
    intros E. by rewrite E, Nat.sub_diag in Hx.
Qed.

Lemma doomed_ge matches k l i : i ∈ doomed_from matches k l → k ≤ N.to_nat i.
Proof.
  revert k. induction l as [|o l IH]; intros k; cbn; [by intros ?%not_elem_of_nil|].
  destruct o as [sl|]; [destruct (_ && _)|]; rewrite ?elem_of_cons; [intros [->|Hi]; [lia|]|intros Hi..];
    apply IH in Hi; lia.
Qed.

Lemma doomed_nodup matches k l : NoDup (doomed_from matches k l).
Proof.
  revert k. induction l as [|o l IH]; intros k; cbn; [constructor|].
  destruct o as [sl|]; [destruct (_ && _)|]; [|apply IH..].
  apply NoDup_cons. split; [|apply IH]. intros Hi%doomed_ge. lia.
Qed.

Lemma remove_each_spec s f ixs :
  shard_inv s f → NoDup ixs → (∀ i, i ∈ ixs → ∃ c, core s i = Some c) →
  ∃ s' f', remove_each s ixs = Ret s' ∧ shard_inv s' f' ∧ (total_bytes s' ≤ total_bytes s)%Z ∧
    budget s' = budget s ∧ (∀ j, core s' j = if decide (j ∈ ixs) then None else core s j) ∧
    size (view s) = length ixs + size (view s').
Proof.
  revert s f. induction ixs as [|i ixs IH]; intros s f Hs Hnd Hlive; cbn [remove_each].
  { exists s, f. split_and!; done || lia. }
  apply NoDup_cons in Hnd as [Hi Hnd]. destruct (Hlive i) as [c Hc]; [by left|].
  destruct (remove_ok s f i c Hs Hc) as (sl' & s1 & f1 & -> & _ & Hs1 & Hr & Ht & Hb). cbn [mbind run_bind].
  destruct (IH s1 f1 Hs1 Hnd) as (s2 & f2 & -> & Hs2 & Ht2 & Hb2 & Hc2 & Hsz).
  { intros j Hj. rewrite (rm_core _ _ _ _ Hr), decide_False by congruence. apply Hlive. by right. }
  exists s2, f2. split_and!; try done; [lia|congruence| |].
  - intros j. rewrite Hc2, (rm_core _ _ _ _ Hr).
    destruct (decide (j ∈ ixs)), (decide (i = j)), (decide (j ∈ i :: ixs)); set_solver.
  - rewrite (rm_view _ _ _ _ Hr), map_size_delete_Some in Hsz
      by (eexists; by apply (view_slot s _ i c (si_index _ _ Hs) Hc)).
    assert (size (view s) ≠ 0); [|cbn; lia]. intros E%map_size_empty_inv.
    pose proof (view_slot s _ i c (si_index _ _ Hs) Hc eq_refl) as Hv. by rewrite E, lookup_empty in Hv.
Qed.

Lemma remove_matching_ok s matches :
  shard_ok s →
  ∃ s', remove_matching s matches = Ret (size (view s) - size (view_remove (view s) matches), s') ∧
    shard_ok s' ∧ view s' = view_remove (view s) matches ∧ budget s' = budget s.
Proof.
  intros [[f Hs] Hb]. pose proof (si_index _ _ Hs) as Hx. unfold remove_matching.
  set (ixs := doomed_from matches 0 (slots s)).
  assert (Hd : ∀ i, i ∈ ixs ↔ ∃ c, core s i = Some c ∧ matches (sl_key c) = true).
  { intros i. unfold ixs. rewrite doomed_spec by (cbn; apply Hx). rewrite Nat.sub_0_r. unfold core, live_slot.
    split.
    - intros (_ & sl & -> & Hm). by exists (strip sl).
    - intros (c & Hc & Hm). split; [lia|]. destruct (slots s !! N.to_nat i) as [[sl|]|]; try done.
      injection Hc as <-. by exists sl. }
  destruct (remove_each_spec s f ixs Hs) as (s' & f' & -> & Hs' & Ht & Hbud & Hc' & Hsz).
  { apply doomed_nodup. }
  { intros i (c & Hc & _)%Hd. by exists c. }
  cbn [mbind run_bind].
  assert (Hv : view s' = view_remove (view s) matches).
  { apply map_eq. intros h. apply option_eq. intros [k e]. unfold view_remove. rewrite map_lookup_filter_Some.
    rewrite !view_spec by apply Hs || apply Hs'. cbn [fst snd]. setoid_rewrite Hc'. split.
    - intros (i & c & Hc & Hh & Hk & He). destruct (decide (i ∈ ixs)) as [|Hn]; [done|]. split; [by exists i, c|].
      rewrite <-Hk. apply not_true_is_false. intros Hm. apply Hn, Hd. eauto.
    - intros [(i & c & Hc & Hh & Hk & He) Hm]. exists i, c. split; [|done]. rewrite decide_False; [done|].
      intros (c' & Hc'' & Hm')%Hd. congruence. }
  exists s'. split_and!; [|split; [by exists f'|lia]|done|done].
  rewrite <-Hv. f_equal. f_equal. lia.
Qed.

Lemma shard_new_ok b : (0 ≤ b)%Z → shard_ok (shard_new b) ∧ view (shard_new b) = ∅.
Proof.
  intros Hb. split; [|done].
  assert (Hc : ∀ i, core (shard_new b) i = None) by done.
  split; [|done]. exists (λ _, []). split.
  - split; [by intros []|intros; constructor|by intros ??? ?%not_elem_of_nil|by intros ?? ?%not_elem_of_nil].
  - intros i c. by rewrite Hc.
  - split; cbn [smap expiry free slots shard_new]; intros; rewrite ?Hc in *; try done.
    + rewrite lookup_empty. naive_solver.
    + rewrite elem_of_empty. naive_solver.
    + split; [by intros ?%not_elem_of_nil|cbn; lia].
    + constructor.
  - split; try done. cbn. apply Z.div_pos; [done|]. done.
Qed.

Lemma clear_ok s :
  shard_ok s →
  let '(n, s') := clear s in n = size (view s) ∧ shard_ok s' ∧ view s' = ∅ ∧ budget s' = budget s.
Proof.
  intros [[f Hs] Hb]. pose proof (si_index _ _ Hs) as Hx. unfold clear.
  destruct (shard_new_ok (budget s) (gi_budget _ (si_ghost _ _ Hs))) as [[[f' Hs'] Hb'] Hv'].
  split; [|split; [split; [exists f'; by apply counters_inv|done]|done]].
  rewrite <-!(size_dom (D:=gset Z)). f_equal. apply set_eq. intros h. rewrite !elem_of_dom.
  unfold view. rewrite lookup_omap. destruct (smap s !! h) as [i|] eqn:E; cbn; [|done].
  apply (ii_map _ Hx) in E as (c & -> & _). cbn. done.
Qed.
