(* ===== verification/ShardSpec.v ===== *)
(** * What a shard promises

    A shard refines a lossy map: every operation, in every state reachable from
    an empty shard, returns and acts as the map specification [view_step]
    allows, within the byte budget. Lookups serve the latest insert under
    exactly their key. *)

From stdpp Require Import base numbers list gmap.
From S2P Require Import Prelude CoreError Name RecordData Header Message Entry Shard ShardLists ShardInv ShardEvict ShardOps.

Inductive ShardOp : Type :=
  | OpGet (hash : Z) (key : list Z) (now : Z)
  | OpForget (hash : Z) (key : list Z)
  | OpInsert (hash : Z) (key : list Z) (entry : CachedAnswer) (now : Z)
  | OpClear
  | OpRemove (matches : list Z → bool).

Inductive ShardOut : Type :=
  | OutAnswer (a : option CachedAnswer)
  | OutFlag (b : bool)
  | OutCount (n : nat).

Definition shard_apply (z : Sizes) (s : Shard) (op : ShardOp) : Run Error (ShardOut * Shard) :=
  match op with
  | OpGet hash key now => '(a, s) ← get s hash key now; Ret (OutAnswer a, s)
  | OpForget hash key => '(b, s) ← forget_failure s hash key; Ret (OutFlag b, s)
  | OpInsert hash key entry now => '(b, s) ← insert z s hash key entry now; Ret (OutFlag b, s)
  | OpClear => let '(n, s) := clear s in Ret (OutCount n, s)
  | OpRemove matches => '(n, s) ← remove_matching s matches; Ret (OutCount n, s)
  end.

Fixpoint shard_run (z : Sizes) (s : Shard) (ops : list ShardOp) : Run Error Shard :=
  match ops with
  | [] => Ret s
  | op :: ops => '(_, s) ← shard_apply z s op; shard_run z s ops
  end.

(** The specification: a map from hashes to a key and its entry that may lose
    entries when one is inserted, and only then. *)
Inductive view_step (z : Sizes) (budget : Z) (v : View) : ShardOp → ShardOut → View → Prop :=
  | vs_get hash key now :
      view_step z budget v (OpGet hash key now)
        (OutAnswer (view_get v hash key now).1) (view_get v hash key now).2
  | vs_forget hash key :
      view_step z budget v (OpForget hash key) (OutFlag (view_forget v hash key).1) (view_forget v hash key).2
  | vs_insert hash key entry now v' :
      v' ⊆ <[hash := (key, entry)]> v →
      (entry_cost z (length key) entry ≤ budget / OVERSIZE_DIVISOR)%Z →
      view_step z budget v (OpInsert hash key entry now) (OutFlag true) v'
  | vs_reject hash key entry now :
      (* too large, or 2^32 - 1 slots of at least 80 bytes are in use *)
      (budget / OVERSIZE_DIVISOR < entry_cost z (length key) entry ∨ 80 * u32_max ≤ budget)%Z →
      view_step z budget v (OpInsert hash key entry now) (OutFlag false) (delete hash v)
  | vs_clear : view_step z budget v OpClear (OutCount (size v)) ∅
  | vs_remove matches :
      view_step z budget v (OpRemove matches)
        (OutCount (size v - size (view_remove v matches))) (view_remove v matches).

Lemma apply_ok z s op :
  sizes_ok z → shard_ok s →
  ∃ out s', shard_apply z s op = Ret (out, s') ∧ shard_ok s' ∧ budget s' = budget s ∧
    view_step z (budget s) (view s) op out (view s').
Proof.
  intros Hz Hs. destruct op as [h key now|h key|h key e now| |m]; cbn [shard_apply].
  - destruct (get_ok s h key now Hs) as (s' & -> & Hs' & Hv & Hb). eexists _, s'. split; [done|].
    rewrite Hv. split_and!; try done. constructor.
  - destruct (forget_ok s h key Hs) as (s' & -> & Hs' & Hv & Hb). eexists _, s'. split; [done|].
    rewrite Hv. split_and!; try done. constructor.
  - destruct (insert_ok z s h key e now Hz Hs) as (b & s' & -> & Hs' & Hb & Hv & _). eexists _, s'. split; [done|].
    split_and!; try done. destruct b; destruct Hv as [Hv Hc]; [by constructor|]. rewrite Hv. by constructor.
  - pose proof (clear_ok s Hs) as H. destruct (clear s) as [n s']. destruct H as (-> & Hs' & Hv & Hb).
    eexists _, s'. split; [done|]. rewrite Hv. split_and!; try done. constructor.
  - destruct (remove_matching_ok s m Hs) as (s' & -> & Hs' & Hv & Hb). eexists _, s'. split; [done|].
    rewrite Hv. split_and!; try done. constructor.
Qed.

Lemma run_ok z s ops :
  sizes_ok z → shard_ok s → ∃ s', shard_run z s ops = Ret s' ∧ shard_ok s' ∧ budget s' = budget s.
Proof.
  intros Hz. revert s. induction ops as [|op ops IH]; intros s Hs; cbn [shard_run]; [by exists s|].
  destruct (apply_ok z s op Hz Hs) as (out & s1 & -> & Hs1 & Hb1 & _). cbn [mbind run_bind].
  destruct (IH s1 Hs1) as (s2 & E & Hs2 & Hb2). exists s2. split_and!; [done|done|congruence].
Qed.

Lemma run_app z s ops1 ops2 :
  shard_run z s (ops1 ++ ops2) = (s' ← shard_run z s ops1; shard_run z s' ops2).
Proof.
  revert s. induction ops1 as [|op ops1 IH]; intros s; [done|]. cbn [app shard_run].
  destruct (shard_apply z s op) as [[out s1]| | |]; cbn [mbind run_bind]; [apply IH|done..].
Qed.

(** The entry a step leaves at a hash was there, or the step inserted it. *)
Lemma view_step_back z b v op out v' h k e :
  view_step z b v op out v' → v' !! h = Some (k, e) →
  (∃ t, op = OpInsert h k e t) ∨
  (v !! h = Some (k, e) ∧
   match op with
   | OpInsert h' _ _ _ => h' ≠ h
   | OpClear => False
   | OpRemove matches => matches k = false
   | OpForget h' k' => ¬ (h' = h ∧ k' = k ∧ failure e ≠ None)
   | OpGet h' k' now => h' = h → k' = k → (now < stale_until e)%Z
   end).
Proof.
  intros Hs Hv. destruct Hs as [h' k' now|h' k'|h' k' e' now v' Hsub _|h' k' e' now _| |m].
  - right. unfold view_get in Hv. destruct (v !! h') as [[k2 e2]|] eqn:E; [|cbn in Hv; naive_solver].
    destruct (decide (k2 = k')); [|cbn in Hv; naive_solver].
    destruct (decide (stale_until e2 ≤ now)%Z); cbn in Hv.
    + apply lookup_delete_Some in Hv. naive_solver.
    + split; [done|]. intros -> ->. rewrite E in Hv. injection Hv as -> ->. lia.
  - right. unfold view_forget in Hv. destruct (v !! h') as [[k2 e2]|] eqn:E; [|cbn in Hv; naive_solver].
    destruct (decide (k2 = k' ∧ failure e2 ≠ None)); cbn in Hv; [apply lookup_delete_Some in Hv|]; naive_solver.
  - eapply lookup_weaken in Hv; [|done]. apply lookup_insert_Some in Hv as [(-> & [= -> ->])|[]]; [left; eauto|by right].
  - right. by apply lookup_delete_Some in Hv as [? ?].
  - done.
  - right. unfold view_remove in Hv. by apply map_lookup_filter_Some in Hv.
Qed.

(** C7: A shard never panics and never hangs: from an empty shard of any budget,
    every sequence of operations runs to a state within the byte budget, and
    there every further operation returns, stays within the budget and acts on
    the map of stored entries as the specification [view_step] allows. *)
Theorem shard_refines z budget ops op :
  sizes_ok z → (0 ≤ budget)%Z →
  ∃ s, shard_run z (shard_new budget) ops = Ret s ∧ (total_bytes s ≤ budget)%Z ∧
    ∃ out s', shard_apply z s op = Ret (out, s') ∧ (total_bytes s' ≤ budget)%Z ∧
      view_step z budget (view s) op out (view s').
Proof.
  intros Hz Hb. destruct (shard_new_ok budget Hb) as [Hs0 _].
  destruct (run_ok z _ ops Hz Hs0) as (s & E & Hs & Eb). exists s. split; [done|].
  change (Shard.budget (shard_new budget)) with budget in Eb.
  split; [rewrite <-Eb; apply Hs|]. destruct (apply_ok z s op Hz Hs) as (out & s' & E' & Hs' & Eb' & Hv).
  exists out, s'. rewrite Eb in *. split_and!; [done|rewrite <-Eb'; apply Hs'|done].
Qed.

(** An operation that leaves an entry stored under [h] for key [k] alone. *)
Definition undisturbed (h : Z) (k : list Z) (e : CachedAnswer) (op : ShardOp) : Prop :=
  match op with
  | OpInsert h' _ _ _ => h' ≠ h
  | OpClear => False
  | OpRemove matches => matches k = false
  | OpForget h' k' => ¬ (h' = h ∧ k' = k ∧ failure e ≠ None)
  | OpGet h' k' now => h' = h → k' = k → (now < stale_until e)%Z
  end.

(** C8: A lookup serves no stale or foreign data: what [get] returns for a hash
    and key is the entry of the latest insert under that hash, made under
    exactly that key, not expired, and not removed, flushed or (for a failure)
    forgotten since. *)
Theorem shard_serves_latest z budget ops s h key now e s' :
  sizes_ok z → (0 ≤ budget)%Z →
  shard_run z (shard_new budget) ops = Ret s →
  get s h key now = Ret (Some e, s') →
  (now < stale_until e)%Z ∧
  ∃ ops1 t ops2, ops = ops1 ++ OpInsert h key e t :: ops2 ∧ Forall (undisturbed h key e) ops2.
Proof.
  intros Hz Hb. destruct (shard_new_ok budget Hb) as [Hs0 Hv0].
  intros Hrun Hget. assert (Hok : shard_ok s) by (destruct (run_ok z _ ops Hz Hs0) as (? & E & ? & _); congruence).
  destruct (get_ok s h key now Hok) as (s2 & E & _). rewrite E in Hget. injection Hget as Hg _.
  unfold view_get in Hg. destruct (view s !! h) as [[k e']|] eqn:Ev; [|done].
  destruct (decide (k = key)) as [->|]; [|done]. destruct (decide _) as [|Hfresh]; [done|].
  injection Hg as ->. split; [lia|]. clear E Hok Hfresh. revert s Hrun Ev.
  induction ops as [|op ops IH] using rev_ind; intros s Hrun Ev.
  { injection Hrun as <-. by rewrite Hv0 in Ev. }
  rewrite run_app in Hrun. destruct (run_ok z _ ops Hz Hs0) as (s1 & E1 & Hs1 & _).
  rewrite E1 in Hrun. cbn [mbind run_bind shard_run] in Hrun.
  destruct (apply_ok z s1 op Hz Hs1) as (out & s3 & E3 & _ & _ & Hv). rewrite E3 in Hrun. cbn in Hrun.
  injection Hrun as <-. destruct (view_step_back _ _ _ _ _ _ _ _ _ Hv Ev) as [[t ->]|[Hold Hund]].
  - exists ops, t, []. done.
  - destruct (IH s1 E1 Hold) as (ops1 & t & ops2 & -> & Hf). exists ops1, t, (ops2 ++ [op]).
    rewrite <-(assoc_L app). split; [done|]. apply Forall_app. split; [done|]. by constructor.
Qed.

(** A new answer of at most a tenth of the budget, under a hash neither
    stored nor remembered as recently evicted, is accepted and served by the next lookup
    while it is not expired, whatever the shard had to evict to make room. *)
Theorem insert_retained z budget ops s h key e now now' :
  sizes_ok z → (0 ≤ budget < 80 * u32_max)%Z →
  shard_run z (shard_new budget) ops = Ret s →
  (entry_cost z (length key) e ≤ budget / 10)%Z → (now < stale_until e)%Z → (now' < stale_until e)%Z →
  view s !! h = None → ghost s !! h = None →
  ∃ s1 s2, insert z s h key e now = Ret (true, s1) ∧ get s1 h key now' = Ret (Some e, s2).
Proof.
  intros Hz [Hb Hmax] Hrun Hcost Hnow Hnow' Hv Hg. destruct (shard_new_ok budget Hb) as [Hs0 _].
  destruct (run_ok z _ ops Hz Hs0) as (s0 & E & Hok & Eb). rewrite E in Hrun. injection Hrun as ->.
  change (Shard.budget (shard_new budget)) with budget in Eb.
  assert (Ht : small_target s = (budget / 10)%Z) by (destruct Hok as [[f Hf] _]; rewrite <-Eb; apply Hf).
  destruct (insert_ok z s h key e now Hz Hok) as (b & s1 & E1 & Hok1 & _ & Hres & Hret). rewrite Eb, Ht in *.
  destruct b.
  - specialize (Hret eq_refl Hv Hg Hcost Hnow). destruct (get_ok s1 h key now' Hok1) as (s2 & E2 & _).
    exists s1, s2. split; [done|]. rewrite E2. unfold view_get. rewrite Hret, decide_True by done.
    by rewrite decide_False by lia.
  - exfalso. destruct Hres as [_ [Hres|Hres]]; [|lia]. unfold OVERSIZE_DIVISOR in Hres.
    pose proof (Z.div_le_compat_l budget 8 10). lia.
Qed.

(** ** A concrete shard *)

Definition example_sizes : Sizes := mkSizes 24 40 136 152 152.

Lemma example_sizes_ok : sizes_ok example_sizes.
Proof. repeat split; discriminate. Qed.

(** An answer that expires at [t], and the key of a name. *)
Definition example_answer (t : Z) : CachedAnswer := answer_new example_query 0 t 0.
Definition example_key (c : Z) : list Z := [0; 1; 0; 1; 1; c]%Z.

(** Two inserts, a lookup and a removal. *)
Definition example_ops : list ShardOp :=
  [OpInsert 1 (example_key 97) (example_answer 50) 0; OpInsert 2 (example_key 98) (example_answer 60) 1;
   OpGet 1 (example_key 97) 2; OpRemove (λ k, bool_decide (k = example_key 98))]%Z.

Lemma shard_refines_witness :
  ∃ s out s', shard_run example_sizes (shard_new 100000) example_ops = Ret s ∧
    shard_apply example_sizes s (OpGet 1 (example_key 97) 9) = Ret (out, s') ∧
    out = OutAnswer (Some (example_answer 50)).
Proof.
  destruct (shard_refines example_sizes 100000 example_ops (OpGet 1 (example_key 97) 9)
    example_sizes_ok ltac:(lia)) as (s & E & _ & out & s' & E' & _).
  exists s, out, s'. split; [exact E|]. split; [exact E'|].
  assert (∃ s0, shard_run example_sizes (shard_new 100000) example_ops = Ret s0 ∧
    ∃ s1, shard_apply example_sizes s0 (OpGet 1 (example_key 97) 9) =
      Ret (OutAnswer (Some (example_answer 50)), s1)) as (s0 & H0 & s1 & H1).
  { eexists. split; [vm_compute; reflexivity|]. eexists. vm_compute. reflexivity. }
  rewrite H0 in E. injection E as <-. rewrite H1 in E'. by injection E' as <- _.
Defined.

Lemma shard_serves_latest_witness :
  ∃ s s', shard_run example_sizes (shard_new 100000) example_ops = Ret s ∧
    get s 1 (example_key 97) 9 = Ret (Some (example_answer 50), s') ∧
    (9 < stale_until (example_answer 50))%Z.
Proof.
  assert (∃ s, shard_run example_sizes (shard_new 100000) example_ops = Ret s ∧
    ∃ s', get s 1 (example_key 97) 9 = Ret (Some (example_answer 50), s')) as (s & E & s' & E').
  { eexists. split; [vm_compute; reflexivity|]. eexists. vm_compute. reflexivity. }
  exists s, s'. split; [exact E|]. split; [exact E'|].
  exact (proj1 (shard_serves_latest example_sizes 100000 example_ops s 1 (example_key 97) 9
    (example_answer 50) s' example_sizes_ok ltac:(lia) E E')).
Defined.

Lemma insert_retained_witness :
  ∃ s s1 s2, shard_run example_sizes (shard_new 100000) example_ops = Ret s ∧
    insert example_sizes s 3 (example_key 99) (example_answer 70) 9 = Ret (true, s1) ∧
    get s1 3 (example_key 99) 20 = Ret (Some (example_answer 70), s2).
Proof.
  assert (∃ s, shard_run example_sizes (shard_new 100000) example_ops = Ret s ∧
    view s !! 3%Z = None ∧ ghost s !! 3%Z = None) as (s & E & Hv & Hg).
  { eexists. split; [vm_compute; reflexivity|]. split; vm_compute; reflexivity. }
  destruct (insert_retained example_sizes 100000 example_ops s 3 (example_key 99) (example_answer 70) 9 20
    example_sizes_ok ltac:(lia) E) as (s1 & s2 & H1 & H2); [vm_compute; congruence|reflexivity|reflexivity|done..|].
  exists s, s1, s2. exact (conj E (conj H1 H2)).
Defined.
