(* ===== verification/Store.v ===== *)
(** * The sharded answer store

    Models [Store] and [default_shard_count] of
    [crates/dns-lattice/src/cache/store.rs]: a power of two of shards, one of
    which the high half of a key's hash selects, and the operations over one
    shard or all of them. Each shard's mutex is held for the whole of its
    operation, so an operation is one atomic step per shard. The keyed hash
    function is a parameter; [usize] is 64 bits wide. *)

From stdpp Require Import base numbers list gmap.
From S2P Require Import Prelude CoreError Name RecordData Message CacheConfig StoreKey Entry Shard.
From S2P Require Import ShardLists ShardInv ShardEvict ShardOps.

Definition MIN_SHARD_BYTES : Z := 256 * 1024.
Definition MAX_AUTO_SHARDS : Z := 64.

(** The halving loop; the count is at most 64, so seven turns are enough. *)
Fixpoint halve_shards (fuel : nat) (max_bytes shards : Z) : Run Error Z :=
  match fuel with
  | O => Hang
  | S fuel =>
      if decide (1 < shards ∧ max_bytes / shards < MIN_SHARD_BYTES)%Z
      then halve_shards fuel max_bytes (shards / 2) else Ret shards
  end.

(** [next_power_of_two] panics where the power does not fit [usize]. *)
Definition checked_power_of_two (n : Z) : Run Error Z :=
  if decide (next_power_of_two n ≤ u64_max)%Z then Ret (next_power_of_two n) else Panic.

Definition default_shard_count (max_bytes parallelism : Z) : Run Error Z :=
  p ← checked_power_of_two (Z.min (Z.max parallelism 1 * 4) u64_max);
  halve_shards 7 max_bytes (Z.min p MAX_AUTO_SHARDS).

Record Store : Type := mkStore { shards : list Shard; mask : Z }.

(** [parallelism] is what [available_parallelism] reports. *)
Definition store_new (max_bytes : Z) (shards : option Z) (parallelism : Z) : Run Error Store :=
  count ← match shards with
          | Some count => checked_power_of_two (Z.max count 1)
          | None => default_shard_count max_bytes parallelism
          end;
  let budget := (max_bytes / count)%Z in
  Ret (mkStore (replicate (Z.to_nat count) (shard_new budget)) (count - 1)).

(** The index [shard] selects. *)
Definition shard_index (st : Store) (hash : Z) : nat :=
  Z.to_nat (Z.land (Z.shiftr hash 32) (mask st)).

(** Running an operation on the shard of a hash. *)
Definition on_shard {A} (st : Store) (hash : Z) (f : Shard → Run Error (A * Shard)) :
    Run Error (A * Store) :=
  match shards st !! shard_index st hash with
  | None => Panic
  | Some s => '(a, s) ← f s; Ret (a, mkStore (<[shard_index st hash := s]> (shards st)) (mask st))
  end.

Definition store_get (st : Store) (hash : Z) (key : list Z) (now : Z) :
    Run Error (option CachedAnswer * Store) :=
  on_shard st hash (λ s, get s hash key now).

Definition store_forget_failure (st : Store) (hash : Z) (key : list Z) : Run Error (bool * Store) :=
  on_shard st hash (λ s, forget_failure s hash key).

(** [allowed] is evaluated under the shard's lock. *)
Definition store_insert_if (z : Sizes) (st : Store) (hash : Z) (key : list Z) (entry : CachedAnswer)
    (now : Z) (allowed : bool) : Run Error (bool * Store) :=
  on_shard st hash (λ s, if allowed then insert z s hash key entry now else Ret (false, s)).

(** Running an operation on every shard in turn and adding up the counts. *)
Fixpoint each_shard (l : list Shard) (f : Shard → Run Error (nat * Shard)) : Run Error (nat * list Shard) :=
  match l with
  | [] => Ret (0, [])
  | s :: l => '(n, s) ← f s; '(m, l) ← each_shard l f; Ret (n + m, s :: l)
  end.

Definition store_clear (st : Store) : Run Error (nat * Store) :=
  '(n, l) ← each_shard (shards st) (λ s, Ret (clear s)); Ret (n, mkStore l (mask st)).

Definition remove_where (st : Store) (matches : list Z → bool) : Run Error (nat * Store) :=
  '(n, l) ← each_shard (shards st) (λ s, remove_matching s matches); Ret (n, mkStore l (mask st)).

Definition purge_matches (wire : list Z) (rtype : option Z) (key : list Z) : bool :=
  bool_decide (key_name key = Some wire) &&
  match rtype with None => true | Some code => bool_decide (key_type key = Some code) end.

Definition store_purge (st : Store) (name : Name) (rtype : option RecordType) : Run Error (nat * Store) :=
  match wire_name name with
  | None => Ret (0, st)
  | Some wire => remove_where st (purge_matches wire (type_code <$> rtype))
  end.

Definition subtree_matches (wire : list Z) (key : list Z) : bool :=
  match key_name key with None => false | Some name => in_subtree name wire end.

Definition store_purge_subtree (st : Store) (zone : Name) : Run Error (nat * Store) :=
  match wire_name zone with
  | None => Ret (0, st)
  | Some wire => remove_where st (subtree_matches wire)
  end.

Record StoreStats : Type := mkStats {
  ss_entries : Z;
  ss_bytes : Z;
  ss_capacity_bytes : Z;
  ss_inserts : Z;
  ss_evictions : Z;
  ss_expirations : Z;
  ss_oversized_rejected : Z;
}.

Definition add_stats (stats : StoreStats) (s : Shard) : StoreStats :=
  mkStats (ss_entries stats + Z.of_nat (size (smap s))) (ss_bytes stats + total_bytes s)
    (ss_capacity_bytes stats + budget s) (ss_inserts stats + inserts (counters s))
    (ss_evictions stats + evictions (counters s)) (ss_expirations stats + expirations (counters s))
    (ss_oversized_rejected stats + oversized (counters s)).

Definition store_stats (st : Store) : StoreStats :=
  foldl add_stats (mkStats 0 0 0 0 0 0 0) (shards st).

(** ** The invariant *)

Record store_ok (max_bytes : Z) (st : Store) : Prop := {
  so_shards : Forall (λ s, shard_ok s ∧ (budget s * Z.of_nat (length (shards st)) ≤ max_bytes)%Z) (shards st);
  so_mask : ∃ k, (0 ≤ k)%Z ∧ Z.of_nat (length (shards st)) = (2 ^ k)%Z ∧ mask st = (2 ^ k - 1)%Z;
}.

Lemma shard_index_lt max_bytes st hash : store_ok max_bytes st → shard_index st hash < length (shards st).
Proof.
  intros [_ (k & Hk & Hlen & Hm)]. unfold shard_index. rewrite Hm.
  replace (2 ^ k - 1)%Z with (Z.ones k) by (rewrite Z.ones_equiv; lia). rewrite Z.land_ones by done.
  pose proof (Z.mod_pos_bound (Z.shiftr hash 32) (2 ^ k) ltac:(lia)). lia.
Qed.

Lemma halve_shards_spec fuel max_bytes k :
  (0 ≤ k < Z.of_nat fuel)%Z →
  ∃ j, (0 ≤ j ≤ k)%Z ∧ halve_shards fuel max_bytes (2 ^ k) = Ret (2 ^ j)%Z ∧
    (j = 0 ∨ MIN_SHARD_BYTES ≤ max_bytes / 2 ^ j)%Z.
Proof.
  revert k. induction fuel as [|fuel IH]; intros k Hk; [lia|]. cbn [halve_shards].
  destruct (decide _) as [[H1 H2]|Hn].
  - destruct (decide (k = 0)%Z) as [->|Hk0]; [cbn in H1; lia|].
    assert ((2 ^ k / 2 = 2 ^ (k - 1))%Z) as ->.
    { rewrite Z.pow_sub_r by lia. done. }
    destruct (IH (k - 1)%Z) as (j & Hj & E & H); [lia|]. exists j. split; [lia|done].
  - exists k. split; [lia|]. split; [done|]. destruct (decide (k = 0)%Z) as [->|Hk0]; [by left|right].
    apply Z.nlt_ge. intros H. apply Hn. split; [|done]. apply (Z.pow_lt_mono_r 2 0 k); lia.
Qed.

Lemma checked_power_of_two_spec n :
  (1 ≤ n ≤ 2 ^ 63)%Z → ∃ k, (0 ≤ k ≤ 63)%Z ∧ checked_power_of_two n = Ret (2 ^ k)%Z ∧ (n ≤ 2 ^ k < 2 * n)%Z.
Proof.
  intros Hn. destruct (next_power_of_two_spec n) as (k & Hk & E & Hle); [lia|].
  assert (k ≤ 63)%Z.
  { apply Z.nlt_ge. intros H. pose proof (Z.pow_le_mono_r 2 64 k). lia. }
  exists k. split; [lia|]. unfold checked_power_of_two. rewrite E, decide_True; [done|].
  pose proof (Z.pow_le_mono_r 2 k 63). lia.
Qed.

Lemma min_shards k : (0 ≤ k)%Z → (Z.min (2 ^ k) MAX_AUTO_SHARDS = 2 ^ (Z.min k 6))%Z.
Proof.
  intros Hk. unfold MAX_AUTO_SHARDS. destruct (decide (k ≤ 6)%Z).
  - pose proof (Z.pow_le_mono_r 2 k 6). rewrite !Z.min_l by lia. done.
  - pose proof (Z.pow_le_mono_r 2 6 k). rewrite !Z.min_r by lia. done.
Qed.

Lemma default_shards max_bytes parallelism :
  (0 ≤ max_bytes)%Z → (0 ≤ parallelism ≤ 2 ^ 61)%Z →
  ∃ k, (0 ≤ k ≤ 6)%Z ∧ default_shard_count max_bytes parallelism = Ret (2 ^ k)%Z ∧
    (2 ^ k < 8 * Z.max parallelism 1)%Z ∧
    (k = 0 ∨ MIN_SHARD_BYTES ≤ max_bytes / 2 ^ k)%Z.
Proof.
  intros Hm Hp. unfold default_shard_count. rewrite Z.min_l by lia.
  destruct (checked_power_of_two_spec (Z.max parallelism 1 * 4)) as (k & Hk & -> & Hle); [lia|].
  cbn [mbind run_bind]. rewrite min_shards by lia.
  destruct (halve_shards_spec 7 max_bytes (Z.min k 6)) as (j & Hj & -> & H); [lia|].
  exists j. split_and!; [lia|lia|done| |done]. pose proof (Z.pow_le_mono_r 2 j k). lia.
Qed.

(** The automatic shard count is a power of two in 1..=64, at most about
    four per core, and every shard keeps at least 256 KiB unless there is only one; the
    computation never overflows on a machine of up to 2^61 cores. *)
Theorem default_shard_count_spec max_bytes parallelism :
  (0 ≤ max_bytes)%Z → (0 ≤ parallelism ≤ 2 ^ 61)%Z →
  ∃ k, (0 ≤ k ≤ 6)%Z ∧ default_shard_count max_bytes parallelism = Ret (2 ^ k)%Z ∧
    (2 ^ k < 8 * Z.max parallelism 1)%Z ∧
    (k = 0 ∨ MIN_SHARD_BYTES ≤ max_bytes / 2 ^ k)%Z.
Proof.
  by apply default_shards.
Qed.

Lemma default_shard_count_spec_witness : ∃ k, default_shard_count 16777216 4 = Ret (2 ^ k)%Z ∧ (0 ≤ k ≤ 6)%Z.
Proof.
  destruct (default_shard_count_spec 16777216 4) as (k & H1 & H2 & _); [lia|lia|]. by exists k.
Defined.

Lemma store_new_ok max_bytes count parallelism :
  (0 ≤ max_bytes)%Z → (0 ≤ parallelism ≤ 2 ^ 61)%Z →
  match count with Some n => (0 ≤ n ≤ 2 ^ 63)%Z | None => True end →
  ∃ st, store_new max_bytes count parallelism = Ret st ∧ store_ok max_bytes st ∧
    Forall (λ s, view s = ∅) (shards st).
Proof.
  intros Hm Hp Hc. unfold store_new.
  assert (∃ k, (0 ≤ k)%Z ∧ match count with
    | Some count => checked_power_of_two (Z.max count 1) | None => default_shard_count max_bytes parallelism end
    = Ret (E:=Error) (2 ^ k)%Z) as (k & Hk & ->).
  { destruct count as [n|].
    - destruct (checked_power_of_two_spec (Z.max n 1)) as (k & Hk & -> & _); [lia|]. exists k. by split; [lia|].
    - destruct (default_shards max_bytes parallelism Hm Hp) as (k & Hk & -> & _). exists k. by split; [lia|]. }
  cbn [mbind run_bind]. eexists. split; [done|]. assert (0 < 2 ^ k)%Z by lia.
  assert (Hb : (0 ≤ max_bytes / 2 ^ k)%Z) by (apply Z.div_pos; lia).
  destruct (shard_new_ok (max_bytes / 2 ^ k) Hb) as [Hok Hv].
  split; [split; cbn [shards mask]|cbn [shards]].
  - apply Forall_replicate. split; [done|]. rewrite length_replicate, Z2Nat.id by lia. cbn [budget shard_new].
    pose proof (Z.mul_div_le max_bytes (2 ^ k)). lia.
  - exists k. rewrite length_replicate, Z2Nat.id by lia. done.
  - by apply Forall_replicate.
Qed.

(** ** Operations keep the invariant *)

Lemma on_shard_ok {A} max_bytes st hash (f : Shard → Run Error (A * Shard)) (P : Shard → A → Shard → Prop) :
  store_ok max_bytes st →
  (∀ s, shard_ok s → ∃ a s', f s = Ret (a, s') ∧ shard_ok s' ∧ budget s' = budget s ∧ P s a s') →
  ∃ s a s', shards st !! shard_index st hash = Some s ∧ shard_ok s ∧
    on_shard st hash f = Ret (a, mkStore (<[shard_index st hash := s']> (shards st)) (mask st)) ∧
    P s a s' ∧ store_ok max_bytes (mkStore (<[shard_index st hash := s']> (shards st)) (mask st)).
Proof.
  intros Hst Hf. pose proof (shard_index_lt _ _ hash Hst) as Hlt.
  apply lookup_lt_is_Some in Hlt as [s Hs]. pose proof (so_shards _ _ Hst) as Hall.
  pose proof (Forall_lookup_1 _ _ _ _ Hall Hs) as [Hok Hb].
  destruct (Hf s Hok) as (a & s' & E & Hok' & Eb & HP). exists s, a, s'. split_and!; try done.
  - unfold on_shard. rewrite Hs, E. done.
  - split; cbn [shards mask]; [|rewrite length_insert; apply Hst].
    apply Forall_insert; [by rewrite length_insert|]. rewrite length_insert, Eb. done.
Qed.

Lemma each_shard_ok l f (P : Shard → nat → Shard → Prop) :
  (∀ s, shard_ok s → ∃ n s', f s = Ret (n, s') ∧ shard_ok s' ∧ budget s' = budget s ∧ P s n s') →
  Forall shard_ok l →
  ∃ n l', each_shard l f = Ret (n, l') ∧ Forall2 (λ s s', shard_ok s' ∧ budget s' = budget s ∧ ∃ m, P s m s') l l'.
Proof.
  intros Hf. induction 1 as [|s l Hs _ IH]; cbn [each_shard]; [exists 0, []; by split|].
  destruct (Hf s Hs) as (n & s' & -> & Hs' & Hb & HP). destruct IH as (m & l' & -> & Hl').
  exists (n + m), (s' :: l'). split; [done|]. constructor; [eauto|done].
Qed.

Lemma forall2_store_ok max_bytes st l' (P : Shard → Shard → Prop) :
  store_ok max_bytes st → Forall2 (λ s s', shard_ok s' ∧ budget s' = budget s ∧ P s s') (shards st) l' →
  store_ok max_bytes (mkStore l' (mask st)).
Proof.
  intros [Hs Hm] Hl. pose proof (Forall2_length _ _ _ Hl) as Hlen. split; cbn [shards mask]; [|by rewrite <-Hlen].
  rewrite <-Hlen. apply Forall_lookup. intros i s' Hi.
  destruct (Forall2_lookup_r _ _ _ _ _ Hl Hi) as (s & Hi' & Hok & Hb & _).
  pose proof (Forall_lookup_1 _ _ _ _ Hs Hi') as [_ Hle]. by rewrite Hb.
Qed.

(** The operations the engine calls. *)
Inductive StoreOp : Type :=
  | StGet (hash : Z) (key : list Z) (now : Z)
  | StForget (hash : Z) (key : list Z)
  | StInsert (hash : Z) (key : list Z) (entry : CachedAnswer) (now : Z) (allowed : bool)
  | StClear
  | StPurge (name : Name) (rtype : option RecordType)
  | StPurgeSubtree (zone : Name).

Definition store_apply (z : Sizes) (st : Store) (op : StoreOp) : Run Error Store :=
  match op with
  | StGet hash key now => '(_, st) ← store_get st hash key now; Ret st
  | StForget hash key => '(_, st) ← store_forget_failure st hash key; Ret st
  | StInsert hash key entry now allowed =>
      '(_, st) ← store_insert_if z st hash key entry now allowed; Ret st
  | StClear => '(_, st) ← store_clear st; Ret st
  | StPurge name rtype => '(_, st) ← store_purge st name rtype; Ret st
  | StPurgeSubtree zone => '(_, st) ← store_purge_subtree st zone; Ret st
  end.

Fixpoint store_run (z : Sizes) (st : Store) (ops : list StoreOp) : Run Error Store :=
  match ops with
  | [] => Ret st
  | op :: ops => st ← store_apply z st op; store_run z st ops
  end.

Lemma remove_where_ok max_bytes st matches :
  store_ok max_bytes st →
  ∃ n l', remove_where st matches = Ret (n, mkStore l' (mask st)) ∧ store_ok max_bytes (mkStore l' (mask st)) ∧
    Forall2 (λ s s', shard_ok s' ∧ view s' = view_remove (view s) matches) (shards st) l'.
Proof.
  intros Hst. unfold remove_where.
  destruct (each_shard_ok (shards st) (λ s, remove_matching s matches)
    (λ s _ s', view s' = view_remove (view s) matches)) as (n & l' & -> & Hl).
  - intros s Hs. destruct (remove_matching_ok s matches Hs) as (s' & E & H1 & H2 & H3). eauto 10.
  - eapply Forall_impl; [apply Hst|]. by intros s [? _].
  - cbn [mbind run_bind]. exists n, l'. split; [done|].
    split; [eapply forall2_store_ok; [done|]; eapply Forall2_impl; [exact Hl|]; intros s s' (?&?&H); split_and!; [done|done|exact H]|].
    eapply Forall2_impl; [exact Hl|]. intros s s' (?&?&?&?). done.
Qed.

(** ** A predicate of every stored entry *)

Section holds.
Context (P : CachedAnswer → Prop) (max_bytes : Z).

Definition shard_holds (s : Shard) : Prop := map_Forall (λ _ e, P e.2) (view s).
Definition store_holds (st : Store) : Prop := Forall shard_holds (shards st).

Lemma shard_holds_sub s s' : view s' ⊆ view s → shard_holds s → shard_holds s'.
Proof. intros Hs H k e He. by eapply H, lookup_weaken. Qed.

(** An operation on one shard that keeps the predicate there. *)
Lemma on_shard_holds {A} st hash (f : Shard → Run Error (A * Shard)) (Q : A → Prop) :
  store_ok max_bytes st → store_holds st →
  (∀ s, shard_ok s → ∃ a s', f s = Ret (a, s') ∧ shard_ok s' ∧ budget s' = budget s ∧
     (shard_holds s → shard_holds s' ∧ Q a)) →
  ∃ a st', on_shard st hash f = Ret (a, st') ∧ store_ok max_bytes st' ∧ store_holds st' ∧ Q a.
Proof.
  intros Hst Hh Hf.
  destruct (on_shard_ok max_bytes st hash f (λ s a s', shard_holds s → shard_holds s' ∧ Q a) Hst Hf)
    as (s & a & s' & Hi & _ & E & HP & Hok).
  destruct HP as [Hs' HQ]; [by eapply (Forall_lookup_1 shard_holds)|].
  eexists a, _. split; [exact E|]. split; [exact Hok|]. split; [by apply Forall_insert|exact HQ].
Qed.

Lemma store_get_holds st hash key now :
  store_ok max_bytes st → store_holds st →
  ∃ o st', store_get st hash key now = Ret (o, st') ∧ store_ok max_bytes st' ∧ store_holds st' ∧ ∀ e, o = Some e → P e.
Proof.
  intros Hst Hh. apply (on_shard_holds _ _ _ (λ o, ∀ e, o = Some e → P e) Hst Hh). intros s Hs.
  destruct (get_ok s hash key now Hs) as (s' & E & Hs' & Hv & Hb). eexists _, s'. split; [exact E|].
  split; [done|]. split; [done|]. intros H. split.
  - eapply shard_holds_sub; [|exact H]. rewrite Hv. apply view_get_sub.
  - intros e He%view_get_some. exact (H _ _ He).
Qed.

Lemma store_forget_holds st hash key :
  store_ok max_bytes st → store_holds st →
  ∃ o st', store_forget_failure st hash key = Ret (o, st') ∧ store_ok max_bytes st' ∧ store_holds st'.
Proof.
  intros Hst Hh. destruct (on_shard_holds st hash (λ s, forget_failure s hash key) (λ _, True) Hst Hh) as (a & st' & ? & ? & ? & _);
    [|eauto]. intros s Hs.
  destruct (forget_ok s hash key Hs) as (s' & E & Hs' & Hv & Hb). eexists _, s'. split; [exact E|].
  split; [done|]. split; [done|]. intros H. split; [|done]. eapply shard_holds_sub; [|exact H]. rewrite Hv.
  apply view_forget_sub.
Qed.

Lemma store_insert_holds z st hash key e now b :
  sizes_ok z → store_ok max_bytes st → store_holds st → P e →
  ∃ o st', store_insert_if z st hash key e now b = Ret (o, st') ∧ store_ok max_bytes st' ∧ store_holds st'.
Proof.
  intros Hz Hst Hh He.
  destruct (on_shard_holds st hash (λ s, if b then insert z s hash key e now else Ret (false, s)) (λ _, True) Hst Hh)
    as (a & st' & ? & ? & ? & _); [|eauto]. intros s Hs. destruct b; [|eauto 10].
  destruct (insert_ok z s hash key e now Hz Hs) as (b & s' & E & Hs' & Hb & Hv & _). eexists b, s'. split; [exact E|].
  split; [done|]. split; [done|]. intros H. split; [|done]. destruct b.
  - destruct Hv as [Hv _]. intros k x Hx. apply (lookup_weaken _ _ _ _ Hx) in Hv.
    apply lookup_insert_Some in Hv as [[_ <-]|[_ Hk]]; [done|exact (H _ _ Hk)].
  - destruct Hv as [Hv _]. eapply shard_holds_sub; [|exact H]. rewrite Hv. apply delete_subseteq.
Qed.

Lemma remove_where_holds st matches :
  store_ok max_bytes st → store_holds st →
  ∃ n st', remove_where st matches = Ret (n, st') ∧ store_ok max_bytes st' ∧ store_holds st'.
Proof.
  intros Hst Hh. destruct (remove_where_ok max_bytes st matches Hst) as (n & l & E & Hok & Hl). eexists n, _. split; [exact E|].
  split; [exact Hok|]. unfold store_holds in *. cbn [shards]. apply Forall_lookup. intros i s' Hi.
  destruct (Forall2_lookup_r _ _ _ _ _ Hl Hi) as (s & Hs & _ & Hv). eapply shard_holds_sub; [|by eapply Forall_lookup_1].
  rewrite Hv. apply map_filter_subseteq.
Qed.
End holds.

Lemma store_apply_ok z max_bytes st op :
  sizes_ok z → store_ok max_bytes st →
  ∃ st', store_apply z st op = Ret st' ∧ store_ok max_bytes st'.
Proof.
  intros Hz Hst. destruct op as [h k now|h k|h k e now allowed| |name rtype|zone]; cbn [store_apply].
  - destruct (on_shard_ok max_bytes st h (λ s, get s h k now) (λ _ _ _, True) Hst) as (s & a & s' & _ & _ & E & _ & Hok).
    + intros s Hs. destruct (get_ok s h k now Hs) as (s' & ? & ? & ? & ?). eauto 10.
    + unfold store_get. rewrite E. cbn. eauto.
  - destruct (on_shard_ok max_bytes st h (λ s, forget_failure s h k) (λ _ _ _, True) Hst) as (s & a & s' & _ & _ & E & _ & Hok).
    + intros s Hs. destruct (forget_ok s h k Hs) as (s' & ? & ? & ? & ?). eauto 10.
    + unfold store_forget_failure. rewrite E. cbn. eauto.
  - destruct (on_shard_ok max_bytes st h (λ s, if allowed then insert z s h k e now else Ret (false, s)) (λ _ _ _, True) Hst)
      as (s & a & s' & _ & _ & E & _ & Hok).
    + intros s Hs. destruct allowed; [|eauto 10]. destruct (insert_ok z s h k e now Hz Hs) as (b & s' & ? & ? & ? & _). eauto 10.
    + unfold store_insert_if. rewrite E. cbn. eauto.
  - unfold store_clear. destruct (each_shard_ok (shards st) (λ s, Ret (clear s)) (λ _ _ _, True)) as (n & l' & -> & Hl).
    + intros s Hs. pose proof (clear_ok s Hs) as H. destruct (clear s) as [n s']. exists n, s'. naive_solver.
    + eapply Forall_impl; [apply Hst|]. by intros s [? _].
    + cbn. eexists. split; [done|]. by apply (forall2_store_ok max_bytes st l' (λ _ _, ∃ _ : nat, True)).
  - unfold store_purge. destruct (wire_name name) as [w|]; [|by exists st].
    destruct (remove_where_ok max_bytes st (purge_matches w (type_code <$> rtype)) Hst) as (n & l' & -> & Hok & _). cbn. eauto.
  - unfold store_purge_subtree. destruct (wire_name zone) as [w|]; [|by exists st].
    destruct (remove_where_ok max_bytes st (subtree_matches w) Hst) as (n & l' & -> & Hok & _). cbn. eauto.
Qed.

Lemma store_run_ok z max_bytes st ops :
  sizes_ok z → store_ok max_bytes st → ∃ st', store_run z st ops = Ret st' ∧ store_ok max_bytes st'.
Proof.
  intros Hz. revert st. induction ops as [|op ops IH]; intros st Hst; cbn [store_run]; [by exists st|].
  destruct (store_apply_ok z max_bytes st op Hz Hst) as (st1 & -> & Hst1). by apply IH.
Qed.

Lemma stats_sum l stats :
  ss_bytes (foldl add_stats stats l) = (ss_bytes stats + sum_z total_bytes l)%Z ∧
  ss_capacity_bytes (foldl add_stats stats l) = (ss_capacity_bytes stats + sum_z budget l)%Z.
Proof.
  revert stats. induction l as [|s l IH]; intros stats; cbn [foldl]; [cbn; lia|].
  destruct (IH (add_stats stats s)) as [-> ->]. unfold sum_z. cbn. lia.
Qed.

Lemma store_bytes max_bytes st :
  (0 ≤ max_bytes)%Z → store_ok max_bytes st →
  (ss_bytes (store_stats st) ≤ ss_capacity_bytes (store_stats st) ≤ max_bytes)%Z.
Proof.
  intros Hm [Hs Hk]. unfold store_stats. destruct (stats_sum (shards st) (mkStats 0 0 0 0 0 0 0)) as [-> ->].
  cbn [ss_bytes ss_capacity_bytes]. rewrite !Z.add_0_l. set (n := length (shards st)) in *.
  assert (Hsum : ∀ l, Forall (λ s, shard_ok s ∧ (budget s * Z.of_nat n ≤ max_bytes)%Z) l →
    (sum_z total_bytes l ≤ sum_z budget l)%Z ∧ (sum_z budget l * Z.of_nat n ≤ max_bytes * Z.of_nat (length l))%Z).
  { unfold sum_z. induction 1 as [|s l [[_ Ht] Hb] _ IH]; cbn [foldr length]; [lia|]. lia. }
  destruct (Hsum _ Hs) as [H1 H2]. fold n in H2. split; [done|].
  destruct Hk as (k & Hk & Hn & _). assert (0 < Z.of_nat n)%Z by lia. nia.
Qed.

(** ** What a store serves *)

(** A store built from a configuration, after any operations. *)
Definition reached (z : Sizes) (max_bytes : Z) (count : option Z) (parallelism : Z) (ops : list StoreOp)
    (st : Store) : Prop :=
  (st0 ← store_new max_bytes count parallelism; store_run z st0 ops) = Ret st.

(** The limits of a 64-bit machine on a configuration. *)
Definition config_sane (max_bytes : Z) (count : option Z) (parallelism : Z) : Prop :=
  (0 ≤ max_bytes)%Z ∧ (0 ≤ parallelism ≤ 2 ^ 61)%Z ∧
  match count with Some n => (0 ≤ n ≤ 2 ^ 63)%Z | None => True end.

Lemma reached_ok z max_bytes count parallelism ops st :
  sizes_ok z → config_sane max_bytes count parallelism → reached z max_bytes count parallelism ops st →
  store_ok max_bytes st.
Proof.
  intros Hz (H1 & H2 & H3) H. unfold reached in H.
  destruct (store_new_ok max_bytes count parallelism H1 H2 H3) as (st0 & E & Hok & _).
  rewrite E in H. cbn [mbind run_bind] in H.
  destruct (store_run_ok z max_bytes st0 ops Hz Hok) as (st1 & E1 & Hok1). congruence.
Qed.

(** What [get] answers. *)
Definition store_answer (st : Store) (hash : Z) (key : list Z) (now : Z) : option CachedAnswer :=
  match store_get st hash key now with Ret (a, _) => a | _ => None end.

Lemma store_answer_view st hash key now s :
  shards st !! shard_index st hash = Some s → shard_ok s →
  store_answer st hash key now = (view_get (view s) hash key now).1.
Proof.
  intros Hs Hok. unfold store_answer, store_get, on_shard. rewrite Hs.
  destruct (get_ok s hash key now Hok) as (s' & -> & _). done.
Qed.

Lemma view_get_remove v matches hash key now :
  (view_get (view_remove v matches) hash key now).1 =
  if matches key then None else (view_get v hash key now).1.
Proof.
  unfold view_get. destruct (view_remove v matches !! hash) as [[k e]|] eqn:Er.
  - apply map_lookup_filter_Some in Er as [-> Hm]. cbn in Hm. destruct (decide (k = key)) as [<-|]; [rewrite Hm; by destruct (decide _)|].
    by destruct (matches key).
  - destruct (v !! hash) as [[k e]|] eqn:Ev; [|by destruct (matches key)].
    destruct (decide (k = key)) as [->|]; [|by destruct (matches key)].
    destruct (matches key) eqn:Em; [done|]. exfalso.
    assert (view_remove v matches !! hash = Some (key, e)) by (by apply map_lookup_filter_Some). congruence.
Qed.

Lemma remove_where_answer max_bytes st matches n st' hash key now :
  store_ok max_bytes st → remove_where st matches = Ret (n, st') →
  store_answer st' hash key now = if matches key then None else store_answer st hash key now.
Proof.
  intros Hst H. destruct (remove_where_ok max_bytes st matches Hst) as (n' & l' & E & Hst' & Hl).
  rewrite E in H. injection H as <- <-. pose proof (shard_index_lt _ _ hash Hst) as Hlt.
  apply lookup_lt_is_Some in Hlt as [s Hs]. destruct (Forall2_lookup_l _ _ _ _ _ Hl Hs) as (s' & Hs' & Hok' & Hv).
  pose proof (Forall_lookup_1 _ _ _ _ (so_shards _ _ Hst) Hs) as [Hok _].
  rewrite (store_answer_view st hash key now s) by done.
  rewrite (store_answer_view (mkStore l' (mask st)) hash key now s') by done. rewrite Hv. apply view_get_remove.
Qed.

(** The store's memory bound: whatever is asked of a store, no operation
    panics or hangs and the bytes charged to its shards never exceed their
    capacity, which never exceeds the configured [max_bytes]. *)
Theorem store_bounded z max_bytes count parallelism ops :
  sizes_ok z → config_sane max_bytes count parallelism →
  ∃ st, reached z max_bytes count parallelism ops st ∧
    (ss_bytes (store_stats st) ≤ ss_capacity_bytes (store_stats st) ≤ max_bytes)%Z.
Proof.
  intros Hz (H1 & H2 & H3). destruct (store_new_ok max_bytes count parallelism H1 H2 H3) as (st0 & E & Hok & _).
  destruct (store_run_ok z max_bytes st0 ops Hz Hok) as (st & E' & Hst). exists st.
  split; [unfold reached; by rewrite E|]. by apply store_bytes.
Qed.

(** C11: Purging a name removes its entries, for every group, class and query
    shape and for the given type only, and nothing else: afterwards a lookup
    under any query's key is a miss if the query is for that name (in any
    letter case) and type, and otherwise answers as before. *)
Theorem purge_exact z max_bytes count parallelism ops st name rtype n st' g t c rd dn q key hash now :
  sizes_ok z → config_sane max_bytes count parallelism → reached z max_bytes count parallelism ops st →
  wf_name name → wf_name q → is_u16 (type_code t) →
  store_purge st name rtype = Ret (n, st') → key_new g t c rd dn q = Some key →
  store_answer st' hash key now =
    if name_eq q name && match rtype with None => true | Some r => bool_decide (type_code t = type_code r) end
    then None else store_answer st hash key now.
Proof.
  intros Hz Hc Hr Hn Hq Ht Hp Hk. pose proof (reached_ok _ _ _ _ _ _ Hz Hc Hr) as Hok.
  unfold store_purge in Hp. rewrite (wire_name_wf name Hn) in Hp.
  rewrite (remove_where_answer _ _ _ _ _ hash key now Hok Hp).
  destruct (key_new_fields g t c rd dn q Hq Ht) as (key' & Hk' & _ & Hkn & Hkt).
  rewrite Hk in Hk'. injection Hk' as <-. unfold purge_matches. rewrite Hkn, Hkt, (wire_name_wf q Hq).
  assert (bool_decide (Some (name_wire (lower q)) = Some (name_wire (lower name))) = name_eq q name) as ->.
  { apply eq_true_iff_eq. rewrite bool_decide_eq_true, <-name_equiv_eq, <-lower_equiv. split; [|by intros ->].
    intros [= E]. by apply name_wire_inj in E; [|by apply wf_lower|by apply wf_lower]. }
  destruct rtype as [r|]; cbn [fmap option_fmap option_map]; [|done].
  rewrite (bool_decide_ext (Some (type_code t) = Some (type_code r)) (type_code t = type_code r)); [done|].
  split; [by intros [= ->]|by intros ->].
Qed.

(** Purging a subtree removes the entries of the zone and of every name
    below it, and nothing else. *)
Theorem purge_subtree_exact z max_bytes count parallelism ops st zone n st' g t c rd dn q key hash now :
  sizes_ok z → config_sane max_bytes count parallelism → reached z max_bytes count parallelism ops st →
  wf_name zone → wf_name q → is_u16 (type_code t) →
  store_purge_subtree st zone = Ret (n, st') → key_new g t c rd dn q = Some key →
  store_answer st' hash key now = if ends_with q zone then None else store_answer st hash key now.
Proof.
  intros Hz Hc Hr Hn Hq Ht Hp Hk. pose proof (reached_ok _ _ _ _ _ _ Hz Hc Hr) as Hok.
  unfold store_purge_subtree in Hp. rewrite (wire_name_wf zone Hn) in Hp.
  rewrite (remove_where_answer _ _ _ _ _ hash key now Hok Hp).
  destruct (key_new_fields g t c rd dn q Hq Ht) as (key' & Hk' & _ & Hkn & _).
  rewrite Hk in Hk'. injection Hk' as <-. unfold subtree_matches. rewrite Hkn, (wire_name_wf q Hq).
  by rewrite in_subtree_wire.
Qed.

(** ** A concrete store *)

Definition store_sizes : Sizes := mkSizes 24 40 136 152 152.

Lemma store_sizes_ok : sizes_ok store_sizes.
Proof. repeat split; discriminate. Qed.

Definition query_key (n : Name) : list Z := default [] (key_new 0 TA In true false n).

(** Answers for [a.com] and [b.com], whose hashes select different shards. *)
Definition zone_com : Name := mkName [[99; 79; 109]]%Z.
Definition store_name_b : Name := mkName [[98]; [99; 111; 109]]%Z.
Definition store_entry : CachedAnswer := answer_new example_query 0 90 0.
Definition store_ops : list StoreOp :=
  [StInsert 7 (query_key key_name_a) store_entry 0 true;
   StInsert 4294967303 (query_key store_name_b) store_entry 1 true;
   StGet 7 (query_key key_name_b) 2]%Z.

Lemma wf_store_names : wf_name key_name_a ∧ wf_name key_name_b ∧ wf_name store_name_b ∧ wf_name zone_com.
Proof. split_and!; (split; [repeat constructor; cbn; lia|cbn; lia]). Qed.

Lemma store_config : config_sane 200000 (Some 2%Z) 1.
Proof. unfold config_sane. lia. Qed.

Lemma store_reached :
  ∃ st, reached store_sizes 200000 (Some 2%Z) 1 store_ops st ∧
    store_answer st 7 (query_key key_name_b) 3 = Some store_entry ∧
    store_answer st 4294967303 (query_key store_name_b) 3 = Some store_entry ∧
    (∃ st', store_purge st key_name_b (Some (TOther 1)) = Ret (1, st')) ∧
    (∃ st', store_purge_subtree st zone_com = Ret (2, st')).
Proof.
  eexists. split; [vm_compute; reflexivity|]. split; [vm_compute; reflexivity|].
  split; [vm_compute; reflexivity|]. split; eexists; vm_compute; reflexivity.
Qed.

Lemma store_bounded_witness :
  ∃ st, reached store_sizes 200000 (Some 2%Z) 1 store_ops st ∧ (ss_bytes (store_stats st) ≤ 200000)%Z.
Proof.
  destruct (store_bounded store_sizes 200000 (Some 2%Z) 1 store_ops store_sizes_ok store_config) as (st & H & Hb1 & Hb2).
  exists st. split; [exact H|]. exact (Z.le_trans _ _ _ Hb1 Hb2).
Defined.

Lemma purge_exact_witness :
  ∃ st st', reached store_sizes 200000 (Some 2%Z) 1 store_ops st ∧
    store_purge st key_name_b (Some (TOther 1)) = Ret (1, st') ∧
    store_answer st' 7 (query_key key_name_a) 3 = None ∧
    store_answer st' 4294967303 (query_key store_name_b) 3 = Some store_entry.
Proof.
  destruct store_reached as (st & Hr & _ & Hb & (st' & Hp) & _). exists st, st'.
  destruct wf_store_names as (Wa & Wb & Wc & _).
  pose proof (purge_exact _ _ _ _ _ st key_name_b (Some (TOther 1)) 1 st' 0 TA In true false key_name_a
    (query_key key_name_a) 7 3 store_sizes_ok store_config Hr Wb Wa ltac:(cbn; lia) Hp eq_refl) as H1.
  pose proof (purge_exact _ _ _ _ _ st key_name_b (Some (TOther 1)) 1 st' 0 TA In true false store_name_b
    (query_key store_name_b) 4294967303 3 store_sizes_ok store_config Hr Wb Wc ltac:(cbn; lia) Hp eq_refl) as H2.
  refine (conj Hr (conj Hp (conj H1 _))). exact (eq_trans H2 Hb).
Defined.

Lemma purge_subtree_exact_witness :
  ∃ st st', reached store_sizes 200000 (Some 2%Z) 1 store_ops st ∧
    store_purge_subtree st zone_com = Ret (2, st') ∧
    store_answer st' 7 (query_key key_name_a) 3 = None.
Proof.
  destruct store_reached as (st & Hr & _ & _ & _ & (st' & Hp)). exists st, st'.
  destruct wf_store_names as (Wa & _ & _ & Wz).
  pose proof (purge_subtree_exact _ _ _ _ _ st zone_com 2 st' 0 TA In true false key_name_a
    (query_key key_name_a) 7 3 store_sizes_ok store_config Hr Wz Wa ltac:(cbn; lia) Hp eq_refl) as H1.
  exact (conj Hr (conj Hp H1)).
Defined.
