(* ===== verification/Flight.v ===== *)
(** * In-flight query coalescing

    Models [crates/dns-lattice/src/cache/flight.rs]: the registry of flights,
    the leader's guard and the followers. The registry's shard locks and the
    channel operations are the atomic steps; [finish] and [Drop] are each two
    of them, with other callers' steps in between. The watch channel is tokio's
    and enters through the interface [Watch], which states what its
    documentation promises. *)

From stdpp Require Import base numbers list gmap.
From S2P Require Import Prelude CoreError Name RecordData Header Message Entry.

(** ** The watch channel *)

(** A watch channel holds a value and counts its receivers; a channel whose
    first receiver was dropped has none. *)
Class Watch (S : Type) : Type := {
  chan : Type;
  watch_channel : S → chan;
  subscribe : chan → chan;
  drop_receiver : chan → chan;
  receiver_count : chan → nat;
  borrow : chan → S;
  send_replace : S → chan → chan;
}.

Class WatchLaws (S : Type) `{Watch S} : Prop := {
  channel_value v : borrow (watch_channel v) = v;
  channel_count v : receiver_count (watch_channel v) = 0;
  subscribe_value c : borrow (subscribe c) = borrow c;
  subscribe_count c : receiver_count (subscribe c) = Datatypes.S (receiver_count c);
  drop_value c : borrow (drop_receiver c) = borrow c;
  drop_count c : receiver_count (drop_receiver c) = pred (receiver_count c);
  replace_value v c : borrow (send_replace v c) = v;
  replace_count v c : receiver_count (send_replace v c) = receiver_count c;
}.

(** A channel that satisfies the interface. *)
Definition counted_watch (S : Type) : Watch S := {|
  chan := S * nat;
  watch_channel := λ v, (v, 0);
  subscribe := λ c, (c.1, Datatypes.S c.2);
  drop_receiver := λ c, (c.1, pred c.2);
  receiver_count := snd;
  borrow := fst;
  send_replace := λ v c, (v, c.2);
|}.

Lemma counted_watch_laws S : @WatchLaws S (counted_watch S).
Proof. by split. Qed.

Definition FLIGHT_SHARDS : Z := 16.

Inductive Outcome : Type :=
  | Cached (entry : CachedAnswer)
  | Raw (answer : Message)
  | Failed (error : Error)
  | OStale (entry : CachedAnswer).

Inductive State : Type :=
  | Pending
  | Done (o : Outcome)
  | Abandoned.

Inductive Wait : Type :=
  | WDone (o : Outcome)
  | WAbandoned.

Section flights.
Context `{WS : Watch State}.

(** A sender is named by its channel's index; [Arc::ptr_eq] compares them. *)
Record Registered : Type := mkRegistered { rg_key : list Z; rg_sender : nat }.

(** The guard of a live leader. [finished] is set only by [finish], which
    consumes the guard. *)
Record LeaderGuard : Type := mkGuard { lg_hash : Z; lg_sender : nat; lg_registered : bool }.

Inductive Join : Type :=
  | Follow (sender : nat)
  | Lead (guard : LeaderGuard).

(** The registry's shards and every channel made so far. *)
Record Flights : Type := mkFlights { fshards : list (gmap Z Registered); chans : list chan }.

Definition flights_new : Flights := mkFlights (replicate 16 ∅) [].

Definition flight_shard (hash : Z) : nat := Z.to_nat (Z.land (Z.shiftr hash 32) (FLIGHT_SHARDS - 1)).

Definition registered_at (f : Flights) (hash : Z) : option Registered :=
  m ← fshards f !! flight_shard hash; m !! hash.

Definition alter_shard (f : Flights) (hash : Z) (g : gmap Z Registered → gmap Z Registered) : Flights :=
  mkFlights (alter g (flight_shard hash) (fshards f)) (chans f).

Definition alter_chan (f : Flights) (c : nat) (g : chan → chan) : Flights :=
  mkFlights (fshards f) (alter g c (chans f)).

Definition new_chan (f : Flights) : nat * Flights :=
  (length (chans f), mkFlights (fshards f) (chans f ++ [watch_channel Pending])).

(** One critical section of the shard's lock. *)
Definition join_or_lead (f : Flights) (hash : Z) (key : list Z) : Join * Flights :=
  match registered_at f hash with
  | Some registered =>
      if decide (rg_key registered = key)
      then (Follow (rg_sender registered), alter_chan f (rg_sender registered) subscribe)
      else let '(sender, f) := new_chan f in (Lead (mkGuard hash sender false), f)
  | None =>
      let '(sender, f) := new_chan f in
      (Lead (mkGuard hash sender true), alter_shard f hash (<[hash := mkRegistered key sender]>))
  end.

Definition unregister (f : Flights) (hash : Z) (sender : nat) : Flights :=
  match registered_at f hash with
  | Some registered =>
      if decide (rg_sender registered = sender) then alter_shard f hash (delete hash) else f
  | None => f
  end.

Definition follower (f : Flights) (g : LeaderGuard) : Flights := alter_chan f (lg_sender g) subscribe.

(** The two halves of [finish]: unregistering, then publishing. *)
Definition close (f : Flights) (g : LeaderGuard) : Flights :=
  if lg_registered g then unregister f (lg_hash g) (lg_sender g) else f.

Definition publish (f : Flights) (sender : nat) (outcome : Outcome) : Flights :=
  match chans f !! sender with
  | Some c => if decide (0 < receiver_count c) then alter_chan f sender (send_replace (Done outcome)) else f
  | None => f
  end.

(** The second half of [Drop]. *)
Definition abandon (f : Flights) (sender : nat) : Flights := alter_chan f sender (send_replace Abandoned).

(** What [wait] sees when it looks; [None] keeps it waiting. *)
Definition wait_poll (f : Flights) (sender : nat) : option Wait :=
  match borrow <$> chans f !! sender with
  | Some Pending => None
  | Some (Done o) => Some (WDone o)
  | Some Abandoned | None => Some WAbandoned
  end.

(** ** Interleavings *)

(** Where a live leader is: still working, or past its unregistration with a
    result ([Some]) or being dropped ([None]). *)
Inductive Phase : Type :=
  | Working
  | Closing (outcome : option Outcome).

(** All callers: the live leaders by sender and the waiting followers, one
    list entry for each. *)
Record Sys : Type := mkSys {
  flights : Flights;
  leaders : gmap nat (LeaderGuard * list Z * Phase);
  waiting : list nat;
}.

Definition sys_new : Sys := mkSys flights_new ∅ [].

Inductive step : Sys → Sys → Prop :=
  | step_follow f ls ws hash key sender f' :
      join_or_lead f hash key = (Follow sender, f') →
      step (mkSys f ls ws) (mkSys f' ls (sender :: ws))
  | step_lead f ls ws hash key g f' :
      join_or_lead f hash key = (Lead g, f') →
      step (mkSys f ls ws) (mkSys f' (<[lg_sender g := (g, key, Working)]> ls) ws)
  | step_leader_follows f ls ws g key :
      ls !! lg_sender g = Some (g, key, Working) →
      step (mkSys f ls ws) (mkSys (follower f g) ls (lg_sender g :: ws))
  | step_close f ls ws g key o :
      ls !! lg_sender g = Some (g, key, Working) →
      step (mkSys f ls ws) (mkSys (close f g) (<[lg_sender g := (g, key, Closing o)]> ls) ws)
  | step_publish f ls ws g key o :
      ls !! lg_sender g = Some (g, key, Closing (Some o)) →
      step (mkSys f ls ws) (mkSys (publish f (lg_sender g) o) (delete (lg_sender g) ls) ws)
  | step_abandon f ls ws g key :
      ls !! lg_sender g = Some (g, key, Closing None) →
      step (mkSys f ls ws) (mkSys (abandon f (lg_sender g)) (delete (lg_sender g) ls) ws)
  | step_leave f ls ws1 ws2 c :
      (* a follower that has its result, or was itself cancelled *)
      step (mkSys f ls (ws1 ++ c :: ws2)) (mkSys (alter_chan f c drop_receiver) ls (ws1 ++ ws2)).

Definition reachable (s : Sys) : Prop := rtc step sys_new s.

(** The steps a leader takes by itself: it closes its flight, when its answer is
    there or its future is dropped, and then publishes or abandons. *)
Inductive leader_step : Sys → Sys → Prop :=
  | leader_closes f ls ws g key o :
      ls !! lg_sender g = Some (g, key, Working) →
      leader_step (mkSys f ls ws) (mkSys (close f g) (<[lg_sender g := (g, key, Closing o)]> ls) ws)
  | leader_publishes f ls ws g key o :
      ls !! lg_sender g = Some (g, key, Closing (Some o)) →
      leader_step (mkSys f ls ws) (mkSys (publish f (lg_sender g) o) (delete (lg_sender g) ls) ws)
  | leader_abandons f ls ws g key :
      ls !! lg_sender g = Some (g, key, Closing None) →
      leader_step (mkSys f ls ws) (mkSys (abandon f (lg_sender g)) (delete (lg_sender g) ls) ws).

(** ** The invariant *)

Definition occ (c : nat) (ws : list nat) : nat := length (filter (λ x, x = c) ws).

Record sys_inv (s : Sys) : Prop := {
  iv_shards : length (fshards (flights s)) = 16;
  iv_registered h r : registered_at (flights s) h = Some r →
    ∃ g, leaders s !! rg_sender r = Some (g, rg_key r, Working) ∧ lg_hash g = h ∧ lg_registered g = true;
  iv_leader c g key ph : leaders s !! c = Some (g, key, ph) →
    lg_sender g = c ∧ (∃ ch, chans (flights s) !! c = Some ch ∧ borrow ch = Pending) ∧
    (ph = Working → lg_registered g = true → registered_at (flights s) (lg_hash g) = Some (mkRegistered key c));
  iv_chan c ch : chans (flights s) !! c = Some ch →
    receiver_count ch = occ c (waiting s) ∧
    (leaders s !! c = None → occ c (waiting s) = 0 ∨ borrow ch ≠ Pending);
  iv_waiting c : c ∈ waiting s → c < length (chans (flights s));
}.

Lemma flight_shard_lt h : flight_shard h < 16.
Proof.
  unfold flight_shard, FLIGHT_SHARDS. change (16 - 1)%Z with (Z.ones 4). rewrite Z.land_ones by done.
  pose proof (Z.mod_pos_bound (Z.shiftr h 32) (2 ^ 4) ltac:(done)). lia.
Qed.

Lemma registered_insert f h r h' :
  length (fshards f) = 16 →
  registered_at (alter_shard f h (<[h := r]>)) h' = if decide (h = h') then Some r else registered_at f h'.
Proof.
  intros Hl. unfold registered_at, alter_shard. cbn [fshards]. pose proof (flight_shard_lt h) as Hlt.
  rewrite <-Hl in Hlt. apply lookup_lt_is_Some in Hlt as [m Hm].
  destruct (decide (flight_shard h = flight_shard h')) as [E|E].
  - rewrite <-E, list_lookup_alter_eq, Hm. cbn. rewrite lookup_insert. done.
  - rewrite list_lookup_alter_ne by done. rewrite decide_False by congruence. done.
Qed.

Lemma registered_delete f h h' :
  length (fshards f) = 16 →
  registered_at (alter_shard f h (delete h)) h' = if decide (h = h') then None else registered_at f h'.
Proof.
  intros Hl. unfold registered_at, alter_shard. cbn [fshards]. pose proof (flight_shard_lt h) as Hlt.
  rewrite <-Hl in Hlt. apply lookup_lt_is_Some in Hlt as [m Hm].
  destruct (decide (flight_shard h = flight_shard h')) as [E|E].
  - rewrite <-E, list_lookup_alter_eq, Hm. cbn. rewrite lookup_delete. done.
  - rewrite list_lookup_alter_ne by done. rewrite decide_False by congruence. done.
Qed.

Lemma occ_cons c x ws : occ c (x :: ws) = (if decide (x = c) then 1 else 0) + occ c ws.
Proof. unfold occ. rewrite filter_cons. by destruct (decide (x = c)). Qed.

Lemma occ_app c ws1 ws2 : occ c (ws1 ++ ws2) = occ c ws1 + occ c ws2.
Proof. unfold occ. by rewrite filter_app, length_app. Qed.

Lemma occ_zero c ws : c ∉ ws → occ c ws = 0.
Proof.
  induction ws as [|x ws IH]; intros H; [done|]. apply not_elem_of_cons in H as [H1 H2].
  rewrite occ_cons, decide_False by congruence. by apply IH.
Qed.

Lemma occ_pos c ws : c ∈ ws → 0 < occ c ws.
Proof.
  induction ws as [|x ws IH]; intros H; [by apply not_elem_of_nil in H|]. rewrite occ_cons.
  apply elem_of_cons in H as [->|H]; [rewrite decide_True by done; lia|specialize (IH H); lia].
Qed.

Context {WL : WatchLaws State}.

Lemma inv_subscribe f ls ws c x :
  sys_inv (mkSys f ls ws) → ls !! c = Some x → sys_inv (mkSys (alter_chan f c subscribe) ls (c :: ws)).
Proof.
  intros [H1 H2 H3 H4 H5] Hc. cbn [flights leaders waiting] in *. destruct x as [[g key] ph].
  destruct (H3 _ _ _ _ Hc) as (_ & (ch & Hch & _) & _).
  split; cbn [flights leaders waiting alter_chan fshards chans].
  - done.
  - exact H2.
  - intros c' g' key' ph' Hl. destruct (H3 _ _ _ _ Hl) as (E & (ch' & Hch' & Hb) & Hr). split; [done|]. split; [|done].
    destruct (decide (c = c')) as [<-|Hne].
    + exists (subscribe ch'). rewrite list_lookup_alter_eq, Hch'. split; [done|]. by rewrite subscribe_value.
    + exists ch'. by rewrite list_lookup_alter_ne.
  - intros c' ch' Hl. rewrite occ_cons. destruct (decide (c = c')) as [<-|Hne].
    + rewrite list_lookup_alter_eq, Hch in Hl. injection Hl as <-. destruct (H4 _ _ Hch) as [Hn _].
      rewrite subscribe_count, Hn. split; [done|]. congruence.
    + rewrite list_lookup_alter_ne in Hl by done. by apply H4.
  - intros c' [->|Hin]%elem_of_cons; rewrite length_alter; [by apply lookup_lt_Some in Hch|auto].
Qed.

Lemma new_chan_lookup f c ch :
  chans f ++ [watch_channel Pending] = chans f ++ [watch_channel Pending] →
  (chans f ++ [watch_channel Pending]) !! c = Some ch →
  chans f !! c = Some ch ∨ c = length (chans f) ∧ ch = watch_channel Pending.
Proof. intros _ [H|[Hle H]]%lookup_app_Some; [by left|right]. apply list_lookup_singleton_Some in H as [? <-]. split; [lia|done]. Qed.

Lemma inv_lead f ls ws h key (reg : bool) :
  sys_inv (mkSys f ls ws) → (reg = true → registered_at f h = None) →
  let f1 := (new_chan f).2 in
  sys_inv (mkSys (if reg then alter_shard f1 h (<[h := mkRegistered key (length (chans f))]>) else f1)
    (<[length (chans f) := (mkGuard h (length (chans f)) reg, key, Working)]> ls) ws).
Proof.
  intros [H1 H2 H3 H4 H5] Hreg f1. cbn [flights leaders waiting] in *. set (n := length (chans f)) in *.
  assert (Hn : ls !! n = None).
  { destruct (ls !! n) as [[[g k] ph]|] eqn:E; [|done]. destruct (H3 _ _ _ _ E) as (_ & (ch & Hch & _) & _).
    apply lookup_lt_Some in Hch. unfold n in Hch. lia. }
  assert (Hc : chans (if reg then alter_shard f1 h (<[h := mkRegistered key n]>) else f1) =
    chans f ++ [watch_channel Pending]) by by destruct reg.
  assert (Hr : ∀ h', registered_at (if reg then alter_shard f1 h (<[h := mkRegistered key n]>) else f1) h' =
    if decide (reg = true ∧ h = h') then Some (mkRegistered key n) else registered_at f h').
  { intros h'. destruct reg.
    - rewrite registered_insert by done. destruct (decide (h = h')), (decide (true = true ∧ h = h')); naive_solver.
    - rewrite decide_False by naive_solver. done. }
  split; cbn [flights leaders waiting].
  - destruct reg; [cbn; by rewrite length_alter|done].
  - intros h' r. rewrite Hr. destruct (decide _) as [[-> ->]|Hne].
    + intros [= <-]. cbn. rewrite lookup_insert_eq. eauto.
    + intros (g & Hg & ?)%H2. exists g. rewrite lookup_insert_ne; [done|]. intros E. rewrite <-E in Hg. congruence.
  - intros c g' key' ph' Hl. rewrite Hc, Hr. apply lookup_insert_Some in Hl as [[<- [= <- <- <-]]|[Hne Hl]].
    + split; [done|]. split.
      * exists (watch_channel Pending). rewrite lookup_app_r, Nat.sub_diag by done. split; [done|]. by rewrite channel_value.
      * cbn. intros _ ->. by rewrite decide_True.
    + destruct (H3 _ _ _ _ Hl) as (E & (ch' & Hch' & Hb) & Hw). split; [done|]. split.
      * exists ch'. by rewrite (lookup_app_l_Some _ _ _ _ Hch').
      * intros Hph Hgr. specialize (Hw Hph Hgr). destruct (decide _) as [[Ht Eh]|]; [|done].
        rewrite <-Eh, (Hreg Ht) in Hw. done.
  - intros c ch Hl. rewrite Hc in Hl. apply new_chan_lookup in Hl as [Hl|[-> ->]]; [|..|done].
    + destruct (H4 _ _ Hl) as [Hn' Hp]. split; [done|]. intros Hnone. apply Hp.
      by apply lookup_insert_None in Hnone as [? _].
    + fold n. rewrite channel_count. rewrite occ_zero; [split; [done|by left]|].
      intros Hin%H5. unfold n in Hin. lia.
  - intros c Hin. rewrite Hc, length_app. specialize (H5 _ Hin). lia.
Qed.

Lemma inv_close f ls ws g key o :
  sys_inv (mkSys f ls ws) → ls !! lg_sender g = Some (g, key, Working) →
  sys_inv (mkSys (close f g) (<[lg_sender g := (g, key, Closing o)]> ls) ws).
Proof.
  intros [H1 H2 H3 H4 H5] Hg. cbn [flights leaders waiting] in *.
  destruct (H3 _ _ _ _ Hg) as (_ & _ & Hreg). specialize (Hreg eq_refl).
  set (b := lg_registered g) in *.
  assert (Hc : chans (close f g) = chans f ∧ length (fshards (close f g)) = 16).
  { unfold close, unregister. destruct (lg_registered g); [|done]. destruct (registered_at _ _); [|done].
    destruct (decide _); [|done]. cbn. by rewrite length_alter. }
  destruct Hc as [Hc Hlen].
  assert (Hr : ∀ h', registered_at (close f g) h' =
    if decide (b = true ∧ lg_hash g = h') then None else registered_at f h').
  { intros h'. unfold close. fold b. destruct b eqn:Eb.
    - unfold unregister. rewrite (Hreg eq_refl). cbn [rg_sender]. rewrite decide_True by done.
      rewrite registered_delete by done. destruct (decide (lg_hash g = h')), (decide (true = true ∧ lg_hash g = h')); naive_solver.
    - rewrite decide_False by naive_solver. done. }
  split; cbn [flights leaders waiting]; try done; rewrite ?Hc.
  - intros h' r. rewrite Hr. destruct (decide _) as [|Hne]; [done|]. intros Hreg'.
    destruct (H2 _ _ Hreg') as (g' & Hg' & Hh & Hb). exists g'. rewrite lookup_insert_ne; [done|].
    intros E. rewrite <-E, Hg in Hg'. injection Hg' as <- _. apply Hne. done.
  - intros c g' key' ph' Hl. rewrite Hr. apply lookup_insert_Some in Hl as [[<- [= <- <- <-]]|[Hne Hl]].
    + destruct (H3 _ _ _ _ Hg) as (? & ? & _). split_and!; done.
    + destruct (H3 _ _ _ _ Hl) as (E & Hch & Hw). split_and!; [done|done|]. intros Hph Hgr.
      specialize (Hw Hph Hgr). destruct (decide _) as [[Hb Hh]|]; [|done].
      specialize (Hreg Hb). rewrite Hh, Hw in Hreg. injection Hreg as _ Hs. congruence.
  - intros c ch Hl. destruct (H4 _ _ Hl) as [Hn Hp]. split; [done|]. intros Hnone. apply Hp.
    by apply lookup_insert_None in Hnone as [? _].
  - done.
Qed.

(** Ending a leader with a result in its channel, or with nobody waiting. *)
Lemma inv_end f f' ls ws g key o :
  sys_inv (mkSys f ls ws) → ls !! lg_sender g = Some (g, key, Closing o) →
  fshards f' = fshards f → length (chans f') = length (chans f) →
  (∀ c, c ≠ lg_sender g → chans f' !! c = chans f !! c) →
  (∀ ch, chans f' !! lg_sender g = Some ch →
     receiver_count ch = occ (lg_sender g) ws ∧ (occ (lg_sender g) ws = 0 ∨ borrow ch ≠ Pending)) →
  sys_inv (mkSys f' (delete (lg_sender g) ls) ws).
Proof.
  intros [H1 H2 H3 H4 H5] Hg Hs Hlen Hne Hch. cbn [flights leaders waiting] in *.
  assert (Hr : ∀ h, registered_at f' h = registered_at f h) by (intros h; unfold registered_at; by rewrite Hs).
  split; cbn [flights leaders waiting].
  - by rewrite Hs.
  - intros h r. rewrite Hr. intros (g' & Hg' & ?)%H2. exists g'. rewrite lookup_delete_ne; [done|].
    intros E. rewrite <-E, Hg in Hg'. done.
  - intros c g' key' ph' [Hc Hl]%lookup_delete_Some. rewrite Hr, Hne by done. by apply H3.
  - intros c ch Hl. destruct (decide (c = lg_sender g)) as [->|Hc].
    + destruct (Hch _ Hl). done.
    + rewrite Hne in Hl by done. rewrite lookup_delete_ne by done. by apply H4.
  - intros c Hin. rewrite Hlen. auto.
Qed.

Lemma inv_publish f ls ws g key o :
  sys_inv (mkSys f ls ws) → ls !! lg_sender g = Some (g, key, Closing (Some o)) →
  sys_inv (mkSys (publish f (lg_sender g) o) (delete (lg_sender g) ls) ws).
Proof.
  intros Hi Hg. destruct (iv_leader _ Hi _ _ _ _ Hg) as (_ & (ch & Hch & _) & _). cbn [flights] in Hch.
  destruct (iv_chan _ Hi _ _ Hch) as [Hn _]. cbn [waiting] in Hn. unfold publish. rewrite Hch.
  destruct (decide (0 < receiver_count ch)) as [Hpos|Hz]; eapply inv_end; try done; cbn [chans fshards alter_chan].
  - by rewrite length_alter.
  - intros c Hc. by rewrite list_lookup_alter_ne.
  - intros ch'. rewrite list_lookup_alter_eq, Hch. intros [= <-].
    rewrite replace_count, replace_value. split; [done|by right].
  - intros ch'. rewrite Hch. intros [= <-]. split; [done|left; lia].
Qed.

Lemma inv_abandon f ls ws g key :
  sys_inv (mkSys f ls ws) → ls !! lg_sender g = Some (g, key, Closing None) →
  sys_inv (mkSys (abandon f (lg_sender g)) (delete (lg_sender g) ls) ws).
Proof.
  intros Hi Hg. destruct (iv_leader _ Hi _ _ _ _ Hg) as (_ & (ch & Hch & _) & _). cbn [flights] in Hch.
  destruct (iv_chan _ Hi _ _ Hch) as [Hn _]. cbn [waiting] in Hn.
  eapply inv_end; try done; unfold abandon; cbn [chans fshards alter_chan].
  - by rewrite length_alter.
  - intros c Hc. by rewrite list_lookup_alter_ne.
  - intros ch'. rewrite list_lookup_alter_eq, Hch. intros [= <-].
    rewrite replace_count, replace_value. split; [done|by right].
Qed.

Lemma inv_leave f ls ws1 ws2 c :
  sys_inv (mkSys f ls (ws1 ++ c :: ws2)) → sys_inv (mkSys (alter_chan f c drop_receiver) ls (ws1 ++ ws2)).
Proof.
  intros [H1 H2 H3 H4 H5]. cbn [flights leaders waiting] in *.
  split; cbn [flights leaders waiting alter_chan fshards chans].
  - done.
  - exact H2.
  - intros c' g key ph Hl. destruct (H3 _ _ _ _ Hl) as (E & (ch & Hch & Hb) & Hr). split; [done|]. split; [|done].
    destruct (decide (c = c')) as [<-|Hne].
    + exists (drop_receiver ch). rewrite list_lookup_alter_eq, Hch. split; [done|]. by rewrite drop_value.
    + exists ch. by rewrite list_lookup_alter_ne.
  - intros c' ch' Hl. destruct (decide (c = c')) as [<-|Hne].
    + rewrite list_lookup_alter_eq in Hl. destruct (chans f !! c) as [ch|] eqn:Hch; [|done]. injection Hl as <-.
      destruct (H4 _ _ Hch) as [Hn Hp]. rewrite occ_app, occ_cons, decide_True in * by done.
      rewrite drop_count, drop_value, Hn. split; [lia|]. intros Hnone. specialize (Hp Hnone).
      destruct Hp as [Hp|Hp]; [lia|by right].
    + rewrite list_lookup_alter_ne in Hl by done. destruct (H4 _ _ Hl) as [Hn Hp].
      rewrite occ_app, occ_cons, decide_False in * by done. done.
  - intros c' Hin. rewrite length_alter. apply H5. apply elem_of_app in Hin as [?|?]; apply elem_of_app; [by left|right; by right].
Qed.

Lemma inv_new : sys_inv sys_new.
Proof.
  assert (Hr : ∀ h, registered_at flights_new h = None).
  { intros h. unfold registered_at, flights_new. cbn [fshards].
    destruct (replicate 16 ∅ !! flight_shard h) as [m|] eqn:E; [|done].
    apply lookup_replicate in E as [-> _]. cbn. apply lookup_empty. }
  split; cbn [flights leaders waiting sys_new]; try done.
  - intros h r. by rewrite Hr.
  - by intros c ?%not_elem_of_nil.
Qed.

Lemma join_cases f hash key :
  match registered_at f hash with
  | Some r => if decide (rg_key r = key)
              then join_or_lead f hash key = (Follow (rg_sender r), alter_chan f (rg_sender r) subscribe)
              else join_or_lead f hash key = (Lead (mkGuard hash (length (chans f)) false), (new_chan f).2)
  | None => join_or_lead f hash key = (Lead (mkGuard hash (length (chans f)) true),
              alter_shard (new_chan f).2 hash (<[hash := mkRegistered key (length (chans f))]>))
  end.
Proof.
  unfold join_or_lead. destruct (registered_at f hash) as [r|]; [|done]. by destruct (decide _).
Qed.

Lemma flight_step_inv s s' : step s s' → sys_inv s → sys_inv s'.
Proof.
  intros Hstep Hi. destruct Hstep as [f ls ws h key c f' E|f ls ws h key g f' E|f ls ws g key Hg
    |f ls ws g key o Hg|f ls ws g key o Hg|f ls ws g key Hg|f ls ws1 ws2 c].
  - pose proof (join_cases f h key) as J. destruct (registered_at f h) as [r|] eqn:Er; [|congruence].
    destruct (decide _); [|congruence]. rewrite J in E. injection E as <- <-.
    destruct (iv_registered _ Hi h r Er) as (g & Hg & _). by eapply inv_subscribe.
  - pose proof (join_cases f h key) as J. destruct (registered_at f h) as [r|] eqn:Er; [destruct (decide _)|].
    + congruence.
    + rewrite J in E. injection E as <- <-. by apply (inv_lead f ls ws h key false).
    + rewrite J in E. injection E as <- <-. by apply (inv_lead f ls ws h key true).
  - by eapply inv_subscribe.
  - by eapply inv_close.
  - by eapply inv_publish.
  - by eapply inv_abandon.
  - by apply inv_leave.
Qed.

Lemma flight_reachable_inv s : reachable s → sys_inv s.
Proof.
  intros H. assert (Hgen : ∀ x y, rtc step x y → sys_inv x → sys_inv y) by (induction 1; eauto using flight_step_inv).
  exact (Hgen _ _ H inv_new).
Qed.

(** ** A predicate of every published outcome *)

Section outcomes.
Context (P : Outcome → Prop).

Definition chan_holds (c : chan) : Prop := ∀ o, borrow c = Done o → P o.
Definition flights_hold (f : Flights) : Prop := Forall chan_holds (chans f).

Lemma flights_hold_new : flights_hold flights_new.
Proof. by apply Forall_nil. Qed.

Lemma alter_chan_holds f c g :
  (∀ ch, chan_holds ch → chan_holds (g ch)) → flights_hold f → flights_hold (alter_chan f c g).
Proof.
  intros Hg Hf. apply Forall_alter; [done|]. intros ch _ Hch. by apply Hg.
Qed.

Lemma subscribe_holds f c : flights_hold f → flights_hold (alter_chan f c subscribe).
Proof. apply alter_chan_holds. intros ch H o. rewrite subscribe_value. apply H. Qed.

Lemma drop_receiver_holds f c : flights_hold f → flights_hold (alter_chan f c drop_receiver).
Proof. apply alter_chan_holds. intros ch H o. rewrite drop_value. apply H. Qed.

Lemma join_holds f hash key : flights_hold f → flights_hold (join_or_lead f hash key).2.
Proof.
  intros Hf. assert (Hn : flights_hold (new_chan f).2).
  { apply Forall_app. split; [exact Hf|]. apply Forall_singleton. intros o. by rewrite channel_value. }
  pose proof (join_cases f hash key) as H. destruct (registered_at f hash) as [r|]; [destruct (decide _)|]; rewrite H; [|done..].
  by apply subscribe_holds.
Qed.

Lemma close_holds f g : flights_hold f → flights_hold (close f g).
Proof.
  intros Hf. unfold close, unregister. destruct (lg_registered g); [|done]. destruct (registered_at _ _) as [r|]; [|done].
  by destruct (decide _).
Qed.

Lemma publish_holds f c o : P o → flights_hold f → flights_hold (publish f c o).
Proof.
  intros Ho Hf. unfold publish. destruct (chans f !! c) as [ch|]; [|done]. destruct (decide _); [|done].
  apply alter_chan_holds; [|done]. intros ch' _ o'. rewrite replace_value. by intros [= <-].
Qed.

Lemma abandon_holds f c : flights_hold f → flights_hold (abandon f c).
Proof. apply alter_chan_holds. intros ch _ o. by rewrite replace_value. Qed.

(** What a follower is given holds. *)
Lemma wait_poll_holds f c o : flights_hold f → wait_poll f c = Some (WDone o) → P o.
Proof.
  intros Hf. unfold wait_poll. destruct (chans f !! c) as [ch|] eqn:Ec; [|done]. cbn.
  destruct (borrow ch) as [|o'|] eqn:Eb; [done| |done]. intros [= ->]. exact (Forall_lookup_1 _ _ _ _ Hf Ec o Eb).
Qed.
End outcomes.

(** ** Properties *)

(** Coalescing is exact. In every reachable state [join_or_lead] follows
    the leader working on exactly that key under that hash if there is one,
    leads privately when the hash belongs to another key, and otherwise leads
    a flight that every later caller for the key will find: so two live
    leaders never both have a registered flight for one key. *)
Theorem coalesce_exact s hash key :
  reachable s →
  (∀ c g, leaders s !! c = Some (g, key, Working) → lg_registered g = true → lg_hash g = hash →
     (join_or_lead (flights s) hash key).1 = Follow c) ∧
  (∀ c, (join_or_lead (flights s) hash key).1 = Follow c →
     ∃ g, leaders s !! c = Some (g, key, Working) ∧ lg_hash g = hash) ∧
  (∀ g, (join_or_lead (flights s) hash key).1 = Lead g →
     leaders s !! lg_sender g = None ∧ lg_hash g = hash ∧
     if lg_registered g
     then (join_or_lead (join_or_lead (flights s) hash key).2 hash key).1 = Follow (lg_sender g)
     else ∃ c g' key', leaders s !! c = Some (g', key', Working) ∧ lg_hash g' = hash ∧ key' ≠ key).
Proof.
  intros Hs%flight_reachable_inv. pose proof (join_cases (flights s) hash key) as J.
  assert (Hfresh : leaders s !! length (chans (flights s)) = None).
  { destruct (leaders s !! _) as [[[g k] ph]|] eqn:E; [|done].
    destruct (iv_leader _ Hs _ _ _ _ E) as (_ & (ch & Hch & _) & _). apply lookup_lt_Some in Hch. lia. }
  split; [|split].
  - intros c g Hl Hr <-. destruct (iv_leader _ Hs _ _ _ _ Hl) as (_ & _ & H). rewrite (H eq_refl Hr) in J.
    cbn [rg_key rg_sender] in J. rewrite decide_True in J by done. by rewrite J.
  - intros c E. destruct (registered_at (flights s) hash) as [r|] eqn:Er; [|rewrite J in E; done].
    destruct (iv_registered _ Hs _ _ Er) as (g & Hg & Hh & _).
    destruct (decide (rg_key r = key)) as [<-|]; rewrite J in E; [|done]. injection E as <-. by exists g.
  - intros g E. destruct (registered_at (flights s) hash) as [r|] eqn:Er.
    + destruct (iv_registered _ Hs _ _ Er) as (g' & Hg' & Hh & _).
      destruct (decide (rg_key r = key)) as [|Hne]; rewrite J in E; [done|]. injection E as <-. cbn.
      split; [done|]. split; [done|]. exists (rg_sender r), g', (rg_key r). done.
    + rewrite J in E. injection E as <-. rewrite J. cbn [lg_sender lg_hash lg_registered fst snd].
      split; [done|]. split; [done|]. unfold join_or_lead. rewrite registered_insert by apply Hs.
      rewrite decide_True by done. cbn [rg_key]. by rewrite decide_True.
Qed.

(** C12: No follower is stranded. In every reachable state each waiting
    follower either sees a result when it looks, or its leader is alive; and
    whichever way that leader ends, its last step makes every follower of its
    flight see the published outcome, or that it must go round again. *)
Theorem no_follower_stranded s c :
  reachable s → c ∈ waiting s →
  wait_poll (flights s) c ≠ None ∨
  ∃ g key ph, leaders s !! c = Some (g, key, ph) ∧ lg_sender g = c ∧
    ∀ o, wait_poll (publish (flights s) c o) c = Some (WDone o) ∧
         wait_poll (abandon (flights s) c) c = Some WAbandoned.
Proof.
  intros Hs%flight_reachable_inv Hc. pose proof (iv_waiting _ Hs _ Hc) as Hlt.
  apply lookup_lt_is_Some in Hlt as [ch Hch]. destruct (iv_chan _ Hs _ _ Hch) as [Hn Hp].
  pose proof (occ_pos _ _ Hc) as Hpos. destruct (leaders s !! c) as [[[g key] ph]|] eqn:El.
  - right. destruct (iv_leader _ Hs _ _ _ _ El) as (Hg & _). exists g, key, ph. split; [done|]. split; [done|].
    intros o. unfold wait_poll, publish, abandon. rewrite Hch, decide_True by lia. cbn [alter_chan chans].
    rewrite !list_lookup_alter_eq, Hch. cbn. by rewrite !replace_value.
  - left. unfold wait_poll. rewrite Hch. cbn. destruct (Hp eq_refl) as [H|H]; [lia|].
    by destruct (borrow ch).
Qed.

(** The steps the leaders have left. *)
Definition steps_left (x : LeaderGuard * list Z * Phase) : nat := match x.2 with Working => 2 | Closing _ => 1 end.
Definition leaders_left (s : Sys) : nat := sum_list_with (λ cx, steps_left cx.2) (map_to_list (leaders s)).

Lemma leader_step_step s s' : leader_step s s' → step s s'.
Proof. destruct 1; [by eapply step_close|by eapply step_publish|by eapply step_abandon]. Qed.

Lemma leader_steps_reachable s s' : reachable s → rtc leader_step s s' → reachable s'.
Proof.
  intros Hs. induction 1 as [|x y z Hxy _ IH]; [done|]. apply IH. by eapply rtc_r, leader_step_step.
Qed.

Lemma leader_step_waiting s s' : leader_step s s' → waiting s' = waiting s.
Proof. by destruct 1. Qed.

(** Each of its steps is one less. *)
Lemma leader_step_left s s' : leader_step s s' → S (leaders_left s') = leaders_left s.
Proof.
  assert (Hd : ∀ (ls : gmap nat (LeaderGuard * list Z * Phase)) c x, ls !! c = Some x →
    sum_list_with (λ cx, steps_left cx.2) (map_to_list ls) =
    steps_left x + sum_list_with (λ cx, steps_left cx.2) (map_to_list (delete c ls))).
  { intros ls c x Hl. pose proof (map_to_list_delete ls c x Hl) as Hp. by rewrite <-Hp. }
  destruct 1 as [f ls ws g key o Hl|f ls ws g key o Hl|f ls ws g key Hl]; unfold leaders_left; cbn [leaders];
    rewrite (Hd ls _ _ Hl); cbn [steps_left snd]; [|done..].
  rewrite (Hd _ (lg_sender g) (g, key, Closing o)) by apply lookup_insert_eq. by rewrite delete_insert_eq.
Qed.

Lemma leaders_left_bound s : leaders_left s ≤ 2 * size (leaders s).
Proof.
  unfold leaders_left. rewrite <-length_map_to_list. induction (map_to_list (leaders s)) as [|[c [y []]] l IH]; cbn in *; lia.
Qed.

(** A leader can always take its next step. *)
Lemma leader_progress s c x : reachable s → leaders s !! c = Some x → ∃ s', leader_step s s'.
Proof.
  intros Hs%flight_reachable_inv Hl. destruct x as [[g key] ph].
  destruct (iv_leader _ Hs _ _ _ _ Hl) as (<- & _). destruct s as [f ls ws]. cbn in Hl.
  destruct ph as [|[o|]]; eexists; [by eapply (leader_closes _ _ _ _ _ None)|by eapply leader_publishes|by eapply leader_abandons].
Qed.

(** Once its leader is gone a follower has a result. *)
Lemma led_follower_done s c :
  reachable s → c ∈ waiting s → leaders s !! c = None → wait_poll (flights s) c ≠ None.
Proof.
  intros Hs%flight_reachable_inv Hc El. pose proof (iv_waiting _ Hs _ Hc) as Hlt.
  apply lookup_lt_is_Some in Hlt as [ch Hch]. destruct (iv_chan _ Hs _ _ Hch) as [_ Hp].
  pose proof (occ_pos _ _ Hc). unfold wait_poll. rewrite Hch. cbn.
  destruct (Hp El) as [H'|H']; [lia|]. by destruct (borrow ch).
Qed.

Lemma leaders_stuck_done s :
  reachable s → (∀ s', ¬ leader_step s s') → ∀ c, c ∈ waiting s → wait_poll (flights s) c ≠ None.
Proof.
  intros Hs Hno c Hc. apply led_follower_done; [done..|]. destruct (leaders s !! c) as [x|] eqn:El; [|done].
  destruct (leader_progress s c x Hs El) as (s' & H). by apply Hno in H.
Qed.

Lemma leader_steps_waiting s s' : rtc leader_step s s' → waiting s' = waiting s.
Proof. induction 1 as [|x y z Hxy _ IH]; [done|]. rewrite IH. by apply leader_step_waiting. Qed.

Lemma leader_steps_left n s s' : nsteps leader_step n s s' → n + leaders_left s' = leaders_left s.
Proof. induction 1 as [|n x y z Hxy _ IH]; [done|]. apply leader_step_left in Hxy. lia. Qed.

(** The leaders' own steps reach a state without leaders. *)
Lemma leaders_run_out s : reachable s → ∃ s', rtc leader_step s s' ∧ leaders s' = ∅.
Proof.
  remember (leaders_left s) as n eqn:En. revert s En. induction n as [|n IH]; intros s En Hs;
    (destruct (map_choose_or_empty (leaders s)) as [(c & x & El)|El]; [|by exists s]);
    destruct (leader_progress s c x Hs El) as (s1 & H1); pose proof (leader_step_left _ _ H1) as Hl; [lia|].
  destruct (IH s1) as (s' & H & E); [lia|eapply leader_steps_reachable; [exact Hs|by apply rtc_once]|].
  exists s'. split; [by eapply rtc_l|done].
Qed.

(** C13: Every flight ends by its leader's own doing. From every reachable
    state the leaders' own steps, with no caller joining or leaving in between,
    lead to one state in which no leader is left and every follower that waited
    still waits there with a result. And there is no other way: in whatever
    order the leaders take their steps, they take at most two each, and once none
    of them has a step left no follower waits on a pending flight. *)
Theorem follower_released s :
  reachable s →
  (∃ s', rtc leader_step s s' ∧ leaders s' = ∅ ∧ waiting s' = waiting s ∧
     ∀ c, c ∈ waiting s' → wait_poll (flights s') c ≠ None) ∧
  ∀ n s', nsteps leader_step n s s' →
    n ≤ 2 * size (leaders s) ∧ waiting s' = waiting s ∧
    ((∀ s'', ¬ leader_step s' s'') → ∀ c, c ∈ waiting s' → wait_poll (flights s') c ≠ None).
Proof.
  intros Hs. split.
  - destruct (leaders_run_out s Hs) as (s' & H & E). exists s'. split; [done|]. split; [done|].
    split; [by apply leader_steps_waiting|]. intros c Hc. apply led_follower_done; [by eapply leader_steps_reachable|done|].
    rewrite E. apply lookup_empty.
  - intros n s' H. pose proof (leader_steps_left _ _ _ H) as Hn. pose proof (leaders_left_bound s) as Hb.
    apply rtc_nsteps_2 in H. split; [lia|]. split; [by apply leader_steps_waiting|].
    apply leaders_stuck_done. by eapply leader_steps_reachable.
Qed.
End flights.

(** ** A concrete run *)

#[local] Instance example_watch : Watch State := counted_watch State.
#[local] Instance example_laws : WatchLaws State := counted_watch_laws State.

(** One caller leads, a second one follows. *)
Definition example_flights : Flights := (join_or_lead (join_or_lead flights_new 5 [1; 2]%Z).2 5 [1; 2]%Z).2.
Definition example_leader : LeaderGuard := mkGuard 5 0 true.
Definition example_sys : Sys :=
  mkSys example_flights {[ 0 := (example_leader, [1; 2]%Z, Working) ]} [0].

Lemma example_sys_reachable : reachable example_sys.
Proof.
  eapply rtc_l; [eapply (step_lead _ _ _ 5 [1; 2]%Z); reflexivity|].
  eapply rtc_l; [eapply (step_follow _ _ _ 5 [1; 2]%Z); reflexivity|]. apply rtc_refl.
Qed.

Lemma coalesce_exact_witness : (join_or_lead (flights example_sys) 5 [1; 2]%Z).1 = Follow 0.
Proof.
  destruct (coalesce_exact example_sys 5 [1; 2]%Z example_sys_reachable) as [H _].
  apply (H 0 example_leader); reflexivity.
Defined.

Lemma no_follower_stranded_witness :
  wait_poll (flights example_sys) 0 ≠ None ∨ ∃ g key ph, leaders example_sys !! 0 = Some (g, key, ph) ∧ lg_sender g = 0.
Proof.
  destruct (no_follower_stranded example_sys 0 example_sys_reachable) as [H|(g & key & ph & H1 & H2 & _)].
  - left.
  - by left.
  - right. by exists g, key, ph.
Defined.

Lemma follower_released_witness :
  ∃ s', rtc leader_step example_sys s' ∧ waiting s' = [0] ∧ wait_poll (flights s') 0 ≠ None.
Proof.
  destruct (follower_released example_sys example_sys_reachable) as [(s' & H & _ & Hw & Hd) _].
  exists s'. split; [exact H|]. split; [exact Hw|]. apply Hd. rewrite Hw. by left.
Defined.
