(* ===== verification/Response.v ===== *)
(** * Building and caching responses

    Models the message functions of [crates/dns-lattice/src/engine.rs]: which
    queries may use the cache, EDNS alignment, the projections of a cached
    entry onto a response, and [cacheable_answer], which gates and normalises
    what is stored. *)

From stdpp Require Import base numbers list.
From S2P Require Import Prelude CoreError Name RecordData Edns Header Message Time CacheConfig Entry.

Definition DEFAULT_EDNS_UDP_PAYLOAD_SIZE : Z := 1232.
Definition CACHEABLE_EDNS_OPTIONS : list Z := [3; 10; 11; 12]%Z.
Definition EDE_OPTION_CODE : Z := 15.
Definition EDE_STALE_ANSWER : Z := 3.

(** ** The query *)

Definition query_uses_cache (query : Message) : bool :=
  bool_decide (length (questions query) = 1) && bool_decide (opcode (header query) = Query) &&
  match edns query with
  | Ok (Some e) => forallb (λ o, bool_decide (opt_code o ∈ CACHEABLE_EDNS_OPTIONS)) (options e)
  | Ok None | Err _ => true
  end.

Definition query_dnssec_ok (query : Message) : bool :=
  match edns query with Ok (Some e) => dnssec_ok e | _ => false end.

(** ** EDNS alignment *)

Definition align_edns (query answer : Message) : Message :=
  match edns query with
  | Ok None => set_edns answer None
  | Ok (Some query_edns) =>
      match edns answer with
      | Ok (Some _) => answer
      | _ => set_edns answer
               (Some (set_dnssec_ok (edns_new DEFAULT_EDNS_UDP_PAYLOAD_SIZE) (dnssec_ok query_edns)))
      end
  | Err _ => answer
  end.

(** ** Record TTLs *)

Definition is_opt (record : ResourceRecord) : bool :=
  bool_decide (rr_rtype record = TOther OPT_RTYPE).

Definition with_ttl (r : ResourceRecord) (ttl : Z) : ResourceRecord :=
  mkRR (rr_name r) (rr_rtype r) (rr_class r) ttl (rr_rdata r).

(** Updating a record through [ttl_records_mut], which skips OPT records. *)
Definition map_ttl (f : Z → Z) (r : ResourceRecord) : ResourceRecord :=
  if is_opt r then r else with_ttl r (f (rr_ttl r)).

Definition map_ttls (f : Z → Z) (m : Message) : Message :=
  mkMessage (header m) (questions m) (map (map_ttl f) (answers m)) (map (map_ttl f) (authorities m))
    (map (map_ttl f) (additionals m)).

Definition records (m : Message) : list ResourceRecord := answers m ++ authorities m ++ additionals m.

(** The TTLs [ttl_records_mut] visits. *)
Definition ttls (m : Message) : list Z :=
  map rr_ttl (List.filter (λ r, negb (is_opt r)) (records m)).

(** [Iterator::min] *)
Fixpoint list_min (l : list Z) : option Z :=
  match l with
  | [] => None
  | x :: l => match list_min l with None => Some x | Some y => Some (Z.min x y) end
  end.

(** The transaction fields of a response. *)
Definition for_query (query m : Message) : Message :=
  let h := header m in
  mkMessage (mkHeader (id (header query)) (qr h) (opcode h) false (truncated h)
      (recursion_desired (header query)) (recursion_available h) (rcode h))
    (questions query) (answers m) (authorities m) (additionals m).

Definition elapsed_secs (a : CachedAnswer) (now : Z) : Z :=
  Z.min (as_secs (saturating_duration_since now (inserted a))) u32_max.

(** [record.ttl.saturating_sub(elapsed).max(1)] *)
Definition cache_hit_response (query : Message) (cached : CachedAnswer) (now : Z) : Message :=
  let elapsed := elapsed_secs cached now in
  map_ttls (λ ttl, Z.max (Z.max (ttl - elapsed) 0) 1) (for_query query (ca_message cached)).

Definition stale_response (query : Message) (entry : CachedAnswer) (reply_ttl : Z) : Message :=
  map_ttls (λ _, reply_ttl) (for_query query (ca_message entry)).

Definition mark_stale_answer (query answer : Message) : Message :=
  match edns query with
  | Ok (Some _) =>
      match edns answer, option_new EDE_OPTION_CODE (to_be 2 EDE_STALE_ANSWER) with
      | Ok (Some e), Ok option => set_edns answer (Some (push_option e option))
      | _, _ => answer
      end
  | _ => answer
  end.

Definition local_response (query : Message) (rc : Rcode) : Message :=
  let h := header query in
  mkMessage (mkHeader (id h) true (opcode h) (authoritative h) (truncated h) (recursion_desired h)
      (recursion_available h) rc) (questions query) [] [] [].

(** ** What is stored *)

(** Clamping every non-OPT TTL; [clamp] panics on inverted bounds. *)
Fixpoint clamp_ttls (b : TtlBounds) (rs : list ResourceRecord) : Run Error (list ResourceRecord) :=
  match rs with
  | [] => Ret []
  | r :: rs =>
      r ← (if is_opt r then Ret r else ttl ← bounds_clamp b (rr_ttl r); Ret (with_ttl r ttl));
      rs ← clamp_ttls b rs;
      Ret (r :: rs)
  end.

(** The first SOA of the authority section, its TTL rewritten to the negative
    TTL; [None] without an SOA. *)
Fixpoint limit_soa (b : TtlBounds) (rs : list ResourceRecord) :
    Run Error (option (Z * list ResourceRecord)) :=
  match rs with
  | [] => Ret None
  | r :: rs =>
      match rr_rdata r with
      | Soa _ _ _ _ _ _ minimum =>
          ttl ← bounds_clamp b (Z.min (rr_ttl r) minimum);
          Ret (Some (ttl, with_ttl r ttl :: rs))
      | _ => o ← limit_soa b rs; Ret (match o with None => None | Some (ttl, rs) => Some (ttl, r :: rs) end)
      end
  end.

(** Whether the answer's header and OPT record allow storing it. *)
Definition clean_answer (answer : Message) : bool :=
  bool_decide (opcode (header answer) = Query) && negb (truncated (header answer)) &&
  match edns answer with
  | Ok None => true
  | Ok (Some e) => bool_decide (extended_rcode e = 0)%Z
  | Err _ => false
  end.

(** Positive ([false]), negative ([true]) or not cacheable. *)
Definition answer_class (answer : Message) : option bool :=
  match rcode (header answer) with
  | NoError => Some (bool_decide (answers answer = []))
  | NxDomain => Some true
  | _ => None
  end.

(** The negative TTL of a clamped message, and the message with it written
    back; [None] where no SOA and no policy gives one. *)
Definition limit_negative (policy : TtlPolicy) (m : Message) : Run Error (option (Z * Message)) :=
  o ← limit_soa (negative policy) (authorities m);
  match o with
  | Some (ttl, authorities) =>
      Ret (Some (ttl, mkMessage (header m) (questions m) (answers m) authorities (additionals m)))
  | None =>
      match negative_without_soa policy with
      | None => Ret None
      | Some ttl => ttl ← bounds_clamp (negative policy) ttl; Ret (Some (ttl, m))
      end
  end.

Definition clamp_message (b : TtlBounds) (m : Message) : Run Error Message :=
  an ← clamp_ttls b (answers m);
  au ← clamp_ttls b (authorities m);
  ad ← clamp_ttls b (additionals m);
  Ret (mkMessage (header m) (questions m) an au ad).

(** Making the entry once its lifetime is known. *)
Definition store_for (m : Message) (now : Z) (policy : TtlPolicy) (ttl : option Z) (cells : nat) :
    Run Error (option CachedAnswer) :=
  match ttl with
  | None => Ret None
  | Some ttl =>
      if decide (ttl = 0)%Z then Ret None
      else
        expires ← instant_add now (from_secs ttl);
        a ← retained_for (answer_new m now expires cells) (stale_window policy);
        Ret (Some a)
  end.

Definition cacheable_answer (answer : Message) (now : Z) (policy : TtlPolicy) (cells : nat) :
    Run Error (option CachedAnswer) :=
  if negb (clean_answer answer) then Ret None
  else
    match answer_class answer with
    | None => Ret None
    | Some false =>
        m ← clamp_message (positive policy) (set_edns answer None);
        store_for m now policy (list_min (ttls m)) cells
    | Some true =>
        m ← clamp_message (negative policy) (set_edns answer None);
        limited ← limit_negative policy m;
        match limited with
        | None => Ret None
        | Some (negative, m) =>
            store_for m now policy
              (Some (match list_min (ttls m) with Some records => Z.min negative records | None => negative end))
              cells
        end
    end.

(** ** TTLs within bounds *)

Definition policy_ok (p : TtlPolicy) : Prop :=
  bounds_ok (positive p) ∧ bounds_ok (negative p) ∧ (0 ≤ stale_window p ≤ MAX_STALE_WINDOW)%Z.

(** The policy of every configuration the builders make is well formed. *)
Lemma ttl_policy_ok c : config_ok c → policy_ok (ttl_policy c).
Proof.
  intros [_ _ Hp Hn _ _ Hs _]. split; [done|]. split; [done|]. cbn.
  destruct (CacheConfig.serve_stale c) as [s|]; cbn in *; [apply Hs|]. unfold MAX_STALE_WINDOW, from_secs, nanos_per_sec. lia.
Qed.

Definition clamp_to (b : TtlBounds) (ttl : Z) : Z := clamp ttl (tb_min b) (tb_max b).

Definition bounds_of (p : TtlPolicy) (neg : bool) : TtlBounds := if neg then negative p else positive p.

Lemma bounds_clamp_ok b ttl : bounds_ok b → bounds_clamp b ttl = Ret (clamp_to b ttl).
Proof. intros [H _]. unfold bounds_clamp, clamp_checked. by rewrite decide_False by lia. Qed.

Lemma clamp_to_range b ttl : bounds_ok b → (tb_min b ≤ clamp_to b ttl ≤ tb_max b)%Z.
Proof. intros [H _]. unfold clamp_to, clamp. lia. Qed.

Lemma clamp_ttls_ok b rs : bounds_ok b → clamp_ttls b rs = Ret (map (map_ttl (clamp_to b)) rs).
Proof.
  intros Hb. induction rs as [|r rs IH]; cbn [clamp_ttls map]; [done|]. unfold map_ttl at 1.
  destruct (is_opt r); [|rewrite bounds_clamp_ok by done]; cbn [mbind run_bind]; by rewrite IH.
Qed.

Lemma clamp_message_ok b m : bounds_ok b → clamp_message b m = Ret (map_ttls (clamp_to b) m).
Proof. intros Hb. unfold clamp_message. by rewrite !clamp_ttls_ok. Qed.

Definition soa_minimum (r : ResourceRecord) : option Z :=
  match rr_rdata r with Soa _ _ _ _ _ _ minimum => Some minimum | _ => None end.

Lemma limit_soa_ok b rs :
  bounds_ok b →
  ∃ o, limit_soa b rs = Ret o ∧
    match o with
    | None => Forall (λ r, soa_minimum r = None) rs
    | Some (ttl, rs') => ∃ pre r post minimum, rs = pre ++ r :: post ∧ soa_minimum r = Some minimum ∧
        Forall (λ r, soa_minimum r = None) pre ∧ ttl = clamp_to b (Z.min (rr_ttl r) minimum) ∧
        rs' = pre ++ with_ttl r ttl :: post
    end.
Proof.
  intros Hb. induction rs as [|r rs (o & E & Ho)]; cbn [limit_soa]; [by exists None|].
  destruct (soa_minimum r) as [minimum|] eqn:Er; unfold soa_minimum in Er.
  - destruct (rr_rdata r) eqn:Ed; try done. injection Er as ->.
    rewrite bounds_clamp_ok by done. cbn [mbind run_bind]. eexists. split; [done|].
    exists [], r, rs, minimum. unfold soa_minimum. by rewrite Ed.
  - assert (limit_soa b (r :: rs) = Ret (match o with None => None | Some (ttl, rs) => Some (ttl, r :: rs) end)) as Hl.
    { cbn [limit_soa]. destruct (rr_rdata r); try done; by rewrite E. }
    cbn [limit_soa] in Hl. rewrite Hl. eexists. split; [done|]. destruct o as [[ttl rs']|].
    + destruct Ho as (pre & r0 & post & mn & -> & H1 & H2 & H3 & ->).
      exists (r :: pre), r0, post, mn. split_and!; try done. by constructor.
    + by constructor.
Qed.

Lemma list_min_spec l : match list_min l with Some x => x ∈ l ∧ Forall (λ y, x ≤ y)%Z l | None => l = [] end.
Proof.
  induction l as [|x l IH]; cbn; [done|]. destruct (list_min l) as [y|] eqn:E.
  - destruct IH as [Hin Hall]. destruct (Z.min_spec x y) as [[? ->]|[? ->]].
    + split; [by left|]. constructor; [lia|]. eapply Forall_impl; [exact Hall|]. cbn. lia.
    + split; [by right|]. by constructor.
  - subst l. split; [by left|]. by repeat constructor.
Qed.

(** Records that differ in their TTL only. *)
Definition same_data (r r' : ResourceRecord) : Prop :=
  rr_name r' = rr_name r ∧ rr_rtype r' = rr_rtype r ∧ rr_class r' = rr_class r ∧ rr_rdata r' = rr_rdata r.

#[export] Instance same_data_equiv : Equivalence same_data.
Proof. split; red; unfold same_data; naive_solver congruence. Qed.

Lemma with_ttl_same r ttl : same_data r (with_ttl r ttl).
Proof. done. Qed.

Lemma map_ttl_same f r : same_data r (map_ttl f r).
Proof. unfold map_ttl. by destruct (is_opt r). Qed.

Lemma map_ttls_same f rs : Forall2 same_data rs (map (map_ttl f) rs).
Proof. induction rs; cbn; constructor; [apply map_ttl_same|done]. Qed.

Lemma is_opt_same r r' : same_data r r' → is_opt r' = is_opt r.
Proof. intros (_ & H & _). unfold is_opt. by rewrite H. Qed.

(** The TTLs of a list of records, less OPT. *)
Definition ttls_of (rs : list ResourceRecord) : list Z := map rr_ttl (List.filter (λ r, negb (is_opt r)) rs).

Lemma ttls_of_map f rs : ttls_of (map (map_ttl f) rs) = map f (ttls_of rs).
Proof.
  unfold ttls_of. induction rs as [|r rs IH]; cbn; [done|].
  rewrite (is_opt_same r) by apply map_ttl_same. unfold map_ttl at 1. destruct (is_opt r) eqn:E; cbn; [done|].
  by rewrite IH.
Qed.

Lemma ttls_map_ttls f m : ttls (map_ttls f m) = map f (ttls m).
Proof. unfold ttls, records. fold ttls_of. cbn. rewrite <-!map_app. apply ttls_of_map. Qed.

Lemma ttls_of_app rs1 rs2 : ttls_of (rs1 ++ rs2) = ttls_of rs1 ++ ttls_of rs2.
Proof. unfold ttls_of. by rewrite List.filter_app, map_app. Qed.

Lemma ttls_sections m : ttls m = ttls_of (answers m) ++ ttls_of (authorities m) ++ ttls_of (additionals m).
Proof. change (ttls m) with (ttls_of (records m)). unfold records. by rewrite !ttls_of_app. Qed.

Lemma ttls_of_cons r rs : is_opt r = false → ttls_of (r :: rs) = rr_ttl r :: ttls_of rs.
Proof. intros H. unfold ttls_of. cbn. by rewrite H. Qed.

(** ** What [cacheable_answer] stores *)

(** An entry's message: the answer without OPT records and with TTLs in
    bounds. *)
Record normalised (answer : Message) (b : TtlBounds) (m : Message) : Prop := {
  nm_header : header m = header answer;
  nm_questions : questions m = questions answer;
  nm_answers : Forall2 same_data (answers answer) (answers m);
  nm_authorities : Forall2 same_data (authorities answer) (authorities m);
  nm_additionals : Forall2 same_data
    (List.filter (λ r, negb (is_opt_record r)) (additionals answer)) (additionals m);
  nm_bounds : Forall (λ t, tb_min b ≤ t ≤ tb_max b)%Z (ttls m);
}.

Lemma forall2_no_opt rs rs' :
  Forall2 same_data rs rs' → Forall (λ r, opt_data (rr_rdata r) = None) rs →
  Forall (λ r, opt_data (rr_rdata r) = None) rs'.
Proof.
  induction 1 as [|r r' rs rs' (_ & _ & _ & Hd) _ IH]; intros H; [done|]. apply Forall_cons in H as [H1 H2].
  constructor; [by rewrite Hd|by apply IH].
Qed.

Lemma normalised_edns answer b m : normalised answer b m → edns m = Ok None.
Proof.
  intros H. unfold edns. rewrite find_opt_none; [done|].
  eapply forall2_no_opt; [apply H|apply filter_not_opt].
Qed.

Lemma normalised_clamped answer b :
  bounds_ok b → normalised answer b (map_ttls (clamp_to b) (set_edns answer None)).
Proof.
  intros Hb. split; [done|done|apply map_ttls_same..|]. rewrite ttls_map_ttls.
  apply Forall_fmap, Forall_true. intros t. cbn. by apply clamp_to_range.
Qed.

Lemma Forall2_replace (rs pre post : list ResourceRecord) r r' :
  Forall2 same_data rs (pre ++ r :: post) → same_data r r' → Forall2 same_data rs (pre ++ r' :: post).
Proof.
  intros H Hr. apply Forall2_app_inv_r in H as (rs1 & rs2 & H1 & H2 & ->).
  inversion H2 as [|x y l k Hxy Hlk]; subst. apply Forall2_app; [done|]. constructor; [by etrans|done].
Qed.

Lemma normalised_soa answer b m pre r post ttl :
  normalised answer b m → authorities m = pre ++ r :: post → (tb_min b ≤ ttl ≤ tb_max b)%Z →
  is_opt r = false →
  let m' := mkMessage (header m) (questions m) (answers m) (pre ++ with_ttl r ttl :: post) (additionals m) in
  normalised answer b m' ∧ ttl ∈ ttls m'.
Proof.
  intros [H1 H2 H3 H4 H5 H6] Ha Ht Ho m'.
  assert (Hr : ttls m' = ttls_of (answers m) ++ (ttls_of pre ++ ttl :: ttls_of post) ++ ttls_of (additionals m)).
  { rewrite ttls_sections. cbn [answers authorities additionals m']. by rewrite ttls_of_app, ttls_of_cons. }
  assert (Hm : ttls m = ttls_of (answers m) ++ (ttls_of pre ++ rr_ttl r :: ttls_of post) ++ ttls_of (additionals m)).
  { by rewrite ttls_sections, Ha, ttls_of_app, ttls_of_cons. }
  rewrite Ha in H4. split.
  - split; try done; [by eapply Forall2_replace|]. rewrite Hr. rewrite Hm in H6.
    rewrite !Forall_app, !Forall_cons in *. tauto.
  - rewrite Hr. rewrite !elem_of_app, elem_of_cons. tauto.
Qed.

Lemma soa_not_opt r minimum : rr_rtype r = record_type (rr_rdata r) → soa_minimum r = Some minimum → is_opt r = false.
Proof. unfold soa_minimum, is_opt. intros ->. by destruct (rr_rdata r). Qed.

Lemma clamp_to_mono b x y : (x ≤ y)%Z → (clamp_to b x ≤ clamp_to b y)%Z.
Proof. unfold clamp_to, clamp. lia. Qed.

(** The lifetime an entry gets: the least TTL stored, or the configured one of
    a negative answer that has no SOA. *)
Definition lifetime_of (answer m : Message) (policy : TtlPolicy) (neg : bool) (life : Z) : Prop :=
  Forall (λ t, life ≤ t)%Z (ttls m) ∧
  (life ∈ ttls m ∨
   neg = true ∧ Forall (λ r, soa_minimum r = None) (authorities answer) ∧
   ∃ t, negative_without_soa policy = Some t ∧ life = clamp_to (negative policy) t) ∧
  (neg = true → ∀ pre r post minimum, authorities answer = pre ++ r :: post →
     Forall (λ r, soa_minimum r = None) pre → soa_minimum r = Some minimum →
     (life ≤ clamp_to (negative policy) minimum)%Z).

Lemma soa_minimum_same r r' : same_data r r' → soa_minimum r' = soa_minimum r.
Proof. intros (_ & _ & _ & H). unfold soa_minimum. by rewrite H. Qed.

Lemma no_soa_same rs rs' :
  Forall2 same_data rs rs' → Forall (λ r, soa_minimum r = None) rs' ↔ Forall (λ r, soa_minimum r = None) rs.
Proof.
  induction 1 as [|r r' rs rs' Hr _ IH]; [done|]. by rewrite !Forall_cons, (soa_minimum_same r r'), IH.
Qed.

(** The first SOA of two section with the same data. *)
Lemma first_soa_same rs rs' pre r post pre' r' post' minimum minimum' :
  Forall2 same_data rs rs' → rs = pre ++ r :: post → rs' = pre' ++ r' :: post' →
  Forall (λ r, soa_minimum r = None) pre → Forall (λ r, soa_minimum r = None) pre' →
  soa_minimum r = Some minimum → soa_minimum r' = Some minimum' → minimum = minimum'.
Proof.
  intros H. revert pre pre'. induction H as [|x y rs rs' Hxy _ IH]; intros pre pre' E E' Hp Hp' Hr Hr'.
  - by destruct pre.
  - pose proof (soa_minimum_same x y Hxy) as Hs. destruct pre as [|a pre], pre' as [|b pre'];
      cbn in E, E'; injection E as -> E; injection E' as -> E'.
    + congruence.
    + apply Forall_cons in Hp' as [Hp' _]. congruence.
    + apply Forall_cons in Hp as [Hp _]. congruence.
    + apply Forall_cons in Hp as [_ Hp]. apply Forall_cons in Hp' as [_ Hp']. by eapply IH.
Qed.

Lemma limit_negative_ok answer policy m :
  policy_ok policy → normalised answer (negative policy) m →
  Forall (λ r, rr_rtype r = record_type (rr_rdata r)) (authorities answer) →
  ∃ o, limit_negative policy m = Ret o ∧
    match o with
    | None => Forall (λ r, soa_minimum r = None) (authorities answer) ∧ negative_without_soa policy = None
    | Some (ttl, m') => normalised answer (negative policy) m' ∧
        lifetime_of answer m' policy true
          (match list_min (ttls m') with Some t => Z.min ttl t | None => ttl end)
    end.
Proof.
  intros (_ & Hb & _) Hm Hty. unfold limit_negative.
  destruct (limit_soa_ok (negative policy) (authorities m) Hb) as (o & -> & Ho). cbn [mbind run_bind].
  destruct o as [[ttl rs']|].
  - destruct Ho as (pre & r & post & mn & Ha & Hr & Hpre & -> & ->).
    assert (Hopt : is_opt r = false).
    { pose proof (nm_authorities _ _ _ Hm) as Hf. rewrite Ha in Hf.
      apply Forall2_app_inv_r in Hf as (rs1 & rs2 & _ & H2 & E). inversion H2 as [|x y l k Hxy _]; subst.
      rewrite E, Forall_app, Forall_cons in Hty. destruct Hty as (_ & Hx & _).
      rewrite (is_opt_same x r Hxy). apply (soa_not_opt x mn Hx). by rewrite <-(soa_minimum_same x r Hxy). }
    set (ttl := clamp_to (negative policy) (Z.min (rr_ttl r) mn)).
    destruct (normalised_soa answer _ m pre r post ttl Hm Ha) as [Hm' Hin]; [by apply clamp_to_range|done|].
    eexists. split; [done|]. cbv beta iota. set (m' := mkMessage _ _ _ _ _) in *. split; [done|].
    pose proof (list_min_spec (ttls m')) as Hmin.
    destruct (list_min (ttls m')) as [t|]; [destruct Hmin as [Ht Hall]|by rewrite Hmin in Hin; apply not_elem_of_nil in Hin].
    pose proof (proj1 (Forall_forall _ _) Hall _ Hin) as Hle. cbn in Hle. rewrite Z.min_r by done.
    split_and!; [done|by left|]. intros _ pre' r' post' mn' Ea Hpre' Hr'.
    assert (mn' = mn) as -> by (eapply (first_soa_same _ _ pre' r' post' pre r post); [exact (nm_authorities _ _ _ Hm)|done..]).
    etrans; [exact Hle|]. unfold ttl. apply clamp_to_mono. lia.
  - apply (no_soa_same _ _ (nm_authorities _ _ _ Hm)) in Ho. destruct (negative_without_soa policy) as [t|] eqn:Et.
    + rewrite bounds_clamp_ok by done. cbn [mbind run_bind]. eexists. split; [done|]. cbv beta iota. split; [done|].
      assert (Hsoa : ∀ pre r post minimum, authorities answer = pre ++ r :: post →
        Forall (λ r, soa_minimum r = None) pre → soa_minimum r = Some minimum → False).
      { intros pre r post minimum E _ Hr. rewrite E, Forall_app, Forall_cons in Ho. destruct Ho as (_ & Ho & _). congruence. }
      pose proof (list_min_spec (ttls m)) as Hmin. destruct (list_min (ttls m)) as [x|].
      * destruct Hmin as [Hx Hall]. split_and!.
        -- eapply Forall_impl; [exact Hall|]. cbn. lia.
        -- destruct (Z.min_spec (clamp_to (negative policy) t) x) as [[? ->]|[? ->]]; [right; eauto|by left].
        -- intros _ pre r post mn E1 E2 E3. exfalso. eauto.
      * split_and!; [by rewrite Hmin|right; eauto|]. intros _ pre r post mn E1 E2 E3. exfalso. eauto.
    + eexists. split; [done|]. done.
Qed.

(** A clock reading that leaves room for the longest lifetime. *)
Definition clock_room (now : Z) : Prop :=
  (0 ≤ now ∧ now + from_secs u32_max + MAX_STALE_WINDOW ≤ instant_max)%Z.

Lemma store_for_ok m now policy life cells :
  policy_ok policy → clock_room now → (0 ≤ life ≤ u32_max)%Z →
  store_for m now policy (Some life) cells =
    Ret (if decide (life = 0)%Z then None
         else Some (mkAnswer m now (now + from_secs life) (now + from_secs life + stale_window policy) None cells)).
Proof.
  intros (_ & _ & Hs) [Hn Hr] Hl. unfold store_for. destruct (decide (life = 0)%Z); [done|].
  assert (from_secs life ≤ from_secs u32_max)%Z by (unfold from_secs, nanos_per_sec; lia).
  assert (0 ≤ MAX_STALE_WINDOW)%Z by (unfold MAX_STALE_WINDOW, from_secs, nanos_per_sec; lia).
  unfold instant_add, checked_add. rewrite decide_True by lia. cbn [mbind run_bind].
  unfold retained_for, answer_new, instant_add, checked_add. cbn [expires]. rewrite decide_True by lia. done.
Qed.

Lemma lifetime_range answer m policy neg life :
  policy_ok policy → normalised answer (bounds_of policy neg) m → lifetime_of answer m policy neg life →
  (0 ≤ life ≤ u32_max)%Z.
Proof.
  intros (Hp & Hn & _) Hm (_ & Hl & _). destruct Hl as [Hin|(-> & _ & t & _ & ->)].
  - pose proof (nm_bounds _ _ _ Hm) as Hb. rewrite Forall_forall in Hb. specialize (Hb _ Hin). cbn in Hb.
    destruct neg; cbn in *; destruct Hp, Hn; lia.
  - pose proof (clamp_to_range (negative policy) t Hn). destruct Hn. lia.
Qed.

(** What an entry made from [answer] at [now] is. *)
Record entry_for (answer : Message) (now : Z) (policy : TtlPolicy) (neg : bool) (life : Z) (a : CachedAnswer) : Prop := {
  ef_message : normalised answer (bounds_of policy neg) (ca_message a);
  ef_lifetime : lifetime_of answer (ca_message a) policy neg life;
  ef_positive : (0 < life)%Z;
  ef_inserted : inserted a = now;
  ef_expires : expires a = (now + from_secs life)%Z;
  ef_stale : stale_until a = (expires a + stale_window policy)%Z;
  ef_failure : failure a = None;
}.

Lemma cacheable_answer_cases answer now policy cells :
  policy_ok policy → wf_message answer → clock_room now →
  ∃ o, cacheable_answer answer now policy cells = Ret o ∧
    match o with
    | Some a => clean_answer answer = true ∧ ∃ neg life,
        answer_class answer = Some neg ∧ entry_for answer now policy neg life a
    | None => clean_answer answer = false ∨ answer_class answer = None ∨
        (answer_class answer = Some true ∧ Forall (λ r, soa_minimum r = None) (authorities answer) ∧
         negative_without_soa policy = None) ∨
        ∃ neg m, answer_class answer = Some neg ∧ normalised answer (bounds_of policy neg) m ∧
          (lifetime_of answer m policy neg 0 ∨ neg = false ∧ ttls m = [])
    end.
Proof.
  intros Hpol Hwf Hroom. unfold cacheable_answer.
  destruct (clean_answer answer); [|exists None; auto]. cbn [negb].
  assert (Hend : ∀ neg m life, answer_class answer = Some neg → normalised answer (bounds_of policy neg) m →
    lifetime_of answer m policy neg life → ∃ o, store_for m now policy (Some life) cells = Ret o ∧
    match o with
    | Some a => true = true ∧ ∃ neg life, answer_class answer = Some neg ∧ entry_for answer now policy neg life a
    | None => true = false ∨ answer_class answer = None ∨
        (answer_class answer = Some true ∧ Forall (λ r, soa_minimum r = None) (authorities answer) ∧
         negative_without_soa policy = None) ∨
        ∃ neg m, answer_class answer = Some neg ∧ normalised answer (bounds_of policy neg) m ∧
          (lifetime_of answer m policy neg 0 ∨ neg = false ∧ ttls m = [])
    end).
  { intros neg m life Hc Hm Hl. pose proof (lifetime_range _ _ _ _ _ Hpol Hm Hl) as Hr.
    rewrite store_for_ok by done. eexists. split; [done|]. destruct (decide (life = 0)%Z) as [->|Hne].
    - right. right. right. exists neg, m. auto.
    - split; [done|]. exists neg, life. split; [done|]. split; cbn; try done. lia. }
  destruct (answer_class answer) as [[]|] eqn:Hc; [| |exists None; auto].
  - pose proof Hpol as (_ & Hb & _). rewrite clamp_message_ok by done. cbn [mbind run_bind].
    destruct (limit_negative_ok answer policy (map_ttls (clamp_to (negative policy)) (set_edns answer None)) Hpol)
      as (o & -> & Ho); [by apply normalised_clamped| |].
    { destruct Hwf as (_ & _ & _ & Ha & _). eapply Forall_impl; [exact Ha|]. by intros r (_ & _ & H & _). }
    cbn [mbind run_bind]. destruct o as [[ttl m']|].
    + destruct Ho as [Hm Hl]. by apply (Hend true).
    + exists None. split; [done|]. right. right. left. done.
  - pose proof Hpol as (Hb & _). rewrite clamp_message_ok by done. cbn [mbind run_bind].
    set (m := map_ttls _ _). assert (Hm : normalised answer (bounds_of policy false) m) by by apply normalised_clamped.
    pose proof (list_min_spec (ttls m)) as Hmin. destruct (list_min (ttls m)) as [life|].
    + apply (Hend false); [done|done|]. destruct Hmin as [Hin Hall]. split; [done|]. split; [by left|done].
    + exists None. split; [done|]. right. right. right. exists false, m. auto.
Qed.

(** What is cached, and for how long. For a decoded answer,
    [cacheable_answer] returns; it refuses exactly an answer that is not clean
    (opcode, TC, extended RCODE), whose RCODE is neither NOERROR nor NXDOMAIN,
    a negative one that no SOA and no policy gives a TTL, and one whose
    lifetime is zero (or which has no record to take it from); otherwise the
    entry holds the answer's records in order with TTLs clamped into the
    policy's bounds and no OPT, and lives for the least of those TTLs, at most
    the clamped SOA minimum of a negative answer. *)
Theorem cacheable_answer_spec answer now policy cells :
  policy_ok policy → wf_message answer → clock_room now →
  ∃ o, cacheable_answer answer now policy cells = Ret o ∧
    match o with
    | Some a => clean_answer answer = true ∧ edns (ca_message a) = Ok None ∧ ∃ neg life,
        answer_class answer = Some neg ∧ entry_for answer now policy neg life a
    | None => clean_answer answer = false ∨ answer_class answer = None ∨
        (answer_class answer = Some true ∧ Forall (λ r, soa_minimum r = None) (authorities answer) ∧
         negative_without_soa policy = None) ∨
        ∃ neg m, answer_class answer = Some neg ∧ normalised answer (bounds_of policy neg) m ∧
          (lifetime_of answer m policy neg 0 ∨ neg = false ∧ ttls m = [])
    end.
Proof.
  intros Hp Hw Hr. destruct (cacheable_answer_cases answer now policy cells Hp Hw Hr) as (o & E & Ho).
  exists o. split; [done|]. destruct o as [a|]; [|done]. destruct Ho as (Hc & neg & life & Hcl & He).
  split; [done|]. split; [eapply normalised_edns, He|eauto].
Qed.

Lemma elapsed_lt a now life :
  expires a = (inserted a + from_secs life)%Z → (inserted a ≤ now < expires a)%Z → (life ≤ u32_max)%Z →
  (0 ≤ elapsed_secs a now < life)%Z ∧ elapsed_secs a now = as_secs (now - inserted a).
Proof.
  intros He Hn Hl. rewrite He in Hn. unfold elapsed_secs, saturating_duration_since. rewrite Z.max_r by lia.
  unfold as_secs, from_secs, nanos_per_sec in *.
  pose proof (Z.div_pos (now - inserted a) 1000000000).
  assert ((now - inserted a) / 1000000000 < life)%Z by (apply Z.div_lt_upper_bound; lia). lia.
Qed.

(** C14: A cache hit counts down exactly. While an entry made by
    [cacheable_answer] is fresh, the response built from it carries the current
    query's id, RD bit and question, AA cleared, the stored records in order,
    and every TTL is the stored one less the whole seconds since it was
    stored: at least 1 and never cut off at 0. *)
Theorem hit_countdown answer now policy cells a query later :
  policy_ok policy → wf_message answer → clock_room now →
  cacheable_answer answer now policy cells = Ret (Some a) →
  (now ≤ later < expires a)%Z →
  let r := cache_hit_response query a later in
  let elapsed := as_secs (later - now) in
  id (header r) = id (header query) ∧
  recursion_desired (header r) = recursion_desired (header query) ∧
  authoritative (header r) = false ∧ rcode (header r) = rcode (header answer) ∧
  questions r = questions query ∧
  Forall2 same_data (records (ca_message a)) (records r) ∧
  ttls r = map (λ t, t - elapsed)%Z (ttls (ca_message a)) ∧ Forall (λ t, 1 ≤ t)%Z (ttls r).
Proof.
  intros Hp Hw Hr Hc Hl. destruct (cacheable_answer_cases answer now policy cells Hp Hw Hr) as (o & E & Ho).
  rewrite Hc in E. injection E as <-. destruct Ho as (_ & neg & life & _ & He).
  pose proof (lifetime_range _ _ _ _ _ Hp (ef_message _ _ _ _ _ _ He) (ef_lifetime _ _ _ _ _ _ He)) as Hlr.
  pose proof (ef_inserted _ _ _ _ _ _ He) as Hin.
  destruct (elapsed_lt a later life) as [Hel Hee]; [rewrite Hin; apply He|by rewrite Hin|lia|].
  rewrite Hin in Hee. intros r elapsed. fold elapsed in Hee.
  split; [done|]. split; [done|]. split; [done|].
  split; [cbn; by rewrite (nm_header _ _ _ (ef_message _ _ _ _ _ _ He))|]. split; [done|].
  assert (Ht : ttls r = map (λ t, t - elapsed)%Z (ttls (ca_message a)) ∧ Forall (λ t, 1 ≤ t)%Z (ttls r)).
  { unfold r, cache_hit_response. rewrite ttls_map_ttls. change (ttls (for_query query (ca_message a))) with (ttls (ca_message a)).
    destruct (ef_lifetime _ _ _ _ _ _ He) as [Hall _]. rewrite Hee in *. clear -Hall Hel.
    induction Hall as [|t ts Ht _ [IH1 IH2]]; cbn [map]; [done|]. split; [|constructor; [lia|done]].
    f_equal; [lia|]. by rewrite IH1. }
  split; [|done]. unfold r, cache_hit_response, records. cbn. rewrite <-!map_app. apply map_ttls_same.
Qed.

(** EDNS alignment. Whatever the answer's own OPT records are, the
    aligned answer to a query without OPT has none, and the one to a query
    with a well-formed OPT has exactly one, well formed, which is the answer's own if that
    parses and otherwise advertises 1232 bytes with the query's DO bit; a
    malformed query OPT leaves the answer as it is. Nothing but OPT records of
    the additional section changes. *)
Theorem align_edns_spec query answer :
  let r := align_edns query answer in
  match edns query with
  | Ok None => edns r = Ok None
  | Ok (Some qe) => opt_count (additionals r) = 1 ∧
      edns r = match edns answer with
               | Ok (Some e) => Ok (Some e)
               | _ => Ok (Some (mkEdns DEFAULT_EDNS_UDP_PAYLOAD_SIZE 0 0 (dnssec_ok qe) []))
               end
  | Err _ => r = answer
  end ∧
  header r = header answer ∧ questions r = questions answer ∧ answers r = answers answer ∧
  authorities r = authorities answer ∧
  List.filter (λ x, negb (is_opt_record x)) (additionals r) =
    List.filter (λ x, negb (is_opt_record x)) (additionals answer).
Proof.
  cbv zeta. unfold align_edns.
  assert (Hwf : ∀ d, wf_edns (mkEdns DEFAULT_EDNS_UDP_PAYLOAD_SIZE 0 0 d [])) by (intros d; unfold wf_edns, DEFAULT_EDNS_UDP_PAYLOAD_SIZE; cbn; split_and!; try lia; constructor).
  pose proof (set_edns_others answer) as Hf.
  assert (Hone : ∀ m e, edns m = Ok (Some e) → opt_count (additionals m) = 1).
  { intros m e. unfold edns. pose proof (find_opt_spec (additionals m)) as H.
    destruct (find_opt None (additionals m)) as [[[r d]|]|]; cbn; [|done..]. intros _. by destruct H. }
  destruct (edns query) as [[qe|]|]; [|split; [apply edns_set_none|done]|done].
  assert (Hs := edns_set_some answer _ (Hwf (dnssec_ok qe))).
  destruct (edns answer) as [[e|]|] eqn:Ea; (split; [|done]); (split; [|done]); eauto.
Qed.

(** ** A concrete answer *)

Definition sample_policy : TtlPolicy := ttl_policy config_new.

Lemma sample_policy_ok : policy_ok sample_policy.
Proof.
  repeat split; cbn; try lia; unfold MAX_STALE_WINDOW, from_secs, nanos_per_sec; lia.
Qed.

(** A positive answer with an OPT record, TTL 60. *)
Definition sample_answer : Message :=
  set_edns (mkMessage (mkHeader 4660 true Query false false true true NoError) [mkQuestion example_name TA In]
    [mkRR example_name TA In 60 (A 3221225985)] [] []) (Some (edns_new 1232)).

Lemma wf_sample_answer : wf_message sample_answer.
Proof. repeat split; repeat constructor; cbn; try lia; try done; by decide_eval. Qed.

Lemma sample_room : clock_room 1000.
Proof. unfold clock_room. vm_compute. split; congruence. Qed.

Lemma cacheable_answer_spec_witness :
  ∃ a, cacheable_answer sample_answer 1000 sample_policy 0 = Ret (Some a) ∧ edns (ca_message a) = Ok None.
Proof.
  destruct (cacheable_answer_spec sample_answer 1000 sample_policy 0 sample_policy_ok wf_sample_answer sample_room)
    as ([a|] & E & H).
  - exists a. destruct H as (_ & H & _). split; [exact E|exact H].
  - exfalso. vm_compute in E. discriminate E.
Defined.

Lemma hit_countdown_witness :
  ∃ a, cacheable_answer sample_answer 1000 sample_policy 0 = Ret (Some a) ∧
    ttls (cache_hit_response example_query a (1000 + from_secs 7)) = [53]%Z.
Proof.
  eexists. split; [vm_compute; reflexivity|].
  pose proof (hit_countdown sample_answer 1000 sample_policy 0 _ example_query (1000 + from_secs 7)
    sample_policy_ok wf_sample_answer sample_room ltac:(vm_compute; reflexivity)
    ltac:(vm_compute; split; congruence)) as H.
  destruct H as (_ & _ & _ & _ & _ & _ & Ht & _). refine (eq_trans Ht _). vm_compute. reflexivity.
Defined.
