(* ===== verification/Transport.v ===== *)
(** * UDP, TCP and framing

    Models [crates/dns-lattice/src/upstream/mod.rs]: checking that a response
    answers its query, the UDP backend with its EDNS retry and TCP fallback,
    and length-prefixed framing. A socket is what the network does with it: a
    UDP socket has the results of its sends and the datagrams that arrive
    before the deadline, a stream the bytes that arrive and the error that ends
    it. Timeouts are part of that, as [Timeout] among the errors. *)

From stdpp Require Import base numbers list strings pretty.
From S2P Require Import Prelude CoreError Name RecordData Edns Header Message.

Definition UDP_MAX_RESPONSE_LEN : nat := 512.

Inductive IdCheck : Type :=
  | Match
  | Ignore.

#[export] Instance id_check_eq_dec : EqDecision IdCheck.
Proof. solve_decision. Defined.

Definition question_matches (answered asked : Question) : bool :=
  name_eq (q_name answered) (q_name asked) && bool_decide (qtype answered = qtype asked) &&
  bool_decide (qclass answered = qclass asked).

Definition validate_response (query response : Message) (id_check : IdCheck) : Result Error unit :=
  if decide (id_check = Match ∧ id (header response) ≠ id (header query)) then
    Err (Transport ("upstream response id " +:+ pretty (id (header response)) +:+
      " does not match query id " +:+ pretty (id (header query)))%string)
  else if negb (qr (header response)) then
    Err (Transport "upstream response does not have the QR (response) bit set"%string)
  else if negb (bool_decide (length (questions response) = length (questions query)) &&
                forallb (λ p, question_matches p.1 p.2) (combine (questions response) (questions query))) then
    Err (Transport "upstream response question section does not match the query"%string)
  else Ok tt.

(** ** UDP *)

(** An address and a port. *)
Notation SocketAddr := (IpAddr * Z)%type.

Record UdpBackendConfig : Type := mkUdpConfig {
  udp_server : SocketAddr;
  udp_timeout : Z;
  udp_bind_addr : option SocketAddr;
}.

Record UdpBackend : Type := mkUdpBackend {
  udp_config : UdpBackendConfig;
  edns_udp_payload_size : option Z;
}.

Definition udp_new (config : UdpBackendConfig) : UdpBackend := mkUdpBackend config None.
Definition with_edns_udp_payload_size (b : UdpBackend) (size : Z) : UdpBackend :=
  mkUdpBackend (udp_config b) (Some (Z.max size 512)).

Definition unspecified_like (addr : SocketAddr) : SocketAddr :=
  match addr.1 with V4 _ => (V4 0, 0%Z) | V6 _ => (V6 0, 0%Z) end.

(** A connected socket: the results of the sends to come, the datagrams that
    will arrive, the error that ends the wait for more, and what was sent. *)
Record UdpSocket : Type := mkSocket {
  u_sends : list (Result Error unit);
  u_inbox : list (list Z);
  u_end : Error;
  u_sent : list (list Z);
}.

Definition send_udp (s : UdpSocket) (payload : list Z) : Run Error UdpSocket :=
  match u_sends s with
  | Err e :: _ => Throw e
  | Ok _ :: sends => Ret (mkSocket sends (u_inbox s) (u_end s) (u_sent s ++ [payload]))
  | [] => Throw (u_end s)
  end.

(** The receiving loop: anything that is not an answer to [sent] is skipped. *)
Fixpoint udp_receive (sent : Message) (inbox : list (list Z)) (ends : Error) : Run Error (Message * list (list Z)) :=
  match inbox with
  | [] => Throw ends
  | datagram :: inbox =>
      match decode datagram with
      | Ret response =>
          if is_ok (validate_response sent response Match) then Ret (response, inbox)
          else udp_receive sent inbox ends
      | Throw _ => udp_receive sent inbox ends
      | Panic => Panic
      | Hang => Hang
      end
  end.

Definition udp_exchange (s : UdpSocket) (sent : Message) : Run Error (Message * UdpSocket) :=
  payload ← lift (encode sent);
  s ← send_udp s payload;
  '(response, inbox) ← udp_receive sent (u_inbox s) (u_end s);
  Ret (response, mkSocket (u_sends s) inbox (u_end s) (u_sent s)).

Definition rejects_edns (response : Message) : bool :=
  match rcode (header response) with FormErr | NotImp => true | _ => false end &&
  match edns response with Ok None => true | _ => false end.

(** ** Streams *)

(** A connected stream: the bytes that will arrive, the error that ends them,
    the results of the writes to come, and the bytes written. *)
Record Stream : Type := mkStream {
  s_in : list Z;
  s_end : Error;
  s_writes : list (Result Error unit);
  s_out : list Z;
}.

Definition write_all (s : Stream) (bytes : list Z) : Run Error Stream :=
  match s_writes s with
  | Err e :: _ => Throw e
  | Ok _ :: writes => Ret (mkStream (s_in s) (s_end s) writes (s_out s ++ bytes))
  | [] => Throw (s_end s)
  end.

Definition read_exact (s : Stream) (n : nat) : Run Error (list Z * Stream) :=
  if decide (n ≤ length (s_in s))
  then Ret (take n (s_in s), mkStream (drop n (s_in s)) (s_end s) (s_writes s) (s_out s))
  else Throw (s_end s).

Definition frame (payload : list Z) : list Z := to_be 2 (Z.of_nat (length payload)) ++ payload.

Definition write_framed (s : Stream) (message : Message) : Run Error Stream :=
  payload ← lift (encode message);
  if decide (u16_max < Z.of_nat (length payload))%Z then Throw MessageTooLong
  else write_all s (frame payload).

Definition read_framed (s : Stream) : Run Error (Message * Stream) :=
  '(len_buf, s) ← read_exact s 2;
  '(buf, s) ← read_exact s (Z.to_nat (from_be len_buf));
  message ← decode buf;
  Ret (message, s).

Definition framed_query (s : Stream) (query : Message) (id_check : IdCheck) : Run Error (Message * Stream) :=
  s ← write_framed s query;
  '(response, s) ← read_framed s;
  _ ← lift (validate_response query response id_check);
  Ret (response, s).

(** [connected] is what connecting to the server gave. *)
Definition tcp_query (connected : Result Error Stream) (query : Message) : Run Error Message :=
  s ← lift connected;
  '(response, _) ← framed_query s query Match;
  Ret response.

(** ** The UDP backend *)

(** The query with an OPT record, when the backend adds one. *)
Definition with_opt (b : UdpBackend) (query : Message) : option Message :=
  match edns_udp_payload_size b, edns query with
  | Some size, Ok None => Some (set_edns query (Some (edns_new size)))
  | _, _ => None
  end.

Definition extended_error (code : Z) : Error :=
  Transport ("upstream answered with extended RCODE " +:+ pretty code +:+
    " that a query without EDNS cannot carry")%string.

(** An answer to the query with the added OPT record, without it. *)
Definition strip_edns (first : Message) : Result Error Message :=
  match edns first with
  | Ok (Some e) =>
      if bool_decide (extended_rcode e ≠ 0)%Z && negb (truncated (header first))
      then Err (extended_error (extended_rcode e))
      else Ok (set_edns first None)
  | _ => Ok (set_edns first None)
  end.

Definition udp_answer (b : UdpBackend) (s : UdpSocket) (query : Message) : Run Error (Message * UdpSocket) :=
  match with_opt b query with
  | Some sent =>
      '(first, s) ← udp_exchange s sent;
      if rejects_edns first then udp_exchange s query
      else answer ← lift (strip_edns first); Ret (answer, s)
  | None => udp_exchange s query
  end.

(** [bound] gives the connected socket for a local address, [connected] what a
    TCP connection to the server gave. *)
Definition udp_resolve (bound : SocketAddr → SocketAddr → Result Error UdpSocket)
    (connected : SocketAddr → Result Error Stream) (b : UdpBackend) (query : Message) : Run Error Message :=
  let server := udp_server (udp_config b) in
  let bind_addr := match udp_bind_addr (udp_config b) with Some a => a | None => unspecified_like server end in
  s ← lift (bound bind_addr server);
  '(response, _) ← udp_answer b s query;
  if truncated (header response) then tcp_query (connected server) query else Ret response.

(** ** What validation accepts *)

Definition same_question (answered asked : Question) : Prop :=
  q_name answered ≡ q_name asked ∧ qtype answered = qtype asked ∧ qclass answered = qclass asked.

(** A response to the query: QR set, the same questions, the same id if ids
    are compared. *)
Record answers_query (id_check : IdCheck) (query response : Message) : Prop := {
  aq_id : id_check = Match → id (header response) = id (header query);
  aq_qr : qr (header response) = true;
  aq_questions : Forall2 same_question (questions response) (questions query);
}.

Lemma question_matches_spec a q : question_matches a q = true ↔ same_question a q.
Proof.
  unfold question_matches, same_question. rewrite !andb_true_iff, !bool_decide_eq_true.
  rewrite name_eq_spec, <-name_equiv_spec. tauto.
Qed.

Lemma questions_match_spec (xs ys : list Question) :
  bool_decide (length xs = length ys) && forallb (λ p, question_matches p.1 p.2) (combine xs ys) = true ↔
  Forall2 same_question xs ys.
Proof.
  rewrite andb_true_iff, bool_decide_eq_true. split.
  - revert ys. induction xs as [|x xs IH]; intros [|y ys] [Hl H]; try discriminate Hl; [constructor|].
    cbn in H. apply andb_true_iff in H as [H1 H2]. constructor; [by apply question_matches_spec|].
    apply IH. split; [by injection Hl|done].
  - induction 1 as [|x y xs ys Hxy _ [IH1 IH2]]; [done|]. split; [cbn; by rewrite IH1|]. cbn.
    apply andb_true_iff. split; [by apply question_matches_spec|done].
Qed.

Lemma validate_response_spec query response c :
  validate_response query response c = Ok tt ↔ answers_query c query response.
Proof.
  unfold validate_response. split.
  - destruct (decide _) as [|Hid]; [done|]. destruct (qr (header response)) eqn:Hqr; cbn [negb]; [|done].
    destruct (_ && _) eqn:Hq; cbn [negb]; [|done]. intros _. apply questions_match_spec in Hq.
    split; try done. intros ->. destruct (decide (id (header response) = id (header query))); [done|]. by destruct Hid.
  - intros [Hid Hqr Hq]. rewrite decide_False by (intros [-> H]; by apply H, Hid). rewrite Hqr. cbn [negb].
    apply questions_match_spec in Hq. by rewrite Hq.
Qed.

Lemma is_ok_validate query response c :
  is_ok (validate_response query response c) = true ↔ answers_query c query response.
Proof.
  rewrite <-validate_response_spec. destruct (validate_response query response c) as [[]|]; cbn; by split.
Qed.

(** A datagram the receiving loop skips. *)
Definition ignored (sent : Message) (datagram : list Z) : Prop :=
  match decode datagram with
  | Ret response => ¬ answers_query Match sent response
  | Throw _ => True
  | _ => False
  end.

Lemma udp_receive_junk sent junk inbox ends :
  Forall (ignored sent) junk → udp_receive sent (junk ++ inbox) ends = udp_receive sent inbox ends.
Proof.
  induction 1 as [|d junk Hd _ IH]; [done|]. cbn [app udp_receive]. unfold ignored in Hd.
  destruct (decode d) as [r|e| |]; try done. destruct (is_ok _) eqn:E; [|done]. by apply is_ok_validate in E.
Qed.

Lemma udp_receive_first sent inbox ends r rest :
  udp_receive sent inbox ends = Ret (r, rest) →
  ∃ junk d, inbox = junk ++ d :: rest ∧ Forall (ignored sent) junk ∧ decode d = Ret r ∧ answers_query Match sent r.
Proof.
  induction inbox as [|d inbox IH]; cbn [udp_receive]; [done|]. intros H.
  assert (Hnext : ignored sent d → udp_receive sent inbox ends = Ret (r, rest) →
    ∃ junk d', d :: inbox = junk ++ d' :: rest ∧ Forall (ignored sent) junk ∧ decode d' = Ret r ∧ answers_query Match sent r).
  { intros Hd Hr. destruct (IH Hr) as (junk & d' & -> & Hj & Hrest). exists (d :: junk), d'.
    split; [done|]. split; [by constructor|done]. }
  unfold ignored in Hnext. destruct (decode d) as [m|e| |] eqn:Ed; try done; [|by apply Hnext].
  destruct (is_ok _) eqn:E.
  - injection H as -> ->. exists [], d. apply is_ok_validate in E. split_and!; try done.
  - apply Hnext; [|done]. intros Hv%is_ok_validate. congruence.
Qed.

(** What was asked does not change when an OPT record is added. *)
Lemma answers_same query query' r c :
  id (header query') = id (header query) → questions query' = questions query →
  answers_query c query' r → answers_query c query r.
Proof. intros H1 H2 [H3 H4 H5]. split; [by rewrite <-H1|done|by rewrite <-H2]. Qed.

Lemma with_opt_asks b query sent c r :
  with_opt b query = Some sent → answers_query c sent r ↔ answers_query c query r.
Proof.
  unfold with_opt. destruct (edns_udp_payload_size b); [|done]. destruct (edns query) as [[e|]|]; try done.
  intros [= <-]. split; by apply answers_same.
Qed.

Lemma udp_exchange_answers s sent r s' : udp_exchange s sent = Ret (r, s') → answers_query Match sent r.
Proof.
  unfold udp_exchange. intros H. apply run_bind_ret in H as (payload & _ & H).
  apply run_bind_ret in H as (s1 & _ & H). apply run_bind_ret in H as ([m rest] & E & H).
  injection H as -> _. by apply udp_receive_first in E as (? & ? & ? & ? & ? & ?).
Qed.

Lemma strip_edns_spec first r :
  strip_edns first = Ok r → header r = header first ∧ questions r = questions first ∧ edns r = Ok None.
Proof.
  unfold strip_edns. intros H. assert (r = set_edns first None) as ->; [|split_and!; try done; apply edns_set_none].
  destruct (edns first) as [[e|]|]; try by injection H as <-. destruct (_ && _); [done|]. by injection H as <-.
Qed.

Lemma udp_answer_answers b s query r s' : udp_answer b s query = Ret (r, s') → answers_query Match query r.
Proof.
  unfold udp_answer. destruct (with_opt b query) as [sent|] eqn:Eo; [|apply udp_exchange_answers].
  intros H. apply run_bind_ret in H as ([first s1] & E & H). apply udp_exchange_answers in E.
  destruct (rejects_edns first); [by apply udp_exchange_answers in H|].
  apply run_bind_ret in H as (answer & Hs & H). injection H as -> _.
  destruct (strip_edns first) as [a|] eqn:Es; [|done]. injection Hs as ->.
  apply strip_edns_spec in Es as (Hh & Hq & _). eapply (with_opt_asks _ _ _ _ _ Eo).
  destruct E as [H1 H2 H3]. split; [by rewrite Hh|by rewrite Hh|by rewrite Hq].
Qed.

Lemma framed_query_answers s query c r s' : framed_query s query c = Ret (r, s') → answers_query c query r.
Proof.
  unfold framed_query. intros H. apply run_bind_ret in H as (s1 & _ & H). apply run_bind_ret in H as ([m s2] & _ & H).
  apply run_bind_ret in H as ([] & Hv & H). injection H as -> _. apply validate_response_spec.
  by destruct (validate_response query r c) as [[]|].
Qed.

(** ** Junk on the socket *)

Definition prepend (junk : list (list Z)) (s : UdpSocket) : UdpSocket :=
  mkSocket (u_sends s) (junk ++ u_inbox s) (u_end s) (u_sent s).

Lemma udp_exchange_junk s sent junk :
  Forall (ignored sent) junk → udp_exchange (prepend junk s) sent = udp_exchange s sent.
Proof.
  intros Hj. unfold udp_exchange. destruct (encode sent) as [payload|e]; [|done]. cbn [lift mbind run_bind].
  unfold send_udp, prepend. cbn [u_sends u_inbox u_end u_sent]. destruct (u_sends s) as [|[[]|e] sends]; [done| |done].
  cbn [mbind run_bind u_inbox u_end u_sends u_sent]. by rewrite udp_receive_junk.
Qed.

Lemma ignored_with_opt b query sent d : with_opt b query = Some sent → ignored query d → ignored sent d.
Proof. intros H. unfold ignored. destruct (decode d); try done. intros Hn Ha. by apply Hn, (with_opt_asks b query sent). Qed.

Lemma udp_resolve_answers b bound connected query r :
  udp_resolve bound connected b query = Ret r → answers_query Match query r.
Proof.
  unfold udp_resolve. intros H. apply run_bind_ret in H as (s & _ & H). apply run_bind_ret in H as ([m s1] & E & H).
  apply udp_answer_answers in E. destruct (truncated (header m)); [|by injection H as <-].
  unfold tcp_query in H. apply run_bind_ret in H as (s2 & _ & H). apply run_bind_ret in H as ([m2 s3] & E2 & H).
  injection H as <-. by eapply framed_query_answers.
Qed.

(** C18: Only the upstream's own answer is returned. Whatever datagrams reach
    the socket, a response the UDP backend returns has the query's id, the QR
    bit and the query's questions, whether it came over UDP, after an EDNS
    retry or over the TCP fallback; and datagrams that do not decode or do not
    answer the query (forged with another id, late, garbage) change nothing:
    the result is the one without them. *)
Theorem udp_backend_answers b bound connected query r junk :
  (udp_resolve bound connected b query = Ret r → answers_query Match query r) ∧
  (Forall (ignored query) junk →
   udp_resolve (λ a1 a2, match bound a1 a2 with Ok s => Ok (prepend junk s) | Err e => Err e end) connected b query =
   udp_resolve bound connected b query).
Proof.
  split; [apply udp_resolve_answers|].
  intros Hj. unfold udp_resolve. set (local := match udp_bind_addr _ with Some a => a | None => _ end).
  destruct (bound local (udp_server (udp_config b))) as [s|e]; [|done]. cbn [lift mbind run_bind].
  assert (udp_answer b (prepend junk s) query = udp_answer b s query) as ->; [|done].
  unfold udp_answer. destruct (with_opt b query) as [sent|] eqn:Eo; [|by apply udp_exchange_junk].
  rewrite udp_exchange_junk; [done|]. eapply Forall_impl; [exact Hj|]. intros d. by apply (ignored_with_opt b).
Qed.

(** ** Framing *)

(** A framed message is read back, whatever follows it. *)
Lemma read_framed_frame m payload rest s :
  wf_message m → encode m = Ok payload → s_in s = frame payload ++ rest →
  read_framed s = Ret (m, mkStream rest (s_end s) (s_writes s) (s_out s)).
Proof.
  intros Hm He Hin. unfold encode in He. rewrite encode_into_wf in He by done. case_decide as Hf; [|done].
  injection He as <-. cbn [app length] in *. unfold fits in Hf. rewrite Nat.add_0_l in Hf.
  unfold frame in Hin. unfold read_framed, read_exact. rewrite Hin.
  pose proof (length_to_be 2 (Z.of_nat (length (message_wire m)))) as Hl.
  rewrite <-app_assoc, decide_True by (rewrite length_app; lia).
  rewrite take_app_length', drop_app_length' by done. cbn [mbind run_bind s_in s_end s_writes s_out].
  rewrite from_to_be by (change (256 ^ Z.of_nat 2)%Z with 65536%Z; lia).
  rewrite Nat2Z.id, decide_True by (rewrite length_app; lia).
  rewrite take_app_length, drop_app_length. cbn [mbind run_bind].
  rewrite <-(app_nil_r (message_wire m)) at 1. rewrite decode_message_wire by done. done.
Qed.

(** A run of consecutive bytes of a buffer, and a buffer with one that makes
    the decoder loop. *)
Definition part_of (bytes buf : list Z) : Prop := ∃ before after, buf = before ++ bytes ++ after.
Definition loops_on (buf : list Z) : Prop := ∃ bytes, part_of bytes buf ∧ decode bytes = Hang.

Lemma part_refl buf : part_of buf buf.
Proof. exists [], []. by rewrite app_nil_r. Qed.

Lemma part_trans a b c : part_of a b → part_of b c → part_of a c.
Proof. intros (x & y & ->) (u & v & ->). exists (u ++ x), (y ++ v). by rewrite <-!app_assoc. Qed.

Lemma part_suffix a b : part_of b (a ++ b).
Proof. exists a, []. by rewrite app_nil_r. Qed.

Lemma part_take_drop n k buf : part_of (take n (drop k buf)) buf.
Proof. exists (take k buf), (drop n (drop k buf)). by rewrite !take_drop. Qed.

Lemma part_bytes_ok a b : part_of a b → bytes_ok b → bytes_ok a.
Proof. intros (x & y & ->) [_ [H _]%Forall_app]%Forall_app. done. Qed.

Lemma loops_on_part a b : part_of a b → loops_on a → loops_on b.
Proof. intros Hp (bytes & Hb & Hd). exists bytes. split; [by eapply part_trans|done]. Qed.

Lemma loops_on_suffix a b : loops_on b → loops_on (a ++ b).
Proof. apply loops_on_part, part_suffix. Qed.

(** Framed reads and writes return, unless the bytes make the decoder loop. *)
Lemma read_framed_outcome stream : read_framed stream ≠ Panic ∧ (read_framed stream = Hang → loops_on (s_in stream)).
Proof.
  unfold read_framed, read_exact. case_decide; [|done]. cbn [mbind run_bind s_in]. case_decide; [|done].
  cbn [mbind run_bind]. set (buf := take _ (drop _ _)). pose proof (decode_no_panic_aux buf) as Hp.
  destruct (decode buf) eqn:E; try done. split; [done|]. exists buf. split; [apply part_take_drop|done].
Qed.

Lemma write_framed_outcome stream m : write_framed stream m ≠ Panic ∧ write_framed stream m ≠ Hang.
Proof.
  unfold write_framed, write_all. destruct (encode m); [|done]. cbn [lift mbind run_bind]. case_decide; [done|].
  by destruct (s_writes stream) as [|[]].
Qed.

(** ** A concrete exchange *)

Definition example_reply : Message :=
  mkMessage (mkHeader 4660 true Query false false true true NoError) [mkQuestion example_name TA In]
    [mkRR example_name TA In 60 (A 3221225985)] [] [].

Definition encoded (m : Message) : list Z := match encode m with Ok b => b | Err _ => [] end.

(** A forged reply with another id. *)
Definition forged_reply : Message :=
  mkMessage (mkHeader 4661 true Query false false true true NoError) [mkQuestion example_name TA In] [] [] [].

Definition example_socket : UdpSocket := mkSocket [Ok tt] [encoded example_reply] Timeout [].

Lemma udp_backend_answers_witness :
  udp_resolve (λ _ _, Ok (prepend [[1; 2]%Z; encoded forged_reply] example_socket)) (λ _, Err Timeout)
    (udp_new (mkUdpConfig (V4 16843009, 53%Z) 1000 None)) example_query = Ret example_reply.
Proof.
  refine (eq_trans (proj2 (udp_backend_answers (udp_new (mkUdpConfig (V4 16843009, 53%Z) 1000 None))
    (λ _ _, Ok example_socket) (λ _, Err Timeout) example_query example_reply [[1; 2]%Z; encoded forged_reply]) _) _).
  - constructor; [|constructor; [|constructor]].
    + unfold ignored. replace (decode [1; 2]%Z) with (Throw (A:=Message) (Truncated 2)) by (vm_compute; reflexivity). exact I.
    + unfold ignored. replace (decode (encoded forged_reply)) with (Ret (E:=Error) forged_reply) by (vm_compute; reflexivity).
      intros [H _ _]. discriminate (H eq_refl).
  - vm_compute. reflexivity.
Defined.
