(* ===== verification/ResponseWf.v ===== *)
(** * What the response functions keep

    Every function of Response.v that makes or changes a response keeps it
    well formed and keeps it an answer to its query: so what is stored can be
    sent, and what is served is a reply. TTLs are the one condition: a decoder
    reads a TTL with its top bit set as zero, so the TTLs a configuration
    writes have to be below it. *)

From stdpp Require Import base numbers list.
From S2P Require Import Prelude CoreError Name RecordData Edns Header Message Time CacheConfig Entry Response Transport.

(** A message that can be stored for later replies, and a reply to a query. *)
Definition response_ok (m : Message) : Prop := wf_message m ∧ qr (header m) = true.
Definition reply_to (query m : Message) : Prop := wf_message m ∧ answers_query Match query m.

(** A TTL that decoders read as it is. *)
Definition is_ttl (t : Z) : Prop := (0 ≤ t < 2147483648)%Z.

Lemma same_questions_refl qs : Forall2 same_question qs qs.
Proof. induction qs as [|q qs IH]; constructor; [by split|done]. Qed.

Lemma reply_response query m : reply_to query m → response_ok m.
Proof. intros [H [_ Hq _]]. by split. Qed.

(** ** OPT records *)

Lemma edns_wf m e : wf_message m → edns m = Ok (Some e) → wf_edns e.
Proof.
  intros (_ & _ & _ & _ & Hx) He. unfold edns in He. pose proof (find_opt_spec (additionals m)) as Hs.
  destruct (find_opt None (additionals m)) as [[[r d]|]|]; cbn [mbind result_bind] in He; try done.
  destruct Hs as (_ & Hr & Hd). rewrite Forall_forall in Hx.
  apply Hx in Hr as (Hn & Hdata & Ht & Hc). unfold from_record in He. destruct (negb _); [done|].
  apply result_bind_ok in He as (e' & He & Hee). injection Hee as <-.
  apply result_bind_ok in He as (opts & Ho & He). injection He as <-.
  assert (Hb : bytes_ok d ∧ is_opt_type (rr_rtype r) = true).
  { rewrite Ht. destruct (rr_rdata r); try discriminate Hd. unfold opt_data in Hd. case_decide as Hopt; [|done].
    injection Hd as <-. destruct Hdata as [_ Hdata]. split; [done|]. rewrite Hopt. reflexivity. }
  destruct Hb as [Hb Hty]. rewrite Hty in Hc. destruct Hc as [Hc _].
  split; [by apply wf_opt_class_range|]. cbn [extended_rcode version options].
  assert (Hl : ∀ v, is_u8 (Z.land v 255)).
  { intros v. change 255%Z with (Z.ones 8). rewrite Z.land_ones by lia. apply Z.mod_pos_bound. lia. }
  split; [apply Hl|]. split; [apply Hl|]. eapply parse_options_wf; [exact Hb|constructor|exact Ho].
Qed.

Lemma wf_edns_new size : is_u16 size → wf_edns (edns_new size).
Proof. intros H. repeat split; cbn; try lia. constructor. Qed.

Lemma reply_set_edns query m e :
  reply_to query m → match e with Some e => wf_edns e | None => True end → reply_to query (set_edns m e).
Proof. intros [Hw [H1 H2 H3]] He. split; [by apply wf_set_edns|by split]. Qed.

Lemma response_set_edns m : response_ok m → response_ok (set_edns m None).
Proof. intros [H Hq]. split; [by apply wf_set_edns|done]. Qed.

Lemma reply_align query m : reply_to query m → reply_to query (align_edns query m).
Proof.
  intros H. unfold align_edns. destruct (edns query) as [[qe|]|]; [|by apply reply_set_edns|done].
  destruct (edns m) as [[?|]|]; [done|..]; (apply reply_set_edns; [done|]);
    unfold wf_edns, set_dnssec_ok, edns_new, DEFAULT_EDNS_UDP_PAYLOAD_SIZE; cbn; split_and!; lia || constructor.
Qed.

Lemma reply_mark_stale query m : reply_to query m → reply_to query (mark_stale_answer query m).
Proof.
  intros H. unfold mark_stale_answer. destruct (edns query) as [[qe|]|]; [|done..].
  destruct (edns m) as [[e|]|] eqn:Ee; [|done..].
  destruct (option_new EDE_OPTION_CODE (to_be 2 EDE_STALE_ANSWER)) as [o|] eqn:Eo; [|done].
  apply reply_set_edns; [done|]. destruct (edns_wf m e (proj1 H) Ee) as (H1 & H2 & H3 & H4).
  split; [exact H1|]. split; [exact H2|]. split; [exact H3|]. cbn [push_option options]. apply Forall_app. split; [exact H4|].
  constructor; [|constructor]. eapply option_new_wf; [| |exact Eo]; [unfold EDE_OPTION_CODE; lia|apply bytes_ok_to_be].
Qed.

(** ** TTLs *)

Lemma wf_with_ttl r ttl : wf_rr r → is_opt r = false → is_ttl ttl → wf_rr (with_ttl r ttl).
Proof.
  intros (H1 & H2 & H3 & H4) Ho Ht. split; [exact H1|]. split; [exact H2|]. split; [exact H3|].
  cbn [with_ttl rr_rtype rr_class rr_ttl]. unfold is_opt in Ho. unfold is_opt_type in *. rewrite Ho in *. by destruct H4.
Qed.

Lemma wf_map_ttl f r : (∀ t, is_ttl t → is_ttl (f t)) → wf_rr r → wf_rr (map_ttl f r).
Proof.
  intros Hf Hr. unfold map_ttl. destruct (is_opt r) eqn:Ho; [done|]. apply wf_with_ttl; [done|done|]. apply Hf.
  destruct Hr as (_ & _ & _ & H). unfold is_opt in Ho. unfold is_opt_type in H. rewrite Ho in H. apply H.
Qed.

Lemma wf_map_ttls f m : (∀ t, is_ttl t → is_ttl (f t)) → wf_message m → wf_message (map_ttls f m).
Proof.
  intros Hf (Hh & Hq & H1 & H2 & H3).
  assert (Hall : ∀ l, Forall wf_rr l → Forall wf_rr (map (map_ttl f) l)).
  { intros l Hl. apply Forall_fmap. eapply Forall_impl; [exact Hl|]. intros r. by apply wf_map_ttl. }
  split; [exact Hh|]. split; [exact Hq|]. cbn. auto.
Qed.

(** ** Replies from stored messages *)

Lemma reply_for_query query m : wf_message query → response_ok m → reply_to query (for_query query m).
Proof.
  intros ((Hi & _) & Hq & _) [((_ & Ho & Hr) & _ & H) Hqr]. split; [|split; [done|done|apply same_questions_refl]].
  split; [|split; [exact Hq|exact H]]. split; [exact Hi|split; [exact Ho|exact Hr]].
Qed.

Lemma reply_map_ttls query f m : (∀ t, is_ttl t → is_ttl (f t)) → reply_to query m → reply_to query (map_ttls f m).
Proof. intros Hf [Hw [H1 H2 H3]]. split; [by apply wf_map_ttls|by split]. Qed.

Lemma reply_cache_hit query a t : wf_message query → response_ok (ca_message a) → reply_to query (cache_hit_response query a t).
Proof.
  intros Hq Ha. apply reply_map_ttls; [|by apply reply_for_query]. unfold is_ttl. intros ttl Ht.
  assert (0 ≤ elapsed_secs a t)%Z; [|lia]. unfold elapsed_secs, saturating_duration_since, as_secs, nanos_per_sec.
  pose proof (Z.div_pos (Z.max 0 (t - inserted a)) 1000000000). lia.
Qed.

Lemma reply_stale query a ttl :
  wf_message query → response_ok (ca_message a) → is_ttl ttl → reply_to query (stale_response query a ttl).
Proof. intros Hq Ha Ht. apply reply_map_ttls; [done|]. by apply reply_for_query. Qed.

Lemma wf_local_response query rc : wf_message query → wf_rcode rc → wf_message (local_response query rc).
Proof.
  intros ((Hi & Ho & _) & Hq & _) Hr. unfold local_response. split; [split; [exact Hi|split; [exact Ho|exact Hr]]|].
  split; [done|]. split_and!; constructor.
Qed.

Lemma reply_local query rc : wf_message query → wf_rcode rc → reply_to query (local_response query rc).
Proof. intros Hq Hr. split; [by apply wf_local_response|]. split; [done|done|apply same_questions_refl]. Qed.

(** ** What is stored *)

(** The bounds of a policy that only writes TTLs decoders read. *)
Definition policy_ttls (p : TtlPolicy) : Prop :=
  policy_ok p ∧ is_ttl (tb_min (positive p)) ∧ is_ttl (tb_min (negative p)).

Lemma clamp_to_ttl b t : bounds_ok b → is_ttl (tb_min b) → is_ttl t → is_ttl (clamp_to b t).
Proof. unfold bounds_ok, is_ttl, clamp_to, clamp. lia. Qed.

Lemma limit_negative_response p m ttl m' :
  policy_ttls p → response_ok m → limit_negative p m = Ret (Some (ttl, m')) → response_ok m'.
Proof.
  intros ((_ & Hb & _) & _ & Hmin) [(Hh & Hq & H1 & H2 & H3) Hqr]. unfold limit_negative.
  destruct (limit_soa_ok (negative p) (authorities m) Hb) as (o & -> & Ho). cbn [mbind run_bind].
  destruct o as [[ttl' rs]|].
  - destruct Ho as (pre & r & post & mn & Ea & Hr & _ & -> & ->). intros [= _ <-].
    split; [|exact Hqr]. split; [exact Hh|]. split; [exact Hq|]. cbn [answers authorities additionals].
    split; [exact H1|]. split; [|exact H3]. rewrite Ea, !Forall_app, !Forall_cons in *.
    destruct H2 as (Hpre & (Hn & Hd & Ht & Hc) & Hpost). split; [exact Hpre|]. split; [|exact Hpost].
    pose proof (soa_not_opt r mn Ht Hr) as Hopt. apply wf_with_ttl; [exact (conj Hn (conj Hd (conj Ht Hc)))|exact Hopt|].
    apply clamp_to_ttl; [done|done|]. unfold is_opt in Hopt. unfold is_opt_type in Hc. rewrite Hopt in Hc.
    unfold soa_minimum in Hr. destruct (rr_rdata r); try done. injection Hr as ->.
    destruct Hd as (_ & _ & _ & _ & _ & _ & Hd). unfold is_ttl in *. lia.
  - destruct (negative_without_soa p) as [t|]; [|done]. rewrite bounds_clamp_ok by done. cbn. by intros [= _ <-].
Qed.

Lemma store_for_message m now p ttl cells a : store_for m now p ttl cells = Ret (Some a) → ca_message a = m.
Proof.
  unfold store_for. destruct ttl as [ttl|]; [|done]. case_decide; [done|]. unfold retained_for, instant_add, answer_new.
  destruct (checked_add now _); cbn; [|done]. destruct (checked_add _ _); cbn; [|done]. by intros [= <-].
Qed.

(** What [cacheable_answer] stores of a response is a response. *)
Lemma cacheable_response answer now p cells a :
  policy_ttls p → response_ok answer → cacheable_answer answer now p cells = Ret (Some a) → response_ok (ca_message a).
Proof.
  intros Hp Hr. pose proof Hp as ((Hpos & Hneg & _) & Hm1 & Hm2).
  assert (Hc : ∀ b, bounds_ok b → is_ttl (tb_min b) → response_ok (map_ttls (clamp_to b) (set_edns answer None))).
  { intros b Hb Hm. apply response_set_edns in Hr as [Hw Hq]. split; [|exact Hq]. apply wf_map_ttls; [|exact Hw].
    intros t. by apply clamp_to_ttl. }
  unfold cacheable_answer. destruct (negb (clean_answer answer)); [done|]. destruct (answer_class answer) as [[]|]; [..|done].
  - rewrite clamp_message_ok by done. cbn [mbind run_bind].
    destruct (limit_negative p _) as [[[ttl m']|]| | |] eqn:El; cbn [mbind run_bind]; try done.
    intros ->%store_for_message. eapply limit_negative_response; [exact Hp| |exact El]. by apply Hc.
  - rewrite clamp_message_ok by done. cbn [mbind run_bind]. intros ->%store_for_message. by apply Hc.
Qed.

Lemma answer_failure_message m e t b r cells a : answer_failure m e t b r cells = Ret a → ca_message a = m.
Proof.
  unfold answer_failure, retained_for, instant_add, answer_new.
  destruct (checked_add t b); cbn; [|done]. destruct (checked_add _ _); cbn; [|done]. by intros [= <-].
Qed.

(** Why TTLs are bounded: a minimum of 2^31 seconds or more is stored and sent
    as it is, and read back as zero. *)
Definition huge_policy : TtlPolicy :=
  mkTtlPolicy (mkBounds 2147483648 u32_max) (negative sample_policy) (negative_without_soa sample_policy) 0.

Lemma huge_minimum_reads_zero :
  match cacheable_answer sample_answer 1000 huge_policy 0 with
  | Ret (Some a) =>
      ttls (ca_message a) = [2147483648%Z] ∧
      match encode (ca_message a) with
      | Ok bytes => match decode bytes with Ret m => ttls m = [0%Z] | _ => False end
      | Err _ => False
      end
  | _ => False
  end.
Proof. vm_compute. split; reflexivity. Qed.
