(* ===== verification/Reverse.v ===== *)
(** * Reverse-lookup names

    Models [parse_reverse_name] of [crates/dns-lattice/src/engine.rs] and the
    number parsing and printing of the standard library it uses. *)

From stdpp Require Import base numbers list.
From S2P Require Import Prelude CoreError Name FakeIpPool.

(** ** Octets *)

Definition is_digit (c : Z) : bool := bool_decide (48 ≤ c ≤ 57)%Z.

(** The digits of [u8::from_str]; the value never decreases, so an overflow
    is final. *)
Fixpoint parse_digits (acc : Z) (text : list Z) : option Z :=
  match text with
  | [] => Some acc
  | c :: text =>
      if is_digit c then
        let acc := (acc * 10 + (c - 48))%Z in
        if decide (acc ≤ 255)%Z then parse_digits acc text else None
      else None
  end.

(** [str::parse::<u8>]: an optional [+], then at least one digit. *)
Definition parse_u8 (text : list Z) : option Z :=
  match text with
  | [] => None
  | c :: rest =>
      if decide (c = 43)%Z then match rest with [] => None | _ => parse_digits 0 rest end
      else parse_digits 0 text
  end.

(** [u8::to_string] *)
Definition u8_to_string (v : Z) : list Z :=
  if decide (v < 10)%Z then [48 + v]%Z
  else if decide (v < 100)%Z then [48 + v / 10; 48 + v mod 10]%Z
  else [48 + v / 100; 48 + v / 10 mod 10; 48 + v mod 10]%Z.

(** One octet label. A label that is not UTF-8 is no number either. *)
Definition parse_octet (label : list Z) : option Z :=
  value ← parse_u8 label;
  if decide (u8_to_string value ≠ label) then None else Some value.

(** [octets[3 - index] = value] for four labels. *)
Fixpoint octet_loop (index : nat) (labels : list (list Z)) (octets : list Z) : option (list Z) :=
  match labels with
  | [] => Some octets
  | label :: labels =>
      value ← parse_octet label;
      octet_loop (S index) labels (<[3 - index := value]> octets)
  end.

(** ** Nibbles *)

Definition parse_nibble (c : Z) : option Z :=
  if decide (48 ≤ c ≤ 57)%Z then Some (c - 48)%Z
  else if decide (97 ≤ c ≤ 102)%Z then Some (c - 97 + 10)%Z
  else if decide (65 ≤ c ≤ 70)%Z then Some (c - 65 + 10)%Z
  else None.

(** [bytes[target / 2] |= nibble] in the half [target] names. *)
Definition set_nibble (bytes : list Z) (target : nat) (nibble : Z) : list Z :=
  alter (λ b, Z.lor b (if Nat.even target then Z.shiftl nibble 4 else nibble)) (Nat.div2 target) bytes.

Fixpoint nibble_loop (index : nat) (labels : list (list Z)) (bytes : list Z) : option (list Z) :=
  match labels with
  | [] => Some bytes
  | label :: labels =>
      match label with
      | [c] => nibble ← parse_nibble c; nibble_loop (S index) labels (set_nibble bytes (31 - index) nibble)
      | _ => None
      end
  end.

Definition in_addr : list Z := [105; 110; 45; 97; 100; 100; 114]%Z.
Definition ip6 : list Z := [105; 112; 54]%Z.
Definition arpa : list Z := [97; 114; 112; 97]%Z.

(** [labels[i].eq_ignore_ascii_case(text)] *)
Definition label_is (labels : list (list Z)) (i : nat) (text : list Z) : bool :=
  match labels !! i with Some l => eq_ignore_ascii_case l text | None => false end.

Definition parse_reverse_name (name : Name) : option IpAddr :=
  let ls := labels name in
  if bool_decide (length ls = 6) && label_is ls 4 in_addr && label_is ls 5 arpa then
    octets ← octet_loop 0 (take 4 ls) (replicate 4 0%Z); Some (V4 (from_be octets))
  else if bool_decide (length ls = 34) && label_is ls 32 ip6 && label_is ls 33 arpa then
    bytes ← nibble_loop 0 (take 32 ls) (replicate 16 0%Z); Some (V6 (from_be bytes))
  else None.

(** ** Specification: the canonical reverse name of an address *)

Definition hex_digit (n : Z) : Z := if decide (n < 10)%Z then (48 + n)%Z else (87 + n)%Z.

Definition byte_labels (b : Z) : list (list Z) := [[hex_digit (b mod 16)]; [hex_digit (b / 16)]].

Definition reverse_labels (ip : IpAddr) : list (list Z) :=
  match ip with
  | V4 a => map u8_to_string (rev (to_be 4 a)) ++ [in_addr; arpa]
  | V6 a => concat (map byte_labels (rev (to_be 16 a))) ++ [ip6; arpa]
  end.

Definition reverse_name (ip : IpAddr) : Name := mkName (reverse_labels ip).

Definition ip_ok (ip : IpAddr) : Prop :=
  match ip with V4 a => (0 ≤ a < 2 ^ 32)%Z | V6 a => (0 ≤ a < 2 ^ 128)%Z end.

(** ** Octets round trip *)

Definition octet_check (v : Z) : bool :=
  bool_decide (parse_octet (u8_to_string v) = Some v) &&
  bool_decide (map to_ascii_lowercase (u8_to_string v) = u8_to_string v).

Lemma octet_round_trip v :
  (0 ≤ v < 256)%Z →
  parse_octet (u8_to_string v) = Some v ∧ map to_ascii_lowercase (u8_to_string v) = u8_to_string v.
Proof.
  intros Hv. assert (forallb octet_check (map Z.of_nat (seq 0 256)) = true) as H by (vm_compute; reflexivity).
  rewrite forallb_forall in H. specialize (H v). unfold octet_check in H.
  rewrite andb_true_iff, !bool_decide_eq_true in H. apply H. apply list_elem_of_In, list_elem_of_fmap.
  exists (Z.to_nat v). split; [lia|]. apply elem_of_seq. lia.
Qed.

Lemma parse_digits_range acc text v : (0 ≤ acc)%Z → parse_digits acc text = Some v → (0 ≤ v)%Z ∧ (acc ≤ 255 → v ≤ 255)%Z.
Proof.
  revert acc. induction text as [|c text IH]; intros acc Ha; cbn; [intros [= <-]; lia|].
  unfold is_digit. case_bool_decide; [|done]. case_decide; [|done]. intros H'%IH; [|lia]. split; lia.
Qed.

Lemma parse_octet_some l v : parse_octet l = Some v → (0 ≤ v < 256)%Z ∧ l = u8_to_string v.
Proof.
  unfold parse_octet. destruct (parse_u8 l) as [w|] eqn:E; cbn; [|done]. case_decide as Hl; [done|]. intros [= <-].
  split; [|by destruct (decide (u8_to_string w = l)) as [<-|]]. unfold parse_u8 in E.
  destruct l as [|c rest]; [done|]. case_decide; [destruct rest; [done|]|];
    apply parse_digits_range in E as [? Hle]; lia.
Qed.

(** Lower-casing changes no digit string. *)
Lemma lower_low l s : Forall (λ c, c < 65)%Z s → map to_ascii_lowercase l = s → l = s.
Proof.
  intros Hs <-. induction l as [|c l IH]; [done|]. cbn in *. apply Forall_cons in Hs as [Hc Hs].
  f_equal; [|by apply IH]. unfold to_ascii_lowercase in *. destruct (decide _); lia.
Qed.

Lemma u8_to_string_low v : (0 ≤ v < 256)%Z → Forall (λ c, c < 65)%Z (u8_to_string v).
Proof.
  intros Hv. unfold u8_to_string. pose proof (Z.mod_pos_bound v 10). pose proof (Z.mod_pos_bound (v / 10) 10).
  assert (v / 10 ≤ 25 ∧ v / 100 ≤ 2)%Z by (split; apply Z.lt_succ_r, Z.div_lt_upper_bound; lia).
  repeat case_decide; repeat constructor; try lia. assert (v / 10 < 10)%Z by (apply Z.div_lt_upper_bound; lia). lia.
Qed.

Lemma label_is_spec (ls : list (list Z)) i text :
  map to_ascii_lowercase text = text →
  label_is ls i text = true ↔ map (map to_ascii_lowercase) ls !! i = Some text.
Proof.
  intros Ht. unfold label_is. change (map ?f ?x) with (f <$> x) at 1. rewrite list_lookup_fmap.
  destruct (ls !! i) as [l|]; cbn; [|done]. unfold eq_ignore_ascii_case. rewrite bool_decide_eq_true, Ht. naive_solver.
Qed.

Lemma octet_loop_four l0 l1 l2 l3 octets :
  octet_loop 0 [l0; l1; l2; l3] [0; 0; 0; 0]%Z = Some octets ↔
  ∃ v0 v1 v2 v3, octets = [v3; v2; v1; v0] ∧ parse_octet l0 = Some v0 ∧ parse_octet l1 = Some v1 ∧
    parse_octet l2 = Some v2 ∧ parse_octet l3 = Some v3.
Proof.
  cbn [octet_loop]. destruct (parse_octet l0) as [v0|]; cbn; [|naive_solver].
  destruct (parse_octet l1) as [v1|]; cbn; [|naive_solver]. destruct (parse_octet l2) as [v2|]; cbn; [|naive_solver].
  destruct (parse_octet l3) as [v3|]; cbn; [|naive_solver]. split; [intros [= <-]; eauto 10|naive_solver].
Qed.

Lemma octet_exact l v :
  parse_octet l = Some v ↔ (0 ≤ v < 256)%Z ∧ map to_ascii_lowercase l = u8_to_string v.
Proof.
  split.
  - intros [Hv ->]%parse_octet_some. split; [done|]. by apply octet_round_trip.
  - intros [Hv H]. apply lower_low in H; [|by apply u8_to_string_low]. subst. by apply octet_round_trip.
Qed.

Lemma parse_v4_exact (ls : list (list Z)) a :
  length ls = 6 → label_is ls 4 in_addr = true → label_is ls 5 arpa = true →
  (octets ← octet_loop 0 (take 4 ls) (replicate 4 0%Z); Some (V4 (from_be octets))) = Some (V4 a) ↔
  ip_ok (V4 a) ∧ map (map to_ascii_lowercase) ls = reverse_labels (V4 a).
Proof.
  intros Hl H4 H5. destruct ls as [|l0 [|l1 [|l2 [|l3 [|l4 [|l5 [|]]]]]]]; try done.
  apply label_is_spec in H4 as E4; [|done]. apply label_is_spec in H5 as E5; [|done]. cbn in E4, E5.
  injection E4 as E4. injection E5 as E5. cbn [take replicate ip_ok reverse_labels].
  split.
  - destruct (octet_loop 0 [l0; l1; l2; l3] [0; 0; 0; 0]%Z) as [octets|] eqn:Eo; cbn [mbind option_bind]; [|done].
    intros H. assert (a = from_be octets) as -> by congruence. clear H.
    apply octet_loop_four in Eo as (v0 & v1 & v2 & v3 & -> & P0 & P1 & P2 & P3).
    apply octet_exact in P0 as [R0 S0], P1 as [R1 S1], P2 as [R2 S2], P3 as [R3 S3].
    assert (Hb : bytes_ok [v3; v2; v1; v0]) by (repeat constructor; lia).
    split; [apply (from_be_bound [v3; v2; v1; v0] Hb)|].
    pose proof (to_from_be [v3; v2; v1; v0] Hb) as Ht. cbn [length] in Ht. rewrite Ht. cbn [rev app map].
    by rewrite S0, S1, S2, S3, E4, E5.
  - intros [Ha E]. pose proof (length_to_be 4 a) as Hlen. pose proof (bytes_ok_to_be 4 a) as Hb.
    pose proof (from_to_be 4 a ltac:(cbn; lia)) as Hf.
    destruct (to_be 4 a) as [|v3 [|v2 [|v1 [|v0 [|]]]]]; try done. cbn in E.
    injection E as S0 S1 S2 S3 _ _. unfold bytes_ok in Hb. rewrite !Forall_cons in Hb.
    destruct Hb as (B3 & B2 & B1 & B0 & _).
    assert (octet_loop 0 [l0; l1; l2; l3] [0; 0; 0; 0]%Z = Some [v3; v2; v1; v0]) as ->.
    { apply octet_loop_four. exists v0, v1, v2, v3. split_and!; [done|..]; by apply octet_exact. }
    cbn [mbind option_bind]. by rewrite Hf.
Qed.

(** ** Nibbles round trip *)

Lemma nibble_exact c n : parse_nibble c = Some n ↔ (0 ≤ n < 16)%Z ∧ to_ascii_lowercase c = hex_digit n.
Proof.
  unfold parse_nibble, hex_digit, to_ascii_lowercase. split.
  - repeat case_decide; intros [= <-]; try lia; split; try lia; repeat case_decide; lia.
  - intros [Hn H]. repeat case_decide; try (f_equal; lia); exfalso; repeat case_decide; lia.
Qed.

Lemma byte_of_nibbles lo hi :
  (0 ≤ lo < 16)%Z → (0 ≤ hi < 16)%Z → Z.lor (Z.lor 0 lo) (Z.shiftl hi 4) = (lo + 16 * hi)%Z.
Proof.
  intros Hl Hh. rewrite Z.lor_0_l, Z.lor_comm, (lor_shiftl_add hi lo 4) by (done || lia). lia.
Qed.

Lemma set_nibble_pair (zeros tail : list Z) j lo hi :
  length zeros = 15 - j → j ≤ 15 → (0 ≤ lo < 16)%Z → (0 ≤ hi < 16)%Z →
  set_nibble (set_nibble (zeros ++ 0%Z :: tail) (31 - 2 * j) lo) (31 - S (2 * j)) hi =
  zeros ++ (lo + 16 * hi)%Z :: tail.
Proof.
  intros Hz Hj Hlo Hhi. unfold set_nibble.
  replace (31 - 2 * j) with (S (2 * (15 - j))) by lia. replace (31 - S (2 * j)) with (2 * (15 - j)) by lia.
  rewrite Nat.div2_succ_double, Nat.div2_double, Nat.even_succ, Nat.odd_even, Nat.even_even, <-Hz.
  assert (Ha : ∀ g (x : Z), alter g (length zeros) (zeros ++ x :: tail) = zeros ++ g x :: tail).
  { intros g x. clear. induction zeros as [|z zeros IH]; cbn; [reflexivity|]. f_equal. exact IH. }
  by rewrite !Ha, byte_of_nibbles.
Qed.

(** The nibble of one label. *)
Definition label_nibble (l : list Z) : option Z := match l with [c] => parse_nibble c | _ => None end.

Lemma label_nibble_exact l n :
  label_nibble l = Some n ↔ (0 ≤ n < 16)%Z ∧ map to_ascii_lowercase l = [hex_digit n].
Proof.
  unfold label_nibble. destruct l as [|c [|c' l]]; cbn [map].
  - split; [done|by intros []].
  - rewrite nibble_exact. split; [by intros [? ->]|]. intros [? H]. split; [done|congruence].
  - split; [done|by intros []].
Qed.

Lemma nibble_loop_cons i l ls bytes :
  nibble_loop i (l :: ls) bytes =
    (n ← label_nibble l; nibble_loop (S i) ls (set_nibble bytes (31 - i) n)).
Proof. cbn. by destruct l as [|c [|]]. Qed.

Lemma nibble_loop_spec k j ls tail out :
  j + k = 16 → length ls = 2 * k →
  nibble_loop (2 * j) ls (replicate k 0%Z ++ tail) = Some out ↔
  ∃ bs, bytes_ok bs ∧ length bs = k ∧ map (map to_ascii_lowercase) ls = concat (map byte_labels bs) ∧
    out = rev bs ++ tail.
Proof.
  revert j ls tail. induction k as [|k IH]; intros j ls tail Hj Hl.
  - destruct ls; [|done]. cbn. split.
    + intros [= <-]. exists []. by repeat constructor.
    + by intros ([|] & _ & ? & _ & ->).
  - destruct ls as [|l0 [|l1 ls]]; [done|cbn in Hl; lia|]. cbn [length] in Hl.
    rewrite replicate_S_end, <-app_assoc. cbn [app]. rewrite nibble_loop_cons.
    assert (Hstep : ∀ lo hi, label_nibble l0 = Some lo → label_nibble l1 = Some hi →
      nibble_loop (S (S (2 * j))) ls (set_nibble (set_nibble (replicate k 0%Z ++ 0%Z :: tail) (31 - 2 * j) lo)
        (31 - S (2 * j)) hi) = nibble_loop (2 * S j) ls (replicate k 0%Z ++ (lo + 16 * hi)%Z :: tail)).
    { intros lo hi [H0 _]%label_nibble_exact [H1 _]%label_nibble_exact.
      rewrite set_nibble_pair by (done || lia || (rewrite length_replicate; lia)). f_equal. lia. }
    split.
    + destruct (label_nibble l0) as [lo|] eqn:E0; cbn [mbind option_bind]; [|done]. rewrite nibble_loop_cons.
      destruct (label_nibble l1) as [hi|] eqn:E1; cbn [mbind option_bind]; [|done]. rewrite (Hstep lo hi) by done.
      intros H. apply IH in H as (bs & Hb & Hlen & Hm & ->); [|lia|lia].
      apply label_nibble_exact in E0 as [R0 M0], E1 as [R1 M1].
      exists ((lo + 16 * hi)%Z :: bs). split; [constructor; [lia|done]|]. split; [cbn; lia|].
      split; [|cbn; by rewrite <-app_assoc]. cbn [map concat]. unfold byte_labels at 1.
      rewrite (Z.mul_comm 16), Z_mod_plus_full, Z.div_add, Z.mod_small, Z.div_small, Z.add_0_l by lia.
      cbn. by rewrite M0, M1, Hm.
    + intros (bs & Hb & Hlen & Hm & ->). destruct bs as [|b bs]; [done|]. apply Forall_cons in Hb as [Hb Hbs].
      cbn [map concat] in Hm. unfold byte_labels at 1 in Hm. cbn [app] in Hm.
      assert (M0 : map to_ascii_lowercase l0 = [hex_digit (b mod 16)]) by congruence.
      assert (M1 : map to_ascii_lowercase l1 = [hex_digit (b / 16)]) by congruence.
      assert (Hm' : map (map to_ascii_lowercase) ls = concat (map byte_labels bs)) by congruence.
      pose proof (Z.mod_pos_bound b 16 ltac:(lia)). assert (0 ≤ b / 16 < 16)%Z.
      { split; [apply Z.div_pos; lia|apply Z.div_lt_upper_bound; lia]. }
      assert (E0 : label_nibble l0 = Some (b mod 16)%Z) by by apply label_nibble_exact.
      assert (E1 : label_nibble l1 = Some (b / 16)%Z) by by apply label_nibble_exact.
      rewrite E0. cbn [mbind option_bind]. rewrite nibble_loop_cons, E1. cbn [mbind option_bind].
      rewrite (Hstep (b mod 16)%Z (b / 16)%Z) by done. rewrite Z.add_comm, <-Z.div_mod by lia.
      apply IH; [lia|lia|]. exists bs. cbn in Hlen. split_and!; [done|lia|done|]. cbn. by rewrite <-app_assoc.
Qed.

Lemma parse_v6_exact (ls : list (list Z)) a :
  length ls = 34 → label_is ls 32 ip6 = true → label_is ls 33 arpa = true →
  (bytes ← nibble_loop 0 (take 32 ls) (replicate 16 0%Z); Some (V6 (from_be bytes))) = Some (V6 a) ↔
  ip_ok (V6 a) ∧ map (map to_ascii_lowercase) ls = reverse_labels (V6 a).
Proof.
  intros Hl H32 H33. apply label_is_spec in H32, H33; [|done..].
  set (low := map (map to_ascii_lowercase) ls) in *.
  assert (Hlow : low = take 32 low ++ [ip6; arpa]).
  { rewrite <-(take_drop 32 low) at 1. f_equal. assert (length low = 34) by (unfold low; by rewrite length_map).
    rewrite (drop_S _ _ _ H32), (drop_S _ _ _ H33), drop_ge; [done|lia]. }
  assert (Htake : take 32 low = map (map to_ascii_lowercase) (take 32 ls)).
  { unfold low. change (map ?f ?x) with (f <$> x). symmetry. apply fmap_take. }
  pose proof (nibble_loop_spec 16 0 (take 32 ls) [] ) as Hloop.
  rewrite app_nil_r in Hloop. change (2 * 0) with 0 in Hloop. rewrite Hlow, Htake. cbn [reverse_labels]. split.
  - destruct (nibble_loop 0 (take 32 ls) (replicate 16 0%Z)) as [bytes|]; cbn [mbind option_bind]; [|done].
    intros H. assert (a = from_be bytes) as -> by congruence. clear H.
    destruct (proj1 (Hloop bytes eq_refl ltac:(rewrite length_take; lia)) eq_refl) as (bs & Hb & Hlen & Hm & ->).
    rewrite app_nil_r. assert (Hr : bytes_ok (rev bs)) by by apply Forall_rev.
    assert (Hlr : length (rev bs) = 16) by by rewrite length_rev.
    pose proof (from_be_bound _ Hr) as Hbd. pose proof (to_from_be _ Hr) as Ht. rewrite Hlr in Hbd, Ht.
    split; [exact Hbd|]. by rewrite Ht, rev_involutive, Hm.
  - intros [Ha E]. apply app_inj_2 in E as [E _]; [|done].
    rewrite (proj2 (Hloop (to_be 16 a) eq_refl ltac:(rewrite length_take; lia))).
    + cbn [mbind option_bind]. by rewrite from_to_be.
    + exists (rev (to_be 16 a)). split; [apply Forall_rev, bytes_ok_to_be|].
      split; [by rewrite length_rev, length_to_be|]. by rewrite app_nil_r, rev_involutive.
Qed.

Lemma reverse_labels_shape ip :
  match ip with
  | V4 _ => length (reverse_labels ip) = 6 ∧ reverse_labels ip !! 4 = Some in_addr ∧ reverse_labels ip !! 5 = Some arpa
  | V6 _ => length (reverse_labels ip) = 34 ∧ reverse_labels ip !! 32 = Some ip6 ∧ reverse_labels ip !! 33 = Some arpa
  end.
Proof.
  destruct ip as [a|a]; cbn [reverse_labels].
  - assert (length (map u8_to_string (rev (to_be 4 a))) = 4) as H by by rewrite length_map, length_rev, length_to_be.
    rewrite length_app, H, !lookup_app_r, H by (rewrite H; lia). done.
  - assert (Hc : ∀ bs, length (concat (map byte_labels bs)) = 2 * length bs).
    { induction bs as [|b bs IH]; [done|]. cbn. unfold byte_labels in *. lia. }
    assert (length (concat (map byte_labels (rev (to_be 16 a)))) = 32) as H.
    { by rewrite Hc, length_rev, length_to_be. }
    rewrite length_app, H, !lookup_app_r, H by (rewrite H; lia). done.
Qed.

Lemma parse_reverse_exact_aux name ip :
  parse_reverse_name name = Some ip ↔ ip_ok ip ∧ lowercased_labels name = reverse_labels ip.
Proof.
  unfold parse_reverse_name, lowercased_labels. set (ls := labels name).
  pose proof (reverse_labels_shape ip) as Hs.
  destruct (bool_decide (length ls = 6) && label_is ls 4 in_addr && label_is ls 5 arpa) eqn:E4.
  - rewrite !andb_true_iff, bool_decide_eq_true in E4. destruct E4 as [[Hl H4] H5]. destruct ip as [a|a].
    + by apply parse_v4_exact.
    + split; [by destruct (octet_loop _ _ _)|]. intros [_ E]. exfalso. destruct Hs as [Hs _].
      rewrite <-E, length_map in Hs. lia.
  - assert (Hno4 : ∀ a, map (map to_ascii_lowercase) ls ≠ reverse_labels (V4 a)).
    { intros a E. pose proof (reverse_labels_shape (V4 a)) as (H1 & H2 & H3). rewrite <-E in H1, H2, H3.
      rewrite <-label_is_spec in H2, H3 by done. rewrite length_map in H1.
      rewrite H2, H3, bool_decide_true in E4 by done. done. }
    destruct (bool_decide (length ls = 34) && label_is ls 32 ip6 && label_is ls 33 arpa) eqn:E6.
    + rewrite !andb_true_iff, bool_decide_eq_true in E6. destruct E6 as [[Hl H32] H33]. destruct ip as [a|a].
      * split; [by destruct (nibble_loop _ _ _)|]. intros [_ E]. by apply Hno4 in E.
      * by apply parse_v6_exact.
    + split; [done|]. intros [_ E]. exfalso. destruct ip as [a|a]; [by apply Hno4 in E|].
      destruct Hs as (H1 & H2 & H3). rewrite <-E in H1, H2, H3. rewrite <-label_is_spec in H2, H3 by done.
      rewrite length_map in H1. rewrite H2, H3, bool_decide_true in E6 by done. done.
Qed.

(** Reverse names are parsed exactly. A name parses to an address when, in
    any letter case, it is that address's canonical [in-addr.arpa] or
    [ip6.arpa] name, and to nothing otherwise: no other spelling (leading
    zeros, signs, missing or extra labels) is taken for a local reverse
    query. *)
Theorem parse_reverse_exact name ip :
  parse_reverse_name name = Some ip ↔ ip_ok ip ∧ lowercased_labels name = reverse_labels ip.
Proof. apply parse_reverse_exact_aux. Qed.
