(* ===== verification/FakeIpAnswer.v ===== *)
(** * Fake IP answers

    Models [fake_ip_answer], [fake_ip_ptr_answer] and [fake_ip_ttl] of
    [crates/dns-lattice/src/engine.rs] over the pool: the local answers to IN A,
    AAAA and PTR questions. An error leaves the pool as it was up to that
    point. *)

From stdpp Require Import base numbers list gmap.
From S2P Require Import Prelude CoreError Name RecordData Edns Header Message Matcher Time.
From S2P Require Import FakeIpFamily FakeIpPool Entry Response Reverse.

Definition fake_ip_ttl (lifetime : Z) : Result Error Z :=
  if decide (as_secs lifetime ≤ u32_max)%Z then Ok (as_secs lifetime) else Err FakeIpTtlOutOfRange.

Definition push_answer (m : Message) (r : ResourceRecord) : Message :=
  mkMessage (header m) (questions m) (answers m ++ [r]) (authorities m) (additionals m).

(** What a handler leaves: its result and the pool. *)
Notation Handled := (Result Error (option Message) * FakeIpPool)%type.

(** The answer to an address question from what the pool's allocation gave;
    a failed allocation has not touched the pool. *)
Definition address_answer (query : Message) (q : Question) (rtype : RecordType) (mk : Z → RData)
    (p : FakeIpPool) (allocated : Run Error (Z * Z * FakeIpPool)) : Run Error Handled :=
  let answer := local_response query NoError in
  match allocated with
  | Ret (address, lifetime, p) =>
      Ret (match fake_ip_ttl lifetime with
           | Ok ttl => Ok (Some (push_answer answer (mkRR (q_name q) rtype In ttl (mk address))))
           | Err e => Err e
           end, p)
  | Throw FakeIpFamilyDisabled => Ret (Ok (Some answer), p)
  | Throw e => Ret (Err e, p)
  | Panic => Panic
  | Hang => Hang
  end.

(** One address family's branch. *)
Definition family_answer (query : Message) (q : Question) (rtype : RecordType) (mk : Z → RData)
    (p : FakeIpPool) (enabled : bool) (allocate : Run Error (Z * Z * FakeIpPool)) : Run Error Handled :=
  if negb enabled then Ret (Ok (Some (local_response query NoError)), p)
  else match fake_ip_ttl (pool_ttl p) with
       | Err e => Ret (Err e, p)
       | Ok _ => address_answer query q rtype mk p allocate
       end.

(** The answer to a PTR question from the mapping the pool found. *)
Definition mapping_answer (query : Message) (q : Question) (mapping : option (Name * Z)) : Result Error (option Message) :=
  match mapping with
  | None => Ok (Some (local_response query NxDomain))
  | Some (name, lifetime) =>
      match fake_ip_ttl lifetime with
      | Ok ttl => Ok (Some (push_answer (local_response query NoError)
                              (mkRR (q_name q) TPtr In ttl (Ptr name))))
      | Err e => Err e
      end
  end.

Definition fake_ip_ptr_answer (query : Message) (q : Question) (p : FakeIpPool) (now : Z) : Run Error Handled :=
  match parse_reverse_name (q_name q) with
  | None => Ret (Ok None, p)
  | Some ip =>
      let lookup :=
        match ip with
        | V4 a => if contains_ipv4 p a then Some (lookup_ipv4_with_ttl p a now) else None
        | V6 a => if contains_ipv6 p a then Some (lookup_ipv6_with_ttl p a now) else None
        end in
      match lookup with
      | None => Ret (Ok None, p)
      | Some lookup =>
          '(mapping, p) ← lookup;
          Ret (mapping_answer query q mapping, p)
      end
  end.

Definition fake_ip_answer (policy : FakeIpPolicy) (query : Message) (p : FakeIpPool) (now : Z) : Run Error Handled :=
  match questions query with
  | [] => Ret (Ok None, p)
  | q :: _ =>
      if decide (qclass q ≠ In) then Ret (Ok None, p)
      else
        match qtype q with
        | TA => if fake_matches policy (q_name q)
                then family_answer query q TA A p (ipv4_enabled p) (allocate_ipv4_with_ttl p (q_name q) now)
                else Ret (Ok None, p)
        | TAaaa => if fake_matches policy (q_name q)
                   then family_answer query q TAaaa Aaaa p (ipv6_enabled p) (allocate_ipv6_with_ttl p (q_name q) now)
                   else Ret (Ok None, p)
        | TPtr => fake_ip_ptr_answer query q p now
        | _ => Ret (Ok None, p)
        end
  end.

(** ** Which questions are local *)

(** The questions [fake_ip_answer] answers itself. *)
Definition is_local (policy : FakeIpPolicy) (p : FakeIpPool) (query : Message) : bool :=
  match questions query with
  | [] => false
  | q :: _ =>
      bool_decide (qclass q = In) &&
      match qtype q with
      | TA | TAaaa => fake_matches policy (q_name q)
      | TPtr => match parse_reverse_name (q_name q) with
                | Some (V4 a) => contains_ipv4 p a
                | Some (V6 a) => contains_ipv6 p a
                | None => false
                end
      | _ => false
      end
  end.

Lemma allocate_v4_run p name now :
  pool_inv p → (∃ x p', allocate_ipv4_with_ttl p name now = Ret (x, p') ∧ pool_inv p') ∨
    ∃ e, allocate_ipv4_with_ttl p name now = Throw e ∧ pool_error e.
Proof.
  intros Hp. destruct (pool_apply_ok p (AllocateV4 name) now Hp) as [(p' & E & H)|(e & E & H)]; cbn in E;
    destruct (allocate_ipv4_with_ttl p name now) as [[x p1]| | |]; cbn in E; try done.
  - injection E as ->. left. eauto.
  - injection E as ->. right. eauto.
Qed.

Lemma allocate_v6_run p name now :
  pool_inv p → (∃ x p', allocate_ipv6_with_ttl p name now = Ret (x, p') ∧ pool_inv p') ∨
    ∃ e, allocate_ipv6_with_ttl p name now = Throw e ∧ pool_error e.
Proof.
  intros Hp. destruct (pool_apply_ok p (AllocateV6 name) now Hp) as [(p' & E & H)|(e & E & H)]; cbn in E;
    destruct (allocate_ipv6_with_ttl p name now) as [[x p1]| | |]; cbn in E; try done.
  - injection E as ->. left. eauto.
  - injection E as ->. right. eauto.
Qed.

Lemma lookup_v4_run p a now :
  pool_inv p → ∃ x p', lookup_ipv4_with_ttl p a now = Ret (x, p') ∧ pool_inv p'.
Proof.
  intros Hp. destruct (pool_apply_ok p (LookupV4 a) now Hp) as [(p' & E & H)|(e & E & H)]; cbn in E;
    destruct (lookup_ipv4_with_ttl p a now) as [[x p1]| | |] eqn:El; cbn in E; try done.
  - injection E as ->. eauto.
  - exfalso. unfold lookup_ipv4_with_ttl in El. destruct (ipv4 p) as [s|] eqn:Es; [|done].
    pose proof (pi_ipv4 p Hp) as Hok. rewrite Es in Hok. destruct Hok as [Hs _].
    destruct (lookup_spec address_u32 s a now Hs) as (r & s' & Er & _). by rewrite Er in El.
Qed.

Lemma lookup_v6_run p a now :
  pool_inv p → ∃ x p', lookup_ipv6_with_ttl p a now = Ret (x, p') ∧ pool_inv p'.
Proof.
  intros Hp. destruct (pool_apply_ok p (LookupV6 a) now Hp) as [(p' & E & H)|(e & E & H)]; cbn in E;
    destruct (lookup_ipv6_with_ttl p a now) as [[x p1]| | |] eqn:El; cbn in E; try done.
  - injection E as ->. eauto.
  - exfalso. unfold lookup_ipv6_with_ttl in El. destruct (ipv6 p) as [s|] eqn:Es; [|done].
    pose proof (pi_ipv6 p Hp) as Hok. rewrite Es in Hok. destruct Hok as [Hs _].
    destruct (lookup_spec address_u128 s a now Hs) as (r & s' & Er & _). by rewrite Er in El.
Qed.

(** A local response to [query] with at most one answer record. *)
Definition local_to (query ans : Message) : Prop :=
  (∃ rc, header ans = header (local_response query rc)) ∧ questions ans = questions query ∧
  length (answers ans) ≤ 1 ∧ authorities ans = [] ∧ additionals ans = [].

Definition handled_ok (query : Message) (r : Result Error (option Message)) : Prop :=
  match r with
  | Ok (Some ans) => local_to query ans
  | Ok None => False
  | Err e => e = FakeIpTtlOutOfRange
  end.

Lemma local_response_to query rc : local_to query (local_response query rc).
Proof. split; [by exists rc|]. split_and!; try done. cbn. lia. Qed.

Lemma push_answer_to query rc r : local_to query (push_answer (local_response query rc) r).
Proof. split; [by exists rc|]. by split_and!. Qed.

Lemma family_answer_ok query q rtype mk p enabled allocate :
  pool_inv p →
  ((∃ x p', allocate = Ret (x, p') ∧ pool_inv p') ∨ ∃ e, allocate = Throw e ∧ pool_error e) →
  ∃ r p', family_answer query q rtype mk p enabled allocate = Ret (r, p') ∧ pool_inv p' ∧ handled_ok query r.
Proof.
  intros Hp Ha. unfold family_answer. destruct enabled; cbn [negb].
  2: { eexists _, p. split; [done|]. split; [done|]. apply local_response_to. }
  assert (Ht : ∀ d e, fake_ip_ttl d = Err e → e = FakeIpTtlOutOfRange).
  { intros d e. unfold fake_ip_ttl. case_decide; [done|]. by intros [= <-]. }
  destruct (fake_ip_ttl (pool_ttl p)) as [t|e] eqn:Et.
  2: { eexists _, p. split; [done|]. split; [done|]. cbn. by eapply Ht. }
  destruct Ha as [([a d] & p'' & -> & Hp')|(e & -> & He)]; cbn [address_answer].
  - eexists _, p''. split; [done|]. split; [done|]. destruct (fake_ip_ttl d) as [ttl|e] eqn:Ed; cbn.
    + apply push_answer_to.
    + by eapply Ht.
  - destruct He as [->| ->].
    + eexists _, p. split; [done|]. split; [done|]. apply local_response_to.
    + eexists _, p. by split.
Qed.

(** A policy for one suffix, a query, and what the example pool answers. *)
Definition example_policy : FakeIpPolicy :=
  fake_rule fake_builder (Suffix (mkName [[116; 101; 115; 116]]%Z)).

Definition example_question (name : Name) (t : RecordType) : Message :=
  mkMessage (mkHeader 7 false (opcode_from_u8 0) false false true false NoError) [mkQuestion name t In] [] [] [].

Definition example_handled : Handled :=
  match fake_ip_answer example_policy (example_question (host 97) TA) example_pool 0 with
  | Ret r => r
  | _ => (Ok None, example_pool)
  end.

(** The run of [fake_ip_answer] over a pool that keeps its invariant. *)
Lemma fake_ip_answer_ok policy query p now :
  pool_inv p →
  ∃ r p', fake_ip_answer policy query p now = Ret (r, p') ∧ pool_inv p' ∧
    if is_local policy p query then handled_ok query r else r = Ok None ∧ p' = p.
Proof.
  intros Hp. unfold fake_ip_answer, is_local. destruct (questions query) as [|q qs]; [by eexists _, p|].
  destruct (decide (qclass q ≠ In)) as [Hc|Hc].
  { rewrite bool_decide_false by done. by eexists _, p; split_and!. }
  rewrite bool_decide_true by (by destruct (decide (qclass q = In))). cbn [andb].
  destruct (qtype q); try (by eexists _, p; split_and!).
  - destruct (fake_matches policy (q_name q)); [|by eexists _, p; split_and!].
    destruct (family_answer_ok query q TA A p (ipv4_enabled p) _ Hp (allocate_v4_run p (q_name q) now Hp))
      as (r & p' & E & Hp' & H). eauto.
  - destruct (fake_matches policy (q_name q)); [|by eexists _, p; split_and!].
    destruct (family_answer_ok query q TAaaa Aaaa p (ipv6_enabled p) _ Hp (allocate_v6_run p (q_name q) now Hp))
      as (r & p' & E & Hp' & H). eauto.
  - unfold fake_ip_ptr_answer. destruct (parse_reverse_name (q_name q)) as [ip|]; [|by eexists _, p; split_and!].
    assert (Hend : ∀ mapping, handled_ok query (mapping_answer query q mapping)).
    { intros [[n d]|]; cbn; [|apply local_response_to]. unfold fake_ip_ttl.
      destruct (decide _); cbn; [apply push_answer_to|done]. }
    destruct ip as [a|a].
    + destruct (contains_ipv4 p a); [|by eexists _, p; split_and!].
      destruct (lookup_v4_run p a now Hp) as (x & p' & -> & Hp'). cbn. eexists _, p'. split; [done|]. split; [done|]. apply Hend.
    + destruct (contains_ipv6 p a); [|by eexists _, p; split_and!].
      destruct (lookup_v6_run p a now Hp) as (x & p' & -> & Hp'). cbn. eexists _, p'. split; [done|]. split; [done|]. apply Hend.
Qed.

(** Fake IP answers are total and scoped. Over any reachable pool
    [fake_ip_answer] returns; exactly the questions it is responsible for (IN
    A and AAAA for names the policy selects, IN PTR for addresses in the
    pool's ranges) get a local answer to that query, with at most one record,
    or the one possible error, and every other question leaves the pool
    untouched and goes on to the ordinary pipeline. *)
Theorem fake_ip_scoped policy query p now :
  reachable p →
  ∃ r p', fake_ip_answer policy query p now = Ret (r, p') ∧
    if is_local policy p query then handled_ok query r else r = Ok None ∧ p' = p.
Proof.
  intros Hp%reachable_inv. destruct (fake_ip_answer_ok policy query p now Hp) as (r & p' & E & _ & H). eauto.
Qed.

Lemma fake_ip_scoped_witness :
  ∃ ans p', fake_ip_answer example_policy (example_question (host 97) TA) example_pool 0 = Ret (Ok (Some ans), p') ∧
    length (answers ans) = 1.
Proof.
  destruct (fake_ip_scoped example_policy (example_question (host 97) TA) example_pool 0 example_reachable)
    as (r & p' & E & _).
  assert (match r with Ok (Some ans) => length (answers ans) = 1 | _ => False end) as H.
  { assert (r = fst example_handled) as ->; [|vm_compute; reflexivity].
    unfold example_handled. rewrite E. reflexivity. }
  destruct r as [[ans|]|e]; [|destruct H..]. exists ans, p'. exact (conj E H).
Defined.

(** Forward and reverse agree. Once an A question was answered with a
    synthetic address, and until its lifetime is over, a PTR question for
    that address, under any spelling of its reverse name, is answered with the
    name that was asked for; afterwards it is NXDOMAIN. *)
Theorem fake_ip_round_trip policy query p now q qs a ttl rest p' query' q' qs' now' ans :
  reachable p → fresh now (pool_ttl p) (ipv4 p) → (pool_ttl p ≤ from_secs u32_max)%Z →
  questions query = q :: qs → qclass q = In → qtype q = TA → fake_matches policy (q_name q) = true →
  fake_ip_answer policy query p now = Ret (Ok (Some ans), p') →
  answers ans = mkRR (q_name q) TA In ttl (A a) :: rest →
  questions query' = q' :: qs' → qclass q' = In → qtype q' = TPtr → (0 ≤ a < 2 ^ 32)%Z →
  lowercased_labels (q_name q') = reverse_labels (V4 a) →
  (now ≤ now')%Z →
  ∃ life, (0 < life ≤ pool_ttl p)%Z ∧ ttl = as_secs life ∧ rest = [] ∧ ∃ ans' p'',
    fake_ip_answer policy query' p' now' = Ret (Ok (Some ans'), p'') ∧
    if decide (now' < now + life)%Z
    then rcode (header ans') = NoError ∧ ∃ n, n ≡ q_name q ∧
      answers ans' = [mkRR (q_name q') TPtr In (as_secs (now + life - now')) (Ptr n)]
    else rcode (header ans') = NxDomain ∧ answers ans' = [].
Proof.
  intros Hp%reachable_inv Hfresh Httl Hq Hqc Hqt Hm E Hans Hq' Hqc' Hqt' Hra Hrev Hnow.
  unfold fake_ip_answer in E. rewrite Hq, decide_False, Hqt, Hm in E by (by intros []).
  unfold family_answer in E. destruct (ipv4 p) as [s|] eqn:Es; unfold ipv4_enabled in E; rewrite Es in E; cbn [negb] in E.
  2: { injection E as <- <-. done. }
  assert (Hle : ∀ d, (d ≤ pool_ttl p)%Z → fake_ip_ttl d = Ok (as_secs d)).
  { intros d Hd. unfold fake_ip_ttl. rewrite decide_True; [done|]. rewrite <-(as_secs_from_secs u32_max).
    unfold as_secs, nanos_per_sec. apply Z.div_le_mono; lia. }
  rewrite (Hle (pool_ttl p)) in E by done. unfold allocate_ipv4_with_ttl in E. rewrite Es in E. cbn [ok_or lift mbind run_bind] in E.
  pose proof (pi_ipv4 p Hp) as Hok. rewrite Es in Hok. destruct Hok as [Hs Hb].
  destruct (allocate_with_ttl address_u32 s (q_name q) IPV4_HASH_SALT now (pool_ttl p)) as [[[a1 d] s']|e| |] eqn:Ea;
    cbn [mbind run_bind address_answer] in E; [|destruct e; try done; injection E as <- <-; done|done..].
  destruct (family_allocate_lookup address_u32 s (q_name q) IPV4_HASH_SALT now (pool_ttl p) a1 d s' now' Hs Hb)
    as (Hc & Hd & n & Hn & s'' & El); [unfold IPV4_HASH_SALT; lia|apply Hp|done|done|].
  rewrite (Hle d) in E by lia. injection E as <- <-. cbn in Hans. injection Hans as <- <- <-.
  exists d. split; [done|]. split; [done|]. split; [done|].
  unfold fake_ip_answer. rewrite Hq', decide_False, Hqt' by (by intros []). unfold fake_ip_ptr_answer.
  rewrite (proj2 (parse_reverse_exact_aux (q_name q') (V4 a1))) by done.
  unfold contains_ipv4, lookup_ipv4_with_ttl. cbn [ipv4 set_ipv4].
  assert (contains s' a1 = true) as ->.
  { destruct (allocate_result address_u32 s (q_name q) IPV4_HASH_SALT now (pool_ttl p) a1 d s' Hs Hb)
      as (_ & _ & _ & _ & _ & _ & _ & H1 & H2 & _); [unfold IPV4_HASH_SALT; lia|apply Hp|done|].
    unfold contains in *. by rewrite H1, H2. }
  rewrite El. cbn [mbind run_bind]. unfold mapping_answer. destruct (decide (now' < now + d)%Z) as [Hlt|Hge].
  - rewrite (Hle (now + d - now')%Z) by lia. eexists _, _. split; [done|]. split; [done|]. exists n. by split.
  - eexists _, _. split; [done|]. by split.
Qed.

Lemma fake_ip_round_trip_witness :
  ∃ ans' p'',
    fake_ip_answer example_policy (example_question (reverse_name (V4 3323068417)) TPtr)
      (snd example_handled) (from_secs 10) = Ret (Ok (Some ans'), p'').
Proof.
  destruct (fake_ip_round_trip example_policy (example_question (host 97) TA) example_pool 0
    (mkQuestion (host 97) TA In) [] 3323068417 60 [] (snd example_handled)
    (example_question (reverse_name (V4 3323068417)) TPtr) (mkQuestion (reverse_name (V4 3323068417)) TPtr In) []
    (from_secs 10) (push_answer (local_response (example_question (host 97) TA) NoError)
       (mkRR (host 97) TA In 60 (A 3323068417)))) as (life & _ & _ & _ & ans' & p'' & E & _).
  - exact example_reachable.
  - split; [|vm_compute; reflexivity]. intros k n m H. vm_compute in H. discriminate H.
  - vm_compute. discriminate.
  - reflexivity.
  - reflexivity.
  - reflexivity.
  - vm_compute. reflexivity.
  - vm_compute. reflexivity.
  - reflexivity.
  - reflexivity.
  - reflexivity.
  - reflexivity.
  - split; [discriminate|reflexivity].
  - vm_compute. reflexivity.
  - vm_compute. discriminate.
  - exists ans', p''. exact E.
Defined.
