(* ===== verification/FakeIpReply.v ===== *)
(** * Fake IP answers as replies

    What [fake_ip_answer] gives is a well-formed reply to its query: the
    addresses are of their family's width, the names came from decoded
    queries, and the lifetimes, which are the TTLs, are at most the pool's. *)

From stdpp Require Import base numbers list gmap.
From S2P Require Import Prelude CoreError Name RecordData Edns Header Message Matcher Time.
From S2P Require Import FakeIpFamily FakeIpPool Entry Response Transport ResponseWf Reverse FakeIpAnswer.

(** At [now], every mapping of a family has a name of the wire and expires
    within the pool's lifetime. *)
Definition family_sound (now ttl : Z) (f : gmap key (Name * Mapping)) : Prop :=
  ∀ k n m, f !! k = Some (n, m) → wf_name n ∧ (expires_at m ≤ now + ttl)%Z.

Definition slot_sound (now ttl : Z) (s : option FamilyState) : Prop :=
  match s with None => True | Some s => family_sound now ttl (forward s) end.

Record pool_sound (p : FakeIpPool) (now : Z) : Prop := {
  ps_inv : pool_inv p;
  ps_ipv4 : slot_sound now (pool_ttl p) (ipv4 p);
  ps_ipv6 : slot_sound now (pool_ttl p) (ipv6 p);
  ps_ttl : (pool_ttl p < from_secs 2147483648)%Z;
}.

Lemma family_sound_sub now ttl f f' : f' ⊆ f → family_sound now ttl f → family_sound now ttl f'.
Proof. intros Hs H k n m Hk. eapply H, lookup_weaken; done. Qed.

Lemma family_sound_insert now ttl f k n m :
  wf_name n → (expires_at m ≤ now + ttl)%Z → family_sound now ttl f → family_sound now ttl (<[k := (n, m)]> f).
Proof. intros Hn Hm H k' n' m' [[_ [= <- <-]]|[_ Hk]]%lookup_insert_Some; [done|by apply (H k')]. Qed.

Lemma live_sub s now : live s now ⊆ forward s.
Proof. apply map_filter_subseteq. Qed.

(** Later, the same mappings are still within the lifetime. *)
Lemma pool_sound_later p now now' : (now ≤ now')%Z → pool_sound p now → pool_sound p now'.
Proof.
  assert (Hs : ∀ ttl s, (now ≤ now')%Z → slot_sound now ttl s → slot_sound now' ttl s).
  { intros ttl [s|] Hn H; [|done]. intros k n m [Hw He]%H. split; [done|lia]. }
  intros Hn []. split; auto.
Qed.

Section family.
Context (A : Address) {LA : AddressLaws A}.

Lemma allocate_sound s name salt now ttl a d s' :
  fam_inv A s → bounded A s → is_u64 salt → (0 < ttl)%Z → family_sound now ttl (forward s) → wf_name name →
  allocate_with_ttl A s name salt now ttl = Ret (a, d, s') →
  family_sound now ttl (forward s') ∧ (0 < d ≤ ttl)%Z ∧ (0 ≤ a < 2 ^ address_bits)%Z.
Proof.
  intros Hs Hb Hsalt Ht Hf Hn E. pose proof (fi_range _ _ Hs) as Hr.
  assert (Hl : family_sound now ttl (live s now)) by (eapply family_sound_sub; [apply live_sub|exact Hf]).
  destruct (decide (now + ttl ≤ instant_max)%Z) as [Hle|Hgt].
  2: { unfold allocate_with_ttl, checked_add in E. by rewrite decide_False in E. }
  destruct (allocate_cases A s name salt now ttl Hs Hb Hsalt Hle)
    as [(n & m & s1 & Hk & E' & _ & _ & _ & _ & Hf')|(a' & i & s1 & _ & E' & _ & _ & _ & _ & Ha & _ & _ & Hcase)];
    rewrite E' in E; injection E as <- <- <-.
  - destruct (Hl _ _ _ Hk) as [Hwn He]. apply map_lookup_filter_Some in Hk as [Hk Hlt]. cbn in Hlt.
    split; [rewrite Hf'; by apply family_sound_insert|]. split; [lia|].
    destruct (fi_forward _ _ Hs _ _ _ Hk) as (_ & _ & Hin). lia.
  - split; [|split; [lia|lia]]. unfold insert_mapping. cbn. apply family_sound_insert; [done|cbn; lia|].
    destruct Hcase as [[_ ->]|(_ & k & n & m & _ & -> & _)]; [done|].
    eapply family_sound_sub; [apply delete_subseteq|done].
Qed.

Lemma lookup_sound s a now ttl r s' :
  fam_inv A s → family_sound now ttl (forward s) → lookup_with_ttl s a now = Ret (r, s') →
  family_sound now ttl (forward s') ∧ match r with Some (n, d) => wf_name n ∧ (0 < d ≤ ttl)%Z | None => True end.
Proof.
  intros Hs Hf E. destruct (lookup_spec A s a now Hs) as (r' & s1 & E' & _ & _ & _ & Hr).
  rewrite E' in E. injection E as -> ->.
  assert (Hl : family_sound now ttl (live s now)) by (eapply family_sound_sub; [apply live_sub|exact Hf]).
  destruct r as [[n d]|].
  - destruct Hr as (m & Hk & _ & -> & Hd & _ & ->). destruct (Hl _ _ _ Hk) as [Hn He].
    split; [by apply family_sound_insert|]. split; [done|lia].
  - destruct Hr as (_ & _ & ->). done.
Qed.
End family.

(** ** The answers *)

Lemma lifetime_ttl d ttl : (0 ≤ d < from_secs 2147483648)%Z → fake_ip_ttl d = Ok ttl → is_ttl ttl.
Proof.
  unfold fake_ip_ttl, as_secs, from_secs, nanos_per_sec, is_ttl. intros Hd. case_decide; [|done]. intros [= <-].
  split; [apply Z.div_pos; lia|apply Z.div_lt_upper_bound; lia].
Qed.

Lemma reply_push query rc r : wf_message query → wf_rcode rc → wf_rr r → reply_to query (push_answer (local_response query rc) r).
Proof.
  intros Hq Hrc Hr. destruct (reply_local query rc Hq Hrc) as [(Hh & Hqs & _ & H) [H1 H2 H3]].
  split; [|by split]. split; [exact Hh|]. split; [exact Hqs|]. split; [by apply Forall_singleton|exact H].
Qed.

Lemma wf_fake_rr n data ttl :
  wf_name n → wf_rdata data → is_opt_type (record_type data) = false → is_ttl ttl → wf_rr (mkRR n (record_type data) In ttl data).
Proof. intros Hn Hd Ho Ht. split; [done|]. split; [done|]. split; [done|]. cbn [rr_rtype]. by rewrite Ho. Qed.

Section pool.
Context (query : Message) (Hq : wf_message query) (now : Z).

(** A handler's pool and what it answered. *)
Definition handled_sound (h : Handled) : Prop :=
  pool_sound h.2 now ∧ ∀ ans, h.1 = Ok (Some ans) → reply_to query ans.

Lemma unhandled_sound p r : (∀ ans, r ≠ Ok (Some ans)) → pool_sound p now → handled_sound (r, p).
Proof. intros Hr Hp. split; [done|]. by intros ans ?%Hr. Qed.

Lemma local_sound p rc : wf_rcode rc → pool_sound p now → handled_sound (Ok (Some (local_response query rc)), p).
Proof. intros Hrc Hp. split; [done|]. cbn. intros ans [= <-]. by apply reply_local. Qed.

Lemma family_answer_sound q rtype mk p enabled allocate h :
  q ∈ questions query → pool_sound p now →
  (∀ a, rtype = record_type (mk a) ∧ is_opt_type rtype = false) →
  (∀ a d p', allocate = Ret (a, d, p') → pool_sound p' now ∧ (0 < d ≤ pool_ttl p)%Z ∧ wf_rdata (mk a)) →
  family_answer query q rtype mk p enabled allocate = Ret h → handled_sound h.
Proof.
  intros Hin Hp Hmk Ha. unfold family_answer. destruct enabled; cbn [negb]; [|intros [= <-]; by apply local_sound].
  destruct (fake_ip_ttl (pool_ttl p)) as [whole|]; [|intros [= <-]; by apply unhandled_sound].
  destruct allocate as [[[a d] p']|e| |]; cbn [address_answer]; try done.
  - destruct (Ha a d p' eq_refl) as (Hp' & Hd & Hw). intros [= <-]. destruct (fake_ip_ttl d) as [ttl|] eqn:Et;
      [|by apply unhandled_sound]. split; [done|]. cbn. intros ans [= <-].
    pose proof Hq as (_ & Hqs & _). rewrite Forall_forall in Hqs. destruct (Hqs _ Hin) as (Hn & _).
    destruct (Hmk a) as [-> Ho]. apply reply_push; [done|done|]. apply wf_fake_rr; [done|done|done|].
    eapply lifetime_ttl; [|exact Et]. pose proof (ps_ttl _ _ Hp). lia.
  - destruct e; intros [= <-]; first [by apply unhandled_sound|by apply local_sound].
Qed.

Lemma mapping_answer_sound q p mapping :
  q ∈ questions query → pool_sound p now →
  match mapping with Some (n, d) => wf_name n ∧ (0 < d ≤ pool_ttl p)%Z | None => True end →
  handled_sound (mapping_answer query q mapping, p).
Proof.
  intros Hin Hp. unfold mapping_answer. destruct mapping as [[n d]|]; [|intros _; by apply local_sound].
  intros [Hn Hd]. destruct (fake_ip_ttl d) as [ttl|] eqn:Et; [|by apply unhandled_sound].
  split; [done|]. cbn. intros ans [= <-]. pose proof Hq as (_ & Hqs & _). rewrite Forall_forall in Hqs.
  destruct (Hqs _ Hin) as (Hqn & _). apply reply_push; [done|done|].
  apply (wf_fake_rr (q_name q) (Ptr n)); [done|done|done|]. eapply lifetime_ttl; [|exact Et].
  pose proof (ps_ttl _ _ Hp). lia.
Qed.

(** ** The pool's operations *)

Lemma allocate_v4_sound p name a d p' :
  pool_sound p now → wf_name name → allocate_ipv4_with_ttl p name now = Ret (a, d, p') →
  pool_sound p' now ∧ (0 < d ≤ pool_ttl p)%Z ∧ wf_rdata (A a).
Proof.
  intros [Hi H4 H6 Ht] Hn E. destruct (allocate_v4_run p name now Hi) as [(x & p1 & E' & Hi')|(e & E' & _)]; rewrite E' in E; [|done].
  injection E as -> ->. unfold allocate_ipv4_with_ttl in E'. destruct (ipv4 p) as [s|] eqn:Es; [|done].
  cbn [ok_or lift mbind run_bind] in E'. apply run_bind_ret in E' as ([[a1 d1] s1] & Ea & E'). injection E' as -> -> <-.
  pose proof (pi_ipv4 _ Hi) as Hok. rewrite Es in Hok. destruct Hok as [Hs Hb].
  destruct (allocate_sound address_u32 s name IPV4_HASH_SALT now (pool_ttl p) a d s1 Hs Hb) as (Hf & Hd & Ha);
    [unfold IPV4_HASH_SALT; lia|apply Hi|exact H4|done|done|].
  split; [by split|]. split; [done|]. cbn in Ha |- *. lia.
Qed.

Lemma allocate_v6_sound p name a d p' :
  pool_sound p now → wf_name name → allocate_ipv6_with_ttl p name now = Ret (a, d, p') →
  pool_sound p' now ∧ (0 < d ≤ pool_ttl p)%Z ∧ wf_rdata (Aaaa a).
Proof.
  intros [Hi H4 H6 Ht] Hn E. destruct (allocate_v6_run p name now Hi) as [(x & p1 & E' & Hi')|(e & E' & _)]; rewrite E' in E; [|done].
  injection E as -> ->. unfold allocate_ipv6_with_ttl in E'. destruct (ipv6 p) as [s|] eqn:Es; [|done].
  cbn [ok_or lift mbind run_bind] in E'. apply run_bind_ret in E' as ([[a1 d1] s1] & Ea & E'). injection E' as -> -> <-.
  pose proof (pi_ipv6 _ Hi) as Hok. rewrite Es in Hok. destruct Hok as [Hs Hb].
  destruct (allocate_sound address_u128 s name IPV6_HASH_SALT now (pool_ttl p) a d s1 Hs Hb) as (Hf & Hd & Ha);
    [unfold IPV6_HASH_SALT; lia|apply Hi|exact H6|done|done|].
  split; [by split|]. split; [done|]. cbn -[Z.pow] in Ha |- *. lia.
Qed.

Definition looked_up (p : FakeIpPool) (x : option (Name * Z)) : Prop :=
  match x with Some (n, d) => wf_name n ∧ (0 < d ≤ pool_ttl p)%Z | None => True end.

Lemma lookup_v4_sound p a x p' :
  pool_sound p now → lookup_ipv4_with_ttl p a now = Ret (x, p') → pool_sound p' now ∧ pool_ttl p' = pool_ttl p ∧ looked_up p x.
Proof.
  intros Hp E. pose proof Hp as [Hi H4 H6 Ht]. destruct (lookup_v4_run p a now Hi) as (x' & p1 & E' & Hi'). rewrite E' in E.
  injection E as -> ->. unfold lookup_ipv4_with_ttl in E'. destruct (ipv4 p) as [s|] eqn:Es; [|by injection E' as <- <-].
  apply run_bind_ret in E' as ([r s1] & Ea & E'). injection E' as -> <-.
  pose proof (pi_ipv4 _ Hi) as Hok. rewrite Es in Hok. destruct Hok as [Hs _].
  destruct (lookup_sound address_u32 s a now (pool_ttl p) x s1 Hs H4 Ea) as [Hf Hx].
  split; [by split|]. by split.
Qed.

Lemma lookup_v6_sound p a x p' :
  pool_sound p now → lookup_ipv6_with_ttl p a now = Ret (x, p') → pool_sound p' now ∧ pool_ttl p' = pool_ttl p ∧ looked_up p x.
Proof.
  intros Hp E. pose proof Hp as [Hi H4 H6 Ht]. destruct (lookup_v6_run p a now Hi) as (x' & p1 & E' & Hi'). rewrite E' in E.
  injection E as -> ->. unfold lookup_ipv6_with_ttl in E'. destruct (ipv6 p) as [s|] eqn:Es; [|by injection E' as <- <-].
  apply run_bind_ret in E' as ([r s1] & Ea & E'). injection E' as -> <-.
  pose proof (pi_ipv6 _ Hi) as Hok. rewrite Es in Hok. destruct Hok as [Hs _].
  destruct (lookup_sound address_u128 s a now (pool_ttl p) x s1 Hs H6 Ea) as [Hf Hx].
  split; [by split|]. by split.
Qed.

Lemma ptr_answer_sound q p h :
  q ∈ questions query → pool_sound p now → fake_ip_ptr_answer query q p now = Ret h → handled_sound h.
Proof.
  intros Hin Hp. unfold fake_ip_ptr_answer. destruct (parse_reverse_name (q_name q)) as [[a|a]|];
    [destruct (contains_ipv4 p a)|destruct (contains_ipv6 p a)|]; try (intros [= <-]; by apply unhandled_sound).
  - intros E. apply run_bind_ret in E as ([x p'] & El & E). injection E as <-.
    destruct (lookup_v4_sound p a x p' Hp El) as (Hp' & Ht & Hx). apply mapping_answer_sound; [done|done|]. by rewrite Ht.
  - intros E. apply run_bind_ret in E as ([x p'] & El & E). injection E as <-.
    destruct (lookup_v6_sound p a x p' Hp El) as (Hp' & Ht & Hx). apply mapping_answer_sound; [done|done|]. by rewrite Ht.
Qed.

(** Whatever the question, the pool stays sound and a local answer is a reply. *)
Lemma fake_ip_answer_sound policy p h : pool_sound p now → fake_ip_answer policy query p now = Ret h → handled_sound h.
Proof.
  intros Hp. unfold fake_ip_answer. destruct (questions query) as [|q qs] eqn:Eq; [intros [= <-]; by apply unhandled_sound|].
  assert (Hin : q ∈ questions query) by (rewrite Eq; by left).
  assert (Hn : wf_name (q_name q)) by (pose proof Hq as (_ & Hqs & _); rewrite Forall_forall in Hqs; apply (Hqs _ Hin)).
  destruct (decide (qclass q ≠ In)); [intros [= <-]; by apply unhandled_sound|].
  destruct (qtype q); try (intros [= <-]; by apply unhandled_sound).
  - destruct (fake_matches policy (q_name q)); [|intros [= <-]; by apply unhandled_sound].
    apply family_answer_sound; [done|done|done|]. intros a d p' E. by eapply allocate_v4_sound.
  - destruct (fake_matches policy (q_name q)); [|intros [= <-]; by apply unhandled_sound].
    apply family_answer_sound; [done|done|done|]. intros a d p' E. by eapply allocate_v6_sound.
  - by apply ptr_answer_sound.
Qed.
End pool.

(** A pool just built is sound at any time. *)
Lemma built_sound b p now : pool_inv p → build b = Ok p → (pool_ttl p < from_secs 2147483648)%Z → pool_sound p now.
Proof.
  intros Hp Hb Ht. unfold build in Hb. run_inv.
  assert (Hs : ∀ r s ttl, family_opt r = Ok s → slot_sound now ttl s).
  { intros [[x y]|] s ttl E; cbn in E; [|by injection E as <-]. unfold family_new in E. case_decide; [done|].
    injection E as <-. intros k n m H'. cbn in H'. by rewrite lookup_empty in H'. }
  assert (p = mkPool r1 r2 r) as -> by (destruct r1, r2; congruence). split; [done| | |done]; by eapply Hs.
Qed.
