(* ===== verification/EngineState.v ===== *)
(** * The resolver's state and its events

    Models [ResolverInner], [ResolverBuilder] and the counters of
    [crates/dns-lattice/src/engine.rs], and the events of
    [crates/dns-lattice/src/observability.rs]. What [resolve] does is written
    in a state monad over [St]; what it awaits (a route hook, an upstream
    backend, a flight's leader) is a [World] of functions that may change the
    whole state in between, since other queries run meanwhile. *)

From stdpp Require Import base numbers list gmap strings sorting.
From S2P Require Import Prelude CoreError Name RecordData Edns Header Message Matcher Time.
From S2P Require Import FakeIpFamily FakeIpPool CacheConfig StoreKey Entry Shard Store Flight Response.

(** An [UpstreamGroupId] is its string. *)
Notation Group := string.

(** ** Events *)

Inductive HookObserveDecision : Type :=
  | HAbstain
  | HUse (group : Group)
  | HFailed.

Inductive UpstreamObserveOutcome : Type :=
  | Success
  | RetryableFailure
  | Failure.

Inductive ObserveFailure : Type :=
  | FNoRoute
  | FHook
  | FTimeout
  | FTransport
  | FTls
  | FOther.

Inductive ObserveEvent : Type :=
  | QueryReceived (correlation_id : Z) (name : option Name) (rtype : option RecordType) (class : option Class)
  | FakeIpTerminal (correlation_id : Z)
  | StaticRoute (correlation_id : Z) (group : option Group)
  | HookDecision (correlation_id : Z) (decision : HookObserveDecision)
  | CacheHit (correlation_id : Z) (group : Group)
  | CacheMiss (correlation_id : Z) (group : Group)
  | UpstreamAttempt (correlation_id : Z) (group : Group) (backend_index : nat)
  | UpstreamOutcome (correlation_id : Z) (group : Group) (backend_index : nat) (outcome : UpstreamObserveOutcome)
  | Completed (correlation_id : Z) (rc : Rcode)
  | EFailed (correlation_id : Z) (failure : ObserveFailure)
  | Cancelled (correlation_id : Z).

Inductive CacheEvent : Type :=
  | Coalesced (correlation_id : Z) (group : Group)
  | StaleServed (correlation_id : Z) (group : Group)
  | FailureServed (correlation_id : Z) (group : Group)
  | RefreshStarted (correlation_id : Z) (group : Group)
  | RefreshCompleted (correlation_id : Z) (group : Group) (refreshed : bool).

(** One call of the sink: [record] or [record_cache]. *)
Inductive Event : Type :=
  | Observe (e : ObserveEvent)
  | ObserveCache (e : CacheEvent).

Definition observe_failure (error : Error) : ObserveFailure :=
  match error with
  | NoRoute => FNoRoute
  | Hook _ => FHook
  | Timeout => FTimeout
  | Transport _ => FTransport
  | Tls _ => FTls
  | _ => FOther
  end.

(** ** Configuration *)

Record Config (Backend RouteHook : Type) : Type := mkConfig {
  policy : SplitDnsPolicy Group;
  backends : gmap Group (list Backend);
  group_index : gmap Group Z;
  ttl_policy : TtlPolicy;
  prefetch : option Prefetch;
  serve_stale : option ServeStale;
  failure_cache : option FailureCache;
  route_hook : option RouteHook;
  observability_sink : bool;
}.
Arguments mkConfig {Backend RouteHook}.
Arguments policy {Backend RouteHook}.
Arguments backends {Backend RouteHook}.
Arguments group_index {Backend RouteHook}.
Arguments ttl_policy {Backend RouteHook}.
Arguments prefetch {Backend RouteHook}.
Arguments serve_stale {Backend RouteHook}.
Arguments failure_cache {Backend RouteHook}.
Arguments route_hook {Backend RouteHook}.
Arguments observability_sink {Backend RouteHook}.

Record QueryCounters : Type := mkQueryCounters {
  qc_hits : Z;
  qc_misses : Z;
  qc_coalesced : Z;
  qc_refreshes : Z;
  qc_stale_hits : Z;
  qc_failure_hits : Z;
}.

Definition MAX_REFRESH_TASKS : nat := 256.

(** A background refresh: the arguments of [refresh]. *)
Record Refresh : Type := mkRefresh {
  rf_query : Message;
  rf_group : Group;
  rf_key : list Z;
  rf_hash : Z;
  rf_guard : option LeaderGuard;
  rf_stale : option CachedAnswer;
}.

(** The byte order of group names. *)
Definition group_le (x y : Group) : Prop := String.leb x y = true.

#[export] Instance group_le_dec : RelDecision group_le.
Proof. intros x y. unfold group_le. exact _. Defined.

Section state.
Context `{WS : Watch State}.

(** The shared mutable state: the clock's reading, the answer store and the
    atomics of its entries, the flights, the counters, Fake IP's pool and policy, the
    background tasks (each with whether it has finished) and the events the
    sink was given. *)
Record St : Type := mkSt {
  now : Z;
  cache : option Store;
  atomics : list Cells;
  cache_epoch : Z;
  flights : option Flights;
  counters : QueryCounters;
  fake_ip : option (FakeIpPool * FakeIpPolicy);
  next_correlation_id : Z;
  background : list (Refresh * bool);
  events : list Event;
}.

Definition set_cache (s : St) (c : option Store) : St :=
  mkSt (now s) c (atomics s) (cache_epoch s) (flights s) (counters s) (fake_ip s) (next_correlation_id s)
    (background s) (events s).
Definition set_atomics (s : St) (a : list Cells) : St :=
  mkSt (now s) (cache s) a (cache_epoch s) (flights s) (counters s) (fake_ip s) (next_correlation_id s)
    (background s) (events s).
Definition set_epoch (s : St) (e : Z) : St :=
  mkSt (now s) (cache s) (atomics s) e (flights s) (counters s) (fake_ip s) (next_correlation_id s)
    (background s) (events s).
Definition set_flights (s : St) (f : option Flights) : St :=
  mkSt (now s) (cache s) (atomics s) (cache_epoch s) f (counters s) (fake_ip s) (next_correlation_id s)
    (background s) (events s).
Definition set_counters (s : St) (c : QueryCounters) : St :=
  mkSt (now s) (cache s) (atomics s) (cache_epoch s) (flights s) c (fake_ip s) (next_correlation_id s)
    (background s) (events s).
Definition set_fake_ip (s : St) (p : option (FakeIpPool * FakeIpPolicy)) : St :=
  mkSt (now s) (cache s) (atomics s) (cache_epoch s) (flights s) (counters s) p (next_correlation_id s)
    (background s) (events s).
Definition set_next_id (s : St) (i : Z) : St :=
  mkSt (now s) (cache s) (atomics s) (cache_epoch s) (flights s) (counters s) (fake_ip s) i
    (background s) (events s).
Definition set_background (s : St) (b : list (Refresh * bool)) : St :=
  mkSt (now s) (cache s) (atomics s) (cache_epoch s) (flights s) (counters s) (fake_ip s)
    (next_correlation_id s) b (events s).
Definition set_events (s : St) (e : list Event) : St :=
  mkSt (now s) (cache s) (atomics s) (cache_epoch s) (flights s) (counters s) (fake_ip s)
    (next_correlation_id s) (background s) e.

(** ** The monad *)

Definition M (A : Type) : Type := St → Run Error (A * St).

#[export] Instance m_ret : MRet M := λ A a s, Ret (a, s).
#[export] Instance m_bind : MBind M := λ A B f m s, '(a, s) ← m s; f a s.

Definition gets {A} (f : St → A) : M A := λ s, Ret (f s, s).
Definition modify (f : St → St) : M unit := λ s, Ret ((), f s).
Definition panic {A} : M A := λ _, Panic.

(** A computation that can panic and reads nothing. *)
Definition run {A} (r : Run Error A) : M A := λ s, a ← r; Ret (a, s).

(** An operation on the store, if there is one. *)
Definition on_store {A} (f : Store → Run Error (A * Store)) : M (option A) := λ s,
  match cache s with
  | None => Ret (None, s)
  | Some st => '(a, st) ← f st; Ret (Some a, set_cache s (Some st))
  end.

(** An operation on the flights, if coalescing is on. *)
Definition on_flights (f : Flights → Flights) : M unit := modify (λ s, set_flights s (f <$> flights s)).

(** [fetch_add(1)] of a [u64]. *)
Definition fetch_next_id : M Z := λ s,
  Ret (next_correlation_id s, set_next_id s (wrapping_add 64 (next_correlation_id s) 1)).

Definition bump (n : Z) : Z := wrapping_add 64 n 1.
Definition count (f : QueryCounters → QueryCounters) : M unit := modify (λ s, set_counters s (f (counters s))).

Definition count_hit (c : QueryCounters) : QueryCounters :=
  mkQueryCounters (bump (qc_hits c)) (qc_misses c) (qc_coalesced c) (qc_refreshes c) (qc_stale_hits c) (qc_failure_hits c).
Definition count_miss (c : QueryCounters) : QueryCounters :=
  mkQueryCounters (qc_hits c) (bump (qc_misses c)) (qc_coalesced c) (qc_refreshes c) (qc_stale_hits c) (qc_failure_hits c).
Definition count_coalesced (c : QueryCounters) : QueryCounters :=
  mkQueryCounters (qc_hits c) (qc_misses c) (bump (qc_coalesced c)) (qc_refreshes c) (qc_stale_hits c) (qc_failure_hits c).
Definition count_refresh (c : QueryCounters) : QueryCounters :=
  mkQueryCounters (qc_hits c) (qc_misses c) (qc_coalesced c) (bump (qc_refreshes c)) (qc_stale_hits c) (qc_failure_hits c).
Definition count_stale_hit (c : QueryCounters) : QueryCounters :=
  mkQueryCounters (qc_hits c) (qc_misses c) (qc_coalesced c) (qc_refreshes c) (bump (qc_stale_hits c)) (qc_failure_hits c).
Definition count_failure_hit (c : QueryCounters) : QueryCounters :=
  mkQueryCounters (qc_hits c) (qc_misses c) (qc_coalesced c) (qc_refreshes c) (qc_stale_hits c) (bump (qc_failure_hits c)).

(** The atomics of an entry, and updating them. *)
Definition cells_of (s : St) (a : CachedAnswer) : Cells := default new_cells (atomics s !! cells a).
Definition alter_cells (a : CachedAnswer) (f : Cells → Cells) : M unit :=
  modify (λ s, set_atomics s (alter f (cells a) (atomics s))).

(** [Arc::new] of an entry whose cells are the next allocation. *)
Definition allocate_cells : M unit := modify (λ s, set_atomics s (atomics s ++ [new_cells])).

(** ** The world *)

(** What the resolver awaits. Each may run other queries, so each transforms
    the state; [None] from a wait is a timeout. *)
Record World (Backend RouteHook : Type) : Type := mkWorld {
  store_hash : list Z → Z;
  flight_hash : list Z → Z;
  sizes : Sizes;
  runtime : bool;
  backend_resolve : Backend → Message → M (Result Error Message);
  hook_select : RouteHook → Question → option Group → M (Result string (option Group));
  follower_wait : nat → option Z → M (option Wait);
}.
Context {Backend RouteHook : Type}.
Implicit Types (cfg : Config Backend RouteHook).

(** [emit] and [emit_cache]; a panicking sink is caught. *)
Definition emit_event cfg (e : Event) : M unit :=
  modify (λ s, if observability_sink cfg then set_events s (events s ++ [e]) else s).
Definition emit cfg (e : ObserveEvent) : M unit := emit_event cfg (Observe e).
Definition emit_cache cfg (e : CacheEvent) : M unit := emit_event cfg (ObserveCache e).

(** ** Building *)

Record ResolverBuilder : Type := mkBuilder {
  rb_policy : SplitDnsPolicy Group;
  rb_backends : gmap Group (list Backend);
  rb_cache : CacheConfig;
  rb_fake_ip : option (FakeIpPool * FakeIpPolicy);
  rb_route_hook : option RouteHook;
  rb_sink : bool;
}.

Definition resolver_builder (p : SplitDnsPolicy Group) : ResolverBuilder :=
  mkBuilder p ∅ config_new None None false.
Definition add_backend (b : ResolverBuilder) (group : Group) (backend : Backend) : ResolverBuilder :=
  mkBuilder (rb_policy b) (<[group := default [] (rb_backends b !! group) ++ [backend]]> (rb_backends b))
    (rb_cache b) (rb_fake_ip b) (rb_route_hook b) (rb_sink b).
Definition set_builder_cache (b : ResolverBuilder) (c : CacheConfig) : ResolverBuilder :=
  mkBuilder (rb_policy b) (rb_backends b) c (rb_fake_ip b) (rb_route_hook b) (rb_sink b).
Definition set_builder_fake_ip (b : ResolverBuilder) (p : FakeIpPool) (policy : FakeIpPolicy) : ResolverBuilder :=
  mkBuilder (rb_policy b) (rb_backends b) (rb_cache b) (Some (p, policy)) (rb_route_hook b) (rb_sink b).
Definition set_route_hook (b : ResolverBuilder) (h : RouteHook) : ResolverBuilder :=
  mkBuilder (rb_policy b) (rb_backends b) (rb_cache b) (rb_fake_ip b) (Some h) (rb_sink b).
Definition set_sink (b : ResolverBuilder) : ResolverBuilder :=
  mkBuilder (rb_policy b) (rb_backends b) (rb_cache b) (rb_fake_ip b) (rb_route_hook b) true.

(** The registered groups in byte order, numbered from zero. *)
Definition sorted_groups (b : ResolverBuilder) : list Group :=
  merge_sort group_le (map fst (map_to_list (rb_backends b))).
Definition group_indices (b : ResolverBuilder) : gmap Group Z :=
  list_to_map (zip (sorted_groups b) (seqZ 0 (Z.of_nat (length (sorted_groups b))))).

Definition build_config (b : ResolverBuilder) : Config Backend RouteHook :=
  mkConfig (rb_policy b) (rb_backends b) (group_indices b) (CacheConfig.ttl_policy (rb_cache b))
    (CacheConfig.prefetch (rb_cache b)) (CacheConfig.serve_stale (rb_cache b))
    (if store_enabled (rb_cache b) then CacheConfig.failure_cache (rb_cache b) else None)
    (rb_route_hook b) (rb_sink b).

(** [build], at the clock's reading [t] and with [parallelism] threads. *)
Definition build_state (b : ResolverBuilder) (t parallelism : Z) : Run Error St :=
  st ← (if store_enabled (rb_cache b)
        then st ← store_new (CacheConfig.max_bytes (rb_cache b)) (CacheConfig.shards (rb_cache b)) parallelism; Ret (Some st)
        else Ret None);
  Ret (mkSt t st [] 0 (if coalesce (rb_cache b) then Some flights_new else None)
    (mkQueryCounters 0 0 0 0 0 0)
    (rb_fake_ip b) 1 [] []).
End state.
Arguments mkWorld {WS Backend RouteHook}.
Arguments store_hash {WS Backend RouteHook}.
Arguments flight_hash {WS Backend RouteHook}.
Arguments sizes {WS Backend RouteHook}.
Arguments runtime {WS Backend RouteHook}.
Arguments backend_resolve {WS Backend RouteHook}.
Arguments hook_select {WS Backend RouteHook}.
Arguments follower_wait {WS Backend RouteHook}.
