(* ===== verification/Reply.v ===== *)
(** * Reading a cached entry and replying

    Models [classify], [serve_failure], [serve_stale], [finish_follower] and
    [cache_stats] of [crates/dns-lattice/src/engine.rs]: what a stored entry
    means for a query, and each reply with its counters and events. *)

From stdpp Require Import base numbers list gmap strings.
From S2P Require Import Prelude CoreError Name RecordData Edns Header Message Matcher Time.
From S2P Require Import FakeIpPool CacheConfig StoreKey Entry Shard Store Flight Response EngineState.

Inductive Found : Type :=
  | Fresh (entry : CachedAnswer)
  | FoundFailure (entry : CachedAnswer)
  | StaleNow (entry : CachedAnswer)
  | Refreshing (stale : option CachedAnswer) (backoff : option Z).

Section reply.
Context `{WS : Watch State} {Backend RouteHook : Type} (cfg : Config Backend RouteHook).

(** What a stored entry means for a query at [t], given its atomics. *)
Definition classify (entry : option CachedAnswer) (c : CachedAnswer → Cells) (t : Z) : Found :=
  match entry with
  | None => Refreshing None None
  | Some entry =>
      match failure entry with
      | Some f => if decide (t < expires entry)%Z then FoundFailure entry else Refreshing None (Some (fs_backoff f))
      | None =>
          if decide (t < expires entry)%Z then Fresh entry
          else if bool_decide (is_Some (serve_stale cfg)) && bool_decide (t < stale_until entry)%Z then
            if recheck_pending entry (c entry) t then StaleNow entry else Refreshing (Some entry) None
          else Refreshing None None
      end
  end.

(** The terminal events. *)
Definition complete (correlation_id : Z) (answer : Message) : M (Result Error Message) :=
  emit cfg (Completed correlation_id (rcode (header answer)));; mret (Ok answer).
Definition fail (correlation_id : Z) (error : Error) : M (Result Error Message) :=
  emit cfg (EFailed correlation_id (observe_failure error));; mret (Err error).

(** A hit: the entry projected onto the query. *)
Definition hit_answer (query : Message) (cached : CachedAnswer) (t : Z) : Message :=
  align_edns query (cache_hit_response query cached t).

Definition serve_failure (query : Message) (cached : CachedAnswer) (correlation_id : Z) (group : Group) (t : Z) :
    M (Result Error Message) :=
  count count_failure_hit;;
  emit_cache cfg (FailureServed correlation_id group);;
  match f ← failure cached; fs_error f with
  | Some error => fail correlation_id error
  | None => complete correlation_id (hit_answer query cached t)
  end.

(** The stale reply TTL; 30 seconds when stale answers are off. *)
Definition stale_reply_ttl : Z :=
  match serve_stale cfg with Some p => reply_ttl p | None => DEFAULT_STALE_REPLY_TTL end.

Definition stale_answer (query : Message) (entry : CachedAnswer) : Message :=
  mark_stale_answer query (align_edns query (stale_response query entry stale_reply_ttl)).

Definition serve_stale (query : Message) (entry : CachedAnswer) (correlation_id : Z) (group : Group) :
    M (Result Error Message) :=
  count count_stale_hit;;
  emit_cache cfg (StaleServed correlation_id group);;
  complete correlation_id (stale_answer query entry).

(** An answer that is not cacheable, for another query of the flight. *)
Definition raw_answer (query answer : Message) : Message :=
  for_query query (set_edns answer None).

Definition finish_follower (query : Message) (outcome : Outcome) (correlation_id : Z) (group : Group) :
    M (Result Error Message) :=
  match outcome with
  | OStale entry => serve_stale query entry correlation_id group
  | Cached cached => t ← gets now; complete correlation_id (hit_answer query cached t)
  | Raw answer => complete correlation_id (align_edns query (raw_answer query answer))
  | Failed error => fail correlation_id error
  end.

(** The outcome a leader publishes for a remembered failure. *)
Definition outcome_of_failure (entry : CachedAnswer) : Outcome :=
  match f ← failure entry; fs_error f with
  | Some error => Failed error
  | None => Raw (ca_message entry)
  end.

(** ** Statistics *)

Record CacheStats : Type := mkCacheStats {
  cs_store : StoreStats;
  cs_counters : QueryCounters;
}.

Definition cache_stats (s : St) : CacheStats :=
  mkCacheStats (match cache s with Some st => store_stats st | None => mkStats 0 0 0 0 0 0 0 end) (counters s).

(** ** Purging *)

(** The epoch is bumped before any shard is locked. *)
Definition bump_epoch : M unit := modify (λ s, set_epoch s (wrapping_add 64 (cache_epoch s) 1)).

Definition clear_cache : M nat := bump_epoch;; o ← on_store store_clear; mret (default 0 o).
Definition purge (name : Name) (rtype : option RecordType) : M nat :=
  bump_epoch;; o ← on_store (λ st, store_purge st name rtype); mret (default 0 o).
Definition purge_subtree (zone : Name) : M nat :=
  bump_epoch;; o ← on_store (λ st, store_purge_subtree st zone); mret (default 0 o).
End reply.
