(* ===== verification/Upstreams.v ===== *)
(** * Going upstream

    Models [select_backends], [query_upstream], [settle_failure], [refresh] and
    the failure tests of [crates/dns-lattice/src/engine.rs]: routing to a group,
    failover over its backends, storing what is cacheable, and what a failure
    leaves behind. Hook and backends belong to the [World]. *)

From stdpp Require Import base numbers list gmap strings.
From S2P Require Import Prelude CoreError Name RecordData Edns Header Message Matcher Time.
From S2P Require Import FakeIpPool CacheConfig StoreKey Entry Shard Store Flight Response EngineState Reply.

Notation UpstreamAnswer := (Message * option CachedAnswer * bool)%type.

Definition is_failure (result : Result Error UpstreamAnswer) : bool :=
  match result with
  | Ok (answer, _, _) => match rcode (header answer) with ServFail | Refused => true | _ => false end
  | Err _ => true
  end.

Definition outcome_of (result : Result Error UpstreamAnswer) : Outcome :=
  match result with
  | Ok (_, Some entry, _) => Cached entry
  | Ok (answer, None, _) => Raw answer
  | Err error => Failed error
  end.

Definition is_retryable (err : Error) : bool :=
  match err with Timeout | Transport _ | Tls _ => true | _ => false end.

Section upstreams.
Context `{WS : Watch State} {Backend RouteHook : Type}.
Context (cfg : Config Backend RouteHook) (w : World Backend RouteHook).

(** ** Routing *)

(** The group the hook or the static policy chose. *)
Definition choose_group (question : Question) (static_group : option Group) (correlation_id : Z) :
    M (Result Error (option Group)) :=
  match route_hook cfg with
  | None => mret (Ok static_group)
  | Some hook =>
      d ← hook_select w hook question static_group;
      match d with
      | Ok (Some group) => emit cfg (HookDecision correlation_id (HUse group));; mret (Ok (Some group))
      | Ok None => emit cfg (HookDecision correlation_id HAbstain);; mret (Ok static_group)
      | Err error => emit cfg (HookDecision correlation_id HFailed);; mret (Err (Hook error))
      end
  end.

Definition backends_of (group : option Group) : Result Error (Group * Z * list Backend) :=
  match group with
  | None => Err NoRoute
  | Some group =>
      match backends cfg !! group with
      | None | Some [] => Err NoRoute
      | Some bs => match group_index cfg !! group with
                   | None => Err NoRoute
                   | Some index => Ok (group, index, bs)
                   end
      end
  end.

Definition select_backends (question : Question) (correlation_id : Z) :
    M (Result Error (Group * Z * list Backend)) :=
  let static_group := resolve_group (policy cfg) (q_name question) in
  emit cfg (StaticRoute correlation_id static_group);;
  chosen ← choose_group question static_group correlation_id;
  mret (match chosen with Err e => Err e | Ok group => backends_of group end).

(** ** Failover *)

(** Events only under a correlation id; a background refresh has none. *)
Definition observe (correlation_id : option Z) (event : Z → ObserveEvent) : M unit :=
  match correlation_id with Some id => emit cfg (event id) | None => mret () end.

(** The loop over the backends; [expect] on an empty group panics. *)
Fixpoint failover (query : Message) (group : Group) (correlation_id : option Z)
    (bs : list Backend) (index : nat) (last_err : option Error) : M (Result Error Message) :=
  match bs with
  | [] => match last_err with Some e => mret (Err e) | None => panic end
  | backend :: bs =>
      observe correlation_id (λ id, UpstreamAttempt id group index);;
      r ← backend_resolve w backend query;
      match r with
      | Ok answer =>
          observe correlation_id (λ id, UpstreamOutcome id group index Success);;
          mret (Ok answer)
      | Err e =>
          if is_retryable e then
            observe correlation_id (λ id, UpstreamOutcome id group index RetryableFailure);;
            failover query group correlation_id bs (S index) (Some e)
          else
            observe correlation_id (λ id, UpstreamOutcome id group index Failure);;
            mret (Err e)
      end
  end.

(** Storing an answer under [key], unless a purge has bumped the epoch since. *)
Definition insert_entry (key : list Z) (hash : Z) (entry : CachedAnswer) (t epoch : Z) : M bool :=
  e ← gets cache_epoch;
  o ← on_store (λ st, store_insert_if (sizes w) st hash key entry t (bool_decide (e = epoch)));
  mret (default false o).

Definition store_answer (answer : Message) (stored : option (list Z * Z)) (t epoch : Z) :
    M (option CachedAnswer * bool) :=
  match stored with
  | None => mret (None, false)
  | Some (key, hash) =>
      next ← gets (λ s, length (atomics s));
      o ← run (cacheable_answer answer t (ttl_policy cfg) next);
      match o with
      | None => mret (None, false)
      | Some entry =>
          allocate_cells;;
          was_stored ← insert_entry key hash entry t epoch;
          mret (Some entry, was_stored)
      end
  end.

Definition query_upstream (query : Message) (group : Group) (bs : list Backend) (correlation_id : option Z)
    (stored : option (list Z * Z)) (t epoch : Z) : M (Result Error UpstreamAnswer) :=
  r ← failover query group correlation_id bs 0 None;
  match r with
  | Ok answer => '(entry, was_stored) ← store_answer answer stored t epoch; mret (Ok (answer, entry, was_stored))
  | Err e => mret (Err e)
  end.

(** ** Failures *)

(** What is remembered of a failure; an error's message is never served. *)
Definition failure_record (query : Message) (result : Result Error UpstreamAnswer) : Message * option Error :=
  match result with
  | Ok (answer, _, _) => (set_edns answer None, None)
  | Err error => (local_response query ServFail, Some error)
  end.

Definition remember_failure (p : FailureCache) (query : Message) (result : Result Error UpstreamAnswer)
    (key : list Z) (hash : Z) (previous : option Z) (epoch at_ : Z) : M unit :=
  let backoff := match previous with None => first_backoff p | Some previous => next_backoff p previous end in
  let '(message, error) := failure_record query result in
  next ← gets (λ s, length (atomics s));
  entry ← run (answer_failure message error at_ backoff (longest_backoff p) next);
  allocate_cells;;
  _ ← insert_entry key hash entry at_ epoch;
  mret ().

Definition settle_failure (query : Message) (result : Result Error UpstreamAnswer) (stale : option CachedAnswer)
    (stored : option (list Z * Z)) (previous : option Z) (epoch : Z) : M (option CachedAnswer) :=
  if negb (is_failure result) then
    match previous, stored with
    | Some _, Some (key, hash) => _ ← on_store (λ st, store_forget_failure st hash key); mret None
    | _, _ => mret None
    end
  else
    at_ ← gets now;
    match stale, EngineState.serve_stale cfg with
    | Some entry, Some p =>
        until ← run (instant_add at_ (failure_recheck p));
        alter_cells entry (λ c, defer_recheck entry c until);;
        mret (Some entry)
    | _, _ =>
        match failure_cache cfg, stored with
        | Some p, Some (key, hash) => remember_failure p query result key hash previous epoch at_;; mret None
        | _, _ => mret None
        end
    end.

(** ** Flights *)

(** [LeaderGuard::finish] of the guard, if there is one. *)
Definition finish (guard : option LeaderGuard) (outcome : Outcome) : M unit :=
  match guard with
  | None => mret ()
  | Some g => on_flights (λ f, close f g);; on_flights (λ f, publish f (lg_sender g) outcome)
  end.

(** Dropping an unfinished guard. *)
Definition drop_guard (guard : option LeaderGuard) : M unit :=
  match guard with
  | None => mret ()
  | Some g => on_flights (λ f, close f g);; on_flights (λ f, abandon f (lg_sender g))
  end.

Definition settled_outcome (stale_used : option CachedAnswer) (result : Result Error UpstreamAnswer) : Outcome :=
  match stale_used with Some entry => OStale entry | None => outcome_of result end.

(** ** Background refreshes *)

Definition refresh_upstream (r : Refresh) (bs : list Backend) : M bool :=
  t ← gets now;
  epoch ← gets cache_epoch;
  let stored := Some (rf_key r, rf_hash r) in
  result ← query_upstream (rf_query r) (rf_group r) bs None stored t epoch;
  stale_used ← match rf_stale r with
               | None => mret None
               | Some stale => settle_failure (rf_query r) result (Some stale) stored None epoch
               end;
  finish (rf_guard r) (settled_outcome stale_used result);;
  mret (match result with Ok (_, _, was_stored) => was_stored | Err _ => false end).

Definition refresh (r : Refresh) : M unit :=
  correlation_id ← fetch_next_id;
  count count_refresh;;
  emit_cache cfg (RefreshStarted correlation_id (rf_group r));;
  c ← gets cache;
  match c, backends cfg !! rf_group r with
  | Some _, Some bs =>
      refreshed ← refresh_upstream r bs;
      emit_cache cfg (RefreshCompleted correlation_id (rf_group r) refreshed)
  | _, _ =>
      emit_cache cfg (RefreshCompleted correlation_id (rf_group r) false);;
      drop_guard (rf_guard r)
  end.
End upstreams.
