(* ===== verification/Resolve.v ===== *)
(** * Resolving one query

    Models [resolve], [wait_for_flight], [spawn_stale_refresh] and
    [maybe_prefetch] of [crates/dns-lattice/src/engine.rs]: Fake IP, routing,
    the cache lookup, coalescing, the leader's second look, the background
    refresh of a stale entry, and going upstream. Each await hands the state
    to the [World]. *)

From stdpp Require Import base numbers list gmap strings.
From S2P Require Import Prelude CoreError Name RecordData Edns Header Message Matcher Time.
From S2P Require Import FakeIpPool CacheConfig StoreKey Entry Shard Store Flight Response Reverse FakeIpAnswer.
From S2P Require Import EngineState Reply Upstreams.

(** How waiting on another query's flight ended. *)
Inductive FlightWait : Type :=
  | FwDone (o : Outcome)
  | FwAbandoned
  | FwTimedOut.

(** How a miss goes on: answered by another query's flight, or leading (with a
    guard when coalescing), having waited before or not. *)
Inductive Joined : Type :=
  | Answered (r : Result Error Message)
  | Leading (guard : option LeaderGuard) (announced : bool).

Section resolve.
Context `{WS : Watch State} {Backend RouteHook : Type}.
Context (cfg : Config Backend RouteHook) (w : World Backend RouteHook).

(** ** Local answers *)

(** [None] passes the query on. *)
Definition answer_locally (query : Message) (correlation_id : Z) : M (option (Result Error Message)) :=
  configured ← gets fake_ip;
  match configured with
  | None => mret None
  | Some (p, policy) =>
      t ← gets now;
      '(r, p) ← run (fake_ip_answer policy query p t);
      modify (λ s, set_fake_ip s (Some (p, policy)));;
      match r with
      | Ok (Some answer) =>
          emit cfg (FakeIpTerminal correlation_id);;
          r ← complete cfg correlation_id (align_edns query answer);
          mret (Some r)
      | Ok None => mret None
      | Err error => r ← fail cfg correlation_id error; mret (Some r)
      end
  end.

(** ** Looking up *)

(** The cache key, built when the store or coalescing is on. *)
Definition query_key (query : Message) (question : Question) (index : Z) : M (option (list Z)) :=
  wanted ← gets (λ s, bool_decide (is_Some (cache s)) || bool_decide (is_Some (flights s)));
  mret (if wanted && query_uses_cache query
        then key_new index (qtype question) (qclass question) (recursion_desired (header query))
               (query_dnssec_ok query) (q_name question)
        else None).

(** The key with its store hash, when there is a store. *)
Definition stored_key (key : option (list Z)) : M (option (list Z * Z)) :=
  c ← gets cache;
  mret (match c, key with Some _, Some key => Some (key, store_hash w key) | _, _ => None end).

Definition lookup (stored : option (list Z * Z)) (t : Z) : M (option CachedAnswer) :=
  match stored with
  | None => mret None
  | Some (key, hash) => o ← on_store (λ st, store_get st hash key t); mret (mjoin o)
  end.

Definition look (stored : option (list Z * Z)) (t : Z) : M Found :=
  entry ← lookup stored t;
  c ← gets cells_of;
  mret (classify cfg entry c t).

(** ** Background tasks *)

(** Dropping the tasks that have finished. *)
Definition reap : M unit := modify (λ s, set_background s (filter (λ x, x.2 = false) (background s))).
Definition spawn (r : Refresh) : M unit := modify (λ s, set_background s (background s ++ [(r, false)])).

(** Whether the task set has room, after reaping; [None] outside a runtime. *)
Definition task_room : M bool :=
  if negb (runtime w) then mret false
  else
    reap;;
    n ← gets (λ s, length (background s));
    mret (negb (bool_decide (MAX_REFRESH_TASKS ≤ n))).

(** [remaining * 100 <= lifetime * percent] *)
Definition near_expiry (p : Prefetch) (cached : CachedAnswer) (t : Z) : bool :=
  let lifetime := saturating_duration_since (expires cached) (inserted cached) in
  let remaining := saturating_duration_since (expires cached) t in
  bool_decide (remaining * 100 ≤ lifetime * threshold_percent p)%Z.

(** [fetch_add] of the [u32] hit count wraps; the returned sum saturates. *)
Definition count_entry_hit (cached : CachedAnswer) : M Z :=
  c ← gets (λ s, cells_of s cached);
  alter_cells cached (λ c, mkCells (wrapping_add 32 (hits c) 1) (refreshing c) (recheck_after c));;
  mret (Z.min (hits c + 1) u32_max).

Definition claim_refresh (cached : CachedAnswer) : M bool :=
  c ← gets (λ s, cells_of s cached);
  alter_cells cached (λ c, mkCells (hits c) true (recheck_after c));;
  mret (refreshing c).

(** [Some guard] to go ahead; a follower is dropped at once. *)
Definition lead_refresh (key : list Z) : M (option (option LeaderGuard)) :=
  f ← gets flights;
  match f with
  | None => mret (Some None)
  | Some f =>
      let '(j, f) := join_or_lead f (flight_hash w key) key in
      modify (λ s, set_flights s (Some f));;
      match j with
      | Lead guard => mret (Some (Some guard))
      | Follow sender => on_flights (λ f, alter_chan f sender drop_receiver);; mret None
      end
  end.

Definition maybe_prefetch (p : Prefetch) (query : Message) (group : Group) (key : list Z) (hash : Z)
    (cached : CachedAnswer) (t : Z) : M unit :=
  n ← count_entry_hit cached;
  if decide (n < min_hits p)%Z then mret ()
  else if negb (near_expiry p cached t) then mret ()
  else
    room ← task_room;
    if negb room then mret ()
    else
      claimed ← claim_refresh cached;
      if (claimed : bool) then mret ()
      else
        o ← lead_refresh key;
        match o with
        | None => mret ()
        | Some guard => spawn (mkRefresh query group key hash guard None)
        end.

(** The refresh of a stale entry; [None] gives the guard back. *)
Definition spawn_stale_refresh (guard : LeaderGuard) (query : Message) (group : Group) (key : list Z)
    (hash : Z) (stale : CachedAnswer) : M (option nat) :=
  room ← task_room;
  if negb room then mret None
  else
    on_flights (λ f, follower f guard);;
    spawn (mkRefresh query group key hash (Some guard) (Some stale));;
    mret (Some (lg_sender guard)).

(** ** Waiting *)

(** Waiting on a channel, at most [timeout]; the receiver is dropped after. *)
Definition wait (sender : nat) (timeout : option Z) : M (option Wait) :=
  r ← follower_wait w sender timeout;
  on_flights (λ f, alter_chan f sender drop_receiver);;
  mret r.

Definition wait_for_flight (sender : nat) (stale : option CachedAnswer) : M FlightWait :=
  let timeout :=
    if runtime w
    then _ ← stale; p ← EngineState.serve_stale cfg; client_timeout p
    else None in
  r ← wait sender timeout;
  mret (match r with
        | None => FwTimedOut
        | Some (WDone outcome) => FwDone outcome
        | Some WAbandoned => FwAbandoned
        end).

(** The loop of a miss; each turn but the last waited on a flight. *)
Fixpoint join_loop (fuel : nat) (query : Message) (group : Group) (correlation_id : Z) (key : list Z)
    (stale : option CachedAnswer) (announced : bool) : M Joined :=
  match fuel with
  | O => λ _, Hang
  | S fuel =>
      f ← gets flights;
      match f with
      | None => mret (Leading None announced)
      | Some f =>
          let '(j, f) := join_or_lead f (flight_hash w key) key in
          modify (λ s, set_flights s (Some f));;
          match j with
          | Lead guard => mret (Leading (Some guard) announced)
          | Follow sender =>
              (if announced then mret ()
               else count count_coalesced;; emit_cache cfg (Coalesced correlation_id group));;
              waited ← wait_for_flight sender stale;
              match waited, stale with
              | FwDone outcome, _ => r ← finish_follower cfg query outcome correlation_id group; mret (Answered r)
              | FwTimedOut, Some entry => r ← Reply.serve_stale cfg query entry correlation_id group; mret (Answered r)
              | _, _ => join_loop fuel query group correlation_id key stale true
              end
          end
      end
  end.

Definition join (fuel : nat) (query : Message) (group : Group) (correlation_id : Z) (key : option (list Z))
    (stale : option CachedAnswer) : M Joined :=
  match key with
  | None => mret (Leading None false)
  | Some key => join_loop fuel query group correlation_id key stale false
  end.

(** ** The leader *)

(** Going upstream and replying with what came of it. *)
Definition lead (query : Message) (group : Group) (bs : list Backend) (correlation_id : Z)
    (stored : option (list Z * Z)) (guard : option LeaderGuard) (announced : bool)
    (t : Z) (stale : option CachedAnswer) (backoff : option Z) : M (Result Error Message) :=
  t ← (if announced then gets now else mret t);
  epoch ← gets cache_epoch;
  result ← query_upstream cfg w query group bs (Some correlation_id) stored t epoch;
  stale_used ← settle_failure cfg w query result stale stored backoff epoch;
  finish guard (settled_outcome stale_used result);;
  match stale_used with
  | Some entry => Reply.serve_stale cfg query entry correlation_id group
  | None =>
      match result with
      | Ok (answer, _, _) => complete cfg correlation_id (align_edns query answer)
      | Err error => fail cfg correlation_id error
      end
  end.

(** A leader with a stale entry and a client timeout: [None] goes on inline. *)
Definition refresh_aside (query : Message) (group : Group) (correlation_id : Z) (stored : option (list Z * Z))
    (guard : option LeaderGuard) (stale : option CachedAnswer) : M (option (Result Error Message)) :=
  match stale, p ← EngineState.serve_stale cfg; client_timeout p, stored, guard with
  | Some entry, Some timeout, Some (key, hash), Some flight =>
      o ← spawn_stale_refresh flight query group key hash entry;
      match o with
      | None => mret None
      | Some sender =>
          waited ← wait sender (Some timeout);
          r ← match waited with
              | Some (WDone outcome) => finish_follower cfg query outcome correlation_id group
              | Some WAbandoned | None => Reply.serve_stale cfg query entry correlation_id group
              end;
          mret (Some r)
      end
  | _, _, _, _ => mret None
  end.

Definition go_upstream (query : Message) (group : Group) (bs : list Backend) (correlation_id : Z)
    (stored : option (list Z * Z)) (guard : option LeaderGuard) (announced : bool)
    (t : Z) (stale : option CachedAnswer) (backoff : option Z) : M (Result Error Message) :=
  aside ← refresh_aside query group correlation_id stored guard stale;
  match aside with
  | Some r => mret r
  | None => lead query group bs correlation_id stored guard announced t stale backoff
  end.

(** The leader re-checks the cache before it goes upstream. *)
Definition recheck (query : Message) (group : Group) (bs : list Backend) (correlation_id : Z)
    (stored : option (list Z * Z)) (guard : option LeaderGuard) (announced : bool)
    (t : Z) (stale : option CachedAnswer) (backoff : option Z) : M (Result Error Message) :=
  match guard, stored with
  | Some _, Some _ =>
      t' ← gets now;
      found ← look stored t';
      match found with
      | Fresh cached =>
          finish guard (Cached cached);;
          complete cfg correlation_id (hit_answer query cached t')
      | FoundFailure cached =>
          finish guard (outcome_of_failure cached);;
          serve_failure cfg query cached correlation_id group t'
      | StaleNow cached =>
          finish guard (OStale cached);;
          Reply.serve_stale cfg query cached correlation_id group
      | Refreshing stale backoff => go_upstream query group bs correlation_id stored guard announced t stale backoff
      end
  | _, _ => go_upstream query group bs correlation_id stored guard announced t stale backoff
  end.

(** A hit is counted, then served. *)
Definition count_cache_hit (correlation_id : Z) (group : Group) : M unit :=
  count count_hit;; emit cfg (CacheHit correlation_id group).

(** A miss: join a flight, or lead one. *)
Definition miss (fuel : nat) (query : Message) (group : Group) (bs : list Backend) (correlation_id : Z)
    (key : option (list Z)) (stored : option (list Z * Z)) (t : Z) (stale : option CachedAnswer)
    (backoff : option Z) : M (Result Error Message) :=
  count count_miss;;
  emit cfg (CacheMiss correlation_id group);;
  joined ← join fuel query group correlation_id key stale;
  match joined with
  | Answered r => mret r
  | Leading guard announced => recheck query group bs correlation_id stored guard announced t stale backoff
  end.

Definition prefetch_hit (query : Message) (group : Group) (stored : option (list Z * Z)) (cached : CachedAnswer)
    (t : Z) : M unit :=
  match prefetch cfg, stored with
  | Some p, Some (key, hash) => maybe_prefetch p query group key hash cached t
  | _, _ => mret ()
  end.

(** Serving from the group's cache, or going on as a miss. *)
Definition serve (fuel : nat) (query : Message) (question : Question) (group : Group) (index : Z)
    (bs : list Backend) (correlation_id : Z) : M (Result Error Message) :=
  key ← query_key query question index;
  stored ← stored_key key;
  t ← gets now;
  found ← look stored t;
  match found with
  | Fresh cached =>
      count_cache_hit correlation_id group;;
      r ← complete cfg correlation_id (hit_answer query cached t);
      prefetch_hit query group stored cached t;;
      mret r
  | FoundFailure cached =>
      count_cache_hit correlation_id group;;
      serve_failure cfg query cached correlation_id group t
  | StaleNow cached =>
      count_cache_hit correlation_id group;;
      Reply.serve_stale cfg query cached correlation_id group
  | Refreshing stale backoff => miss fuel query group bs correlation_id key stored t stale backoff
  end.

Definition received (correlation_id : Z) (question : option Question) : ObserveEvent :=
  QueryReceived correlation_id (q_name <$> question) (qtype <$> question) (qclass <$> question).

Definition resolve (fuel : nat) (query : Message) : M (Result Error Message) :=
  correlation_id ← fetch_next_id;
  emit cfg (received correlation_id (head (questions query)));;
  match questions query with
  | [] => fail cfg correlation_id NoRoute
  | question :: _ =>
      local ← answer_locally query correlation_id;
      match local with
      | Some r => mret r
      | None =>
          selected ← select_backends cfg w question correlation_id;
          match selected with
          | Err error => fail cfg correlation_id error
          | Ok (group, index, bs) => serve fuel query question group index bs correlation_id
          end
      end
  end.
End resolve.
