(* ===== verification/EngineLogic.v ===== *)
(** * A logic for the resolver's computations

    [spec m R] says that [m] run from any sound state returns to a sound state
    without panicking, and relates its result to the events it reported under
    one correlation id, which are those appended when there is a sink and are
    lost when there is none. It composes along the monad, so each operation of
    the engine has one [spec] lemma. A computation may loop only where [hang]
    allows it. *)

From stdpp Require Import base numbers list gmap strings.
From S2P Require Import Prelude CoreError Name RecordData Edns Header Message Matcher Time.
From S2P Require Import FakeIpFamily FakeIpPool CacheConfig StoreKey Entry Shard ShardInv ShardOps Store Flight Response ResponseWf FakeIpReply EngineState.

Definition event_id (e : Event) : Z :=
  match e with
  | Observe (QueryReceived i _ _ _ | FakeIpTerminal i | StaticRoute i _ | HookDecision i _ | CacheHit i _
      | CacheMiss i _ | UpstreamAttempt i _ _ | UpstreamOutcome i _ _ _ | Completed i _ | EFailed i _ | Cancelled i)
  | ObserveCache (Coalesced i _ | StaleServed i _ | FailureServed i _ | RefreshStarted i _ | RefreshCompleted i _ _) => i
  end.

Section logic.
Context `{WS : Watch State} {WL : WatchLaws State}.

(** A stored answer, a published outcome and a background refresh hold
    messages that can be served to later queries. *)
Definition entry_ok (a : CachedAnswer) : Prop := response_ok (ca_message a).

Definition outcome_ok (o : Outcome) : Prop :=
  match o with Cached e | OStale e => entry_ok e | Raw m => response_ok m | Failed _ => True end.

Definition refresh_ok (r : Refresh) : Prop := wf_message (rf_query r) ∧ ∀ e, rf_stale r = Some e → entry_ok e.

(** Sound states: every structure keeps its invariant, what is remembered can
    be served, and the clock is far from the end of its range. *)
Record engine_ok (max_bytes : Z) (s : St) : Prop := {
  ok_cache st : cache s = Some st → store_ok max_bytes st;
  ok_entries st : cache s = Some st → store_holds entry_ok st;
  ok_flights f : flights s = Some f → flights_hold outcome_ok f;
  ok_refreshes : Forall (λ x, refresh_ok x.1) (background s);
  ok_pool p policy : fake_ip s = Some (p, policy) → pool_sound p (now s);
  ok_clock : clock_room (now s);
}.

(** The events under one correlation id. *)
Definition trace (id : Z) (s : St) : list Event := filter (λ e, event_id e = id) (events s).

Section spec.
Context (max_bytes id : Z) (hang : Prop).
Notation ok := (engine_ok max_bytes).

(** What a sink is given of the events reported. *)
Definition heard (sink : bool) (l : list Event) : list Event := if sink then l else [].

Lemma heard_app sink l l' : heard sink (l ++ l') = heard sink l ++ heard sink l'.
Proof. by destruct sink. Qed.
Lemma heard_nil sink : heard sink [] = [].
Proof. by destruct sink. Qed.

Definition spec (sink : bool) {A} (m : M A) (R : A → list Event → Prop) : Prop :=
  ∀ s, ok s →
    (∃ a s' l, m s = Ret (a, s') ∧ ok s' ∧ trace id s' = trace id s ++ heard sink l ∧ R a l) ∨ (m s = Hang ∧ hang).

(** A computation without events of its own: whether there is a sink does not
    matter to it. *)
Definition quiet {A} (m : M A) (P : A → Prop) : Prop := spec true m (λ a l, l = [] ∧ P a).

Lemma quiet_spec {A} sink (m : M A) P : quiet m P → spec sink m (λ a l, l = [] ∧ P a).
Proof.
  intros H s Hs. destruct (H s Hs) as [(a & s' & l & ? & ? & Ht & -> & ?)|]; [left|by right].
  exists a, s', []. rewrite heard_nil in *. by split_and!.
Qed.

Lemma spec_mono {A} sink (m : M A) (R R' : A → list Event → Prop) :
  spec sink m R → (∀ a l, R a l → R' a l) → spec sink m R'.
Proof. intros H HR s Hs. destruct (H s Hs) as [(a & s' & l & ? & ? & ? & ?)|]; [left|by right]. eauto 10. Qed.

Lemma quiet_mono {A} (m : M A) (P P' : A → Prop) : quiet m P → (∀ a, P a → P' a) → quiet m P'.
Proof. intros H HP. eapply spec_mono; [exact H|]. intros a l [? ?]. auto. Qed.

Lemma spec_ret {A} sink (a : A) R : R a [] → spec sink (mret a) R.
Proof. intros H s Hs. left. exists a, s, []. rewrite heard_nil, app_nil_r. by split_and!. Qed.

Lemma spec_bind {A B} sink (m : M A) (f : A → M B) R R' :
  spec sink m R → (∀ a l, R a l → spec sink (f a) (λ b l', R' b (l ++ l'))) → spec sink (m ≫= f) R'.
Proof.
  intros H Hf s Hs. unfold mbind, m_bind. destruct (H s Hs) as [(a & s1 & l & E & Hs1 & Ht & HR)|[E Hh]].
  - rewrite E. cbn [mbind run_bind]. destruct (Hf a l HR s1 Hs1) as [(b & s2 & l2 & E2 & Hs2 & Ht2 & HR2)|?]; [|by right].
    left. exists b, s2, (l ++ l2). rewrite Ht2, Ht, heard_app, app_assoc. by split_and!.
  - right. by rewrite E.
Qed.

(** After a quiet step. *)
Lemma quiet_bind {A B} sink (m : M A) (f : A → M B) P R :
  quiet m P → (∀ a, P a → spec sink (f a) R) → spec sink (m ≫= f) R.
Proof. intros H Hf. eapply spec_bind; [by apply quiet_spec|]. intros a l [-> HP]. by apply Hf. Qed.

Lemma quiet_gets {A} (f : St → A) : quiet (gets f) (λ a, ∃ s, ok s ∧ a = f s).
Proof. intros s Hs. left. exists (f s), s, []. rewrite app_nil_r. split_and!; eauto. Qed.

Lemma quiet_modify (f : St → St) :
  (∀ s, ok s → ok (f s) ∧ events (f s) = events s) → quiet (modify f) (λ _, True).
Proof.
  intros H s Hs. destruct (H s Hs) as [Hok He]. left. exists (), (f s), []. unfold trace. rewrite He, app_nil_r. by split_and!.
Qed.

Lemma quiet_run {A} (r : Run Error A) a P : r = Ret a → P a → quiet (run r) P.
Proof. intros -> HP s Hs. left. exists a, s, []. rewrite app_nil_r. by split_and!. Qed.

(** The clock of a sound state has room, so its reading can be used later. *)
Lemma quiet_now : quiet (gets now) clock_room.
Proof. eapply quiet_mono; [apply quiet_gets|]. intros a (s & Hs & ->). apply Hs. Qed.

(** ** State that soundness does not mention *)

(** Updating what soundness does not mention is sound. *)
Lemma ok_frame s s' :
  ok s → cache s' = cache s → flights s' = flights s → background s' = background s → fake_ip s' = fake_ip s →
  now s' = now s → ok s'.
Proof.
  intros [H1 H2 H3 H4 H5 H6] E1 E2 E3 E4 E5.
  split; [by rewrite E1|by rewrite E1|by rewrite E2|by rewrite E3|by rewrite E4, E5|by rewrite E5].
Qed.

Lemma quiet_count f : quiet (count f) (λ _, True).
Proof. apply quiet_modify. intros s Hs. split; [|done]. by apply (ok_frame s). Qed.

Lemma quiet_alter_cells a f : quiet (alter_cells a f) (λ _, True).
Proof. apply quiet_modify. intros s Hs. split; [|done]. by apply (ok_frame s). Qed.

Lemma quiet_allocate : quiet allocate_cells (λ _, True).
Proof. apply quiet_modify. intros s Hs. split; [|done]. by apply (ok_frame s). Qed.

(** ** Flights and background tasks *)

Lemma quiet_set_flights f :
  (∀ fl, f = Some fl → flights_hold outcome_ok fl) → quiet (modify (λ s, set_flights s f)) (λ _, True).
Proof. intros Hf. apply quiet_modify. intros s []. by split. Qed.

Lemma quiet_on_flights f :
  (∀ fl, flights_hold outcome_ok fl → flights_hold outcome_ok (f fl)) → quiet (on_flights f) (λ _, True).
Proof.
  intros Hf. apply quiet_modify. intros s []. split; [|done]. split; try done. cbn.
  intros fl (fl0 & E & ->)%fmap_Some. by apply Hf, ok_flights0.
Qed.

Lemma quiet_follower g : quiet (on_flights (λ f, follower f g)) (λ _, True).
Proof. apply quiet_on_flights. intros fl. apply subscribe_holds. Qed.

Lemma quiet_close g : quiet (on_flights (λ f, close f g)) (λ _, True).
Proof. apply quiet_on_flights. intros fl. apply close_holds. Qed.

Lemma quiet_drop_receiver c : quiet (on_flights (λ f, alter_chan f c drop_receiver)) (λ _, True).
Proof. apply quiet_on_flights. intros fl. apply drop_receiver_holds. Qed.

Lemma quiet_publish c o : outcome_ok o → quiet (on_flights (λ f, publish f c o)) (λ _, True).
Proof. intros Ho. apply quiet_on_flights. intros fl. by apply publish_holds. Qed.

Lemma quiet_abandon c : quiet (on_flights (λ f, abandon f c)) (λ _, True).
Proof. apply quiet_on_flights. intros fl. apply abandon_holds. Qed.

Lemma quiet_set_background f :
  (∀ b, Forall (λ x, refresh_ok x.1) b → Forall (λ x, refresh_ok x.1) (f b)) →
  quiet (modify (λ s, set_background s (f (background s)))) (λ _, True).
Proof. intros Hf. apply quiet_modify. intros s []. split; [|done]. split; try done. by apply Hf. Qed.

Lemma quiet_fetch_next_id : quiet fetch_next_id (λ _, True).
Proof. intros s Hs. left. eexists _, _, []. rewrite app_nil_r. split; [done|]. split_and!; try done. by apply (ok_frame s). Qed.

Lemma ok_set_pool s p policy : ok s → pool_sound p (now s) → ok (set_fake_ip s (Some (p, policy))).
Proof. intros [] Hp. split; try done. cbn. by intros ? ? [= <- <-]. Qed.

(** Time passes. *)
Lemma ok_later s t :
  ok s → (now s ≤ t)%Z → clock_room t →
  ok (mkSt t (cache s) (atomics s) (cache_epoch s) (flights s) (counters s) (fake_ip s) (next_correlation_id s)
        (background s) (events s)).
Proof. intros [] Ht Hr. split; try done. cbn. intros p policy E. eapply pool_sound_later; eauto. Qed.

(** ** The store *)

(** An operation that keeps every sound store. *)
Lemma quiet_on_store {A} (f : Store → Run Error (A * Store)) (Q : A → Prop) :
  (∀ st, store_ok max_bytes st → store_holds entry_ok st →
     ∃ a st', f st = Ret (a, st') ∧ store_ok max_bytes st' ∧ store_holds entry_ok st' ∧ Q a) →
  quiet (on_store f) (λ o, ∀ a, o = Some a → Q a).
Proof.
  intros H s Hs. left. unfold on_store. destruct (cache s) as [st|] eqn:Ec.
  - destruct (H st) as (a & st' & -> & Hst' & Hh & HQ); [by apply Hs..|]. cbn.
    eexists _, _, []. rewrite app_nil_r. split; [done|]. split_and!; try done; [|by intros a' [= <-]].
    destruct Hs. split; try done; cbn; by intros ? [= <-].
  - eexists _, s, []. rewrite app_nil_r. by split_and!.
Qed.

Lemma quiet_store_get hash key t :
  quiet (on_store (λ st, store_get st hash key t)) (λ o, ∀ e, mjoin o = Some e → entry_ok e).
Proof.
  eapply quiet_mono; [apply (quiet_on_store _ (λ o, ∀ e, o = Some e → entry_ok e))|].
  - intros st Hst Hh. by apply store_get_holds.
  - intros [o|] H e He; [by apply (H o)|done].
Qed.

Lemma quiet_store_forget hash key : quiet (on_store (λ st, store_forget_failure st hash key)) (λ _, True).
Proof.
  eapply quiet_mono; [apply (quiet_on_store _ (λ _, True))|done].
  intros st Hst Hh. destruct (store_forget_holds entry_ok max_bytes st hash key Hst Hh) as (o & st' & ? & ? & ?). eauto 10.
Qed.

Lemma quiet_store_insert z hash key e t b :
  sizes_ok z → entry_ok e → quiet (on_store (λ st, store_insert_if z st hash key e t b)) (λ _, True).
Proof.
  intros Hz He. eapply quiet_mono; [apply (quiet_on_store _ (λ _, True))|done].
  intros st Hst Hh. destruct (store_insert_holds entry_ok max_bytes z st hash key e t b Hz Hst Hh He) as (o & st' & ? & ? & ?). eauto 10.
Qed.

(** ** Events *)

Context {Backend RouteHook : Type} (cfg : Config Backend RouteHook).
Notation reported := (spec (observability_sink cfg)).

Lemma spec_event e : event_id e = id → reported (emit_event cfg e) (λ _ l, l = [e]).
Proof.
  intros He s Hs. left. eexists _, _, [e]. unfold emit_event, modify. split; [done|].
  destruct (observability_sink cfg); cbn [heard]; [|by rewrite app_nil_r].
  split; [by apply (ok_frame s)|]. split; [|done]. unfold trace. cbn. by rewrite filter_app, filter_cons_True.
Qed.

Lemma spec_emit e : event_id (Observe e) = id → reported (emit cfg e) (λ _ l, l = [Observe e]).
Proof. apply spec_event. Qed.

Lemma spec_emit_cache e : event_id (ObserveCache e) = id → reported (emit_cache cfg e) (λ _ l, l = [ObserveCache e]).
Proof. apply spec_event. Qed.
End spec.
End logic.
