(* ===== verification/ResolveSpec.v ===== *)
(** * What [resolve] guarantees

    One [spec] lemma per operation of [Reply], [Upstreams] and [Resolve], up to
    the whole of [resolve]: soundness is kept, nothing panics, the answer is a
    well-formed reply to the query with an OPT record exactly as it asks, and
    the events under the query's correlation id are one [QueryReceived], steps,
    and one terminal event that says what was returned. *)

From stdpp Require Import base numbers list gmap strings.
From S2P Require Import Prelude CoreError Name RecordData Edns Header Message Matcher Time.
From S2P Require Import FakeIpFamily FakeIpPool CacheConfig StoreKey Entry Shard Store Flight Response Transport ResponseWf Reverse FakeIpAnswer FakeIpReply.
From S2P Require Import EngineState Reply Upstreams Resolve EngineLogic.

(** An event between the first and the terminal one. *)
Definition is_middle (e : Event) : Prop :=
  match e with
  | Observe (QueryReceived _ _ _ _ | Completed _ _ | EFailed _ _ | Cancelled _) => False
  | _ => True
  end.

(** The terminal event of a result. *)
Definition terminal (id : Z) (r : Result Error Message) : Event :=
  Observe (match r with Ok answer => Completed id (rcode (header answer)) | Err e => EFailed id (observe_failure e) end).

(** An answer's OPT record is as the query asks: none, or exactly one. *)
Definition aligned (query answer : Message) : Prop :=
  match edns query with
  | Ok None => edns answer = Ok None
  | Ok (Some _) => opt_count (additionals answer) = 1
  | Err _ => True
  end.

(** An answer is a well-formed reply to the query, with such an OPT record. *)
Definition result_ok (query : Message) (r : Result Error Message) : Prop :=
  match r with Ok answer => aligned query answer ∧ reply_to query answer | Err _ => True end.

Definition replied (id : Z) (query : Message) (r : Result Error Message) (l : list Event) : Prop :=
  ∃ mid, l = mid ++ [terminal id r] ∧ Forall is_middle mid ∧ result_ok query r.

Lemma replied_cons id query r l e : is_middle e → replied id query r l → replied id query r (e :: l).
Proof. intros He (mid & -> & Hm & Ha). exists (e :: mid). split; [done|]. by split; [constructor|]. Qed.

Lemma replied_app id query r l l' : Forall is_middle l → replied id query r l' → replied id query r (l ++ l').
Proof.
  intros Hl (mid & -> & Hm & Ha). exists (l ++ mid). rewrite app_assoc. split; [done|]. split; [by apply Forall_app|done].
Qed.

(** ** Alignment *)

Lemma set_edns_one m e : opt_count (additionals (set_edns m (Some e))) = 1.
Proof.
  unfold set_edns, opt_count. cbn [additionals]. rewrite List.filter_app, length_app.
  assert (is_opt_record (to_record e) = true) as Ho by done. cbn [List.filter]. rewrite Ho.
  assert (∀ rs, List.filter is_opt_record (List.filter (λ r, negb (is_opt_record r)) rs) = []) as ->; [|done].
  intros rs. induction rs as [|r rs IH]; [done|]. cbn. destruct (is_opt_record r) eqn:E; cbn; [done|]. by rewrite E.
Qed.

Lemma edns_some_count m e : edns m = Ok (Some e) → opt_count (additionals m) = 1.
Proof.
  unfold edns. pose proof (find_opt_spec (additionals m)) as H.
  destruct (find_opt None (additionals m)) as [[[r d]|]|]; cbn; [|done..]. intros _. by destruct H.
Qed.

Lemma aligned_align query answer : aligned query (align_edns query answer).
Proof.
  unfold aligned, align_edns. destruct (edns query) as [[qe|]|]; [|apply edns_set_none|done].
  destruct (edns answer) as [[e|]|] eqn:Ea; [by eapply edns_some_count|apply set_edns_one..].
Qed.

Lemma aligned_stale query answer : aligned query (mark_stale_answer query (align_edns query answer)).
Proof.
  pose proof (aligned_align query answer) as H. unfold aligned, mark_stale_answer in *.
  destruct (edns query) as [[qe|]|]; [|done..].
  destruct (edns (align_edns query answer)) as [[e|]|]; [|done..].
  destruct (option_new _ _); [apply set_edns_one|done].
Qed.

(** ** Replies *)

(** Both at once, for what is served. *)
Definition servable (query answer : Message) : Prop := aligned query answer ∧ reply_to query answer.

Lemma servable_align query answer : reply_to query answer → servable query (align_edns query answer).
Proof. intros H. split; [apply aligned_align|by apply reply_align]. Qed.

Lemma servable_hit query a t : wf_message query → entry_ok a → servable query (hit_answer query a t).
Proof. intros Hq Ha. by apply servable_align, reply_cache_hit. Qed.

Lemma servable_raw query m : wf_message query → response_ok m → servable query (align_edns query (raw_answer query m)).
Proof. intros Hq Hm. by apply servable_align, reply_for_query, response_set_edns. Qed.

Section specs.
Context `{WS : Watch State} {WL : WatchLaws State} {Backend RouteHook : Type}.
Context (cfg : Config Backend RouteHook) (w : World Backend RouteHook) (max_bytes id : Z) (hang : Prop).
Notation spec := (spec max_bytes id hang (observability_sink cfg)).
Notation quiet := (quiet max_bytes id hang).

(** One emitted step, then the rest. *)
Lemma emit_then {A} e (f : unit → M A) R :
  event_id e = id → spec (f ()) (λ a l, R a (e :: l)) → spec (emit_event cfg e ≫= f) R.
Proof. intros He Hf. eapply spec_bind; [by apply spec_event|]. by intros [] l ->. Qed.

Lemma emit_middle {A} query e (f : unit → M A) r :
  event_id e = id → is_middle e → spec (f ()) (λ a, replied id query (r a)) →
  spec (emit_event cfg e ≫= f) (λ a, replied id query (r a)).
Proof.
  intros He Hm Hf. apply emit_then; [done|]. eapply spec_mono; [exact Hf|]. intros a l. by apply replied_cons.
Qed.

Lemma complete_spec query answer :
  servable query answer → spec (complete cfg id answer) (replied id query).
Proof. intros Ha. apply emit_then; [done|]. apply spec_ret. exists []. split; [done|]. by split. Qed.

Lemma fail_spec query e : spec (fail cfg id e) (replied id query).
Proof. apply emit_then; [done|]. apply spec_ret. exists []. split; [done|]. by split. Qed.

(** What [build] makes of any builder ([build_cfg_ok]) whose minimum TTLs and stale
    reply TTL are below 2^31, so that they are read back as they are, and whose
    failure recheck is at most 2^32-1 seconds, so that the clock has room for it. *)
Record cfg_ok : Prop := {
  cfg_ttl : policy_ttls (ttl_policy cfg);
  cfg_failure p : failure_cache cfg = Some p → failure_ok p;
  cfg_stale p : EngineState.serve_stale cfg = Some p →
    (0 ≤ failure_recheck p ≤ from_secs u32_max)%Z ∧ is_ttl (reply_ttl p);
}.

(** What the world does while it is awaited: it keeps the state sound, emits
    under other ids, hands over replies to what it was asked and outcomes that
    can be served, times out only with a timeout, and abandons a follower only
    where [hang] allows a loop. *)
Record world_ok : Prop := {
  wo_sizes : sizes_ok (sizes w);
  wo_backend b q : wf_message q → quiet (backend_resolve w b q) (λ r, ∀ m, r = Ok m → reply_to q m);
  wo_hook h q g : quiet (hook_select w h q g) (λ _, True);
  wo_wait c t : quiet (follower_wait w c t)
    (λ r, (r = None → t ≠ None) ∧ (r = Some WAbandoned → hang) ∧ ∀ o, r = Some (WDone o) → outcome_ok o);
}.

Context (Hcfg : cfg_ok) (Hworld : world_ok) (query : Message) (Hq : wf_message query).

Lemma servable_stale entry : entry_ok entry → servable query (stale_answer cfg query entry).
Proof.
  intros He. split; [apply aligned_stale|]. apply reply_mark_stale, reply_align, reply_stale; [done|done|].
  unfold stale_reply_ttl. destruct (EngineState.serve_stale cfg) as [p|] eqn:Ep; [by apply Hcfg|done].
Qed.

Lemma serve_stale_spec entry group : entry_ok entry → spec (Reply.serve_stale cfg query entry id group) (replied id query).
Proof.
  intros He. unfold Reply.serve_stale. eapply quiet_bind; [apply quiet_count|]. intros _ _.
  apply (emit_middle query _ _ (λ r, r)); [done..|]. by apply complete_spec, servable_stale.
Qed.

Lemma serve_failure_spec cached group t :
  entry_ok cached → spec (serve_failure cfg query cached id group t) (replied id query).
Proof.
  intros Hc. unfold serve_failure. eapply quiet_bind; [apply quiet_count|]. intros _ _.
  apply (emit_middle query _ _ (λ r, r)); [done..|].
  destruct (failure cached ≫= _); [apply fail_spec|]. by apply complete_spec, servable_hit.
Qed.

Lemma finish_follower_spec o group : outcome_ok o → spec (finish_follower cfg query o id group) (replied id query).
Proof.
  destruct o as [a|m|e|a]; cbn [finish_follower outcome_ok]; intros Ho.
  - eapply quiet_bind; [apply quiet_gets|]. intros t _. by apply complete_spec, servable_hit.
  - by apply complete_spec, servable_raw.
  - apply fail_spec.
  - by apply serve_stale_spec.
Qed.

(** ** Upstreams *)

(** Steps without a first or terminal event. *)
Definition middling {A} (m : M A) (P : A → Prop) : Prop := spec m (λ a l, Forall is_middle l ∧ P a).

Lemma middling_quiet {A} (m : M A) P : quiet m P → middling m P.
Proof. intros H. eapply spec_mono; [by apply quiet_spec|]. by intros a l [-> ?]. Qed.

Lemma middling_bind {A B} (m : M A) (f : A → M B) P P' :
  middling m P → (∀ a, P a → middling (f a) P') → middling (m ≫= f) P'.
Proof.
  intros H Hf. eapply spec_bind; [exact H|]. intros a l [Hl HP]. eapply spec_mono; [by apply Hf|].
  intros b l' [? ?]. by rewrite Forall_app.
Qed.

Lemma middling_then {A B} (m : M A) (f : A → M B) P r :
  middling m P → (∀ a, P a → spec (f a) (λ b, replied id query (r b))) → spec (m ≫= f) (λ b, replied id query (r b)).
Proof.
  intros H Hf. eapply spec_bind; [exact H|]. intros a l [Hl HP]. eapply spec_mono; [by apply Hf|].
  intros b l'. by apply replied_app.
Qed.

Lemma middling_emit e : event_id e = id → is_middle e → middling (emit_event cfg e) (λ _, True).
Proof. intros He Hm. eapply spec_mono; [by apply spec_event|]. intros a l ->. split; [by constructor|done]. Qed.

Lemma middling_ret {A} (a : A) (P : A → Prop) : P a → middling (mret a) P.
Proof. intros H. by apply spec_ret. Qed.

(** An event under our id, or none: a background refresh has no id. *)
Lemma observe_middling o (event : Z → ObserveEvent) :
  (∀ i, o = Some i → i = id) → event_id (Observe (event id)) = id → is_middle (Observe (event id)) →
  middling (observe cfg o event) (λ _, True).
Proof.
  intros Ho He Hm. destruct o as [i|]; [|by apply middling_ret]. rewrite (Ho i eq_refl). by apply middling_emit.
Qed.

Definition found_backends (r : Result Error (Group * Z * list Backend)) : Prop :=
  match r with Ok (_, _, bs) => bs ≠ [] | Err _ => True end.

Lemma backends_of_found group : found_backends (backends_of cfg group).
Proof.
  unfold backends_of. destruct group as [g|]; [|done]. destruct (backends cfg !! g) as [[|b bs]|]; [done| |done].
  by destruct (group_index cfg !! g).
Qed.

Lemma choose_group_middling question group : middling (choose_group cfg w question group id) (λ _, True).
Proof.
  unfold choose_group. destruct (route_hook cfg) as [h|]; [|by apply middling_ret].
  eapply middling_bind; [apply middling_quiet, Hworld|]. intros [[g|]|e] _;
    (eapply middling_bind; [by apply middling_emit|]; intros _ _; by apply middling_ret).
Qed.

Lemma select_backends_middling question : middling (select_backends cfg w question id) found_backends.
Proof.
  unfold select_backends. eapply middling_bind; [by apply middling_emit|]. intros _ _.
  eapply middling_bind; [apply choose_group_middling|]. intros [g|e] _; apply middling_ret; [apply backends_of_found|done].
Qed.

Lemma failover_middling o group bs index last :
  (∀ i, o = Some i → i = id) → (bs = [] → last ≠ None) →
  middling (failover cfg w query group o bs index last) (λ r, ∀ m, r = Ok m → reply_to query m).
Proof.
  intros Ho. revert index last. induction bs as [|b bs IH]; intros index last Hl; cbn [failover].
  { destruct last; [by apply middling_ret|]. by destruct (Hl eq_refl). }
  eapply middling_bind; [by apply observe_middling|]. intros _ _.
  eapply middling_bind; [by apply middling_quiet, Hworld|]. intros [m|e] Hm.
  - eapply middling_bind; [by apply observe_middling|]. intros _ _. by apply middling_ret.
  - destruct (is_retryable e); (eapply middling_bind; [by apply observe_middling|]; intros _ _); [by apply IH|].
    by apply middling_ret.
Qed.

Lemma insert_entry_quiet key hash e t epoch : entry_ok e → quiet (insert_entry w key hash e t epoch) (λ _, True).
Proof.
  intros He. unfold insert_entry. eapply quiet_bind; [apply quiet_gets|]. intros n _.
  eapply quiet_bind; [apply quiet_store_insert; [apply Hworld|done]|]. intros o _. by apply spec_ret.
Qed.

Lemma store_answer_quiet answer stored t epoch :
  response_ok answer → clock_room t →
  quiet (store_answer cfg w answer stored t epoch) (λ x, ∀ e, x.1 = Some e → entry_ok e).
Proof.
  intros Hw Ht. unfold store_answer. destruct stored as [[key hash]|]; [|by apply spec_ret].
  eapply quiet_bind; [apply quiet_gets|]. intros n _. pose proof (cfg_ttl Hcfg) as Hp.
  destruct (cacheable_answer_cases answer t (ttl_policy cfg) n (proj1 Hp) (proj1 Hw) Ht) as (o & E & _).
  eapply quiet_bind; [by apply (quiet_run _ _ _ _ o (λ x, x = o))|]. intros ? ->. destruct o as [e|]; [|by apply spec_ret].
  assert (He : entry_ok e) by (by eapply cacheable_response).
  eapply quiet_bind; [apply quiet_allocate|]. intros _ _.
  eapply quiet_bind; [by apply insert_entry_quiet|]. intros b _. apply spec_ret. split; [done|]. by intros e' [= <-].
Qed.

(** What went upstream and came back: a reply, and what was stored of it. *)
Definition upstream_ok (r : Result Error UpstreamAnswer) : Prop :=
  match r with Ok (answer, o, _) => reply_to query answer ∧ (∀ e, o = Some e → entry_ok e) | Err _ => True end.

Lemma query_upstream_middling o group bs stored t epoch :
  (∀ i, o = Some i → i = id) → bs ≠ [] → clock_room t →
  middling (query_upstream cfg w query group bs o stored t epoch) upstream_ok.
Proof.
  intros Hid Hb Ht. unfold query_upstream. eapply middling_bind; [by apply failover_middling|].
  intros [m|e] Hm; [|by apply middling_ret].
  eapply middling_bind; [apply middling_quiet, store_answer_quiet; [by eapply reply_response, Hm|done]|].
  intros [e b] Ho. apply middling_ret. split; [by apply Hm|exact Ho].
Qed.

Lemma instant_add_room t d : clock_room t → (d ≤ from_secs u32_max)%Z → instant_add t d = Ret (t + d)%Z.
Proof.
  unfold clock_room, instant_add, checked_add, MAX_STALE_WINDOW. intros Ht Hd. rewrite decide_True; [done|].
  unfold from_secs, nanos_per_sec in *. lia.
Qed.

Lemma answer_failure_ok m e t b r n :
  clock_room t → (0 ≤ b ≤ MAX_FAILURE_TTL)%Z → (0 ≤ r ≤ MAX_FAILURE_TTL)%Z →
  ∃ a, answer_failure m e t b r n = Ret a ∧ expires a = (t + b)%Z ∧ failure a = Some (mkFailure e b) ∧
    inserted a = t ∧ ca_message a = m ∧ cells a = n ∧ stale_until a = (t + b + r)%Z.
Proof.
  intros Ht Hb Hr. assert (MAX_FAILURE_TTL * 2 ≤ from_secs u32_max)%Z as Hm by (unfold MAX_FAILURE_TTL, from_secs, nanos_per_sec; lia).
  unfold answer_failure, retained_for. rewrite instant_add_room by (done || lia). cbn.
  unfold instant_add, checked_add. rewrite decide_True by (unfold clock_room in Ht; unfold MAX_STALE_WINDOW, from_secs, nanos_per_sec in *; lia).
  cbn. eexists. split; [done|]. by split_and!.
Qed.

Lemma backoff_range p previous :
  failure_ok p →
  (0 ≤ match previous with None => first_backoff p | Some b => next_backoff p b end ≤ MAX_FAILURE_TTL)%Z ∧
  (0 ≤ longest_backoff p ≤ MAX_FAILURE_TTL)%Z.
Proof.
  unfold failure_ok, MIN_FAILURE_TTL, MAX_FAILURE_TTL, from_secs, nanos_per_sec. intros [H1 H2].
  destruct previous; unfold first_backoff, next_backoff, longest_backoff; lia.
Qed.

Lemma failure_record_ok result : upstream_ok result → response_ok (failure_record query result).1.
Proof.
  destruct result as [[[answer o] b]|e]; cbn.
  - intros [Ha _]. by eapply response_set_edns, reply_response.
  - intros _. by eapply reply_response, reply_local.
Qed.

Lemma remember_failure_quiet p result key hash previous epoch t :
  upstream_ok result → failure_ok p → clock_room t → quiet (remember_failure w p query result key hash previous epoch t) (λ _, True).
Proof.
  intros Hr%failure_record_ok Hp Ht. unfold remember_failure. destruct (failure_record query result) as [m e].
  eapply quiet_bind; [apply quiet_gets|]. intros n _. destruct (backoff_range p previous Hp) as [H1 H2].
  destruct (answer_failure_ok m e t _ _ n Ht H1 H2) as (a & E & _).
  eapply quiet_bind; [by apply (quiet_run _ _ _ _ a (λ x, x = a))|]. intros ? ->.
  eapply quiet_bind; [apply quiet_allocate|]. intros _ _.
  eapply quiet_bind; [apply insert_entry_quiet|]. { unfold entry_ok. by rewrite (answer_failure_message _ _ _ _ _ _ _ E). }
  intros b _. by apply spec_ret.
Qed.

Lemma settle_failure_quiet result stale stored previous epoch :
  upstream_ok result → (∀ e, stale = Some e → entry_ok e) →
  quiet (settle_failure cfg w query result stale stored previous epoch) (λ o, ∀ e, o = Some e → entry_ok e).
Proof.
  intros Hres Hstale. unfold settle_failure. destruct (is_failure result); cbn [negb].
  2: { destruct previous, stored as [[key hash]|]; try by apply spec_ret.
       eapply quiet_bind; [apply quiet_store_forget|]. intros o _. by apply spec_ret. }
  eapply quiet_bind; [apply quiet_now|]. intros t Ht.
  assert (Hrest : quiet (match failure_cache cfg, stored with
        | Some p, Some (key, hash) => remember_failure w p query result key hash previous epoch t;; mret None
        | _, _ => mret None
        end : M (option CachedAnswer)) (λ o, ∀ e, o = Some e → entry_ok e)).
  { destruct (failure_cache cfg) as [p|] eqn:Ep; [|by apply spec_ret]. destruct stored as [[key hash]|]; [|by apply spec_ret].
    eapply quiet_bind; [apply remember_failure_quiet; [done|by apply Hcfg|done]|]. intros _ _. by apply spec_ret. }
  destruct stale as [entry|]; [|exact Hrest].
  destruct (EngineState.serve_stale cfg) as [p|] eqn:Es; [|exact Hrest].
  eapply quiet_bind; [apply (quiet_run _ _ _ _ (t + failure_recheck p)%Z (λ _, True)); [|done]|].
  - apply instant_add_room; [done|]. by apply Hcfg.
  - intros u _. eapply quiet_bind; [apply quiet_alter_cells|]. intros _ _. apply spec_ret. split; [done|exact Hstale].
Qed.

Lemma finish_quiet guard o : outcome_ok o → quiet (finish guard o) (λ _, True).
Proof.
  intros Ho. destruct guard as [g|]; [|by apply spec_ret]. eapply quiet_bind; [apply quiet_close|]. intros _ _.
  by apply quiet_publish.
Qed.

Lemma settled_outcome_ok used result :
  upstream_ok result → (∀ e, used = Some e → entry_ok e) → outcome_ok (settled_outcome used result).
Proof.
  intros Hr Hu. destruct used as [e|]; [by apply Hu|]. destruct result as [[[answer [e|]] b]|e]; cbn; [by apply Hr| |done].
  by eapply reply_response, Hr.
Qed.

(** ** Resolving *)

(** What follows the pool's answer. *)
Definition local_reply (r : Result Error (option Message)) : M (option (Result Error Message)) :=
  match r with
  | Ok (Some answer) =>
      emit cfg (FakeIpTerminal id);;
      r ← complete cfg id (align_edns query answer);
      mret (Some r)
  | Ok None => mret None
  | Err error => r ← fail cfg id error; mret (Some r)
  end.

(** The pool and the clock are read in one state. *)
Lemma answer_locally_eq s :
  answer_locally cfg query id s =
    match fake_ip s with
    | None => Ret (None, s)
    | Some (p, policy) =>
        '(r, p) ← fake_ip_answer policy query p (now s); local_reply r (set_fake_ip s (Some (p, policy)))
    end.
Proof.
  unfold answer_locally, gets, run, modify. unfold mbind, m_bind. cbn [mbind run_bind].
  destruct (fake_ip s) as [[p policy]|]; [|done]. by destruct (fake_ip_answer policy query p (now s)) as [[r p']| | |].
Qed.

Definition located (o : option (Result Error Message)) (l : list Event) : Prop :=
  match o with None => Forall is_middle l | Some r => replied id query r l end.

Lemma local_reply_spec r : (∀ answer, r = Ok (Some answer) → reply_to query answer) → spec (local_reply r) located.
Proof.
  intros Hr. destruct r as [[answer|]|e]; cbn [local_reply].
  - apply emit_then; [done|]. eapply spec_bind; [apply complete_spec, servable_align; by apply Hr|].
    intros r l Hl. apply spec_ret. rewrite app_nil_r. by apply replied_cons.
  - apply spec_ret. by apply Forall_nil.
  - eapply spec_bind; [apply fail_spec|]. intros r l Hl. apply spec_ret. by rewrite app_nil_r.
Qed.

Lemma answer_locally_spec : spec (answer_locally cfg query id) located.
Proof.
  intros s Hs. rewrite answer_locally_eq. destruct (fake_ip s) as [[p policy]|] eqn:Ef.
  2: { left. exists None, s, []. rewrite heard_nil, app_nil_r. split_and!; [done|done|done|by apply Forall_nil]. }
  pose proof (ok_pool _ _ Hs _ _ Ef) as Hp.
  destruct (fake_ip_answer_ok policy query p (now s) (ps_inv _ _ Hp)) as (r & p' & E & _).
  destruct (fake_ip_answer_sound query Hq (now s) policy p (r, p') Hp E) as [Hp' Hr]. rewrite E. cbn [mbind run_bind].
  apply (local_reply_spec r Hr (set_fake_ip s (Some (p', policy)))). by apply ok_set_pool.
Qed.

(** Everything a look at the cache finds can be served. *)
Definition found_ok (f : Found) : Prop :=
  match f with
  | Fresh e | FoundFailure e | StaleNow e => entry_ok e
  | Refreshing o _ => ∀ e, o = Some e → entry_ok e
  end.

Lemma classify_ok entry c t : (∀ e, entry = Some e → entry_ok e) → found_ok (classify cfg entry c t).
Proof.
  intros He. unfold classify. destruct entry as [e|]; [|done]. specialize (He e eq_refl). destruct (failure e).
  - by destruct (decide _).
  - destruct (decide _); [done|]. destruct (_ && _); [|done]. destruct (recheck_pending _ _ _); [done|]. by intros ? [= <-].
Qed.

Lemma look_quiet stored t : quiet (look cfg stored t) found_ok.
Proof.
  unfold look, lookup. eapply (quiet_bind _ _ _ _ _ _ (λ o, ∀ e, o = Some e → entry_ok e)).
  - destruct stored as [[key hash]|]; [|by apply spec_ret].
    eapply quiet_bind; [apply quiet_store_get|]. intros o Ho. by apply spec_ret.
  - intros entry He. eapply quiet_bind; [apply quiet_gets|]. intros c _. apply spec_ret. split; [done|by apply classify_ok].
Qed.

Lemma task_room_quiet : quiet (task_room w) (λ _, True).
Proof.
  unfold task_room. destruct (runtime w); cbn [negb]; [|by apply spec_ret].
  eapply quiet_bind; [apply quiet_set_background|]. { intros b Hb. apply Forall_forall. intros x [_ Hx]%list_elem_of_filter. by eapply (proj1 (Forall_forall _ b) Hb). }
  intros _ _.
  eapply quiet_bind; [apply quiet_gets|]. intros n _. by apply spec_ret.
Qed.

Lemma spawn_quiet r : refresh_ok r → quiet (spawn r) (λ _, True).
Proof. intros Hr. apply (quiet_set_background _ _ _ (λ b, b ++ [(r, false)])). intros b Hb. apply Forall_app. split; [done|by apply Forall_singleton]. Qed.

(** Joining a flight or leading one, then the rest. *)
Lemma join_then {A} sink hash key (none : M A) (k : Join → M A) R :
  let given := EngineLogic.spec (A:=A) max_bytes id hang sink in
  given none R → (∀ j, given (k j) R) →
  given (f ← gets flights;
        match f with
        | None => none
        | Some f =>
            let '(j, f) := join_or_lead f hash key in
            modify (λ s, set_flights s (Some f));;
            k j
        end) R.
Proof.
  intros given Hn Hk. eapply quiet_bind; [apply quiet_gets|]. intros f (s & Hs & ->). destruct (flights s) as [f|] eqn:Ef; [|done].
  pose proof (join_holds outcome_ok f hash key (ok_flights _ _ Hs _ Ef)) as Hj. destruct (join_or_lead f hash key) as [j f'].
  eapply quiet_bind; [apply quiet_set_flights; by intros fl [= <-]|]. intros _ _. apply Hk.
Qed.

Lemma lead_refresh_quiet key : quiet (lead_refresh w key) (λ _, True).
Proof.
  unfold lead_refresh. apply join_then; [by apply spec_ret|]. intros j.
  destruct j; [|by apply spec_ret]. eapply quiet_bind; [apply quiet_drop_receiver|]. intros _ _. by apply spec_ret.
Qed.

Lemma maybe_prefetch_quiet p group key hash cached t :
  quiet (maybe_prefetch w p query group key hash cached t) (λ _, True).
Proof.
  unfold maybe_prefetch, count_entry_hit, claim_refresh.
  eapply (quiet_bind _ _ _ _ _ _ (λ _, True)).
  { eapply quiet_bind; [apply quiet_gets|]. intros c _. eapply quiet_bind; [apply quiet_alter_cells|]. intros _ _. by apply spec_ret. }
  intros n _. destruct (decide _); [by apply spec_ret|]. destruct (near_expiry p cached t); cbn [negb]; [|by apply spec_ret].
  eapply quiet_bind; [apply task_room_quiet|]. intros [] _; cbn [negb]; [|by apply spec_ret].
  eapply (quiet_bind _ _ _ _ _ _ (λ _, True)).
  { eapply quiet_bind; [apply quiet_gets|]. intros c _. eapply quiet_bind; [apply quiet_alter_cells|]. intros _ _. by apply spec_ret. }
  intros [] _; [by apply spec_ret|]. eapply quiet_bind; [apply lead_refresh_quiet|].
  intros [g|] _; [by apply spawn_quiet|by apply spec_ret].
Qed.

Lemma spawn_stale_refresh_quiet guard group key hash stale :
  entry_ok stale → quiet (spawn_stale_refresh w guard query group key hash stale) (λ _, True).
Proof.
  intros Hs. unfold spawn_stale_refresh. eapply quiet_bind; [apply task_room_quiet|]. intros [] _; cbn [negb]; [|by apply spec_ret].
  eapply quiet_bind; [apply quiet_follower|]. intros _ _.
  eapply quiet_bind; [apply spawn_quiet; split; [done|by intros e [= <-]]|]. intros _ _. by apply spec_ret.
Qed.

Lemma wait_quiet c t :
  quiet (wait w c t) (λ r, (r = None → t ≠ None) ∧ (r = Some WAbandoned → hang) ∧ ∀ o, r = Some (WDone o) → outcome_ok o).
Proof.
  unfold wait. eapply quiet_bind; [apply Hworld|]. intros r Hr.
  eapply quiet_bind; [apply quiet_drop_receiver|]. intros _ _. by apply spec_ret.
Qed.

Lemma wait_for_flight_quiet c stale :
  quiet (wait_for_flight cfg w c stale)
    (λ r, match r with FwTimedOut => stale ≠ None | FwAbandoned => hang | FwDone o => outcome_ok o end).
Proof.
  unfold wait_for_flight. eapply quiet_bind; [apply wait_quiet|]. intros r (H1 & H2 & H3). apply spec_ret. split; [done|].
  destruct r as [[o|]|]; [by apply H3|by apply H2|]. intros ->. destruct (runtime w); by apply H1.
Qed.

Definition joined_ok (j : Joined) (l : list Event) : Prop :=
  match j with Answered r => replied id query r l | Leading _ _ => Forall is_middle l end.

Lemma joined_ok_app j l l' : Forall is_middle l → joined_ok j l' → joined_ok j (l ++ l').
Proof. destruct j; cbn; [by apply replied_app|]. intros. by apply Forall_app. Qed.

Lemma join_loop_spec fuel group key stale announced :
  (fuel = 0 → hang) → (∀ e, stale = Some e → entry_ok e) →
  spec (join_loop cfg w fuel query group id key stale announced) joined_ok.
Proof.
  intros Hf Hst. revert announced Hf. induction fuel as [|fuel IH]; intros announced Hf; cbn [join_loop]; [intros s Hs; right; auto|].
  apply join_then; [apply spec_ret; by apply Forall_nil|]. intros [c|g]; [|apply spec_ret; by apply Forall_nil].
  eapply (spec_bind _ _ _ _ _ _ (λ _ l, Forall is_middle l)).
  { destruct announced; [apply spec_ret; by apply Forall_nil|]. eapply quiet_bind; [apply quiet_count|]. intros _ _.
    eapply spec_mono; [by apply middling_emit|]. by intros a l [? _]. }
  intros _ l Hl. eapply quiet_bind; [apply wait_for_flight_quiet|]. intros waited Hw.
  assert (Hagain : hang → spec (join_loop cfg w fuel query group id key stale true) (λ b l', joined_ok b (l ++ l'))).
  { intros Hh. eapply spec_mono; [by apply IH|]. intros b l'. by apply joined_ok_app. }
  destruct waited as [o| |]; [|by apply Hagain|].
  - eapply spec_bind; [by apply finish_follower_spec|]. intros r l' Hr. apply spec_ret. rewrite app_nil_r. by apply replied_app.
  - destruct stale as [entry|]; [|done].
    eapply spec_bind; [by apply serve_stale_spec, Hst|]. intros r l' Hr. apply spec_ret. rewrite app_nil_r. by apply replied_app.
Qed.

Lemma join_spec fuel group key stale :
  (fuel = 0 → hang) → (∀ e, stale = Some e → entry_ok e) →
  spec (join cfg w fuel query group id key stale) joined_ok.
Proof. intros Hf Hst. destruct key; [by apply join_loop_spec|apply spec_ret; by apply Forall_nil]. Qed.

Lemma lead_spec group bs stored guard announced t stale backoff :
  bs ≠ [] → clock_room t → (∀ e, stale = Some e → entry_ok e) →
  spec (lead cfg w query group bs id stored guard announced t stale backoff) (replied id query).
Proof.
  intros Hb Ht Hst. unfold lead. eapply (quiet_bind _ _ _ _ _ _ clock_room).
  { destruct announced; [apply quiet_now|by apply spec_ret]. }
  intros t' Ht'. eapply quiet_bind; [apply quiet_gets|]. intros epoch _.
  eapply (middling_then _ _ _ (λ r, r)); [apply query_upstream_middling; [by intros i [= ->]|done|done]|]. intros result Hr.
  eapply quiet_bind; [by apply settle_failure_quiet|]. intros used Hu.
  eapply quiet_bind; [by apply finish_quiet, settled_outcome_ok|]. intros _ _.
  destruct used as [entry|]; [by apply serve_stale_spec, Hu|].
  destruct result as [[[answer o] b]|e]; [by apply complete_spec, servable_align, Hr|apply fail_spec].
Qed.

Lemma refresh_aside_spec group stored guard stale :
  (∀ e, stale = Some e → entry_ok e) → spec (refresh_aside cfg w query group id stored guard stale)
    (λ o l, match o with None => l = [] | Some r => replied id query r l end).
Proof.
  intros Hst. unfold refresh_aside. destruct stale as [entry|]; [|by apply spec_ret]. specialize (Hst entry eq_refl).
  destruct (_ ≫= client_timeout) as [timeout|]; [|by apply spec_ret].
  destruct stored as [[key hash]|]; [|by apply spec_ret]. destruct guard as [flight|]; [|by apply spec_ret].
  eapply quiet_bind; [by apply spawn_stale_refresh_quiet|]. intros [c|] _; [|by apply spec_ret].
  eapply quiet_bind; [apply wait_quiet|]. intros r (_ & _ & Hr).
  eapply (spec_bind _ _ _ _ _ _ (replied id query)).
  - destruct r as [[o|]|]; [by apply finish_follower_spec, Hr|by apply serve_stale_spec..].
  - intros r' l Hl. apply spec_ret. by rewrite app_nil_r.
Qed.

Lemma go_upstream_spec group bs stored guard announced t stale backoff :
  bs ≠ [] → clock_room t → (∀ e, stale = Some e → entry_ok e) →
  spec (go_upstream cfg w query group bs id stored guard announced t stale backoff) (replied id query).
Proof.
  intros Hb Ht Hst. unfold go_upstream. eapply spec_bind; [by apply refresh_aside_spec|]. intros [r|] l Hr.
  - apply spec_ret. by rewrite app_nil_r.
  - subst l. by apply lead_spec.
Qed.

Lemma recheck_spec group bs stored guard announced t stale backoff :
  bs ≠ [] → clock_room t → (∀ e, stale = Some e → entry_ok e) →
  spec (recheck cfg w query group bs id stored guard announced t stale backoff) (replied id query).
Proof.
  intros Hb Ht Hst. unfold recheck. destruct guard as [g|]; [|by apply go_upstream_spec].
  destruct stored as [ks|]; [|by apply go_upstream_spec].
  eapply quiet_bind; [apply quiet_now|]. intros t' _. eapply quiet_bind; [apply look_quiet|]. intros [a|a|a|o b] Ha; cbn in Ha.
  - eapply quiet_bind; [by apply finish_quiet|]. intros _ _. by apply complete_spec, servable_hit.
  - eapply quiet_bind; [apply finish_quiet; unfold outcome_of_failure; by destruct (_ ≫= _)|]. intros _ _. by apply serve_failure_spec.
  - eapply quiet_bind; [by apply finish_quiet|]. intros _ _. by apply serve_stale_spec.
  - by apply go_upstream_spec.
Qed.

Lemma count_cache_hit_middling group : middling (count_cache_hit cfg id group) (λ _, True).
Proof. unfold count_cache_hit. eapply quiet_bind; [apply quiet_count|]. intros _ _. by apply middling_emit. Qed.

Lemma miss_spec fuel group bs key stored t stale backoff :
  (fuel = 0 → hang) → bs ≠ [] → clock_room t → (∀ e, stale = Some e → entry_ok e) →
  spec (miss cfg w fuel query group bs id key stored t stale backoff) (replied id query).
Proof.
  intros Hf Hb Ht Hst. unfold miss. eapply quiet_bind; [apply quiet_count|]. intros _ _.
  apply (emit_middle query _ _ (λ r, r)); [done..|].
  eapply spec_bind; [by apply join_spec|]. intros [r|g a] l Hj; cbn in Hj.
  - apply spec_ret. by rewrite app_nil_r.
  - eapply spec_mono; [by apply recheck_spec|]. intros r l'. by apply replied_app.
Qed.

Lemma prefetch_hit_quiet group stored cached t :
  quiet (prefetch_hit cfg w query group stored cached t) (λ _, True).
Proof.
  unfold prefetch_hit. destruct (prefetch cfg); [|by apply spec_ret]. destruct stored as [[key hash]|]; [|by apply spec_ret].
  apply maybe_prefetch_quiet.
Qed.

Lemma serve_spec fuel question group index bs :
  (fuel = 0 → hang) → bs ≠ [] → spec (serve cfg w fuel query question group index bs id) (replied id query).
Proof.
  intros Hf Hb. unfold serve. eapply (quiet_bind _ _ _ _ _ _ (λ _, True)).
  { unfold query_key. eapply quiet_bind; [apply quiet_gets|]. intros b _. by apply spec_ret. }
  intros key _. eapply (quiet_bind _ _ _ _ _ _ (λ _, True)).
  { unfold stored_key. eapply quiet_bind; [apply quiet_gets|]. intros c _. by apply spec_ret. }
  intros stored _. eapply quiet_bind; [apply quiet_now|]. intros t Ht.
  eapply quiet_bind; [apply look_quiet|]. intros [a|a|a|o b] Ha; cbn in Ha.
  - eapply (middling_then _ _ _ (λ r, r)); [apply count_cache_hit_middling|]. intros _ _.
    eapply spec_bind; [by apply complete_spec, servable_hit|]. intros r l Hr.
    eapply quiet_bind; [apply prefetch_hit_quiet|]. intros _ _. apply spec_ret. by rewrite app_nil_r.
  - eapply (middling_then _ _ _ (λ r, r)); [apply count_cache_hit_middling|]. intros _ _. by apply serve_failure_spec.
  - eapply (middling_then _ _ _ (λ r, r)); [apply count_cache_hit_middling|]. intros _ _. by apply serve_stale_spec.
  - by apply miss_spec.
Qed.
(** ** Background refreshes *)

Lemma drop_guard_quiet guard : quiet (drop_guard guard) (λ _, True).
Proof.
  destruct guard as [g|]; [|by apply spec_ret]. eapply quiet_bind; [apply quiet_close|]. intros _ _. apply quiet_abandon.
Qed.

Lemma refresh_upstream_middling r bs :
  rf_query r = query → (∀ e, rf_stale r = Some e → entry_ok e) → bs ≠ [] →
  middling (refresh_upstream cfg w r bs) (λ _, True).
Proof.
  intros Er Hst Hb. unfold refresh_upstream. rewrite Er. eapply quiet_bind; [apply quiet_now|]. intros t Ht.
  eapply quiet_bind; [apply quiet_gets|]. intros epoch _.
  eapply middling_bind; [by apply query_upstream_middling|]. intros result Hr.
  eapply (quiet_bind _ _ _ _ _ _ (λ o, ∀ e, o = Some e → entry_ok e)).
  { destruct (rf_stale r) as [e|]; [|by apply spec_ret]. apply settle_failure_quiet; [done|]. intros e' [= <-]. by apply Hst. }
  intros used Hu. eapply quiet_bind; [by apply finish_quiet, settled_outcome_ok|]. intros _ _. by apply middling_ret.
Qed.

(** The task after it took its correlation id. *)
Lemma refresh_middling r :
  rf_query r = query → refresh_ok r → (∀ bs, backends cfg !! rf_group r = Some bs → bs ≠ []) →
  middling (count count_refresh;;
    emit_cache cfg (RefreshStarted id (rf_group r));;
    c ← gets cache;
    match c, backends cfg !! rf_group r with
    | Some _, Some bs =>
        refreshed ← refresh_upstream cfg w r bs;
        emit_cache cfg (RefreshCompleted id (rf_group r) refreshed)
    | _, _ =>
        emit_cache cfg (RefreshCompleted id (rf_group r) false);;
        drop_guard (rf_guard r)
    end) (λ _, True).
Proof.
  intros Er [_ Hst] Hb. eapply middling_bind; [apply middling_quiet, quiet_count|]. intros _ _.
  eapply middling_bind; [by apply middling_emit|]. intros _ _.
  eapply middling_bind; [apply middling_quiet, quiet_gets|]. intros c _.
  assert (Hd : middling (emit_cache cfg (RefreshCompleted id (rf_group r) false);; drop_guard (rf_guard r)) (λ _, True)).
  { eapply middling_bind; [by apply middling_emit|]. intros _ _. apply middling_quiet, drop_guard_quiet. }
  destruct c as [st|]; [|done]. destruct (backends cfg !! rf_group r) as [bs|]; [|done].
  eapply middling_bind; [by apply refresh_upstream_middling; [..|apply Hb]|]. intros b _. by apply middling_emit.
Qed.
End specs.

(** ** The whole of resolve *)

Section theorem.
Context `{WS : Watch State} {WL : WatchLaws State} {Backend RouteHook : Type}.

(** What [build] makes is sound. *)
Lemma build_engine_ok (b : ResolverBuilder (Backend:=Backend) (RouteHook:=RouteHook)) t parallelism :
  config_ok (rb_cache b) → (0 ≤ parallelism ≤ 2 ^ 61)%Z → clock_room t →
  (∀ p policy, rb_fake_ip b = Some (p, policy) → pool_sound p t) →
  ∃ s, build_state b t parallelism = Ret s ∧ engine_ok (CacheConfig.max_bytes (rb_cache b)) s.
Proof.
  intros Hc Hp Ht Hpool. unfold build_state.
  assert (Hfl : ∀ f, (if coalesce (rb_cache b) then Some flights_new else None) = Some f → flights_hold outcome_ok f).
  { destruct (coalesce (rb_cache b)); [|done]. intros f [= <-]. apply flights_hold_new. }
  destruct (store_enabled (rb_cache b)); cbn [mbind run_bind].
  - destruct (store_new_ok (CacheConfig.max_bytes (rb_cache b)) (CacheConfig.shards (rb_cache b)) parallelism)
      as (st & -> & Hst & Hv); [by apply Hc|done| |].
    { pose proof (co_shards _ Hc) as Hn. destruct (CacheConfig.shards (rb_cache b)) as [n|]; [|done]. destruct (Hn n eq_refl). lia. }
    cbn [mbind run_bind]. eexists. split; [done|]. split; cbn; try done; [by intros ? [= <-]|].
    intros ? [= <-]. eapply Forall_impl; [exact Hv|]. intros sh E. unfold shard_holds. rewrite E. apply map_Forall_empty.
  - eexists. split; [done|]. by split.
Qed.

Lemma build_cfg_ok (b : ResolverBuilder (Backend:=Backend) (RouteHook:=RouteHook)) :
  config_ok (rb_cache b) → is_ttl (tb_min (cfg_positive (rb_cache b))) → is_ttl (tb_min (cfg_negative (rb_cache b))) →
  (∀ p, CacheConfig.serve_stale (rb_cache b) = Some p → (failure_recheck p ≤ from_secs u32_max)%Z ∧ is_ttl (reply_ttl p)) →
  cfg_ok (build_config b).
Proof.
  intros Hc Hp Hn Hs. split; cbn.
  - split; [by apply ttl_policy_ok|]. by split.
  - pose proof (co_failure _ Hc) as Hf. intros p. destruct (store_enabled _); [|done]. intros E. by rewrite E in Hf.
  - pose proof (co_stale _ Hc) as Hst. intros p E. destruct (Hs p E) as [H1 H2]. rewrite E in Hst. cbn in Hst.
    unfold stale_ok in Hst. split; [|done]. split; [|done].
    destruct Hst as (_ & _ & Hst). unfold MIN_STALE_RECHECK, from_secs, nanos_per_sec in *. lia.
Qed.

(** The whole pipeline, composed. *)
Lemma resolve_run (cfg : Config Backend RouteHook) (w : World Backend RouteHook) max_bytes hang fuel query s :
  engine_ok max_bytes s → cfg_ok cfg → 0 < fuel → wf_message query →
  let id := next_correlation_id s in
  world_ok w max_bytes id hang →
  (∃ r s' mid, resolve cfg w fuel query s = Ret (r, s') ∧ engine_ok max_bytes s' ∧ result_ok query r ∧
     trace id s' = trace id s ++
       heard (observability_sink cfg) (Observe (received id (head (questions query))) :: mid ++ [terminal id r]) ∧
     Forall is_middle mid) ∨
  (resolve cfg w fuel query s = Hang ∧ hang).
Proof.
  intros Hs Hcfg Hf Hq id Hw.
  set (s1 := set_next_id s (wrapping_add 64 id 1)). assert (Hs1 : engine_ok max_bytes s1) by by apply (ok_frame _ s).
  assert (H : spec max_bytes id hang (observability_sink cfg)
    (emit cfg (received id (head (questions query)));;
     match questions query with
     | [] => fail cfg id NoRoute
     | question :: _ =>
         local ← answer_locally cfg query id;
         match local with
         | Some r => mret r
         | None =>
             selected ← select_backends cfg w question id;
             match selected with
             | Err error => fail cfg id error
             | Ok (group, index, bs) => serve cfg w fuel query question group index bs id
             end
         end
     end) (λ r l, ∃ l', l = Observe (received id (head (questions query))) :: l' ∧ replied id query r l')).
  { apply emit_then; [done|]. eapply spec_mono; [|intros a l H; exists l; split; [done|exact H]].
    destruct (questions query) as [|q qs]; [by apply fail_spec|].
    eapply spec_bind; [by apply answer_locally_spec|]. intros [r|] l Hr; [apply spec_ret; by rewrite app_nil_r|].
    eapply spec_mono; [|intros a l'; by apply (replied_app id query a l l')].
    eapply (middling_then _ _ _ _ _ _ _ _ (λ r, r)); [by apply select_backends_middling|].
    intros [[[group index] bs]|e] Hb; [|by apply fail_spec]. apply serve_spec; try done. intros ->. lia. }
  destruct (H s1 Hs1) as [(r & s' & l & E & Hs' & Ht & l' & -> & mid & -> & Hm & Ha)|[E Hh]].
  - left. exists r, s', mid. split; [exact E|]. by split_and!.
  - right. by split.
Qed.

(** A background refresh of a sound state leaves it sound. *)
Lemma refresh_run (cfg : Config Backend RouteHook) (w : World Backend RouteHook) max_bytes hang r s :
  engine_ok max_bytes s → cfg_ok cfg → refresh_ok r →
  (∀ bs, backends cfg !! rf_group r = Some bs → bs ≠ []) → world_ok w max_bytes (next_correlation_id s) hang →
  (∃ s', refresh cfg w r s = Ret ((), s') ∧ engine_ok max_bytes s') ∨ (refresh cfg w r s = Hang ∧ hang).
Proof.
  intros Hs Hc Hr Hb Hw. set (id := next_correlation_id s) in *.
  set (s1 := set_next_id s (wrapping_add 64 id 1)). assert (Hs1 : engine_ok max_bytes s1) by by apply (ok_frame _ s).
  destruct (refresh_middling cfg w max_bytes id hang Hc Hw (rf_query r) (proj1 Hr) r eq_refl Hr Hb s1 Hs1)
    as [([] & s' & l & E & Hs' & _)|[E Hh]]; [left; by exists s'|by right].
Qed.

(** C15: Every query is resolved soundly and accounted for. The configuration is
    any, with a sink or without one, whose minimum TTLs and stale reply TTL are
    below 2^31 and whose failure recheck is at most 2^32-1 seconds (the builder
    takes larger ones, on which [resolve] can panic: [recheck_overflow]); the
    world keeps states sound and its backends return replies to what they are
    asked. From a sound state, [resolve] never panics on a well-formed query. It
    returns, or, where [hang] allows that followers are abandoned again and
    again, may keep waiting on flights whose leaders are. When it returns, the
    state is sound; an answer, wherever it came from (Fake IP, the cache, a stale
    or failed entry, another query's flight or an upstream), is well formed and
    answers this very query under its id, with an OPT record exactly as the query
    asks; and the events a sink gets under its correlation id are one
    [QueryReceived], intermediate steps, and one terminal event: [Completed] with
    the answer's RCODE, or [Failed] with the error's kind. Without a sink there
    are none. *)
Theorem resolve_sound (cfg : Config Backend RouteHook) (w : World Backend RouteHook) max_bytes hang fuel query s :
  engine_ok max_bytes s → cfg_ok cfg → 0 < fuel → wf_message query →
  let id := next_correlation_id s in
  world_ok w max_bytes id hang →
  (∃ r s' mid, resolve cfg w fuel query s = Ret (r, s') ∧ engine_ok max_bytes s' ∧ result_ok query r ∧
     trace id s' = trace id s ++
       heard (observability_sink cfg) (Observe (received id (head (questions query))) :: mid ++ [terminal id r]) ∧
     Forall is_middle mid) ∨
  (resolve cfg w fuel query s = Hang ∧ hang).
Proof. exact (resolve_run cfg w max_bytes hang fuel query s). Qed.
End theorem.

(** ** A concrete resolver *)

Section example.
#[local] Instance example_watch : Watch State := counted_watch State.
#[local] Instance example_laws : WatchLaws State := counted_watch_laws State.

(** A backend that times out ([false]) or answers the query. *)
Definition example_reply (b : bool) (query : Message) : Result Error Message :=
  if b then Ok (for_query query sample_answer) else Err Timeout.

Definition example_world : World bool unit :=
  mkWorld (λ _, 0%Z) (λ _, 0%Z) store_sizes true (λ b q s, Ret (example_reply b q, s))
    (λ _ _ _ s, Ret (Ok None, s)) (λ _ _ s, Ret (Some (WDone (Failed Timeout)), s)).

(** One group with two backends, and everything switched on. *)
Definition resolver_with {B} (b1 b2 : B) : ResolverBuilder (Backend:=B) (RouteHook:=unit) :=
  set_sink (set_builder_cache (add_backend (add_backend
    (resolver_builder (set_default_group builder "up"%string)) "up"%string b1) "up"%string b2)
    (config_failure_cache (config_serve_stale (config_max_bytes config_new 200000) (Some stale_new)) (Some failure_new))).

Definition example_resolver : ResolverBuilder (Backend:=bool) (RouteHook:=unit) := resolver_with false true.

Definition example_config : Config bool unit := build_config example_resolver.

Definition example_state : St :=
  match build_state example_resolver 1000 1 with
  | Ret s => s
  | _ => mkSt 0 None [] 0 None (mkQueryCounters 0 0 0 0 0 0) None 1 [] []
  end.

Lemma example_quiet {A} max_bytes id hang (a : A) (P : A → Prop) : P a → quiet max_bytes id hang (λ s, Ret (a, s)) P.
Proof. intros H. by apply (spec_ret max_bytes id hang true a (λ a l, l = [] ∧ P a)). Qed.

Lemma example_world_ok max_bytes id hang : world_ok example_world max_bytes id hang.
Proof.
  split.
  - apply store_sizes_ok.
  - intros b q Hq. apply example_quiet. intros m. destruct b; cbn; [intros [= <-]|done].
    apply reply_for_query; [exact Hq|split; [apply wf_sample_answer|reflexivity]].
  - intros h q g. by apply example_quiet.
  - intros c t. apply example_quiet. split_and!; [done|done|by intros o [= <-]].
Qed.

Lemma config_with_ok {B} (b1 b2 : B) : cfg_ok (build_config (resolver_with b1 b2)).
Proof.
  split.
  - repeat split; vm_compute; congruence.
  - intros p Hp. vm_compute in Hp. injection Hp as <-. split; vm_compute; split; congruence.
  - intros p Hp. vm_compute in Hp. injection Hp as <-. repeat split; vm_compute; congruence.
Qed.

Lemma example_config_ok : cfg_ok example_config.
Proof. apply config_with_ok. Qed.

(** The state after [build] is sound. *)
Lemma example_engine_ok : engine_ok 200000 example_state.
Proof.
  unfold example_state. destruct (build_engine_ok example_resolver 1000 1) as (s & -> & Hs); [|lia|apply sample_room|done|exact Hs].
  split; cbn; try done; repeat split; vm_compute; congruence.
Qed.

(** The resolver as it is by default, without a sink. *)
Definition plain_resolver : ResolverBuilder (Backend:=bool) (RouteHook:=unit) :=
  add_backend (resolver_builder (set_default_group builder "up"%string)) "up"%string true.

Definition plain_state : St := match build_state plain_resolver 1000 1 with Ret s => s | _ => example_state end.

Lemma plain_config_ok : cfg_ok (build_config plain_resolver).
Proof. split; [repeat split; vm_compute; congruence|intros p Hp; vm_compute in Hp; discriminate Hp..]. Qed.

Lemma plain_engine_ok : engine_ok (CacheConfig.max_bytes (rb_cache plain_resolver)) plain_state.
Proof.
  unfold plain_state. destruct (build_engine_ok plain_resolver 1000 1) as (s & -> & Hs); [|lia|apply sample_room|done|exact Hs].
  split; cbn; try done; repeat split; vm_compute; congruence.
Qed.

Lemma resolve_sound_witness :
  (∃ r s' mid, resolve example_config example_world 1 example_query example_state = Ret (r, s') ∧
    result_ok example_query r ∧
    trace 1 s' = Observe (received 1 (head (questions example_query))) :: mid ++ [terminal 1 r]) ∧
  ∃ r s', resolve (build_config plain_resolver) example_world 1 example_query plain_state = Ret (r, s') ∧
    result_ok example_query r ∧ trace 1 s' = [].
Proof.
  split.
  - destruct (resolve_sound example_config example_world 200000 False 1 example_query example_state
      example_engine_ok example_config_ok ltac:(lia) wf_example_query (example_world_ok _ _ _)) as [(r & s' & mid & E & _ & Ha & Ht & _)|[_ []]].
    exists r, s', mid. exact (conj E (conj Ha Ht)).
  - destruct (resolve_sound (build_config plain_resolver) example_world _ False 1 example_query plain_state
      plain_engine_ok plain_config_ok ltac:(lia) wf_example_query (example_world_ok _ _ _)) as [(r & s' & mid & E & _ & Ha & Ht & _)|[_ []]].
    exists r, s'. exact (conj E (conj Ha Ht)).
Defined.
End example.
