(* ===== verification/EngineProps.v ===== *)
(** * Properties of the resolver

    Routing and cache-key groups, failover order, serving without the
    upstream, stale answers and the one panic a configuration can cause, with
    the concrete resolver the witnesses run. *)

From stdpp Require Import base numbers list gmap strings sorting.
From S2P Require Import Prelude CoreError Name RecordData Edns Header Message Matcher Time.
From S2P Require Import FakeIpFamily FakeIpPool CacheConfig StoreKey Entry Shard ShardOps Store Flight Response Reverse FakeIpAnswer.
From S2P Require Import EngineState Reply Upstreams Resolve EngineLogic ResolveSpec.

Section props.
Context `{WS : Watch State} {WL : WatchLaws State} {Backend RouteHook : Type}.
Implicit Types (cfg : Config Backend RouteHook) (w : World Backend RouteHook).
Notation Builder := (ResolverBuilder (Backend:=Backend) (RouteHook:=RouteHook)).

(** ** Group numbers *)

Lemma zip_seq_lookup (l : list Group) (i : Z) g n :
  (g, n) ∈ zip l (seqZ i (Z.of_nat (length l))) → (i ≤ n < i + Z.of_nat (length l))%Z ∧ l !! Z.to_nat (n - i) = Some g.
Proof.
  revert i. induction l as [|x l IH]; intros i; cbn [length]; [by intros ?%not_elem_of_nil|].
  rewrite seqZ_cons by lia. cbn [zip zip_with]. replace (Z.pred (Z.of_nat (S (length l)))) with (Z.of_nat (length l)) by lia.
  rewrite elem_of_cons. intros [[= -> ->]|H].
  - split; [lia|]. by rewrite Z.sub_diag.
  - apply IH in H as [H1 H2]. split; [lia|]. replace (Z.to_nat (n - i)) with (S (Z.to_nat (n - Z.succ i))) by lia. done.
Qed.

Lemma sorted_groups_elem (b : Builder) g : g ∈ sorted_groups b ↔ is_Some (rb_backends b !! g).
Proof.
  unfold sorted_groups. rewrite (merge_sort_Permutation group_le), list_elem_of_fmap. split.
  - intros ([g' bs] & -> & H%elem_of_map_to_list). by exists bs.
  - intros [bs H]. exists (g, bs). split; [done|]. by apply elem_of_map_to_list.
Qed.

Lemma sorted_groups_nodup (b : Builder) : NoDup (sorted_groups b).
Proof. unfold sorted_groups. rewrite (merge_sort_Permutation group_le). apply NoDup_fst_map_to_list. Qed.

Lemma group_indices_spec (b : Builder) g n :
  group_indices b !! g = Some n ↔ (0 ≤ n)%Z ∧ sorted_groups b !! Z.to_nat n = Some g.
Proof.
  unfold group_indices. assert (Hnd : NoDup (zip (sorted_groups b) (seqZ 0 (Z.of_nat (length (sorted_groups b))))).*1).
  { rewrite fst_zip by (rewrite length_seqZ; lia). apply sorted_groups_nodup. }
  rewrite <-elem_of_list_to_map by done. split.
  - intros [H1 H2]%zip_seq_lookup. rewrite Z.sub_0_r in H2. split; [lia|done].
  - intros [H1 H2]. apply list_elem_of_lookup_2 with (Z.to_nat n). rewrite lookup_zip_with, H2. cbn.
    rewrite (lookup_seqZ_lt 0 _ (Z.to_nat n)) by (apply lookup_lt_Some in H2; lia). cbn. do 2 f_equal. lia.
Qed.

Lemma key_labels_prefix ls bytes k : key_labels ls bytes = Some k → ∃ rest, k = bytes ++ rest.
Proof.
  revert bytes. induction ls as [|l ls IH]; intros bytes; cbn [key_labels].
  - intros [= <-]. exists []. by rewrite app_nil_r.
  - repeat (destruct (decide _); [done|]). intros [rest ->]%IH. eexists. by rewrite <-!app_assoc.
Qed.

(** A key begins with its group's number. *)
Lemma key_new_group n t c rd dn q k : key_new n t c rd dn q = Some k → take 4 k = to_be 4 n.
Proof.
  unfold key_new. destruct (key_labels _ _) as [bytes|] eqn:E; [|done]. intros [= <-].
  apply key_labels_prefix in E as [rest ->]. rewrite <-!app_assoc. apply take_app_length'. by rewrite length_to_be.
Qed.

(** Groups never share a cache key. [build] numbers exactly the registered
    groups, each with a different number below their count, so two queries
    routed to different groups never have equal cache keys. *)
Theorem group_index_exact (b : Builder) g1 g2 n t1 t2 c1 c2 rd1 rd2 dn1 dn2 q1 q2 k :
  (is_Some (group_indices b !! g1) ↔ is_Some (rb_backends b !! g1)) ∧
  (group_indices b !! g1 = Some n → (0 ≤ n < Z.of_nat (size (rb_backends b)))%Z) ∧
  (Z.of_nat (size (rb_backends b)) ≤ u32_max →
   ∀ n1 n2, group_indices b !! g1 = Some n1 → group_indices b !! g2 = Some n2 →
   key_new n1 t1 c1 rd1 dn1 q1 = Some k → key_new n2 t2 c2 rd2 dn2 q2 = Some k → g1 = g2)%Z.
Proof.
  assert (Hlen : length (sorted_groups b) = size (rb_backends b)).
  { unfold sorted_groups. rewrite (merge_sort_Permutation group_le), length_fmap. apply length_map_to_list. }
  assert (Hlt : ∀ g n, group_indices b !! g = Some n → (0 ≤ n < Z.of_nat (size (rb_backends b)))%Z).
  { intros g m [H0 H]%group_indices_spec. apply lookup_lt_Some in H. lia. }
  split; [|split; [by apply Hlt|]].
  - rewrite <-sorted_groups_elem. split.
    + intros [m [_ H]%group_indices_spec]. by eapply list_elem_of_lookup_2.
    + intros [i H]%list_elem_of_lookup_1. exists (Z.of_nat i). apply group_indices_spec. split; [lia|].
      by rewrite Nat2Z.id.
  - intros Hmax n1 n2 H1 H2 K1 K2. pose proof (Hlt _ _ H1) as L1. pose proof (Hlt _ _ H2) as L2.
    assert (n1 = n2) as ->.
    { apply (to_be_inj 4); [cbn; lia..|]. by rewrite <-(key_new_group _ _ _ _ _ _ _ K1), <-(key_new_group _ _ _ _ _ _ _ K2). }
    apply group_indices_spec in H1 as [_ H1], H2 as [_ H2]. congruence.
Qed.

(** ** Failover *)

(** A reply after which the next backend is tried. *)
Definition fails_over (r : Result Error Message) : bool :=
  match r with Ok _ => false | Err e => is_retryable e end.

Definition outcome_kind (r : Result Error Message) : UpstreamObserveOutcome :=
  match r with Ok _ => Success | Err e => if is_retryable e then RetryableFailure else Failure end.

(** The events of asking backends from [index] on and getting [rs]. *)
Fixpoint attempts (id : Z) (group : Group) (index : nat) (rs : list (Result Error Message)) : list Event :=
  match rs with
  | [] => []
  | r :: rs => Observe (UpstreamAttempt id group index) ::
      Observe (UpstreamOutcome id group index (outcome_kind r)) :: attempts id group (S index) rs
  end.

Lemma failover_from cfg w max_bytes id query group bs reply index last :
  (bs = [] → last ≠ None) →
  (∀ b, quiet max_bytes id False (backend_resolve w b query) (λ r, r = reply b)) →
  spec max_bytes id False (observability_sink cfg) (failover cfg w query group (Some id) bs index last) (λ r l,
    match bs, last with
    | [], Some e => r = Err e ∧ l = []
    | _, _ => ∃ pre b post, bs = pre ++ b :: post ∧ Forall (λ b, fails_over (reply b) = true) pre ∧
        (fails_over (reply b) = true → post = []) ∧ r = reply b ∧ l = attempts id group index (map reply (pre ++ [b]))
    end).
Proof.
  intros Hlast Hr. revert index last Hlast. induction bs as [|b bs IH]; intros index last Hlast; cbn [failover].
  { destruct last as [e|]; [by apply spec_ret|]. by destruct (Hlast eq_refl). }
  apply emit_then; [done..|]. eapply quiet_bind; [apply Hr|]. intros r ->.
  assert (Hend : fails_over (reply b) = false → ∀ l, l = attempts id group index [reply b] → ∃ pre b' post,
    b :: bs = pre ++ b' :: post ∧ Forall (λ b, fails_over (reply b) = true) pre ∧
    (fails_over (reply b') = true → post = []) ∧ reply b = reply b' ∧ l = attempts id group index (map reply (pre ++ [b']))).
  { intros Hf l ->. exists [], b, bs. split_and!; [done|by apply Forall_nil|by rewrite Hf|done|done]. }
  destruct (reply b) as [m|e] eqn:Eb; [|destruct (is_retryable e) eqn:Ee].
  - apply emit_then; [done..|]. apply spec_ret. by apply Hend.
  - apply emit_then; [done..|]. eapply spec_mono; [by apply IH|]. intros r l H. cbn in Hend.
    destruct bs as [|b' bs].
    + destruct H as [-> ->]. exists [], b, []. split_and!; [done|by apply Forall_nil|done|by rewrite Eb|].
      cbn. rewrite Eb. cbn. by rewrite Ee.
    + destruct H as (pre & c & post & -> & Hp & Hq & -> & ->). exists (b :: pre), c, post.
      split_and!; [done| |done|done|cbn; rewrite Eb; cbn; by rewrite Ee].
      constructor; [by rewrite Eb|done].
  - apply emit_then; [done..|]. apply spec_ret. apply Hend; [done|]. cbn. by rewrite Ee.
Qed.

(** C17: Failover order. Over a non-empty group whose backends each have a
    reply, the result is the reply of the first backend, in registration
    order, that does not fail with a retryable error, or of the last backend
    when all do; exactly the backends up to that one are asked, once each, and
    every attempt and its outcome is reported to the sink, if there is one. *)
Theorem failover_order cfg w max_bytes id query group bs reply s :
  engine_ok max_bytes s → bs ≠ [] →
  (∀ b, quiet max_bytes id False (backend_resolve w b query) (λ r, r = reply b)) →
  ∃ pre b post s', bs = pre ++ b :: post ∧ Forall (λ b, fails_over (reply b) = true) pre ∧
    (fails_over (reply b) = true → post = []) ∧
    failover cfg w query group (Some id) bs 0 None s = Ret (reply b, s') ∧
    trace id s' = trace id s ++ heard (observability_sink cfg) (attempts id group 0 (map reply (pre ++ [b]))).
Proof.
  intros Hs Hb Hr. destruct (failover_from cfg w max_bytes id query group bs reply 0 None (λ H, False_ind _ (Hb H)) Hr s Hs)
    as [(r & s' & l & E & _ & Ht & H)|[_ []]].
  destruct bs as [|b0 bs]; [done|]. destruct H as (pre & b & post & Hbs & Hp & Hq & -> & ->).
  exists pre, b, post, s'. by split_and!.
Qed.

(** ** Serving without the upstream *)

(** What a found entry is served as; [None] goes upstream. *)
Definition served cfg (query : Message) (f : Found) (t : Z) : option (Result Error Message) :=
  match f with
  | Fresh e => Some (Ok (hit_answer query e t))
  | FoundFailure e =>
      Some (match f ← failure e; fs_error f with Some error => Err error | None => Ok (hit_answer query e t) end)
  | StaleNow e => Some (Ok (stale_answer cfg query e))
  | Refreshing _ _ => None
  end.

Lemma on_shard_get st hash key t max_bytes :
  store_ok max_bytes st → ∃ st', store_get st hash key t = Ret (Store.store_answer st hash key t, st') ∧ store_ok max_bytes st'.
Proof.
  intros Hst. destruct (on_shard_ok max_bytes st hash (λ s, get s hash key t) (λ _ _ _, True) Hst)
    as (s & a & s' & _ & _ & E & _ & Hok).
  - intros s Hs. destruct (get_ok s hash key t Hs) as (s' & ? & ? & ? & ?). eauto 10.
  - unfold Store.store_answer, store_get. rewrite E. eauto.
Qed.

(** The computations after a hit return whatever the world does. *)
Definition returns {A} (m : M A) : Prop := ∀ s, ∃ a s', m s = Ret (a, s') ∧ cache_epoch s' = cache_epoch s.

Lemma returns_bind {A B} (m : M A) (f : A → M B) : returns m → (∀ a, returns (f a)) → returns (m ≫= f).
Proof.
  intros H Hf s. unfold mbind, m_bind. destruct (H s) as (a & s1 & -> & E1). cbn. destruct (Hf a s1) as (b & s2 & -> & E2).
  exists b, s2. split; [done|]. congruence.
Qed.
Lemma returns_ret {A} (a : A) : returns (mret a).
Proof. intros s. by exists a, s. Qed.
Lemma returns_gets {A} (f : St → A) : returns (gets f).
Proof. intros s. by exists (f s), s. Qed.
Lemma returns_modify f : (∀ s, cache_epoch (f s) = cache_epoch s) → returns (modify f).
Proof. intros H s. exists (), (f s). by split. Qed.
Lemma returns_event cfg e : returns (emit_event cfg e).
Proof. apply returns_modify. intros s. by destruct (observability_sink cfg). Qed.

Lemma maybe_prefetch_returns w p query group key hash cached t : returns (maybe_prefetch w p query group key hash cached t).
Proof.
  unfold maybe_prefetch, count_entry_hit, task_room, reap, claim_refresh, lead_refresh, spawn, alter_cells, on_flights.
  repeat first [apply returns_bind; [|intros ?] | apply returns_ret | apply returns_gets
    | apply returns_modify; done | match goal with
      | |- returns (if ?b then _ else _) => destruct b
      | |- returns (match ?x with _ => _ end) => destruct x
      end].
Qed.

Lemma complete_run cfg id answer s :
  ∃ s', complete cfg id answer s = Ret (Ok answer, s') ∧ cache_epoch s' = cache_epoch s.
Proof.
  unfold complete, emit, mbind, m_bind. destruct (returns_event cfg (Observe (Completed id (rcode (header answer)))) s)
    as ([] & s' & -> & E). by exists s'.
Qed.

Lemma fail_run cfg id e s : ∃ s', fail cfg id e s = Ret (Err e, s') ∧ cache_epoch s' = cache_epoch s.
Proof.
  unfold fail, emit, mbind, m_bind. destruct (returns_event cfg (Observe (EFailed id (observe_failure e))) s)
    as ([] & s' & -> & E). by exists s'.
Qed.

(** Running a step that returns, then the rest. *)
Lemma then_run {A B} (m : M A) (f : A → M B) s (P : B → St → Prop) :
  returns m → (∀ a s', cache_epoch s' = cache_epoch s → ∃ b s2, f a s' = Ret (b, s2) ∧ P b s2) →
  ∃ b s2, (m ≫= f) s = Ret (b, s2) ∧ P b s2.
Proof. intros H Hf. unfold mbind, m_bind. destruct (H s) as (a & s1 & -> & E). by apply Hf. Qed.

Lemma count_cache_hit_returns cfg id group : returns (count_cache_hit cfg id group).
Proof. apply returns_bind; [by apply returns_modify|]. intros _. apply returns_event. Qed.

(** A remembered answer is served without the upstream. When the store
    holds, under the query's key, a fresh answer, a failure whose backoff is
    not over, or a stale answer within its recheck window, [serve] returns it
    (counted down, replayed, or marked stale) whatever the hook, the backends
    and the other queries would do: nothing of the world is asked and the
    cache epoch stays. *)
Theorem cached_is_local cfg w max_bytes fuel query question group index bs id s st key r :
  engine_ok max_bytes s → cache s = Some st → query_uses_cache query = true →
  key_new index (qtype question) (qclass question) (recursion_desired (header query)) (query_dnssec_ok query)
    (q_name question) = Some key →
  served cfg query (classify cfg (Store.store_answer st (store_hash w key) key (now s)) (cells_of s) (now s)) (now s) = Some r →
  ∃ s', serve cfg w fuel query question group index bs id s = Ret (r, s') ∧ cache_epoch s' = cache_epoch s.
Proof.
  intros Hs Hc Hu Hk Hserved. destruct (on_shard_get st (store_hash w key) key (now s) max_bytes) as (st' & Eg & _); [by apply Hs|].
  set (s1 := set_cache s (Some st')).
  assert (H : ∃ s', match classify cfg (Store.store_answer st (store_hash w key) key (now s)) (cells_of s) (now s) with
    | Fresh cached =>
        count_cache_hit cfg id group;;
        r ← complete cfg id (hit_answer query cached (now s));
        prefetch_hit cfg w query group (Some (key, store_hash w key)) cached (now s);;
        mret r
    | FoundFailure cached => count_cache_hit cfg id group;; serve_failure cfg query cached id group (now s)
    | StaleNow cached => count_cache_hit cfg id group;; Reply.serve_stale cfg query cached id group
    | Refreshing stale backoff =>
        miss cfg w fuel query group bs id (Some key) (Some (key, store_hash w key)) (now s) stale backoff
    end s1 = Ret (r, s') ∧ cache_epoch s' = cache_epoch s).
  { assert (Hx : ∀ m : M (Result Error Message),
      (∃ b s2, m s1 = Ret (b, s2) ∧ (b = r ∧ cache_epoch s2 = cache_epoch s)) → ∃ s', m s1 = Ret (r, s') ∧ cache_epoch s' = cache_epoch s).
    { intros m (b & s2 & E & -> & E2). eauto. }
    destruct (classify _ _ _ _) as [e|e|e|o p]; cbn [served] in Hserved; try discriminate Hserved; injection Hserved as <-; apply Hx;
      (apply then_run; [apply count_cache_hit_returns|]; intros _ s2 E2; change (cache_epoch s1) with (cache_epoch s) in E2).
    - unfold mbind at 1, m_bind at 1. destruct (complete_run cfg id (hit_answer query e (now s)) s2) as (s3 & -> & E3).
      cbn [mbind run_bind]. apply then_run; [|intros _ s4 E4; eexists _, s4; split; [done|split; [done|congruence]]].
      unfold prefetch_hit. destruct (prefetch cfg); [apply maybe_prefetch_returns|apply returns_ret].
    - unfold serve_failure. apply then_run; [by apply returns_modify|]. intros _ s3 E3.
      apply then_run; [apply returns_event|]. intros _ s4 E4. destruct (failure e ≫= _) as [error|].
      + destruct (fail_run cfg id error s4) as (s5 & -> & E5). eexists _, s5. split; [done|]. split; [done|congruence].
      + destruct (complete_run cfg id (hit_answer query e (now s)) s4) as (s5 & -> & E5). eexists _, s5. split; [done|]. split; [done|congruence].
    - unfold Reply.serve_stale. apply then_run; [by apply returns_modify|]. intros _ s3 E3.
      apply then_run; [apply returns_event|]. intros _ s4 E4.
      destruct (complete_run cfg id (stale_answer cfg query e) s4) as (s5 & -> & E5). eexists _, s5. split; [done|]. split; [done|congruence]. }
  destruct H as (s' & H & E'). exists s'. split; [|done]. rewrite <-H. clear H.
  unfold serve, query_key, stored_key, look, lookup, on_store, gets, mbind, m_bind, mret, m_ret.
  rewrite Hc. rewrite bool_decide_true by by eexists. cbn [mbind run_bind orb andb]. rewrite Hu, Hk. cbn [mbind run_bind].
  rewrite Hc. cbn [mbind run_bind]. rewrite Hc, Eg. cbn [mbind run_bind mjoin option_join]. done.
Qed.

(** ** Stale answers *)

(** A failure while a stale entry is held only marks that entry's cells. *)
Lemma settle_stale cfg w query result entry stored previous epoch s p :
  EngineState.serve_stale cfg = Some p → is_failure result = true →
  settle_failure cfg w query result (Some entry) stored previous epoch s =
    match checked_add (now s) (failure_recheck p) with
    | Some until => Ret (Some entry, set_atomics s (alter (λ c, defer_recheck entry c until) (cells entry) (atomics s)))
    | None => Panic
    end.
Proof.
  intros Hp Hf. unfold settle_failure. rewrite Hf. cbn [negb]. unfold gets, mbind, m_bind. cbn [mbind run_bind].
  rewrite Hp. unfold run, instant_add, alter_cells, modify, mret, m_ret. by destruct (checked_add _ _).
Qed.

(** A failed refresh is not retried at once. When going upstream failed
    while a stale entry was held, that entry is what is served; nothing is
    written over it, and until the recheck window is over every lookup that
    finds it within its stale window serves it without going upstream.
    Afterwards, unless another failure extended the window, the next lookup
    goes upstream again with the entry still at hand. *)
Theorem stale_deferred cfg w query result entry stored previous epoch s p c t :
  EngineState.serve_stale cfg = Some p → is_failure result = true → failure entry = None →
  atomics s !! cells entry = Some c → (0 ≤ recheck_after c)%Z →
  (inserted entry ≤ expires entry ≤ now s)%Z → (0 < failure_recheck p)%Z →
  (now s + failure_recheck p ≤ instant_max)%Z → (now s + failure_recheck p - inserted entry < u64_max)%Z →
  (now s ≤ t < stale_until entry)%Z →
  ∃ s', settle_failure cfg w query result (Some entry) stored previous epoch s = Ret (Some entry, s') ∧
    cache s' = cache s ∧ cache_epoch s' = cache_epoch s ∧
    classify cfg (Some entry) (cells_of s') t =
      (if bool_decide (t < now s + failure_recheck p)%Z || recheck_pending entry c t
       then StaleNow entry else Refreshing (Some entry) None).
Proof.
  intros Hp Hf Hn Hc Hr0 He Hr Hmax Hspan Ht. rewrite (settle_stale _ _ _ _ _ _ _ _ _ p) by done.
  unfold checked_add. rewrite decide_True by done. eexists. split; [done|]. split; [done|]. split; [done|].
  unfold classify. rewrite Hn, decide_False by lia. rewrite bool_decide_true by (rewrite Hp; by eexists).
  rewrite bool_decide_true by lia. cbn [andb]. unfold cells_of. cbn [atomics set_atomics].
  rewrite list_lookup_alter_eq, Hc. cbn [fmap option_fmap option_map default].
  unfold Datatypes.id. rewrite recheck_defer by (done || lia). done.
Qed.

(** A recheck window past the clock's range makes the failure of a refresh
    panic: [failure_recheck] is only bounded from below. *)
Lemma recheck_overflow cfg w query result entry stored previous epoch s d :
  EngineState.serve_stale cfg = Some (set_failure_recheck stale_new d) → is_failure result = true →
  (instant_max < now s + d)%Z →
  settle_failure cfg w query result (Some entry) stored previous epoch s = Panic.
Proof.
  intros Hp Hf Hd. rewrite (settle_stale _ _ _ _ _ _ _ _ _ _ Hp Hf). unfold checked_add. cbn.
  rewrite decide_False; [done|]. lia.
Qed.
End props.

(** ** Witnesses *)

Section witnesses.
#[local] Existing Instance example_watch.
#[local] Existing Instance example_laws.

Definition two_groups : ResolverBuilder (Backend:=bool) (RouteHook:=unit) :=
  add_backend (add_backend (resolver_builder builder) "b"%string true) "a"%string true.

Lemma group_index_exact_witness :
  group_indices two_groups !! "a"%string = Some 0%Z ∧ group_indices two_groups !! "b"%string = Some 1%Z ∧
  (∀ k k', key_new 0 TA In true false example_name = Some k → key_new 1 TA In true false example_name = Some k' → k ≠ k').
Proof.
  assert (Ha : group_indices two_groups !! "a"%string = Some 0%Z) by (vm_compute; reflexivity).
  assert (Hb : group_indices two_groups !! "b"%string = Some 1%Z) by (vm_compute; reflexivity).
  split; [exact Ha|]. split; [exact Hb|]. intros k k' K1 K2 <-.
  destruct (group_index_exact two_groups "a"%string "b"%string 0 TA TA In In true true false false example_name example_name k)
    as (_ & _ & H). discriminate (H ltac:(vm_compute; congruence) _ _ Ha Hb K1 K2).
Defined.

Lemma failover_order_witness :
  ∃ s', failover example_config example_world example_query "up"%string (Some 1%Z) [false; true] 0 None example_state =
      Ret (Ok (for_query example_query sample_answer), s') ∧
    trace 1 s' = attempts 1 "up"%string 0 [Err Timeout; Ok (for_query example_query sample_answer)].
Proof.
  destruct (failover_order example_config example_world 200000 1 example_query "up"%string [false; true]
    (λ b, example_reply b example_query) example_state example_engine_ok ltac:(discriminate) (λ b, example_quiet _ _ _ _ _ eq_refl))
    as (pre & b & post & s' & Hbs & Hp & Hq & E & Ht).
  destruct pre as [|b1 [|b2 pre]].
  - injection Hbs as <- <-. discriminate (Hq eq_refl).
  - injection Hbs as <- <- <-. exists s'. exact (conj E Ht).
  - injection Hbs as <- <- Hbs. destruct pre; discriminate Hbs.
Defined.

(** The example resolver seven seconds after it resolved the query. *)
Definition warm_state : St :=
  match resolve example_config example_world 1 example_query example_state with
  | Ret (_, s) => mkSt (now s + from_secs 7) (cache s) (atomics s) (cache_epoch s) (flights s) (counters s) (fake_ip s)
                    (next_correlation_id s) (background s) (events s)
  | _ => example_state
  end.

Lemma warm_engine_ok : engine_ok 200000 warm_state.
Proof.
  unfold warm_state.
  destruct (resolve_run example_config example_world 200000 False 1 example_query example_state
    example_engine_ok example_config_ok ltac:(lia) wf_example_query (example_world_ok _ _ _)) as [(r & s' & mid & E & Hs & _)|[_ []]].
  rewrite E. assert (now s' = 1000%Z) as H.
  { assert (match resolve example_config example_world 1 example_query example_state with Ret (_, s) => now s | _ => 0 end = 1000)%Z as H
      by (vm_compute; reflexivity). by rewrite E in H. }
  apply ok_later; [exact Hs|rewrite H; vm_compute; congruence|rewrite H; vm_compute; split; congruence].
Qed.

Definition warm_store : Store := match cache warm_state with Some st => st | None => mkStore [] 0 end.
Definition example_key : list Z := default [] (key_new 0 TA In true true example_name).
Definition warm_served : option (Result Error Message) :=
  served example_config example_query (classify example_config
    (Store.store_answer warm_store 0 example_key (now warm_state)) (cells_of warm_state) (now warm_state)) (now warm_state).

Lemma cached_is_local_witness :
  ∃ answer s', serve example_config example_world 1 example_query (mkQuestion example_name TA In) "up"%string 0 [] 2 warm_state =
    Ret (Ok answer, s') ∧ ttls answer = [53]%Z.
Proof.
  assert (H : match warm_served with Some (Ok a) => ttls a = [53]%Z | _ => False end) by (vm_compute; reflexivity).
  destruct warm_served as [[answer|e]|] eqn:Es; [|destruct H..]. exists answer.
  destruct (cached_is_local example_config example_world 200000 1 example_query (mkQuestion example_name TA In) "up"%string 0
    [] 2 warm_state warm_store example_key (Ok answer) warm_engine_ok ltac:(vm_compute; reflexivity)
    ltac:(vm_compute; reflexivity) ltac:(vm_compute; reflexivity) Es) as (s' & E & _).
  exists s'. exact (conj E H).
Defined.

(** A stale answer held by a query whose refresh failed. *)
Definition held_entry : CachedAnswer := mkAnswer sample_answer 1000 2000 (from_secs 3600) None 0.
Definition held_state : St :=
  mkSt 5000 None [new_cells] 0 None (mkQueryCounters 0 0 0 0 0 0) None 1 [] [].

Lemma stale_deferred_witness :
  ∃ s', settle_failure example_config example_world example_query (Err Timeout) (Some held_entry) None None 0 held_state =
      Ret (Some held_entry, s') ∧
    classify example_config (Some held_entry) (cells_of s') (from_secs 20) = StaleNow held_entry.
Proof.
  destruct (stale_deferred example_config example_world example_query (Err Timeout) held_entry None None 0 held_state
    stale_new new_cells (from_secs 20) eq_refl eq_refl eq_refl eq_refl) as (s' & E & _ & _ & H).
  - vm_compute. congruence.
  - vm_compute. split; congruence.
  - vm_compute. congruence.
  - vm_compute. congruence.
  - vm_compute. congruence.
  - vm_compute. split; congruence.
  - exists s'. split; [exact E|]. refine (eq_trans H _). vm_compute. reflexivity.
Defined.
End witnesses.
