(* ===== verification/PurgeRace.v ===== *)
(** * Purging against queries in flight

    Models the cache epoch of [crates/dns-lattice/src/engine.rs] under
    concurrency, with every lock section a step of its own: an upstream call
    loads the epoch before it starts ([query_upstream]'s caller) and its answer
    is inserted under its shard's lock only if the epoch is still the same; a
    purge bumps the epoch and then visits the shards one lock at a time
    ([clear_cache], [purge], [purge_subtree]). Everything may interleave. *)

From stdpp Require Import base numbers list gmap.
From S2P Require Import Prelude CoreError Name RecordData Message CacheConfig StoreKey Entry Shard.
From S2P Require Import ShardLists ShardInv ShardEvict ShardOps Store.

(** What a purge removes. *)
Inductive Purge : Type :=
  | PurgeAll
  | PurgeKeys (matches : list Z → bool).

Definition purges_key (p : Purge) (key : list Z) : bool :=
  match p with PurgeAll => true | PurgeKeys matches => matches key end.

(** A purge's visit to one shard. *)
Definition purge_shard (p : Purge) (s : Shard) : Run Error (nat * Shard) :=
  match p with PurgeAll => Ret (clear s) | PurgeKeys matches => remove_matching s matches end.

(** The shared store and epoch; the upstream calls running, each with how many
    purges had begun and the epoch it loaded; the purges so far with their
    number and the next shard to visit; and, for the proof only, how many
    purges have begun and under which of them each stored entry's upstream
    call began. *)
Record Race : Type := mkRace {
  store : Store;
  epoch : Z;
  calls : list (nat * Z);
  purges : list (Purge * nat * nat);
  begun : nat;
  born : gmap nat nat;
}.

Definition bump_epoch (e : Z) : Z := wrapping_add 64 e 1.

Section race.
Context (z : Sizes).

Inductive step : Race → Race → Prop :=
  | step_call st e cs ps n bn :
      (* the epoch is loaded, then the upstream asked *)
      step (mkRace st e cs ps n bn) (mkRace st e ((n, e) :: cs) ps n bn)
  | step_insert st e cs ps n bn m e' hash key entry t ok st' :
      (* a call's answer is a new allocation, stored under the shard's lock *)
      (m, e') ∈ cs → bn !! cells entry = None →
      store_insert_if z st hash key entry t (bool_decide (e = e')) = Ret (ok, st') →
      step (mkRace st e cs ps n bn) (mkRace st' e cs ps n (<[cells entry := m]> bn))
  | step_get st e cs ps n bn hash key t o st' :
      store_get st hash key t = Ret (o, st') → step (mkRace st e cs ps n bn) (mkRace st' e cs ps n bn)
  | step_forget st e cs ps n bn hash key o st' :
      store_forget_failure st hash key = Ret (o, st') → step (mkRace st e cs ps n bn) (mkRace st' e cs ps n bn)
  | step_begin st e cs ps n bn p :
      step (mkRace st e cs ps n bn) (mkRace st (bump_epoch e) cs ((p, S n, 0) :: ps) (S n) bn)
  | step_purge st e cs ps1 ps2 n bn p k i s c s' :
      shards st !! i = Some s → purge_shard p s = Ret (c, s') →
      step (mkRace st e cs (ps1 ++ (p, k, i) :: ps2) n bn)
        (mkRace (mkStore (<[i := s']> (shards st)) (mask st)) e cs (ps1 ++ (p, k, S i) :: ps2) n bn).

Definition race_new (st : Store) : Race := mkRace st 0 [] [] 0 ∅.

(** ** The invariant *)

(** Every entry of the shard that [p] purges comes from a call that began
    after [n] purges. *)
Definition aged (bn : gmap nat nat) (n : nat) (p : Purge) (s : Shard) : Prop :=
  ∀ h key e, view s !! h = Some (key, e) → purges_key p key = true → ∃ m, bn !! cells e = Some m ∧ n ≤ m.

Record race_inv (max_bytes : Z) (r : Race) : Prop := {
  ri_store : store_ok max_bytes (store r);
  ri_epoch : epoch r = (Z.of_nat (begun r) mod 2 ^ 64)%Z;
  ri_calls m e : (m, e) ∈ calls r → m ≤ begun r ∧ e = (Z.of_nat m mod 2 ^ 64)%Z;
  ri_entries : Forall (aged (born r) 0 PurgeAll) (shards (store r));
  ri_purges p n i : (p, n, i) ∈ purges r →
    n ≤ begun r ∧ ∀ j s, j < i → shards (store r) !! j = Some s → aged (born r) n p s;
}.

Lemma aged_sub bn n p s s' : view s' ⊆ view s → aged bn n p s → aged bn n p s'.
Proof. intros Hs H h key e Hv. apply (H h). by eapply lookup_weaken. Qed.

Lemma aged_born bn bn' n p s : bn ⊆ bn' → aged bn n p s → aged bn' n p s.
Proof. intros Hb H h key e Hv Hp. destruct (H h key e Hv Hp) as (m & Hm & Hn). exists m. split; [by eapply lookup_weaken|done]. Qed.

(** A step of one shard that only loses entries. *)
Lemma shrink_inv max_bytes st st' e cs ps n bn i s s' :
  race_inv max_bytes (mkRace st e cs ps n bn) → store_ok max_bytes st' →
  shards st !! i = Some s → shards st' = <[i := s']> (shards st) → view s' ⊆ view s →
  race_inv max_bytes (mkRace st' e cs ps n bn).
Proof.
  intros [H1 H2 H3 H4 H5] Hst Hi Hs Hv. cbn in *. split; cbn; try done.
  - rewrite Hs. apply Forall_insert; [done|]. eapply aged_sub; [exact Hv|]. by eapply Forall_lookup_1.
  - intros p k j Hp. destruct (H5 p k j Hp) as [Hk Hj]. split; [done|]. intros j' x Hlt. rewrite Hs.
    intros [(<- & <- & _)|[Hne Hx]]%list_lookup_insert_Some; [|by eapply Hj].
    eapply aged_sub; [exact Hv|]. by eapply Hj.
Qed.

Lemma purge_shard_ok p s :
  shard_ok s → ∃ c s', purge_shard p s = Ret (c, s') ∧ shard_ok s' ∧ budget s' = budget s ∧ view s' ⊆ view s ∧
    ∀ h key e, view s' !! h = Some (key, e) → purges_key p key = false.
Proof.
  intros Hs. destruct p as [|matches]; cbn [purge_shard purges_key].
  - pose proof (clear_ok s Hs) as H. destruct (clear s) as [c s']. destruct H as (_ & H1 & H2 & H3).
    exists c, s'. rewrite H2. split_and!; try done. apply map_empty_subseteq.
  - destruct (remove_matching_ok s matches Hs) as (s' & E & H1 & H2 & H3). eexists _, s'. split; [exact E|].
    rewrite H2. split_and!; try done; [apply map_filter_subseteq|].
    intros h key e [_ H]%map_lookup_filter_Some. exact H.
Qed.

Lemma store_get_shrinks max_bytes st hash key t o st' :
  store_ok max_bytes st → store_get st hash key t = Ret (o, st') →
  store_ok max_bytes st' ∧ ∃ i s s', shards st !! i = Some s ∧ shards st' = <[i := s']> (shards st) ∧ view s' ⊆ view s.
Proof.
  intros Hst E. destruct (on_shard_ok max_bytes st hash (λ s, get s hash key t) (λ s _ s', view s' ⊆ view s) Hst)
    as (s & a & s' & Hi & _ & E' & Hv & Hok).
  - intros s Hs. destruct (get_ok s hash key t Hs) as (s' & ? & ? & Hv & ?). eexists _, s'. split_and!; try done.
    rewrite Hv. apply view_get_sub.
  - unfold store_get in E. rewrite E' in E. apply ret_pair_inj in E as [<- <-]. split; [exact Hok|].
    exists (shard_index st hash), s, s'. exact (conj Hi (conj eq_refl Hv)).
Qed.

Lemma store_forget_shrinks max_bytes st hash key o st' :
  store_ok max_bytes st → store_forget_failure st hash key = Ret (o, st') →
  store_ok max_bytes st' ∧ ∃ i s s', shards st !! i = Some s ∧ shards st' = <[i := s']> (shards st) ∧ view s' ⊆ view s.
Proof.
  intros Hst E. destruct (on_shard_ok max_bytes st hash (λ s, forget_failure s hash key) (λ s _ s', view s' ⊆ view s) Hst)
    as (s & a & s' & Hi & _ & E' & Hv & Hok).
  - intros s Hs. destruct (forget_ok s hash key Hs) as (s' & ? & ? & Hv & ?). eexists _, s'. split_and!; try done.
    rewrite Hv. apply view_forget_sub.
  - unfold store_forget_failure in E. rewrite E' in E. apply ret_pair_inj in E as [<- <-]. split; [exact Hok|].
    exists (shard_index st hash), s, s'. exact (conj Hi (conj eq_refl Hv)).
Qed.

Context (Hz : sizes_ok z).

(** An insertion adds its own entry, if allowed, and only loses others. *)
Lemma store_insert_adds max_bytes st hash key e t b o st' :
  store_ok max_bytes st → store_insert_if z st hash key e t b = Ret (o, st') →
  store_ok max_bytes st' ∧ ∃ i s s', shards st !! i = Some s ∧ shards st' = <[i := s']> (shards st) ∧
    view s' ⊆ (if b then <[hash := (key, e)]> (view s) else view s).
Proof.
  intros Hst E.
  destruct (on_shard_ok max_bytes st hash (λ s, if b then insert z s hash key e t else Ret (false, s))
    (λ s _ s', view s' ⊆ (if b then <[hash := (key, e)]> (view s) else view s)) Hst) as (s & a & s' & Hi & _ & E' & Hv & Hok).
  - intros s Hs. destruct b; [|eauto 10].
    destruct (insert_ok z s hash key e t Hz Hs) as (added & s' & ? & ? & ? & Hv & _). eexists _, s'. split_and!; try done.
    destruct added; [apply Hv|]. destruct Hv as [-> _]. apply map_subseteq_spec.
    intros h x [Hne Hx]%lookup_delete_Some. by rewrite lookup_insert_ne.
  - unfold store_insert_if in E. rewrite E' in E. apply ret_pair_inj in E as [<- <-]. split; [exact Hok|].
    exists (shard_index st hash), s, s'. exact (conj Hi (conj eq_refl Hv)).
Qed.

Lemma call_epoch n m : (Z.of_nat n < 2 ^ 64)%Z → m ≤ n → (Z.of_nat n mod 2 ^ 64 = Z.of_nat m mod 2 ^ 64)%Z → n = m.
Proof. intros Hn Hm. rewrite !Z.mod_small by lia. lia. Qed.

Lemma step_insert_inv max_bytes st e cs ps n bn m e' hash key entry t ok st' :
  race_inv max_bytes (mkRace st e cs ps n bn) → (Z.of_nat n < 2 ^ 64)%Z →
  (m, e') ∈ cs → bn !! cells entry = None →
  store_insert_if z st hash key entry t (bool_decide (e = e')) = Ret (ok, st') →
  race_inv max_bytes (mkRace st' e cs ps n (<[cells entry := m]> bn)).
Proof.
  intros [H1 H2 H3 H4 H5] Hn Hc Hbn E. cbn in *.
  destruct (store_insert_adds _ _ _ _ _ _ _ _ _ H1 E) as (Hok & i & s & s' & Hi & Hs & Hv).
  destruct (H3 m e' Hc) as [Hm He']. assert (Hsub : bn ⊆ <[cells entry := m]> bn) by by apply insert_subseteq.
  assert (Hage : ∀ k p, k ≤ n → aged bn k p s → aged (<[cells entry := m]> bn) k p s').
  { intros k p Hk Ha h key' a Hview Hp. eapply lookup_weaken in Hview; [|exact Hv].
    destruct (bool_decide (e = e')) eqn:Eb.
    - apply bool_decide_eq_true in Eb. rewrite H2, He' in Eb. apply call_epoch in Eb; [|done..]. subst m.
      apply lookup_insert_Some in Hview as [[<- [= <- <-]]|[_ Hview]]; [exists n; by rewrite lookup_insert_eq|].
      by eapply (aged_born bn).
    - by eapply (aged_born bn). }
  split; cbn; try done.
  - rewrite Hs. apply Forall_insert.
    + eapply Forall_impl; [exact H4|]. intros x. by apply aged_born.
    + apply Hage; [lia|]. by eapply Forall_lookup_1.
  - intros p k j Hp. destruct (H5 p k j Hp) as [Hk Hj]. split; [done|]. intros j' x Hlt. rewrite Hs.
    intros [(<- & <- & _)|[Hne Hx]]%list_lookup_insert_Some.
    + apply Hage; [done|]. by eapply Hj.
    + eapply aged_born; [exact Hsub|]. by eapply Hj.
Qed.

Lemma step_purge_inv max_bytes st e cs ps1 ps2 n bn p k i s c s' :
  race_inv max_bytes (mkRace st e cs (ps1 ++ (p, k, i) :: ps2) n bn) →
  shards st !! i = Some s → purge_shard p s = Ret (c, s') →
  race_inv max_bytes (mkRace (mkStore (<[i := s']> (shards st)) (mask st)) e cs (ps1 ++ (p, k, S i) :: ps2) n bn).
Proof.
  intros H Hi E. pose proof (ri_store _ _ H) as Hst. cbn in Hst.
  destruct (Forall_lookup_1 _ _ _ _ (so_shards _ _ Hst) Hi) as [Hs Hb].
  destruct (purge_shard_ok p s Hs) as (c' & s'' & E' & Hs' & Eb & Hv & Hp).
  rewrite E' in E. injection E as <- <-.
  assert (Hok : store_ok max_bytes (mkStore (<[i := s'']> (shards st)) (mask st))).
  { split; cbn; [|rewrite length_insert; apply Hst]. apply Forall_insert; rewrite length_insert; [apply Hst|].
    split; [done|]. by rewrite Eb. }
  destruct (shrink_inv _ _ (mkStore (<[i := s'']> (shards st)) (mask st)) _ _ _ _ _ i s s'' H Hok Hi eq_refl Hv)
    as [H1 H2 H3 H4 H5].
  split; cbn in *; try done. intros p' k' j [Hin|[[= -> -> ->]|Hin]%elem_of_cons]%elem_of_app.
  - apply H5. apply elem_of_app. by left.
  - destruct (H5 p k i) as [Hk Hj]; [apply elem_of_app; right; by left|]. split; [done|].
    intros j' x Hlt Hx. destruct (decide (j' = i)) as [->|]; [|apply (Hj j' x); [lia|done]].
    rewrite list_lookup_insert_eq in Hx by by eapply lookup_lt_Some. injection Hx as <-.
    intros h key a Ha Hpk. by rewrite (Hp h key a Ha) in Hpk.
  - apply H5. apply elem_of_app. right. by right.
Qed.

Lemma race_step_inv max_bytes r r' :
  step r r' → (Z.of_nat (begun r') < 2 ^ 64)%Z → race_inv max_bytes r → race_inv max_bytes r'.
Proof.
  destruct 1 as [st e cs ps n bn|st e cs ps n bn m e' hash key entry t ok st' Hc Hb E|st e cs ps n bn hash key t o st' E
    |st e cs ps n bn hash key o st' E|st e cs ps n bn p|st e cs ps1 ps2 n bn p k i s c s' Hi E]; intros Hn H; cbn in Hn.
  - destruct H as [H1 H2 H3 H4 H5]. split; cbn in *; try done. intros m e' [[= -> ->]|Hc]%elem_of_cons; [done|by apply H3].
  - by eapply step_insert_inv.
  - destruct (store_get_shrinks max_bytes _ _ _ _ _ _ (ri_store _ _ H) E) as (Hok & i & s & s' & Hi & Hs & Hv).
    by eapply shrink_inv.
  - destruct (store_forget_shrinks max_bytes _ _ _ _ _ (ri_store _ _ H) E) as (Hok & i & s & s' & Hi & Hs & Hv).
    by eapply shrink_inv.
  - destruct H as [H1 H2 H3 H4 H5]. split; cbn in *; try done.
    + unfold bump_epoch, wrapping_add. rewrite H2, Zplus_mod_idemp_l. f_equal. lia.
    + intros m e' Hc. destruct (H3 m e' Hc). split; [lia|done].
    + intros p' k j [[= -> -> ->]|Hp]%elem_of_cons; [split; [done|]; intros j' s Hlt; lia|].
      destruct (H5 p' k j Hp) as [Hk Hj]. split; [lia|done].
  - by eapply step_purge_inv.
Qed.

Lemma step_begun r r' : step r r' → begun r ≤ begun r'.
Proof. destruct 1; cbn; lia. Qed.

Definition reachable (st : Store) (r : Race) : Prop := rtc step (race_new st) r.

Lemma race_reachable_inv max_bytes st r :
  store_ok max_bytes st → Forall (λ s, view s = ∅) (shards st) → (Z.of_nat (begun r) < 2 ^ 64)%Z →
  reachable st r → race_inv max_bytes r.
Proof.
  intros Hst He Hn Hr. assert (H0 : race_inv max_bytes (race_new st)).
  { split; cbn; try done.
    - intros m e []%not_elem_of_nil.
    - eapply Forall_impl; [exact He|]. intros s Hs h key e. by rewrite Hs, lookup_empty.
    - intros p k i []%not_elem_of_nil. }
  clear He. unfold reachable in Hr. revert H0. induction Hr as [r|r1 r2 r3 Hs Hr IH]; intros H; [done|].
  apply IH; [done|]. eapply race_step_inv; [done| |done].
  assert (begun r2 ≤ begun r3); [|lia]. clear -Hr. induction Hr as [|? ? ? Hs]; [done|]. apply step_begun in Hs. lia.
Qed.

(** C16: A purge is never undone by a query in flight. However upstream calls,
    insertions, lookups and purges interleave over a fresh store, once a purge
    has visited every shard, each entry under a key it purges comes from an
    upstream call that began after the purge did. *)
Theorem purge_wins max_bytes count parallelism st r p n i j s h key e :
  config_sane max_bytes count parallelism → store_new max_bytes count parallelism = Ret st →
  reachable st r → (Z.of_nat (begun r) < 2 ^ 64)%Z →
  (p, n, i) ∈ purges r → i = length (shards (store r)) →
  shards (store r) !! j = Some s → view s !! h = Some (key, e) → purges_key p key = true →
  ∃ m, born r !! cells e = Some m ∧ n ≤ m.
Proof.
  intros (Hm & Hp & Hc) Est Hr Hn Hin -> Hj Hv Hk.
  destruct (store_new_ok max_bytes count parallelism Hm Hp Hc) as (st' & E & Hst & He).
  rewrite E in Est. injection Est as ->.
  pose proof (race_reachable_inv max_bytes st r Hst He Hn Hr) as H.
  destruct (ri_purges _ _ H p n _ Hin) as [_ Ha]. destruct (Ha j s (lookup_lt_Some _ _ _ Hj) Hj h key e Hv Hk) as (m & Hb & Hnm).
  by exists m.
Qed.
End race.

(** ** A concrete race *)

Definition race_store : Store :=
  match store_new 200000 (Some 1%Z) 1 with Ret st => st | _ => mkStore [] 0 end.

Definition race_shard : Shard := default (shard_new 0) (shards race_store !! 0).
Definition race_purged : Store := mkStore (<[0 := (clear race_shard).2]> (shards race_store)) (mask race_store).
Definition race_filled : Store :=
  match store_insert_if store_sizes race_purged 7 (query_key key_name_a) store_entry 0 true with
  | Ret (_, st) => st
  | _ => race_purged
  end.

(** A purge, then a call that stores its answer. *)
Definition race_end : Race :=
  mkRace race_filled 1 [(1, 1%Z)] [(PurgeAll, 1, 1)] 1 {[cells store_entry := 1]}.

Lemma race_reachable : reachable store_sizes race_store race_end.
Proof.
  eapply rtc_l; [apply (step_begin store_sizes race_store 0 [] [] 0 ∅ PurgeAll)|].
  eapply rtc_l.
  { apply (step_purge store_sizes race_store (bump_epoch 0) [] [] [] 1 ∅ PurgeAll 1 0 race_shard (clear race_shard).1 (clear race_shard).2);
      vm_compute; reflexivity. }
  eapply rtc_l; [apply step_call|]. eapply rtc_l; [|apply rtc_refl].
  apply (step_insert store_sizes race_purged 1 [(1, 1%Z)] [(PurgeAll, 1, 1)] 1 ∅ 1 1 7 (query_key key_name_a) store_entry 0 true race_filled).
  - by left.
  - done.
  - vm_compute. reflexivity.
Qed.

Lemma purge_wins_witness :
  ∃ s, shards (store race_end) !! 0 = Some s ∧ view s !! 7%Z = Some (query_key key_name_a, store_entry) ∧
    ∃ m, born race_end !! cells store_entry = Some m ∧ 1 ≤ m.
Proof.
  destruct (shards (store race_end) !! 0) as [s|] eqn:Es; [|vm_compute in Es; discriminate Es].
  exists s. split; [reflexivity|].
  assert (Hv : view s !! 7%Z = Some (query_key key_name_a, store_entry)).
  { assert (match shards (store race_end) !! 0 with Some s => view s !! 7%Z | None => None end =
      Some (query_key key_name_a, store_entry)) as H by (vm_compute; reflexivity).
    rewrite Es in H. exact H. }
  split; [exact Hv|].
  apply (purge_wins store_sizes store_sizes_ok 200000 (Some 1%Z) 1 race_store race_end PurgeAll 1 1 0 s 7%Z (query_key key_name_a) store_entry).
  - repeat split; lia.
  - vm_compute. reflexivity.
  - exact race_reachable.
  - vm_compute. reflexivity.
  - vm_compute. left.
  - vm_compute. reflexivity.
  - exact Es.
  - exact Hv.
  - reflexivity.
Defined.
