(* ===== verification/Pending.v ===== *)
(** * The wire-id table of a pooled connection

    Models [PendingTable] of [crates/dns-lattice/src/upstream/pool.rs]: which
    wire ids wait for an answer, which belong to a cancelled query (an orphan,
    with a tombstone that expires), and the allocator that picks a free id. The
    random start and the hash map's order are arguments and unspecified. *)

From stdpp Require Import base numbers list gmap.
From S2P Require Import Prelude CoreError Time.

Definition MAX_TABLE_CAPACITY : nat := Z.to_nat u16_max.

Inductive Slot (T : Type) : Type :=
  | Pending (value : T)
  | Orphan (number : Z).
Arguments Pending {T} value.
Arguments Orphan {T} number.

Inductive Taken (T : Type) : Type :=
  | TPending (value : T)
  | TOrphaned
  | TUnknown.
Arguments TPending {T} value.
Arguments TOrphaned {T}.
Arguments TUnknown {T}.

Record PendingTable (T : Type) : Type := mkTable {
  slots : gmap Z (Slot T);
  tombstones : list (Z * Z * Z);
  next_id : Z;
  next_tombstone : Z;
  capacity : nat;
  tombstone_ttl : Z;
}.
Arguments mkTable {T}.
Arguments slots {T}.
Arguments tombstones {T}.
Arguments next_id {T}.
Arguments next_tombstone {T}.
Arguments capacity {T}.
Arguments tombstone_ttl {T}.

Section table.
Context {T : Type}.
Implicit Types (t : PendingTable T) (id now : Z).

Definition with_start (cap : nat) (ttl start : Z) : PendingTable T :=
  mkTable ∅ [] start 0 (Nat.max 1 (Nat.min cap MAX_TABLE_CAPACITY)) ttl.

Definition set_slots t (s : gmap Z (Slot T)) (ts : list (Z * Z * Z)) : PendingTable T :=
  mkTable s ts (next_id t) (next_tombstone t) (capacity t) (tombstone_ttl t).

(** The slot of a tombstone is removed only if it is still that orphan. *)
Definition bury (s : gmap Z (Slot T)) (id number : Z) : option (gmap Z (Slot T)) :=
  match s !! id with
  | Some (Orphan n) => if decide (n = number) then Some (delete id s) else None
  | _ => None
  end.

Fixpoint sweep_loop (s : gmap Z (Slot T)) (ts : list (Z * Z * Z)) now : gmap Z (Slot T) * list (Z * Z * Z) :=
  match ts with
  | [] => (s, [])
  | (id, number, until) :: rest =>
      if decide (now < until)%Z then (s, ts)
      else sweep_loop (default s (bury s id number)) rest now
  end.

Definition sweep t now : PendingTable T :=
  let '(s, ts) := sweep_loop (slots t) (tombstones t) now in set_slots t s ts.

Fixpoint evict_loop (s : gmap Z (Slot T)) (ts : list (Z * Z * Z)) :
    option (gmap Z (Slot T)) * list (Z * Z * Z) :=
  match ts with
  | [] => (None, [])
  | (id, number, _) :: rest =>
      match bury s id number with
      | Some s => (Some s, rest)
      | None => evict_loop s rest
      end
  end.

Definition evict_oldest_tombstone t : bool * PendingTable T :=
  let '(o, ts) := evict_loop (slots t) (tombstones t) in
  match o with
  | Some s => (true, set_slots t s ts)
  | None => (false, set_slots t (slots t) ts)
  end.

(** The scan for a vacant id, from [next_id] on; it wraps at 65536. *)
Fixpoint scan (fuel : nat) (s : gmap Z (Slot T)) (next : Z) : Run Error (Z * Z) :=
  match fuel with
  | O => Hang
  | S fuel =>
      match s !! next with
      | None => Ret (next, wrapping_add 16 next 1)
      | Some _ => scan fuel s (wrapping_add 16 next 1)
      end
  end.

Definition SCAN_FUEL : nat := Z.to_nat 65536.

Definition register t (value : T) now : Run Error (Result T Z * PendingTable T) :=
  let t := sweep t now in
  let '(room, t) := if decide (capacity t ≤ size (slots t)) then evict_oldest_tombstone t else (true, t) in
  if negb room then Ret (Err value, t)
  else
    '(id, next) ← scan SCAN_FUEL (slots t) (next_id t);
    Ret (Ok id, mkTable (<[id := Pending value]> (slots t)) (tombstones t) next (next_tombstone t)
                  (capacity t) (tombstone_ttl t)).

Definition orphan_if t id now (owned : T → bool) : option T * PendingTable T :=
  match slots t !! id with
  | Some (Pending value) =>
      if owned value then
        let number := next_tombstone t in
        let until := default now (checked_add now (tombstone_ttl t)) in
        (Some value,
         mkTable (<[id := Orphan number]> (slots t)) (tombstones t ++ [(id, number, until)]) (next_id t)
           (wrapping_add 64 number 1) (capacity t) (tombstone_ttl t))
      else (None, t)
  | _ => (None, t)
  end.

(** Removing the first element that satisfies the test. *)
Fixpoint remove_first {A} (p : A → bool) (l : list A) : list A :=
  match l with
  | [] => []
  | x :: l => if p x then l else x :: remove_first p l
  end.

Definition is_tombstone id (number : Z) (x : Z * Z * Z) : bool :=
  bool_decide (x.1.1 = id) && bool_decide (x.1.2 = number).

Definition take t id : Taken T * PendingTable T :=
  match slots t !! id with
  | Some (Pending value) => (TPending value, set_slots t (delete id (slots t)) (tombstones t))
  | Some (Orphan number) =>
      (TOrphaned, set_slots t (delete id (slots t)) (remove_first (is_tombstone id number) (tombstones t)))
  | None => (TUnknown, t)
  end.

Definition pending_value (s : Slot T) : option T :=
  match s with Pending value => Some value | Orphan _ => None end.

(** The waiters come in the map's order. *)
Definition drain_pending t : list T * PendingTable T :=
  (omap (λ p, pending_value p.2) (map_to_list (slots t)), set_slots t ∅ []).

(** ** The invariant *)

Record table_inv t : Prop := {
  ti_capacity : 1 ≤ capacity t ≤ MAX_TABLE_CAPACITY;
  ti_size : size (slots t) ≤ capacity t;
  ti_ids id s : slots t !! id = Some s → is_u16 id;
  ti_next : is_u16 (next_id t);
  ti_orphans id n : slots t !! id = Some (Orphan n) ↔ ∃ u, (id, n, u) ∈ tombstones t;
  ti_nodup : NoDup (map (λ x, x.1.1) (tombstones t));
}.

(** The waiters by wire id, and the orphaned ids: what the table is for. *)
Definition waiters t : gmap Z T := omap pending_value (slots t).
Definition is_orphan t id : Prop := ∃ n, slots t !! id = Some (Orphan n).

Lemma waiters_lookup t id v : waiters t !! id = Some v ↔ slots t !! id = Some (Pending v).
Proof.
  unfold waiters. rewrite lookup_omap. destruct (slots t !! id) as [[w|n]|]; cbn; naive_solver.
Qed.

Lemma with_start_inv cap ttl start : is_u16 start → table_inv (with_start cap ttl start).
Proof.
  intros Hs. unfold with_start. split; cbn [slots tombstones next_id next_tombstone capacity]; try done.
  - unfold MAX_TABLE_CAPACITY. lia.
  - rewrite map_size_empty. lia.
  - intros id n. rewrite lookup_empty. split; [done|]. by intros (u & []%not_elem_of_nil).
  - constructor.
Qed.

(** ** Tombstones and slots *)

Implicit Types (s : gmap Z (Slot T)).

Definition orphans_ok (s : gmap Z (Slot T)) (ts : list (Z * Z * Z)) : Prop :=
  (∀ id n, s !! id = Some (Orphan n) ↔ ∃ u, (id, n, u) ∈ ts) ∧ NoDup (map (λ x, x.1.1) ts).

Definition without (s : gmap Z (Slot T)) (dead : list (Z * Z * Z)) : gmap Z (Slot T) :=
  foldl (λ s x, delete x.1.1 s) s dead.

Lemma orphans_ok_cons s id n u ts :
  orphans_ok s ((id, n, u) :: ts) →
  s !! id = Some (Orphan n) ∧ orphans_ok (delete id s) ts.
Proof.
  intros [Ho Hnd]. cbn in Hnd. apply NoDup_cons in Hnd as [Hid Hnd]. split.
  { apply Ho. exists u. apply elem_of_cons. auto. }
  split; [|done]. intros i m. rewrite lookup_delete_Some, Ho. split.
  - intros [Hne (w & [[= -> -> ->]|Hw]%elem_of_cons)]; [done|by exists w].
  - intros (w & Hw). split.
    + intros ->. apply Hid, list_elem_of_fmap. by exists (i, m, w).
    + exists w. apply elem_of_cons. auto.
Qed.

Lemma bury_head s id n u ts :
  orphans_ok s ((id, n, u) :: ts) → bury s id n = Some (delete id s).
Proof.
  intros [H _]%orphans_ok_cons. unfold bury. rewrite H. by rewrite decide_True.
Qed.

Lemma waiters_delete_orphan s id n :
  s !! id = Some (Orphan n) → (omap pending_value (delete id s) : gmap Z T) = omap pending_value s.
Proof.
  intros H. apply map_eq. intros i. rewrite !lookup_omap.
  destruct (decide (i = id)) as [->|Hne]; [by rewrite lookup_delete_eq, H|by rewrite lookup_delete_ne].
Qed.

Lemma without_spec s dead ts :
  orphans_ok s (dead ++ ts) →
  orphans_ok (without s dead) ts ∧
  (omap pending_value (without s dead) : gmap Z T) = omap pending_value s ∧
  (∀ i x, without s dead !! i = Some x → s !! i = Some x) ∧
  (∀ i x, s !! i = Some x → without s dead !! i = Some x ∨ i ∈ map (λ x, x.1.1) dead).
Proof.
  revert s. induction dead as [|[[id n] u] dead IH]; intros s H; [naive_solver|].
  pose proof (orphans_ok_cons _ _ _ _ _ H) as [Hid H'].
  change (without s ((id, n, u) :: dead)) with (without (delete id s) dead).
  destruct (IH _ H') as (Ho & Hw & Hsub & Hrest). split; [done|]. split; [|split].
  - rewrite Hw. by eapply waiters_delete_orphan.
  - intros i x Hx. apply Hsub in Hx. by apply lookup_delete_Some in Hx as [_ Hx].
  - intros i x Hx. cbn [map fst]. destruct (decide (i = id)) as [->|Hne]; [right; by left|].
    destruct (Hrest i x) as [|]; [by rewrite lookup_delete_ne|by left|right; by right].
Qed.

Lemma slots_size s ts :
  orphans_ok s ts → size s = size (omap pending_value s : gmap Z T) + length ts.
Proof.
  revert s. induction ts as [|[[id n] u] ts IH]; intros s H.
  - cbn [length]. rewrite Nat.add_0_r, <-!size_dom. f_equal. apply set_eq. intros i.
    rewrite !elem_of_dom, lookup_omap. destruct (s !! i) as [[v|n]|] eqn:E; cbn.
    + by split; eauto.
    + apply (proj1 (proj1 H i n)) in E as (? & []%not_elem_of_nil).
    + done.
  - pose proof (orphans_ok_cons _ _ _ _ _ H) as [Hid H']. apply IH in H'.
    rewrite (waiters_delete_orphan _ _ _ Hid) in H'.
    rewrite map_size_delete_Some in H' by eauto.
    assert (size s ≠ 0) by (intros E; apply map_size_empty_inv in E; by rewrite E in Hid).
    cbn [length]. lia.
Qed.

Lemma sweep_loop_spec s ts now :
  orphans_ok s ts →
  ∃ dead ts', ts = dead ++ ts' ∧ sweep_loop s ts now = (without s dead, ts') ∧
    Forall (λ x, x.2 ≤ now)%Z dead.
Proof.
  revert s. induction ts as [|[[id n] u] ts IH]; intros s H.
  { exists [], []. repeat split; by constructor. }
  cbn [sweep_loop]. case_decide as Hu.
  { exists [], ((id, n, u) :: ts). repeat split; by constructor. }
  rewrite (bury_head _ _ _ _ _ H). destruct (orphans_ok_cons _ _ _ _ _ H) as [_ H'].
  destruct (IH _ H') as (dead & ts' & -> & E & Hd). exists ((id, n, u) :: dead), ts'.
  split; [done|]. split; [exact E|]. constructor; [cbn; lia|done].
Qed.

Lemma evict_loop_spec s ts :
  orphans_ok s ts →
  evict_loop s ts =
    match ts with [] => (None, []) | x :: ts => (Some (delete x.1.1 s), ts) end.
Proof.
  destruct ts as [|[[id n] u] ts]; intros H; [done|]. cbn [evict_loop]. by rewrite (bury_head _ _ _ _ _ H).
Qed.

(** ** The scan for a free id *)

Lemma scan_first fuel s next :
  is_u16 next →
  (∃ i, i < fuel ∧ scan fuel s next =
     Ret (((next + Z.of_nat i) mod 65536)%Z, wrapping_add 16 ((next + Z.of_nat i) mod 65536)%Z 1) ∧
     s !! ((next + Z.of_nat i) mod 65536)%Z = None) ∨
  (∀ i, i < fuel → is_Some (s !! ((next + Z.of_nat i) mod 65536)%Z)).
Proof.
  revert next. induction fuel as [|fuel IH]; intros next Hn; [right; lia|].
  assert (H0 : ((next + Z.of_nat 0) mod 65536 = next)%Z) by (rewrite Z.add_0_r; apply Z.mod_small; lia).
  cbn [scan]. destruct (s !! next) as [x|] eqn:E.
  2:{ left. exists 0. rewrite H0. split; [lia|]. done. }
  assert (Hw : is_u16 (wrapping_add 16 next 1)).
  { unfold wrapping_add. change (2 ^ 16)%Z with 65536%Z. apply Z.mod_pos_bound. lia. }
  assert (Hs : ∀ i, ((wrapping_add 16 next 1 + Z.of_nat i) mod 65536 = (next + Z.of_nat (S i)) mod 65536)%Z).
  { intros i. unfold wrapping_add. change (2 ^ 16)%Z with 65536%Z.
    rewrite Zplus_mod_idemp_l. f_equal. lia. }
  destruct (IH _ Hw) as [(i & Hi & Er & Hnone)|Hall]; [left|right].
  - exists (S i). rewrite <-Hs. split; [lia|]. done.
  - intros [|i] Hi; [rewrite H0; eauto|]. rewrite <-Hs. apply Hall. lia.
Qed.

Lemma SCAN_FUEL_eq : Z.of_nat SCAN_FUEL = 65536%Z.
Proof. unfold SCAN_FUEL. by rewrite Z2Nat.id. Qed.

Lemma scan_free fuel s next :
  Z.of_nat fuel = 65536%Z → is_u16 next → (Z.of_nat (size s) < 65536)%Z →
  ∃ id, scan fuel s next = Ret (id, wrapping_add 16 id 1) ∧ s !! id = None ∧ is_u16 id.
Proof.
  intros Hf Hn Hsz.
  destruct (scan_first fuel s next Hn) as [(i & _ & E & Hnone)|Hall].
  { eexists. split; [exact E|]. split; [done|]. apply Z.mod_pos_bound. lia. }
  exfalso.
  assert (Hnd : NoDup (map (λ i, ((next + Z.of_nat i) mod 65536)%Z) (seq 0 fuel))).
  { apply NoDup_fmap_2_strong; [|apply NoDup_seq].
    intros i j Hi%elem_of_seq Hj%elem_of_seq E.
    assert (((next + Z.of_nat i) - (next + Z.of_nat j)) mod 65536 = 0)%Z as D%Z.mod_divide.
    { rewrite Zminus_mod, E, Z.sub_diag. done. }
    2:lia. destruct D as [k Hk]. lia. }
  assert (Hsub : (list_to_set (map (λ i, ((next + Z.of_nat i) mod 65536)%Z) (seq 0 fuel)) : gset Z) ⊆ dom s).
  { intros x Hx%elem_of_list_to_set. apply list_elem_of_fmap in Hx as (j & -> & Hj%elem_of_seq).
    apply elem_of_dom, Hall. lia. }
  apply subseteq_size in Hsub. rewrite size_list_to_set in Hsub by done.
  rewrite length_map, length_seq, size_dom in Hsub. lia.
Qed.

(** ** The operations *)

Implicit Types (v : T).

Lemma table_inv_orphans t : table_inv t → orphans_ok (slots t) (tombstones t).
Proof. intros H. split; apply H. Qed.

Lemma table_inv_without t dead ts :
  table_inv t → tombstones t = dead ++ ts → table_inv (set_slots t (without (slots t) dead) ts).
Proof.
  intros H E. pose proof (table_inv_orphans _ H) as Ho. pose proof Ho as Hsz%slots_size.
  rewrite E in Ho, Hsz. apply without_spec in Ho as (Ho & Hw & Hsub & _).
  pose proof Ho as Hsz'%slots_size. rewrite Hw in Hsz'. rewrite length_app in Hsz.
  split; cbn [set_slots slots tombstones next_id next_tombstone capacity]; try apply H; try apply Ho.
  - pose proof (ti_size _ H). lia.
  - intros i x Hx%Hsub. by eapply ti_ids.
Qed.

Lemma sweep_spec t now :
  table_inv t →
  ∃ dead ts, tombstones t = dead ++ ts ∧ sweep t now = set_slots t (without (slots t) dead) ts ∧
    Forall (λ x, x.2 ≤ now)%Z dead.
Proof.
  intros H%table_inv_orphans. destruct (sweep_loop_spec _ _ now H) as (dead & ts & E & Es & Hd).
  exists dead, ts. unfold sweep. by rewrite Es.
Qed.

(** What [register] gives up before it looks for an id: expired tombstones,
    then, when the table is full, the oldest one left. *)
Lemma make_space t now :
  table_inv t →
  ∃ dead ts t', tombstones t = dead ++ ts ∧ t' = set_slots t (without (slots t) dead) ts ∧
    (let t := sweep t now in
     if decide (capacity t ≤ size (slots t)) then evict_oldest_tombstone t else (true, t)) =
      (bool_decide (size (waiters t) < capacity t), t') ∧
    table_inv t' ∧ waiters t' = waiters t ∧
    (size (waiters t) < capacity t → size (slots t') < capacity t) ∧
    (capacity t ≤ size (slots (sweep t now)) ∨ Forall (λ x, x.2 ≤ now)%Z dead).
Proof.
  intros H. destruct (sweep_spec _ now H) as (dead & ts & E & Es & Hd). rewrite Es. cbn zeta.
  pose proof (table_inv_orphans _ H) as Ho. rewrite E in Ho. apply without_spec in Ho as (Ho & Hw & _).
  pose proof Ho as Hsz%slots_size. rewrite Hw in Hsz. fold (waiters t) in Hsz.
  cbn [set_slots capacity slots]. case_decide as Hc.
  - unfold evict_oldest_tombstone. cbn [set_slots slots tombstones]. rewrite (evict_loop_spec _ _ Ho).
    destruct ts as [|x ts].
    + exists dead, []. eexists. split; [done|]. split; [reflexivity|]. cbn [length] in Hsz.
      rewrite bool_decide_eq_false_2 by lia. split; [done|].
      split; [by apply table_inv_without|]. split; [by unfold waiters, set_slots; cbn [slots]; rewrite Hw|].
      split; [lia|by left].
    + exists (dead ++ [x]), ts. eexists. split; [by rewrite <-app_assoc|]. split; [reflexivity|].
      assert (Hwo : without (slots t) (dead ++ [x]) = delete x.1.1 (without (slots t) dead)).
      { unfold without. by rewrite foldl_app. }
      pose proof (table_inv_orphans _ H) as Ho'. rewrite E, cons_middle, app_assoc in Ho'.
      apply without_spec in Ho' as (Ho' & Hw' & _). pose proof Ho' as Hsz'%slots_size. rewrite Hw' in Hsz'.
      fold (waiters t) in Hsz'. cbn [length] in Hsz.
      pose proof (ti_size _ (table_inv_without t dead _ H E)) as Hcap. cbn [set_slots slots capacity] in Hcap.
      rewrite bool_decide_eq_true_2 by lia. rewrite Hwo.
split; [done|].
      rewrite <-Hwo. split; [apply table_inv_without; [done|by rewrite E, <-app_assoc]|].
      split; [by unfold waiters, set_slots; cbn [slots]; rewrite Hw'|].
      split; [cbn [set_slots slots]; lia|by left].
  - exists dead, ts. eexists. split; [done|]. split; [reflexivity|].
    rewrite bool_decide_eq_true_2 by lia. split; [done|]. split; [by apply table_inv_without|].
    split; [by unfold waiters, set_slots; cbn [slots]; rewrite Hw|]. split; [cbn [set_slots slots]; lia|by right].
Qed.

Lemma register_run t v now :
  table_inv t →
  ∃ r t', register t v now = Ret (r, t') ∧ table_inv t' ∧
    match r with
    | Err w => w = v ∧ size (waiters t) = capacity t ∧ waiters t' = waiters t
    | Ok id => size (waiters t) < capacity t ∧ is_u16 id ∧ waiters t !! id = None ∧
        waiters t' = <[id := v]> (waiters t) ∧ (∀ i, is_orphan t' i → is_orphan t i ∧ i ≠ id) ∧
        (is_orphan t id → capacity t ≤ size (slots (sweep t now)) ∨
           ∃ n u, (id, n, u) ∈ tombstones t ∧ (u ≤ now)%Z)
    end.
Proof.
  intros H. destruct (make_space t now H) as (dead & ts & t' & E & Et' & Em & H' & Hw & Hroom & Hd).
  unfold register. cbn zeta in Em |- *. rewrite Em. clear Em.
  pose proof (slots_size _ _ (table_inv_orphans _ H)) as Hsz. fold (waiters t) in Hsz.
  pose proof (ti_size _ H) as Hcap. pose proof (ti_capacity _ H) as Hmax.
  case_bool_decide as Hlt; cbn [negb].
  2:{ exists (Err v), t'. split; [done|]. split; [done|]. split; [done|]. split; [lia|done]. }
  assert (capacity t' = capacity t) as Hc by by rewrite Et'.
  specialize (Hroom Hlt). unfold MAX_TABLE_CAPACITY in Hmax.
  destruct (scan_free SCAN_FUEL (slots t') (next_id t')) as (id & Es & Hfree & Hid);
    [apply SCAN_FUEL_eq|apply H'|lia|].
  rewrite Es. clear Es Hmax. cbn [mbind run_bind]. exists (Ok id). eexists. split; [reflexivity|].
  assert (Hwn : waiters t !! id = None).
  { rewrite <-Hw. unfold waiters. by rewrite lookup_omap, Hfree. }
  split; [|split; [done|split; [done|split; [done|split; [|split]]]]].
  - split; cbn [slots tombstones next_id next_tombstone capacity]; try apply H'.
    + rewrite map_size_insert_None by done. lia.
    + intros i x [[<- _]|[_ Hx]]%lookup_insert_Some; [done|by eapply ti_ids].
    + unfold wrapping_add. apply Z.mod_pos_bound. lia.
    + intros i n. rewrite <-(ti_orphans _ H'). rewrite lookup_insert_Some. naive_solver.
  - unfold waiters at 1. cbn [slots]. rewrite omap_insert. cbn [pending_value]. by rewrite <-Hw.
  - intros i (n & Hn). cbn [slots] in Hn. apply lookup_insert_Some in Hn as [[_ ?]|[Hne Hn]]; [done|].
    split; [|done]. exists n. rewrite Et' in Hn. cbn [set_slots slots] in Hn.
    pose proof (table_inv_orphans _ H) as Ho. rewrite E in Ho.
    by apply without_spec in Ho as (_ & _ & Hsub & _); apply Hsub.
  - intros (n & Hn). destruct Hd as [|Hd]; [by left|right].
    pose proof (table_inv_orphans _ H) as Ho. rewrite E in Ho.
    apply without_spec in Ho as (_ & _ & _ & Hrest). destruct (Hrest _ _ Hn) as [Hx|Hx].
    { rewrite Et' in Hfree. cbn [set_slots slots] in Hfree. congruence. }
    apply list_elem_of_fmap in Hx as ([[i m] u] & -> & Hx). exists m, u.
    split; [rewrite E; apply elem_of_app; auto|].
    rewrite Forall_forall in Hd. apply (Hd _ Hx).
Qed.

Lemma remove_first_sublist {A} (p : A → bool) l : sublist (remove_first p l) l.
Proof.
  induction l as [|x l IH]; cbn; [done|]. destruct (p x); [by apply sublist_cons|by apply sublist_skip].
Qed.

Lemma remove_tombstone id n ts :
  NoDup (map (λ x : Z * Z * Z, x.1.1) ts) → (∃ u, (id, n, u) ∈ ts) →
  ∀ x, x ∈ remove_first (is_tombstone id n) ts ↔ x ∈ ts ∧ x.1.1 ≠ id.
Proof.
  induction ts as [|y ts IH]; [by intros _ (u & []%not_elem_of_nil)|].
  intros [Hy Hnd]%NoDup_cons (u & Hu) x. cbn [remove_first]. destruct (is_tombstone id n y) eqn:E.
  - unfold is_tombstone in E. apply andb_true_iff in E as [Ei En]. apply bool_decide_eq_true in Ei, En.
    rewrite elem_of_cons. split.
    + intros Hx. split; [by right|]. intros Hi. apply Hy, list_elem_of_fmap. exists x. by rewrite Hi.
    + intros [[->|Hx] Hne]; [done|done].
  - apply elem_of_cons in Hu as [<-|Hu].
    { unfold is_tombstone in E. cbn [fst snd] in E. by rewrite !bool_decide_eq_true_2 in E. }
    rewrite !elem_of_cons, (IH Hnd) by eauto.
    assert (y.1.1 ≠ id) by (intros Hi; apply Hy, list_elem_of_fmap; exists (id, n, u); by rewrite Hi).
    naive_solver.
Qed.

Lemma table_inv_take t id : table_inv t → table_inv (take t id).2.
Proof.
  intros H. pose proof (ti_size _ H). unfold take. destruct (slots t !! id) as [[v|n]|] eqn:E; [| |done].
  - split; cbn [snd set_slots slots tombstones next_id next_tombstone capacity]; try apply H.
    + rewrite map_size_delete_Some by eauto. lia.
    + intros i x [_ Hx]%lookup_delete_Some. by eapply ti_ids.
    + intros i n. rewrite lookup_delete_Some, <-(ti_orphans _ H). naive_solver.
  - pose proof (remove_tombstone id n _ (ti_nodup _ H) (proj1 (ti_orphans _ H _ _) E)) as Hr.
    split; cbn [snd set_slots slots tombstones next_id next_tombstone capacity]; try apply H.
    + rewrite map_size_delete_Some by eauto. lia.
    + intros i x [_ Hx]%lookup_delete_Some. by eapply ti_ids.
    + intros i m. rewrite lookup_delete_Some, (ti_orphans _ H). setoid_rewrite Hr. cbn [fst]. naive_solver.
    + eapply sublist_NoDup; [exact (ti_nodup _ H)|]. apply fmap_sublist, remove_first_sublist.
Qed.

Lemma take_run t id :
  table_inv t →
  waiters (take t id).2 = delete id (waiters t) ∧
  (∀ i, is_orphan (take t id).2 i ↔ is_orphan t i ∧ i ≠ id) ∧
  match (take t id).1 with
  | TPending v => waiters t !! id = Some v
  | TOrphaned => is_orphan t id
  | TUnknown => waiters t !! id = None ∧ ¬ is_orphan t id
  end.
Proof.
  intros H. unfold take, is_orphan, waiters. destruct (slots t !! id) as [[v|n]|] eqn:E; cbn [fst snd set_slots slots].
  - split; [by rewrite omap_delete|]. split; [|by rewrite lookup_omap, E].
    intros i. setoid_rewrite lookup_delete_Some. naive_solver.
  - split; [by rewrite omap_delete|]. split; [|by eauto].
    intros i. setoid_rewrite lookup_delete_Some. naive_solver.
  - split; [|split; [naive_solver|split; [by rewrite lookup_omap, E|naive_solver]]].
    by rewrite delete_id by by rewrite lookup_omap, E.
Qed.

Lemma table_inv_orphan t id now owned : table_inv t → table_inv (orphan_if t id now owned).2.
Proof.
  intros H. pose proof (ti_size _ H). unfold orphan_if.
  destruct (slots t !! id) as [[v|n]|] eqn:E; [|done|done]. destruct (owned v); [|done].
  assert (Hid : id ∉ map (λ x, x.1.1) (tombstones t)).
  { intros ([[i n] u] & -> & Hx)%list_elem_of_fmap.
    assert (slots t !! i = Some (Orphan n)) by (apply (ti_orphans _ H); eauto). cbn [fst] in E. congruence. }
  split; cbn [snd slots tombstones next_id next_tombstone capacity]; try apply H.
  - rewrite map_size_insert_Some by eauto. lia.
  - intros i x [[<- _]|[_ Hx]]%lookup_insert_Some; by eapply ti_ids.
  - intros i n. rewrite lookup_insert_Some, (ti_orphans _ H). setoid_rewrite elem_of_app.
    setoid_rewrite list_elem_of_singleton. split.
    + intros [[-> [= ->]]|[_ (u & Hu)]]; eauto.
    + intros (u & [Hu|[= -> -> _]]); [|by left]. right. split; [|by eauto].
      intros ->. apply Hid, list_elem_of_fmap. by exists (i, n, u).
  - rewrite map_app. apply NoDup_app. split; [apply H|]. split; [|apply NoDup_singleton].
    intros i Hi ->%list_elem_of_singleton. done.
Qed.

Lemma orphan_run t id now owned :
  match (orphan_if t id now owned).1 with
  | Some v => waiters t !! id = Some v ∧ owned v = true ∧
      waiters (orphan_if t id now owned).2 = delete id (waiters t) ∧
      ∀ i, is_orphan (orphan_if t id now owned).2 i ↔ is_orphan t i ∨ i = id
  | None => (orphan_if t id now owned).2 = t ∧ ∀ v, waiters t !! id = Some v → owned v = false
  end.
Proof.
  unfold orphan_if, is_orphan, waiters.
  destruct (slots t !! id) as [[v|n]|] eqn:E; cbn [fst snd];
    [|split; [done|]; intros v; by rewrite lookup_omap, E..].
  destruct (owned v) eqn:Ev; cbn [fst snd slots].
  2:{ split; [done|]. intros w. rewrite lookup_omap, E. by intros [= <-]. }
  split; [by rewrite lookup_omap, E|]. split; [done|]. split.
  - apply map_eq. intros i. rewrite lookup_omap. destruct (decide (i = id)) as [->|Hne].
    + by rewrite lookup_insert_eq, lookup_delete_eq.
    + by rewrite lookup_insert_ne, lookup_delete_ne, lookup_omap.
  - intros i. setoid_rewrite lookup_insert_Some. destruct (decide (i = id)) as [->|]; naive_solver.
Qed.

Lemma sweep_run t now :
  table_inv t → table_inv (sweep t now) ∧ waiters (sweep t now) = waiters t ∧
  ∀ i, is_orphan (sweep t now) i → is_orphan t i.
Proof.
  intros H. destruct (sweep_spec t now H) as (dead & ts & E & -> & _).
  split; [by apply table_inv_without|]. pose proof (table_inv_orphans _ H) as Ho. rewrite E in Ho.
  apply without_spec in Ho as (_ & Hw & Hsub & _). unfold waiters. cbn [set_slots slots].
  split; [done|]. intros i (n & Hn). exists n. apply Hsub, Hn.
Qed.

(** The values waiting, in the map's order. *)
Definition values (w : gmap Z T) : list T := map snd (map_to_list w).

Lemma values_insert (w : gmap Z T) i v : w !! i = None → values (<[i := v]> w) ≡ₚ v :: values w.
Proof. intros H. unfold values. by rewrite map_to_list_insert. Qed.

Lemma values_delete (w : gmap Z T) i v : w !! i = Some v → values w ≡ₚ v :: values (delete i w).
Proof. intros H. unfold values. by rewrite <-(map_to_list_delete w i v H). Qed.

Lemma drain_run t :
  table_inv t →
  (drain_pending t).1 ≡ₚ values (waiters t) ∧ table_inv (drain_pending t).2 ∧
  waiters (drain_pending t).2 = ∅ ∧ ∀ i, ¬ is_orphan (drain_pending t).2 i.
Proof.
  intros H. unfold drain_pending. cbn [fst snd]. split; [|split; [|split]].
  - unfold values, waiters. clear H. induction (slots t) as [|i x m Hi IH] using map_ind.
    { by rewrite omap_empty, !map_to_list_empty. }
    rewrite (map_to_list_insert m i x) by done. cbn [omap list_omap]. destruct x as [v|n]; cbn [pending_value snd].
    + rewrite (omap_insert_Some pending_value m i _ v) by done.
      rewrite map_to_list_insert by (by rewrite lookup_omap, Hi). cbn [map snd]. exact (perm_skip v IH).
    + rewrite (omap_insert_None pending_value m i _) by done. rewrite delete_id by (by rewrite lookup_omap, Hi). done.
  - split; cbn [set_slots slots tombstones next_id next_tombstone capacity]; try apply H; try done.
    + rewrite map_size_empty. lia.
    + intros id n. rewrite lookup_empty. split; [done|]. by intros (u & []%not_elem_of_nil).
    + constructor.
  - unfold waiters. cbn [set_slots slots]. apply omap_empty.
  - intros i (n & Hn). cbn [set_slots slots] in Hn. by rewrite lookup_empty in Hn.
Qed.

(** ** Every query is answered or given back exactly once *)

(** The values a [take] hands out. *)
Definition taken (r : Taken T) : list T := match r with TPending v => [v] | _ => [] end.

(** One operation on a connection's table: the table, the queries it accepted
    and the ones it gave back, to their answer or to whoever cancels. *)
Inductive table_step : PendingTable T * list T * list T → PendingTable T * list T * list T → Prop :=
  | step_register t acc out v now id t' :
      register t v now = Ret (Ok id, t') → table_step (t, acc, out) (t', v :: acc, out)
  | step_refused t acc out v w now t' :
      register t v now = Ret (Err w, t') → table_step (t, acc, out) (t', acc, out)
  | step_sweep t acc out now : table_step (t, acc, out) (sweep t now, acc, out)
  | step_take t acc out id :
      table_step (t, acc, out) ((take t id).2, acc, taken (take t id).1 ++ out)
  | step_orphan t acc out id now owned :
      table_step (t, acc, out)
        ((orphan_if t id now owned).2, acc, option_list (orphan_if t id now owned).1 ++ out)
  | step_drain t acc out :
      table_step (t, acc, out) ((drain_pending t).2, acc, (drain_pending t).1 ++ out).

Definition accounted (x : PendingTable T * list T * list T) : Prop :=
  let '(t, acc, out) := x in table_inv t ∧ acc ≡ₚ out ++ values (waiters t).

Lemma accounted_step x y : table_step x y → accounted x → accounted y.
Proof.
  intros Hs. destruct Hs as [t acc out v now id t' E0|t acc out v w now t' E0| | | |];
    intros [H Hp]; cbn [accounted].
  - destruct (register_run t v now H) as (r & t'' & E & H' & Hr). rewrite E in E0.
    injection E0 as -> ->. destruct Hr as (_ & _ & Hn & -> & _). split; [done|].
    rewrite values_insert by done. rewrite Hp. apply Permutation_middle.
  - destruct (register_run t v now H) as (r & t'' & E & H' & Hr). rewrite E in E0.
    injection E0 as -> ->. destruct Hr as (_ & _ & ->). done.
  - destruct (sweep_run t now H) as (H' & -> & _). done.
  - split; [by apply table_inv_take|]. destruct (take_run t id H) as (-> & _ & Hr).
    destruct (take t id).1 as [v| |]; cbn [taken app].
    + rewrite Hp, (values_delete _ _ _ Hr). symmetry. apply Permutation_middle.
    + destruct Hr as (n & Hn). by rewrite delete_id by (unfold waiters; by rewrite lookup_omap, Hn).
    + by rewrite delete_id by apply Hr.
  - split; [by apply table_inv_orphan|]. pose proof (orphan_run t id now owned) as Hr.
    destruct (orphan_if t id now owned) as [[v|] t']; cbn [fst snd option_list app] in *.
    + destruct Hr as (Hv & _ & -> & _). rewrite Hp, (values_delete _ _ _ Hv). symmetry. apply Permutation_middle.
    + by destruct Hr as [-> _].
  - destruct (drain_run t H) as (Hd & H' & -> & _). split; [done|].
    unfold values at 1. rewrite map_to_list_empty, app_nil_r, Hd, Hp. apply Permutation_app_comm.
Qed.

(** C19: registering a query never loops for ever. It is refused only when every
    slot of the table waits for an answer, and then the query is given back and
    no waiter is lost. Otherwise the query gets a wire id that no waiting query
    has and that no cancelled one keeps, unless that one's tombstone expired
    or the full table gave up a tombstone for it; every other waiter stays, no id
    becomes an orphan, and the table keeps its invariant (at most [capacity]
    slots, tombstones and orphaned slots one to one). *)
Theorem register_fresh t v now :
  table_inv t →
  ∃ r t', register t v now = Ret (r, t') ∧ table_inv t' ∧
    match r with
    | Err w => w = v ∧ size (waiters t) = capacity t ∧ waiters t' = waiters t
    | Ok id => size (waiters t) < capacity t ∧ is_u16 id ∧ waiters t !! id = None ∧
        waiters t' = <[id := v]> (waiters t) ∧ (∀ i, is_orphan t' i → is_orphan t i ∧ i ≠ id) ∧
        (is_orphan t id → capacity t ≤ size (slots (sweep t now)) ∨
           ∃ n u, (id, n, u) ∈ tombstones t ∧ (u ≤ now)%Z)
    end.
Proof. apply register_run. Qed.

(** whatever the order of registrations, answers, cancellations, sweeps and
    the drain at the end, the queries the table accepted are exactly the ones
    still waiting in it and the ones it gave back: none is lost and none is
    answered twice; and the table's invariant holds throughout. *)
Theorem settled_once cap ttl start t acc out :
  is_u16 start → rtc table_step (with_start cap ttl start, [], []) (t, acc, out) →
  table_inv t ∧ acc ≡ₚ out ++ values (waiters t).
Proof.
  intros Hs Hr. change (accounted (t, acc, out)).
  refine (rtc_ind_l (λ x, accounted x → accounted (t, acc, out)) (t, acc, out) _ _ _ Hr _).
  - done.
  - intros x y Hxy _ IH Hx. by apply IH, (accounted_step x).
  - split; [by apply with_start_inv|]. unfold waiters, with_start, values. cbn [slots].
    by rewrite omap_empty, map_to_list_empty.
Qed.
End table.

(** A table of capacity 1 whose only slot is the orphan 65535: the next query
    evicts it, and the counter wraps. *)
Definition full_of_orphans : PendingTable nat :=
  (orphan_if (mkTable {[65535%Z := Pending 7]} [] 65535 0 1 10) 65535 0 (λ _, true)).2.

Lemma full_of_orphans_inv : table_inv full_of_orphans.
Proof.
  apply table_inv_orphan. split; cbn [slots tombstones next_id next_tombstone capacity]; try done.
  - unfold MAX_TABLE_CAPACITY. lia.
  - intros i x [<- _]%lookup_singleton_Some. done.
  - intros i n. rewrite lookup_singleton_Some. split; [by intros [_ ?]|]. by intros (u & []%not_elem_of_nil).
  - constructor.
Qed.

Lemma register_fresh_witness :
  ∃ r t', register full_of_orphans 8 1 = Ret (r, t') ∧ r = Ok 65535%Z ∧ next_id t' = 0%Z ∧ table_inv t'.
Proof.
  destruct (register_fresh full_of_orphans 8 1 full_of_orphans_inv) as (r & t' & E & H & _).
  exists r, t'. split; [exact E|]. vm_compute in E. injection E as <- <-. split; [reflexivity|].
  split; [reflexivity|exact H].
Defined.

Lemma settled_once_witness :
  ∃ t, table_inv t ∧ [9; 8] ≡ₚ [8] ++ values (waiters t).
Proof.
  set (t0 := with_start 2 10 5 : PendingTable nat).
  destruct (register t0 8 0) as [[r1 t1]| | |] eqn:E1; [|vm_compute in E1; discriminate..].
  destruct (register t1 9 0) as [[r2 t2]| | |] eqn:E2;
    [|vm_compute in E1; injection E1 as <- <-; vm_compute in E2; discriminate..].
  assert (r1 = Ok 5%Z) as -> by (vm_compute in E1; by injection E1).
  assert (r2 = Ok 6%Z) as -> by (vm_compute in E1; injection E1 as <-; vm_compute in E2; by injection E2).
  exists (take t2 5).2. apply (settled_once 2 10 5); [lia|].
  eapply rtc_l; [exact (step_register t0 [] [] 8 0 5 t1 E1)|].
  eapply rtc_l; [exact (step_register t1 [8] [] 9 0 6 t2 E2)|].
  apply rtc_once. pose proof (step_take t2 [9; 8] [] 5) as H.
  replace (taken (take t2 5).1 ++ []) with [8] in H; [exact H|].
  vm_compute in E1. injection E1 as <-. vm_compute in E2. injection E2 as <-. reflexivity.
Defined.
