(* ===== verification/StreamConn.v ===== *)
(** * A pipelined stream connection

    Models [crates/dns-lattice/src/upstream/stream.rs]: what the reader, the
    callers and the writer do to the state a connection shares, the reader's
    assembly of frames, and the retry rule of a pooled query. Each lock
    section, with the stores to the atomics that follow it, is one step. A
    waiter's channel is the log [settled] of what was sent to each serial
    number. *)

From stdpp Require Import base numbers list gmap strings.
From S2P Require Import Prelude CoreError Time Name Header RecordData Message Transport Pending.

Definition MAX_FRAME_LEN : nat := 2 + Z.to_nat u16_max.
Definition INITIAL_READ_BUFFER : nat := 2048.
Definition UNSOLICITED_LIMIT : Z := 16.

Record Failure : Type := mkFailure {
  f_error : Error;
  connection_level : bool;
}.

Definition failure_closed (reason : string) : Failure := mkFailure (Transport reason) true.
Definition failure_terminal (error : Error) : Failure := mkFailure error false.

Record Waiter : Type := mkWaiter { serial : Z }.

Notation Answer := (Result Failure Message).

Record Conn : Type := mkConn {
  table : PendingTable Waiter;
  closed : bool;
  slack : Z;
  slack_cap : Z;
  dead : bool;
  peer_closed : bool;
  answered : bool;
  next_serial : Z;
  queued : list (list Z);
  settled : list (Z * Answer);
  unsolicited : nat;
}.

(** [StreamConn::spawn]; [start] is the table's random first id. *)
Definition spawn (max_in_flight : nat) (read_timeout start : Z) : Conn :=
  mkConn (with_start max_in_flight read_timeout start) false UNSOLICITED_LIMIT
    (Z.min u32_max (UNSOLICITED_LIMIT + Z.of_nat max_in_flight mod 2 ^ 32))
    false false false 0 [] [] 0.

Definition set_table (c : Conn) (t : PendingTable Waiter) (slack : Z) : Conn :=
  mkConn t (closed c) slack (slack_cap c) (dead c) (peer_closed c) (answered c) (next_serial c)
    (queued c) (settled c) (unsolicited c).

Definition settle (c : Conn) (outcomes : list (Z * Answer)) : Conn :=
  mkConn (table c) (closed c) (slack c) (slack_cap c) (dead c) (peer_closed c) (answered c) (next_serial c)
    (queued c) (settled c ++ outcomes) (unsolicited c).

Definition set_answered (c : Conn) : Conn :=
  mkConn (table c) (closed c) (slack c) (slack_cap c) (dead c) (peer_closed c) true (next_serial c)
    (queued c) (settled c) (unsolicited c).

Definition set_peer_closed (c : Conn) : Conn :=
  mkConn (table c) (closed c) (slack c) (slack_cap c) (dead c) true (answered c) (next_serial c)
    (queued c) (settled c) (unsolicited c).

(** [PoolHooks::record_unsolicited] *)
Definition record_unsolicited (c : Conn) : Conn :=
  mkConn (table c) (closed c) (slack c) (slack_cap c) (dead c) (peer_closed c) (answered c) (next_serial c)
    (queued c) (settled c) (S (unsolicited c)).

(** [ConnShared::fail] *)
Definition fail (c : Conn) (failure : Failure) : Conn :=
  if closed c then c
  else
    let '(waiters, t) := drain_pending (table c) in
    settle (mkConn t true (slack c) (slack_cap c) true (peer_closed c) (answered c) (next_serial c)
              (queued c) (settled c) (unsolicited c))
      (map (λ w, (serial w, Err failure)) waiters).

(** ** The caller *)

Definition build_frame (payload : list Z) (wire : Z) : list Z :=
  let frame := to_be 2 (Z.of_nat (length payload) mod 65536) ++ payload in
  if decide (4 ≤ length frame) then firstn 2 frame ++ to_be 2 wire ++ drop 4 frame else frame.

Definition bump_serial (c : Conn) : Conn :=
  mkConn (table c) (closed c) (slack c) (slack_cap c) (dead c) (peer_closed c) (answered c)
    (wrapping_add 64 (next_serial c) 1) (queued c) (settled c) (unsolicited c).

Definition enqueue (c : Conn) (frame : list Z) : Conn :=
  mkConn (table c) (closed c) (slack c) (slack_cap c) (dead c) (peer_closed c) (answered c) (next_serial c)
    (queued c ++ [frame]) (settled c) (unsolicited c).

(** [StreamConn::submit]: the wire id and the serial number of the guard.
    [room] says whether the channel to the writer takes the frame. *)
Definition submit (c : Conn) (payload : list Z) (now : Z) (room : bool) :
    Run Error (Result Failure (Z * Z) * Conn) :=
  let s := next_serial c in
  let c := bump_serial c in
  if closed c then Ret (Err (failure_closed "upstream connection is closed"), c)
  else
    '(r, t) ← register (table c) (mkWaiter s) now;
    let c := set_table c t (slack c) in
    match r with
    | Err _ => Ret (Err (failure_terminal (Transport "upstream connection has no free query slot")), c)
    | Ok wire =>
        if room then Ret (Ok (wire, s), enqueue c (build_frame payload wire))
        else
          let c := set_table c (take (table c) wire).2 (slack c) in
          let failure := failure_closed "upstream connection cannot take more writes" in
          Ret (Err failure, fail c failure)
    end.

(** [PendingGuard::drop] of an armed guard: whether the query was cancelled. *)
Definition guard_drop (c : Conn) (wire s now : Z) : bool * Conn :=
  let '(o, t) := orphan_if (table c) wire now (λ w, bool_decide (serial w = s)) in
  match o with
  | Some _ => (true, set_table c t (Z.min (Z.min u32_max (slack c + 1)) (slack_cap c)))
  | None => (false, set_table c t (slack c))
  end.

(** [StreamConn::shutdown] *)
Definition shutdown (c : Conn) : Conn := fail c (failure_closed "upstream connection was closed").

(** ** The reader *)

Definition undecodable : Failure := failure_closed "upstream sent an undecodable response".

(** [dispatch]: one complete frame; [false] when the connection ended. *)
Definition dispatch (c : Conn) (frame : list Z) : Run Error (bool * Conn) :=
  match frame with
  | b0 :: b1 :: _ =>
      let '(taken, t) := take (table c) (from_be [b0; b1]) in
      match taken with
      | TPending waiter =>
          let c := set_table c t (Z.max (slack c) UNSOLICITED_LIMIT) in
          match decode frame with
          | Ret message => Ret (true, settle (set_answered c) [(serial waiter, Ok message)])
          | Throw err => Ret (false, fail (settle c [(serial waiter, Err (failure_terminal err))]) undecodable)
          | Panic => Panic
          | Hang => Hang
          end
      | TOrphaned => Ret (true, set_table c t (slack c))
      | TUnknown =>
          let c := set_table c t (slack c) in
          if decide (slack c = 0)%Z
          then Ret (false, fail (record_unsolicited c)
                             (failure_closed "upstream sent too many unsolicited responses"))
          else Ret (true, record_unsolicited (set_table c (table c) (slack c - 1)))
      end
  | _ => Ret (false, fail c undecodable)
  end.

(** The complete frames at the front of the buffer, one after the other. Each
    takes at least two bytes, so the buffer's length is fuel enough. *)
Fixpoint drain (fuel : nat) (c : Conn) (buf : list Z) : Run Error (bool * Conn * list Z) :=
  match fuel with
  | O => Ret (true, c, buf)
  | S fuel =>
      match buf with
      | b0 :: b1 :: rest =>
          let len := Z.to_nat (from_be [b0; b1]) in
          if decide (len ≤ length rest) then
            '(alive, c) ← dispatch c (firstn len rest);
            if (alive : bool) then drain fuel c (drop len rest) else Ret (false, c, [])
          else Ret (true, c, buf)
      | _ => Ret (true, c, buf)
      end
  end.

(** The spare capacity asked for before a read. *)
Definition grow (cap : nat) (buf : list Z) : nat :=
  if decide (length buf = cap) then
    let target := Nat.min (Nat.max (cap * 2) INITIAL_READ_BUFFER) MAX_FRAME_LEN in
    length buf + Nat.max 1 (target - length buf)
  else cap.

(** What a wait for more input yields: bytes, the end of the stream, an error
    (whether it is a reset or an abort, and its text), or the signal that the
    connection was closed. *)
Inductive ReadEvent : Type :=
  | ReadBytes (bytes : list Z)
  | ReadEnd
  | ReadError (reset : bool) (text : string)
  | ReadStopped.

Definition read_end_reason (buf : list Z) : string :=
  match buf with
  | [] => "upstream closed the connection"
  | _ => "upstream closed the connection in the middle of a response"
  end.

(** [run_reader] on the events of its reads, up to the last of them. *)
Fixpoint run_reader (c : Conn) (cap : nat) (buf : list Z) (events : list ReadEvent) :
    Run Error (bool * Conn * nat * list Z) :=
  '(alive, c, buf) ← drain (length buf) c buf;
  if negb alive then Ret (false, c, cap, buf)
  else
    let cap := grow cap buf in
    match events with
    | [] => Ret (true, c, cap, buf)
    | ReadBytes bytes :: events => run_reader c cap (buf ++ bytes) events
    | ReadEnd :: _ => Ret (false, fail (set_peer_closed c) (failure_closed (read_end_reason buf)), cap, buf)
    | ReadError reset text :: _ =>
        Ret (false, fail (if reset then set_peer_closed c else c) (failure_closed text), cap, buf)
    | ReadStopped :: _ => Ret (false, c, cap, buf)
    end.

Definition reader (c : Conn) (events : list ReadEvent) : Run Error (bool * Conn * nat * list Z) :=
  run_reader c INITIAL_READ_BUFFER [] events.

(** [run_writer]: a write that fails, or takes longer than the timeout. *)
Definition writer_failed (c : Conn) (error : option string) : Conn :=
  match error with
  | Some text => fail c (failure_closed text)
  | None => fail c (failure_terminal Timeout)
  end.

(** ** The reader does not depend on how the bytes arrive *)

Lemma dispatch_frame_rest c buf fuel fuel' :
  length buf ≤ fuel → length buf ≤ fuel' → drain fuel c buf = drain fuel' c buf.
Proof.
  revert c buf fuel'. induction fuel as [|fuel IH]; intros c buf fuel' H H'.
  { destruct buf; [|cbn in H; lia]. by destruct fuel'. }
  destruct buf as [|b0 [|b1 rest]]; [by destruct fuel'..|]. cbn [length] in H, H'.
  destruct fuel' as [|fuel']; [lia|]. cbn [drain]. case_decide; [|done].
  destruct (dispatch c _) as [[[] c']| | |]; cbn [mbind run_bind]; try done.
  apply IH; rewrite length_drop; lia.
Qed.

Definition drained (c : Conn) (buf : list Z) : Run Error (bool * Conn * list Z) := drain (length buf) c buf.

Lemma drained_eq c buf :
  drained c buf =
    match buf with
    | b0 :: b1 :: rest =>
        let len := Z.to_nat (from_be [b0; b1]) in
        if decide (len ≤ length rest) then
          '(alive, c) ← dispatch c (firstn len rest);
          if (alive : bool) then drained c (drop len rest) else Ret (false, c, [])
        else Ret (true, c, buf)
    | _ => Ret (true, c, buf)
    end.
Proof.
  unfold drained. destruct buf as [|b0 [|b1 rest]]; [done..|]. cbn [length].
  remember (S (length rest)) as k eqn:Hk. cbn [drain]. case_decide; [|done].
  destruct (dispatch c _) as [[[] c']| | |]; cbn [mbind run_bind]; try done.
  apply dispatch_frame_rest; rewrite length_drop; lia.
Qed.

Lemma drained_app c b1 b2 :
  drained c (b1 ++ b2) =
    '(alive, c, rest) ← drained c b1;
    if (alive : bool) then drained c (rest ++ b2) else Ret (false, c, []).
Proof.
  remember (length b1) as n eqn:Hn. revert c b1 Hn. induction (lt_wf n) as [n _ IH]. intros c b1 ->.
  destruct b1 as [|x0 [|x1 rest]]; [done..|]. rewrite (drained_eq c (x0 :: x1 :: rest)). cbn zeta.
  destruct (decide _) as [Hl|Hl]; [|done]. rewrite drained_eq. cbn [app]. cbn zeta.
  rewrite decide_True by (rewrite length_app; lia). rewrite take_app_le, drop_app_le by lia.
  destruct (dispatch c _) as [[[] c']| | |]; cbn [mbind run_bind]; try done.
  apply (IH (length (drop (Z.to_nat (from_be [x0; x1])) rest))); [rewrite length_drop; cbn [length]; lia|done].
Qed.

(** What the reader leaves behind for others to see. *)
Definition outcome (r : Run Error (bool * Conn * nat * list Z)) : Run Error (bool * Conn) :=
  '(alive, c, _, _) ← r; Ret (alive, c).

Lemma run_reader_cap c cap cap' buf events :
  outcome (run_reader c cap buf events) = outcome (run_reader c cap' buf events).
Proof.
  revert c cap cap' buf. induction events as [|e events IH]; intros c cap cap' buf; cbn [run_reader];
    destruct (drain _ c buf) as [[[[] c'] rest]| | |]; cbn [mbind run_bind negb]; try done.
  by destruct e.
Qed.

Lemma run_reader_bytes c cap buf bytes events :
  outcome (run_reader c cap buf (ReadBytes bytes :: events)) = outcome (run_reader c cap (buf ++ bytes) events).
Proof.
  cbn [run_reader]. fold (drained c buf).
  assert (H : ∀ c cap buf events, outcome (run_reader c cap buf events) =
    outcome ('(alive, c', rest) ← drained c buf;
             if (alive : bool) then run_reader c' cap rest events else Ret (false, c', cap, []))).
  { clear. intros c cap buf events. destruct events; cbn [run_reader]; fold (drained c buf);
      pose proof (drained_app c buf []) as Ha; rewrite app_nil_r in Ha;
      destruct (drained c buf) as [[[[] c'] rest]| | |]; cbn [mbind run_bind negb] in *; try done;
      rewrite app_nil_r in Ha; fold (drained c' rest); by rewrite <-Ha. }
  rewrite (H c cap (buf ++ bytes)), drained_app.
  destruct (drained c buf) as [[[[] c'] rest]| | |]; cbn [mbind run_bind negb]; try done.
  rewrite (run_reader_cap _ _ cap). apply H.
Qed.

Lemma run_reader_chunks c cap buf chunks events :
  outcome (run_reader c cap buf (map ReadBytes chunks ++ events)) =
  outcome (run_reader c cap (buf ++ concat chunks) events).
Proof.
  revert buf. induction chunks as [|b chunks IH]; intros buf; cbn [map app concat]; [by rewrite app_nil_r|].
  rewrite run_reader_bytes, IH. by rewrite app_assoc.
Qed.

(** The bytes left of a frame that has not arrived in full. *)
Definition partial (tail : list Z) : Prop :=
  length tail < 2 ∨ length tail < 2 + Z.to_nat (from_be (firstn 2 tail)).

Fixpoint dispatch_all (c : Conn) (payloads : list (list Z)) : Run Error (bool * Conn) :=
  match payloads with
  | [] => Ret (true, c)
  | p :: payloads => '(alive, c) ← dispatch c p; if (alive : bool) then dispatch_all c payloads else Ret (false, c)
  end.

Lemma drained_partial c tail : partial tail → drained c tail = Ret (true, c, tail).
Proof.
  intros H. rewrite drained_eq. destruct tail as [|b0 [|b1 rest]]; [done..|]. cbn zeta.
  unfold partial in H. change (firstn 2 (b0 :: b1 :: rest)) with [b0; b1] in H. cbn [length] in H. rewrite decide_False by lia. done.
Qed.

Lemma drained_frames c payloads tail :
  Forall (λ p, Z.of_nat (length p) ≤ u16_max)%Z payloads → partial tail →
  drained c (concat (map frame payloads) ++ tail) =
    '(alive, c) ← dispatch_all c payloads; Ret (alive, c, if (alive : bool) then tail else []).
Proof.
  intros Hp Ht. revert c. induction Hp as [|p payloads Hp _ IH]; intros c; [by apply drained_partial|].
  cbn [map concat dispatch_all]. unfold frame at 1. rewrite <-!app_assoc.
  pose proof (from_to_be 2 (Z.of_nat (length p))) as Hb. pose proof (length_to_be 2 (Z.of_nat (length p))) as Hl.
  destruct (to_be 2 (Z.of_nat (length p))) as [|b0 [|b1 [|b2 ?]]]; [done..| |done].
  rewrite drained_eq. cbn [app]. rewrite Hb by (change (256 ^ Z.of_nat 2)%Z with 65536%Z; lia).
  rewrite Nat2Z.id. cbn zeta. rewrite decide_True by (rewrite length_app; lia).
  rewrite take_app_length, drop_app_length. destruct (dispatch c p) as [[[] c']| | |]; cbn [mbind run_bind]; try done.
Qed.

Lemma split_stream bytes :
  bytes_ok bytes →
  ∃ payloads tail, bytes = concat (map frame payloads) ++ tail ∧ partial tail ∧
    Forall (λ p, Z.of_nat (length p) ≤ u16_max)%Z payloads.
Proof.
  remember (length bytes) as n eqn:Hn. revert bytes Hn. induction (lt_wf n) as [n _ IH]. intros bytes -> Hb.
  destruct (decide (length bytes < 2)) as [|H2]; [by exists [], bytes; split_and!; [|left|constructor]|].
  destruct bytes as [|b0 [|b1 rest]]; [cbn in H2; lia..|]. set (len := Z.to_nat (from_be [b0; b1])).
  destruct (decide (length rest < len)) as [Hl|Hl].
  { exists [], (b0 :: b1 :: rest). split; [done|]. split; [|constructor].
    right. change (firstn 2 (b0 :: b1 :: rest)) with [b0; b1]. fold len. cbn [length]. lia. }
  apply Forall_cons in Hb as [Hb0 Hb]. apply Forall_cons in Hb as [Hb1 Hb].
  assert (Hok : bytes_ok [b0; b1]) by (constructor; [done|constructor; [done|constructor]]).
  pose proof (from_be_bound _ Hok) as Hbound. change (256 ^ Z.of_nat (length [b0; b1]))%Z with 65536%Z in Hbound.
  destruct (IH (length (drop len rest))) with (bytes := drop len rest) as (ps & tail & E & Ht & Hps);
    [rewrite length_drop; cbn [length]; lia|done|by apply Forall_drop|].
  assert (Hlen : length (firstn len rest) = len) by (rewrite length_take; lia).
  exists (firstn len rest :: ps), tail. split; [|split; [done|constructor; [lia|done]]].
  cbn [map concat]. unfold frame at 1. rewrite Hlen. unfold len at 1. rewrite Z2Nat.id by lia.
  pose proof (to_from_be _ Hok) as Hto. cbn [length] in Hto. rewrite Hto, <-!app_assoc, <-E. cbn [app].
  by rewrite firstn_skipn.
Qed.

Lemma grow_spec cap tail :
  bytes_ok tail → partial tail → length tail ≤ cap ≤ MAX_FRAME_LEN →
  length tail < grow cap tail ≤ MAX_FRAME_LEN.
Proof.
  intros Hb Hp Hcap. unfold grow, INITIAL_READ_BUFFER.
  assert (length tail < MAX_FRAME_LEN).
  { unfold MAX_FRAME_LEN. destruct Hp as [|Hp]; [lia|].
    pose proof (from_be_bound _ (Forall_take _ 2 _ Hb)) as Hbound.
    assert (256 ^ Z.of_nat (length (firstn 2 tail)) ≤ 65536)%Z.
    { change 65536%Z with (256 ^ 2)%Z. apply Z.pow_le_mono_r; [lia|]. rewrite length_take. lia. }
    lia. }
  case_decide; [|lia]. assert (1 ≤ MAX_FRAME_LEN) by lia. lia.
Qed.

(** C20: The reader assembles the same frames however the stream is cut into
    reads. Whatever bytes arrive are a sequence of length-prefixed payloads and
    the start of one more; the reader dispatches exactly those payloads, in
    order, until one ends the connection, and goes on with the unfinished tail;
    and before a read the buffer has spare room, with never more than one frame
    of capacity. *)
Theorem reader_chunking c chunks :
  bytes_ok (concat chunks) →
  ∃ payloads tail,
    concat chunks = concat (map frame payloads) ++ tail ∧ partial tail ∧
    (∀ chunks' events, concat chunks' = concat chunks →
      outcome (reader c (map ReadBytes chunks' ++ events)) =
        '(alive, c) ← dispatch_all c payloads;
        if (alive : bool) then outcome (run_reader c INITIAL_READ_BUFFER tail events) else Ret (false, c)) ∧
    (∀ cap, length tail ≤ cap ≤ MAX_FRAME_LEN → length tail < grow cap tail ≤ MAX_FRAME_LEN).
Proof.
  intros Hb. destruct (split_stream _ Hb) as (ps & tail & E & Ht & Hps). exists ps, tail.
  split; [done|]. split; [done|]. split.
  2:{ intros cap. apply grow_spec; [|done]. rewrite E in Hb. by apply Forall_app in Hb as [_ Hb]. }
  intros chunks' events Ec. unfold reader. rewrite run_reader_chunks, Ec. cbn [app]. rewrite E.
  destruct events as [|e events]; cbn [run_reader]; fold (drained c (concat (map frame ps) ++ tail));
    rewrite drained_frames by done; destruct (dispatch_all c ps) as [[[] c']| | |]; cbn [mbind run_bind negb]; try done;
    fold (drained c' tail); by rewrite drained_partial.
Qed.

(** ** What happens to the queries of a connection *)

Lemma decode_id frame m b0 b1 rest :
  frame = b0 :: b1 :: rest → decode frame = Ret m → id (header m) = from_be [b0; b1].
Proof.
  intros -> H. unfold decode in H. apply run_bind_ret in H as ([[h c] pos] & Eh & H).
  assert (header m = h) as ->.
  { repeat (apply run_bind_ret in H as ([? ?] & _ & H)). by injection H as <-. }
  unfold decode_header in Eh. apply run_bind_ret in Eh as ([i pos1] & Er & Eh).
  repeat (apply run_bind_ret in Eh as ([? ?] & _ & Eh)). injection Eh as <- _ _. cbn [header_of_flags id].
  unfold read_u16, index in Er. cbn in Er. by injection Er as <- _.
Qed.

(** A connection, the serial numbers and wire ids it issued, and the queries
    cancelled by the drop of their guard. *)
Notation ConnRun := (Conn * list (Z * Z) * list Z)%type.

Inductive conn_step : ConnRun → ConnRun → Prop :=
  | cs_submit c issued cancelled payload now room wire s c' :
      (next_serial c < u64_max)%Z → submit c payload now room = Ret (Ok (wire, s), c') →
      conn_step (c, issued, cancelled) (c', (s, wire) :: issued, cancelled)
  | cs_refused c issued cancelled payload now room f c' :
      (next_serial c < u64_max)%Z → submit c payload now room = Ret (Err f, c') →
      conn_step (c, issued, cancelled) (c', issued, cancelled)
  | cs_drop c issued cancelled wire s now :
      conn_step (c, issued, cancelled)
        ((guard_drop c wire s now).2, issued, if (guard_drop c wire s now).1 then s :: cancelled else cancelled)
  | cs_frame c issued cancelled frame alive c' :
      dispatch c frame = Ret (alive, c') → conn_step (c, issued, cancelled) (c', issued, cancelled)
  | cs_end c issued cancelled (peer : bool) reason :
      conn_step (c, issued, cancelled)
        (fail (if peer then set_peer_closed c else c) (failure_closed reason), issued, cancelled)
  | cs_writer c issued cancelled error : conn_step (c, issued, cancelled) (writer_failed c error, issued, cancelled)
  | cs_shutdown c issued cancelled : conn_step (c, issued, cancelled) (shutdown c, issued, cancelled).

Record conn_inv (c : Conn) (issued : list (Z * Z)) (cancelled : list Z) : Prop := {
  ci_table : table_inv (table c);
  ci_closed : closed c = true → waiters (table c) = ∅;
  ci_once : map fst issued ≡ₚ map fst (settled c) ++ cancelled ++ map serial (values (waiters (table c)));
  ci_nodup : NoDup (map fst issued);
  ci_serials s wire : (s, wire) ∈ issued → (s < next_serial c)%Z;
  ci_waiters wire w : waiters (table c) !! wire = Some w → (serial w, wire) ∈ issued;
  ci_answers s m : (s, Ok m) ∈ settled c → ∃ wire, (s, wire) ∈ issued ∧ id (header m) = wire;
  ci_slack : (0 ≤ slack c ≤ slack_cap c)%Z;
  ci_slack_cap : (UNSOLICITED_LIMIT ≤ slack_cap c ≤ u32_max)%Z;
  ci_next : is_u64 (next_serial c);
}.

(** Only these parts of a connection are in the invariant. *)
Lemma conn_inv_ext c c' issued cancelled :
  table c' = table c → closed c' = closed c → slack c' = slack c → slack_cap c' = slack_cap c →
  next_serial c' = next_serial c → settled c' = settled c →
  conn_inv c issued cancelled → conn_inv c' issued cancelled.
Proof. intros E1 E2 E3 E4 E5 E6 []. split; rewrite ?E1, ?E2, ?E3, ?E4, ?E5, ?E6; done. Qed.

(** A waiter leaves the table, answered or cancelled. *)
Lemma conn_inv_leave c c' issued cancelled cancelled' wire w outcomes :
  conn_inv c issued cancelled → waiters (table c) !! wire = Some w →
  table_inv (table c') → waiters (table c') = delete wire (waiters (table c)) →
  closed c' = closed c → slack_cap c' = slack_cap c → next_serial c' = next_serial c →
  (0 ≤ slack c' ≤ slack_cap c)%Z → settled c' = settled c ++ outcomes →
  map fst outcomes ++ cancelled' ≡ₚ serial w :: cancelled →
  (∀ s m, (s, Ok m) ∈ outcomes → s = serial w ∧ id (header m) = wire) →
  conn_inv c' issued cancelled'.
Proof.
  intros [] Hw Ht Ew Ec Ecap En Hs Es Hp Ho. split; rewrite ?Ec, ?Ecap, ?En; try done.
  - rewrite Ew. intros Hc. rewrite ci_closed0 in Hw by done. by rewrite lookup_empty in Hw.
  - rewrite ci_once0, Es, Ew, map_app, (values_delete _ _ _ Hw). cbn [map].
    rewrite <-!app_assoc. apply Permutation_app_head. rewrite (app_assoc (map fst outcomes)), Hp. cbn [app].
    by rewrite Permutation_middle.
  - rewrite Ew. intros i v [_ Hv]%lookup_delete_Some. by apply ci_waiters0.
  - intros s m. rewrite Es. intros [Hm|[-> Hm]%Ho]%elem_of_app; [by apply ci_answers0|].
    exists wire. split; [by apply ci_waiters0|done].
Qed.

Lemma fail_inv c f issued cancelled : conn_inv c issued cancelled → conn_inv (fail c f) issued cancelled.
Proof.
  intros H. unfold fail. destruct (closed c) eqn:Ec; [done|]. destruct H.
  destruct (drain_run (table c) ci_table0) as (Hd & Ht & Hw & _).
  destruct (drain_pending (table c)) as [ws t]. cbn [fst snd] in Hd, Ht, Hw.
  split; cbn [settle table closed slack slack_cap next_serial settled]; try done.
  - rewrite Hw. unfold values. rewrite map_to_list_empty. cbn [map]. rewrite app_nil_r, ci_once0, map_app.
    rewrite map_map. cbn [fst]. rewrite <-Hd, <-app_assoc. apply Permutation_app_head, Permutation_app_comm.
  - rewrite Hw. intros i w. by rewrite lookup_empty.
  - intros s m [Hm|Hm]%elem_of_app; [by apply ci_answers0|]. apply list_elem_of_fmap in Hm as (w & [=] & _).
Qed.

Lemma table_step_inv c issued cancelled t sl :
  conn_inv c issued cancelled → table_inv t → waiters t = waiters (table c) → (0 ≤ sl ≤ slack_cap c)%Z →
  conn_inv (set_table c t sl) issued cancelled.
Proof.
  intros [] Ht Hw Hs. split; cbn [set_table table closed slack slack_cap next_serial settled]; rewrite ?Hw; done.
Qed.

Lemma bump_serial_inv c issued cancelled :
  (next_serial c < u64_max)%Z → conn_inv c issued cancelled →
  conn_inv (bump_serial c) issued cancelled ∧ next_serial (bump_serial c) = (next_serial c + 1)%Z.
Proof.
  intros Hn []. assert (Hw : wrapping_add 64 (next_serial c) 1 = (next_serial c + 1)%Z).
  { unfold wrapping_add. apply Z.mod_small. change (2 ^ 64)%Z with 18446744073709551616%Z. lia. }
  split; [|exact Hw].
  split; cbn [bump_serial table closed slack slack_cap next_serial settled]; rewrite ?Hw; try done; [|lia].
  intros s wire Hs. apply ci_serials0 in Hs. lia.
Qed.

Lemma register_inv c issued cancelled s wire t now :
  conn_inv c issued cancelled → closed c = false → next_serial c = (s + 1)%Z → s ∉ map fst issued →
  register (table c) (mkWaiter s) now = Ret (Ok wire, t) →
  conn_inv (set_table c t (slack c)) ((s, wire) :: issued) cancelled ∧
  waiters t = <[wire := mkWaiter s]> (waiters (table c)) ∧ waiters (table c) !! wire = None.
Proof.
  intros [] Hc Hn Hs Hr. destruct (register_run (table c) (mkWaiter s) now ci_table0) as (r & t' & E & Ht & H).
  rewrite E in Hr. apply ret_pair_inj in Hr as [-> ->]. destruct H as (_ & Hw & Hf & Ew & _).
  split; [|done]. split; cbn [set_table table closed slack slack_cap next_serial settled]; rewrite ?Ew; try done.
  - by rewrite Hc.
  - rewrite values_insert by done. cbn [map fst]. rewrite ci_once0.
    rewrite !app_assoc. cbn [map serial]. apply Permutation_middle.
  - cbn [map fst]. by apply NoDup_cons.
  - intros s' w [[= -> ->]|H]%elem_of_cons; [lia|by eapply ci_serials0].
  - intros i w [[<- <-]|[_ H]]%lookup_insert_Some; apply elem_of_cons; [by left|right; by apply ci_waiters0].
  - intros s' m (w & Hi & Hm)%ci_answers0. exists w. split; [apply elem_of_cons; by right|done].
Qed.

Lemma set_table_taken c t wire s sl issued cancelled :
  table_inv t → waiters t = <[wire := mkWaiter s]> (waiters (table c)) → waiters (table c) !! wire = None →
  conn_inv c issued cancelled → (0 ≤ sl ≤ slack_cap c)%Z →
  conn_inv (set_table c (take t wire).2 sl) issued cancelled.
Proof.
  intros Ht Ew Hf H Hs. apply table_step_inv; [done|by apply table_inv_take| |done].
  destruct (take_run t wire Ht) as (-> & _). by rewrite Ew, delete_insert_id.
Qed.

Lemma serial_fresh c issued cancelled :
  conn_inv c issued cancelled → next_serial c ∉ map fst issued.
Proof.
  intros [] ([s w] & E & H)%list_elem_of_fmap. apply ci_serials0 in H. cbn [fst] in E. lia.
Qed.

Lemma submit_inv c payload now room r c' issued cancelled :
  conn_inv c issued cancelled → (next_serial c < u64_max)%Z →
  submit c payload now room = Ret (r, c') →
  conn_inv c' (match r with Ok (wire, s) => [(s, wire)] | Err _ => [] end ++ issued) cancelled.
Proof.
  intros H Hn. destruct (bump_serial_inv c issued cancelled Hn H) as [Hb Hs].
  pose proof (serial_fresh _ _ _ H) as Hfresh. unfold submit. destruct (closed (bump_serial c)) eqn:Ec.
  { intros E. by apply ret_pair_inj in E as [<- <-]. }
  intros E. apply run_bind_ret in E as ([[wire|v] t] & Er & E).
  - destruct (register_inv _ _ _ _ _ _ _ Hb Ec Hs Hfresh Er) as (Hi & Ew & Hnone).
    destruct room; apply ret_pair_inj in E as [<- <-]; cbn [app].
    + by eapply conn_inv_ext; [..|exact Hi].
    + apply fail_inv. eapply (set_table_taken (bump_serial c) t wire); try done; [apply Hi|apply Hb].
  - apply ret_pair_inj in E as [<- <-]. cbn [app].
    destruct (register_run (table (bump_serial c)) (mkWaiter (next_serial c)) now) as (r & t' & E & Ht & Hr); [apply Hb|].
    rewrite E in Er. apply ret_pair_inj in Er as [-> ->]. apply table_step_inv; try done; [apply Hr|apply Hb].
Qed.

Lemma guard_drop_inv c wire s now issued cancelled :
  conn_inv c issued cancelled →
  conn_inv (guard_drop c wire s now).2 issued
    (if (guard_drop c wire s now).1 then s :: cancelled else cancelled).
Proof.
  intros H. pose proof (table_inv_orphan _ wire now (λ w, bool_decide (serial w = s)) (ci_table _ _ _ H)) as Ht.
  pose proof (orphan_run (table c) wire now (λ w, bool_decide (serial w = s))) as Ho. unfold guard_drop.
  pose proof (ci_slack _ _ _ H) as Hsl. pose proof (ci_slack_cap _ _ _ H) as Hcap.
  destruct (orphan_if (table c) wire now _) as [[w|] t]; cbn [fst snd] in *.
  - destruct Ho as (Hw & Hs & Ew & _). apply bool_decide_eq_true in Hs as <-.
    eapply (conn_inv_leave c _ issued cancelled _ wire w []); try done; cbn [set_table slack settled].
    + unfold UNSOLICITED_LIMIT in *. lia.
    + by rewrite app_nil_r.
    + by intros s m []%not_elem_of_nil.
  - destruct Ho as [-> _]. apply table_step_inv; [done|apply H|done|done].
Qed.

Lemma dispatch_inv c frame alive c' issued cancelled :
  conn_inv c issued cancelled → dispatch c frame = Ret (alive, c') → conn_inv c' issued cancelled.
Proof.
  intros H. unfold dispatch. destruct frame as [|b0 [|b1 rest]].
  1,2: intros E; apply ret_pair_inj in E as [_ <-]; by apply fail_inv.
  pose proof (table_inv_take _ (from_be [b0; b1]) (ci_table _ _ _ H)) as Ht.
  pose proof (take_run _ (from_be [b0; b1]) (ci_table _ _ _ H)) as (Ew & _ & Hr).
  pose proof (ci_slack _ _ _ H) as Hsl. pose proof (ci_slack_cap _ _ _ H) as Hcap.
  destruct (take (table c) _) as [[w| |] t]; cbn [fst snd] in *.
  - assert (Hleave : ∀ o c', settled c' = settled c ++ [(serial w, o)] → table c' = t → closed c' = closed c →
      slack_cap c' = slack_cap c → next_serial c' = next_serial c → slack c' = Z.max (slack c) UNSOLICITED_LIMIT →
      (∀ m, o = Ok m → id (header m) = from_be [b0; b1]) → conn_inv c' issued cancelled).
    { intros o c2 Es Et Ec Ecap En Esl Ho.
      eapply (conn_inv_leave c c2 issued cancelled cancelled (from_be [b0; b1]) w _ H Hr); rewrite ?Et; try done.
      - rewrite Esl. unfold UNSOLICITED_LIMIT in *. lia.
      - by intros s m [= -> <-]%list_elem_of_singleton; split; [|apply Ho]. }
    destruct (decode (b0 :: b1 :: rest)) as [m|e| |] eqn:Ed; intros E; try done; apply ret_pair_inj in E as [_ <-].
    + apply (Hleave (Ok m)); try done. intros ? [= <-]. by eapply decode_id.
    + apply fail_inv. by apply (Hleave (Err (failure_terminal e))).
  - intros E; apply ret_pair_inj in E as [_ <-]. apply table_step_inv; try done.
    rewrite Ew. destruct Hr as (n & Hn). apply delete_id. unfold waiters. by rewrite lookup_omap, Hn.
  - assert (waiters t = waiters (table c)) as Ew' by (rewrite Ew; by apply delete_id, Hr).
    cbn [set_table slack]. case_decide as Hz; intros E; apply ret_pair_inj in E as [_ <-].
    + apply fail_inv. eapply conn_inv_ext; [..|exact (table_step_inv c issued cancelled t (slack c) H Ht Ew' Hsl)]; done.
    + eapply conn_inv_ext; [..|refine (table_step_inv c issued cancelled t (slack c - 1) H Ht Ew' _)]; try done. lia.
Qed.

Lemma conn_step_inv x y :
  conn_step x y → conn_inv x.1.1 x.1.2 x.2 → conn_inv y.1.1 y.1.2 y.2.
Proof.
  intros Hs. destruct Hs; cbn [fst snd]; intros Hi.
  - by pose proof (submit_inv _ _ _ _ _ _ _ _ Hi H H0) as Hr.
  - by pose proof (submit_inv _ _ _ _ _ _ _ _ Hi H H0) as Hr.
  - by apply guard_drop_inv.
  - by eapply dispatch_inv.
  - apply fail_inv. destruct peer; [|done]. by eapply conn_inv_ext; [..|exact Hi].
  - unfold writer_failed. destruct error; by apply fail_inv.
  - by apply fail_inv.
Qed.

Lemma spawn_inv n ttl start : is_u16 start → conn_inv (spawn n ttl start) [] [].
Proof.
  intros Hs. assert (Hw : waiters (with_start (T:=Waiter) n ttl start) = ∅) by apply omap_empty.
  split; cbn [spawn table closed slack slack_cap next_serial settled]; rewrite ?Hw; try done.
  - by apply with_start_inv.
  - constructor.
  - by intros s w []%not_elem_of_nil.
  - by intros s m []%not_elem_of_nil.
  - unfold UNSOLICITED_LIMIT. pose proof (Z.mod_pos_bound (Z.of_nat n) (2 ^ 32)). lia.
  - unfold UNSOLICITED_LIMIT. pose proof (Z.mod_pos_bound (Z.of_nat n) (2 ^ 32)). lia.
Qed.

Lemma fail_cap c f : slack_cap (fail c f) = slack_cap c.
Proof. unfold fail. destruct (closed c); [done|]. by destruct (drain_pending (table c)). Qed.

(** The cap of the allowance is fixed. *)
Lemma conn_step_cap x y : conn_step x y → slack_cap y.1.1 = slack_cap x.1.1.
Proof.
  assert (Hsub : ∀ c payload now room r c', submit c payload now room = Ret (r, c') → slack_cap c' = slack_cap c).
  { intros c payload now room r c'. unfold submit. destruct (closed _); [by intros [_ <-]%ret_pair_inj|].
    intros E. apply run_bind_ret in E as ([[wire|v] t] & _ & E); [destruct room|];
      apply ret_pair_inj in E as [_ <-]; by rewrite ?fail_cap. }
  destruct 1 as [? ? ? ? ? ? ? ? ? _ E|? ? ? ? ? ? ? ? _ E|? ? ? wire s now|c ? ? frame ? ? E|? ? ? peer|? ? ? [?|]|];
    cbn [fst]; try (by rewrite ?fail_cap).
  - by eapply Hsub.
  - by eapply Hsub.
  - unfold guard_drop. by destruct (orphan_if _ _ _ _) as [[w|] t].
  - unfold dispatch in E. destruct frame as [|b0 [|b1 rest]];
      [apply ret_pair_inj in E as [_ <-]; by rewrite fail_cap..|].
    destruct (take _ _) as [[w| |] t]; [destruct (decode _)|..|case_decide]; try done;
      apply ret_pair_inj in E as [_ <-]; by rewrite ?fail_cap.
  - destruct peer; by rewrite fail_cap.
  - apply fail_cap.
  - apply fail_cap.
  - apply fail_cap.
Qed.

(** C21: However submissions, incoming frames, cancellations, write failures and
    the end of the stream interleave on a connection, every query it accepted is
    in exactly one place: it got one outcome, or its caller gave it up, or it
    still waits; and nobody waits on a closed connection. An answer only ever
    goes to a query that was sent under the id the answer carries. The allowance
    of unsolicited frames stays within its cap. *)
Theorem conn_settles n ttl start c issued cancelled :
  is_u16 start → rtc conn_step (spawn n ttl start, [], []) (c, issued, cancelled) →
  NoDup (map fst issued) ∧
  map fst issued ≡ₚ map fst (settled c) ++ cancelled ++ map serial (values (waiters (table c))) ∧
  (closed c = true → waiters (table c) = ∅) ∧
  (∀ s m, (s, Ok m) ∈ settled c → ∃ wire, (s, wire) ∈ issued ∧ id (header m) = wire) ∧
  (0 ≤ slack c ≤ slack_cap c)%Z ∧ slack_cap c = Z.min u32_max (16 + Z.of_nat n mod 2 ^ 32).
Proof.
  intros Hs Hr.
  assert (H : conn_inv c issued cancelled ∧ slack_cap c = Z.min u32_max (16 + Z.of_nat n mod 2 ^ 32)).
  2:{ destruct H as [[] Hcap]. split_and!; try done; apply ci_slack0. }
  change (conn_inv (c, issued, cancelled).1.1 (c, issued, cancelled).1.2 (c, issued, cancelled).2 ∧
    slack_cap (c, issued, cancelled).1.1 = Z.min u32_max (16 + Z.of_nat n mod 2 ^ 32)).
  assert (Hcap : ∀ x y, conn_step x y → slack_cap y.1.1 = slack_cap x.1.1) by apply conn_step_cap.
  refine (rtc_ind_r (λ y, conn_inv y.1.1 y.1.2 y.2 ∧ slack_cap y.1.1 = _) _ _ _ _ Hr).
  - split; [by apply spawn_inv|done].
  - intros y z _ Hyz [Hy Hc]. split; [by eapply conn_step_inv|]. by rewrite (Hcap _ _ Hyz).
Qed.

(** ** A concrete connection *)

Lemma reader_chunking_witness :
  ∃ payloads tail,
    [0; 2; 7; 9; 0; 1]%Z = concat (map frame payloads) ++ tail ∧ partial tail ∧
    outcome (reader (spawn 2 10 5) (map ReadBytes [[0; 2; 7]; [9; 0; 1]]%Z ++ [ReadEnd])) =
      outcome (reader (spawn 2 10 5) (map ReadBytes [[0]; [2; 7; 9; 0]; [1]]%Z ++ [ReadEnd])).
Proof.
  destruct (reader_chunking (spawn 2 10 5) [[0; 2; 7]; [9; 0; 1]]%Z) as (ps & tail & E & Ht & H & _).
  { repeat (constructor; [lia|]). constructor. }
  exists ps, tail. split; [exact E|]. split; [exact Ht|].
  rewrite (H [[0; 2; 7]; [9; 0; 1]]%Z [ReadEnd] eq_refl).
  rewrite (H [[0]; [2; 7; 9; 0]; [1]]%Z [ReadEnd] eq_refl). reflexivity.
Defined.

Definition example_conn : Conn := spawn 2 10 5.

(** A header without records that answers wire id 5. *)
Definition example_frame : list Z := [0; 5; 128; 0; 0; 0; 0; 0; 0; 0; 0; 0]%Z.

Lemma conn_settles_witness :
  ∃ c1 c2, submit example_conn [1; 2; 3; 4]%Z 0 true = Ret (Ok (5, 0)%Z, c1) ∧
    dispatch c1 example_frame = Ret (true, c2) ∧
    map fst [(0, 5)%Z] ≡ₚ map fst (settled c2) ++ [] ++ map serial (values (waiters (table c2))).
Proof.
  destruct (submit example_conn [1; 2; 3; 4]%Z 0 true) as [[[[w s]|f] c1]| | |] eqn:E1; try (vm_compute in E1; discriminate).
  assert (w = 5%Z ∧ s = 0%Z) as [-> ->] by (vm_compute in E1; injection E1 as <- <- _; split; reflexivity).
  destruct (dispatch c1 example_frame) as [[[] c2]| | |] eqn:E2;
    try (vm_compute in E1; injection E1 as <-; vm_compute in E2; discriminate).
  exists c1, c2. split; [exact E1 || reflexivity|]. split; [exact E2|].
  refine (proj1 (proj2 (conn_settles 2 10 5 c2 [(0, 5)%Z] [] _ _))); [lia|].
  eapply rtc_l; [refine (cs_submit _ [] [] _ _ _ _ _ c1 _ E1); vm_compute; reflexivity|].
  apply rtc_once. exact (cs_frame _ _ _ _ _ _ E2).
Defined.
