(* ===== verification/Pool.v ===== *)
(** * The connection pool

    Models [crates/dns-lattice/src/upstream/pool.rs]: the clamped configuration,
    the counters, the connections with their leases, and one definition per
    lock section of the pool, its janitor and its leases. A connection is a
    value of [C]; whether it is alive or was closed by its peer are arguments
    of the operation that asks. The semaphore and the callers that hold a permit
    but no lease yet are part of the state. *)

From stdpp Require Import base numbers list strings.
From S2P Require Import Prelude CoreError Time.

(** ** The configuration *)

Definition DEFAULT_MAX_CONNECTIONS : nat := 4.
Definition MAX_CONNECTIONS_LIMIT : nat := 16.
Definition DEFAULT_MAX_IN_FLIGHT : nat := 64.
Definition MAX_IN_FLIGHT_LIMIT : nat := 256.
Definition DEFAULT_IDLE_TIMEOUT : Z := from_secs 20.
Definition MIN_IDLE_TIMEOUT : Z := from_secs 1.
Definition DEFAULT_MAX_LIFETIME : Z := from_secs (10 * 60).
Definition MIN_MAX_LIFETIME : Z := from_secs 1.
Definition CONSECUTIVE_TIMEOUT_LIMIT : nat := 3.
Definition SCALE_RETRY_BACKOFF : Z := from_secs 1.

Record PoolConfig : Type := mkPoolConfig {
  enabled : bool;
  max_connections : nat;
  max_in_flight : nat;
  idle_timeout : Z;
  max_lifetime : option Z;
}.

Definition pool_config_new : PoolConfig :=
  mkPoolConfig true DEFAULT_MAX_CONNECTIONS DEFAULT_MAX_IN_FLIGHT DEFAULT_IDLE_TIMEOUT (Some DEFAULT_MAX_LIFETIME).

Definition pool_config_disabled : PoolConfig :=
  let c := pool_config_new in
  mkPoolConfig false (max_connections c) (max_in_flight c) (idle_timeout c) (max_lifetime c).

(** [usize::clamp] *)
Definition clamp (n lo hi : nat) : nat := Nat.max lo (Nat.min n hi).

Definition with_max_connections (c : PoolConfig) (n : nat) : PoolConfig :=
  mkPoolConfig (enabled c) (clamp n 1 MAX_CONNECTIONS_LIMIT) (max_in_flight c) (idle_timeout c) (max_lifetime c).
Definition with_max_in_flight (c : PoolConfig) (n : nat) : PoolConfig :=
  mkPoolConfig (enabled c) (max_connections c) (clamp n 1 MAX_IN_FLIGHT_LIMIT) (idle_timeout c) (max_lifetime c).
Definition with_idle_timeout (c : PoolConfig) (d : Z) : PoolConfig :=
  mkPoolConfig (enabled c) (max_connections c) (max_in_flight c) (Z.max d MIN_IDLE_TIMEOUT) (max_lifetime c).
Definition with_max_lifetime (c : PoolConfig) (d : option Z) : PoolConfig :=
  mkPoolConfig (enabled c) (max_connections c) (max_in_flight c) (idle_timeout c)
    ((λ d, Z.max d MIN_MAX_LIFETIME) <$> d).

Definition capacity (c : PoolConfig) : nat := max_connections c * max_in_flight c.

(** The configurations the builders make. *)
Inductive configured : PoolConfig → Prop :=
  | configured_new : configured pool_config_new
  | configured_disabled : configured pool_config_disabled
  | configured_connections c n : configured c → configured (with_max_connections c n)
  | configured_in_flight c n : configured c → configured (with_max_in_flight c n)
  | configured_idle c d : configured c → configured (with_idle_timeout c d)
  | configured_lifetime c d : configured c → configured (with_max_lifetime c d).

Lemma configured_bounds c :
  configured c → 1 ≤ max_connections c ≤ MAX_CONNECTIONS_LIMIT ∧ 1 ≤ max_in_flight c ≤ MAX_IN_FLIGHT_LIMIT.
Proof.
  unfold MAX_CONNECTIONS_LIMIT, MAX_IN_FLIGHT_LIMIT.
  induction 1; cbn [with_max_connections with_max_in_flight with_idle_timeout with_max_lifetime
    max_connections max_in_flight pool_config_new pool_config_disabled]; try done;
    unfold clamp, MAX_CONNECTIONS_LIMIT, MAX_IN_FLIGHT_LIMIT, DEFAULT_MAX_CONNECTIONS, DEFAULT_MAX_IN_FLIGHT; lia.
Qed.

(** ** Counters *)

Record Counters : Type := mkCounters {
  n_open : Z;
  n_opened : Z;
  n_closed_idle : Z;
  n_closed_lifetime : Z;
  n_closed_error : Z;
  n_in_flight : Z;
  n_queries : Z;
  n_reused_queries : Z;
  n_retries : Z;
  n_queued : Z;
}.

Definition no_counts : Counters := mkCounters 0 0 0 0 0 0 0 0 0 0.

Definition bump (n : Z) : Z := wrapping_add 64 n 1.
Definition drop_one (n : Z) : Z := if decide (n = 0)%Z then 0 else n - 1.

Inductive CloseReason : Type :=
  | Idle
  | Lifetime
  | ConnError.

Inductive PoolCloseReason : Type :=
  | PIdle
  | PLifetime
  | PPeerClosed
  | PError
  | PShutdown.

Definition count_closed (n : Counters) (reason : CloseReason) : Counters :=
  let bump_if r z := match r, reason with Idle, Idle | Lifetime, Lifetime | ConnError, ConnError => bump z | _, _ => z end in
  mkCounters (drop_one (n_open n)) (n_opened n) (bump_if Idle (n_closed_idle n)) (bump_if Lifetime (n_closed_lifetime n))
    (bump_if ConnError (n_closed_error n)) (n_in_flight n) (n_queries n) (n_reused_queries n) (n_retries n) (n_queued n).

Definition count_opened (n : Counters) : Counters :=
  mkCounters (bump (n_open n)) (bump (n_opened n)) (n_closed_idle n) (n_closed_lifetime n) (n_closed_error n)
    (n_in_flight n) (n_queries n) (n_reused_queries n) (n_retries n) (n_queued n).

Definition count_lease (n : Counters) (reused : bool) : Counters :=
  mkCounters (n_open n) (n_opened n) (n_closed_idle n) (n_closed_lifetime n) (n_closed_error n)
    (bump (n_in_flight n)) (bump (n_queries n)) (if reused then bump (n_reused_queries n) else n_reused_queries n)
    (n_retries n) (n_queued n).

Definition count_release (n : Counters) : Counters :=
  mkCounters (n_open n) (n_opened n) (n_closed_idle n) (n_closed_lifetime n) (n_closed_error n)
    (drop_one (n_in_flight n)) (n_queries n) (n_reused_queries n) (n_retries n) (n_queued n).

Definition count_retry (n : Counters) : Counters :=
  mkCounters (n_open n) (n_opened n) (n_closed_idle n) (n_closed_lifetime n) (n_closed_error n)
    (n_in_flight n) (n_queries n) (n_reused_queries n) (bump (n_retries n)) (n_queued n).

Definition count_queued (n : Counters) : Counters :=
  mkCounters (n_open n) (n_opened n) (n_closed_idle n) (n_closed_lifetime n) (n_closed_error n)
    (n_in_flight n) (n_queries n) (n_reused_queries n) (n_retries n) (bump (n_queued n)).

(** ** The pool *)

Record Entry (C : Type) : Type := mkEntry {
  e_id : Z;
  conn : C;
  opened_at : Z;
  last_active : Z;
  in_flight : nat;
  answered : bool;
  timeouts : nat;
  draining_since : option Z;
}.
Arguments mkEntry {C}.
Arguments e_id {C}.
Arguments conn {C}.
Arguments opened_at {C}.
Arguments last_active {C}.
Arguments in_flight {C}.
Arguments answered {C}.
Arguments timeouts {C}.
Arguments draining_since {C}.

(** [State] with the counters, the outcome each finished connect published to
    its waiters, and the connections retired so far with the reported reason. *)
Record Pool (C : Type) : Type := mkPool {
  config : PoolConfig;
  drain_grace : Z;
  entries : list (Entry C);
  next_entry_id : Z;
  next_epoch : Z;
  connecting : option Z;
  last_connect_failure : option Z;
  janitor : bool;
  janitor_deadline : option Z;
  counters : Counters;
  published : list (Z * Result Error unit);
  closing : list (C * PoolCloseReason);
}.
Arguments mkPool {C}.
Arguments config {C}.
Arguments drain_grace {C}.
Arguments entries {C}.
Arguments next_entry_id {C}.
Arguments next_epoch {C}.
Arguments connecting {C}.
Arguments last_connect_failure {C}.
Arguments janitor {C}.
Arguments janitor_deadline {C}.
Arguments counters {C}.
Arguments published {C}.
Arguments closing {C}.

Section pool.
Context {C : Type}.
Implicit Types (p : Pool C) (e : Entry C) (now : Z).

Definition pool_new (config : PoolConfig) (grace : Z) : Pool C :=
  mkPool config (match max_lifetime config with Some l => Z.min grace l | None => grace end)
    [] 0 0 None None false None no_counts [] [].

Definition set_entries p (es : list (Entry C)) (n : Counters) (cl : list (C * PoolCloseReason)) : Pool C :=
  mkPool (config p) (drain_grace p) es (next_entry_id p) (next_epoch p) (connecting p) (last_connect_failure p)
    (janitor p) (janitor_deadline p) n (published p) cl.

Definition set_janitor p (running : bool) (deadline : option Z) : Pool C :=
  mkPool (config p) (drain_grace p) (entries p) (next_entry_id p) (next_epoch p) (connecting p) (last_connect_failure p)
    running deadline (counters p) (published p) (closing p).

(** What a retired connection is reported as. *)
Definition reported (peer_closed : C → bool) e (reason : CloseReason) : PoolCloseReason :=
  match reason with
  | Idle => PIdle
  | Lifetime => PLifetime
  | ConnError => if peer_closed (conn e) then PPeerClosed else PError
  end.

Definition retire (peer_closed : C → bool) p (idx : nat) (reason : CloseReason) : Pool C :=
  match entries p !! idx with
  | Some e =>
      set_entries p (delete idx (entries p)) (count_closed (counters p) reason)
        (closing p ++ [(conn e, reported peer_closed e reason)])
  | None => p
  end.

Definition reached (now : Z) (t : option Z) : bool :=
  match t with Some t => bool_decide (t ≤ now)%Z | None => false end.

Definition drain_from e (since : option Z) : Entry C :=
  mkEntry (e_id e) (conn e) (opened_at e) (last_active e) (in_flight e) (answered e) (timeouts e) since.

(** What a sweep decides about one connection. *)
Definition sweep_entry (alive : C → bool) p now e : option CloseReason * Entry C :=
  if negb (alive (conn e)) then (Some ConnError, e)
  else
    let e :=
      match draining_since e with
      | None => if reached now (max_lifetime (config p) ≫= checked_add (opened_at e)) then drain_from e (Some now) else e
      | Some _ => e
      end in
    match draining_since e with
    | Some since =>
        (if bool_decide (in_flight e = 0) || reached now (checked_add since (drain_grace p)) then Some Lifetime else None, e)
    | None =>
        (if bool_decide (in_flight e = 0) && reached now (checked_add (last_active e) (idle_timeout (config p)))
         then Some Idle else None, e)
    end.

(** The sweep's loop over the connections from index [i] on. *)
Fixpoint sweep_loop (fuel : nat) (alive peer_closed : C → bool) p now (i : nat) : Pool C :=
  match fuel with
  | O => p
  | S fuel =>
      match entries p !! i with
      | None => p
      | Some e =>
          let '(reason, e) := sweep_entry alive p now e in
          let p := set_entries p (<[i := e]> (entries p)) (counters p) (closing p) in
          match reason with
          | Some reason => sweep_loop fuel alive peer_closed (retire peer_closed p i reason) now i
          | None => sweep_loop fuel alive peer_closed p now (S i)
          end
      end
  end.

(** Each round retires one connection or passes it. *)
Definition sweep_locked (alive peer_closed : C → bool) p now : Pool C :=
  sweep_loop (length (entries p)) alive peer_closed p now 0.

Definition opt_min (a b : option Z) : option Z :=
  match a, b with
  | Some a, Some b => Some (Z.min a b)
  | Some a, None | None, Some a => Some a
  | None, None => None
  end.

Definition next_deadline_locked p : option Z :=
  foldl (λ next e,
    let next := opt_min next
      (match draining_since e with
       | Some since => checked_add since (drain_grace p)
       | None => max_lifetime (config p) ≫= checked_add (opened_at e)
       end) in
    if decide (in_flight e = 0) then opt_min next (checked_add (last_active e) (idle_timeout (config p))) else next)
    None (entries p).

Definition scale_suppressed p now : bool :=
  match last_connect_failure p ≫= (λ t, checked_add t SCALE_RETRY_BACKOFF) with
  | Some until => bool_decide (now < until)%Z
  | None => false
  end.

(** ** Choosing a connection *)

Inductive Pick : Type :=
  | Use (idx : nat) (scale_up : bool)
  | Wait (start : bool)
  | Exhausted.

Definition is_live e : bool := match draining_since e with None => true | Some _ => false end.

Definition live p : nat := length (filter (λ e, is_live e = true) (entries p)).

(** [min_by_key] of the entries that pass the test: the first one with the
    fewest leases. *)
Fixpoint least_loaded (test : Entry C → bool) (i : nat) (es : list (Entry C)) : option (nat * Entry C) :=
  match es with
  | [] => None
  | e :: es =>
      let rest := least_loaded test (S i) es in
      if test e then
        match rest with
        | Some (j, e') => if decide (in_flight e' < in_flight e) then Some (j, e') else Some (i, e)
        | None => Some (i, e)
        end
      else rest
  end.

Definition pick p now (fresh : bool) : Pick :=
  let cap := max_in_flight (config p) in
  let most := max_connections (config p) in
  let threshold := Nat.max (cap / 4) 1 in
  let is_connecting := bool_decide (connecting p ≠ None) in
  let usable e := is_live e && bool_decide (in_flight e < cap) in
  let fresh_best := if fresh then least_loaded (λ e, usable e && negb (answered e)) 0 (entries p) else None in
  if fresh && bool_decide (fresh_best = None) && (is_connecting || bool_decide (live p < most))
  then Wait (negb is_connecting)
  else
    match (match fresh_best with Some b => Some b | None => least_loaded usable 0 (entries p) end) with
    | Some (idx, e) =>
        Use idx (bool_decide (threshold ≤ in_flight e) && negb is_connecting && bool_decide (live p < most) &&
                 negb (scale_suppressed p now))
    | None =>
        if is_connecting then Wait false
        else if bool_decide (live p < most) then Wait true
        else Exhausted
    end.

(** ** Connecting *)

Definition start_connect_locked p : Pool C :=
  mkPool (config p) (drain_grace p) (entries p) (next_entry_id p) (wrapping_add 64 (next_epoch p) 1) (Some (next_epoch p))
    (last_connect_failure p) (janitor p) (janitor_deadline p) (counters p) (published p) (closing p).

Definition ensure_janitor_locked p : Pool C :=
  if janitor p then p else set_janitor p true None.

(** No connect is in progress any more. *)
Definition take_connecting p (failure : option Z) : Pool C :=
  mkPool (config p) (drain_grace p) (entries p) (next_entry_id p) (next_epoch p) None failure (janitor p)
    (janitor_deadline p) (counters p) (published p) (closing p).

(** The outcome of a connect goes to its waiters ([send_replace]). *)
Definition publish p (outcome : Z * Result Error unit) : Pool C :=
  mkPool (config p) (drain_grace p) (entries p) (next_entry_id p) (next_epoch p) (connecting p) (last_connect_failure p)
    (janitor p) (janitor_deadline p) (counters p) (published p ++ [outcome]) (closing p).

Definition push_entry p (c : C) now : Pool C :=
  mkPool (config p) (drain_grace p)
    (entries p ++ [mkEntry (next_entry_id p) c now now 0 false 0 None])
    (wrapping_add 64 (next_entry_id p) 1) (next_epoch p) (connecting p) (last_connect_failure p) (janitor p)
    (janitor_deadline p) (count_opened (counters p)) (published p) (closing p).

(** The lock section of a finished connect. What it leaves to be done without the
    lock is given back: a stale connection to close, and the outcome to send. *)
Definition finish_connect p (epoch : Z) (result : Result Error C) now :
    (option C * option (Z * Result Error unit)) * Pool C :=
  if decide (connecting p = Some epoch) then
    match result with
    | Ok c => ((None, Some (epoch, Ok tt)), take_connecting (ensure_janitor_locked (push_entry p c now)) (last_connect_failure p))
    | Err err => ((None, Some (epoch, Err err)), take_connecting p (Some now))
    end
  else ((ok result, None), p).

(** ** Leases *)

Record Lease : Type := mkLease {
  l_entry : Z;
  l_reused : bool;
}.

Definition bump_in_flight e : Entry C :=
  mkEntry (e_id e) (conn e) (opened_at e) (last_active e) (S (in_flight e)) (answered e) (timeouts e) (draining_since e).

(** One round of [acquire_inner]'s loop, for a caller that holds a permit: a
    lease, the epoch of the connect to wait for, or no capacity. *)
Definition acquire_round (alive peer_closed : C → bool) p now (fresh : bool) : Result (option Z) Lease * Pool C :=
  let p := sweep_locked alive peer_closed p now in
  match pick p now fresh with
  | Use idx scale_up =>
      let p := if scale_up then start_connect_locked p else p in
      match entries p !! idx with
      | Some e =>
          (Ok (mkLease (e_id e) (answered e)),
           set_entries p (<[idx := bump_in_flight e]> (entries p)) (count_lease (counters p) (answered e)) (closing p))
      | None => (Err None, p)
      end
  | Wait start =>
      let p := if start then start_connect_locked p else p in
      (Err (connecting p), p)
  | Exhausted => (Err None, p)
  end.

(** The index of the connection of a lease, if the pool still has it. *)
Definition position p (i : Z) : option nat := fst <$> list_find (λ e, e_id e = i) (entries p).

Definition update p (idx : nat) (f : Entry C → Entry C) : Pool C :=
  set_entries p (alter f idx (entries p)) (counters p) (closing p).

Definition lease_complete p (l : Lease) : Pool C :=
  match position p (l_entry l) with
  | Some idx =>
      update p idx (λ e, mkEntry (e_id e) (conn e) (opened_at e) (last_active e) (in_flight e) true 0 (draining_since e))
  | None => p
  end.

Definition note_timeout (peer_closed : C → bool) p (l : Lease) : bool * Pool C :=
  match position p (l_entry l) with
  | Some idx =>
      let p := update p idx (λ e, mkEntry (e_id e) (conn e) (opened_at e) (last_active e) (in_flight e) (answered e)
                                    (S (timeouts e)) (draining_since e)) in
      let dead := match entries p !! idx with
                  | Some e => bool_decide (CONSECUTIVE_TIMEOUT_LIMIT ≤ timeouts e)
                  | None => false
                  end in
      (dead, if dead then retire peer_closed p idx ConnError else p)
  | None => (false, p)
  end.

Definition mark_dead (peer_closed : C → bool) p (l : Lease) : Pool C :=
  match position p (l_entry l) with
  | Some idx => retire peer_closed p idx ConnError
  | None => p
  end.

(** The drop of a lease; the flag says whether the janitor is woken. *)
Definition lease_drop (peer_closed : C → bool) p (l : Lease) now : bool * Pool C :=
  let release p := set_entries p (entries p) (count_release (counters p)) (closing p) in
  match position p (l_entry l) with
  | None => (false, release p)
  | Some idx =>
      let p := update p idx (λ e, mkEntry (e_id e) (conn e) (opened_at e) now (in_flight e - 1) (answered e) (timeouts e)
                                    (draining_since e)) in
      match entries p !! idx with
      | Some e =>
          if decide (in_flight e = 0) then
            match draining_since e with
            | Some _ => (false, release (retire peer_closed p idx Lifetime))
            | None =>
                (match checked_add now (idle_timeout (config p)), janitor_deadline p with
                 | Some c, Some d => bool_decide (c < d)%Z
                 | Some _, None => true
                 | None, _ => false
                 end, release p)
            end
          else (false, release p)
      | None => (false, release p)
      end
  end.

(** ** The janitor, [sweep] and [record_retry] *)

(** One round of the janitor: how long it sleeps, or [None] when it ends. *)
Definition janitor_round (alive peer_closed : C → bool) p now : option (option Z) * Pool C :=
  let p := sweep_locked alive peer_closed p now in
  let next := next_deadline_locked p in
  if bool_decide (entries p = []) then (None, set_janitor p false None) else (Some next, set_janitor p (janitor p) next).

Definition sweep (alive peer_closed : C → bool) p now : Pool C := sweep_locked alive peer_closed p now.

Definition record_retry p : Pool C := set_entries p (entries p) (count_retry (counters p)) (closing p).
Definition record_queued p : Pool C := set_entries p (entries p) (count_queued (counters p)) (closing p).

(** The drop of the pool closes every connection. *)
Definition pool_drop p : Pool C :=
  set_entries p [] (counters p) (closing p ++ map (λ e, (conn e, PShutdown)) (entries p)).
End pool.
