(* ===== verification/PoolInv.v ===== *)
(** * The pool's bounds

    The invariant of the pool of Pool.v with the callers and leases around it,
    its preservation by every operation in every interleaving, and the claim
    of [acquire_inner] that a caller with a permit can always be placed. *)

From stdpp Require Import base numbers list strings.
From S2P Require Import Prelude CoreError Time Pool.

Lemma elem_of_list_further {A} (x y : A) l : x ∈ l → x ∈ y :: l.
Proof. intros H. apply elem_of_cons. by right. Qed.

Lemma list_alter_insert_eq {A} (f : A → A) i x (l : list A) : l !! i = Some x → alter f i l = <[i := f x]> l.
Proof.
  revert i. induction l as [|y l IH]; intros [|i] H; try discriminate H; [by injection H as ->|].
  cbn. f_equal. apply IH, H.
Qed.

Section inv.
Context {C : Type}.
Implicit Types (p : Pool C) (e : Entry C) (es : list (Entry C)) (now : Z).

(** ** Operations that only drop or mark connections *)

Inductive shrinks : list (Entry C) → list (Entry C) → Prop :=
  | shrinks_nil : shrinks [] []
  | shrinks_skip e es es' : shrinks es es' → shrinks (e :: es) es'
  | shrinks_keep e e' es es' :
      e_id e' = e_id e → in_flight e' = in_flight e → (is_live e' = true → is_live e = true) →
      shrinks es es' → shrinks (e :: es) (e' :: es').

#[export] Instance shrinks_refl : Reflexive shrinks.
Proof. intros es. induction es; [constructor|by apply shrinks_keep]. Qed.

#[export] Instance shrinks_trans : Transitive shrinks.
Proof.
  intros es1 es2 es3 H. revert es3. induction H as [|e es1 es2 _ IH|e e' es1 es2 Hi Hf Hl H12 IH]; intros es3 H3; [done| |].
  - apply shrinks_skip. auto.
  - inversion H3; subst; [apply shrinks_skip; auto|apply shrinks_keep; try congruence; auto].
Qed.

Lemma shrinks_delete es i : shrinks es (delete i es).
Proof.
  revert i. induction es as [|e es IH]; intros [|i]; [constructor..| |].
  - by apply shrinks_skip.
  - by apply shrinks_keep, IH.
Qed.

Lemma shrinks_insert es i e e' :
  es !! i = Some e → e_id e' = e_id e → in_flight e' = in_flight e → (is_live e' = true → is_live e = true) →
  shrinks es (<[i := e']> es).
Proof.
  revert i. induction es as [|x es IH]; intros [|i] H Hi Hf Hl; try discriminate H.
  - injection H as ->. by apply shrinks_keep.
  - apply shrinks_keep; auto.
Qed.

Lemma shrinks_alter es i (f : Entry C → Entry C) :
  (∀ e, e_id (f e) = e_id e) → (∀ e, in_flight (f e) = in_flight e) → (∀ e, is_live (f e) = is_live e) →
  shrinks es (alter f i es).
Proof.
  intros Hi Hf Hl. revert i. induction es as [|x es IH]; intros [|i]; [constructor..| |].
  - apply shrinks_keep; auto; [by rewrite Hl|done].
  - by apply shrinks_keep, IH.
Qed.

Lemma shrinks_ids es es' : shrinks es es' → sublist (map e_id es') (map e_id es).
Proof. induction 1 as [|e es es' _ IH|e e' es es' Hi _ _ _ IH]; cbn; [done|by apply sublist_cons|]. rewrite Hi. by apply sublist_skip. Qed.

Lemma shrinks_elem es es' e' :
  shrinks es es' → e' ∈ es' → ∃ e, e ∈ es ∧ e_id e' = e_id e ∧ in_flight e' = in_flight e.
Proof.
  induction 1 as [|e es es' _ IH|e x es es' Hi Hf _ _ IH]; [by intros []%not_elem_of_nil| |].
  - intros (y & Hy & ?)%IH. exists y. split; [by apply elem_of_list_further|done].
  - intros [->|(y & Hy & ?)%IH]%elem_of_cons; [exists e; split; [apply list_elem_of_here|done]|].
    exists y. split; [by apply elem_of_list_further|done].
Qed.

Definition live_of es : nat := length (filter (λ e, is_live e = true) es).

Lemma shrinks_live es es' : shrinks es es' → live_of es' ≤ live_of es.
Proof.
  unfold live_of. induction 1 as [|e es es' _ IH|e e' es es' _ _ Hl _ IH]; [done| |].
  - rewrite filter_cons. case_decide; cbn [length]; lia.
  - rewrite !filter_cons. case_decide; case_decide; cbn [length]; try lia. naive_solver.
Qed.

(** What an operation leaves alone when it shrinks the pool. *)
Record shrunk (p p' : Pool C) : Prop := {
  sh_entries : shrinks (entries p) (entries p');
  sh_config : config p' = config p;
  sh_connecting : connecting p' = connecting p;
  sh_next : next_entry_id p' = next_entry_id p;
  sh_counter : n_in_flight (counters p') = n_in_flight (counters p);
}.

#[export] Instance shrunk_refl : Reflexive shrunk.
Proof. intros p. by split. Qed.
#[export] Instance shrunk_trans : Transitive shrunk.
Proof. intros p1 p2 p3 [] []. split; try congruence. by etrans. Qed.

Lemma retire_shrunk pc p i reason : shrunk p (retire pc p i reason).
Proof.
  unfold retire. destruct (entries p !! i) as [e|]; [|done]. split; try done. apply shrinks_delete.
Qed.

Lemma update_shrunk p i f :
  (∀ e, e_id (f e) = e_id e) → (∀ e, in_flight (f e) = in_flight e) → (∀ e, is_live (f e) = is_live e) →
  shrunk p (update p i f).
Proof. intros. split; try done. by apply shrinks_alter. Qed.

Lemma sweep_entry_same alive p now e :
  e_id (sweep_entry alive p now e).2 = e_id e ∧ in_flight (sweep_entry alive p now e).2 = in_flight e ∧
  (is_live (sweep_entry alive p now e).2 = true → is_live e = true).
Proof.
  unfold sweep_entry, is_live. destruct (negb _); [done|]. destruct (draining_since e) as [d|] eqn:Ed.
  - rewrite Ed. cbn [snd]. by rewrite Ed.
  - destruct (reached _ _); cbn [drain_from draining_since snd e_id in_flight]; [done|]. by rewrite Ed.
Qed.

Lemma sweep_loop_shrunk fuel alive pc p now i : shrunk p (sweep_loop fuel alive pc p now i).
Proof.
  revert p i. induction fuel as [|fuel IH]; intros p i; [done|]. cbn [sweep_loop].
  destruct (entries p !! i) as [e|] eqn:Ei; [|done].
  pose proof (sweep_entry_same alive p now e) as (H1 & H2 & H3).
  destruct (sweep_entry alive p now e) as [reason e']. cbn [snd] in *.
  assert (Hs : shrunk p (set_entries p (<[i := e']> (entries p)) (counters p) (closing p))).
  { split; try done. by eapply shrinks_insert. }
  destruct reason as [reason|]; (etrans; [exact Hs|]); [|apply IH].
  etrans; [apply retire_shrunk|apply IH].
Qed.

Lemma sweep_shrunk alive pc p now : shrunk p (sweep_locked alive pc p now).
Proof. apply sweep_loop_shrunk. Qed.

Lemma complete_shrunk p l : shrunk p (lease_complete p l).
Proof. unfold lease_complete. destruct (position p _); [|done]. by apply update_shrunk. Qed.

Lemma mark_dead_shrunk pc p l : shrunk p (mark_dead pc p l).
Proof. unfold mark_dead. destruct (position p _); [|done]. apply retire_shrunk. Qed.

Lemma note_timeout_shrunk pc p l : shrunk p (note_timeout pc p l).2.
Proof.
  unfold note_timeout. destruct (position p _) as [i|]; [|done]. cbn zeta. set (p1 := update _ _ _).
  assert (H : shrunk p p1) by by apply update_shrunk. cbn [snd].
  destruct (match entries p1 !! i with Some e => _ | None => _ end); [|done].
  etrans; [exact H|]. apply retire_shrunk.
Qed.

Lemma janitor_shrunk alive pc p now : shrunk p (janitor_round alive pc p now).2.
Proof.
  unfold janitor_round. cbn zeta. pose proof (sweep_shrunk alive pc p now) as [].
  destruct (bool_decide _); by split.
Qed.

(** ** Choosing *)

Lemma least_loaded_spec test i es :
  match least_loaded test i es with
  | Some (j, e) => ∃ k, j = i + k ∧ es !! k = Some e ∧ test e = true ∧
      ∀ e', e' ∈ es → test e' = true → in_flight e ≤ in_flight e'
  | None => ∀ e, e ∈ es → test e = false
  end.
Proof.
  revert i. induction es as [|x es IH]; intros i; cbn [least_loaded]; [by intros e []%not_elem_of_nil|].
  specialize (IH (S i)). destruct (test x) eqn:Ex; destruct (least_loaded test (S i) es) as [[j e]|].
  - destruct IH as (k & -> & Hk & He & Hmin). case_decide as Hlt.
    + exists (S k). split; [lia|]. split; [done|]. split; [done|].
      intros e' [->|H']%elem_of_cons Ht; [lia|by apply Hmin].
    + exists 0. split; [lia|]. split; [done|]. split; [done|].
      intros e' [->|H']%elem_of_cons Ht; [lia|]. specialize (Hmin _ H' Ht). lia.
  - exists 0. split; [lia|]. split; [done|]. split; [done|].
    intros e' [->|H']%elem_of_cons Ht; [lia|]. rewrite IH in Ht; done.
  - destruct IH as (k & -> & Hk & He & Hmin). exists (S k). split; [lia|]. split; [done|]. split; [done|].
    intros e' [->|H']%elem_of_cons Ht; [congruence|by apply Hmin].
  - intros e [->|H]%elem_of_cons; auto.
Qed.

Definition usable p e : bool := is_live e && bool_decide (in_flight e < max_in_flight (config p)).

Lemma best_spec p (fresh : bool) (fb : option (nat * Entry C)) :
  fb = (if fresh then least_loaded (λ e, usable p e && negb (answered e)) 0 (entries p) else None) →
  match (match fb with Some b => Some b | None => least_loaded (usable p) 0 (entries p) end) with
  | Some (j, e) => entries p !! j = Some e ∧ usable p e = true
  | None => ∀ e, e ∈ entries p → usable p e = false
  end.
Proof.
  intros ->. pose proof (least_loaded_spec (usable p) 0 (entries p)) as Hu.
  pose proof (least_loaded_spec (λ e, usable p e && negb (answered e)) 0 (entries p)) as Hf.
  assert (H : match least_loaded (usable p) 0 (entries p) with
    | Some (j, e) => entries p !! j = Some e ∧ usable p e = true
    | None => ∀ e, e ∈ entries p → usable p e = false
    end).
  { destruct (least_loaded (usable p) 0 (entries p)) as [[j e]|]; [|done].
    by destruct Hu as (k & -> & Hk & Ht & _). }
  destruct fresh; [|exact H].
  destruct (least_loaded (λ e, usable p e && negb (answered e)) 0 (entries p)) as [[j e]|]; [|exact H].
  destruct Hf as (k & -> & Hk & [Ht _]%andb_true_iff & _). done.
Qed.

Lemma pick_spec p now fresh :
  match pick p now fresh with
  | Use idx scale_up => ∃ e, entries p !! idx = Some e ∧ is_live e = true ∧ in_flight e < max_in_flight (config p) ∧
      (scale_up = true → connecting p = None ∧ live p < max_connections (config p))
  | Wait start => if start then connecting p = None ∧ live p < max_connections (config p) else connecting p ≠ None
  | Exhausted => connecting p = None ∧ max_connections (config p) ≤ live p ∧
      ∀ e, e ∈ entries p → is_live e = true → max_in_flight (config p) ≤ in_flight e
  end.
Proof.
  unfold pick. fold (usable p).
  change (λ e, (is_live e && bool_decide (in_flight e < max_in_flight (config p))) && negb (answered e))
    with (λ e, usable p e && negb (answered e)).
  pose proof (best_spec p fresh _ eq_refl) as Hb. cbv zeta.
  set (fb := if fresh then _ else None) in *.
  assert (Hc : if bool_decide (connecting p ≠ None) then connecting p ≠ None else connecting p = None).
  { case_bool_decide as H; [done|]. destruct (connecting p); [by destruct H|done]. }
  assert (Hl : if bool_decide (live p < max_connections (config p)) then live p < max_connections (config p)
               else max_connections (config p) ≤ live p).
  { destruct (bool_decide (live p < max_connections (config p))) eqn:E;
      [by apply bool_decide_eq_true in E|apply bool_decide_eq_false in E; lia]. }
  destruct (fresh && bool_decide (fb = None) && _) eqn:Ew.
  { apply andb_true_iff in Ew as [_ Ew]. destruct (bool_decide (connecting p ≠ None)); cbn [negb orb] in *; [done|].
    by rewrite Ew in Hl. }
  destruct (match fb with Some b => Some b | None => _ end) as [[j e]|].
  - destruct Hb as [Hj [Hlive Hlt%bool_decide_eq_true]%andb_true_iff]. exists e.
    split; [done|]. split; [done|]. split; [done|].
    destruct (bool_decide (connecting p ≠ None)); cbn [negb]; rewrite ?andb_false_r, ?andb_true_r; [done|].
    intros [[_ H]%andb_true_iff _]%andb_true_iff. by rewrite H in Hl.
  - destruct (bool_decide (connecting p ≠ None)); [done|].
    destruct (bool_decide (live p < max_connections (config p))); [done|].
    split; [done|]. split; [done|]. intros e He Hlive. specialize (Hb _ He). unfold usable in Hb.
    rewrite Hlive in Hb. cbn [andb] in Hb. apply bool_decide_eq_false in Hb. lia.
Qed.

(** ** The pool with its callers *)

(** Free permits, callers that hold one but no lease yet, and the leases. *)
Record System : Type := mkSystem {
  pool : Pool C;
  permits : nat;
  admitted : nat;
  leases : list Lease;
}.

Definition system_new (c : PoolConfig) (grace : Z) : System := mkSystem (pool_new c grace) (capacity c) 0 [].

(** The leases on the connection with this id. *)
Definition held (ls : list Lease) (i : Z) : nat := length (filter (λ l, l_entry l = i) ls).

Inductive pool_step : System → System → Prop :=
  | ps_admit p k a ls : pool_step (mkSystem p (S k) a ls) (mkSystem p k (S a) ls)
  | ps_give_up p k a ls : pool_step (mkSystem p k (S a) ls) (mkSystem p (S k) a ls)
  | ps_place p k a ls alive pc now fresh l p' :
      acquire_round alive pc p now fresh = (Ok l, p') → pool_step (mkSystem p k (S a) ls) (mkSystem p' k a (l :: ls))
  | ps_wait p k a ls alive pc now fresh epoch p' :
      acquire_round alive pc p now fresh = (Err (Some epoch), p') → pool_step (mkSystem p k (S a) ls) (mkSystem p' k (S a) ls)
  | ps_refused p k a ls alive pc now fresh p' :
      acquire_round alive pc p now fresh = (Err None, p') → pool_step (mkSystem p k (S a) ls) (mkSystem p' (S k) a ls)
  | ps_finish p k a ls epoch result now :
      (next_entry_id p < u64_max)%Z → pool_step (mkSystem p k a ls) (mkSystem (finish_connect p epoch result now).2 k a ls)
  | ps_publish p k a ls outcome : pool_step (mkSystem p k a ls) (mkSystem (publish p outcome) k a ls)
  | ps_complete p k a ls l : l ∈ ls → pool_step (mkSystem p k a ls) (mkSystem (lease_complete p l) k a ls)
  | ps_timeout p k a ls pc l : l ∈ ls → pool_step (mkSystem p k a ls) (mkSystem (note_timeout pc p l).2 k a ls)
  | ps_dead p k a ls pc l : l ∈ ls → pool_step (mkSystem p k a ls) (mkSystem (mark_dead pc p l) k a ls)
  | ps_drop p k a ls1 l ls2 pc now :
      pool_step (mkSystem p k a (ls1 ++ l :: ls2)) (mkSystem (lease_drop pc p l now).2 (S k) a (ls1 ++ ls2))
  | ps_janitor p k a ls alive pc now : pool_step (mkSystem p k a ls) (mkSystem (janitor_round alive pc p now).2 k a ls)
  | ps_sweep p k a ls alive pc now : pool_step (mkSystem p k a ls) (mkSystem (sweep alive pc p now) k a ls)
  | ps_retry p k a ls : pool_step (mkSystem p k a ls) (mkSystem (record_retry p) k a ls)
  | ps_queued p k a ls : pool_step (mkSystem p k a ls) (mkSystem (record_queued p) k a ls).

Definition pending p : nat := match connecting p with Some _ => 1 | None => 0 end.

(** [q] is the number of callers that hold a permit but no lease. *)
Record pool_inv (c : PoolConfig) (s : System) : Prop := {
  pi_config : config (pool s) = c;
  pi_configured : configured c;
  pi_ids : NoDup (map e_id (entries (pool s)));
  pi_next e : e ∈ entries (pool s) → (e_id e < next_entry_id (pool s))%Z;
  pi_held e : e ∈ entries (pool s) → in_flight e = held (leases s) (e_id e) ∧ in_flight e ≤ max_in_flight c;
  pi_live : live (pool s) + pending (pool s) ≤ max_connections c;
  pi_permits : permits s + admitted s + length (leases s) = capacity c;
  pi_leases l : l ∈ leases s → (l_entry l < next_entry_id (pool s))%Z;
  pi_counter : n_in_flight (counters (pool s)) = Z.of_nat (length (leases s));
  pi_u64 : is_u64 (next_entry_id (pool s));
}.

Lemma pool_inv_shrunk c p p' k a k' a' ls :
  k' + a' = k + a → shrunk p p' → pool_inv c (mkSystem p k a ls) → pool_inv c (mkSystem p' k' a' ls).
Proof.
  intros Hk [] []. cbn [pool permits admitted leases] in *. split; cbn [pool permits admitted leases]; try done.
  - congruence.
  - eapply sublist_NoDup; [exact pi_ids0|]. by apply shrinks_ids.
  - intros e He. destruct (shrinks_elem _ _ _ sh_entries0 He) as (e0 & H0 & -> & _). rewrite sh_next0. auto.
  - intros e He. destruct (shrinks_elem _ _ _ sh_entries0 He) as (e0 & H0 & -> & ->). auto.
  - apply shrinks_live in sh_entries0. unfold live, pending in *. rewrite sh_connecting0. unfold live_of in *. lia.
  - lia.
  - intros l Hl. rewrite sh_next0. auto.
  - congruence.
  - by rewrite sh_next0.
Qed.

Lemma held_cons l ls i : held (l :: ls) i = (if decide (l_entry l = i) then 1 else 0) + held ls i.
Proof. unfold held. rewrite filter_cons. by case_decide. Qed.

Lemma held_app ls1 ls2 i : held (ls1 ++ ls2) i = held ls1 i + held ls2 i.
Proof. unfold held. by rewrite filter_app, length_app. Qed.

Lemma held_middle ls1 l ls2 i : held (ls1 ++ l :: ls2) i = (if decide (l_entry l = i) then 1 else 0) + held (ls1 ++ ls2) i.
Proof. rewrite !held_app, held_cons. lia. Qed.

Lemma held_none ls i : (∀ l, l ∈ ls → l_entry l ≠ i) → held ls i = 0.
Proof.
  induction ls as [|l ls IH]; intros H; [done|]. rewrite held_cons, decide_False, IH; [done| |apply H, list_elem_of_here].
  intros x Hx. by apply H, elem_of_list_further.
Qed.

(** Different connections are held by different leases. *)
Lemma held_sum ls (ids : list Z) : NoDup ids → sum_list_with (held ls) ids ≤ length ls.
Proof.
  intros Hnd. induction ls as [|l ls IH].
  { induction ids as [|i ids IHids]; cbn; [done|]. apply NoDup_cons in Hnd as [_ Hnd]. by apply IHids. }
  cbn [length]. assert (H : sum_list_with (held (l :: ls)) ids ≤ 1 + sum_list_with (held ls) ids); [|lia].
  clear IH. assert (H : ∀ ids, l_entry l ∉ ids → sum_list_with (held (l :: ls)) ids = sum_list_with (held ls) ids).
  { clear. induction ids as [|i ids IH]; intros Hn; [done|]. cbn [sum_list_with]. rewrite held_cons.
    rewrite decide_False by (intros <-; apply Hn, list_elem_of_here). rewrite IH; [done|].
    intros Hi. by apply Hn, elem_of_list_further. }
  induction Hnd as [|i ids Hi Hnd IH]; [cbn; lia|]. cbn [sum_list_with]. rewrite held_cons. case_decide as E.
  - rewrite H by by rewrite E. lia.
  - lia.
Qed.

Lemma live_sum (cap : nat) es ls :
  (∀ e, e ∈ es → in_flight e = held ls (e_id e)) →
  (∀ e, e ∈ es → is_live e = true → cap ≤ in_flight e) →
  cap * live_of es ≤ sum_list_with (held ls) (map e_id es).
Proof.
  unfold live_of. induction es as [|e es IH]; intros H1 H2; [cbn; lia|].
  rewrite filter_cons. cbn [map sum_list_with].
  assert (IHe : cap * length (filter (λ e, is_live e = true) es) ≤ sum_list_with (held ls) (map e_id es)).
  { apply IH; intros; [apply H1|apply H2]; try done; by apply elem_of_list_further. }
  case_decide as Hl; [|lia]. cbn [length]. pose proof (H2 e (list_elem_of_here _ _) Hl).
  rewrite <-(H1 e (list_elem_of_here _ _)). lia.
Qed.

(** A caller that holds a permit is never turned away. *)
Lemma not_exhausted c p k a ls now fresh :
  pool_inv c (mkSystem p k (S a) ls) → pick p now fresh ≠ Exhausted.
Proof.
  intros [] Hp. cbn [pool permits admitted leases] in *. pose proof (pick_spec p now fresh) as H. rewrite Hp in H.
  destruct H as (_ & Hl & Hfull). rewrite pi_config0 in *.
  pose proof (live_sum (max_in_flight c) (entries p) ls (λ e He, proj1 (pi_held0 e He)) Hfull) as H1.
  pose proof (held_sum ls _ pi_ids0) as H2. fold (live p) in H1. change (live_of (entries p)) with (live p) in H1.
  unfold capacity in *. nia.
Qed.

(** One connection's number of leases changes, and nothing else of it. *)
Lemma replace_elem es i e e' x :
  NoDup (map e_id es) → es !! i = Some e → e_id e' = e_id e →
  x ∈ <[i := e']> es → x = e' ∨ (x ∈ es ∧ e_id x ≠ e_id e).
Proof.
  intros Hnd Hi Hid (j & Hj)%list_elem_of_lookup_1. destruct (decide (j = i)) as [->|Hne].
  - left. rewrite list_lookup_insert_eq in Hj by by eapply lookup_lt_Some. by injection Hj.
  - right. rewrite list_lookup_insert_ne in Hj by done. split; [by eapply list_elem_of_lookup_2|].
    intros Heq. apply Hne. eapply (NoDup_lookup _ j i (e_id e) Hnd);
      rewrite list_lookup_fmap; [by rewrite Hj; cbn; f_equal|by rewrite Hi].
Qed.

Lemma replace_ids es i e e' :
  es !! i = Some e → e_id e' = e_id e → map e_id (<[i := e']> es) = map e_id es.
Proof.
  intros Hi Hid. change (e_id <$> <[i := e']> es = e_id <$> es). rewrite list_fmap_insert, Hid.
  apply list_insert_id. by rewrite list_lookup_fmap, Hi.
Qed.

Lemma replace_live es i e e' :
  es !! i = Some e → is_live e' = is_live e → live_of (<[i := e']> es) = live_of es.
Proof.
  unfold live_of. revert i. induction es as [|x es IH]; intros [|i] Hi Hl; try discriminate Hi.
  - injection Hi as ->. cbn [insert list_insert]. rewrite !filter_cons, Hl. by case_decide.
  - change (<[S i := e']> (x :: es)) with (x :: <[i := e']> es). rewrite !filter_cons. specialize (IH i Hi Hl).
    case_decide; cbn [length]; lia.
Qed.

(** The connection at [i] gains or loses a lease. *)
Lemma pool_inv_replace c p p' k a k' a' ls ls' i e e' :
  pool_inv c (mkSystem p k a ls) → entries p !! i = Some e → e_id e' = e_id e → is_live e' = is_live e →
  entries p' = <[i := e']> (entries p) → config p' = config p → connecting p' = connecting p →
  next_entry_id p' = next_entry_id p → n_in_flight (counters p') = Z.of_nat (length ls') →
  in_flight e' = held ls' (e_id e) → in_flight e' ≤ max_in_flight c →
  (∀ j, j ≠ e_id e → held ls' j = held ls j) →
  (∀ l, l ∈ ls' → l ∈ ls ∨ l_entry l = e_id e) →
  k' + a' + length ls' = k + a + length ls →
  pool_inv c (mkSystem p' k' a' ls').
Proof.
  intros [] Hi Hid Hlive Ees Ecfg Econ Enext Ecnt Hf Hcap Hheld Hls Hk.
  cbn [pool permits admitted leases] in *.
  assert (Hein : e ∈ entries p) by by eapply list_elem_of_lookup_2.
  split; cbn [pool permits admitted leases]; rewrite ?Ecfg, ?Enext; try done.
  - by rewrite Ees, (replace_ids _ _ e).
  - intros x. rewrite Ees. intros Hx. destruct (replace_elem _ _ e e' x pi_ids0 Hi Hid Hx) as [->|[Hx' _]]; [rewrite Hid|]; auto.
  - intros x. rewrite Ees. intros Hx. destruct (replace_elem _ _ e e' x pi_ids0 Hi Hid Hx) as [->|[Hx' Hne]]; [by rewrite Hid|].
    rewrite Hheld by done. auto.
  - unfold live, pending in *. rewrite Econ, Ees. fold (live_of (<[i := e']> (entries p))).
    rewrite (replace_live _ _ e) by done. exact pi_live0.
  - lia.
  - intros l [Hl| -> ]%Hls; auto.
Qed.

Lemma start_connect_inv c p k a ls :
  pool_inv c (mkSystem p k a ls) → connecting p = None → live p < max_connections c →
  pool_inv c (mkSystem (start_connect_locked p) k a ls).
Proof.
  intros [] Hn Hl. split; cbn [pool permits admitted leases] in *; try done.
  unfold pending, live in *. cbn [start_connect_locked connecting entries]. lia.
Qed.

Lemma acquire_round_inv c p k a ls alive pc now fresh :
  pool_inv c (mkSystem p k (S a) ls) →
  match acquire_round alive pc p now fresh with
  | (Ok l, p') => pool_inv c (mkSystem p' k a (l :: ls))
  | (Err (Some _), p') => pool_inv c (mkSystem p' k (S a) ls)
  | (Err None, _) => False
  end.
Proof.
  intros H. unfold acquire_round. cbn zeta. assert (H1 : pool_inv c (mkSystem (sweep_locked alive pc p now) k (S a) ls)).
  { eapply pool_inv_shrunk; [|apply sweep_shrunk|exact H]. lia. }
  clear H. set (p1 := sweep_locked alive pc p now) in *. pose proof (pick_spec p1 now fresh) as Hp.
  pose proof (not_exhausted _ _ _ _ _ now fresh H1) as Hne. pose proof (pi_config _ _ H1) as Hcfg. cbn [pool] in Hcfg.
  rewrite Hcfg in Hp.
  destruct (pick p1 now fresh) as [i up|start|]; [| |done].
  - destruct Hp as (e & Hi & Hl & Hlt & Hup).
    assert (H2 : pool_inv c (mkSystem (if up then start_connect_locked p1 else p1) k (S a) ls)).
    { destruct up; [|done]. apply start_connect_inv; [done|by apply Hup..]. }
    assert (Hi2 : entries (if up then start_connect_locked p1 else p1) !! i = Some e) by by destruct up.
    clearbody p1. set (p2 := if up then start_connect_locked p1 else p1) in *. clearbody p2.
    rewrite Hi2. pose proof (pi_counter _ _ H2) as Hcnt. cbn [pool leases] in Hcnt.
    pose proof (pi_permits _ _ H2) as Hperm. cbn [permits admitted leases] in Hperm.
    pose proof (configured_bounds _ (pi_configured _ _ H2)) as [Hb1 Hb2].
    assert (Hcapacity : capacity c ≤ 4096) by (unfold capacity, MAX_CONNECTIONS_LIMIT, MAX_IN_FLIGHT_LIMIT in *; nia).
    pose proof (pi_held _ _ H2 e (list_elem_of_lookup_2 _ _ _ Hi2)) as [Hheld _]. cbn [leases] in Hheld.
    eapply (pool_inv_replace c p2 _ k (S a) k a ls _ i e (bump_in_flight e)); try done.
    + cbn [set_entries counters count_lease n_in_flight length]. rewrite Hcnt. unfold bump, wrapping_add.
      rewrite Z.mod_small; [lia|]. change (2 ^ 64)%Z with 18446744073709551616%Z. lia.
    + cbn [bump_in_flight in_flight]. rewrite held_cons. cbn [l_entry]. rewrite decide_True by done. lia.
    + intros j Hj. rewrite held_cons. cbn [l_entry]. by rewrite decide_False.
    + intros l [->|Hl']%elem_of_cons; [by right|by left].
    + cbn [length]. lia.
  - destruct start.
    + cbn [start_connect_locked connecting]. apply start_connect_inv; [done|apply Hp..].
    + by destruct (connecting p1).
Qed.

Lemma finish_connect_inv c p k a ls epoch result now :
  pool_inv c (mkSystem p k a ls) → (next_entry_id p < u64_max)%Z →
  pool_inv c (mkSystem (finish_connect p epoch result now).2 k a ls).
Proof.
  intros H Hlt. unfold finish_connect. case_decide as He; [|done].
  destruct result as [x|err]; cbn [snd].
  2:{ destruct H. split; cbn [pool permits admitted leases] in *; try done.
      unfold live, pending in *. cbn [take_connecting connecting entries]. lia. }
  destruct H. cbn [pool permits admitted leases] in *.
  assert (Hw : wrapping_add 64 (next_entry_id p) 1 = (next_entry_id p + 1)%Z).
  { unfold wrapping_add. apply Z.mod_small. change (2 ^ 64)%Z with 18446744073709551616%Z. lia. }
  assert (Ees : entries (take_connecting (ensure_janitor_locked (push_entry p x now)) (last_connect_failure p)) =
    entries p ++ [mkEntry (next_entry_id p) x now now 0 false 0 None]).
  { cbn [take_connecting entries]. unfold ensure_janitor_locked. by destruct (janitor _). }
  assert (Enext : next_entry_id (take_connecting (ensure_janitor_locked (push_entry p x now)) (last_connect_failure p)) =
    (next_entry_id p + 1)%Z).
  { cbn [take_connecting next_entry_id]. unfold ensure_janitor_locked. destruct (janitor _); exact Hw. }
  split; cbn [pool permits admitted leases]; rewrite ?Ees, ?Enext; try done.
  - cbn [take_connecting config]. unfold ensure_janitor_locked. by destruct (janitor _).
  - rewrite map_app. apply NoDup_app. split; [done|]. split; [|apply NoDup_singleton].
    intros i (e & -> & Hin)%list_elem_of_fmap Heq%list_elem_of_singleton. apply pi_next0 in Hin. cbn [e_id] in Heq. lia.
  - intros e [Hin| ->%list_elem_of_singleton]%elem_of_app; cbn [e_id]; [apply pi_next0 in Hin|]; lia.
  - intros e [Hin| ->%list_elem_of_singleton]%elem_of_app; [by apply pi_held0|]. cbn [in_flight e_id].
    split; [|lia]. rewrite held_none; [done|]. intros l Hl%pi_leases0. lia.
  - unfold live, pending in *. rewrite Ees, filter_app, length_app. cbn [take_connecting connecting].
    rewrite filter_cons, decide_True, filter_nil by done. cbn [length]. rewrite He in pi_live0. lia.
  - intros l Hl%pi_leases0. lia.
  - cbn [take_connecting counters]. unfold ensure_janitor_locked. by destruct (janitor _).
  - lia.
Qed.

Lemma position_spec p i :
  match position p i with
  | Some idx => ∃ e, entries p !! idx = Some e ∧ e_id e = i
  | None => ∀ e, e ∈ entries p → e_id e ≠ i
  end.
Proof.
  unfold position. destruct (list_find _ (entries p)) as [[idx e]|] eqn:E; cbn [fmap option_fmap option_map fst].
  - apply list_find_Some in E as (Hi & He & _). eauto.
  - apply list_find_None in E. rewrite Forall_forall in E. exact E.
Qed.

Definition release p : Pool C := set_entries p (entries p) (count_release (counters p)) (closing p).

Lemma release_shrunk p p' : shrunk p p' → shrunk (release p) (release p').
Proof. intros []. split; try done. cbn [release set_entries counters count_release n_in_flight]. congruence. Qed.

(** A lease whose connection was retired before only frees its permit. *)
Lemma release_gone c p k a ls1 l ls2 :
  pool_inv c (mkSystem p k a (ls1 ++ l :: ls2)) → (∀ e, e ∈ entries p → e_id e ≠ l_entry l) →
  pool_inv c (mkSystem (release p) (S k) a (ls1 ++ ls2)).
Proof.
  intros [] Hn. cbn [pool permits admitted leases] in *. rewrite length_app in *. cbn [length] in *.
  split; cbn [pool permits admitted leases release set_entries config entries next_entry_id counters count_release n_in_flight];
    rewrite ?length_app; try done; try lia.
  - intros e He. destruct (pi_held0 e He) as [Hheld Hcap].
    rewrite held_middle, decide_False in Hheld by (intros E; by apply (Hn e He)). done.
  - intros x [Hx|Hx]%elem_of_app; apply pi_leases0, elem_of_app; [by left|right].
    by apply elem_of_list_further.
  - unfold drop_one. rewrite pi_counter0. rewrite decide_False by lia. lia.
Qed.

Lemma lease_drop_inv c p k a ls1 l ls2 pc now :
  pool_inv c (mkSystem p k a (ls1 ++ l :: ls2)) →
  pool_inv c (mkSystem (lease_drop pc p l now).2 (S k) a (ls1 ++ ls2)).
Proof.
  intros H. unfold lease_drop. fold (release p). pose proof (position_spec p (l_entry l)) as Hpos.
  destruct (position p (l_entry l)) as [idx|]; [|by apply (release_gone c p k a ls1 l ls2)].
  destruct Hpos as (e & Hi & He). cbn zeta. set (f := λ e : Entry C, mkEntry _ _ _ _ _ _ _ _).
  set (p1 := update p idx f).
  assert (Hi1 : entries p1 !! idx = Some (f e)).
  { cbn [p1 update set_entries entries]. rewrite list_lookup_alter_eq, Hi. done. }
  assert (H1 : pool_inv c (mkSystem (release p1) (S k) a (ls1 ++ ls2))).
  { pose proof (pi_held _ _ H e (list_elem_of_lookup_2 _ _ _ Hi)) as [Hheld Hcap].
    pose proof (pi_counter _ _ H) as Hcnt. cbn [pool leases] in *. rewrite length_app in Hcnt. cbn [length] in Hcnt.
    rewrite held_middle, He, decide_True in Hheld by done.
    eapply (pool_inv_replace c p _ k a (S k) a _ _ idx e (f e) H); try done.
    - cbn [release p1 update set_entries entries]. by apply list_alter_insert_eq.
    - cbn [release p1 update set_entries counters count_release n_in_flight]. unfold drop_one. rewrite Hcnt.
      rewrite decide_False by lia. rewrite length_app. lia.
    - cbn [f in_flight]. rewrite He. lia.
    - cbn [f in_flight]. lia.
    - intros j Hj. rewrite held_middle, decide_False by congruence. done.
    - intros x Hx. left. apply elem_of_app in Hx as [Hx|Hx]; apply elem_of_app; [by left|right; by apply elem_of_list_further].
    - rewrite !length_app. cbn [length]. lia. }
  rewrite Hi1. case_decide; [|exact H1]. cbn [f draining_since]. destruct (draining_since e) as [d|]; [|exact H1].
  cbn [snd]. change (set_entries ?q (entries ?q) (count_release (counters ?q)) (closing ?q)) with (release q).
  eapply pool_inv_shrunk; [|apply release_shrunk, retire_shrunk|exact H1]. lia.
Qed.

Lemma pool_step_inv c s s' : pool_step s s' → pool_inv c s → pool_inv c s'.
Proof.
  intros Hs. destruct Hs; intros Hi.
  - eapply pool_inv_shrunk; [|done|exact Hi]. lia.
  - eapply pool_inv_shrunk; [|done|exact Hi]. lia.
  - pose proof (acquire_round_inv _ _ _ _ _ alive pc now fresh Hi) as Hr. by rewrite H in Hr.
  - pose proof (acquire_round_inv _ _ _ _ _ alive pc now fresh Hi) as Hr. by rewrite H in Hr.
  - pose proof (acquire_round_inv _ _ _ _ _ alive pc now fresh Hi) as Hr. by rewrite H in Hr.
  - by apply finish_connect_inv.
  - apply (pool_inv_shrunk _ p _ k a); [lia|by split|exact Hi].
  - eapply pool_inv_shrunk; [|apply complete_shrunk|exact Hi]. lia.
  - eapply pool_inv_shrunk; [|apply note_timeout_shrunk|exact Hi]. lia.
  - eapply pool_inv_shrunk; [|apply mark_dead_shrunk|exact Hi]. lia.
  - by apply lease_drop_inv.
  - eapply pool_inv_shrunk; [|apply janitor_shrunk|exact Hi]. lia.
  - eapply pool_inv_shrunk; [|apply sweep_shrunk|exact Hi]. lia.
  - apply (pool_inv_shrunk _ p _ k a); [lia|by split|exact Hi].
  - apply (pool_inv_shrunk _ p _ k a); [lia|by split|exact Hi].
Qed.

Lemma system_new_inv c grace : configured c → pool_inv c (system_new c grace).
Proof.
  intros Hc. split; cbn; try done; try lia; try (by intros e []%not_elem_of_nil). constructor.
Qed.

(** C22: Whatever callers, leases, connects, sweeps and the janitor do and in
    whatever order, the pool stays in its bounds: connections that take queries,
    with the one being opened, are at most [max_connections]; every connection
    carries as many queries as it has leases, at most [max_in_flight]; permits
    are neither lost nor made, so at most 16 x 256 queries are admitted, and the
    gauge of queries in flight is exact. A caller that holds a permit is never
    turned away for want of capacity: it gets a lease or a connect to wait for. *)
Theorem pool_bounded c grace s :
  configured c → rtc pool_step (system_new c grace) s →
  live (pool s) + pending (pool s) ≤ max_connections c ∧
  (∀ e, e ∈ entries (pool s) → in_flight e = held (leases s) (e_id e) ∧ in_flight e ≤ max_in_flight c) ∧
  permits s + admitted s + length (leases s) = max_connections c * max_in_flight c ∧
  max_connections c * max_in_flight c ≤ 16 * 256 ∧
  n_in_flight (counters (pool s)) = Z.of_nat (length (leases s)) ∧
  (0 < admitted s → ∀ alive peer_closed now fresh, (acquire_round alive peer_closed (pool s) now fresh).1 ≠ Err None).
Proof.
  intros Hc Hr.
  assert (H : pool_inv c s).
  { refine (rtc_ind_r (pool_inv c) _ _ _ _ Hr); [by apply system_new_inv|].
    intros y z _ Hyz Hy. by eapply pool_step_inv. }
  pose proof (configured_bounds _ Hc) as [H1 H2]. unfold MAX_CONNECTIONS_LIMIT, MAX_IN_FLIGHT_LIMIT in *.
  split; [apply H|]. split; [apply H|]. split; [apply H|]. split; [nia|]. split; [apply H|].
  intros Ha alive pc now fresh. destruct s as [p k [|a] ls]; cbn [admitted] in Ha; [lia|]. cbn [pool].
  pose proof (acquire_round_inv _ _ _ _ _ alive pc now fresh H) as Hi.
  destruct (acquire_round alive pc p now fresh) as [[l|[epoch|]] p']; cbn [fst]; done.
Qed.
End inv.

(** A pool of one connection with room for one query: the first caller opens it. *)
Definition example_pool_config : PoolConfig := with_max_in_flight (with_max_connections pool_config_new 0) 1.

Lemma pool_bounded_witness :
  ∃ s : System (C:=nat), rtc pool_step (system_new example_pool_config 100) s ∧ length (leases s) = 1 ∧
    live (pool s) + pending (pool s) ≤ 1.
Proof.
  assert (Hc : configured example_pool_config).
  { apply configured_in_flight, configured_connections, configured_new. }
  set (up := λ _ : nat, true). set (p0 := pool_new (C:=nat) example_pool_config 100).
  set (p1 := (acquire_round up up p0 1 false).2). set (p2 := (finish_connect p1 0 (Ok 7) 2).2).
  set (p3 := (acquire_round up up p2 3 false).2).
  assert (Hr : rtc pool_step (system_new example_pool_config 100) (mkSystem p3 0 0 [mkLease 0 false])).
  { eapply rtc_l; [exact (ps_admit p0 0 0 [])|].
    eapply rtc_l; [refine (ps_wait p0 0 0 [] up up 1 false 0 p1 _); vm_compute; reflexivity|].
    eapply rtc_l; [refine (ps_finish p1 0 1 [] 0 (Ok 7) 2 _); vm_compute; reflexivity|].
    apply rtc_once. refine (ps_place p2 0 0 [] up up 3 false (mkLease 0 false) p3 _). vm_compute. reflexivity. }
  exists (mkSystem p3 0 0 [mkLease 0 false]). split; [exact Hr|]. split; [reflexivity|].
  exact (proj1 (pool_bounded _ _ _ Hc Hr)).
Defined.
