(* ===== verification/PoolLife.v ===== *)
(** * The life of a pooled connection

    The pool of Pool.v with its janitor task ([run_janitor]), the wake-up
    permit the other operations leave for it, and the observer that reports what
    the pool did ([PoolObserver], [close_all]). A lock section is one step of an
    executable machine. What an operation does after it released the lock
    (closing what it retired, reporting to the sink, sending a connect's outcome,
    waking the janitor) is a list of actions of its own, each one step, and the
    actions of different operations interleave with each other and with lock
    sections in any way; the machine does not hold an operation's caller back
    until its actions are done, which only adds interleavings. Proved: a sweep is
    one pass over the connections, the janitor is always there in time, and every
    connection the pool opened is open or is closed and reported exactly once,
    the counters agreeing. *)

From stdpp Require Import base numbers list strings.
From S2P Require Import Prelude CoreError Time Pool PoolInv.

(** ** Events *)

Inductive PoolEvent : Type :=
  | ConnectionOpened (transport server : string)
  | ConnectionClosed (transport server : string) (reason : PoolCloseReason)
  | QueryRetried (transport server : string).

(** [sink] says whether the configuration has one. *)
Record PoolObserver : Type := mkPoolObserver {
  sink : bool;
  transport : string;
  server : string;
}.

(** What the sink is given; a panic in it changes nothing. *)
Definition emit (o : PoolObserver) (event : string → string → PoolEvent) : list PoolEvent :=
  if sink o then [event (transport o) (server o)] else [].

Definition observe_opened (o : PoolObserver) : list PoolEvent := emit o ConnectionOpened.
Definition observe_closed (o : PoolObserver) (reason : PoolCloseReason) : list PoolEvent :=
  emit o (λ t s, ConnectionClosed t s reason).
Definition observe_retried (o : PoolObserver) : list PoolEvent := emit o QueryRetried.

Section life.
Context {C : Type}.
Implicit Types (p : Pool C) (e : Entry C) (now : Z).

(** What is done with no lock held: closing a connection ([Connector::close]),
    telling the sink, sending the outcome of a connect to its waiters, waking
    the janitor. *)
Inductive Act : Type :=
  | ActClose (c : C)
  | ActReport (reason : PoolCloseReason)
  | ActOpened
  | ActRetried
  | ActSend (epoch : Z) (outcome : Result Error unit)
  | ActNotify.

(** Every connection a lock section retired is closed, then reported. *)
Definition close_all (retired : list (C * PoolCloseReason)) : list Act :=
  concat (map (λ cr, [ActClose cr.1; ActReport cr.2]) retired).

(** ** The machine *)

(** The janitor task: none, about to run a round, closing what its round retired
    before it sleeps, or asleep until its deadline. *)
Inductive Task : Type :=
  | Absent
  | Ready
  | Retiring (acts : list Act) (deadline : option Z)
  | Sleeping (deadline : option Z).

(** [l_wake] is the permit of [Notify], [l_tails] what the operations that have
    released the lock still have to do, [l_opened] every connection the
    connector opened, [l_discarded] those that did not join the pool, [l_closed]
    those closed so far. *)
Record Life : Type := mkLife {
  l_pool : Pool C;
  l_wake : bool;
  l_task : Task;
  l_tails : list (list Act);
  l_opened : list C;
  l_discarded : list C;
  l_closed : list C;
  l_events : list PoolEvent;
}.

Definition life_new (c : PoolConfig) (grace : Z) : Life := mkLife (pool_new c grace) false Absent [] [] [] [] [].

(** What a lock section that left [p] retired. *)
Definition retired (s : Life) p : list (C * PoolCloseReason) := drop (length (closing (l_pool s))) (closing p).

Definition add_tail (tails : list (list Act)) (tail : list Act) : list (list Act) :=
  match tail with [] => tails | _ => tails ++ [tail] end.

(** A lock section that left [p]; it then closes what it retired, and wakes the
    janitor or not. *)
Definition after_section (s : Life) p (wake : bool) : Life :=
  mkLife p (l_wake s) (l_task s) (add_tail (l_tails s) (close_all (retired s p) ++ if wake then [ActNotify] else []))
    (l_opened s) (l_discarded s) (l_closed s) (l_events s).

(** The actions of [finish_connect] after its lock section: a stale connection is
    closed; an opening is reported before the waiters are told. *)
Definition finish_tail (stale : option C) (opened : bool) (notify : option (Z * Result Error unit)) : list Act :=
  match stale with Some c => [ActClose c] | None => [] end ++
  (if opened then [ActOpened] else []) ++
  match notify with Some (epoch, outcome) => [ActSend epoch outcome] | None => [] end.

(** A new connection starts a janitor when there is none, and wakes it, both
    under the lock. *)
Definition life_finish (s : Life) (epoch : Z) (result : Result Error C) (now : Z) : Life :=
  let '((stale, notify), p) := finish_connect (l_pool s) epoch result now in
  let opened := match result, notify with Ok _, Some _ => true | _, _ => false end in
  mkLife p (l_wake s || opened) (if opened && negb (janitor (l_pool s)) then Ready else l_task s)
    (add_tail (l_tails s) (finish_tail stale opened notify))
    (l_opened s ++ match result with Ok c => [c] | Err _ => [] end)
    (l_discarded s ++ match stale with Some c => [c] | None => [] end) (l_closed s) (l_events s).

(** The lock section of one turn of [run_janitor]'s loop. A task that ends is
    forgotten under the lock, and then closes what it retired. *)
Definition run_janitor (s : Life) (alive peer_closed : C → bool) (now : Z) : Life :=
  let '(sleep, p) := janitor_round alive peer_closed (l_pool s) now in
  let acts := close_all (retired s p) in
  match sleep with
  | Some deadline =>
      mkLife p (l_wake s) (Retiring acts deadline) (l_tails s) (l_opened s) (l_discarded s) (l_closed s) (l_events s)
  | None =>
      mkLife p (l_wake s) Absent (add_tail (l_tails s) acts) (l_opened s) (l_discarded s) (l_closed s) (l_events s)
  end.

Definition with_task (s : Life) (wake : bool) (task : Task) : Life :=
  mkLife (l_pool s) wake task (l_tails s) (l_opened s) (l_discarded s) (l_closed s) (l_events s).
Definition with_tails (s : Life) (tails : list (list Act)) : Life :=
  mkLife (l_pool s) (l_wake s) (l_task s) tails (l_opened s) (l_discarded s) (l_closed s) (l_events s).
Definition tell (s : Life) (events : list PoolEvent) : Life :=
  mkLife (l_pool s) (l_wake s) (l_task s) (l_tails s) (l_opened s) (l_discarded s) (l_closed s) (l_events s ++ events).

(** One action. *)
Definition run_act (o : PoolObserver) (s : Life) (a : Act) : Life :=
  match a with
  | ActClose c =>
      mkLife (l_pool s) (l_wake s) (l_task s) (l_tails s) (l_opened s) (l_discarded s) (l_closed s ++ [c]) (l_events s)
  | ActReport reason => tell s (observe_closed o reason)
  | ActOpened => tell s (observe_opened o)
  | ActRetried => tell s (observe_retried o)
  | ActSend epoch outcome =>
      mkLife (publish (l_pool s) (epoch, outcome)) (l_wake s) (l_task s) (l_tails s) (l_opened s) (l_discarded s)
        (l_closed s) (l_events s)
  | ActNotify => with_task s true (l_task s)
  end.

(** What is left after the first action of operation [i]. *)
Definition pop_tail (tails : list (list Act)) (i : nat) (rest : list Act) : list (list Act) :=
  match rest with [] => delete i tails | _ => <[i := rest]> tails end.

(** [OpAct i] is the next action of operation [i], [OpTask] the janitor's. *)
Inductive PoolOp : Type :=
  | OpAcquire (alive peer_closed : C → bool) (now : Z) (fresh : bool)
  | OpFinish (epoch : Z) (result : Result Error C) (now : Z)
  | OpComplete (l : Lease)
  | OpTimeout (peer_closed : C → bool) (l : Lease)
  | OpDead (peer_closed : C → bool) (l : Lease)
  | OpDrop (peer_closed : C → bool) (l : Lease) (now : Z)
  | OpSweep (alive peer_closed : C → bool) (now : Z)
  | OpRetry
  | OpQueued
  | OpAct (i : nat)
  | OpRound (alive peer_closed : C → bool) (now : Z)
  | OpTask
  | OpWake
  | OpTimer (now : Z).

(** [None] when the operation cannot happen now. *)
Definition life_op (o : PoolObserver) (s : Life) (op : PoolOp) : option Life :=
  let p := l_pool s in
  match op with
  | OpAcquire alive pc now fresh => Some (after_section s (acquire_round alive pc p now fresh).2 false)
  | OpFinish epoch result now => Some (life_finish s epoch result now)
  | OpComplete l => Some (after_section s (lease_complete p l) false)
  | OpTimeout pc l => Some (after_section s (note_timeout pc p l).2 false)
  | OpDead pc l => Some (after_section s (mark_dead pc p l) false)
  | OpDrop pc l now => let '(wake, p') := lease_drop pc p l now in Some (after_section s p' wake)
  | OpSweep alive pc now => Some (after_section s (sweep alive pc p now) false)
  | OpRetry => Some (mkLife (record_retry p) (l_wake s) (l_task s) (add_tail (l_tails s) [ActRetried])
                       (l_opened s) (l_discarded s) (l_closed s) (l_events s))
  | OpQueued => Some (after_section s (record_queued p) false)
  | OpAct i => match l_tails s !! i with
               | Some (a :: rest) => Some (run_act o (with_tails s (pop_tail (l_tails s) i rest)) a)
               | _ => None
               end
  | OpRound alive pc now => match l_task s with Ready => Some (run_janitor s alive pc now) | _ => None end
  | OpTask => match l_task s with
              | Retiring (a :: rest) deadline => Some (run_act o (with_task s (l_wake s) (Retiring rest deadline)) a)
              | Retiring [] deadline => Some (with_task s (l_wake s) (Sleeping deadline))
              | _ => None
              end
  | OpWake => match l_task s with
              | Sleeping _ => if l_wake s then Some (with_task s false Ready) else None
              | _ => None
              end
  | OpTimer now => match l_task s with
                   | Sleeping (Some d) => if decide (d ≤ now)%Z then Some (with_task s (l_wake s) Ready) else None
                   | _ => None
                   end
  end.

Definition life_ops (o : PoolObserver) : Life → list PoolOp → option Life :=
  foldl (λ s op, s ≫= λ s, life_op o s op) ∘ Some.

(** ** A sweep is one pass *)

(** What a sweep keeps of a connection, and what it retires it as. *)
Definition kept (alive : C → bool) p now e : option (Entry C) :=
  match sweep_entry alive p now e with (None, e') => Some e' | (Some _, _) => None end.
Definition gone (alive : C → bool) p now e : option (C * CloseReason) :=
  match sweep_entry alive p now e with (None, _) => None | (Some reason, e') => Some (conn e', reason) end.

Definition reported_as (peer_closed : C → bool) (cr : C * CloseReason) : C * PoolCloseReason :=
  (cr.1, match cr.2 with
         | Idle => PIdle
         | Lifetime => PLifetime
         | ConnError => if peer_closed cr.1 then PPeerClosed else PError
         end).

Definition swept (alive peer_closed : C → bool) p now : Pool C :=
  let out := omap (gone alive p now) (entries p) in
  set_entries p (omap (kept alive p now) (entries p)) (foldl count_closed (counters p) (map snd out))
    (closing p ++ map (reported_as peer_closed) out).

Lemma retire_middle pc p es1 e es2 n cl reason :
  retire pc (set_entries p (es1 ++ e :: es2) n cl) (length es1) reason =
  set_entries p (es1 ++ es2) (count_closed n reason) (cl ++ [reported_as pc (conn e, reason)]).
Proof.
  unfold retire. cbn [set_entries entries counters closing].
  rewrite lookup_app_r, Nat.sub_diag by done. cbn [lookup list_lookup]. unfold set_entries; cbn.
  f_equal. rewrite delete_middle. done.
Qed.

Lemma sweep_loop_one_pass alive pc p now rest : ∀ pre n cl,
  sweep_loop (length rest) alive pc (set_entries p (pre ++ rest) n cl) now (length pre) =
  set_entries p (pre ++ omap (kept alive p now) rest) (foldl count_closed n (map snd (omap (gone alive p now) rest)))
    (cl ++ map (reported_as pc) (omap (gone alive p now) rest)).
Proof.
  induction rest as [|e rest IH]; intros pre n cl; cbn [length sweep_loop omap list_omap map foldl].
  { by rewrite !app_nil_r. }
  cbn [set_entries entries]. rewrite lookup_app_r, Nat.sub_diag by done. cbn [lookup list_lookup].
  change (sweep_entry alive _ now e) with (sweep_entry alive p now e).
  assert (Hk : kept alive p now e = match sweep_entry alive p now e with (None, e') => Some e' | _ => None end) by done.
  assert (Hg : gone alive p now e = match sweep_entry alive p now e with
    | (None, _) => None | (Some reason, e') => Some (conn e', reason) end) by done.
  rewrite Hk, Hg. destruct (sweep_entry alive p now e) as [[reason|] e'] eqn:Es.
  - change (set_entries (set_entries p ?a ?b ?c) ?x ?y ?z) with (set_entries p x y z). cbn [counters closing].
    rewrite (insert_app_r_alt _ _ (length pre)), Nat.sub_diag by done. cbn [insert list_insert].
    rewrite retire_middle, IH. cbn [map foldl snd set_entries counters closing]. by rewrite <-app_assoc.
  - change (set_entries (set_entries p ?a ?b ?c) ?x ?y ?z) with (set_entries p x y z). cbn [counters closing].
    rewrite (insert_app_r_alt _ _ (length pre)), Nat.sub_diag by done. cbn [insert list_insert].
    replace (S (length pre)) with (length (pre ++ [e'])) by (rewrite length_app; cbn; lia).
    change (e' :: rest) with ([e'] ++ rest). rewrite app_assoc, IH. by rewrite <-app_assoc.
Qed.

Lemma sweep_locked_swept alive pc p now : sweep_locked alive pc p now = swept alive pc p now.
Proof.
  pose proof (sweep_loop_one_pass alive pc p now (entries p) [] (counters p) (closing p)) as H.
  cbn [app length] in H. replace (set_entries p (entries p) (counters p) (closing p)) with p in H; [exact H|by destruct p].
Qed.

(** ** When a connection needs attention *)

(** [t] is an instant [next_deadline_locked] counts for this connection. *)
Definition due_at p e (t : Z) : Prop :=
  (match draining_since e with
   | Some since => checked_add since (drain_grace p)
   | None => max_lifetime (config p) ≫= checked_add (opened_at e)
   end) = Some t ∨
  (in_flight e = 0 ∧ checked_add (last_active e) (idle_timeout (config p)) = Some t).

Definition due p (t : Z) : Prop := ∃ e, e ∈ entries p ∧ due_at p e t.

(** One turn of the loop of [next_deadline_locked]. *)
Definition consider p (next : option Z) e : option Z :=
  let next := opt_min next
    (match draining_since e with
     | Some since => checked_add since (drain_grace p)
     | None => max_lifetime (config p) ≫= checked_add (opened_at e)
     end) in
  if decide (in_flight e = 0) then opt_min next (checked_add (last_active e) (idle_timeout (config p))) else next.

Lemma opt_min_in_time a b t :
  (∃ d, opt_min a b = Some d ∧ (d ≤ t)%Z) ↔ (∃ d, a = Some d ∧ (d ≤ t)%Z) ∨ (∃ d, b = Some d ∧ (d ≤ t)%Z).
Proof.
  destruct a as [a|], b as [b|]; cbn; split; try naive_solver.
  - intros (d & [= <-] & H). destruct (decide (a ≤ t)%Z); [left; eauto|right; exists b; split; [done|lia]].
  - intros [(d & [= <-] & H)|(d & [= <-] & H)]; eexists; (split; [reflexivity|lia]).
Qed.

Lemma next_deadline_early p t : due p t → ∃ d, next_deadline_locked p = Some d ∧ (d ≤ t)%Z.
Proof.
  intros (e & He & Ht). change (next_deadline_locked p) with (foldl (consider p) None (entries p)).
  enough (H : ∀ es acc, ((∃ d, acc = Some d ∧ (d ≤ t)%Z) ∨ e ∈ es) → ∃ d, foldl (consider p) acc es = Some d ∧ (d ≤ t)%Z)
    by (apply H; by right).
  intros es. induction es as [|x es IH]; intros acc H; cbn [foldl].
  { destruct H as [H|[]%not_elem_of_nil]. exact H. }
  apply IH. unfold consider. destruct H as [H|[<-|H]%elem_of_cons]; [left|left|by right].
  - case_decide; rewrite ?opt_min_in_time; auto.
  - case_decide as Hf; rewrite ?opt_min_in_time; destruct Ht as [Ht|[Hz Ht]]; rewrite ?Ht; try done; eauto 6 with lia.
Qed.

Lemma next_deadline_due p d : next_deadline_locked p = Some d → due p d.
Proof.
  change (next_deadline_locked p) with (foldl (consider p) None (entries p)). unfold due.
  enough (H : ∀ es acc, foldl (consider p) acc es = Some d → acc = Some d ∨ ∃ e, e ∈ es ∧ due_at p e d).
  { intros [H'|H']%H; [done|exact H']. }
  intros es. induction es as [|x es IH]; intros acc H; cbn [foldl] in H; [by left|].
  apply IH in H as [H|(e & He & Hd)]; [|right; exists e; split; [by apply elem_of_list_further|done]].
  assert (Hm : ∀ a b : option Z, opt_min a b = Some d → a = Some d ∨ b = Some d).
  { intros [a|] [b|] Hab; cbn in Hab; simplify_eq; auto.
    destruct (Z.min_spec a b) as [[_ ->]|[_ ->]]; auto. }
  assert (Hx : acc = Some d ∨ due_at p x d).
  { unfold due_at. unfold consider in H. case_decide; [apply Hm in H as [H|H]|]; [| |]; try (apply Hm in H as [H|H]); auto. }
  destruct Hx; [by left|right; exists x; split; [apply list_elem_of_here|done]].
Qed.

(** ** Operations that put no connection forward *)

Definition later p p' : Prop := ∀ t, due p' t → ∃ t0, due p t0 ∧ (t0 ≤ t)%Z.

#[export] Instance later_refl : Reflexive later.
Proof. intros p t H. by exists t. Qed.
#[export] Instance later_trans : Transitive later.
Proof. intros p1 p2 p3 H12 H23 t (t1 & (t0 & H0 & Hle0)%H12 & Hle1)%H23. exists t0. split; [done|lia]. Qed.

Lemma later_entries p p' :
  config p' = config p → drain_grace p' = drain_grace p →
  (∀ e', e' ∈ entries p' → ∃ e, e ∈ entries p ∧ ∀ t, due_at p e' t → ∃ t0, due_at p e t0 ∧ (t0 ≤ t)%Z) → later p p'.
Proof.
  intros Hc Hg H t (e' & He' & Ht). destruct (H e' He') as (e & He & Hd). unfold due_at in Ht. rewrite Hc, Hg in Ht.
  destruct (Hd t Ht) as (t0 & H0 & Hle). exists t0. split; [by exists e|done].
Qed.

Lemma later_subset p p' :
  config p' = config p → drain_grace p' = drain_grace p → (∀ e, e ∈ entries p' → e ∈ entries p) → later p p'.
Proof. intros Hc Hg H. apply later_entries; try done. intros x Hx. exists x. split; [auto|]. intros t Ht. by exists t. Qed.

(** A changed connection that keeps its times and has not become idle. *)
Definition same_times e e' : Prop :=
  opened_at e' = opened_at e ∧ draining_since e' = draining_since e ∧
  (in_flight e' = 0 → in_flight e = 0 ∧ last_active e' = last_active e).

Lemma same_times_due p e e' t : same_times e e' → due_at p e' t → due_at p e t.
Proof. intros (Ho & Hd & Hf) [H|[H1 H2]]; unfold due_at; [left; by rewrite <-Ho, <-Hd|]. apply Hf in H1 as [? <-]; auto. Qed.

Lemma later_update p i f : (∀ e, same_times e (f e)) → later p (update p i f).
Proof.
  intros Hf. apply later_entries; [done..|]. intros e' He'. cbn [update set_entries entries] in He'.
  apply list_elem_of_lookup in He' as (j & Hj). destruct (decide (i = j)) as [<-|Hne].
  - rewrite list_lookup_alter_eq in Hj. destruct (entries p !! i) as [e|] eqn:Ei; [|done]. injection Hj as <-.
    exists e. split; [by eapply list_elem_of_lookup_2|]. intros t Ht. exists t. split; [by eapply same_times_due|done].
  - rewrite list_lookup_alter_ne in Hj by done. exists e'. split; [by eapply list_elem_of_lookup_2|]. intros t Ht. by exists t.
Qed.

Lemma later_retire pc p i reason : later p (retire pc p i reason).
Proof.
  unfold retire. destruct (entries p !! i); [|done]. apply later_subset; [done..|]. intros x. cbn [set_entries entries].
  apply list_elem_of_delete_inv.
Qed.

(** What a sweep keeps has its next instant ahead, and not before the old one. *)
Lemma kept_ahead alive p now e e' t :
  kept alive p now e = Some e' → due_at p e' t → (now < t)%Z ∧ ∃ t0, due_at p e t0 ∧ (t0 ≤ t)%Z.
Proof.
  unfold kept, sweep_entry, reached. destruct (negb _); [done|].
  destruct (draining_since e) as [since|] eqn:Ed; cbn zeta; [rewrite Ed|]; cbn [draining_since in_flight].
  - destruct (_ || _) eqn:E; [done|]. intros [= <-] [Ht|[Hf _]]; [|by rewrite bool_decide_true in E].
    apply orb_false_iff in E as [_ E]. pose proof Ht as Ht'. rewrite Ed in Ht. rewrite Ht in E. apply bool_decide_eq_false in E.
    split; [lia|]. exists t. split; [by left|done].
  - destruct (max_lifetime (config p) ≫= checked_add (opened_at e)) as [t1|] eqn:El; [case_bool_decide as Hr|];
      cbn [drain_from draining_since in_flight last_active opened_at]; rewrite ?Ed.
    + destruct (_ || _) eqn:E; [done|]. apply orb_false_iff in E as [Ef E]. intros [= <-] [Ht|[Hf _]];
        cbn [drain_from draining_since in_flight] in *; [|by rewrite bool_decide_true in Ef].
      rewrite Ht in E. apply bool_decide_eq_false in E. split; [lia|]. exists t1. split; [|lia]. left. by rewrite Ed.
    + destruct (_ && _) eqn:E; [done|]. intros [= <-] Ht. split; [|by exists t]. destruct Ht as [Ht|[Hf Ht]].
      * rewrite Ed, El in Ht. injection Ht as <-. lia.
      * rewrite bool_decide_true, Ht in E by done. cbn [andb] in E. apply bool_decide_eq_false in E. lia.
    + destruct (_ && _) eqn:E; [done|]. intros [= <-] Ht. split; [|by exists t]. destruct Ht as [Ht|[Hf Ht]].
      * by rewrite Ed, El in Ht.
      * rewrite bool_decide_true, Ht in E by done. cbn [andb] in E. apply bool_decide_eq_false in E. lia.
Qed.

Lemma sweep_ahead alive pc p now t : due (sweep_locked alive pc p now) t → (now < t)%Z.
Proof.
  rewrite sweep_locked_swept. intros (e' & (e & He & Hk)%list_elem_of_omap & Ht). by eapply (kept_ahead alive p now e e').
Qed.

Lemma later_sweep alive pc p now : later p (sweep_locked alive pc p now).
Proof.
  rewrite sweep_locked_swept. apply later_entries; [done..|]. intros e' (e & He & Hk)%list_elem_of_omap. exists e.
  split; [done|]. intros t Ht. by eapply kept_ahead.
Qed.

(** ** Conservation *)

Definition closed_as (test : PoolCloseReason → bool) (cl : list (C * PoolCloseReason)) : nat :=
  length (filter (λ cr, test cr.2 = true) cl).

(** The counters of a pool that has not opened 2^64 connections. *)
Record tally p : Prop := {
  ta_next : Z.of_nat (length (entries p) + length (closing p)) = next_entry_id p;
  ta_max : (next_entry_id p ≤ u64_max)%Z;
  ta_opened : n_opened (counters p) = next_entry_id p;
  ta_open : n_open (counters p) = Z.of_nat (length (entries p));
  ta_idle : n_closed_idle (counters p) = Z.of_nat (closed_as (λ r, match r with PIdle => true | _ => false end) (closing p));
  ta_lifetime : n_closed_lifetime (counters p) =
    Z.of_nat (closed_as (λ r, match r with PLifetime => true | _ => false end) (closing p));
  ta_error : n_closed_error (counters p) =
    Z.of_nat (closed_as (λ r, match r with PPeerClosed | PError => true | _ => false end) (closing p));
}.

(** [p'] is [p] after retiring [out]. *)
Record moved p p' : Prop := {
  mv_out : ∃ out, closing p' = closing p ++ out ∧ map conn (entries p) ≡ₚ map conn (entries p') ++ map fst out;
  mv_tally : tally p → tally p';
  mv_janitor : janitor p' = janitor p;
  mv_deadline : janitor_deadline p' = janitor_deadline p;
  mv_published : published p' = published p;
}.

#[export] Instance moved_refl : Reflexive moved.
Proof. intros p. split; try done. exists []. by rewrite !app_nil_r. Qed.

#[export] Instance moved_trans : Transitive moved.
Proof.
  intros p1 p2 p3 [(o1 & Ho1 & Hp1) ] [(o2 & Ho2 & Hp2) ]. split; try congruence; [|auto].
  exists (o1 ++ o2). split; [rewrite Ho2, Ho1; by rewrite app_assoc|].
  rewrite Hp1, Hp2, map_app. rewrite <-app_assoc. apply Permutation_app_head, Permutation_app_comm.
Qed.

(** Nothing is retired, and the counters of connections stay. *)
Lemma moved_same p p' :
  map conn (entries p') = map conn (entries p) → closing p' = closing p → next_entry_id p' = next_entry_id p →
  (n_open (counters p'), n_opened (counters p'), n_closed_idle (counters p'), n_closed_lifetime (counters p'),
   n_closed_error (counters p')) =
  (n_open (counters p), n_opened (counters p), n_closed_idle (counters p), n_closed_lifetime (counters p),
   n_closed_error (counters p)) →
  janitor p' = janitor p → janitor_deadline p' = janitor_deadline p → published p' = published p → moved p p'.
Proof.
  intros Hc Hcl Hn Hcnt Hj Hd Hpb. assert (Hlen : length (entries p') = length (entries p)).
  { by rewrite <-(length_map conn), Hc, length_map. }
  injection Hcnt as H1 H2 H3 H4 H5. split; try done.
  - exists []. by rewrite Hcl, Hc, !app_nil_r.
  - intros []. split; rewrite ?H1, ?H2, ?H3, ?H4, ?H5, ?Hlen, ?Hcl, ?Hn; done.
Qed.

Lemma moved_alter p i f n cl : (∀ e, conn (f e) = conn e) →
  (n_open n, n_opened n, n_closed_idle n, n_closed_lifetime n, n_closed_error n) =
  (n_open (counters p), n_opened (counters p), n_closed_idle (counters p), n_closed_lifetime (counters p),
   n_closed_error (counters p)) → cl = closing p →
  moved p (set_entries p (alter f i (entries p)) n cl).
Proof.
  intros Hf Hn ->. apply moved_same; try done. cbn [set_entries entries].
  change (conn <$> alter f i (entries p) = conn <$> entries p).
  apply list_eq. intros j. rewrite !list_lookup_fmap. destruct (decide (i = j)) as [<-|Hne].
  - rewrite list_lookup_alter_eq. destruct (entries p !! i); cbn; [by rewrite Hf|done].
  - by rewrite list_lookup_alter_ne.
Qed.

Lemma closed_as_app test cl x :
  closed_as test (cl ++ [x]) = closed_as test cl + (if test x.2 then 1 else 0).
Proof. unfold closed_as. rewrite filter_app, length_app, filter_cons, filter_nil. case_decide as H; destruct (test x.2); done. Qed.

Lemma closed_as_le test cl : closed_as test cl ≤ length cl.
Proof. apply length_filter. Qed.

Lemma bump_small n : (0 ≤ n < u64_max)%Z → bump n = (n + 1)%Z.
Proof. intros H. unfold bump, wrapping_add. apply Z.mod_small. change (2 ^ 64)%Z with 18446744073709551616%Z. lia. Qed.

Lemma moved_retire pc p i reason : moved p (retire pc p i reason).
Proof.
  unfold retire. destruct (entries p !! i) as [e|] eqn:Ei; [|done].
  pose proof (delete_Permutation _ _ _ Ei) as Hperm. pose proof (Permutation_length Hperm) as Hlen. cbn [length] in Hlen.
  split; try done.
  - exists [(conn e, reported pc e reason)]. split; [done|]. cbn [set_entries entries map fst].
    rewrite Hperm at 1. cbn [map]. by rewrite Permutation_app_comm.
  - intros []. pose proof (closed_as_le (λ r, match r with PIdle => true | _ => false end) (closing p)).
    pose proof (closed_as_le (λ r, match r with PLifetime => true | _ => false end) (closing p)).
    pose proof (closed_as_le (λ r, match r with PPeerClosed | PError => true | _ => false end) (closing p)).
    split; cbn [set_entries entries closing counters next_entry_id]; rewrite ?length_app, ?closed_as_app; cbn [length snd]; try done.
    + lia.
    + cbn [count_closed n_open]. unfold drop_one. rewrite ta_open0. case_decide; lia.
    + destruct reason; cbn [count_closed n_closed_idle reported]; rewrite ?bump_small; try (destruct (pc _)); lia.
    + destruct reason; cbn [count_closed n_closed_lifetime reported]; rewrite ?bump_small; try (destruct (pc _)); lia.
    + destruct reason; cbn [count_closed n_closed_error reported]; rewrite ?bump_small; try (destruct (pc _)); lia.
Qed.

Lemma sweep_entry_conn alive p now e : conn (sweep_entry alive p now e).2 = conn e.
Proof.
  unfold sweep_entry. destruct (negb _); [done|]. destruct (draining_since e) eqn:Ed; [by rewrite Ed|].
  destruct (reached _ _); cbn [drain_from draining_since snd conn]; [done|by rewrite Ed].
Qed.

Lemma moved_sweep_loop fuel alive pc p now i : moved p (sweep_loop fuel alive pc p now i).
Proof.
  revert p i. induction fuel as [|fuel IH]; intros p i; [done|]. cbn [sweep_loop].
  destruct (entries p !! i) as [e|] eqn:Ei; [|done]. pose proof (sweep_entry_conn alive p now e) as Hc.
  destruct (sweep_entry alive p now e) as [reason e']. cbn [snd] in Hc.
  assert (Hm : moved p (set_entries p (<[i := e']> (entries p)) (counters p) (closing p))).
  { apply moved_same; try done. cbn [set_entries entries]. change (conn <$> <[i := e']> (entries p) = conn <$> entries p).
    rewrite list_fmap_insert, Hc. apply list_insert_id. by rewrite list_lookup_fmap, Ei. }
  destruct reason as [reason|]; (etrans; [exact Hm|]); [|apply IH]. etrans; [apply moved_retire|apply IH].
Qed.

Lemma moved_sweep alive pc p now : moved p (sweep_locked alive pc p now).
Proof. apply moved_sweep_loop. Qed.

Lemma moved_start p : moved p (start_connect_locked p).
Proof. by apply moved_same. Qed.
Lemma later_start p : later p (start_connect_locked p).
Proof. by apply later_subset. Qed.

Lemma moved_release p : moved p (release p).
Proof. by apply moved_same. Qed.
Lemma later_release p : later p (release p).
Proof. by apply later_subset. Qed.

Lemma acquire_round_moved alive pc p now fresh :
  moved p (acquire_round alive pc p now fresh).2 ∧ later p (acquire_round alive pc p now fresh).2.
Proof.
  unfold acquire_round. cbn zeta. pose proof (moved_sweep alive pc p now) as Hm. pose proof (later_sweep alive pc p now) as Hl.
  set (p1 := sweep_locked alive pc p now) in *. clearbody p1.
  assert (Hs : ∀ b : bool, moved p (if b then start_connect_locked p1 else p1) ∧ later p (if b then start_connect_locked p1 else p1)).
  { intros []; [split; (etrans; [eassumption|]); [apply moved_start|apply later_start]|done]. }
  destruct (pick p1 now fresh) as [i up|start|]; cbn [snd]; [|apply Hs|done].
  destruct (Hs up) as [Hm2 Hl2]. set (p2 := if up then _ else _) in *. clearbody p2.
  destruct (entries p2 !! i) as [e|] eqn:Ei; [|done]. cbn [snd]. rewrite <-(list_alter_insert_eq bump_in_flight _ _ _ Ei).
  split; (etrans; [eassumption|]); [by apply moved_alter|].
  apply (later_update p2 i bump_in_flight). intros x. by split.
Qed.

Lemma note_timeout_moved pc p l : moved p (note_timeout pc p l).2 ∧ later p (note_timeout pc p l).2.
Proof.
  unfold note_timeout. destruct (position p _) as [i|]; [|done]. cbn zeta. set (p1 := update _ _ _).
  assert (H : moved p p1 ∧ later p p1) by (split; [by apply moved_alter|apply later_update; intros x; by split]).
  cbn [snd]. destruct (match entries p1 !! i with Some e => _ | None => _ end); [|done]. destruct H as [Hm Hl].
  split; (etrans; [eassumption|]); [apply moved_retire|apply later_retire].
Qed.

Lemma mark_dead_moved pc p l : moved p (mark_dead pc p l) ∧ later p (mark_dead pc p l).
Proof. unfold mark_dead. destruct (position p _); [split; [apply moved_retire|apply later_retire]|done]. Qed.

Lemma complete_moved p l : moved p (lease_complete p l) ∧ later p (lease_complete p l).
Proof.
  unfold lease_complete. destruct (position p _); [|done].
  split; [by apply moved_alter|apply later_update; intros x; by split].
Qed.

(** ** The deadline the janitor sleeps until *)

Definition watched p : Prop := ∀ t, due p t → ∃ d, janitor_deadline p = Some d ∧ (d ≤ t)%Z.

Lemma watched_later p p' : later p p' → janitor_deadline p' = janitor_deadline p → watched p → watched p'.
Proof.
  intros Hl Hd Hw t (t0 & (d & H & Hle)%Hw & Hle0)%Hl. exists d. rewrite Hd. split; [done|lia].
Qed.

(** A lease that ends changes what its connection waits for: unless it wakes the
    janitor, the janitor's deadline is early enough. *)
Lemma lease_drop_watched pc p l now :
  moved p (lease_drop pc p l now).2 ∧
  ((lease_drop pc p l now).1 = false → watched p → watched (lease_drop pc p l now).2).
Proof.
  unfold lease_drop. fold (release p).
  assert (Hrel : moved p (release p) ∧ (false = false → watched p → watched (release p))).
  { split; [apply moved_release|]. intros _. by apply watched_later; [apply later_release|]. }
  pose proof (position_spec p (l_entry l)) as Hpos. destruct (position p (l_entry l)) as [idx|]; [|exact Hrel].
  destruct Hpos as (e & Hi & _). cbn zeta. set (f := λ e : Entry C, mkEntry _ _ _ _ _ _ _ _). set (p1 := update p idx f).
  assert (Hm1 : moved p p1) by by apply moved_alter.
  assert (Hi1 : entries p1 !! idx = Some (f e)).
  { cbn [p1 update set_entries entries]. by rewrite list_lookup_alter_eq, Hi. }
  (* Every connection but this one waits for what it waited for. *)
  assert (Hdue : ∀ t, due p1 t → due p t ∨ (in_flight (f e) = 0 ∧ checked_add now (idle_timeout (config p)) = Some t)).
  { intros t (x & Hx & Ht). cbn [p1 update set_entries entries] in Hx. apply list_elem_of_lookup in Hx as (j & Hj).
    destruct (decide (idx = j)) as [<-|Hne].
    - rewrite list_lookup_alter_eq, Hi in Hj. injection Hj as <-. destruct Ht as [Ht|[Hf Ht]]; [left|by right].
      exists e. split; [by eapply list_elem_of_lookup_2|]. by left.
    - rewrite list_lookup_alter_ne in Hj by done. left. exists x. split; [by eapply list_elem_of_lookup_2|done]. }
  rewrite Hi1. fold (release p1). case_decide as Hf.
  - cbn [f draining_since]. destruct (draining_since e) as [since|] eqn:Ed; cbn [fst snd].
    + change (set_entries ?q (entries ?q) (count_release (counters ?q)) (closing ?q)) with (release q).
      split; [etrans; [exact Hm1|etrans; [apply moved_retire|apply moved_release]]|]. intros _ Hw t Ht.
      apply later_release in Ht as (t1 & Ht1 & Hle1).
      (* The connection that ended its last lease is retired, the others are as before. *)
      unfold retire in Ht1. rewrite Hi1 in Ht1. destruct Ht1 as (x & Hx & Hd). cbn [set_entries entries p1 update] in Hx.
      assert (Hx' : x ∈ delete idx (entries p)).
      { apply list_elem_of_lookup in Hx as (j & Hj). apply list_elem_of_lookup. exists j. revert Hj.
        destruct (decide (j < idx)).
        - rewrite !list_lookup_delete_lt by done. by rewrite list_lookup_alter_ne by lia.
        - rewrite !list_lookup_delete_ge by lia. by rewrite list_lookup_alter_ne by lia. }
      destruct (Hw t1) as (d & Hd' & Hle).
      2:{ exists d. split; [|lia].
          by rewrite (mv_deadline _ _ (moved_release _)), (mv_deadline _ _ (moved_retire _ _ _ _)), (mv_deadline _ _ Hm1). }
      exists x. split; [by eapply list_elem_of_delete_inv|exact Hd].
    + split; [etrans; [exact Hm1|apply moved_release]|]. intros Hwake Hw t Ht.
      apply later_release in Ht as (t1 & [Ht1|[_ Ht1]]%Hdue & Hle1).
      * destruct (Hw t1 Ht1) as (d & Hd' & Hle). exists d. split; [done|lia].
      * change (config p1) with (config p) in Hwake. change (janitor_deadline p1) with (janitor_deadline p) in Hwake.
        rewrite Ht1 in Hwake. destruct (janitor_deadline p) as [d|] eqn:Ej; [|done].
        apply bool_decide_eq_false in Hwake. exists d. split; [done|lia].
  - split; [etrans; [exact Hm1|apply moved_release]|]. intros _ Hw t Ht.
    apply later_release in Ht as (t1 & [Ht1|[Hz _]]%Hdue & Hle1); [|done].
    destruct (Hw t1 Ht1) as (d & Hd' & Hle). exists d. split; [done|lia].
Qed.

(** ** What is still to be done *)

(** What actions do, by kind. *)
Definition closes (acts : list Act) : list C := omap (λ a, match a with ActClose c => Some c | _ => None end) acts.
Definition reports (acts : list Act) : list PoolCloseReason :=
  omap (λ a, match a with ActReport reason => Some reason | _ => None end) acts.
Definition opens (acts : list Act) : nat := length (omap (λ a, match a with ActOpened => Some tt | _ => None end) acts).
Definition sends (acts : list Act) : list (Z * Result Error unit) :=
  omap (λ a, match a with ActSend epoch outcome => Some (epoch, outcome) | _ => None end) acts.

(** How many connects of these succeeded. *)
Definition connected (outcomes : list (Z * Result Error unit)) : nat :=
  length (omap (λ eo : Z * Result Error unit, match eo.2 with Ok _ => Some tt | Err _ => None end) outcomes).

Definition task_acts (t : Task) : list Act := match t with Retiring acts _ => acts | _ => [] end.

(** Every action that was left to be done without the lock and is not done. *)
Definition owed (s : Life) : list Act := concat (l_tails s) ++ task_acts (l_task s).

#[export] Instance closes_perm : Proper ((≡ₚ) ==> (≡ₚ)) closes.
Proof. apply omap_Permutation. Qed.
#[export] Instance reports_perm : Proper ((≡ₚ) ==> (≡ₚ)) reports.
Proof. apply omap_Permutation. Qed.
#[export] Instance opens_perm : Proper ((≡ₚ) ==> (=)) opens.
Proof. intros a b H. unfold opens. by rewrite H. Qed.
#[export] Instance sends_perm : Proper ((≡ₚ) ==> (≡ₚ)) sends.
Proof. apply omap_Permutation. Qed.
#[export] Instance connected_perm : Proper ((≡ₚ) ==> (=)) connected.
Proof. intros a b H. unfold connected. by rewrite H. Qed.

Lemma closes_app a b : closes (a ++ b) = closes a ++ closes b.
Proof. apply omap_app. Qed.
Lemma reports_app a b : reports (a ++ b) = reports a ++ reports b.
Proof. apply omap_app. Qed.
Lemma opens_app a b : opens (a ++ b) = opens a + opens b.
Proof. unfold opens. by rewrite omap_app, length_app. Qed.
Lemma sends_app a b : sends (a ++ b) = sends a ++ sends b.
Proof. apply omap_app. Qed.
Lemma connected_app a b : connected (a ++ b) = connected a + connected b.
Proof. unfold connected. by rewrite omap_app, length_app. Qed.

(** Closing what was retired does just that. *)
Lemma close_all_acts out :
  closes (close_all out) = map fst out ∧ reports (close_all out) = map snd out ∧ opens (close_all out) = 0 ∧
  sends (close_all out) = [] ∧ ActNotify ∉ close_all out.
Proof.
  induction out as [|[c r] out (H1 & H2 & H3 & H4 & H5)]; [by split_and!; [..|apply not_elem_of_nil]|].
  change (close_all ((c, r) :: out)) with (ActClose c :: ActReport r :: close_all out).
  unfold closes, reports, opens, sends in *. cbn [omap list_omap map fst snd]. rewrite H1, H2. split_and!; [done..|].
  by rewrite !not_elem_of_cons.
Qed.

Lemma concat_add_tail tails tail : concat (add_tail tails tail) = concat tails ++ tail.
Proof.
  destruct tail; cbn [add_tail]; [by rewrite app_nil_r|]. rewrite concat_app. cbn [concat]. by rewrite app_nil_r.
Qed.

Lemma owed_add tails tail acts : concat (add_tail tails tail) ++ acts ≡ₚ (concat tails ++ acts) ++ tail.
Proof. rewrite concat_add_tail, <-!app_assoc. apply Permutation_app_head, Permutation_app_comm. Qed.

Lemma pop_tail_perm tails i a rest :
  tails !! i = Some (a :: rest) → concat tails ≡ₚ a :: concat (pop_tail tails i rest).
Proof.
  intros (l1 & l2 & -> & ->)%list_elem_of_split_length. unfold pop_tail. destruct rest as [|b rest].
  - rewrite delete_middle, !concat_app. cbn [concat app]. symmetry. apply Permutation_middle.
  - rewrite insert_app_r_alt, Nat.sub_diag by done. cbn [insert list_insert]. rewrite !concat_app. cbn [concat app].
    symmetry. apply Permutation_middle.
Qed.

(** The actions of an operation that may wake the janitor, or of one that
    finished a connect. *)
Definition tail_ok (tail : list Act) : Prop :=
  tail ≠ [] ∧ ((sends tail = [] ∧ opens tail = 0) ∨
    (∃ epoch, tail = [ActOpened; ActSend epoch (Ok tt)]) ∨ ∃ epoch outcome, tail = [ActSend epoch outcome]).

Lemma tail_ok_rest a rest : tail_ok (a :: rest) → rest = [] ∨ tail_ok rest.
Proof.
  intros [_ [[Hs Ho]|[(e & [= -> ->])|(e & r & [= -> ->])]]]; [|right; split; [done|]; right; right; eauto|by left].
  destruct rest as [|b rest]; [by left|right]. split; [done|]. left. unfold sends, opens in *.
  destruct a; cbn [omap list_omap] in *; done.
Qed.

Lemma tails_ok_add tails tail : Forall tail_ok tails → (tail = [] ∨ tail_ok tail) → Forall tail_ok (add_tail tails tail).
Proof.
  intros Ht [->|H]; [done|]. destruct tail; [done|]. apply Forall_app. split; [done|]. by apply Forall_singleton.
Qed.

Lemma tails_ok_pop tails i a rest : tails !! i = Some (a :: rest) → Forall tail_ok tails → Forall tail_ok (pop_tail tails i rest).
Proof.
  intros Hi Ht. pose proof (Forall_lookup_1 _ _ _ _ Ht Hi) as [->|H]%tail_ok_rest; [by apply Forall_delete|].
  unfold pop_tail. destruct rest; [by apply Forall_delete|]. by apply Forall_insert.
Qed.

Lemma section_tail_ok out (wake : bool) :
  let tail := close_all out ++ (if wake then [ActNotify] else []) in tail = [] ∨ tail_ok tail.
Proof.
  cbn zeta. destruct (close_all_acts out) as (_ & _ & Ho & Hs & _). destruct (close_all out ++ _) as [|a t] eqn:E; [by left|right].
  rewrite <-E. split; [by rewrite E|left]. rewrite sends_app, opens_app, Hs, Ho. by destruct wake.
Qed.

Lemma finish_tail_ok s epoch result now :
  let '((stale, notify), _) := finish_connect (l_pool s) epoch result now in
  let tail := finish_tail stale match result, notify with Ok _, Some _ => true | _, _ => false end notify in
  tail = [] ∨ tail_ok tail.
Proof.
  unfold finish_connect, finish_tail. case_decide; destruct result as [c|e]; cbn; [right|right|right|by left]; split; try done; eauto.
Qed.

(** ** The invariant *)

Definition reasons (evs : list PoolEvent) : list PoolCloseReason :=
  omap (λ ev, match ev with ConnectionClosed _ _ r => Some r | _ => None end) evs.
Definition openings (evs : list PoolEvent) : nat :=
  length (omap (λ ev, match ev with ConnectionOpened _ _ => Some tt | _ => None end) evs).

Lemma reasons_app a b : reasons (a ++ b) = reasons a ++ reasons b.
Proof. apply omap_app. Qed.
Lemma openings_app a b : openings (a ++ b) = openings a + openings b.
Proof. unfold openings. by rewrite omap_app, length_app. Qed.

Definition asleep (t : Task) : option (option Z) := match t with Retiring _ d | Sleeping d => Some d | _ => None end.

(** The state while the actions [extra] are owed besides those it lists. *)
Record life_owing (o : PoolObserver) (extra : list Act) (s : Life) : Prop := {
  li_janitor : janitor (l_pool s) = match l_task s with Absent => false | _ => true end;
  li_entries : entries (l_pool s) ≠ [] → janitor (l_pool s) = true;
  li_sleep d : asleep (l_task s) = Some d →
    janitor_deadline (l_pool s) = d ∧ (l_wake s = true ∨ ActNotify ∈ extra ++ owed s ∨ watched (l_pool s));
  li_tails : Forall tail_ok (l_tails s);
  li_task : sends (task_acts (l_task s)) = [] ∧ opens (task_acts (l_task s)) = 0 ∧ ActNotify ∉ task_acts (l_task s);
  li_opened : l_opened s ≡ₚ map conn (entries (l_pool s)) ++ map fst (closing (l_pool s)) ++ l_discarded s;
  li_closed : l_closed s ++ closes (extra ++ owed s) ≡ₚ map fst (closing (l_pool s)) ++ l_discarded s;
  li_tally : (Z.of_nat (length (l_opened s)) ≤ u64_max)%Z → tally (l_pool s);
  li_reasons : sink o = true → reasons (l_events s) ++ reports (extra ++ owed s) ≡ₚ map snd (closing (l_pool s));
  li_openings : sink o = true →
    openings (l_events s) + opens (extra ++ owed s) = length (entries (l_pool s)) + length (closing (l_pool s));
  li_silent : sink o = false → l_events s = [];
  li_sent : connected (published (l_pool s)) + connected (sends (extra ++ owed s)) =
    length (entries (l_pool s)) + length (closing (l_pool s));
}.

Notation life_inv o := (life_owing o []).

Lemma life_new_inv o c grace : life_inv o (life_new c grace).
Proof. split; try done. by split_and!; [..|apply not_elem_of_nil]. Qed.

Lemma moved_nonempty p p' : moved p p' → entries p' ≠ [] → entries p ≠ [].
Proof.
  intros [(out & _ & Hp)] Hne He. rewrite He in Hp. apply Permutation_nil in Hp. by destruct (entries p').
Qed.

(** How many connections there are does not change. *)
Lemma moved_length p p' :
  moved p p' → length (entries p') + length (closing p') = length (entries p) + length (closing p).
Proof.
  intros [(out & -> & Hp%Permutation_length)]. rewrite length_app in *. rewrite !length_map in Hp. lia.
Qed.

Lemma retired_app s p' out : closing p' = closing (l_pool s) ++ out → retired s p' = out.
Proof. intros E. unfold retired. by rewrite E, drop_app_length. Qed.

(** A lock section that only retires, then closes what it did. *)
Lemma section_inv o s p' wake :
  life_inv o s → moved (l_pool s) p' →
  (wake = false → watched (l_pool s) → watched p') → life_inv o (after_section s p' wake).
Proof.
  intros [] Hm Hw. pose proof Hm as [(out & Hout & Hperm) Htally Hjan Hdl Hpub].
  pose proof (moved_length _ _ Hm) as Hlen. destruct (close_all_acts out) as (Hc & Hr & Ho & Hs & _).
  set (tail := close_all out ++ if wake then [ActNotify] else []).
  assert (Hs' : after_section s p' wake = mkLife p' (l_wake s) (l_task s) (add_tail (l_tails s) tail)
    (l_opened s) (l_discarded s) (l_closed s) (l_events s)) by (unfold after_section; by rewrite (retired_app s p' out)).
  assert (Howed : owed (after_section s p' wake) ≡ₚ owed s ++ tail).
  { rewrite Hs'. apply owed_add. }
  assert (Htc : closes tail = map fst out ∧ reports tail = map snd out ∧ opens tail = 0 ∧ sends tail = []).
  { unfold tail. rewrite closes_app, reports_app, opens_app, sends_app, Hc, Hr, Ho, Hs. destruct wake; cbn; by rewrite !app_nil_r. }
  destruct Htc as (Htc & Htr & Hto & Hts).
  split; cbn [app] in *; rewrite ?Howed, Hs'; cbn [l_pool l_task l_wake l_tails l_opened l_discarded l_closed l_events];
    rewrite ?closes_app, ?reports_app, ?opens_app, ?sends_app, ?Htc, ?Htr, ?Hto, ?Hts, ?app_nil_r, ?Hout, ?Hpub; try done.
  - by rewrite Hjan.
  - intros Hne. rewrite Hjan. by apply li_entries0, (moved_nonempty _ p').
  - intros d Hd. destruct (li_sleep0 d Hd) as [H1 H2]. rewrite Hdl. split; [done|].
    destruct H2 as [H2|[H2|H2]]; [by left|right; left|right].
    + rewrite <-Hs', Howed. apply elem_of_app. by left.
    + destruct wake; [left|right; by apply Hw]. rewrite <-Hs', Howed. unfold tail. rewrite !elem_of_app. right. right. apply list_elem_of_here.
  - apply tails_ok_add; [done|]. apply section_tail_ok.
  - rewrite li_opened0, map_app, Hperm, <-!app_assoc. apply Permutation_app_head.
    rewrite !app_assoc. apply Permutation_app_tail, Permutation_app_comm.
  - rewrite app_assoc, li_closed0, map_app, <-!app_assoc. apply Permutation_app_head, Permutation_app_comm.
  - auto.
  - intros Hk. by rewrite app_assoc, li_reasons0, map_app.
  - intros Hk. specialize (li_openings0 Hk). rewrite Hout in Hlen. lia.
  - rewrite Hout in Hlen. lia.
Qed.

Lemma section_later_inv o s p' :
  life_inv o s → moved (l_pool s) p' → later (l_pool s) p' →
  life_inv o (after_section s p' false).
Proof. intros Hi Hm Hl. apply section_inv; [done..|]. intros _. apply watched_later; [done|apply Hm]. Qed.

Lemma tally_push p c now :
  tally p → (next_entry_id p < u64_max)%Z → tally (push_entry p c now).
Proof.
  intros [] Hlt. assert (Hw : wrapping_add 64 (next_entry_id p) 1 = (next_entry_id p + 1)%Z) by (apply bump_small; lia).
  split; cbn [push_entry entries closing next_entry_id counters count_opened n_opened n_open n_closed_idle n_closed_lifetime
    n_closed_error]; rewrite ?Hw, ?length_app; cbn [length]; try done; try lia; rewrite bump_small; lia.
Qed.

Lemma tally_connected p failure : tally p → tally (take_connecting (ensure_janitor_locked p) failure).
Proof. intros []. unfold ensure_janitor_locked. destruct (janitor p); by split. Qed.

Lemma finish_fields p c now q :
  q = take_connecting (ensure_janitor_locked (push_entry p c now)) (last_connect_failure p) →
  entries q = entries p ++ [mkEntry (next_entry_id p) c now now 0 false 0 None] ∧ closing q = closing p ∧
  janitor q = true ∧ (janitor p = true → janitor_deadline q = janitor_deadline p) ∧ published q = published p.
Proof.
  intros ->. unfold ensure_janitor_locked. cbn [push_entry janitor].
  destruct (janitor p) eqn:Ej; cbn [take_connecting entries closing janitor janitor_deadline push_entry set_janitor published];
    by rewrite ?Ej.
Qed.

(** A connect that joins the pool. *)
Lemma finish_opened_inv o s epoch c now :
  life_inv o s → connecting (l_pool s) = Some epoch → life_inv o (life_finish s epoch (Ok c) now).
Proof.
  intros [] Hc. unfold life_finish, finish_connect. rewrite decide_True by done. cbn [andb finish_tail app].
  pose proof (finish_fields (l_pool s) c now _ eq_refl) as (He & Hcl & Hj & Hd & Hp).
  set (p' := take_connecting _ _) in *. set (tail := [ActOpened; ActSend epoch (Ok tt)]).
  match goal with |- life_owing _ _ ?s' => set (s1 := s') end.
  assert (Howed : owed s1 ≡ₚ owed s ++ tail).
  { unfold s1, owed. cbn [l_tails l_task].
    assert (task_acts (if negb (janitor (l_pool s)) then Ready else l_task s) = task_acts (l_task s)) as ->; [|apply owed_add].
    rewrite li_janitor0. by destruct (l_task s). }
  split; cbn [app] in *; rewrite ?Howed; unfold s1; cbn [l_pool l_task l_wake l_tails l_opened l_discarded l_closed l_events];
    rewrite ?closes_app, ?reports_app, ?opens_app, ?sends_app, ?He, ?Hcl, ?Hj, ?Hp, ?app_nil_r, ?length_app; try done.
  - rewrite li_janitor0. by destruct (l_task s).
  - intros d Ht. rewrite orb_true_r. destruct (janitor (l_pool s)) eqn:Ej; cbn [negb] in Ht; [|done]. rewrite Hd by done.
    split; [by apply li_sleep0|by left].
  - apply tails_ok_add; [done|]. right. split; [done|]. right. left. by eexists.
  - destruct (negb _); [|done]. by split_and!; [..|apply not_elem_of_nil].
  - rewrite li_opened0, map_app, <-!app_assoc. cbn [map app conn]. apply Permutation_app_head.
    rewrite (app_assoc _ _ [c]). symmetry. apply Permutation_cons_append.
  - intros Hlen. cbn [length] in Hlen. apply tally_connected. apply tally_push; [apply li_tally0; lia|].
    destruct li_tally0 as [Hn]; [lia|]. apply Permutation_length in li_opened0.
    rewrite !length_app, !length_map in li_opened0. lia.
  - intros Hk. specialize (li_openings0 Hk). unfold tail, opens at 2. cbn. lia.
  - rewrite connected_app. unfold tail, sends at 2, connected at 3. cbn. lia.
Qed.

(** A connect that failed, and one that is not the pool's. *)
Lemma finish_failed_inv o s epoch err now :
  life_inv o s → connecting (l_pool s) = Some epoch → life_inv o (life_finish s epoch (Err err) now).
Proof.
  intros [] Hc. unfold life_finish, finish_connect. rewrite decide_True by done. cbn [andb finish_tail app].
  rewrite !app_nil_r, orb_false_r. set (tail := [ActSend epoch (Err err)]).
  match goal with |- life_owing _ _ ?s' => set (s1 := s') end.
  assert (Howed : owed s1 ≡ₚ owed s ++ tail).
  { apply owed_add. }
  split; cbn [app] in *; rewrite ?Howed; unfold s1;
    cbn [l_pool l_task l_wake l_tails l_opened l_discarded l_closed l_events take_connecting janitor entries janitor_deadline
      closing published];
    rewrite ?closes_app, ?reports_app, ?opens_app, ?sends_app, ?app_nil_r; try done.
  - intros d Hd. destruct (li_sleep0 d Hd) as [H1 [H2|[H2|H2]]]; (split; [done|]); [by left|right; left|by right; right].
    fold s1. rewrite Howed. apply elem_of_app. by left.
  - apply tails_ok_add; [done|]. right. split; [done|]. right. right. by eexists _, _.
  - intros Hlen. destruct (li_tally0 Hlen). by split.
  - unfold tail, opens at 2. cbn. intros Hk. rewrite Nat.add_0_r. auto.
  - rewrite connected_app. unfold tail, sends at 2, connected at 3. cbn. lia.
Qed.

Lemma finish_stale_inv o s epoch result now :
  life_inv o s → connecting (l_pool s) ≠ Some epoch → life_inv o (life_finish s epoch result now).
Proof.
  intros Hi Hc. pose proof Hi as []. unfold life_finish, finish_connect. rewrite decide_False by done.
  destruct result as [c|err]; cbn [ok andb finish_tail app]; rewrite ?app_nil_r, orb_false_r; [|by destruct s].
  set (tail := [ActClose c]). match goal with |- life_owing _ _ ?s' => set (s1 := s') end.
  assert (Howed : owed s1 ≡ₚ owed s ++ tail).
  { apply owed_add. }
  split; cbn [app] in *; rewrite ?Howed; unfold s1; cbn [l_pool l_task l_wake l_tails l_opened l_discarded l_closed l_events];
    rewrite ?closes_app, ?reports_app, ?opens_app, ?sends_app, ?app_nil_r; try done.
  - intros d Hd. destruct (li_sleep0 d Hd) as [H1 [H2|[H2|H2]]]; (split; [done|]); [by left|right; left|by right; right].
    fold s1. rewrite Howed. apply elem_of_app. by left.
  - apply tails_ok_add; [done|]. right. split; [done|]. by left.
  - by rewrite li_opened0, <-!app_assoc.
  - by rewrite app_assoc, li_closed0, <-!app_assoc.
  - intros Hlen. rewrite length_app in Hlen. cbn [length] in Hlen. apply li_tally0. lia.
  - unfold tail, opens at 2. cbn. intros Hk. rewrite Nat.add_0_r. auto.
Qed.

Lemma life_finish_inv o s epoch result now : life_inv o s → life_inv o (life_finish s epoch result now).
Proof.
  intros Hi. destruct (decide (connecting (l_pool s) = Some epoch)); [|by apply finish_stale_inv].
  destruct result; [by apply finish_opened_inv|by apply finish_failed_inv].
Qed.

Lemma run_janitor_inv o s alive pc now : l_task s = Ready → life_inv o s → life_inv o (run_janitor s alive pc now).
Proof.
  intros Ht Hi. unfold run_janitor, janitor_round. cbn zeta. pose proof (li_tails _ _ _ Hi) as Htails.
  pose proof (section_later_inv o s _ Hi (moved_sweep alive pc (l_pool s) now) (later_sweep alive pc (l_pool s) now)) as Hs.
  set (p1 := sweep_locked alive pc (l_pool s) now) in *. clearbody p1.
  assert (Hr : ∀ p2, closing p2 = closing p1 → retired s p2 = retired s p1) by (intros p2 E; unfold retired; by rewrite E).
  destruct (close_all_acts (retired s p1)) as (_ & _ & Ho & Hsd & Hn). destruct Hs.
  unfold after_section in *. cbn [l_pool l_task l_wake l_tails l_opened l_discarded l_closed l_events] in *.
  rewrite app_nil_r in *. unfold owed in *. cbn [l_tails l_task] in *. rewrite concat_add_tail, Ht in *.
  cbn [task_acts app] in *. rewrite app_nil_r in *.
  case_bool_decide as He; rewrite Hr by done; split; unfold owed;
    cbn [l_pool l_task l_wake l_tails l_opened l_discarded l_closed l_events set_janitor janitor janitor_deadline entries closing
      published task_acts app asleep]; rewrite ?concat_add_tail, ?app_nil_r; try done.
  - intros Hlen. destruct (li_tally0 Hlen). by split.
  - intros d [= <-]. split; [done|]. right. right. intros t Hd. apply (next_deadline_early p1 t Hd).
  - intros Hlen. destruct (li_tally0 Hlen). by split.
Qed.

(** ** Actions *)

(** An action taken out of those listed is owed like the others. *)
Lemma life_owe o extra extra' s s' :
  l_pool s' = l_pool s → l_wake s' = l_wake s → asleep (l_task s') = asleep (l_task s) →
  (l_task s' = Absent ↔ l_task s = Absent) →
  l_opened s' = l_opened s → l_discarded s' = l_discarded s → l_closed s' = l_closed s → l_events s' = l_events s →
  extra' ++ owed s' ≡ₚ extra ++ owed s → Forall tail_ok (l_tails s') →
  (sends (task_acts (l_task s')) = [] ∧ opens (task_acts (l_task s')) = 0 ∧ ActNotify ∉ task_acts (l_task s')) →
  life_owing o extra s → life_owing o extra' s'.
Proof.
  intros Ep Ew Ea Et Eo Ed Ec Ee Howed Htails Htask []. split; rewrite ?Howed, ?Ep, ?Ew, ?Ea, ?Eo, ?Ed, ?Ec, ?Ee; try done.
  - rewrite li_janitor0. destruct (l_task s), (l_task s'); naive_solver.
  - intros d Hd. rewrite Howed. auto.
Qed.

(** Doing it. *)
Lemma run_act_inv o s a : life_owing o [a] s → life_inv o (run_act o s a).
Proof.
  intros []. assert (Hin : ∀ d, asleep (l_task s) = Some d → a ≠ ActNotify →
    janitor_deadline (l_pool s) = d ∧ (l_wake s = true ∨ ActNotify ∈ owed s ∨ watched (l_pool s))).
  { intros d Hd Ha. destruct (li_sleep0 d Hd) as [H1 [H2|[H2|H2]]]; (split; [done|]); [by left|right; left|by right; right].
    apply elem_of_cons in H2 as [<-|H2]; [done|exact H2]. }
  destruct a as [c|r| | |e out|]; split; cbn [app run_act] in *; try done; unfold owed in *;
    cbn [l_pool l_task l_wake l_tails l_opened l_discarded l_closed l_events tell with_task publish published] in *; fold (owed s) in *;
    unfold observe_closed, observe_opened, observe_retried, emit; try (intros d Hd; by apply Hin); try done.
  all: try (intros Hk; rewrite ?Hk, ?reasons_app, ?openings_app, <-?app_assoc;
    first [exact (li_reasons0 Hk) | specialize (li_openings0 Hk); unfold opens in *; cbn in *; lia
          | by rewrite app_nil_r; apply li_silent0]).
  - by rewrite <-app_assoc.
  - intros Hlen. destruct (li_tally0 Hlen). by split.
  - change (sends (ActSend e out :: owed s)) with ((e, out) :: sends (owed s)) in li_sent0.
    rewrite connected_app. cbn [publish entries closing]. rewrite <-li_sent0. unfold connected. cbn. destruct out; cbn; lia.
  - intros d Hd. split; [by apply li_sleep0|by left].
Qed.

Lemma task_rest_ok acts a :
  sends (a :: acts) = [] ∧ opens (a :: acts) = 0 ∧ ActNotify ∉ a :: acts →
  sends acts = [] ∧ opens acts = 0 ∧ ActNotify ∉ acts.
Proof.
  unfold sends, opens. intros (H1 & H2 & H3). rewrite not_elem_of_cons in H3. destruct H3 as [_ H3].
  destruct a; cbn [omap list_omap] in *; done.
Qed.

(** The next action of an operation, and of the janitor. *)
Lemma act_inv o s i s' : life_op o s (OpAct i) = Some s' → life_inv o s → life_inv o s'.
Proof.
  cbn [life_op]. destruct (l_tails s !! i) as [[|a rest]|] eqn:Ei; [done| |done]. intros [= <-] Hi.
  apply run_act_inv. eapply life_owe; [..|exact Hi]; try done; cbn [with_tails l_tails l_task].
  - unfold owed. cbn [with_tails l_tails l_task app]. by rewrite (pop_tail_perm _ _ _ _ Ei).
  - eapply tails_ok_pop; [done|apply Hi].
  - apply Hi.
Qed.

Lemma task_inv o s s' : life_op o s OpTask = Some s' → life_inv o s → life_inv o s'.
Proof.
  cbn [life_op]. intros H Hi. pose proof (li_task _ _ _ Hi) as Hacts. destruct (l_task s) as [| |[|a acts] d|] eqn:Et; try done;
    injection H as <-; [|apply run_act_inv]; (eapply life_owe; [..|exact Hi]); try done;
    cbn [with_task l_tails l_task]; rewrite ?Et; try done; unfold owed; cbn [with_task l_tails l_task task_acts]; rewrite ?Et; try done.
  - apply Hi.
  - cbn [task_acts app]. apply Permutation_middle.
  - apply Hi.
  - by eapply task_rest_ok.
Qed.

Lemma retry_inv o s :
  life_inv o s →
  life_inv o (mkLife (record_retry (l_pool s)) (l_wake s) (l_task s) (add_tail (l_tails s) [ActRetried])
    (l_opened s) (l_discarded s) (l_closed s) (l_events s)).
Proof.
  intros []. match goal with |- life_owing _ _ ?s' => set (s1 := s') end.
  assert (Howed : owed s1 ≡ₚ owed s ++ [ActRetried]).
  { apply owed_add. }
  split; cbn [app] in *; rewrite ?Howed; unfold s1; cbn [l_pool l_task l_wake l_tails l_opened l_discarded l_closed l_events];
    rewrite ?closes_app, ?reports_app, ?opens_app, ?sends_app, ?app_nil_r; try done.
  - intros d Hd. destruct (li_sleep0 d Hd) as [H1 [H2|[H2|H2]]]; (split; [done|]); [by left|right; left|by right; right].
    fold s1. rewrite Howed. apply elem_of_app. by left.
  - apply tails_ok_add; [done|]. right. split; [done|]. by left.
  - intros Hlen. destruct (li_tally0 Hlen). by split.
  - intros Hk. unfold opens at 2. cbn. rewrite Nat.add_0_r. auto.
Qed.

Lemma life_op_inv o s op s' : life_op o s op = Some s' → life_inv o s → life_inv o s'.
Proof.
  intros Hop Hi. destruct op as [alive pc now fresh|epoch result now|l|pc l|pc l|pc l now|alive pc now| | |i|alive pc now| | |now];
    cbn [life_op] in Hop.
  - injection Hop as <-. by apply section_later_inv; [|apply acquire_round_moved..].
  - injection Hop as <-. by apply life_finish_inv.
  - injection Hop as <-. by apply section_later_inv; [|apply complete_moved..].
  - injection Hop as <-. by apply section_later_inv; [|apply note_timeout_moved..].
  - injection Hop as <-. by apply section_later_inv; [|apply mark_dead_moved..].
  - pose proof (lease_drop_watched pc (l_pool s) l now) as [Hm Hw].
    destruct (lease_drop _ _ _ _) as [wake p']. injection Hop as <-. by apply section_inv.
  - injection Hop as <-. by apply section_later_inv; [|apply moved_sweep|apply later_sweep].
  - injection Hop as <-. by apply retry_inv.
  - injection Hop as <-. apply section_later_inv; [done|by apply moved_same|by apply later_subset].
  - by eapply act_inv.
  - destruct (l_task s) eqn:Et; try done. injection Hop as <-. by apply run_janitor_inv.
  - by eapply task_inv.
  - destruct (l_task s) eqn:Et; try done. destruct (l_wake s) eqn:Ew; [|done]. injection Hop as <-. destruct Hi. unfold owed in *. rewrite Et in *. by split.
  - destruct (l_task s) as [| | |[d|]] eqn:Et; try done. case_decide; [|done]. injection Hop as <-. destruct Hi. unfold owed in *. rewrite Et in *. by split.
Qed.

(** ** Runs *)

Lemma life_ops_cons o s op ops s' : life_op o s op = Some s' → life_ops o s (op :: ops) = life_ops o s' ops.
Proof. intros H. unfold life_ops, compose. cbn [foldl mbind option_bind]. by rewrite H. Qed.

Lemma life_ops_app o s ops ops' s' : life_ops o s ops = Some s' → life_ops o s (ops ++ ops') = life_ops o s' ops'.
Proof. unfold life_ops, compose. intros H. by rewrite foldl_app, H. Qed.

Lemma life_ops_inv o ops : ∀ s s', life_ops o s ops = Some s' → life_inv o s → life_inv o s'.
Proof.
  unfold life_ops, compose. induction ops as [|op ops IH]; intros s s' H Hi; cbn [foldl] in H; [by injection H as <-|].
  cbn [mbind option_bind] in H. destruct (life_op o s op) as [s1|] eqn:E.
  - eapply IH; [exact H|]. by eapply life_op_inv.
  - exfalso. clear -H. induction ops; cbn in H; auto; done.
Qed.

(** The pool after these outcomes were sent. *)
Definition sent p (outcomes : list (Z * Result Error unit)) : Pool C :=
  mkPool (config p) (drain_grace p) (entries p) (next_entry_id p) (next_epoch p) (connecting p) (last_connect_failure p)
    (janitor p) (janitor_deadline p) (counters p) (published p ++ outcomes) (closing p).

Lemma sent_nil p : sent p [] = p.
Proof. unfold sent. rewrite app_nil_r. by destruct p. Qed.
Lemma sent_app p a b : sent (sent p a) b = sent p (a ++ b).
Proof. unfold sent. cbn. by rewrite app_assoc. Qed.

Lemma run_act_fields o s a :
  l_pool (run_act o s a) = sent (l_pool s) (sends [a]) ∧ l_task (run_act o s a) = l_task s ∧
  l_tails (run_act o s a) = l_tails s ∧ l_opened (run_act o s a) = l_opened s ∧ l_discarded (run_act o s a) = l_discarded s ∧
  l_wake (run_act o s a) = match a with ActNotify => true | _ => l_wake s end.
Proof. destruct a; cbn [run_act tell with_task l_pool l_task l_tails l_opened l_discarded l_wake sends omap list_omap]; rewrite ?sent_nil; done. Qed.

Lemma sends_cons a acts : sends (a :: acts) = sends [a] ++ sends acts.
Proof. apply (sends_app [a]). Qed.

(** An operation does what it owes, one action after the other. *)
Lemma run_tail o : ∀ acts s i, l_tails s !! i = Some acts →
  ∃ s', life_ops o s (replicate (length acts) (OpAct i)) = Some s' ∧ l_pool s' = sent (l_pool s) (sends acts) ∧
    l_task s' = l_task s ∧ (l_wake s = true ∨ ActNotify ∈ acts → l_wake s' = true).
Proof.
  induction acts as [|a acts IH]; intros s i Hi.
  { exists s. rewrite sent_nil. split_and!; [done..|]. intros [H|[]%not_elem_of_nil]; done. }
  set (s1 := run_act o (with_tails s (pop_tail (l_tails s) i acts)) a).
  assert (Hop : life_op o s (OpAct i) = Some s1) by (cbn [life_op]; by rewrite Hi).
  destruct (run_act_fields o (with_tails s (pop_tail (l_tails s) i acts)) a) as (Hp & Ht & Hts & _ & _ & Hw). fold s1 in Hp, Ht, Hts, Hw.
  cbn [with_tails l_pool l_task l_tails l_wake] in *. rewrite (sends_cons a acts), <-sent_app, <-Hp, <-Ht.
  destruct acts as [|b acts].
  - exists s1. cbn [length replicate]. rewrite (life_ops_cons o s _ _ s1 Hop). split; [done|]. split; [symmetry; apply sent_nil|].
    split; [done|]. rewrite Hw. intros [H|H%list_elem_of_singleton]; [by destruct a|by subst].
  - destruct (IH s1 i) as (s' & H1 & H2 & H3 & H4).
    { rewrite Hts. cbn [pop_tail]. apply list_lookup_insert_eq. by eapply lookup_lt_Some. }
    exists s'. cbn [length replicate] in *. rewrite (life_ops_cons o s _ _ s1 Hop). split; [done|]. split; [done|]. split; [done|].
    intros Hin. apply H4. rewrite Hw. destruct Hin as [Hin|[<-|Hin]%elem_of_cons]; [left; by destruct a|by left|by right].
Qed.

(** The janitor does, and then sleeps. *)
Lemma run_task o d : ∀ acts s, l_task s = Retiring acts d →
  ∃ s', life_ops o s (replicate (S (length acts)) OpTask) = Some s' ∧ l_task s' = Sleeping d ∧
    (l_wake s = true → l_wake s' = true).
Proof.
  induction acts as [|a acts IH]; intros s Ht.
  { exists (with_task s (l_wake s) (Sleeping d)). cbn [length replicate].
    rewrite (life_ops_cons o s OpTask [] (with_task s (l_wake s) (Sleeping d))); [done|]. cbn [life_op]. by rewrite Ht. }
  set (s1 := run_act o (with_task s (l_wake s) (Retiring acts d)) a).
  assert (Hop : life_op o s OpTask = Some s1) by (cbn [life_op]; by rewrite Ht).
  destruct (run_act_fields o (with_task s (l_wake s) (Retiring acts d)) a) as (_ & Ht1 & _ & _ & _ & Hw). fold s1 in Ht1, Hw.
  destruct (IH s1 Ht1) as (s' & H1 & H2 & H3). exists s'.
  change (replicate (S (length (a :: acts))) OpTask) with (OpTask :: replicate (S (length acts)) OpTask).
  rewrite (life_ops_cons o s _ _ s1 Hop). split; [done|]. split; [done|]. intros Hwk. apply H3. rewrite Hw. by destruct a.
Qed.

(** What is done without the lock changes no connection of the pool and can
    always be done. *)
Definition unlocked (op : PoolOp) : bool := match op with OpAct _ | OpTask => true | _ => false end.

Lemma unlocked_step o s :
  life_inv o s → owed s ≠ [] →
  ∃ op s1, unlocked op = true ∧ life_op o s op = Some s1 ∧ length (owed s) = S (length (owed s1)).
Proof.
  intros Hi Hne. destruct (l_tails s) as [|tail tails] eqn:Et.
  - unfold owed in *. rewrite Et in *. cbn [concat app] in *. destruct (l_task s) as [| |[|a acts] d|] eqn:Ek; try done.
    exists OpTask, (run_act o (with_task s (l_wake s) (Retiring acts d)) a). split; [done|].
    split; [cbn [life_op]; by rewrite Ek|]. destruct (run_act_fields o (with_task s (l_wake s) (Retiring acts d)) a) as (_ & -> & -> & _).
    cbn [with_task l_tails l_task task_acts]. by rewrite Et.
  - pose proof (li_tails _ _ _ Hi) as Ht. rewrite Et, Forall_cons in Ht. destruct Ht as [[Htail _] _].
    destruct tail as [|a rest]; [done|]. assert (Hl : l_tails s !! 0 = Some (a :: rest)) by by rewrite Et.
    exists (OpAct 0), (run_act o (with_tails s (pop_tail (l_tails s) 0 rest)) a). split; [done|].
    split; [cbn [life_op]; by rewrite Hl|].
    destruct (run_act_fields o (with_tails s (pop_tail (l_tails s) 0 rest)) a) as (_ & E1 & E2 & _). unfold owed. rewrite E1, E2.
    cbn [with_tails l_tails l_task]. rewrite !length_app.
    apply pop_tail_perm in Hl. apply Permutation_length in Hl. rewrite Hl. done.
Qed.

Lemma all_told o s :
  life_inv o s → ∃ own s', forallb unlocked own = true ∧ life_ops o s own = Some s' ∧ owed s' = [].
Proof.
  remember (length (owed s)) as n eqn:En. revert s En. induction n as [|n IH]; intros s En Hi.
  { exists [], s. split_and!; [done..|]. by apply nil_length_inv. }
  destruct (unlocked_step o s Hi) as (op & s1 & Hu & Hop & Hl). { intros E. by rewrite E in En. }
  destruct (IH s1) as (own & s' & H1 & H2 & H3); [lia|by eapply life_op_inv|].
  exists (op :: own), s'. cbn [forallb]. rewrite Hu, H1, (life_ops_cons o s op own s1 Hop). done.
Qed.

(** ** The janitor *)

Lemma kept_alive alive p now e e' : kept alive p now e = Some e' → alive (conn e') = true ∧ conn e' = conn e.
Proof.
  pose proof (sweep_entry_conn alive p now e) as Hc. unfold kept. destruct (sweep_entry alive p now e) as [[r|] e1] eqn:E; [done|].
  intros [= <-]. cbn [snd] in Hc. rewrite Hc. split; [|done]. unfold sweep_entry in E. by destruct (alive (conn e)).
Qed.

Lemma run_janitor_done s alive pc now e :
  e ∈ entries (l_pool (run_janitor s alive pc now)) →
  alive (conn e) = true ∧ ∀ t, due_at (l_pool (run_janitor s alive pc now)) e t → (now < t)%Z.
Proof.
  unfold run_janitor, janitor_round. cbn zeta. pose proof (sweep_ahead alive pc (l_pool s) now) as Ha.
  rewrite sweep_locked_swept in *. set (p1 := swept alive pc (l_pool s) now) in *.
  assert (H : e ∈ entries p1 → alive (conn e) = true ∧ ∀ t, due_at p1 e t → (now < t)%Z).
  { intros He. split; [|intros t Ht; apply Ha; by exists e].
    apply list_elem_of_omap in He as (e0 & _ & Hk). by apply kept_alive in Hk as [Hk _]. }
  by case_bool_decide.
Qed.

(** The janitor's own steps that let it run at [now]. *)
Definition wakes (now : Z) (op : PoolOp) : bool :=
  match op with OpWake | OpTask => true | OpTimer t => bool_decide (t = now) | _ => false end.

(** Asleep or about to be, and woken or past its deadline. *)
Lemma janitor_wakes o s d now :
  asleep (l_task s) = Some d → l_wake s = true ∨ (∃ t, d = Some t ∧ (t ≤ now)%Z) →
  ∃ own s', forallb (wakes now) own = true ∧ life_ops o s own = Some s' ∧ l_task s' = Ready.
Proof.
  intros Ha Hw. assert (Hs : ∃ own s1, forallb (wakes now) own = true ∧ life_ops o s own = Some s1 ∧ l_task s1 = Sleeping d ∧
    (l_wake s1 = true ∨ (∃ t, d = Some t ∧ (t ≤ now)%Z))).
  { destruct (l_task s) as [| |acts d'|d'] eqn:Et; try done; injection Ha as ->.
    - destruct (run_task o d acts s Et) as (s1 & H1 & H2 & H3). exists (replicate (S (length acts)) OpTask), s1.
      split; [|naive_solver]. apply forallb_forall. intros op Hop. by apply list_elem_of_In, elem_of_replicate_inv in Hop as ->.
    - by exists [], s. }
  destruct Hs as (own & s1 & H1 & H2 & H3 & H4).
  assert (Hlast : ∃ op, wakes now op = true ∧ ∃ s', life_op o s1 op = Some s' ∧ l_task s' = Ready).
  { destruct (l_wake s1) eqn:Ew.
    - exists OpWake. split; [done|]. exists (with_task s1 false Ready). cbn [life_op]. by rewrite H3, Ew.
    - destruct H4 as [|(t & -> & Ht)]; [done|]. exists (OpTimer now). split; [cbn; by rewrite bool_decide_true|].
      exists (with_task s1 (l_wake s1) Ready). cbn [life_op]. by rewrite H3, decide_True. }
  destruct Hlast as (op & Hop & s' & Hs' & Hr). exists (own ++ [op]), s'. rewrite forallb_app, H1. cbn [forallb]. rewrite Hop.
  split; [done|]. split; [|done]. by rewrite (life_ops_app o s own _ s1), (life_ops_cons o s1 op [] s').
Qed.

(** C23: Whatever the pool does and in whatever order, while it has a connection
    the janitor is there, and when any connection has reached its idle timeout,
    its lifetime or the end of its drain, the janitor is about to run, is closing
    what its last round retired, is woken, or its timer has fired: nothing but its
    own steps has to happen for it to run a round, or, when an operation has
    released the lock and is still to wake it, the actions that operation has
    left. After the round every connection left is alive and has all its
    instants ahead. *)
Theorem janitor_on_time o c grace ops s t now alive pc :
  life_ops o (life_new c grace) ops = Some s → due (l_pool s) t → (t ≤ now)%Z →
  ∃ told own s',
    (told = [] ∨ ∃ i acts, l_tails s !! i = Some acts ∧ ActNotify ∈ acts ∧ told = replicate (length acts) (OpAct i)) ∧
    forallb (wakes now) own = true ∧ life_ops o s (told ++ own ++ [OpRound alive pc now]) = Some s' ∧
    ∀ e, e ∈ entries (l_pool s') → alive (conn e) = true ∧ ∀ t', due_at (l_pool s') e t' → (now < t')%Z.
Proof.
  intros Hops Hdue Hle. pose proof (life_ops_inv _ _ _ _ Hops (life_new_inv o c grace)) as Hi.
  assert (Hround : ∀ told own s0 s1, life_ops o s told = Some s0 → life_ops o s0 own = Some s1 → l_task s1 = Ready →
    life_ops o s (told ++ own ++ [OpRound alive pc now]) = Some (run_janitor s1 alive pc now)).
  { intros told own s0 s1 H0 H1 Ht. rewrite (life_ops_app o s told _ s0 H0), (life_ops_app o s0 own _ s1 H1).
    rewrite (life_ops_cons o s1 _ _ (run_janitor s1 alive pc now)); [done|]. cbn [life_op]. by rewrite Ht. }
  assert (Hj : janitor (l_pool s) = true).
  { apply (li_entries _ _ _ Hi). destruct Hdue as (e & He & _). intros E. rewrite E in He. by apply not_elem_of_nil in He. }
  rewrite (li_janitor _ _ _ Hi) in Hj. destruct (asleep (l_task s)) as [d|] eqn:Ea.
  2:{ destruct (l_task s) eqn:Et; try done. exists [], [], (run_janitor s alive pc now). split; [by left|]. split; [done|].
      split; [by eapply Hround|]. intros e. apply run_janitor_done. }
  destruct (li_sleep _ _ _ Hi d Ea) as [Hd [Hw|[Hw|Hw]]].
  - destruct (janitor_wakes o s d now Ea (or_introl Hw)) as (own & s1 & H1 & H2 & H3).
    exists [], own, (run_janitor s1 alive pc now). split; [by left|]. split; [done|].
    split; [by eapply Hround|]. intros e. apply run_janitor_done.
  - cbn [app] in Hw. apply elem_of_app in Hw as [Hw|Hw]; [|by destruct (li_task _ _ _ Hi) as (_ & _ & [])].
    apply list_elem_of_In, in_concat in Hw as (acts & Hin%list_elem_of_In & Hact%list_elem_of_In).
    apply list_elem_of_lookup in Hin as (i & Hl). destruct (run_tail o acts s i Hl) as (s0 & H0 & _ & Ht & Hwk).
    rewrite <-Ht in Ea. destruct (janitor_wakes o s0 d now Ea) as (own & s1 & H1 & H2 & H3); [left; auto|].
    exists (replicate (length acts) (OpAct i)), own, (run_janitor s1 alive pc now). split; [right; eauto|]. split; [done|].
    split; [by eapply Hround|]. intros e. apply run_janitor_done.
  - destruct (Hw t Hdue) as (d' & Hd' & Hle'). rewrite Hd in Hd'.
    destruct (janitor_wakes o s d now Ea) as (own & s1 & H1 & H2 & H3); [right; exists d'; split; [done|lia]|].
    exists [], own, (run_janitor s1 alive pc now). split; [by left|]. split; [done|].
    split; [by eapply Hround|]. intros e. apply run_janitor_done.
Qed.

(** A connect's opening is reported before its outcome is sent. *)
Lemma opening_unsent o s acts :
  life_inv o s → acts ∈ l_tails s → ActOpened ∈ acts → ∃ epoch, acts = [ActOpened; ActSend epoch (Ok tt)].
Proof.
  intros Hi Ha Hin. pose proof (li_tails _ _ _ Hi) as Ht. rewrite Forall_forall in Ht.
  destruct (Ht _ Ha) as [_ [[_ Ho]|[He|(e & r & ->)]]]; [|done|by apply list_elem_of_singleton in Hin].
  unfold opens in Ho. apply nil_length_inv in Ho.
  assert (H : tt ∈ omap (λ a : Act, match a with ActOpened => Some tt | _ => None end) acts).
  { apply list_elem_of_omap. by exists ActOpened. }
  rewrite Ho in H. by apply not_elem_of_nil in H.
Qed.

Lemma opens_first o s : life_inv o s → opens (owed s) ≤ connected (sends (owed s)).
Proof.
  intros Hi. unfold owed. destruct (li_task _ _ _ Hi) as (H1 & H2 & _). rewrite opens_app, sends_app, H1, H2, app_nil_r, Nat.add_0_r.
  pose proof (li_tails _ _ _ Hi) as Ht. induction Ht as [|t ts [_ H] _ IH]; [done|]. cbn [concat].
  rewrite opens_app, sends_app, connected_app.
  assert (opens t ≤ connected (sends t)); [|lia].
  destruct H as [[-> ->]|[(e & ->)|(e & r & ->)]]; unfold opens, sends, connected; cbn; [lia|lia|]. destruct r; cbn; lia.
Qed.

(** C24: Every connection the connector opened is in the pool, or left it and is
    closed, exactly once, and no other. At every moment, in any interleaving of
    the lock sections and of what the operations do after them: the opened
    connections are together the pool's, those it retired and those it never
    took; the retired and the refused ones are together those closed so far and
    those some operation is still to close; the sink has been told, or some
    operation is still to tell it, of each opening and of each retirement with
    its reason, each once (the reports of two operations may come in either
    order); an operation that is still to report an opening is also still to send
    the outcome, so that the callers that waited hear of it afterwards; and below
    2^64 connections the counters say exactly what the pool opened and retired.
    What is still to do can always be done, and then every connection is in the
    pool or closed and everything has been told. The drop of the pool, when no
    operation is left, closes the rest. *)
Theorem connections_accounted o c grace ops s :
  life_ops o (life_new c grace) ops = Some s →
  let p := l_pool s in
  l_opened s ≡ₚ map conn (entries p) ++ map fst (closing p) ++ l_discarded s ∧
  l_closed s ++ closes (owed s) ≡ₚ map fst (closing p) ++ l_discarded s ∧
  (if sink o
   then reasons (l_events s) ++ reports (owed s) ≡ₚ map snd (closing p) ∧
     openings (l_events s) + opens (owed s) = length (entries p) + length (closing p) ∧
     connected (published p) ≤ openings (l_events s)
   else l_events s = []) ∧
  (∀ acts, acts ∈ l_tails s → ActOpened ∈ acts → ∃ epoch, acts = [ActOpened; ActSend epoch (Ok tt)]) ∧
  ((Z.of_nat (length (l_opened s)) ≤ u64_max)%Z → tally p) ∧
  (∃ own s', forallb unlocked own = true ∧ life_ops o s own = Some s' ∧ owed s' = [] ∧
     l_opened s' ≡ₚ map conn (entries (l_pool s')) ++ l_closed s' ∧
     (sink o = true → reasons (l_events s') ≡ₚ map snd (closing (l_pool s')) ∧
        openings (l_events s') = length (entries (l_pool s')) + length (closing (l_pool s')))) ∧
  (owed s = [] → l_closed s ++ map fst (retired s (pool_drop p)) ≡ₚ l_opened s).
Proof.
  intros Hops p. pose proof (life_ops_inv _ _ _ _ Hops (life_new_inv o c grace)) as Hi.
  split; [apply Hi|]. split; [apply (li_closed _ _ _ Hi)|]. split.
  { destruct (sink o) eqn:Hk; [|by apply (li_silent _ _ _ Hi)].
    pose proof (li_openings _ _ _ Hi Hk) as Ho. pose proof (li_sent _ _ _ Hi) as Hs. pose proof (opens_first o s Hi).
    split; [by apply (li_reasons _ _ _ Hi)|]. cbn [app] in *. unfold p. lia. }
  split; [intros acts; by apply (opening_unsent o)|]. split; [apply Hi|]. split.
  - destruct (all_told o s Hi) as (own & s' & H1 & H2 & H3). exists own, s'.
    pose proof (life_ops_inv _ _ _ _ H2 Hi) as Hi'. split; [done|]. split; [done|]. split; [done|].
    pose proof (li_closed _ _ _ Hi') as Hc. rewrite H3 in Hc. cbn [app closes omap list_omap] in Hc. rewrite app_nil_r in Hc.
    split; [rewrite (li_opened _ _ _ Hi'); by rewrite Hc|]. intros Hk. pose proof (li_reasons _ _ _ Hi' Hk) as Hr.
    pose proof (li_openings _ _ _ Hi' Hk) as Ho. rewrite H3 in *. cbn [app reports omap list_omap] in *. rewrite app_nil_r in Hr.
    split; [done|]. rewrite <-Ho. apply eq_sym, Nat.add_0_r.
  - intros Hn. pose proof (li_closed _ _ _ Hi) as Hc. rewrite Hn in Hc. cbn [app closes omap list_omap] in Hc. rewrite app_nil_r in Hc.
    rewrite (li_opened _ _ _ Hi), Hc. fold p. rewrite (retired_app s (pool_drop p) (map (λ e, (conn e, PShutdown)) (entries p))) by done.
    rewrite map_map. cbn [fst]. apply Permutation_app_comm.
Qed.
End life.
Notation life_inv o := (life_owing o []).

(** One connection: opened, left idle for its twenty seconds and closed. The
    janitor closes it only after its round has let go of the lock. *)
Definition example_observer : PoolObserver := mkPoolObserver true "tcp" "192.0.2.1:53".
Definition example_life : list (PoolOp (C:=nat)) :=
  let up := λ _ : nat, true in let nobody := λ _ : nat, false in
  [OpAcquire up nobody 0 false; OpFinish 0 (Ok 7) 5; OpRound up nobody 5; OpAct 0; OpAct 0; OpTask;
   OpAcquire up nobody 6 false; OpWake; OpRound up nobody 7; OpTask; OpDrop nobody (mkLease 0 false) 9].

Lemma janitor_on_time_witness :
  ∃ s s' told own, life_ops example_observer (life_new pool_config_new 100) example_life = Some s ∧
    life_ops example_observer s (told ++ own ++ [OpRound (λ _, true) (λ _, false) (9 + from_secs 20)]) = Some s' ∧
    ∀ e, e ∈ entries (l_pool s') → ∀ t', due_at (l_pool s') e t' → (9 + from_secs 20 < t')%Z.
Proof.
  destruct (life_ops example_observer (life_new pool_config_new 100) example_life) as [s|] eqn:E; [|vm_compute in E; discriminate E].
  assert (Hd : due (l_pool s) (9 + from_secs 20)).
  { vm_compute in E. injection E as <-. exists (mkEntry 0 7 5 9 0 false 0 None). split; [apply list_elem_of_here|].
    right. split; reflexivity. }
  destruct (janitor_on_time _ _ _ _ _ (9 + from_secs 20) (9 + from_secs 20) (λ _, true) (λ _, false) E Hd ltac:(lia))
    as (told & own & s' & _ & _ & H & Hq).
  exists s, s', told, own. split; [reflexivity|]. split; [exact H|]. intros e He. apply (Hq e He).
Defined.

(** The drop of the lease wakes the janitor after its section; the idle
    connection is then retired, and neither closed nor reported yet. *)
Lemma connections_accounted_witness :
  ∃ s, life_ops example_observer (life_new pool_config_new 100)
         (example_life ++ [OpAct 0; OpWake; OpRound (λ _, true) (λ _, false) (9 + from_secs 20)]) = Some s ∧
    closing (l_pool s) = [(7, PIdle)] ∧ n_closed_idle (counters (l_pool s)) = 1%Z ∧
    l_closed s = [] ∧ owed s = [ActClose 7; ActReport PIdle] ∧
    reasons (l_events s) ++ reports (owed s) ≡ₚ [PIdle] ∧
    ∃ own s', life_ops example_observer s own = Some s' ∧ owed s' = [] ∧
      l_opened s' ≡ₚ map conn (entries (l_pool s')) ++ l_closed s'.
Proof.
  destruct (life_ops example_observer (life_new pool_config_new 100) (example_life ++ _)) as [s|] eqn:E;
    [|vm_compute in E; discriminate E].
  pose proof (connections_accounted _ _ _ _ _ E) as (_ & _ & (Hr & _) & _ & _ & (own & s' & _ & H & Hn & Ho & _) & _).
  exists s. split; [reflexivity|].
  assert (Hs : closing (l_pool s) = [(7, PIdle)] ∧ n_closed_idle (counters (l_pool s)) = 1%Z ∧ l_closed s = [] ∧
    owed s = [ActClose 7; ActReport PIdle]) by (vm_compute in E; injection E as <-; repeat split; reflexivity).
  destruct Hs as (H1 & H2 & H3 & H4). rewrite H1 in Hr.
  exact (conj H1 (conj H2 (conj H3 (conj H4 (conj Hr (ex_intro _ own (ex_intro _ s' (conj H (conj Hn Ho))))))))).
Defined.
