(* ===== verification/PoolAcquire.v ===== *)
(** * Callers of the pool

    Models [Pool::acquire] and what its callers wait for
    ([crates/dns-lattice/src/upstream/pool.rs]: [acquire_inner], [wait_connect],
    [run_connect] and [ConnectGuard]) over the machine of PoolLife.v: the callers
    queueing for a permit, placing their query or waiting for a connect, the
    leases, the connect task and the janitor, in every interleaving. A step of
    this world is steps of the systems of PoolInv.v and PoolLife.v, so their
    invariants hold here; proved on top: nobody waits for a connect that is not
    running and whose outcome nobody is to send, and what [acquire] can return.
    A permit is given back in the step that ends its call or its lease. *)

From stdpp Require Import base numbers list strings.
From S2P Require Import Prelude CoreError Time Pool PoolInv PoolLife.

#[export] Instance lease_eq_dec : EqDecision Lease.
Proof. solve_decision. Defined.

Section acquire.
Context {C : Type}.
Implicit Types (p : Pool C) (s : Life (C:=C)).

Definition pool_closed : Error := Transport "upstream connection pool has no capacity".
Definition connect_cancelled : Error := Transport "upstream connection attempt was cancelled".
Definition connect_abandoned : Error := Transport "upstream connection attempt was abandoned".

(** A call of [acquire] with its deadline: waiting for a permit; holding one
    and about to choose, [queued] counted or not; waiting for a connect. *)
Inductive Caller : Type :=
  | Queueing (deadline : Z) (fresh : bool)
  | Placing (deadline : Z) (fresh queued : bool)
  | Waiting (deadline : Z) (fresh : bool) (epoch : Z).

Definition holds_permit (c : Caller) : bool := match c with Queueing _ _ => false | _ => true end.

Definition caller_deadline (c : Caller) : Z :=
  match c with Queueing d _ | Placing d _ _ | Waiting d _ _ => d end.

(** Who holds the sender of the connect [epoch]: the pool's state, or the
    operation that took it out and is to send the outcome. *)
Definition has_sender s (epoch : Z) : Prop :=
  connecting (l_pool s) = Some epoch ∨ epoch ∈ map fst (sends (owed s)).

(** What the watch channel of the connect [epoch] holds for a waiter:
    nothing yet, its outcome, or that its sender is gone. *)
Definition connect_state s (epoch : Z) : option (Result Error unit) :=
  match list_find (λ eo : Z * Result Error unit, eo.1 = epoch) (published (l_pool s)) with
  | Some (_, (_, outcome)) => Some outcome
  | None => if decide (has_sender s epoch) then None else Some (Err connect_abandoned)
  end.

(** [wait_connect] when polled at [now]; [None] is still waiting. *)
Definition wait_connect s (epoch deadline now : Z) : option (Result Error unit) :=
  match connect_state s epoch with
  | Some outcome => Some outcome
  | None => if decide (deadline ≤ now)%Z then Some (Err Timeout) else None
  end.

(** How the connect task ends: the connector's result, or dropped before it
    had one, when its guard reports for it. *)
Inductive ConnectEnd : Type :=
  | Connected (result : Result Error C)
  | Dropped.

Definition run_connect (fin : ConnectEnd) : Result Error C :=
  match fin with Connected result => result | Dropped => Err connect_cancelled end.

(** ** The world *)

Record World : Type := mkWorld {
  w_life : Life (C:=C);
  w_permits : nat;
  w_callers : list Caller;
  w_leases : list Lease;
}.

Definition world_new (c : PoolConfig) (grace : Z) : World := mkWorld (life_new c grace) (capacity c) [] [].

(** The call that returned in a step, when, and what. *)
Notation Outcome := (option (Caller * Z * Result Error Lease)).

(** The first lines of [acquire_inner]: a permit at once, or the queue. *)
Definition acquire_start (o : PoolObserver) (w : World) (deadline : Z) (fresh : bool) : option World :=
  match w_permits w with
  | S k => Some (mkWorld (w_life w) k (Placing deadline fresh false :: w_callers w) (w_leases w))
  | O => s ← life_op o (w_life w) OpQueued; Some (mkWorld s 0 (Queueing deadline fresh :: w_callers w) (w_leases w))
  end.

(** One turn of its loop, for a caller that holds a permit. *)
Definition acquire_turn (o : PoolObserver) s (deadline now : Z) (fresh queued : bool) (alive peer_closed : C → bool) :
    option (Life * (Result Error Lease + Caller)) :=
  s' ← life_op o s (OpAcquire alive peer_closed now fresh);
  match (acquire_round alive peer_closed (l_pool s) now fresh).1 with
  | Ok l => Some (s', inl (Ok l))
  | Err (Some epoch) =>
      s'' ← (if queued then Some s' else life_op o s' OpQueued);
      Some (s'', inr (Waiting deadline fresh epoch))
  | Err None => Some (s', inl (Err pool_closed))
  end.

(** The janitor's steps, [sweep] and [record_retry], and what any operation does
    after its lock section. *)
Definition own_op (op : PoolOp (C:=C)) : bool :=
  match op with OpRound _ _ _ | OpTask | OpWake | OpTimer _ | OpSweep _ _ _ | OpRetry | OpAct _ => true | _ => false end.

(** Steps of a lease that keep it. *)
Definition lease_op (l : Lease) (op : PoolOp (C:=C)) : bool :=
  match op with OpComplete l' | OpTimeout _ l' | OpDead _ l' => bool_decide (l' = l) | _ => false end.

Definition give_back (c : Caller) : nat := if holds_permit c then 1 else 0.

Inductive world_step (o : PoolObserver) : World → Outcome → World → Prop :=
  | ws_start w w' deadline fresh : acquire_start o w deadline fresh = Some w' → world_step o w None w'
  | ws_permit s k cs1 cs2 ls deadline fresh :
      world_step o (mkWorld s (S k) (cs1 ++ Queueing deadline fresh :: cs2) ls) None
        (mkWorld s k (cs1 ++ Placing deadline fresh true :: cs2) ls)
  | ws_queue_timeout s k cs1 cs2 ls deadline fresh now :
      (deadline ≤ now)%Z →
      world_step o (mkWorld s k (cs1 ++ Queueing deadline fresh :: cs2) ls)
        (Some (Queueing deadline fresh, now, Err Timeout)) (mkWorld s k (cs1 ++ cs2) ls)
  | ws_cancel s k cs1 c cs2 ls :
      world_step o (mkWorld s k (cs1 ++ c :: cs2) ls) None (mkWorld s (give_back c + k) (cs1 ++ cs2) ls)
  | ws_leased s s' k cs1 cs2 ls deadline fresh queued alive pc now l :
      (next_epoch (l_pool s) < u64_max)%Z →
      acquire_turn o s deadline now fresh queued alive pc = Some (s', inl (Ok l)) →
      world_step o (mkWorld s k (cs1 ++ Placing deadline fresh queued :: cs2) ls)
        (Some (Placing deadline fresh queued, now, Ok l)) (mkWorld s' k (cs1 ++ cs2) (l :: ls))
  | ws_refused s s' k cs1 cs2 ls deadline fresh queued alive pc now err :
      (next_epoch (l_pool s) < u64_max)%Z →
      acquire_turn o s deadline now fresh queued alive pc = Some (s', inl (Err err)) →
      world_step o (mkWorld s k (cs1 ++ Placing deadline fresh queued :: cs2) ls)
        (Some (Placing deadline fresh queued, now, Err err)) (mkWorld s' (S k) (cs1 ++ cs2) ls)
  | ws_wait s s' k cs1 cs2 ls deadline fresh queued alive pc now c :
      (next_epoch (l_pool s) < u64_max)%Z →
      acquire_turn o s deadline now fresh queued alive pc = Some (s', inr c) →
      world_step o (mkWorld s k (cs1 ++ Placing deadline fresh queued :: cs2) ls) None (mkWorld s' k (cs1 ++ c :: cs2) ls)
  | ws_connected s k cs1 cs2 ls deadline fresh epoch now :
      wait_connect s epoch deadline now = Some (Ok tt) →
      world_step o (mkWorld s k (cs1 ++ Waiting deadline fresh epoch :: cs2) ls) None
        (mkWorld s k (cs1 ++ Placing deadline fresh true :: cs2) ls)
  | ws_wait_failed s k cs1 cs2 ls deadline fresh epoch now err :
      wait_connect s epoch deadline now = Some (Err err) →
      world_step o (mkWorld s k (cs1 ++ Waiting deadline fresh epoch :: cs2) ls)
        (Some (Waiting deadline fresh epoch, now, Err err)) (mkWorld s (S k) (cs1 ++ cs2) ls)
  | ws_connect s s' k cs ls epoch fin now :
      (next_entry_id (l_pool s) < u64_max)%Z → connecting (l_pool s) = Some epoch →
      life_op o s (OpFinish epoch (run_connect fin) now) = Some s' →
      world_step o (mkWorld s k cs ls) None (mkWorld s' k cs ls)
  | ws_lease s s' k cs ls l op :
      l ∈ ls → lease_op l op = true → life_op o s op = Some s' →
      world_step o (mkWorld s k cs ls) None (mkWorld s' k cs ls)
  | ws_end_lease s s' k cs ls1 l ls2 pc now :
      life_op o s (OpDrop pc l now) = Some s' →
      world_step o (mkWorld s k cs (ls1 ++ l :: ls2)) None (mkWorld s' (S k) cs (ls1 ++ ls2))
  | ws_own s s' k cs ls op :
      own_op op = true → life_op o s op = Some s' → world_step o (mkWorld s k cs ls) None (mkWorld s' k cs ls).

(** ** A step of the world is steps of the pool's system *)

Definition holders (cs : list Caller) : nat := length (filter (λ c, holds_permit c = true) cs).

Definition system_of (w : World) : System := mkSystem (l_pool (w_life w)) (w_permits w) (holders (w_callers w)) (w_leases w).

Lemma holders_cons c cs : holders (c :: cs) = give_back c + holders cs.
Proof. unfold holders, give_back. rewrite filter_cons. case_decide as H; [by rewrite H|]. by destruct (holds_permit c). Qed.

Lemma holders_middle cs1 c cs2 : holders (cs1 ++ c :: cs2) = give_back c + holders (cs1 ++ cs2).
Proof.
  unfold holders. rewrite !filter_app, !length_app. fold (holders (c :: cs2)). rewrite holders_cons. unfold holders. lia.
Qed.

Lemma life_op_queued o s s' : life_op o s OpQueued = Some s' → l_pool s' = record_queued (l_pool s).
Proof. by intros [= <-]. Qed.

Lemma acquire_turn_pool o s s' deadline now fresh queued alive pc r :
  acquire_turn o s deadline now fresh queued alive pc = Some (s', r) →
  let '(res, p') := acquire_round alive pc (l_pool s) now fresh in
  match res with
  | Ok l => r = inl (Ok l) ∧ l_pool s' = p'
  | Err (Some epoch) => r = inr (Waiting deadline fresh epoch) ∧ l_pool s' = (if queued then p' else record_queued p')
  | Err None => r = inl (Err pool_closed) ∧ l_pool s' = p'
  end.
Proof.
  unfold acquire_turn. cbn [life_op mbind option_bind].
  destruct (acquire_round alive pc (l_pool s) now fresh) as [[l|[epoch|]] p']; cbn [fst snd].
  - intros [= <- <-]. done.
  - destruct queued; cbn [mbind option_bind]; intros [= <- <-]; done.
  - intros [= <- <-]. done.
Qed.

Lemma life_op_finish o s s' epoch result now :
  life_op o s (OpFinish epoch result now) = Some s' → l_pool s' = (finish_connect (l_pool s) epoch result now).2.
Proof.
  cbn [life_op]. intros [= <-]. unfold life_finish. by destruct (finish_connect _ _ _ _) as [[stale notify] p'].
Qed.

(** An action is at most the sending of one outcome. *)
Lemma act_pool o s i s' :
  life_op o s (OpAct i) = Some s' →
  ∃ a : Act, l_pool s' = sent (l_pool s) (sends [a]) ∧ owed s ≡ₚ a :: owed s'.
Proof.
  cbn [life_op]. destruct (l_tails s !! i) as [[|a rest]|] eqn:Ei; try done. intros [= <-]. exists a.
  destruct (run_act_fields o (with_tails s (pop_tail (l_tails s) i rest)) a) as (-> & E1 & E2 & _). split; [done|].
  unfold owed. rewrite E1, E2. cbn [with_tails l_tails l_task]. by rewrite (pop_tail_perm _ _ _ _ Ei).
Qed.

Lemma task_pool o s s' :
  life_op o s OpTask = Some s' →
  (l_pool s' = l_pool s ∧ owed s = owed s') ∨ ∃ a : Act, l_pool s' = sent (l_pool s) (sends [a]) ∧ owed s ≡ₚ a :: owed s'.
Proof.
  cbn [life_op]. destruct (l_task s) as [| |[|a acts] d|] eqn:Et; try done; intros [= <-].
  - left. split; [done|]. unfold owed. by rewrite Et.
  - right. exists a. destruct (run_act_fields o (with_task s (l_wake s) (Retiring acts d)) a) as (-> & E1 & E2 & _).
    split; [done|]. unfold owed. rewrite E1, E2, Et. cbn [with_task l_tails l_task task_acts]. symmetry. apply Permutation_middle.
Qed.

Lemma sent_step p (a : Act (C:=C)) k n ls :
  rtc pool_step (mkSystem p k n ls) (mkSystem (sent p (sends [a])) k n ls).
Proof. destruct a; try (by rewrite sent_nil). apply rtc_once. apply ps_publish. Qed.

Lemma own_op_step o s s' op k a ls :
  own_op op = true → life_op o s op = Some s' → rtc pool_step (mkSystem (l_pool s) k a ls) (mkSystem (l_pool s') k a ls).
Proof.
  destruct op; try done; intros _.
  - intros [= <-]. apply rtc_once. apply ps_sweep.
  - intros [= <-]. apply rtc_once. apply ps_retry.
  - intros (x & -> & _)%act_pool. apply sent_step.
  - cbn [life_op]. destruct (l_task s); try done. intros [= <-]. apply rtc_once. unfold run_janitor.
    pose proof (ps_janitor (l_pool s) k a ls alive peer_closed now) as H. by destruct (janitor_round _ _ _ _) as [[d|] p'].
  - intros [[-> _]|(x & -> & _)]%task_pool; [done|apply sent_step].
  - cbn [life_op]. destruct (l_task s); try done. destruct (l_wake s); try done. by intros [= <-].
  - cbn [life_op]. destruct (l_task s) as [| | |[d|]]; try done. case_decide; try done. by intros [= <-].
Qed.

Lemma lease_op_step o s s' l op k a ls :
  l ∈ ls → lease_op l op = true → life_op o s op = Some s' →
  pool_step (mkSystem (l_pool s) k a ls) (mkSystem (l_pool s') k a ls).
Proof.
  intros Hl. destruct op; try done; cbn [lease_op life_op]; intros ->%bool_decide_eq_true [= <-].
  - by apply ps_complete.
  - by apply ps_timeout.
  - by apply ps_dead.
Qed.

Lemma world_step_sim o w out w' : world_step o w out w' → rtc pool_step (system_of w) (system_of w').
Proof.
  intros H. destruct H; unfold system_of; cbn [w_life w_permits w_callers w_leases];
    rewrite ?holders_middle; cbn [give_back holds_permit Nat.add].
  - unfold acquire_start in H. destruct w as [s [|k] cs ls]; cbn [w_life w_permits w_callers w_leases] in *.
    + injection H as <-. cbn [w_life w_permits w_callers w_leases]. rewrite holders_cons. apply rtc_once. apply ps_queued.
    + injection H as <-. cbn [w_life w_permits w_callers w_leases]. rewrite holders_cons. apply rtc_once. apply ps_admit.
  - apply rtc_once, ps_admit.
  - done.
  - destruct (holds_permit c) eqn:Ec; unfold give_back; rewrite Ec; [apply rtc_once, ps_give_up|done].
  - apply acquire_turn_pool in H0. destruct (acquire_round alive pc (l_pool s) now fresh) as [[l'|[e|]] p'] eqn:E;
      destruct H0 as [[= ->] ->]. apply rtc_once. by eapply ps_place.
  - apply acquire_turn_pool in H0. destruct (acquire_round alive pc (l_pool s) now fresh) as [[l'|[e|]] p'] eqn:E;
      destruct H0 as [[= ->] ->]. apply rtc_once. by eapply ps_refused.
  - apply acquire_turn_pool in H0. destruct (acquire_round alive pc (l_pool s) now fresh) as [[l'|[e|]] p'] eqn:E;
      destruct H0 as [[= ->] ->]. cbn [give_back holds_permit Nat.add]. eapply rtc_l; [by eapply ps_wait|].
    destruct queued; [done|apply rtc_once, ps_queued].
  - done.
  - apply rtc_once, ps_give_up.
  - apply life_op_finish in H1 as ->. by apply rtc_once, ps_finish.
  - apply rtc_once. by eapply lease_op_step.
  - cbn [life_op] in H. pose proof (ps_drop (l_pool s) k (holders cs) ls1 l ls2 pc now) as Hd.
    destruct (lease_drop pc (l_pool s) l now) as [wake p']. injection H as <-. by apply rtc_once.
  - by eapply own_op_step.
Qed.

Lemma world_step_life o w out w' : world_step o w out w' → ∃ ops, life_ops o (w_life w) ops = Some (w_life w').
Proof.
  assert (Hone : ∀ s op s', life_op o s op = Some s' → ∃ ops, life_ops o s ops = Some s').
  { intros s op s' H. exists [op]. by rewrite (life_ops_cons o s op [] s' H). }
  assert (Hnone : ∀ s, ∃ ops, life_ops o s ops = Some s) by (intros s; by exists []).
  assert (Hturn : ∀ s d now fresh queued alive pc s' r,
    acquire_turn o s d now fresh queued alive pc = Some (s', r) → ∃ ops, life_ops o s ops = Some s').
  { intros s d now fresh queued alive pc s' r H. unfold acquire_turn in H.
    destruct (life_op o s (OpAcquire alive pc now fresh)) as [s1|] eqn:E; [|done]. cbn [mbind option_bind] in H.
    destruct (acquire_round _ _ _ _ _).1 as [l|[e|]]; [injection H as <- <-; eauto| |injection H as <- <-; eauto].
    destruct queued; cbn [mbind option_bind] in H; [injection H as <- <-; eauto|].
    destruct (life_op o s1 OpQueued) as [s2|] eqn:E2; [|done]. injection H as <- <-.
    exists [OpAcquire alive pc now fresh; OpQueued]. by rewrite (life_ops_cons o s _ _ s1 E), (life_ops_cons o s1 _ _ s2 E2). }
  intros H. destruct H; cbn [w_life]; eauto.
  unfold acquire_start in H. destruct (w_permits w); injection H as <-; eauto. by apply (Hone _ OpQueued).
Qed.

(** ** Epochs *)

Definition same_epochs p p' : Prop :=
  connecting p' = connecting p ∧ next_epoch p' = next_epoch p ∧ published p' = published p.

#[export] Instance same_epochs_refl : Reflexive same_epochs.
Proof. by intros p. Qed.
#[export] Instance same_epochs_trans : Transitive same_epochs.
Proof. intros p1 p2 p3 (?&?&?) (?&?&?). repeat split; congruence. Qed.

Lemma retire_epochs pc p i reason : same_epochs p (retire pc p i reason).
Proof. unfold retire. by destruct (entries p !! i). Qed.

Lemma retire_update_epochs pc p i j f reason : same_epochs p (retire pc (update p i f) j reason).
Proof. trans (update p i f); [done|apply retire_epochs]. Qed.

Lemma sweep_epochs alive pc p now : same_epochs p (sweep_locked alive pc p now).
Proof. rewrite sweep_locked_swept. done. Qed.

Lemma lease_drop_epochs pc p l now : same_epochs p (lease_drop pc p l now).2.
Proof.
  unfold lease_drop. destruct (position _ _) as [i|]; [|done]. cbn zeta. destruct (entries _ !! i) as [e|]; [|done].
  case_decide; [|done]. destruct (draining_since e); [|done]. cbn [snd].
  match goal with |- same_epochs _ (set_entries ?q _ _ _) => trans q; [|done] end. apply retire_update_epochs.
Qed.

(** The outcomes of the connects that have ended, sent or still to be sent. *)
Definition outcomes s : list (Z * Result Error unit) := published (l_pool s) ++ sends (owed s).

Definition same_outcomes s s' : Prop :=
  connecting (l_pool s') = connecting (l_pool s) ∧ next_epoch (l_pool s') = next_epoch (l_pool s) ∧ outcomes s' ≡ₚ outcomes s.

#[export] Instance same_outcomes_refl : Reflexive same_outcomes.
Proof. by intros s. Qed.
#[export] Instance same_outcomes_trans : Transitive same_outcomes.
Proof. intros s1 s2 s3 (?&?&H1) (?&?&H2). repeat split; try congruence. by rewrite H2, H1. Qed.

(** A lock section owes nothing to those waiting for a connect. *)
Lemma section_sends s p' wake : sends (owed (after_section s p' wake)) ≡ₚ sends (owed s).
Proof.
  unfold after_section, owed. cbn [l_tails l_task]. rewrite owed_add. destruct (close_all_acts (retired s p')) as (_ & _ & _ & Hs & _).
  rewrite sends_app, (sends_app (close_all _)), Hs. destruct wake; by rewrite app_nil_r.
Qed.

Lemma section_outcomes s p' wake : same_epochs (l_pool s) p' → same_outcomes s (after_section s p' wake).
Proof.
  intros (Hc & Hn & Hp). split; [exact Hc|]. split; [exact Hn|]. unfold outcomes. cbn [after_section l_pool].
  by rewrite section_sends, Hp.
Qed.

Lemma lease_op_epochs o s s' l op : lease_op l op = true → life_op o s op = Some s' → same_outcomes s s'.
Proof.
  destruct op; try done; intros _ H; injection H as <-; apply section_outcomes.
  - unfold lease_complete. by destruct (position _ _).
  - unfold note_timeout. destruct (position _ _); [|done]. cbn zeta. cbn [snd].
    destruct (match entries _ !! _ with Some _ => _ | None => _ end); [|done]. apply retire_update_epochs.
  - unfold mark_dead. destruct (position _ _); [apply retire_epochs|done].
Qed.

Lemma sent_outcomes s s' a :
  l_pool s' = sent (l_pool s) (sends [a]) → owed s ≡ₚ a :: owed s' → same_outcomes s s'.
Proof.
  intros Hp Ho. unfold same_outcomes, outcomes. rewrite Hp. cbn [sent connecting next_epoch published]. split_and!; [done..|].
  by rewrite Ho, (sends_cons a (owed s')), <-app_assoc.
Qed.

Lemma own_op_epochs o s s' op : own_op op = true → life_op o s op = Some s' → same_outcomes s s'.
Proof.
  destruct op; try done; intros _.
  - intros [= <-]. apply section_outcomes, sweep_epochs.
  - intros [= <-]. split_and!; [done..|]. unfold outcomes, owed. cbn [l_pool l_tails l_task record_retry published].
    change (l_tails s ++ [[ActRetried]]) with (add_tail (l_tails s) [ActRetried]). rewrite owed_add, sends_app. by rewrite app_nil_r.
  - intros (a & Hp & Ho)%act_pool. by eapply sent_outcomes.
  - cbn [life_op]. destruct (l_task s) eqn:Et; try done. intros [= <-]. unfold run_janitor.
    assert (He : same_epochs (l_pool s) (janitor_round alive peer_closed (l_pool s) now).2).
    { unfold janitor_round. cbn zeta. pose proof (sweep_epochs alive peer_closed (l_pool s) now). by destruct (bool_decide _). }
    destruct (janitor_round _ _ _ _) as [sleep p']. destruct He as (Hc & Hn & Hp). cbn [snd] in *.
    destruct (close_all_acts (retired s p')) as (_ & _ & _ & Hs & _).
    destruct sleep as [d|]; (split; [exact Hc|]; split; [exact Hn|]); unfold outcomes, owed; cbn [l_pool l_tails l_task task_acts];
      rewrite ?owed_add, !sends_app, Hs, Hp, Et; cbn; by rewrite ?app_nil_r.
  - intros [[Hp Ho]|(a & Hp & Ho)]%task_pool; [|by eapply sent_outcomes].
    unfold same_outcomes, outcomes. by rewrite Hp, Ho.
  - cbn [life_op]. destruct (l_task s) eqn:Et; try done. destruct (l_wake s); try done. intros [= <-].
    unfold same_outcomes, outcomes, owed. by rewrite Et.
  - cbn [life_op]. destruct (l_task s) as [| | |[d|]] eqn:Et; try done. case_decide; try done. intros [= <-].
    unfold same_outcomes, outcomes, owed. by rewrite Et.
Qed.

(** A round starts a connect only when none is in progress, and a caller that
    has to wait is given the one in progress. *)
Definition started p p' : Prop :=
  connecting p = None ∧ connecting p' = Some (next_epoch p) ∧ next_epoch p' = wrapping_add 64 (next_epoch p) 1 ∧
  published p' = published p.

Lemma acquire_round_epochs alive pc p now fresh :
  (same_epochs p (acquire_round alive pc p now fresh).2 ∨ started p (acquire_round alive pc p now fresh).2) ∧
  ∀ e, (acquire_round alive pc p now fresh).1 = Err (Some e) → connecting (acquire_round alive pc p now fresh).2 = Some e.
Proof.
  unfold acquire_round. cbn zeta. pose proof (sweep_epochs alive pc p now) as (Hc & Hn & Hp).
  set (p1 := sweep_locked alive pc p now) in *. pose proof (pick_spec p1 now fresh) as Hs.
  assert (Hst : connecting p1 = None → started p (start_connect_locked p1)).
  { intros H. unfold started. cbn [start_connect_locked connecting next_epoch published]. by rewrite <-Hc, <-Hn, <-Hp, H. }
  destruct (pick p1 now fresh) as [i up|start|]; cbn [fst snd].
  - destruct Hs as (e & Hi & _ & _ & Hup). destruct up.
    + cbn [start_connect_locked entries]. rewrite Hi. cbn [fst snd]. split; [right; apply Hst, Hup; done|done].
    + rewrite Hi. cbn [fst snd]. split; [left; done|done].
  - destruct start; (split; [|intros e [= H]; first [exact H | exact (f_equal Some H)]]); [right; apply Hst, Hs|left; done].
  - split; [left; done|done].
Qed.

Record epoch_inv s (cs : list Caller) : Prop := {
  ei_next : (next_epoch (l_pool s) ≤ u64_max)%Z;
  ei_connecting e : connecting (l_pool s) = Some e → (e < next_epoch (l_pool s))%Z ∧ e ∉ map fst (outcomes s);
  ei_ended e : e ∈ map fst (outcomes s) → (e < next_epoch (l_pool s))%Z;
  ei_once : NoDup (map fst (outcomes s));
  ei_waiting d f e : Waiting d f e ∈ cs → connecting (l_pool s) = Some e ∨ e ∈ map fst (outcomes s);
  ei_zero : (0 ≤ next_epoch (l_pool s))%Z;
}.

Lemma epoch_same s s' cs cs' :
  same_outcomes s s' → (∀ d f e, Waiting d f e ∈ cs' → Waiting d f e ∈ cs ∨ connecting (l_pool s) = Some e) →
  epoch_inv s cs → epoch_inv s' cs'.
Proof.
  intros (Hc & Hn & Hp) Hcs []. assert (Hm : map fst (outcomes s') ≡ₚ map fst (outcomes s)) by by rewrite Hp.
  split; rewrite ?Hc, ?Hn, ?Hm; try done.
  - intros e. rewrite ?Hc, ?Hn, Hm. auto.
  - intros e. rewrite Hm, ?Hn. auto.
  - intros d f e H. rewrite ?Hc, Hm. apply Hcs in H as [H|H]; [by eapply ei_waiting0|by left].
Qed.

Lemma epoch_started s s' cs cs' :
  started (l_pool s) (l_pool s') → outcomes s' ≡ₚ outcomes s → (next_epoch (l_pool s) < u64_max)%Z →
  (∀ d f e, Waiting d f e ∈ cs' → Waiting d f e ∈ cs ∨ connecting (l_pool s') = Some e) →
  epoch_inv s cs → epoch_inv s' cs'.
Proof.
  intros (Hc0 & Hc & Hn & _) Hp Hlt Hcs []. assert (Hm : map fst (outcomes s') ≡ₚ map fst (outcomes s)) by by rewrite Hp.
  assert (Hw : next_epoch (l_pool s') = (next_epoch (l_pool s) + 1)%Z) by (rewrite Hn; apply bump_small; lia).
  split; rewrite ?Hw.
  - lia.
  - intros e He. rewrite ?Hc in He. injection He as <-. rewrite Hm, ?Hw. split; [lia|]. intros H%ei_ended0. lia.
  - intros e. rewrite Hm, ?Hw. intros H%ei_ended0. lia.
  - by rewrite Hm.
  - intros d f e H. rewrite Hm. apply Hcs in H as [H|H]; [|by left]. destruct (ei_waiting0 d f e H) as [H1|H1]; [congruence|by right].
  - lia.
Qed.

Definition outcome_of (result : Result Error C) : Result Error unit :=
  match result with Ok _ => Ok tt | Err err => Err err end.

(** The outcome of a finished connect is to be sent. *)
Lemma finish_epochs o s e result now :
  life_inv o s → connecting (l_pool s) = Some e →
  let s' := life_finish s e result now in
  connecting (l_pool s') = None ∧ next_epoch (l_pool s') = next_epoch (l_pool s) ∧
  outcomes s' ≡ₚ (e, outcome_of result) :: outcomes s ∧ (e, outcome_of result) ∈ sends (owed s').
Proof.
  intros Hi He. unfold life_finish, finish_connect. rewrite decide_True by done.
  assert (Ht : task_acts (if negb (janitor (l_pool s)) then Ready else l_task s) = task_acts (l_task s)).
  { rewrite (li_janitor _ _ _ Hi). by destruct (l_task s). }
  unfold outcomes. destruct result as [c|err]; unfold owed;
    cbn [l_pool l_tails l_task andb finish_tail app outcome_of take_connecting connecting next_epoch published]; rewrite ?Ht, owed_add.
  - unfold ensure_janitor_locked. destruct (janitor _); cbn [push_entry set_janitor next_epoch published];
      (split_and!; [done|done|rewrite sends_app, app_assoc; symmetry; apply Permutation_cons_append|]);
      rewrite sends_app; apply elem_of_app; right; apply list_elem_of_here.
  - split_and!; [done|done|rewrite sends_app, app_assoc; symmetry; apply Permutation_cons_append|].
    rewrite sends_app. apply elem_of_app. right. apply list_elem_of_here.
Qed.

Lemma epoch_finish o s e result now cs :
  life_inv o s → connecting (l_pool s) = Some e → epoch_inv s cs → epoch_inv (life_finish s e result now) cs.
Proof.
  intros Hi He []. destruct (finish_epochs o s e result now Hi He) as (Hc & Hn & Hp & _). destruct (ei_connecting0 e He) as [Hlt Hne].
  assert (Hm : map fst (outcomes (life_finish s e result now)) ≡ₚ e :: map fst (outcomes s)) by by rewrite Hp.
  split; rewrite ?Hn, ?Hm; try done.
  - congruence.
  - intros x. rewrite Hm, ?Hn. intros [->|H]%elem_of_cons; [done|auto].
  - by apply NoDup_cons.
  - intros d f x H. right. rewrite Hm, elem_of_cons. destruct (ei_waiting0 d f x H) as [H1|H1]; [left; congruence|by right].
Qed.

Lemma acquire_turn_sends o s s' deadline now fresh queued alive pc r :
  acquire_turn o s deadline now fresh queued alive pc = Some (s', r) → sends (owed s') ≡ₚ sends (owed s).
Proof.
  unfold acquire_turn. cbn [life_op mbind option_bind].
  destruct (acquire_round alive pc (l_pool s) now fresh) as [[l|[e|]] p']; cbn [fst snd].
  - intros [= <- _]. apply section_sends.
  - destruct queued; cbn [mbind option_bind]; intros [= <- _]; by rewrite ?section_sends.
  - intros [= <- _]. apply section_sends.
Qed.

Lemma waiting_middle cs1 c c' cs2 d f e :
  Waiting d f e ∈ cs1 ++ c' :: cs2 → Waiting d f e ∈ cs1 ++ c :: cs2 ∨ c' = Waiting d f e.
Proof. rewrite !elem_of_app, !elem_of_cons. naive_solver. Qed.
Lemma waiting_removed cs1 c cs2 d f e :
  Waiting d f e ∈ cs1 ++ cs2 → Waiting d f e ∈ cs1 ++ c :: cs2.
Proof. rewrite !elem_of_app, !elem_of_cons. naive_solver. Qed.

Lemma acquire_turn_epochs o s s' deadline now fresh queued alive pc r cs1 cs2 :
  (next_epoch (l_pool s) < u64_max)%Z →
  acquire_turn o s deadline now fresh queued alive pc = Some (s', r) →
  epoch_inv s (cs1 ++ Placing deadline fresh queued :: cs2) →
  epoch_inv s' (match r with inl _ => cs1 ++ cs2 | inr c => cs1 ++ c :: cs2 end).
Proof.
  intros Hlt H Hi. pose proof (acquire_turn_sends _ _ _ _ _ _ _ _ _ _ H) as Hsd. apply acquire_turn_pool in H.
  pose proof (acquire_round_epochs alive pc (l_pool s) now fresh) as [He Hw].
  destruct (acquire_round alive pc (l_pool s) now fresh) as [res p']. cbn [fst snd] in *.
  assert (Hq : same_epochs p' (l_pool s') ∧ ∀ d f e,
    Waiting d f e ∈ (match r with inl _ => cs1 ++ cs2 | inr c => cs1 ++ c :: cs2 end) →
    Waiting d f e ∈ cs1 ++ Placing deadline fresh queued :: cs2 ∨ connecting p' = Some e).
  { destruct res as [l|[e|]]; destruct H as [-> ->].
    - split; [done|]. intros d f x Hx. left. by apply waiting_removed.
    - split; [by destruct queued|]. intros d f x Hx.
      apply (waiting_middle _ (Placing deadline fresh queued)) in Hx as [Hx|[= _ _ <-]]; [by left|right; by apply Hw].
    - split; [done|]. intros d f x Hx. left. by apply waiting_removed. }
  destruct Hq as [(Hsc & Hsn & Hsp) Hcs]. destruct He as [(Hc & Hn & Hp)|(Hc0 & Hc & Hn & Hp)].
  - eapply epoch_same; [|intros d f x [Hx|Hx]%Hcs; [left; exact Hx|right; by rewrite <-Hc]|exact Hi].
    split_and!; [congruence..|]. unfold outcomes. by rewrite Hsp, Hp, Hsd.
  - eapply epoch_started; [| |done| |exact Hi].
    + unfold started. rewrite Hsc, Hsn, Hsp. done.
    + unfold outcomes. by rewrite Hsp, Hp, Hsd.
    + intros d f x [Hx|Hx]%Hcs; [by left|right; by rewrite Hsc].
Qed.

Lemma epoch_callers s cs cs' :
  (∀ d f e, Waiting d f e ∈ cs' → Waiting d f e ∈ cs) → epoch_inv s cs → epoch_inv s cs'.
Proof. intros H. apply epoch_same; [done|]. intros d f e Hx. left. auto. Qed.

Lemma world_step_epochs o w out w' :
  world_step o w out w' → life_inv o (w_life w) → epoch_inv (w_life w) (w_callers w) → epoch_inv (w_life w') (w_callers w').
Proof.
  intros H Hl Hi. destruct H; cbn [w_life w_callers] in *.
  - unfold acquire_start in H. destruct w as [s [|k] cs ls]; cbn [w_life w_permits w_callers w_leases] in *; injection H as <-;
      cbn [w_life w_callers]; (apply (epoch_same s _ cs); [first [by apply section_outcomes | done]| |exact Hi]); intros d f e [Hx|Hx]%elem_of_cons; try done; by left.
  - eapply epoch_callers; [|exact Hi]. intros d f e Hx.
    by apply (waiting_middle _ (Queueing deadline fresh)) in Hx as [Hx|Hx].
  - eapply epoch_callers; [|exact Hi]. intros d f e. apply waiting_removed.
  - eapply epoch_callers; [|exact Hi]. intros d f e. apply waiting_removed.
  - exact (acquire_turn_epochs o s s' _ _ _ _ _ _ _ cs1 cs2 H H0 Hi).
  - exact (acquire_turn_epochs o s s' _ _ _ _ _ _ _ cs1 cs2 H H0 Hi).
  - exact (acquire_turn_epochs o s s' _ _ _ _ _ _ _ cs1 cs2 H H0 Hi).
  - eapply epoch_callers; [|exact Hi]. intros d f e Hx.
    by apply (waiting_middle _ (Waiting deadline fresh epoch)) in Hx as [Hx|Hx].
  - eapply epoch_callers; [|exact Hi]. intros d f e. apply waiting_removed.
  - injection H1 as <-. by apply (epoch_finish o).
  - eapply epoch_same; [by eapply lease_op_epochs| |exact Hi]. intros d f e Hx. by left.
  - pose proof (lease_drop_epochs pc (l_pool s) l now) as He. cbn [life_op] in H.
    destruct (lease_drop pc (l_pool s) l now) as [wake p']. injection H as <-.
    eapply epoch_same; [apply section_outcomes, He| |exact Hi].
    intros d f e Hx. by left.
  - eapply epoch_same; [by eapply own_op_epochs| |exact Hi]. intros d f e Hx. by left.
Qed.

(** ** Reachable worlds *)

Definition steps (o : PoolObserver) : World → World → Prop := rtc (λ w w', ∃ out, world_step o w out w').

Record world_inv (c : PoolConfig) (o : PoolObserver) (w : World) : Prop := {
  wi_pool : pool_inv c (system_of w);
  wi_life : life_inv o (w_life w);
  wi_epochs : epoch_inv (w_life w) (w_callers w);
}.

Lemma pool_steps_inv c y z : rtc pool_step y z → pool_inv (C:=C) c y → pool_inv c z.
Proof. induction 1; intros; [done|]. eauto using pool_step_inv. Qed.

Lemma world_step_inv c o w out w' : world_step o w out w' → world_inv c o w → world_inv c o w'.
Proof.
  intros H []. split.
  - eapply pool_steps_inv; [by eapply world_step_sim|done].
  - destruct (world_step_life _ _ _ _ H) as (ops & Hops). by eapply life_ops_inv.
  - by eapply world_step_epochs.
Qed.

Lemma world_new_inv c grace o : configured c → world_inv c o (world_new c grace).
Proof.
  intros Hc. split; [exact (system_new_inv c grace Hc)|apply life_new_inv|].
  split; cbn; try done; [by intros e ?%not_elem_of_nil|constructor|by intros d f e ?%not_elem_of_nil].
Qed.

Lemma world_steps_inv c grace o w : configured c → steps o (world_new c grace) w → world_inv c o w.
Proof.
  intros Hc H. refine (rtc_ind_r (world_inv c o) _ _ _ _ H); [by apply world_new_inv|].
  intros y z _ (out & Hyz) Hy. by eapply world_step_inv.
Qed.

Lemma connect_state_published s cs e outcome :
  epoch_inv s cs → (e, outcome) ∈ published (l_pool s) → connect_state s e = Some outcome.
Proof.
  intros Hi He. unfold connect_state. destruct (list_find _ (published _)) as [[i [e' outcome']]|] eqn:E.
  - apply list_find_Some in E as (Hl & Heq & _). cbn in Heq. subst e'. f_equal.
    apply list_elem_of_lookup in He as (j & Hj). pose proof (ei_once _ _ Hi) as Hnd.
    unfold outcomes in Hnd. rewrite map_app in Hnd. apply NoDup_app in Hnd as [Hnd _].
    assert (i = j) as <-; [|congruence]. eapply NoDup_lookup; [exact Hnd| |];
      change (map fst (published (l_pool s))) with (fst <$> published (l_pool s)); rewrite list_lookup_fmap; [by rewrite Hl|by rewrite Hj].
  - apply list_find_None in E. rewrite Forall_forall in E. by apply E in He.
Qed.

Lemma connect_state_pending s cs e : epoch_inv s cs → has_sender s e → connect_state s e = None.
Proof.
  intros Hi He. unfold connect_state. destruct (list_find _ (published _)) as [[i [e' outcome']]|] eqn:E; [|by rewrite decide_True].
  apply list_find_Some in E as (Hl & Heq & _). cbn in Heq. subst e'.
  assert (Hpub : e ∈ map fst (published (l_pool s))).
  { apply list_elem_of_fmap. exists (e, outcome'). split; [done|]. by eapply list_elem_of_lookup_2. }
  destruct He as [He|He].
  - destruct (ei_connecting _ _ Hi e He) as [_ []]. unfold outcomes. rewrite map_app, elem_of_app. by left.
  - pose proof (ei_once _ _ Hi) as Hnd. unfold outcomes in Hnd. rewrite map_app in Hnd. apply NoDup_app in Hnd as (_ & Hnd & _).
    by destruct (Hnd e Hpub).
Qed.

(** Where the outcome a caller waits for is. *)
Lemma waiting_cases s cs d f e :
  epoch_inv s cs → Waiting d f e ∈ cs →
  connecting (l_pool s) = Some e ∨ (∃ outcome, (e, outcome) ∈ sends (owed s)) ∨ ∃ outcome, (e, outcome) ∈ published (l_pool s).
Proof.
  intros Hi Hw. destruct (ei_waiting _ _ Hi _ _ _ Hw) as [Hp|(eo & -> & Hp)%list_elem_of_fmap]; [by left|right].
  destruct eo as [e outcome]. unfold outcomes in Hp. apply elem_of_app in Hp as [Hp|Hp]; [right|left]; by exists outcome.
Qed.

Lemma acts_outcomes o i n : ∀ s s', life_ops o s (replicate n (OpAct i)) = Some s' → same_outcomes s s'.
Proof.
  induction n as [|n IH]; intros s s' H; [by injection H as <-|]. cbn [replicate] in H.
  destruct (life_op o s (OpAct i)) as [s1|] eqn:E; [rewrite (life_ops_cons o s _ _ s1 E) in H|].
  - etrans; [by eapply (own_op_epochs o s s1 (OpAct i))|by apply IH].
  - exfalso. revert H. unfold life_ops, compose. cbn [foldl mbind option_bind]. rewrite E. clear. induction n; cbn; auto; done.
Qed.

(** The operation that has the outcome sends it by itself, in two steps at most. *)
Definition released_by (o : PoolObserver) s (epoch : Z) (outcome : Result Error unit) : Prop :=
  ∃ i n s', n ≤ 2 ∧ life_ops o s (replicate n (OpAct i)) = Some s' ∧
    ∀ deadline t, wait_connect s' epoch deadline t = Some outcome.

Lemma send_released o s cs e outcome :
  life_inv o s → epoch_inv s cs → (e, outcome) ∈ sends (owed s) → released_by o s e outcome.
Proof.
  intros Hi He Hin. unfold owed in Hin. rewrite sends_app in Hin. destruct (li_task _ _ _ Hi) as (Hts & _).
  rewrite Hts, app_nil_r in Hin. apply list_elem_of_omap in Hin as (a & Ha & Hact).
  apply list_elem_of_In, in_concat in Ha as (acts & Hl%list_elem_of_In & Ha%list_elem_of_In).
  assert (Hs : (e, outcome) ∈ sends acts) by (apply list_elem_of_omap; eauto).
  pose proof (li_tails _ _ _ Hi) as Htails. rewrite Forall_forall in Htails. pose proof (Htails _ Hl) as [_ Hok].
  apply list_elem_of_lookup in Hl as (i & Hl). destruct (run_tail o acts s i Hl) as (s' & Hs' & Hp & _).
  exists i, (length acts), s'. split.
  { destruct Hok as [[Hn _]|[(x & ->)|(x & r & ->)]]; [|cbn; lia..]. rewrite Hn in Hs. by apply not_elem_of_nil in Hs. }
  split; [exact Hs'|]. intros d t. unfold wait_connect.
  rewrite (connect_state_published s' cs e outcome); [done| |].
  - eapply epoch_same; [by eapply acts_outcomes| |exact He]. intros d' f' e' Hx. by left.
  - rewrite Hp. apply elem_of_app. by right.
Qed.

Lemma acquire_round_entry alive pc p now fresh l :
  (acquire_round alive pc p now fresh).1 = Ok l → ∃ e, e ∈ entries (acquire_round alive pc p now fresh).2 ∧ e_id e = l_entry l.
Proof.
  unfold acquire_round. cbn zeta. destruct (pick _ now fresh) as [i up|start|]; cbn [fst snd]; try done.
  set (p2 := if up then _ else _). destruct (entries p2 !! i) as [e|] eqn:Ei; cbn [fst snd]; [|done].
  intros [= <-]. exists (bump_in_flight e). split; [|done]. cbn [set_entries entries].
  eapply list_elem_of_lookup_2. apply list_lookup_insert_eq. by eapply lookup_lt_Some.
Qed.

(** C25: A call of [acquire] returns in one of three ways: with a lease on a
    connection the pool has; with [Timeout], at or after its deadline; or with
    the error of the very connect it waited for, which every caller waiting for
    that connect receives. It never finds the pool without capacity or a connect
    abandoned, and every permit is free, held by a waiting call or under a lease. *)
Theorem acquire_outcomes c grace o w call now r w' :
  configured c → steps o (world_new c grace) w → world_step o w (Some (call, now, r)) w' →
  match r with
  | Ok l => l ∈ w_leases w' ∧ ∃ e, e ∈ entries (l_pool (w_life w')) ∧ e_id e = l_entry l
  | Err err =>
      (err = Timeout ∧ (caller_deadline call ≤ now)%Z) ∨
      ∃ fresh epoch, call = Waiting (caller_deadline call) fresh epoch ∧ (epoch, Err err) ∈ published (l_pool (w_life w)) ∧
        ∀ t deadline, wait_connect (w_life w) epoch deadline t = Some (Err err)
  end ∧
  w_permits w' + holders (w_callers w') + length (w_leases w') = capacity c.
Proof.
  intros Hc Hr Hs. pose proof (world_steps_inv _ _ _ _ Hc Hr) as Hi. pose proof (world_step_inv _ _ _ _ _ Hs Hi) as Hi'.
  split; [|apply (pi_permits _ _ (wi_pool _ _ _ Hi'))]. inversion Hs; subst; cbn [w_life w_leases caller_deadline] in *;
    try match goal with H : acquire_turn _ _ _ _ _ _ _ _ = _ |- _ => rename H into Ht end;
    try match goal with H : wait_connect _ _ _ _ = _ |- _ => rename H into Hwait end.
  - by left.
  - split; [apply list_elem_of_here|]. apply acquire_turn_pool in Ht.
    pose proof (acquire_round_entry alive pc (l_pool s) now fresh l) as He.
    destruct (acquire_round alive pc (l_pool s) now fresh) as [[l'|[e|]] p']; destruct Ht as [[= <-] ->]. by apply He.
  - exfalso. apply acquire_turn_pool in Ht. pose proof (wi_pool _ _ _ Hi) as Hp. unfold system_of in Hp.
    cbn [w_life w_permits w_callers w_leases] in Hp. rewrite holders_middle in Hp.
    pose proof (acquire_round_inv _ _ _ _ _ alive pc now fresh Hp) as Hround.
    destruct (acquire_round alive pc (l_pool s) now fresh) as [[l'|[e|]] p']; [by destruct Ht as [[=] _]..|done].
  - pose proof (wi_epochs _ _ _ Hi) as He. cbn [w_life w_callers] in He.
    assert (Hw : Waiting deadline fresh epoch ∈ cs1 ++ Waiting deadline fresh epoch :: cs2).
    { apply elem_of_app. right. apply list_elem_of_here. }
    unfold wait_connect in *.
    assert (Hcase : has_sender s epoch ∨ ∃ outcome, (epoch, outcome) ∈ published (l_pool s)).
    { destruct (waiting_cases _ _ _ _ _ He Hw) as [Hp|[(outcome & Hp)|Hp]]; [left; by left|left; right|by right].
      apply list_elem_of_fmap. by exists (epoch, outcome). }
    destruct Hcase as [Hp|(outcome & Hp)].
    + rewrite (connect_state_pending _ _ _ He Hp) in *. case_decide; [|done]. injection Hwait as <-. by left.
    + rewrite (connect_state_published _ _ _ _ He Hp) in *. injection Hwait as ->.
      right. exists fresh, epoch. split; [done|]. split; [exact Hp|]. intros t d.
      by rewrite (connect_state_published _ _ _ _ He Hp).
Qed.

(** C26: No caller is stranded. The connect a caller waits for is running, or
    has ended and an operation is about to send its outcome, or the outcome was
    sent. In the first two cases the caller waits until its deadline and no
    longer, in the third it has the outcome. However the task ends, with a
    connection, an error, or dropped before it had either, the operation that
    recorded it sends that outcome by its own next steps, two at most, and
    every caller waiting for the connect is released with it. *)
Theorem waiters_released c grace o w deadline fresh epoch :
  configured c → steps o (world_new c grace) w → Waiting deadline fresh epoch ∈ w_callers w →
  let s := w_life w in
  let waits := ∀ now, wait_connect s epoch deadline now = if decide (deadline ≤ now)%Z then Some (Err Timeout) else None in
  (connecting (l_pool s) = Some epoch ∧ waits ∧
   ∀ fin now s', life_op o s (OpFinish epoch (run_connect fin) now) = Some s' →
     released_by o s' epoch (match fin with Connected result => outcome_of result | Dropped => Err connect_cancelled end)) ∨
  (∃ outcome, (epoch, outcome) ∈ sends (owed s) ∧ waits ∧ released_by o s epoch outcome) ∨
  ∃ outcome, (epoch, outcome) ∈ published (l_pool s) ∧ ∀ t, wait_connect s epoch deadline t = Some outcome.
Proof.
  intros Hc Hr Hw s waits. pose proof (world_steps_inv _ _ _ _ Hc Hr) as Hi. pose proof (wi_epochs _ _ _ Hi) as He.
  pose proof (wi_life _ _ _ Hi) as Hl. fold s in He, Hl.
  assert (Hwaits : has_sender s epoch → waits).
  { intros Hp now. unfold wait_connect. by rewrite (connect_state_pending _ _ _ He Hp). }
  destruct (waiting_cases _ _ _ _ _ He Hw) as [Hp|[(outcome & Hp)|(outcome & Hp)]]; [left|right; left|right; right].
  - split; [done|]. split; [apply Hwaits; by left|]. intros fin now s' [= <-].
    pose proof (finish_epochs o s epoch (run_connect fin) now Hl Hp) as (_ & _ & _ & Hin).
    replace (match fin with Connected _ => _ | Dropped => _ end) with (outcome_of (run_connect fin)) by by destruct fin.
    eapply send_released; [by apply life_finish_inv|by eapply epoch_finish|exact Hin].
  - exists outcome. split; [done|]. split; [|by eapply send_released]. apply Hwaits. right. apply list_elem_of_fmap. by exists (epoch, outcome).
  - exists outcome. split; [done|]. intros t. unfold wait_connect. by rewrite (connect_state_published _ _ _ _ He Hp).
Qed.
End acquire.

(** One connection with room for one query: the first caller starts the connect,
    a second one is refused a permit and queues. *)
Definition example_waiting : World (C:=nat) :=
  let up := λ _ : nat, true in let nobody := λ _ : nat, false in
  let s := life_new example_pool_config 100 in
  match acquire_turn example_observer s 50 1 false false up nobody with
  | Some (s', inr c) => mkWorld s' 0 [c] []
  | _ => world_new example_pool_config 100
  end.

Lemma example_waiting_reached : steps example_observer (world_new example_pool_config 100) example_waiting.
Proof.
  eapply rtc_l; [exists None; refine (ws_start example_observer _ _ 50 false _); reflexivity|].
  eapply rtc_once. exists None.
  refine (ws_wait example_observer _ _ 0 [] [] [] 50 false false (λ _, true) (λ _, false) 1 (Waiting 50 false 0) _ _); vm_compute; reflexivity.
Defined.

Lemma example_configured : configured example_pool_config.
Proof. apply configured_in_flight, configured_connections, configured_new. Qed.

Lemma acquire_outcomes_witness :
  ∃ w' : World (C:=nat), world_step example_observer example_waiting (Some (Waiting 50 false 0, 50%Z, Err Timeout)) w' ∧
    w_permits w' + holders (w_callers w') + length (w_leases w') = 1.
Proof.
  assert (Hs : world_step example_observer example_waiting (Some (Waiting 50 false 0, 50%Z, Err Timeout))
    (mkWorld (w_life example_waiting) 1 [] [])).
  { refine (ws_wait_failed example_observer (w_life example_waiting) 0 [] [] [] 50 false 0 50 Timeout _). vm_compute. reflexivity. }
  eexists. split; [exact Hs|].
  apply (acquire_outcomes _ _ _ _ _ _ _ _ example_configured example_waiting_reached Hs).
Defined.

Lemma waiters_released_witness :
  connecting (l_pool (w_life example_waiting)) = Some 0%Z ∧
  ∃ s', life_op example_observer (w_life example_waiting) (OpFinish 0 (run_connect Dropped) 3) = Some s' ∧
    wait_connect s' 0 50 4 = None ∧ released_by example_observer s' 0 (Err connect_cancelled).
Proof.
  assert (Hw : Waiting 50 false 0 ∈ w_callers example_waiting) by (vm_compute; apply list_elem_of_here).
  destruct (waiters_released _ _ _ _ _ _ _ example_configured example_waiting_reached Hw) as [(Hc & _ & Hf)|[(o & Ho & _)|(o & Ho & _)]].
  - split; [exact Hc|]. destruct (life_op example_observer (w_life example_waiting) (OpFinish 0 (run_connect Dropped) 3)) as [s'|] eqn:E;
      [|vm_compute in E; discriminate E].
    exists s'. split; [reflexivity|]. split; [|exact (Hf Dropped 3%Z s' E)]. vm_compute in E. injection E as <-. vm_compute. reflexivity.
  - vm_compute in Ho. by apply not_elem_of_nil in Ho.
  - vm_compute in Ho. by apply not_elem_of_nil in Ho.
Defined.
