(* ===== verification/StreamQuery.v ===== *)
(** * A query on a pooled stream, and its one retry

    Models [StreamPool::query] and [attempt] of
    [crates/dns-lattice/src/upstream/stream.rs]. What the pool and the
    connection gave one attempt (StreamConn.v, Pool.v) are the arguments of the
    attempt; what it tells its lease is part of the result. *)

From stdpp Require Import base numbers list strings.
From S2P Require Import Prelude CoreError Time Name RecordData Header Message Transport StreamConn Pool.

Record AttemptError : Type := mkAttemptError {
  ae_error : Error;
  retry : bool;
}.

Definition final_ (error : Error) : AttemptError := mkAttemptError error false.

(** The wait for the answer, until the read timeout or the call's deadline. *)
Inductive Waited : Type :=
  | WTimeout
  | WDropped
  | WFailed (failure : Failure)
  | WAnswer (answer : Message).

(** What a lease is told before it is dropped. *)
Inductive LeaseNote : Type :=
  | MarkDead
  | NoteTimeout
  | Complete.

(** What one attempt meets: the lease, the submission, the wait; and, when a
    failure is reported, whether the connection had answered and whether it is
    dead. *)
Record Attempt : Type := mkAttempt {
  at_lease : Result Error unit;
  at_submit : Result Failure (Z * Z);
  at_waited : Waited;
  at_answered : bool;
  at_dead : bool;
}.

Definition with_id (m : Message) (i : Z) : Message :=
  let h := header m in
  mkMessage (mkHeader i (qr h) (opcode h) (authoritative h) (truncated h) (recursion_desired h)
               (recursion_available h) (rcode h))
    (questions m) (answers m) (authorities m) (additionals m).

Definition connection_failed (a : Attempt) (query : Message) (failure : Failure) :
    Result AttemptError Message * list LeaseNote :=
  (Err (mkAttemptError (f_error failure)
          (connection_level failure && at_answered a && match opcode (header query) with Query => true | _ => false end)),
   if connection_level failure || at_dead a then [MarkDead] else []).

Definition attempt (a : Attempt) (query : Message) : Result AttemptError Message * list LeaseNote :=
  match at_lease a with
  | Err e => (Err (final_ e), [])
  | Ok _ =>
      match at_submit a with
      | Err failure => connection_failed a query failure
      | Ok _ =>
          match at_waited a with
          | WTimeout => (Err (final_ Timeout), [NoteTimeout])
          | WDropped => connection_failed a query (failure_closed "upstream connection was closed")
          | WFailed failure => connection_failed a query failure
          | WAnswer answer =>
              match validate_response query answer Ignore with
              | Err e => (Err (final_ e), [])
              | Ok _ => (Ok (with_id answer (id (header query))), [Complete])
              end
          end
      end
  end.

(** The loop of [query]: [world fresh] is what an attempt meets on a pooled or
    a fresh connection, [late] whether the deadline has passed after the first
    one. The log says which attempts were made. *)
Fixpoint query_loop (fuel : nat) (world : bool → Attempt) (late : bool) (query : Message) (fresh : bool)
    (log : list bool) : Run Error (Result Error Message * list bool) :=
  match fuel with
  | O => Hang
  | S fuel =>
      let log := log ++ [fresh] in
      match (attempt (world fresh) query).1 with
      | Ok answer => Ret (Ok answer, log)
      | Err failed =>
          if retry failed && negb fresh && negb late then query_loop fuel world late query true log
          else Ret (Err (ae_error failed), log)
      end
  end.

Definition QUERY_FUEL : nat := 2.

Definition stream_query (world : bool → Attempt) (late : bool) (query : Message) :
    Run Error (Result Error Message * list bool) :=
  payload ← lift (encode query);
  if decide (Z.of_nat (length payload) ≤ u16_max)%Z then query_loop QUERY_FUEL world late query false []
  else Throw MessageTooLong.

(** The failures after which a query may be sent again. *)
Definition may_retry (a : Attempt) (query : Message) : Prop :=
  at_lease a = Ok tt ∧ at_answered a = true ∧ opcode (header query) = Query ∧
  ((∃ f, at_submit a = Err f ∧ connection_level f = true) ∨
   ((∃ r, at_submit a = Ok r) ∧
    (at_waited a = WDropped ∨ ∃ f, at_waited a = WFailed f ∧ connection_level f = true))).

Lemma connection_failed_retry a query f :
  (∃ e, (connection_failed a query f).1 = Err e ∧ retry e = true) ↔
  connection_level f = true ∧ at_answered a = true ∧ opcode (header query) = Query.
Proof.
  unfold connection_failed. cbn [fst]. split.
  - intros (e & [= <-] & H). cbn [retry] in H. apply andb_true_iff in H as [[H1 H2]%andb_true_iff H3].
    by destruct (opcode (header query)).
  - intros (H1 & H2 & H3). eexists. split; [done|]. cbn [retry]. by rewrite H1, H2, H3.
Qed.

Lemma attempt_retry a query :
  (∃ e, (attempt a query).1 = Err e ∧ retry e = true) ↔ may_retry a query.
Proof.
  unfold attempt, may_retry. destruct (at_lease a) as [[]|e]; [|cbn; naive_solver].
  destruct (at_submit a) as [r|f].
  2:{ rewrite connection_failed_retry. naive_solver. }
  destruct (at_waited a) as [| |f|m].
  - cbn [fst]. naive_solver.
  - rewrite connection_failed_retry. cbn [failure_closed connection_level]. naive_solver.
  - rewrite connection_failed_retry. naive_solver.
  - destruct (validate_response query m Ignore) as [[]|e]; cbn [fst]; naive_solver.
Qed.

Lemma attempt_ok a query m :
  (attempt a query).1 = Ok m ↔
  at_lease a = Ok tt ∧ (∃ r, at_submit a = Ok r) ∧
  ∃ answer, at_waited a = WAnswer answer ∧ answers_query Ignore query answer ∧ m = with_id answer (id (header query)).
Proof.
  unfold attempt. destruct (at_lease a) as [[]|e]; [|cbn; naive_solver].
  destruct (at_submit a) as [r|f]; [|unfold connection_failed; cbn; naive_solver].
  destruct (at_waited a) as [| |f|x]; [unfold connection_failed; cbn; naive_solver..|].
  destruct (validate_response query x Ignore) as [[]|e] eqn:Ev; cbn [fst].
  - apply validate_response_spec in Ev. naive_solver.
  - split; [done|]. intros (_ & _ & y & [= ->] & Hy%validate_response_spec & _). congruence.
Qed.

Lemma stream_query_outcome world late query payload :
  encode query = Ok payload → (Z.of_nat (length payload) ≤ u16_max)%Z →
  ∃ r log, stream_query world late query = Ret (r, log) ∧
    (log = [false; true] ↔ may_retry (world false) query ∧ late = false) ∧
    (log = [false] ∨ log = [false; true]) ∧
    (let last := world (bool_decide (log = [false; true])) in
     match (attempt last query).1 with Ok m => r = Ok m | Err e => r = Err (ae_error e) end) ∧
    (∀ m, r = Ok m → answers_query Match query m).
Proof.
  intros He Hl. unfold stream_query. rewrite He. cbn [lift mbind run_bind]. rewrite decide_True by done.
  unfold QUERY_FUEL. cbn [query_loop app]. pose proof (attempt_retry (world false) query) as Hr.
  assert (Hok : ∀ b m, (attempt (world b) query).1 = Ok m → answers_query Match query m).
  { intros b m (_ & _ & x & _ & [] & ->)%attempt_ok. by split. }
  destruct (attempt (world false) query).1 as [m|e] eqn:E1.
  { eexists _, _. split; [done|]. rewrite bool_decide_eq_false_2 by done. cbn zeta. rewrite E1.
    split; [naive_solver|]. split; [by left|]. split; [done|]. intros ? [= <-]. by eapply Hok. }
  destruct (retry e && negb false && negb late) eqn:Eb.
  - apply andb_true_iff in Eb as [[Eb _]%andb_true_iff Hlate]. destruct late; [done|].
    destruct (attempt (world true) query).1 as [m|e2] eqn:E2; [|rewrite andb_false_r; cbn [andb]];
      (eexists _, _; split; [done|]; rewrite bool_decide_eq_true_2 by done; cbn zeta; rewrite E2;
       split; [naive_solver|]; split; [by right|]; split; [done|]).
    + intros ? [= <-]. by eapply Hok.
    + done.
  - eexists _, _. split; [done|]. rewrite bool_decide_eq_false_2 by done. cbn zeta. rewrite E1.
    split; [|split; [by left|done]]. split; [done|]. intros [(e' & [= <-] & He')%Hr ->].
    by rewrite He' in Eb.
Qed.

(** A pooled query always returns, after at most two attempts. The second one
    is on a fresh connection and is made exactly when the first failed at
    connection level on a connection that had answered before, the opcode is
    [Query] and the deadline has not passed; a timeout, a mismatch or an
    undecodable answer is never retried. An answer that is returned answers the
    query's question and carries the caller's id. *)
Theorem stream_query_retries world late query payload :
  encode query = Ok payload → (Z.of_nat (length payload) ≤ u16_max)%Z →
  ∃ r log, stream_query world late query = Ret (r, log) ∧
    (log = [false; true] ↔ may_retry (world false) query ∧ late = false) ∧
    (log = [false] ∨ log = [false; true]) ∧
    (let last := world (bool_decide (log = [false; true])) in
     match (attempt last query).1 with Ok m => r = Ok m | Err e => r = Err (ae_error e) end) ∧
    (∀ m, r = Ok m → answers_query Match query m).
Proof. apply stream_query_outcome. Qed.

(** ** The TCP backend *)

Record TcpBackendConfig : Type := mkTcpConfig {
  tcp_server : SocketAddr;
  tcp_connect_timeout : Z;
  tcp_read_timeout : Z;
}.

(** The pool's configuration, read timeout and call budget, when reuse is on. *)
Record TcpBackend : Type := mkTcpBackend {
  tcp_config : TcpBackendConfig;
  tcp_pool : option (PoolConfig * Z * Z);
}.

(** [Duration::saturating_add] and [saturating_mul] *)
Definition duration_add (a b : Z) : Z := Z.min duration_max (a + b).
Definition duration_mul (a k : Z) : Z := Z.min duration_max (a * k).

Definition with_pool (b : TcpBackend) (pool : PoolConfig) : TcpBackend :=
  let c := tcp_config b in
  let read := tcp_read_timeout c in
  mkTcpBackend c
    (if enabled pool then Some (pool, read, duration_add (tcp_connect_timeout c) (duration_mul read 2)) else None).

Definition tcp_new (c : TcpBackendConfig) : TcpBackend := with_pool (mkTcpBackend c None) pool_config_new.

Definition tcp_resolve (connected : SocketAddr → Result Error Stream) (world : bool → Attempt) (late : bool)
    (b : TcpBackend) (query : Message) : Run Error Message :=
  match tcp_pool b with
  | Some _ => '(r, _) ← stream_query world late query; lift r
  | None => tcp_query (connected (tcp_server (tcp_config b))) query
  end.

(** With or without connection reuse, what the backend returns answers the
    query under the caller's id. *)
Lemma tcp_resolve_answers connected world late b query m :
  tcp_resolve connected world late b query = Ret m → answers_query Match query m.
Proof.
  unfold tcp_resolve. destruct (tcp_pool b) as [p|]; intros H.
  - apply run_bind_ret in H as ([r log] & E & H). unfold stream_query in E. apply run_bind_ret in E as (payload & Ep & E).
    case_decide as Hl; [|done]. destruct (encode query) as [x|e] eqn:Ee; [|done]. injection Ep as ->.
    destruct (stream_query_outcome world late query payload Ee Hl) as (r' & log' & E' & _ & _ & _ & Hm).
    unfold stream_query in E'. rewrite Ee in E'. cbn [lift mbind run_bind] in E'. rewrite decide_True in E' by done.
    rewrite E in E'. apply ret_pair_inj in E' as [<- _]. apply Hm. destruct r; [by injection H as ->|done].
  - unfold tcp_query in H. apply run_bind_ret in H as (s & _ & H). apply run_bind_ret in H as ([r s'] & E & H).
    injection H as ->. by eapply framed_query_answers.
Qed.

(** The pooled connection was stale; the fresh one answers. *)
Definition example_stream_world (fresh : bool) : Attempt :=
  if fresh
  then mkAttempt (Ok tt) (Ok (5, 0)%Z) (WAnswer (with_id example_reply 5)) false false
  else mkAttempt (Ok tt) (Ok (7, 3)%Z) WDropped true true.

Lemma stream_query_retries_witness :
  stream_query example_stream_world false example_query = Ret (Ok example_reply, [false; true]).
Proof.
  destruct (stream_query_retries example_stream_world false example_query (encoded example_query))
    as (r & log & E & Hlog & _ & Hr & _); [vm_compute; reflexivity|vm_compute; discriminate|].
  assert (log = [false; true]) as ->.
  { apply Hlog. split; [|reflexivity]. split; [reflexivity|]. split; [reflexivity|]. split; [reflexivity|].
    right. split; [by exists (7, 3)%Z|by left]. }
  rewrite E. cbn zeta in Hr. rewrite bool_decide_eq_true_2 in Hr by reflexivity.
  assert (Ha : (attempt (example_stream_world true) example_query).1 = Ok example_reply) by (vm_compute; reflexivity).
  rewrite Ha in Hr. by rewrite Hr.
Defined.
