(* ===== verification/StreamLink.v ===== *)
(** * The writer of a stream connection

    Models the rest of a connection of [crates/dns-lattice/src/upstream/stream.rs]:
    the bounded channel to the writer task and [run_writer], around the shared
    state of StreamConn.v. The channel holds what the callers queued and the
    writer has not taken; whether a caller finds room in it is no longer an
    argument. Proved: what goes over the wire is what was queued, in order, and
    the channel keeps its bound. *)

From stdpp Require Import base numbers list gmap strings.
From S2P Require Import Prelude CoreError Time Name Header RecordData Message Transport Pending StreamConn.

(** Most frames of one write. *)
Definition WRITE_BATCH : nat := 64.

Inductive Writer : Type :=
  | Receiving
  | Writing (out : list Z)
  | Returned.

(** A connection with its channel and its writer: [taken] is the number of
    queued frames the writer received, [wire_out] what it wrote. *)
Record Link : Type := mkLink {
  l_conn : Conn;
  channel : nat;
  taken : nat;
  writer : Writer;
  wire_out : list Z;
}.

Definition with_conn (l : Link) (c : Conn) : Link := mkLink c (channel l) (taken l) (writer l) (wire_out l).

(** [StreamConn::spawn]: the channel has at least one place. *)
Definition link_spawn (max_in_flight : nat) (read_timeout start : Z) : Link :=
  mkLink (spawn max_in_flight read_timeout start) (Nat.max max_in_flight 1) 0 Receiving [].

(** The frames in the channel. *)
Definition in_channel (l : Link) : list (list Z) := drop (taken l) (queued (l_conn l)).

(** [frames.try_send] succeeds. *)
Definition has_room (l : Link) : bool :=
  match writer l with Returned => false | _ => bool_decide (length (in_channel l) < channel l) end.

Definition link_submit (l : Link) (payload : list Z) (now : Z) : Run Error (Result Failure (Z * Z) * Link) :=
  '(r, c) ← submit (l_conn l) payload now (has_room l);
  Ret (r, with_conn l c).

(** [queue.recv_many], when frames are there, and the batch made of them. *)
Definition writer_receive (l : Link) : option Link :=
  match writer l, firstn WRITE_BATCH (in_channel l) with
  | Receiving, (_ :: _) as batch =>
      Some (mkLink (l_conn l) (channel l) (taken l + length batch) (Writing (concat batch)) (wire_out l))
  | _, _ => None
  end.

(** How a write ends: the bytes of a failed one that still got out. *)
Inductive WriteEnd : Type :=
  | Written
  | WriteFailed (error : option string) (sent : nat).

Definition writer_write (l : Link) (e : WriteEnd) : option Link :=
  match writer l with
  | Writing out =>
      Some match e with
           | Written => mkLink (l_conn l) (channel l) (taken l) Receiving (wire_out l ++ out)
           | WriteFailed error sent =>
               mkLink (writer_failed (l_conn l) error) (channel l) (taken l) Returned (wire_out l ++ firstn sent out)
           end
  | _ => None
  end.

(** The other branch of its [select]: the connection was closed. *)
Definition writer_stop (l : Link) : option Link :=
  match writer l with
  | Receiving => if closed (l_conn l) then Some (mkLink (l_conn l) (channel l) (taken l) Returned (wire_out l)) else None
  | _ => None
  end.

(** [StreamConn::shutdown] also aborts the writer, in the middle of a write or
    not. *)
Definition link_shutdown (l : Link) (sent : nat) : Link :=
  mkLink (shutdown (l_conn l)) (channel l) (taken l) Returned
    (wire_out l ++ match writer l with Writing out => firstn sent out | _ => [] end).

(** ** What the parts of a connection do *)

(** Steps of the connection's own tasks: the reader's, the writer's, and its
    end. *)
Inductive link_move : Link → Link → Prop :=
  | lm_frame l frame alive c' : dispatch (l_conn l) frame = Ret (alive, c') → link_move l (with_conn l c')
  | lm_end l (peer : bool) reason :
      link_move l (with_conn l (fail (if peer then set_peer_closed (l_conn l) else l_conn l) (failure_closed reason)))
  | lm_receive l l' : writer_receive l = Some l' → link_move l l'
  | lm_write l e l' : writer_write l e = Some l' → link_move l l'
  | lm_stop l l' : writer_stop l = Some l' → link_move l l'
  | lm_shutdown l sent : link_move l (link_shutdown l sent).

Definition link_drop (l : Link) (wire s now : Z) : Link := with_conn l (guard_drop (l_conn l) wire s now).2.

(** What [query] hands on: a message that fits its length prefix. *)
Definition payload_ok (payload : list Z) : Prop := 2 ≤ length payload ∧ (Z.of_nat (length payload) ≤ u16_max)%Z.

(** A connection with what it accepted, newest first: serial number, wire id
    and payload. *)
Notation Accepted := (Z * Z * list Z)%type.
Notation LinkRun := (Link * list Accepted)%type.

Definition accepted_now (r : Result Failure (Z * Z)) (payload : list Z) : list Accepted :=
  match r with Ok (wire, s) => [(s, wire, payload)] | Err _ => [] end.

(** The frame of an accepted query: the payload behind its length, with the wire
    id in the place of its own. *)
Definition accepted_frame (a : Accepted) : list Z := frame (to_be 2 a.1.2 ++ drop 2 a.2).

Inductive link_step : LinkRun → LinkRun → Prop :=
  | ls_submit l issued payload now r l' :
      (next_serial (l_conn l) < u64_max)%Z → payload_ok payload → link_submit l payload now = Ret (r, l') →
      link_step (l, issued) (l', accepted_now r payload ++ issued)
  | ls_drop l issued wire s now : link_step (l, issued) (link_drop l wire s now, issued)
  | ls_move l issued l' : link_move l l' → link_step (l, issued) (l', issued).

(** ** Only a submission queues a frame *)

Lemma fail_queued c f : queued (fail c f) = queued c.
Proof. unfold fail. destruct (closed c); [done|]. by destruct (drain_pending (table c)). Qed.

Lemma guard_drop_queued c wire s now : queued (guard_drop c wire s now).2 = queued c.
Proof. unfold guard_drop. by destruct (orphan_if _ _ _ _) as [[w|] t]. Qed.

Lemma dispatch_queued c frame alive c' : dispatch c frame = Ret (alive, c') → queued c' = queued c.
Proof.
  unfold dispatch. destruct frame as [|b0 [|b1 rest]]; [intros [_ <-]%ret_pair_inj; apply fail_queued..|].
  destruct (Pending.take _ _) as [[w| |] t]; [destruct (decode _); try done|..|case_decide];
    intros [_ <-]%ret_pair_inj; by rewrite ?fail_queued.
Qed.

Lemma submit_queued c payload now room r c' :
  submit c payload now room = Ret (r, c') →
  match r with
  | Ok (wire, _) => room = true ∧ queued c' = queued c ++ [build_frame payload wire]
  | Err _ => queued c' = queued c
  end.
Proof.
  unfold submit. destruct (closed _); [by intros [<- <-]%ret_pair_inj|].
  intros E. apply run_bind_ret in E as ([[wire|v] t] & _ & E); [destruct room|];
    apply ret_pair_inj in E as [<- <-]; by rewrite ?fail_queued.
Qed.

(** ** The invariant of the writer *)

(** [a] is the start of [b]. *)
Definition starts (a b : list Z) : Prop := ∃ rest, b = a ++ rest.

Record link_inv (l : Link) (issued : list Accepted) : Prop := {
  ln_taken : taken l ≤ length (queued (l_conn l));
  ln_channel : length (in_channel l) ≤ channel l;
  ln_wire : let received := concat (firstn (taken l) (queued (l_conn l))) in
    match writer l with
    | Receiving => wire_out l = received
    | Writing out => wire_out l ++ out = received
    | Returned => starts (wire_out l) received
    end;
  ln_frames : queued (l_conn l) = map accepted_frame (reverse issued);
}.

Lemma length_in_channel l : length (in_channel l) = length (queued (l_conn l)) - taken l.
Proof. apply length_drop. Qed.

Lemma starts_app a b c : starts a b → starts a (b ++ c).
Proof. intros [rest ->]. exists (rest ++ c). by rewrite app_assoc. Qed.

(** A step that leaves the queue, the channel and the writer alone. *)
Lemma link_inv_conn l issued c : queued c = queued (l_conn l) → link_inv l issued → link_inv (with_conn l c) issued.
Proof. intros E []. unfold in_channel in *. split; unfold in_channel; cbn [with_conn l_conn taken channel writer wire_out]; by rewrite ?E. Qed.

Lemma build_frame_accepted payload wire s :
  payload_ok payload → build_frame payload wire = accepted_frame (s, wire, payload).
Proof.
  intros [Hl Hf]. unfold build_frame, accepted_frame, frame. cbn [fst snd]. rewrite Z.mod_small by lia.
  destruct payload as [|b0 [|b1 payload]]; cbn [length] in Hl; try lia.
  pose proof (length_to_be 2 (Z.of_nat (length (b0 :: b1 :: payload)))) as Hn.
  change (drop 2 (b0 :: b1 :: payload)) with payload.
  rewrite (length_app (to_be 2 wire) payload), length_to_be.
  change (2 + length payload) with (length (b0 :: b1 :: payload)).
  destruct (to_be 2 (Z.of_nat _)) as [|n0 [|n1 [|n2 ?]]]; try discriminate Hn. cbn [app length firstn drop].
  rewrite decide_True by lia. done.
Qed.

Lemma link_inv_push l issued wire s c payload :
  payload_ok payload → has_room l = true → queued c = queued (l_conn l) ++ [build_frame payload wire] →
  link_inv l issued → link_inv (with_conn l c) ((s, wire, payload) :: issued).
Proof.
  intros Hp Hr E []. rewrite (build_frame_accepted _ _ s Hp) in E. unfold has_room in Hr.
  assert (length (in_channel l) < channel l) as Hlt by (destruct (writer l); [..|done]; by apply bool_decide_eq_true in Hr).
  split; cbn [with_conn l_conn taken channel writer wire_out].
  - rewrite E, length_app. lia.
  - unfold in_channel in *. cbn [with_conn l_conn taken]. rewrite E, length_drop, length_app. cbn [length].
    rewrite length_drop in Hlt. lia.
  - rewrite E, take_app_le by lia. done.
  - by rewrite reverse_cons, map_app, E, ln_frames0.
Qed.

Lemma firstn_batch {A} n k (xs : list A) :
  firstn (n + length (firstn k (drop n xs))) xs = firstn n xs ++ firstn k (drop n xs).
Proof.
  rewrite <-take_take_drop. f_equal. generalize (drop n xs). clear. intros xs. revert k.
  induction xs as [|x xs IH]; intros [|k]; try done. cbn [firstn length]. f_equal. apply IH.
Qed.

Lemma writer_receive_inv l l' issued : writer_receive l = Some l' → link_inv l issued → link_inv l' issued.
Proof.
  unfold writer_receive. destruct (writer l) eqn:Ew; try done. destruct (firstn WRITE_BATCH (in_channel l)) as [|f batch] eqn:Eb; [done|].
  intros [= <-] [Ht Hc Hw Hf]. rewrite Ew in Hw. cbv zeta in Hw.
  assert (Hlen : length (f :: batch) ≤ length (queued (l_conn l)) - taken l).
  { rewrite <-length_in_channel, <-Eb, length_take. lia. }
  assert (Htake : firstn (taken l + length (f :: batch)) (queued (l_conn l)) = firstn (taken l) (queued (l_conn l)) ++ f :: batch).
  { rewrite <-Eb. apply firstn_batch. }
  split; cbn [l_conn taken channel writer wire_out].
  - cbn [length] in *. lia.
  - unfold in_channel in *. cbn [l_conn taken]. rewrite length_drop in *. lia.
  - cbn [length] in Htake |- *. rewrite Htake, concat_app, Hw. done.
  - done.
Qed.

Lemma writer_write_inv l e l' issued : writer_write l e = Some l' → link_inv l issued → link_inv l' issued.
Proof.
  unfold writer_write. destruct (writer l) as [|out|] eqn:Ew; try done. intros [= <-] [Ht Hc Hw Hf]. rewrite Ew in Hw.
  destruct e as [|error sent]; [by split|].
  assert (Eq : queued (writer_failed (l_conn l) error) = queued (l_conn l)) by (destruct error; apply fail_queued).
  split; unfold in_channel in *; cbn [l_conn taken channel writer wire_out]; rewrite ?Eq; try done.
  cbv zeta in Hw |- *. rewrite <-Hw. exists (drop sent out). by rewrite <-app_assoc, take_drop.
Qed.

Lemma link_move_inv l l' issued : link_move l l' → link_inv l issued → link_inv l' issued.
Proof.
  intros H. destruct H as [l frame alive c' H|l peer reason|l l' H|l e l' H|l l' H|l sent].
  - apply link_inv_conn. by eapply dispatch_queued.
  - apply link_inv_conn. rewrite fail_queued. by destruct peer.
  - by apply writer_receive_inv.
  - by eapply writer_write_inv.
  - unfold writer_stop in H. destruct (writer l) eqn:Ew; try done. destruct (closed _); [|done]. injection H as <-.
    intros [Ht Hc Hw Hf]. rewrite Ew in Hw. split; try done. exists []. by rewrite app_nil_r.
  - intros [Ht Hc Hw Hf]. assert (Eq : queued (shutdown (l_conn l)) = queued (l_conn l)) by apply fail_queued.
    unfold link_shutdown. split; unfold in_channel in *; cbn [l_conn taken channel writer wire_out]; rewrite ?Eq; try done.
    cbv zeta in Hw |- *. destruct (writer l) as [|out|].
    + rewrite app_nil_r, Hw. exists []. by rewrite app_nil_r.
    + rewrite <-Hw. exists (drop sent out). by rewrite <-app_assoc, take_drop.
    + by rewrite app_nil_r.
Qed.

Lemma link_submit_inv l payload now r l' issued :
  payload_ok payload → link_submit l payload now = Ret (r, l') → link_inv l issued →
  link_inv l' (accepted_now r payload ++ issued).
Proof.
  unfold link_submit. intros Hp H Hi. apply run_bind_ret in H as ([r' c] & H & E). injection E as <- <-.
  apply submit_queued in H. destruct r' as [[wire s]|f]; cbn [accepted_now app].
  - destruct H as [Hr Hq]. by eapply link_inv_push.
  - by apply link_inv_conn.
Qed.

Lemma link_step_inv x y : link_step x y → link_inv x.1 x.2 → link_inv y.1 y.2.
Proof.
  intros H. destruct H; cbn [fst snd].
  - by eapply link_submit_inv.
  - apply link_inv_conn, guard_drop_queued.
  - by apply link_move_inv.
Qed.

Lemma link_step_channel x y : link_step x y → channel y.1 = channel x.1.
Proof.
  destruct 1 as [l issued payload now r l' _ _ H|l issued wire s now|l issued l' H]; cbn [fst]; [|done|].
  - unfold link_submit in H. by apply run_bind_ret in H as ([? ?] & _ & [= _ <-]).
  - destruct H as [| |l l' H|l e l' H|l l' H|]; try done.
    + unfold writer_receive in H. destruct (writer l); try done. destruct (firstn _ _); [done|]. by injection H as <-.
    + unfold writer_write in H. destruct (writer l); try done. injection H as <-. by destruct e.
    + unfold writer_stop in H. destruct (writer l); try done. destruct (closed _); [|done]. by injection H as <-.
Qed.

Lemma link_spawn_inv n ttl start : link_inv (link_spawn n ttl start) [].
Proof. split; cbn; try done; try lia. Qed.

(** C31: What a connection writes is what it accepted, in that order. However
    submissions, cancellations, frames, failures and the writer's turns interleave,
    the bytes on the wire are a prefix of the accepted queries' frames, each the
    payload behind its length with only its id replaced by the wire id the
    connection gave it; between two writes of a running writer they are whole
    frames; and the channel never holds more than [max_in_flight] of them. *)
Theorem writer_in_order n ttl start l issued :
  rtc link_step (link_spawn n ttl start, []) (l, issued) →
  starts (wire_out l) (concat (map accepted_frame (reverse issued))) ∧
  (writer l = Receiving → wire_out l = concat (map accepted_frame (firstn (taken l) (reverse issued)))) ∧
  length (in_channel l) ≤ Nat.max n 1.
Proof.
  intros Hr.
  assert (H : link_inv l issued ∧ channel l = Nat.max n 1).
  { change (link_inv (l, issued).1 (l, issued).2 ∧ channel (l, issued).1 = Nat.max n 1).
    refine (rtc_ind_r (λ y, link_inv y.1 y.2 ∧ channel y.1 = _) _ _ _ _ Hr); [split; [apply link_spawn_inv|done]|].
    intros y z _ Hyz [Hy Hc]. split; [by eapply link_step_inv|]. rewrite <-Hc. by eapply link_step_channel. }
  destruct H as [[Ht Hc Hw Hf] <-]. split; [|split; [|done]].
  - assert (Hs : starts (wire_out l) (concat (firstn (taken l) (queued (l_conn l))))).
    { cbv zeta in Hw. destruct (writer l); [exists []; by rewrite app_nil_r|by eexists|done]. }
    rewrite <-Hf, <-(firstn_skipn (taken l) (queued (l_conn l))), concat_app. by apply starts_app.
  - intros Ew. cbv zeta in Hw. rewrite Ew in Hw. rewrite Hw, Hf, firstn_map. done.
Qed.

Definition example_link : Link := link_spawn 2 10 5.
Definition example_payload : list Z := [9; 9; 1; 2]%Z.

(** One query submitted and written. *)
Definition example_written : option Link :=
  match link_submit example_link example_payload 0 with
  | Ret (Ok _, l) => l ← writer_receive l; writer_write l Written
  | _ => None
  end.

Lemma writer_in_order_witness :
  ∃ l, example_written = Some l ∧ wire_out l = [0; 4; 0; 5; 1; 2]%Z ∧
    starts (wire_out l) (concat (map accepted_frame (reverse [(0, 5, example_payload)%Z]))).
Proof.
  destruct (link_submit example_link example_payload 0) as [[[[w s]|f] l1]| | |] eqn:E1; try (vm_compute in E1; discriminate E1).
  assert (w = 5%Z ∧ s = 0%Z) as [-> ->] by (vm_compute in E1; injection E1 as <- <- _; split; reflexivity).
  destruct (writer_receive l1) as [l2|] eqn:E2;
    [|exfalso; vm_compute in E1; injection E1 as <-; vm_compute in E2; discriminate E2].
  destruct (writer_write l2 Written) as [l3|] eqn:E3;
    [|exfalso; vm_compute in E1; injection E1 as <-; vm_compute in E2; injection E2 as <-; vm_compute in E3; discriminate E3].
  exists l3. assert (Hr : rtc link_step (example_link, []) (l3, [(0, 5, example_payload)%Z])).
  { eapply rtc_l.
    - refine (ls_submit example_link [] example_payload 0 (Ok (5, 0)%Z) l1 _ _ E1); [vm_compute; reflexivity|].
      split; [apply Nat.leb_le; vm_compute; reflexivity|vm_compute; discriminate].
    - eapply rtc_l; [exact (ls_move _ _ _ (lm_receive _ _ E2))|]. apply rtc_once.
      exact (ls_move _ _ _ (lm_write _ _ _ E3)). }
  split; [unfold example_written; rewrite E1; cbn [mbind option_bind]; rewrite E2; exact E3|].
  split; [|exact (proj1 (writer_in_order 2 10 5 l3 _ Hr))].
  assert (Ht : taken l3 = 1 ∧ writer l3 = Receiving).
  { clear Hr. vm_compute in E1; injection E1 as <-. vm_compute in E2; injection E2 as <-.
    vm_compute in E3; injection E3 as <-. split; reflexivity. }
  rewrite (proj1 (proj2 (writer_in_order 2 10 5 l3 _ Hr)) (proj2 Ht)), (proj1 Ht). reflexivity.
Defined.
