(* ===== verification/PooledQuery.v ===== *)
(** * Pooled queries: the pool, its connections and the calls in one state

    Models what [StreamPool::query] does once it holds a lease
    ([crates/dns-lattice/src/upstream/stream.rs], [attempt]) over one state that
    holds the pool with its callers (PoolAcquire.v), every connection the pool
    opened with its reader and writer (StreamLink.v), and the calls: an attempt's
    submission, its answer, timeout or cancellation, what it tells its lease, and
    the order in which its guard and its lease are dropped. Connections are
    numbered in the order the pool opened them. Whether a connection looks alive
    to the pool, and when one ends, is left open. *)

From stdpp Require Import base numbers list gmap strings.
From S2P Require Import Prelude CoreError Time Name Header RecordData Message Transport Pending StreamConn Pool PoolInv PoolLife PoolAcquire StreamQuery StreamLink.

(** A key that occurs once names one element. *)
Lemma nodup_map_inj {A B} (f : A → B) (xs : list A) x y :
  NoDup (map f xs) → x ∈ xs → y ∈ xs → f x = f y → x = y.
Proof.
  induction xs as [|z xs IH]; cbn [map]; [by intros _ ?%not_elem_of_nil|].
  intros [Hz Hn]%NoDup_cons [->|Hx]%elem_of_cons [->|Hy]%elem_of_cons E; [done| | |auto].
  - destruct Hz. rewrite E. by apply list_elem_of_fmap_2.
  - destruct Hz. rewrite <-E. by apply list_elem_of_fmap_2.
Qed.

(** ** The capacity of a table is fixed *)

Section capacity.
Context {T : Type}.
Implicit Types (t : PendingTable T).

Lemma register_capacity t v now r t' : register t v now = Ret (r, t') → Pending.capacity t' = Pending.capacity t.
Proof.
  unfold register. cbn zeta. set (t1 := Pending.sweep t now).
  assert (Pending.capacity t1 = Pending.capacity t) as H1.
  { unfold t1, Pending.sweep. by destruct (Pending.sweep_loop _ _ _). }
  assert (∀ b t2, (if decide (Pending.capacity t1 ≤ size (slots t1)) then evict_oldest_tombstone t1 else (true, t1)) = (b, t2) →
    Pending.capacity t2 = Pending.capacity t) as H2.
  { intros b t2. case_decide; [|by intros [= _ <-]]. unfold evict_oldest_tombstone.
    destruct (evict_loop _ _) as [[s|] ts]; by intros [= _ <-]. }
  destruct (if decide _ then _ else _) as [room t2] eqn:E0. pose proof (H2 _ _ eq_refl) as E. destruct (negb room).
  - by intros [_ <-]%ret_pair_inj.
  - intros H. apply run_bind_ret in H as ([i next] & _ & [_ <-]%ret_pair_inj). exact E.
Qed.

Lemma take_capacity t i : Pending.capacity (Pending.take t i).2 = Pending.capacity t.
Proof. unfold Pending.take. by destruct (slots t !! i) as [[]|]. Qed.

Lemma orphan_capacity t i now owned : Pending.capacity (orphan_if t i now owned).2 = Pending.capacity t.
Proof. unfold orphan_if. destruct (slots t !! i) as [[v|]|]; [by destruct (owned v)|done..]. Qed.

Lemma drain_capacity t : Pending.capacity (drain_pending t).2 = Pending.capacity t.
Proof. done. Qed.
End capacity.

(** ** What a step of a connection keeps *)

(** The outcomes a connection gave only grow, and its capacity stays. *)
Definition grows (c c' : Conn) : Prop :=
  (∃ more, settled c' = settled c ++ more) ∧ Pending.capacity (table c') = Pending.capacity (table c).

#[export] Instance grows_refl : Reflexive grows.
Proof. intros c. split; [exists []; by rewrite app_nil_r|done]. Qed.
#[export] Instance grows_trans : Transitive grows.
Proof. intros c1 c2 c3 [[m1 H1] K1] [[m2 H2] K2]. split; [exists (m1 ++ m2); by rewrite H2, H1, app_assoc|congruence]. Qed.

Lemma grows_same c c' : settled c' = settled c → Pending.capacity (table c') = Pending.capacity (table c) → grows c c'.
Proof. intros H K. split; [exists []; by rewrite app_nil_r|done]. Qed.

Lemma grows_fail c f : grows c (fail c f).
Proof.
  unfold fail. destruct (closed c); [done|]. pose proof (drain_capacity (table c)) as H.
  destruct (drain_pending (table c)) as [ws t]. split; [by eexists|exact H].
Qed.

Lemma grows_drop c wire s now : grows c (guard_drop c wire s now).2.
Proof.
  unfold guard_drop. pose proof (orphan_capacity (table c) wire now (λ w, bool_decide (serial w = s))) as H.
  destruct (orphan_if _ _ _ _) as [[w|] t]; by apply grows_same.
Qed.

Lemma grows_dispatch c frame alive c' : dispatch c frame = Ret (alive, c') → grows c c'.
Proof.
  unfold dispatch. destruct frame as [|b0 [|b1 rest]]; [intros [_ <-]%ret_pair_inj; apply grows_fail..|].
  pose proof (take_capacity (table c) (from_be [b0; b1])) as Ht. destruct (Pending.take _ _) as [[w| |] t]; cbn [snd] in Ht.
  - destruct (decode _); try done; intros [_ <-]%ret_pair_inj.
    + split; [by eexists|exact Ht].
    + etrans; [|apply grows_fail]. split; [by eexists|exact Ht].
  - intros [_ <-]%ret_pair_inj. by apply grows_same.
  - case_decide; intros [_ <-]%ret_pair_inj; [etrans; [|apply grows_fail]|]; by apply grows_same.
Qed.

Lemma grows_submit c payload now room r c' : submit c payload now room = Ret (r, c') → grows c c'.
Proof.
  unfold submit. destruct (closed _); [intros [_ <-]%ret_pair_inj; by apply grows_same|].
  intros E. apply run_bind_ret in E as ([[wire|v] t] & H%register_capacity & E); [destruct room|];
    apply ret_pair_inj in E as [_ <-].
  - by apply grows_same.
  - etrans; [|apply grows_fail]. apply grows_same; [done|]. cbn [set_table table]. by rewrite take_capacity.
  - by apply grows_same.
Qed.

(** The connection's own steps are steps of StreamConn.v. *)
Lemma link_move_conn l l' issued cancelled :
  link_move l l' → conn_inv (l_conn l) issued cancelled →
  conn_inv (l_conn l') issued cancelled ∧ grows (l_conn l) (l_conn l').
Proof.
  intros H Hi. destruct H as [l frame alive c' H|l peer reason|l l' H|l e l' H|l l' H|l sent]; cbn [with_conn l_conn].
  - split; [by eapply dispatch_inv|by eapply grows_dispatch].
  - split; [apply fail_inv; destruct peer; [by eapply conn_inv_ext; [..|exact Hi]|done]|].
    etrans; [|apply grows_fail]. by destruct peer; [apply grows_same|].
  - unfold writer_receive in H. destruct (writer l); try done. destruct (firstn _ _); [done|]. by injection H as <-.
  - unfold writer_write in H. destruct (writer l); try done. injection H as <-. destruct e as [|[text|] sent]; cbn [l_conn]; [done|..];
      (split; [by apply fail_inv|apply grows_fail]).
  - unfold writer_stop in H. destruct (writer l); try done. destruct (closed _); [|done]. by injection H as <-.
  - split; [by apply fail_inv|apply grows_fail].
Qed.

(** ** A connection and the queries its calls wait for *)

(** [sent] are the serial numbers and wire ids of the calls that hold an armed
    guard on the connection: each was given out and not taken back, and nobody
    else waits in the table. *)
Definition conn_calls (c : Conn) (sent : list (Z * Z)) : Prop :=
  ∃ issued cancelled, conn_inv c issued cancelled ∧ sent ⊆ issued ∧
    (∀ x, x ∈ sent → x.1 ∉ cancelled) ∧ NoDup (map fst sent) ∧
    (∀ wire w, waiters (table c) !! wire = Some w → (serial w, wire) ∈ sent).

#[export] Instance conn_calls_proper c : Proper ((≡ₚ) ==> iff) (conn_calls c).
Proof.
  assert (∀ s1 s2, s1 ≡ₚ s2 → conn_calls c s1 → conn_calls c s2) as H.
  { intros s1 s2 Hp (iss & cn & Hi & Hs & Hc & Hn & Hw). exists iss, cn. split; [done|]. setoid_rewrite <-Hp. done. }
  intros s1 s2 Hp. split; apply H; by rewrite Hp.
Qed.

Lemma waiter_serial c wire w : waiters (table c) !! wire = Some w → serial w ∈ map serial (values (waiters (table c))).
Proof.
  intros H. apply list_elem_of_fmap. exists w. split; [done|]. unfold values. apply list_elem_of_fmap.
  exists (wire, w). split; [done|]. by apply elem_of_map_to_list.
Qed.

Lemma issued_wire c issued cancelled s w1 w2 :
  conn_inv c issued cancelled → (s, w1) ∈ issued → (s, w2) ∈ issued → w1 = w2.
Proof.
  intros Hi H1 H2. by injection (nodup_map_inj fst issued _ _ (ci_nodup _ _ _ Hi) H1 H2 eq_refl).
Qed.

(** Settled, cancelled and waiting queries are different ones. *)
Lemma conn_inv_disjoint c issued cancelled wire w :
  conn_inv c issued cancelled → waiters (table c) !! wire = Some w →
  (serial w ∉ map fst (settled c)) ∧ (serial w ∉ cancelled).
Proof.
  intros Hi Hw. pose proof (ci_nodup _ _ _ Hi) as Hn. rewrite (ci_once _ _ _ Hi) in Hn. apply NoDup_app in Hn as (_ & Hd & Hn).
  apply NoDup_app in Hn as (_ & Hd2 & _). apply waiter_serial in Hw. split; intros Hin.
  - eapply (Hd _ Hin). apply elem_of_app. by right.
  - by eapply Hd2.
Qed.

(** A query that waits after some steps was accepted in them or waited before,
    under the same id. *)
Lemma waiters_step c c' issued cancelled new more wire w :
  conn_inv c issued cancelled → conn_inv c' (new ++ issued) (more ++ cancelled) → grows c c' →
  waiters (table c') !! wire = Some w →
  (serial w, wire) ∈ new ∨ waiters (table c) !! wire = Some w.
Proof.
  intros H H' [[outs Hout] _] Hw. pose proof (ci_waiters _ _ _ H' _ _ Hw) as [Hin|Hin]%elem_of_app; [by left|right].
  destruct (conn_inv_disjoint _ _ _ _ _ H' Hw) as [Hs Hc].
  assert (serial w ∈ map fst issued) as Hi by (apply list_elem_of_fmap; by exists (serial w, wire)).
  rewrite (ci_once _ _ _ H) in Hi. apply elem_of_app in Hi as [Hi|[Hi|Hi]%elem_of_app].
  - exfalso. apply Hs. rewrite Hout, map_app. apply elem_of_app. by left.
  - exfalso. apply Hc, elem_of_app. by right.
  - apply list_elem_of_fmap in Hi as (v & Ev & Hv). unfold values in Hv.
    apply list_elem_of_fmap in Hv as ([wire' v'] & -> & Hv%elem_of_map_to_list). cbn [snd] in *.
    assert (wire' = wire) as ->.
    { eapply (issued_wire c issued cancelled (serial w)); [done| |done]. rewrite Ev. by apply (ci_waiters _ _ _ H). }
    destruct v', w. cbn in Ev. by subst.
Qed.

Lemma conn_calls_move c c' sent :
  (∀ issued cancelled, conn_inv c issued cancelled → conn_inv c' issued cancelled ∧ grows c c') →
  conn_calls c sent → conn_calls c' sent.
Proof.
  intros Hm (iss & cn & Hi & Hs & Hc & Hn & Hw). destruct (Hm _ _ Hi) as [Hi' Hg]. exists iss, cn.
  split; [done|]. split; [done|]. split; [done|]. split; [done|].
  intros wire w Hw'. destruct (waiters_step c c' iss cn [] [] wire w Hi Hi' Hg Hw') as [[]%not_elem_of_nil|Hw0]; auto.
Qed.

Lemma conn_calls_submit c sent payload now room r c' :
  conn_calls c sent → (next_serial c < u64_max)%Z → submit c payload now room = Ret (r, c') →
  conn_calls c' (match r with Ok (wire, s) => [(s, wire)] | Err _ => [] end ++ sent).
Proof.
  intros (iss & cn & Hi & Hs & Hc & Hn & Hw) Hlt Hsub.
  pose proof (submit_inv _ _ _ _ _ _ _ _ Hi Hlt Hsub) as Hi'. pose proof (grows_submit _ _ _ _ _ _ Hsub) as Hg.
  set (new := match r with Ok (wire, s) => [(s, wire)] | Err _ => [] end) in *.
  assert (Hnew : ∀ x, x ∈ new → x.1 ∉ map fst iss ++ cn).
  { intros x Hx Hin. pose proof (ci_nodup _ _ _ Hi') as Hnd. rewrite map_app in Hnd. apply NoDup_app in Hnd as (_ & Hd & _).
    assert (x.1 ∈ map fst new) as Hxn by (apply list_elem_of_fmap; by exists x). apply (Hd _ Hxn).
    apply elem_of_app in Hin as [|Hin]; [done|]. rewrite (ci_once _ _ _ Hi). rewrite !elem_of_app. auto. }
  exists (new ++ iss), cn. split; [done|]. split; [|split; [|split]].
  - intros x [Hx|Hx]%elem_of_app; apply elem_of_app; [by left|right; by apply Hs].
  - intros x [Hx|Hx]%elem_of_app; [|by apply Hc]. intros Hin. apply (Hnew x Hx), elem_of_app. by right.
  - rewrite map_app. apply NoDup_app. split; [|split; [|done]].
    + unfold new. destruct r as [[wire s]|f]; [apply NoDup_singleton|constructor].
    + intros s (x & -> & Hx)%list_elem_of_fmap (y & E & Hy)%list_elem_of_fmap. apply (Hnew x Hx), elem_of_app. left.
      rewrite E. apply list_elem_of_fmap. exists y. split; [done|by apply Hs].
  - intros wire w Hw'. apply elem_of_app.
    destruct (waiters_step c c' iss cn new [] wire w Hi Hi' Hg Hw') as [Hx|Hw0]; [by left|right; auto].
Qed.

(** Once its outcome is there, a call may forget its guard. *)
Lemma conn_calls_settled c sent s wire r :
  conn_calls c ((s, wire) :: sent) → (s, r) ∈ settled c → conn_calls c sent.
Proof.
  intros (iss & cn & Hi & Hs & Hc & Hn & Hw) Hset. exists iss, cn. cbn [map fst] in Hn. apply NoDup_cons in Hn as [_ Hn].
  split; [done|]. split; [intros x Hx; apply Hs, elem_of_cons; by right|].
  split; [intros x Hx; apply Hc, elem_of_cons; by right|]. split; [done|].
  intros wr w Hwr. destruct (conn_inv_disjoint _ _ _ _ _ Hi Hwr) as [Hd _].
  specialize (Hw _ _ Hwr) as [[= <- <-]|?]%elem_of_cons; [|done].
  exfalso. apply Hd, list_elem_of_fmap. by exists (serial w, r).
Qed.

(** The drop of its guard takes its query out of the table. *)
Lemma conn_calls_drop c sent s wire now :
  conn_calls c ((s, wire) :: sent) → conn_calls (guard_drop c wire s now).2 sent.
Proof.
  intros (iss & cn & Hi & Hs & Hc & Hn & Hw). cbn [map fst] in Hn. apply NoDup_cons in Hn as [Hnew Hn].
  pose proof (guard_drop_inv c wire s now _ _ Hi) as Hi'. pose proof (grows_drop c wire s now) as Hg.
  assert (Hin : (s, wire) ∈ iss) by (apply Hs, list_elem_of_here).
  set (cn' := if (guard_drop c wire s now).1 then s :: cn else cn) in *.
  exists iss, cn'. split; [done|]. split; [intros x Hx; apply Hs, elem_of_cons; by right|]. split; [|split; [done|]].
  - intros x Hx Hin'. assert (x.1 ∉ cn) as Hx' by (apply Hc, elem_of_cons; by right).
    unfold cn' in Hin'. destruct (guard_drop c wire s now).1; [|done]. apply elem_of_cons in Hin' as [E|]; [|done].
    apply Hnew. rewrite <-E. apply list_elem_of_fmap. by exists x.
  - intros wr w Hwr.
    assert (Hw0 : waiters (table c) !! wr = Some w).
    { destruct (waiters_step c (guard_drop c wire s now).2 iss cn [] (if (guard_drop c wire s now).1 then [s] else []) wr w Hi) as [[]%not_elem_of_nil|]; try done.
      unfold cn' in Hi'. by destruct (guard_drop c wire s now).1. }
    pose proof (Hw _ _ Hw0) as [[= E1 E2]|?]%elem_of_cons; [|done]. exfalso. subst s wr.
    destruct (conn_inv_disjoint _ _ _ _ _ Hi' Hwr) as [_ Hd]. revert Hd Hwr. unfold cn', guard_drop.
    pose proof (orphan_run (table c) wire now (λ v, bool_decide (serial v = serial w))) as Ho.
    destruct (orphan_if _ _ _ _) as [[v|] t]; cbn [fst snd set_table table].
    + intros Hd _. apply Hd, list_elem_of_here.
    + intros _ _. destruct Ho as [_ Ho]. specialize (Ho _ Hw0). by apply bool_decide_eq_false in Ho.
Qed.

(** ** Connections keep their entries *)

Section tied.
Context {C : Type}.
Implicit Types (p : Pool C) (es : list (Entry C)).

(** Every entry was there, with the same connection. *)
Definition tied es es' : Prop := ∀ e', e' ∈ es' → ∃ e, e ∈ es ∧ e_id e = e_id e' ∧ conn e = conn e'.

#[export] Instance tied_refl : Reflexive tied.
Proof. intros es e He. by exists e. Qed.
#[export] Instance tied_trans : Transitive tied.
Proof.
  intros es1 es2 es3 H1 H2 e3 (e2 & He2 & I2 & C2)%H2. destruct (H1 e2 He2) as (e1 & He1 & I1 & C1).
  exists e1. split; [done|]. split; congruence.
Qed.

Lemma tied_delete es i : tied es (delete i es).
Proof. intros e He. exists e. split; [|done]. by eapply elem_of_submseteq, sublist_submseteq, sublist_delete. Qed.

Lemma tied_alter es i f : (∀ e : Entry C, e_id (f e) = e_id e ∧ conn (f e) = conn e) → tied es (alter f i es).
Proof.
  intros Hf e' (j & Hj)%list_elem_of_lookup. destruct (decide (j = i)) as [->|Hne].
  - rewrite list_lookup_alter_eq in Hj. destruct (es !! i) as [e|] eqn:E; [|done]. injection Hj as <-.
    exists e. split; [by eapply list_elem_of_lookup_2|]. by destruct (Hf e) as [-> ->].
  - rewrite list_lookup_alter_ne in Hj by done. exists e'. split; [by eapply list_elem_of_lookup_2|done].
Qed.

Lemma tied_retire pc p i reason : tied (entries p) (entries (retire pc p i reason)).
Proof. unfold retire. destruct (entries p !! i); [apply tied_delete|done]. Qed.

Lemma tied_sweep alive pc p now : tied (entries p) (entries (sweep_locked alive pc p now)).
Proof.
  rewrite sweep_locked_swept. cbn [swept set_entries entries]. intros e' He.
  apply list_elem_of_omap in He as (e & He & Hk). exists e. split; [done|]. unfold kept, sweep_entry in Hk.
  repeat case_match; try done; simplify_eq/=; done.
Qed.

Lemma tied_acquire alive pc p now fresh : tied (entries p) (entries (acquire_round alive pc p now fresh).2).
Proof.
  unfold acquire_round. cbn zeta. set (p1 := sweep_locked alive pc p now).
  assert (tied (entries p) (entries p1)) as H1 by apply tied_sweep. destruct (pick p1 now fresh) as [i up|start|]; cbn [snd]; [| |done].
  - set (p2 := if up then start_connect_locked p1 else p1). assert (entries p2 = entries p1) as E by by destruct up.
    destruct (entries p2 !! i) as [e|] eqn:Ei; cbn [snd]; rewrite ?E; [|done]. cbn [set_entries entries].
    etrans; [exact H1|]. rewrite E in *. rewrite <-(list_alter_insert_eq bump_in_flight i e) by done. by apply tied_alter.
  - by destruct start.
Qed.

Lemma tied_drop pc p l now : tied (entries p) (entries (lease_drop pc p l now).2).
Proof.
  unfold lease_drop. destruct (position p _) as [i|]; [|done]. cbn zeta. set (p1 := update _ _ _).
  assert (tied (entries p) (entries p1)) as H1 by (by apply tied_alter).
  destruct (entries p1 !! i) as [e|]; [|done]. case_decide; [|done]. destruct (draining_since e); [|done].
  cbn [snd set_entries entries]. etrans; [exact H1|apply tied_retire].
Qed.

Lemma tied_timeout pc p l : tied (entries p) (entries (note_timeout pc p l).2).
Proof.
  unfold note_timeout. destruct (position p _) as [i|]; [|done]. cbn zeta. cbn [snd]. set (p1 := update _ _ _).
  assert (tied (entries p) (entries p1)) as H1 by (by apply tied_alter).
  destruct (match entries p1 !! i with Some _ => _ | None => _ end); [|done]. etrans; [exact H1|apply tied_retire].
Qed.

(** An operation of the pool, and what it opened. *)
Definition opens (s s' : Life (C:=C)) : Prop :=
  (l_opened s' = l_opened s ∧ tied (entries (l_pool s)) (entries (l_pool s'))) ∨
  ∃ c, l_opened s' = l_opened s ++ [c] ∧
    ∀ e', e' ∈ entries (l_pool s') → (∃ e, e ∈ entries (l_pool s) ∧ e_id e = e_id e' ∧ conn e = conn e') ∨
      (e_id e' = next_entry_id (l_pool s) ∧ conn e' = c).

Lemma act_tied o (s : Life (C:=C)) a :
  l_opened (run_act o s a) = l_opened s ∧ tied (entries (l_pool s)) (entries (l_pool (run_act o s a))).
Proof. destruct (run_act_fields o s a) as (-> & _ & _ & -> & _). done. Qed.

Lemma life_op_opens o (s s' : Life (C:=C)) op : life_op o s op = Some s' → opens s s'.
Proof.
  destruct op; cbn [life_op].
  - intros [= <-]. left. split; [done|apply tied_acquire].
  - intros [= <-]. unfold life_finish, finish_connect. case_decide; [destruct result as [c|err]|destruct result as [c|err]]; cbn [ok].
    + right. exists c. split; [done|]. cbn [publish ensure_janitor_locked l_pool]. intros e' He.
      assert (e' ∈ entries (push_entry (l_pool s) c now)) as He' by (revert He; unfold ensure_janitor_locked; by destruct (janitor _)).
      cbn [push_entry entries] in He'. apply elem_of_app in He' as [He'| ->%list_elem_of_singleton]; [left; by exists e'|by right].
    + left. cbn [l_opened]. by rewrite app_nil_r.
    + right. exists c. split; [done|]. intros e' He. left. by exists e'.
    + left. cbn [l_opened]. by rewrite app_nil_r.
  - intros [= <-]. left. split; [done|]. cbn [after_section l_pool]. unfold lease_complete.
    destruct (position _ _); [by apply tied_alter|done].
  - intros [= <-]. left. split; [done|apply tied_timeout].
  - intros [= <-]. left. split; [done|]. cbn [after_section l_pool]. unfold mark_dead.
    destruct (position _ _); [apply tied_retire|done].
  - pose proof (tied_drop peer_closed (l_pool s) l now) as H. destruct (lease_drop _ _ _ _) as [wake p']. intros [= <-]. by left.
  - intros [= <-]. left. split; [done|apply tied_sweep].
  - intros [= <-]. by left.
  - intros [= <-]. by left.
  - destruct (l_tails s !! i) as [[|a rest]|]; try done. intros [= <-]. left. exact (act_tied o (with_tails s _) a).
  - destruct (l_task s); try done. intros [= <-]. left. unfold run_janitor, janitor_round. cbn zeta.
    pose proof (tied_sweep alive peer_closed (l_pool s) now) as H. destruct (bool_decide _); by split.
  - destruct (l_task s) as [| |[|a acts] d|]; try done; intros [= <-]; left; [done|exact (act_tied o (with_task s _ _) a)].
  - destruct (l_task s); try done. destruct (l_wake s); try done. intros [= <-]. by left.
  - destruct (l_task s) as [| | |[d|]]; try done. case_decide; try done. intros [= <-]. by left.
Qed.
End tied.

Section worlds.
Context {C : Type}.
Implicit Types (w : World (C:=C)).

Lemma acquire_turn_tied o (s s' : Life (C:=C)) deadline now fresh queued alive pc r :
  acquire_turn o s deadline now fresh queued alive pc = Some (s', r) →
  l_opened s' = l_opened s ∧ tied (entries (l_pool s)) (entries (l_pool s')).
Proof.
  unfold acquire_turn. cbn [life_op mbind option_bind]. pose proof (tied_acquire alive pc (l_pool s) now fresh) as H.
  destruct (acquire_round alive pc (l_pool s) now fresh) as [[l|[e|]] p']; cbn [fst snd] in *.
  - by intros [= <- _].
  - destruct queued; by intros [= <- _].
  - by intros [= <- _].
Qed.

Lemma world_step_opens o w out w' : world_step o w out w' → opens (w_life w) (w_life w').
Proof.
  intros H. destruct H; cbn [w_life]; try (by left); try (by eapply life_op_opens); try (left; by eapply acquire_turn_tied).
  unfold acquire_start in H. destruct (w_permits w); injection H as <-; by left.
Qed.

Lemma world_step_leased o w call now l w' :
  world_step o w (Some (call, now, Ok l)) w' → w_leases w' = l :: w_leases w ∧ l_opened (w_life w') = l_opened (w_life w).
Proof. inversion 1; subst. cbn [w_leases w_life]. split; [done|]. by eapply acquire_turn_tied. Qed.

(** Without an opening every entry was there. *)
Lemma world_step_tied o w out w' :
  world_step o w out w' → l_opened (w_life w') = l_opened (w_life w) →
  tied (entries (l_pool (w_life w))) (entries (l_pool (w_life w'))).
Proof.
  intros [[_ H]|(c & E & _)]%world_step_opens Ho; [done|]. rewrite E in Ho. apply (f_equal length) in Ho.
  rewrite length_app in Ho. cbn in Ho. lia.
Qed.
End worlds.

(** ** The calls *)

(** An attempt that has its lease: about to submit; waiting with an armed guard;
    with its result, and what its lease still has to be told; or dropped by its
    caller, its guard gone. *)
Inductive Phase : Type :=
  | Leased
  | Sent (wire s : Z)
  | Finishing (result : Result AttemptError Message) (notes : list LeaseNote)
  | Abandoned.

Record Call : Type := mkCall {
  c_lease : Lease;
  c_on : nat;
  c_query : Message;
  c_phase : Phase;
}.

Definition set_phase (call : Call) (phase : Phase) : Call := mkCall (c_lease call) (c_on call) (c_query call) phase.

(** An attempt that ends with what its connection gave it. *)
Definition finish (call : Call) (link : Link) (submitted : Result Failure (Z * Z)) (waited : Waited) : Call :=
  let a := mkAttempt (Ok tt) submitted waited (StreamConn.answered (l_conn link)) (dead (l_conn link)) in
  let '(result, notes) := attempt a (c_query call) in set_phase call (Finishing result notes).

Definition waited_for (r : Answer) : Waited := match r with Ok m => WAnswer m | Err f => WFailed f end.

(** Dropping the future: the guard goes first, then the lease. *)
Definition abandon (call : Call) (link : Link) (now : Z) : Link * Call :=
  (match c_phase call with Sent wire s => link_drop link wire s now | _ => link end, set_phase call Abandoned).

Definition note_op (n : LeaseNote) (pc : nat → bool) (l : Lease) : PoolOp (C:=nat) :=
  match n with MarkDead => OpDead pc l | NoteTimeout => OpTimeout pc l | Complete => OpComplete l end.

(** The attempt is over and its lease has been told. *)
Definition leaving (phase : Phase) : bool := match phase with Finishing _ [] | Abandoned => true | _ => false end.

Record Pooled : Type := mkPooled {
  pd_world : World (C:=nat);
  pd_links : list Link;
  pd_calls : list Call;
}.

Section pooled.
Context (o : PoolObserver) (c : PoolConfig) (read_timeout : Z).

Definition pooled_new (grace : Z) : Pooled := mkPooled (world_new c grace) [] [].

Inductive pooled_step : Pooled → Pooled → Prop :=
  | pd_pool w w' out links calls :
      world_step o w out w' → w_leases w' = w_leases w → l_opened (w_life w') = l_opened (w_life w) →
      pooled_step (mkPooled w links calls) (mkPooled w' links calls)
  | pd_connect w w' links calls start :
      world_step o w None w' → w_leases w' = w_leases w →
      l_opened (w_life w') = l_opened (w_life w) ++ [length links] → is_u16 start →
      pooled_step (mkPooled w links calls) (mkPooled w' (links ++ [link_spawn (max_in_flight c) read_timeout start]) calls)
  | pd_lease w w' links calls caller now l e query :
      world_step o w (Some (caller, now, Ok l)) w' → e ∈ entries (l_pool (w_life w')) → e_id e = l_entry l →
      pooled_step (mkPooled w links calls) (mkPooled w' links (mkCall l (conn e) query Leased :: calls))
  | pd_submit w links cs1 call cs2 link link' payload now r :
      c_phase call = Leased → links !! c_on call = Some link → encode (c_query call) = Ok payload →
      (Z.of_nat (length payload) ≤ u16_max)%Z → (next_serial (l_conn link) < u64_max)%Z →
      link_submit link payload now = Ret (r, link') →
      pooled_step (mkPooled w links (cs1 ++ call :: cs2))
        (mkPooled w (<[c_on call := link']> links)
           (cs1 ++ match r with
                   | Ok (wire, s) => set_phase call (Sent wire s)
                   | Err f => finish call link' (Err f) WDropped
                   end :: cs2))
  | pd_reply w links cs1 call cs2 link wire s r :
      c_phase call = Sent wire s → links !! c_on call = Some link → (s, r) ∈ settled (l_conn link) →
      pooled_step (mkPooled w links (cs1 ++ call :: cs2))
        (mkPooled w links (cs1 ++ finish call link (Ok (wire, s)) (waited_for r) :: cs2))
  | pd_timeout w links cs1 call cs2 link wire s now :
      c_phase call = Sent wire s → links !! c_on call = Some link →
      pooled_step (mkPooled w links (cs1 ++ call :: cs2))
        (mkPooled w (<[c_on call := link_drop link wire s now]> links)
           (cs1 ++ finish call link (Ok (wire, s)) WTimeout :: cs2))
  | pd_abandon w links cs1 call cs2 link now :
      links !! c_on call = Some link →
      pooled_step (mkPooled w links (cs1 ++ call :: cs2))
        (mkPooled w (<[c_on call := (abandon call link now).1]> links) (cs1 ++ (abandon call link now).2 :: cs2))
  | pd_note s s' k callers ls links cs1 call cs2 result n notes pc :
      c_phase call = Finishing result (n :: notes) → life_op o s (note_op n pc (c_lease call)) = Some s' →
      pooled_step (mkPooled (mkWorld s k callers ls) links (cs1 ++ call :: cs2))
        (mkPooled (mkWorld s' k callers ls) links (cs1 ++ set_phase call (Finishing result notes) :: cs2))
  | pd_leave s s' k callers ls1 ls2 links cs1 call cs2 pc now :
      leaving (c_phase call) = true → life_op o s (OpDrop pc (c_lease call) now) = Some s' →
      pooled_step (mkPooled (mkWorld s k callers (ls1 ++ c_lease call :: ls2)) links (cs1 ++ call :: cs2))
        (mkPooled (mkWorld s' (S k) callers (ls1 ++ ls2)) links (cs1 ++ cs2))
  | pd_link w links calls k link link' :
      links !! k = Some link → link_move link link' →
      pooled_step (mkPooled w links calls) (mkPooled w (<[k := link']> links) calls).

(** ** The invariant *)

Definition calls_on (k : nat) (calls : list Call) : list Call := filter (λ call, c_on call = k) calls.

Definition sent_by (call : Call) : option (Z * Z) := match c_phase call with Sent wire s => Some (s, wire) | _ => None end.

(** The guards armed on connection [k]. *)
Definition sent_on (k : nat) (calls : list Call) : list (Z * Z) := omap sent_by (calls_on k calls).

(** A call's lease and connection, which it keeps. *)
Definition holder (call : Call) : Lease * nat := (c_lease call, c_on call).

(** The leases are the calls', each on the connection of its entry as long as
    the pool has that entry, and no connection has more than it may carry, in the
    pool or not. *)
Record holders_inv (w : World (C:=nat)) (n : nat) (hs : list (Lease * nat)) : Prop := {
  hv_opened : l_opened (w_life w) = seq 0 n;
  hv_leases : w_leases w ≡ₚ map fst hs;
  hv_on h : h ∈ hs → h.2 < n;
  hv_entry h e : h ∈ hs → e ∈ entries (l_pool (w_life w)) → e_id e = l_entry h.1 ↔ conn e = h.2;
  hv_same h h' : h ∈ hs → h' ∈ hs → h.2 = h'.2 → l_entry h.1 = l_entry h'.1;
  hv_room k : length (filter (λ h, h.2 = k) hs) ≤ max_in_flight c;
}.

Definition links_ok (links : list Link) (calls : list Call) : Prop := ∀ k link,
  links !! k = Some link →
  conn_calls (l_conn link) (sent_on k calls) ∧
  Pending.capacity (table (l_conn link)) = Nat.max 1 (Nat.min (max_in_flight c) MAX_TABLE_CAPACITY).

Definition answer_ok (call : Call) : Prop := ∀ m notes, c_phase call = Finishing (Ok m) notes → answers_query Match (c_query call) m.

Record pooled_inv (y : Pooled) : Prop := {
  pv_world : world_inv c o (pd_world y);
  pv_holders : holders_inv (pd_world y) (length (pd_links y)) (map holder (pd_calls y));
  pv_links : links_ok (pd_links y) (pd_calls y);
  pv_answers : Forall answer_ok (pd_calls y);
}.

(** The leases of an entry are at least the calls on its connection. *)
Lemma held_calls ls (hs : list (Lease * nat)) i k :
  ls ≡ₚ map fst hs → (∀ h, h ∈ hs → h.2 = k → l_entry h.1 = i) → length (filter (λ h, h.2 = k) hs) ≤ held ls i.
Proof.
  intros Hp Hk. unfold held. rewrite Hp. clear Hp. induction hs as [|h hs IH]; [done|]. cbn [map].
  rewrite !filter_cons. assert (∀ h, h ∈ hs → h.2 = k → l_entry h.1 = i) as Hk' by (intros x Hx; apply Hk, elem_of_cons; by right).
  specialize (IH Hk'). destruct (decide (h.2 = k)) as [E|E].
  - rewrite (decide_True (P := l_entry h.1 = i)) by (apply Hk; [apply list_elem_of_here|done]). cbn [length]. lia.
  - case_decide; cbn [length]; lia.
Qed.

Lemma holders_pool w w' n hs :
  holders_inv w n hs → w_leases w' = w_leases w → l_opened (w_life w') = l_opened (w_life w) →
  tied (entries (l_pool (w_life w))) (entries (l_pool (w_life w'))) → holders_inv w' n hs.
Proof.
  intros [] Hl Ho Ht. split; rewrite ?Hl, ?Ho; try done.
  intros h e Hh (e0 & He & <- & <-)%Ht. auto.
Qed.

Lemma holders_connect w w' n hs :
  world_inv c o w → holders_inv w n hs → world_step o w None w' → w_leases w' = w_leases w →
  l_opened (w_life w') = l_opened (w_life w) ++ [n] → holders_inv w' (S n) hs.
Proof.
  intros Hw Hi Hs Hl Ho. pose proof (world_step_opens _ _ _ _ Hs) as [[E _]|(k & E & He)].
  { rewrite Ho in E. apply (f_equal length) in E. rewrite length_app in E. cbn in E. lia. }
  rewrite Ho in E. apply app_inj_tail in E as [_ <-]. pose proof Hi as []. split; rewrite ?Hl; try done.
  - by rewrite Ho, hv_opened0, seq_S.
  - intros h Hh. specialize (hv_on0 h Hh). lia.
  - intros h e Hh [(e0 & He0 & <- & <-)|[Ei Ec]]%He; [auto|].
    assert (l_entry h.1 ∈ map l_entry (w_leases w)) as Hin.
    { rewrite hv_leases0. apply list_elem_of_fmap. exists h.1. split; [done|]. apply list_elem_of_fmap. by exists h. }
    apply list_elem_of_fmap in Hin as (l & El & Hin). pose proof (pi_leases _ _ (wi_pool _ _ _ Hw) l Hin) as Hlt.
    cbn [system_of pool] in Hlt. specialize (hv_on0 h Hh). split; intros; exfalso; [|lia]. rewrite Ei in *. lia.
Qed.

Lemma holders_lease w w' n hs caller now l e :
  world_inv c o w' → holders_inv w n hs → world_step o w (Some (caller, now, Ok l)) w' →
  e ∈ entries (l_pool (w_life w')) → e_id e = l_entry l → holders_inv w' n ((l, conn e) :: hs).
Proof.
  intros Hw Hi Hs He Hid. destruct (world_step_leased _ _ _ _ _ _ Hs) as [Hl Ho].
  pose proof (world_step_tied _ _ _ _ Hs Ho) as Ht.
  assert (Hi' : ∀ h x, h ∈ hs → x ∈ entries (l_pool (w_life w')) → e_id x = l_entry h.1 ↔ conn x = h.2).
  { intros h x Hh (x0 & Hx & <- & <-)%Ht. by apply (hv_entry _ _ _ Hi). }
  pose proof (wi_life _ _ _ Hw) as Hlife. pose proof (li_opened _ _ _ Hlife) as Hop. rewrite Ho, (hv_opened _ _ _ Hi) in Hop.
  assert (Hnd : NoDup (map conn (entries (l_pool (w_life w'))))).
  { assert (NoDup (seq 0 n)) as Hs' by apply NoDup_seq. rewrite Hop in Hs'. by apply NoDup_app in Hs' as [? _]. }
  assert (Hsame : ∀ x, x ∈ entries (l_pool (w_life w')) → e_id x = l_entry l ↔ conn x = conn e).
  { intros x Hx. rewrite <-Hid. split; intros E.
    - pose proof (pi_ids _ _ (wi_pool _ _ _ Hw)) as Hn. cbn [system_of pool] in Hn. by rewrite (nodup_map_inj _ _ x e Hn Hx He E).
    - by rewrite (nodup_map_inj _ _ x e Hnd Hx He E). }
  assert (Hnew : ∀ h, h ∈ hs → h.2 = conn e → l_entry h.1 = l_entry l).
  { intros h Hh E. rewrite <-Hid. symmetry. by apply Hi'. }
  assert (Hle : w_leases w' ≡ₚ map fst ((l, conn e) :: hs)) by (rewrite Hl; cbn [map fst]; by rewrite (hv_leases _ _ _ Hi)).
  destruct Hi. split; try done.
  - by rewrite Ho.
  - intros h [->|Hh]%elem_of_cons; [|auto]. cbn [snd].
    assert (conn e ∈ seq 0 n) as Hin by (rewrite Hop; apply elem_of_app; left; apply list_elem_of_fmap; by exists e).
    apply elem_of_seq in Hin. lia.
  - intros h x [->|Hh]%elem_of_cons Hx; [by apply Hsame|by apply Hi'].
  - intros h h' [->|Hh]%elem_of_cons [->|Hh']%elem_of_cons E; cbn [fst snd] in *; [done| | |auto].
    + symmetry. by apply Hnew.
    + by apply Hnew.
  - intros k. destruct (decide (conn e = k)) as [<-|Hne].
    + etrans; [apply (held_calls _ _ (l_entry l) _ Hle)|].
      * intros h [->|Hh]%elem_of_cons E; [done|by apply Hnew].
      * pose proof (pi_held _ _ (wi_pool _ _ _ Hw) e He) as [Hh Hm]. cbn [system_of leases] in Hh. by rewrite <-Hid, <-Hh.
    + rewrite filter_cons, decide_False by done. apply hv_room0.
Qed.

Lemma holders_leave w w' n h1 h h2 :
  holders_inv w n (h1 ++ h :: h2) → w_leases w ≡ₚ h.1 :: w_leases w' → l_opened (w_life w') = l_opened (w_life w) →
  tied (entries (l_pool (w_life w))) (entries (l_pool (w_life w'))) → holders_inv w' n (h1 ++ h2).
Proof.
  intros Hi Hl Ho Ht. assert (Hsub : ∀ x, x ∈ h1 ++ h2 → x ∈ h1 ++ h :: h2).
  { intros x. rewrite !elem_of_app, elem_of_cons. tauto. }
  destruct Hi. split; rewrite ?Ho; auto.
  - rewrite Hl, map_app in hv_leases0. cbn [map] in hv_leases0. rewrite <-Permutation_middle in hv_leases0.
    rewrite map_app. by eapply Permutation_cons_inv.
  - intros x e Hx (e0 & He & <- & <-)%Ht. auto.
  - intros k. etrans; [|apply (hv_room0 k)]. rewrite !filter_app, !length_app, filter_cons.
    case_decide; cbn [length]; lia.
Qed.

(** ** The links of the calls *)

Lemma sent_on_middle k cs1 call cs2 :
  sent_on k (cs1 ++ call :: cs2) ≡ₚ
  (if decide (c_on call = k) then option_list (sent_by call) else []) ++ sent_on k (cs1 ++ cs2).
Proof.
  unfold sent_on, calls_on. rewrite !filter_app, filter_cons, !omap_app. case_decide.
  - change (omap sent_by (call :: ?xs)) with (match sent_by call with Some x => x :: omap sent_by xs | None => omap sent_by xs end).
    generalize (omap sent_by (filter (λ call, c_on call = k) cs1)), (omap sent_by (filter (λ call, c_on call = k) cs2)).
    intros l1 l2. destruct (sent_by call) as [x|]; [|done]. change (option_list (Some x)) with [x]. cbn [app].
    symmetry. apply Permutation_middle.
  - done.
Qed.

(** A call moves to a new phase, its connection with it. *)
Lemma links_ok_replace links cs1 call call' cs2 link link' :
  links_ok links (cs1 ++ call :: cs2) → links !! c_on call = Some link → c_on call' = c_on call →
  (∀ rest, conn_calls (l_conn link) (option_list (sent_by call) ++ rest) →
    conn_calls (l_conn link') (option_list (sent_by call') ++ rest)) →
  Pending.capacity (table (l_conn link')) = Pending.capacity (table (l_conn link)) →
  links_ok (<[c_on call := link']> links) (cs1 ++ call' :: cs2).
Proof.
  intros Hok Hl Hon Hc Hcap k lk. rewrite (sent_on_middle k cs1 call' cs2). rewrite Hon.
  destruct (decide (c_on call = k)) as [<-|Hne].
  - rewrite list_lookup_insert_eq by by eapply lookup_lt_Some. intros [= <-]. destruct (Hok _ _ Hl) as [H1 H2].
    rewrite sent_on_middle, decide_True in H1 by done. split; [by apply Hc|by rewrite Hcap].
  - rewrite list_lookup_insert_ne by done. intros Hk. destruct (Hok _ _ Hk) as [H1 H2].
    rewrite sent_on_middle, decide_False in H1 by done. done.
Qed.

Lemma links_ok_same links calls calls' :
  (∀ k, sent_on k calls' ≡ₚ sent_on k calls) → links_ok links calls → links_ok links calls'.
Proof. intros H Hok k link Hl. rewrite H. by apply Hok. Qed.

Lemma links_ok_connect links calls start :
  is_u16 start → (∀ call, call ∈ calls → c_on call < length links) → links_ok links calls →
  links_ok (links ++ [link_spawn (max_in_flight c) read_timeout start]) calls.
Proof.
  intros Hs Hon Hok k link [Hk|[Hle Hk]]%lookup_app_Some; [by apply Hok|].
  apply list_lookup_singleton_Some in Hk as [Hk <-]. cbn [link_spawn l_conn]. split; [|done].
  assert (calls_on k calls = []) as Hnil.
  { destruct (calls_on k calls) as [|call cs] eqn:E; [done|]. assert (call ∈ calls_on k calls) as Hc by (rewrite E; apply list_elem_of_here).
    apply list_elem_of_filter in Hc as [Ec Hc]. specialize (Hon call Hc). lia. }
  unfold sent_on. rewrite Hnil. exists [], []. split; [by apply spawn_inv|]. split; [done|].
  split; [by intros x ?%not_elem_of_nil|]. split; [constructor|].
  intros wire w. cbn [spawn table]. assert (waiters (with_start (T:=Waiter) (max_in_flight c) read_timeout start) = ∅) as -> by apply omap_empty.
  by rewrite lookup_empty.
Qed.

Lemma finish_spec call link submitted waited :
  c_lease (finish call link submitted waited) = c_lease call ∧ c_on (finish call link submitted waited) = c_on call ∧
  sent_by (finish call link submitted waited) = None ∧ answer_ok (finish call link submitted waited).
Proof.
  unfold finish. set (a := mkAttempt _ _ _ _ _). destruct (attempt a (c_query call)) as [result notes] eqn:E.
  split; [done|]. split; [done|]. split; [done|]. intros m ns. cbn [set_phase c_phase c_query]. intros [= -> ->].
  assert ((attempt a (c_query call)).1 = Ok m) as (_ & _ & x & _ & [] & ->)%attempt_ok by by rewrite E. by split.
Qed.

Lemma holder_finish call link submitted waited : holder (finish call link submitted waited) = holder call.
Proof. unfold holder. by destruct (finish_spec call link submitted waited) as (-> & -> & _). Qed.

Lemma holders_phase w n cs1 call call' cs2 :
  holder call' = holder call → holders_inv w n (map holder (cs1 ++ call :: cs2)) → holders_inv w n (map holder (cs1 ++ call' :: cs2)).
Proof. rewrite !map_app. cbn [map]. by intros ->. Qed.

Lemma answers_phase cs1 call call' cs2 :
  answer_ok call' → Forall answer_ok (cs1 ++ call :: cs2) → Forall answer_ok (cs1 ++ call' :: cs2).
Proof. rewrite !Forall_app, !Forall_cons. tauto. Qed.

(** A phase that is not [Finishing (Ok m)] promises nothing. *)
Lemma answer_ok_other call phase :
  (∀ m notes, phase ≠ Finishing (Ok m) notes) → answer_ok (set_phase call phase).
Proof. intros H m notes E. by apply H in E. Qed.

Lemma pooled_phase w links cs1 call call' cs2 link link' :
  pooled_inv (mkPooled w links (cs1 ++ call :: cs2)) → links !! c_on call = Some link → holder call' = holder call →
  answer_ok call' →
  (∀ rest, conn_calls (l_conn link) (option_list (sent_by call) ++ rest) →
    conn_calls (l_conn link') (option_list (sent_by call') ++ rest)) →
  Pending.capacity (table (l_conn link')) = Pending.capacity (table (l_conn link)) →
  pooled_inv (mkPooled w (<[c_on call := link']> links) (cs1 ++ call' :: cs2)).
Proof.
  intros [] Hl Hh Ha Hc Hcap. cbn [pd_world pd_links pd_calls] in *. split; cbn [pd_world pd_links pd_calls].
  - done.
  - rewrite length_insert. by eapply holders_phase.
  - eapply links_ok_replace; try done. by injection Hh.
  - by eapply answers_phase.
Qed.

(** ** Every step keeps the invariant *)

Lemma pooled_submit w links cs1 call cs2 link link' payload now r :
  pooled_inv (mkPooled w links (cs1 ++ call :: cs2)) → c_phase call = Leased → links !! c_on call = Some link →
  (next_serial (l_conn link) < u64_max)%Z → link_submit link payload now = Ret (r, link') →
  pooled_inv (mkPooled w (<[c_on call := link']> links)
    (cs1 ++ match r with
            | Ok (wire, s) => set_phase call (Sent wire s)
            | Err f => finish call link' (Err f) WDropped
            end :: cs2)).
Proof.
  intros Hi Hph Hl Hlt Hs. unfold link_submit in Hs. apply run_bind_ret in Hs as ([r' conn'] & Hs & [= -> <-]).
  eapply pooled_phase; try done.
  - destruct r as [[wire s]|f]; [done|apply holder_finish].
  - destruct r as [[wire s]|f]; [by apply answer_ok_other|apply finish_spec].
  - intros rest. unfold sent_by at 1. rewrite Hph. cbn [option_list app]. intros Hc.
    pose proof (conn_calls_submit _ _ _ _ _ _ _ Hc Hlt Hs) as H. destruct r as [[wire s]|f]; [done|].
    by destruct (finish_spec call (with_conn link conn') (Err f) WDropped) as (_ & _ & -> & _).
  - cbn [with_conn l_conn]. by destruct (grows_submit _ _ _ _ _ _ Hs).
Qed.

Lemma pooled_reply w links cs1 call cs2 link wire s r :
  pooled_inv (mkPooled w links (cs1 ++ call :: cs2)) → c_phase call = Sent wire s → links !! c_on call = Some link →
  (s, r) ∈ settled (l_conn link) →
  pooled_inv (mkPooled w links (cs1 ++ finish call link (Ok (wire, s)) (waited_for r) :: cs2)).
Proof.
  intros Hi Hph Hl Hr. rewrite <-(list_insert_id links (c_on call) link) by done.
  eapply pooled_phase; try done; [apply holder_finish|apply finish_spec|].
  intros rest. unfold sent_by at 1. rewrite Hph. destruct (finish_spec call link (Ok (wire, s)) (waited_for r)) as (_ & _ & -> & _).
  intros Hc. exact (conn_calls_settled _ _ _ _ _ Hc Hr).
Qed.

(** The guard's drop, by a timeout or with the whole call. *)
Lemma pooled_unguard w links cs1 call call' cs2 link link' now :
  pooled_inv (mkPooled w links (cs1 ++ call :: cs2)) → links !! c_on call = Some link →
  link' = match c_phase call with Sent wire s => link_drop link wire s now | _ => link end →
  holder call' = holder call → answer_ok call' → sent_by call' = None →
  pooled_inv (mkPooled w (<[c_on call := link']> links) (cs1 ++ call' :: cs2)).
Proof.
  intros Hi Hl -> Hh Ha Hn. eapply pooled_phase; try done.
  - intros rest. rewrite Hn. unfold sent_by. destruct (c_phase call); try done. apply conn_calls_drop.
  - destruct (c_phase call); try done. by destruct (grows_drop (l_conn link) wire s now).
Qed.

Lemma note_op_world w call n pc s' :
  c_lease call ∈ w_leases w → life_op o (w_life w) (note_op n pc (c_lease call)) = Some s' →
  world_step o w None (mkWorld s' (w_permits w) (w_callers w) (w_leases w)) ∧ l_opened s' = l_opened (w_life w).
Proof.
  intros Hl Hop. destruct w as [s k cs ls]. cbn [w_life w_leases w_permits w_callers] in *. split.
  - eapply ws_lease; [done| |exact Hop]. by destruct n; apply bool_decide_eq_true.
  - destruct n; by injection Hop as <-.
Qed.

Lemma pooled_step_inv y y' : pooled_step y y' → pooled_inv y → pooled_inv y'.
Proof.
  intros H Hi. destruct H as [w w' out links calls Hs Hl Ho|w w' links calls start Hs Hl Ho Hst|w w' links calls caller now l e query Hs He Hid
    |w links cs1 call cs2 link link' payload now r Hph Hl _ _ Hlt Hs|w links cs1 call cs2 link wire s r Hph Hl Hr
    |w links cs1 call cs2 link wire s now Hph Hl|w links cs1 call cs2 link now Hl
    |s s' k callers ls links cs1 call cs2 result n notes pc Hph Hop|s s' k callers ls1 ls2 links cs1 call cs2 pc now Hph Hop
    |w links calls k link link' Hl Hm].
  - destruct Hi as [Hw Hh Hlk Ha]. cbn [pd_world pd_links pd_calls] in *. split; try done.
    + by eapply world_step_inv.
    + eapply holders_pool; try done. by eapply world_step_tied.
  - destruct Hi as [Hw Hh Hlk Ha]. cbn [pd_world pd_links pd_calls] in *. split; try done; cbn [pd_world pd_links pd_calls].
    + by eapply world_step_inv.
    + rewrite length_app, Nat.add_1_r. by eapply holders_connect.
    + apply links_ok_connect; try done. intros call Hc. apply (hv_on _ _ _ Hh (holder call)). by apply list_elem_of_fmap_2.
  - destruct Hi as [Hw Hh Hlk Ha]. cbn [pd_world pd_links pd_calls] in *.
    assert (Hw' : world_inv c o w') by by eapply world_step_inv. split; try done; cbn [pd_world pd_links pd_calls].
    + by eapply holders_lease.
    + eapply links_ok_same; [|exact Hlk]. intros k. etrans; [exact (sent_on_middle k [] (mkCall l (conn e) query Leased) calls)|]. by case_decide.
    + by constructor.
  - by eapply pooled_submit.
  - by eapply pooled_reply.
  - eapply pooled_unguard; first [done | by rewrite Hph | apply holder_finish | apply finish_spec].
  - eapply pooled_unguard; first [done | by apply answer_ok_other].
  - destruct Hi as [Hw Hh Hlk Ha]. cbn [pd_world pd_links pd_calls] in *.
    assert (Hle : c_lease call ∈ ls).
    { change (c_lease call ∈ w_leases (mkWorld s k callers ls)). rewrite (hv_leases _ _ _ Hh), map_app. cbn [map holder fst].
      rewrite map_app. cbn [map fst]. apply elem_of_app. right. apply list_elem_of_here. }
    destruct (note_op_world (mkWorld s k callers ls) call n pc s' Hle Hop) as [Hs Ho]. cbn [w_permits w_callers w_leases] in Hs.
    split; cbn [pd_world pd_links pd_calls].
    + by eapply world_step_inv.
    + eapply (holders_phase _ _ _ call); [done|]. eapply holders_pool; try done. by eapply world_step_tied.
    + eapply links_ok_same; [|exact Hlk]. intros j. rewrite !sent_on_middle. unfold sent_by. by rewrite Hph.
    + eapply answers_phase; [|exact Ha]. intros m ns [= -> <-]. apply Forall_app in Ha as [_ Ha]. apply Forall_cons in Ha as [Ha _].
      by apply (Ha m (n :: notes)).
  - destruct Hi as [Hw Hh Hlk Ha]. cbn [pd_world pd_links pd_calls] in *.
    assert (Hs : world_step o (mkWorld s k callers (ls1 ++ c_lease call :: ls2)) None (mkWorld s' (S k) callers (ls1 ++ ls2)))
      by (eapply ws_end_lease; exact Hop).
    assert (Ho : l_opened s' = l_opened s).
    { cbn [life_op] in Hop. destruct (lease_drop _ _ _ _) as [wake p']. by injection Hop as <-. }
    split; cbn [pd_world pd_links pd_calls].
    + by eapply world_step_inv.
    + rewrite map_app in *. cbn [map] in Hh. eapply holders_leave; [exact Hh| |exact Ho|by eapply world_step_tied].
      cbn [w_leases holder fst]. by rewrite <-Permutation_middle.
    + eapply links_ok_same; [|exact Hlk]. intros j. rewrite sent_on_middle. unfold sent_by.
      destruct (c_phase call) as [| |? []|]; try done; by case_decide.
    + rewrite Forall_app, Forall_cons in Ha. apply Forall_app. tauto.
  - destruct Hi as [Hw Hh Hlk Ha]. cbn [pd_world pd_links pd_calls] in *. split; try done; cbn [pd_world pd_links pd_calls].
    + by rewrite length_insert.
    + intros j lk Hj. destruct (decide (k = j)) as [<-|Hne].
      * rewrite list_lookup_insert_eq in Hj by by eapply lookup_lt_Some. injection Hj as <-. destruct (Hlk _ _ Hl) as [Hc Hcap].
        destruct Hc as (iss & cn & Hci & Hrest). pose proof (link_move_conn _ _ _ _ Hm Hci) as [_ [_ Hcap']]. split; [|by rewrite Hcap'].
        eapply conn_calls_move; [|by exists iss, cn]. intros is' cn'. by apply link_move_conn.
      * rewrite list_lookup_insert_ne in Hj by done. by apply Hlk.
Qed.

Lemma pooled_steps_inv grace y : configured c → rtc pooled_step (pooled_new grace) y → pooled_inv y.
Proof.
  intros Hc Hr. refine (rtc_ind_r pooled_inv _ _ _ _ Hr); [|intros; by eapply pooled_step_inv].
  split; cbn [pooled_new pd_world pd_links pd_calls].
  - by apply world_new_inv.
  - split; try done; try (by intros h ?%not_elem_of_nil); try (by intros h e ?%not_elem_of_nil). cbn. lia.
  - intros k link Hk. by rewrite lookup_nil in Hk.
  - constructor.
Qed.

(** ** What the composition gives *)

Lemma omap_length_le {A B} (f : A → option B) xs : length (omap f xs) ≤ length xs.
Proof. induction xs as [|x xs IH]; [done|]. cbn [omap list_omap length]. destruct (f x); cbn [length]; unfold omap in *; lia. Qed.

Lemma omap_length_lt {A B} (f : A → option B) xs x : x ∈ xs → f x = None → length (omap f xs) < length xs.
Proof.
  induction xs as [|z xs IH]; [by intros ?%not_elem_of_nil|]. intros [->|Hx]%elem_of_cons E; cbn [omap list_omap length].
  - rewrite E. pose proof (omap_length_le f xs). unfold omap in *. lia.
  - specialize (IH Hx E). destruct (f z); cbn [length]; unfold omap in *; lia.
Qed.

Lemma waiters_sent conn sent : conn_calls conn sent → size (waiters (table conn)) ≤ length sent.
Proof.
  intros (iss & cn & Hi & _ & _ & _ & Hw). rewrite <-length_map_to_list.
  rewrite <-(length_map (λ p : Z * Waiter, (serial p.2, p.1))). apply submseteq_length, NoDup_submseteq.
  - apply NoDup_fmap_2_strong; [|apply NoDup_map_to_list].
    intros [w1 x1] [w2 x2] H1 H2 [= Es Ew]. cbn [fst snd] in *. destruct x1, x2. cbn in Es. by subst.
  - intros [s wire] ([w x] & [= -> ->] & Hx%elem_of_map_to_list)%list_elem_of_fmap. by apply Hw.
Qed.

Lemma link_of y call :
  pooled_inv y → call ∈ pd_calls y → ∃ link, pd_links y !! c_on call = Some link.
Proof.
  intros Hi Hc. apply lookup_lt_is_Some_2.
  apply (hv_on _ _ _ (pv_holders _ Hi) (holder call)). by apply list_elem_of_fmap_2.
Qed.

Lemma calls_on_room y k : pooled_inv y → length (calls_on k (pd_calls y)) ≤ max_in_flight c.
Proof.
  intros Hi. rewrite <-(length_map holder). etrans; [|apply (hv_room _ _ _ (pv_holders _ Hi) k)].
  apply Nat.eq_le_incl. unfold calls_on. induction (pd_calls y) as [|call calls IH]; [done|].
  cbn [map]. rewrite !filter_cons. cbn [holder snd]. case_decide; cbn [map length]; by rewrite IH.
Qed.

(** C27: A lease always finds a free slot. In every state the pool, its
    connections and the calls over them can reach, whatever its callers, timeouts,
    cancellations, connects, sweeps, frames and failures did before, an attempt that
    holds a lease and has not submitted its query yet is accepted by its connection,
    unless the connection was closed or the channel to its writer is full: the
    connection's own table never refuses it, nor does registering loop. *)
Theorem lease_has_slot grace y call :
  configured c → rtc pooled_step (pooled_new grace) y → call ∈ pd_calls y → c_phase call = Leased →
  ∃ link, pd_links y !! c_on call = Some link ∧
    ∀ payload now, ∃ r link', link_submit link payload now = Ret (r, link') ∧
      match r with Ok _ => True | Err _ => closed (l_conn link) = true ∨ has_room link = false end.
Proof.
  intros Hc Hr Hcall Hph. pose proof (pooled_steps_inv _ _ Hc Hr) as Hi. destruct (link_of _ _ Hi Hcall) as (link & Hl).
  exists link. split; [done|]. intros payload now. destruct (pv_links _ Hi _ _ Hl) as [Hcc Hcap].
  pose proof (waiters_sent _ _ Hcc) as Hw. pose proof (calls_on_room _ (c_on call) Hi) as Hroom.
  assert (length (sent_on (c_on call) (pd_calls y)) < length (calls_on (c_on call) (pd_calls y))) as Hlt.
  { eapply omap_length_lt; [by apply list_elem_of_filter|]. unfold sent_by. by rewrite Hph. }
  assert (size (waiters (table (l_conn link))) < Pending.capacity (table (l_conn link))) as Hfree.
  { rewrite Hcap. pose proof (configured_bounds _ Hc) as [_ Hb]. unfold MAX_IN_FLIGHT_LIMIT in Hb.
    assert (256 ≤ MAX_TABLE_CAPACITY) by (apply Nat.leb_le; by vm_compute). lia. }
  destruct Hcc as (iss & cn & Hci & _). unfold link_submit, submit.
  destruct (closed (bump_serial (l_conn link))) eqn:Ecl.
  { eexists _, _. split; [done|]. left. exact Ecl. }
  destruct (register_run (table (bump_serial (l_conn link))) (mkWaiter (next_serial (l_conn link))) now) as (r & t & -> & _ & H);
    [apply (ci_table _ _ _ Hci)|].
  cbn [mbind run_bind]. destruct r as [wire|v].
  - destruct (has_room link) eqn:Er; (eexists _, _; split; [done|]); [done|by right].
  - exfalso. destruct H as (_ & H & _). change (table (bump_serial (l_conn link))) with (table (l_conn link)) in H. lia.
Qed.

(** C28: Every call is accounted for. A connection never has more calls than
    [max_in_flight], nor more waiting queries than calls, and all calls together
    are at most the pool's capacity; the query of a call that waits is in its
    connection's table under its wire id, or its outcome is there to be read, which
    it is as soon as the connection is closed, so no call is left waiting for an
    answer nobody will deliver; and a call that returns an answer returns one to
    its own query. *)
Theorem calls_accounted grace y :
  configured c → rtc pooled_step (pooled_new grace) y →
  length (pd_calls y) ≤ capacity c ∧
  ∀ call, call ∈ pd_calls y → ∃ link, pd_links y !! c_on call = Some link ∧
    size (waiters (table (l_conn link))) ≤ length (calls_on (c_on call) (pd_calls y)) ≤ max_in_flight c ∧
    match c_phase call with
    | Sent wire s => (waiters (table (l_conn link)) !! wire = Some (mkWaiter s) ∧ closed (l_conn link) = false) ∨
                     ∃ r, (s, r) ∈ settled (l_conn link)
    | Finishing (Ok m) _ => answers_query Match (c_query call) m
    | _ => True
    end.
Proof.
  intros Hc Hr. pose proof (pooled_steps_inv _ _ Hc Hr) as Hi. split.
  { pose proof (pi_permits _ _ (wi_pool _ _ _ (pv_world _ Hi))) as Hp. cbn [system_of permits admitted leases] in Hp.
    rewrite (hv_leases _ _ _ (pv_holders _ Hi)), !length_map in Hp. lia. }
  intros call Hcall. destruct (link_of _ _ Hi Hcall) as (link & Hl). exists link. split; [done|].
  destruct (pv_links _ Hi _ _ Hl) as [Hcc _]. split.
  { split; [|by apply calls_on_room]. etrans; [by apply waiters_sent|]. apply omap_length_le. }
  destruct (c_phase call) as [|wire s|[m|e] notes|] eqn:Hph; try done.
  - destruct Hcc as (iss & cn & Hci & Hs & Hcn & _).
    assert (Hin : (s, wire) ∈ sent_on (c_on call) (pd_calls y)).
    { apply list_elem_of_omap. exists call. split; [by apply list_elem_of_filter|]. unfold sent_by. by rewrite Hph. }
    assert (s ∈ map fst iss) as Hiss by (apply list_elem_of_fmap; exists (s, wire); split; [done|by apply Hs]).
    rewrite (ci_once _ _ _ Hci) in Hiss. apply elem_of_app in Hiss as [H|[H|H]%elem_of_app].
    + right. apply list_elem_of_fmap in H as ([s' r] & -> & H). by exists r.
    + by destruct (Hcn _ Hin).
    + left. apply list_elem_of_fmap in H as (w & -> & H). unfold values in H.
      apply list_elem_of_fmap in H as ([wire' w'] & -> & H%elem_of_map_to_list). cbn [snd] in *.
      assert (wire' = wire) as ->.
      { eapply (issued_wire _ _ _ (serial w') _ _ Hci); [by apply (ci_waiters _ _ _ Hci)|by apply Hs]. }
      split; [by destruct w'|]. destruct (closed (l_conn link)) eqn:Ecl; [|done].
      rewrite (ci_closed _ _ _ Hci Ecl) in H. by rewrite lookup_empty in H.
  - pose proof (pv_answers _ Hi) as Ha. rewrite list.Forall_forall in Ha. by apply (Ha _ Hcall m notes).
Qed.
End pooled.

(** ** A concrete call *)

(** The caller that waits in [example_waiting] gets the connection it waits for,
    the pool's first, and its lease. *)
Definition next_life (s : Life (C:=nat)) (op : PoolOp) : Life := default s (life_op example_observer s op).

(** The last operation reports the opening and sends the outcome. *)
Definition last_act (s : Life (C:=nat)) : PoolOp (C:=nat) := OpAct (pred (length (l_tails s))).

Definition example_finished : Life (C:=nat) :=
  next_life (w_life example_waiting) (OpFinish 0 (run_connect (Connected (Ok 0))) 3).
Definition example_reported : Life (C:=nat) := next_life example_finished (last_act example_finished).
Definition example_open : Life (C:=nat) := next_life example_reported (last_act example_reported).

Definition example_placed : Life (C:=nat) * Lease :=
  match acquire_turn example_observer example_open 50 4 false true (λ _, true) (λ _, false) with
  | Some (s, inl (Ok l)) => (s, l)
  | _ => (example_open, mkLease 0 false)
  end.

Definition example_call : Call := mkCall example_placed.2 0 example_query Leased.

Definition example_pooled : Pooled :=
  mkPooled (mkWorld example_placed.1 0 [] [example_placed.2]) [link_spawn 1 10 5] [example_call].

Lemma example_pooled_reached :
  rtc (pooled_step example_observer example_pool_config 10) (pooled_new example_pool_config 100) example_pooled.
Proof.
  eapply rtc_l.
  { eapply (pd_pool _ _ _ _ _ None); [refine (ws_start example_observer _ _ 50 false _); reflexivity|reflexivity|reflexivity]. }
  eapply rtc_l.
  { refine (pd_pool _ _ _ _ example_waiting None [] [] _ _ _); [|reflexivity|].
    - refine (ws_wait example_observer _ _ 0 [] [] [] 50 false false (λ _, true) (λ _, false) 1 (Waiting 50 false 0) _ _);
        vm_compute; reflexivity.
    - vm_compute. reflexivity. }
  eapply rtc_l.
  { refine (pd_connect _ _ _ _ (mkWorld example_finished 0 [Waiting 50 false 0] []) [] [] 5 _ _ _ _);
      [|reflexivity|vm_compute; reflexivity|lia].
    refine (ws_connect example_observer _ _ 0 [_] [] 0 (Connected (Ok 0)) 3 _ _ _); vm_compute; reflexivity. }
  eapply rtc_l.
  { refine (pd_pool _ _ _ _ (mkWorld example_reported 0 [Waiting 50 false 0] []) None _ _ _ _ _); [|reflexivity|reflexivity].
    refine (ws_own example_observer example_finished _ 0 _ _ (last_act example_finished) _ _); vm_compute; reflexivity. }
  eapply rtc_l.
  { refine (pd_pool _ _ _ _ (mkWorld example_open 0 [Waiting 50 false 0] []) None _ _ _ _ _); [|reflexivity|reflexivity].
    refine (ws_own example_observer example_reported _ 0 _ _ (last_act example_reported) _ _); vm_compute; reflexivity. }
  eapply rtc_l.
  { refine (pd_pool _ _ _ _ (mkWorld example_open 0 [Placing 50 false true] []) None _ _ _ _ _); [|reflexivity|reflexivity].
    refine (ws_connected example_observer example_open 0 [] [] [] 50 false 0 4 _). vm_compute. reflexivity. }
  apply rtc_once.
  refine (pd_lease _ _ _ _ (mkWorld example_placed.1 0 [] [example_placed.2]) _ _ (Placing 50 false true) 4 example_placed.2
    (default (mkEntry 0 0 0 0 0 false 0 None) (head (entries (l_pool example_placed.1)))) example_query _ _ _).
  - refine (ws_leased example_observer example_open example_placed.1 0 [] [] [] 50 false true (λ _, true) (λ _, false) 4 example_placed.2 _ _);
      vm_compute; reflexivity.
  - vm_compute. apply list_elem_of_here.
  - vm_compute. reflexivity.
Defined.

Lemma lease_has_slot_witness :
  ∃ link, pd_links example_pooled !! 0 = Some link ∧
    ∃ r link', link_submit link (encoded example_query) 5 = Ret (r, link') ∧
      match r with Ok _ => True | Err _ => closed (l_conn link) = true ∨ has_room link = false end.
Proof.
  destruct (lease_has_slot example_observer example_pool_config 10 100 example_pooled example_call example_configured
    example_pooled_reached (list_elem_of_here _ _) eq_refl) as (link & Hl & H).
  exists link. split; [exact Hl|apply H].
Defined.

Lemma calls_accounted_witness :
  length (pd_calls example_pooled) ≤ 1 ∧
  ∃ link, pd_links example_pooled !! 0 = Some link ∧ size (waiters (table (l_conn link))) ≤ 1.
Proof.
  destruct (calls_accounted example_observer example_pool_config 10 100 example_pooled example_configured example_pooled_reached)
    as (Hc & H). split; [exact Hc|].
  destruct (H example_call (list_elem_of_here _ _)) as (link & Hl & [Hs _] & _). exists link. split; [exact Hl|exact Hs].
Defined.
