(* ===== verification/PooledRetry.v ===== *)
(** * A retried query runs on another connection

    What [StreamPool::query] relies on when it sends a query again
    ([crates/dns-lattice/src/upstream/stream.rs]): the attempt that failed in a
    way that allows it has had its connection taken out of the pool. Stated over
    the pooled calls of PooledQuery.v. *)

From stdpp Require Import base numbers list gmap strings.
From S2P Require Import Prelude CoreError Time Name Header RecordData Message Transport Pending StreamConn Pool PoolInv PoolLife PoolAcquire StreamQuery StreamLink PooledQuery.

(** An attempt whose query may be sent again marks its connection dead. *)
Lemma attempt_retry_marks a query r notes e :
  attempt a query = (r, notes) → r = Err e → retry e = true → MarkDead ∈ notes.
Proof.
  assert (Hf : ∀ f, connection_failed a query f = (r, notes) → r = Err e → retry e = true → MarkDead ∈ notes).
  { intros f [= <- <-] [= <-] Hr. cbn [retry] in Hr. apply andb_true_iff in Hr as [[-> _]%andb_true_iff _]. apply list_elem_of_here. }
  unfold attempt. destruct (at_lease a); [|by intros [= <- <-] [= <-]]. destruct (at_submit a); [|apply Hf].
  destruct (at_waited a) as [| |f|m]; [by intros [= <- <-] [= <-]|apply Hf|apply Hf|].
  destruct (validate_response query m Ignore); [by intros [= <- <-]|by intros [= <- <-] [= <-]].
Qed.

(** Marking a lease's connection dead takes its entry out of the pool. *)
Lemma mark_dead_gone {C} (pc : C → bool) (p : Pool C) l x :
  NoDup (map e_id (entries p)) → x ∈ entries (mark_dead pc p l) → e_id x ≠ l_entry l.
Proof.
  intros Hn. unfold mark_dead. pose proof (position_spec p (l_entry l)) as Hp.
  destruct (position p (l_entry l)) as [idx|]; [|by apply Hp]. destruct Hp as (e & Hi & He).
  unfold retire. rewrite Hi. cbn [set_entries entries]. intros Hx Hid. revert Hn.
  rewrite <-(take_drop_middle _ _ _ Hi), map_app. cbn [map]. rewrite delete_take_drop in Hx.
  intros [_ [Hd [Hn _]%NoDup_cons]]%NoDup_app. rewrite <-He in Hid. apply elem_of_app in Hx as [Hx|Hx].
  - apply (Hd (e_id x)); [by apply list_elem_of_fmap_2|]. rewrite Hid. apply list_elem_of_here.
  - apply Hn. rewrite <-Hid. by apply list_elem_of_fmap_2.
Qed.

Section retry.
Context (o : PoolObserver) (c : PoolConfig) (read_timeout : Z).
Notation step := (pooled_step o c read_timeout).

(** The pool does not have the connection, of the [n] it opened. *)
Definition buried (s : Life (C:=nat)) (k : nat) : Prop := ∀ e, e ∈ entries (l_pool s) → conn e ≠ k.

Lemma buried_tied s s' k : tied (entries (l_pool s)) (entries (l_pool s')) → buried s k → buried s' k.
Proof. intros Ht Hb e (e0 & He & _ & <-)%Ht. by apply Hb. Qed.

Lemma life_op_tied (s s' : Life (C:=nat)) op :
  life_op o s op = Some s' → l_opened s' = l_opened s → tied (entries (l_pool s)) (entries (l_pool s')).
Proof.
  intros [[_ H]|(x & E & _)]%life_op_opens Ho; [done|]. rewrite E in Ho. apply (f_equal length) in Ho.
  rewrite length_app in Ho. cbn in Ho. lia.
Qed.

(** A connection that is gone stays gone. *)
Lemma buried_step y y' k :
  pooled_inv o c y → step y y' → k < length (pd_links y) → buried (w_life (pd_world y)) k →
  buried (w_life (pd_world y')) k ∧ length (pd_links y) ≤ length (pd_links y').
Proof.
  intros Hi H Hk Hb.
  destruct H as [w w' out links calls Hs Hl Ho|w w' links calls start Hs Hl Ho Hst|w w' links calls caller now l e query Hs He Hid
    |w links cs1 call cs2 link link' payload now r Hph Hl _ _ Hlt Hs|w links cs1 call cs2 link wire s r Hph Hl Hr
    |w links cs1 call cs2 link wire s now Hph Hl|w links cs1 call cs2 link now Hl
    |s s' k' callers ls links cs1 call cs2 result n notes pc Hph Hop|s s' k' callers ls1 ls2 links cs1 call cs2 pc now Hph Hop
    |w links calls k' link link' Hl Hm]; cbn [pd_world pd_links w_life] in *; rewrite ?length_insert; try done.
  - split; [|done]. eapply buried_tied; [by eapply world_step_tied|done].
  - rewrite length_app. split; [|lia]. destruct (world_step_opens _ _ _ _ Hs) as [[E _]|(x & E & He)].
    { rewrite Ho in E. apply (f_equal length) in E. rewrite length_app in E. cbn in E. lia. }
    rewrite Ho in E. apply app_inj_tail in E as [_ <-]. intros e [(e0 & He0 & _ & <-)|[_ ->]]%He; [by apply Hb|lia].
  - split; [|done]. destruct (world_step_leased _ _ _ _ _ _ Hs) as [_ Ho]. eapply buried_tied; [by eapply world_step_tied|done].
  - split; [|done]. eapply buried_tied; [|exact Hb]. eapply life_op_tied; [exact Hop|]. destruct n; by injection Hop as <-.
  - split; [|done]. eapply buried_tied; [|exact Hb]. eapply life_op_tied; [exact Hop|].
    cbn [life_op] in Hop. destruct (lease_drop _ _ _ _) as [wake p']. by injection Hop as <-.
Qed.

Lemma buried_steps y y' k :
  pooled_inv o c y → rtc step y y' → k < length (pd_links y) → buried (w_life (pd_world y)) k →
  buried (w_life (pd_world y')) k ∧ k < length (pd_links y') ∧ pooled_inv o c y'.
Proof.
  intros Hi Hr Hk Hb. induction Hr as [y|y y1 y' Hs Hr IH]; [done|].
  destruct (buried_step _ _ _ Hi Hs Hk Hb) as [Hb1 Hle]. apply IH; [by eapply pooled_step_inv|lia|done].
Qed.

(** ** Calls that may be retried *)

(** Its lease is still to be told, or its connection is gone. *)
Definition retry_ok (y : Pooled) (call : Call) : Prop :=
  ∀ e notes, c_phase call = Finishing (Err e) notes → retry e = true →
    MarkDead ∈ notes ∨ buried (w_life (pd_world y)) (c_on call).

Lemma retry_ok_finish y call link submitted waited : retry_ok y (finish call link submitted waited).
Proof.
  intros e notes. unfold finish. set (a := mkAttempt _ _ _ _ _). destruct (attempt a (c_query call)) as [r ns] eqn:E.
  cbn [set_phase c_phase]. intros [= -> ->] Hr. left. by eapply attempt_retry_marks.
Qed.

Lemma call_on y call : pooled_inv o c y → call ∈ pd_calls y → c_on call < length (pd_links y).
Proof. intros Hi Hc. apply (hv_on _ _ _ _ (pv_holders _ _ _ Hi) (holder call)). by apply list_elem_of_fmap_2. Qed.

(** A call is kept, or moved on by its own step. *)
Lemma retry_step y y' :
  pooled_inv o c y → step y y' → Forall (retry_ok y) (pd_calls y) → Forall (retry_ok y') (pd_calls y').
Proof.
  intros Hi Hs Hok.
  assert (Hkeep : ∀ call, call ∈ pd_calls y → retry_ok y' call).
  { intros call Hc e notes Hp Hr. pose proof (proj1 (Forall_forall _ _) Hok call Hc e notes Hp Hr) as [?|Hb]; [by left|right].
    apply (buried_step y y'); [done..|by apply call_on|done]. }
  assert (Hother : ∀ call phase, (∀ r notes, phase ≠ Finishing r notes) → retry_ok y' (set_phase call phase)).
  { intros call phase Hp e notes E. cbn [set_phase c_phase] in E. by apply Hp in E. }
  assert (Hmid : ∀ cs1 call call' cs2, pd_calls y = cs1 ++ call :: cs2 → retry_ok y' call' → Forall (retry_ok y') (cs1 ++ call' :: cs2)).
  { intros cs1 call call' cs2 E H. apply Forall_forall. intros x [Hx|[->|Hx]%elem_of_cons]%elem_of_app; [|done|];
      apply Hkeep; rewrite E; apply elem_of_app; [by left|right; by apply elem_of_cons; right]. }
  pose proof Hs as Hs'. destruct Hs' as [| | | | | | |s s' k' callers ls links cs1 call cs2 result n notes pc Hph Hop| |]; cbn [pd_calls] in *.
  all: try by apply Forall_forall.
  - constructor; [by intros e' notes|by apply Forall_forall].
  - eapply Hmid; [done|]. destruct r as [[wire s]|f]; [by apply Hother|apply retry_ok_finish].
  - eapply Hmid; [done|]. apply retry_ok_finish.
  - eapply Hmid; [done|]. apply retry_ok_finish.
  - eapply Hmid; [done|]. by apply Hother.
  - eapply Hmid; [done|]. intros e ns [= -> <-] Hr. cbn [set_phase c_on].
    assert (Hc : call ∈ cs1 ++ call :: cs2) by (apply elem_of_app; right; apply list_elem_of_here).
    destruct (Hkeep call Hc e (n :: notes) Hph Hr) as [[Hn|?]%elem_of_cons|Hb]; [subst n|by left|by right]. right.
    pose proof (life_op_tied _ _ _ Hop) as Ht. cbn [note_op life_op] in Hop. injection Hop as <-. specialize (Ht eq_refl).
    destruct Hi as [Hw Hh _ _]. cbn [pd_world pd_calls w_life after_section l_pool] in *. intros x Hx Hon.
    destruct (Ht x Hx) as (x0 & Hx0 & Hid & Hcn). rewrite <-Hcn in Hon.
    apply (hv_entry _ _ _ _ Hh (holder call) x0) in Hon; [|by apply list_elem_of_fmap_2|done].
    eapply mark_dead_gone; [apply (pi_ids _ _ (wi_pool _ _ _ Hw))|exact Hx|]. by rewrite <-Hid.
  - apply Forall_forall. intros x Hx. apply Hkeep. apply elem_of_app. apply elem_of_app in Hx as [|]; [by left|right; by apply elem_of_cons; right].
Qed.

Lemma retry_steps grace y :
  configured c → rtc step (pooled_new c grace) y → Forall (retry_ok y) (pd_calls y).
Proof.
  intros Hc Hr. enough (pooled_inv o c y ∧ Forall (retry_ok y) (pd_calls y)) as [_ H] by exact H.
  refine (rtc_ind_r (λ y, pooled_inv o c y ∧ Forall (retry_ok y) (pd_calls y)) _ _ _ _ Hr).
  - split; [by eapply (pooled_steps_inv o c read_timeout grace)|constructor].
  - intros y1 y2 _ Hs [Hi Hok]. split; [by eapply pooled_step_inv|by eapply retry_step].
Qed.

(** The connection of an attempt that is over and may be retried is gone. *)
Lemma retry_buried grace y call e :
  configured c → rtc step (pooled_new c grace) y → call ∈ pd_calls y → c_phase call = Finishing (Err e) [] →
  retry e = true → buried (w_life (pd_world y)) (c_on call).
Proof.
  intros Hc Hr Hcall Hp He. pose proof (proj1 (Forall_forall _ _) (retry_steps _ _ Hc Hr) call Hcall e [] Hp He) as [Hn|Hb]; [|done].
  by apply not_elem_of_nil in Hn.
Qed.

(** C29: A query is never sent again on the connection that failed it. Once an
    attempt that ended in a failure after which the query may be sent again has
    told its lease, the pool does not have that connection and never has it
    again, whatever its callers, connects, sweeps and other calls do; so
    whichever lease is given out afterwards, to the second attempt or to any other
    caller, is on another connection. *)
Theorem retry_elsewhere grace y call e y' :
  configured c → rtc step (pooled_new c grace) y →
  call ∈ pd_calls y → c_phase call = Finishing (Err e) [] → retry e = true → rtc step y y' →
  (∀ x, x ∈ entries (l_pool (w_life (pd_world y'))) → conn x ≠ c_on call) ∧
  ∀ y'' new, step y' y'' → pd_calls y'' = new :: pd_calls y' → c_on new ≠ c_on call.
Proof.
  intros Hc Hr Hcall Hp He Hr'. pose proof (retry_buried _ _ _ _ Hc Hr Hcall Hp He) as Hb.
  assert (Hi : pooled_inv o c y) by by eapply pooled_steps_inv.
  destruct (buried_steps y y' (c_on call) Hi Hr' (call_on _ _ Hi Hcall) Hb) as (Hb' & Hlt & Hi'). split; [exact Hb'|].
  intros y'' new Hs Hnew. destruct (buried_step _ _ _ Hi' Hs Hlt Hb') as [Hb'' _].
  destruct Hs; cbn [pd_calls pd_world] in *;
    try (apply (f_equal length) in Hnew; do 2 (rewrite ?length_app in Hnew; cbn [length] in Hnew); exfalso; lia).
  injection Hnew as <-. by apply Hb''.
Qed.
End retry.

(** ** A query that is sent again *)

(** The call of [example_pooled] is answered and gives its lease back. *)
Definition link_submitted : Link :=
  match link_submit (link_spawn 1 10 5) (encoded example_query) 5 with Ret (_, l) => l | _ => link_spawn 1 10 5 end.

Definition link_answered : Link :=
  match dispatch (l_conn link_submitted) (encoded (with_id example_reply 5)) with
  | Ret (_, c) => with_conn link_submitted c
  | _ => link_submitted
  end.

Definition life_told : Life (C:=nat) := next_life example_placed.1 (OpComplete example_placed.2).
Definition life_left : Life (C:=nat) := next_life life_told (OpDrop (λ _, false) example_placed.2 6).

Definition answered_call (notes : list LeaseNote) : Call := set_phase example_call (Finishing (Ok example_reply) notes).

(** The next caller gets the same connection, which ends before it submits. *)
Definition placed_again : Life (C:=nat) * Lease :=
  match acquire_turn example_observer life_left 50 7 false false (λ _, true) (λ _, false) with
  | Some (s, inl (Ok l)) => (s, l)
  | _ => (life_left, mkLease 9 false)
  end.

Definition link_ended : Link := with_conn link_answered (fail (l_conn link_answered) (failure_closed "reset")).

Definition link_refused : Link :=
  match link_submit link_ended (encoded example_query) 8 with Ret (_, l) => l | _ => link_ended end.

Definition second_call (phase : Phase) : Call := mkCall placed_again.2 0 example_query phase.

Definition example_error : AttemptError := mkAttemptError (Transport "upstream connection is closed") true.

Definition example_retrying : Pooled :=
  mkPooled (mkWorld (next_life placed_again.1 (OpDead (λ _, false) placed_again.2)) 0 [] [placed_again.2])
    [link_refused] [second_call (Finishing (Err example_error) [])].

Notation example_step := (pooled_step example_observer example_pool_config 10).

Lemma step_to (y y1 y' : Pooled) : example_step y y1 → y1 = y' → example_step y y'.
Proof. by intros ? <-. Qed.

Definition no_lease (s : Life (C:=nat)) (callers : list Caller) : World (C:=nat) := mkWorld s 0 callers [].

Definition first_call (phase : Phase) : Call := set_phase example_call phase.

(** The first call with its lease still held, over the given connection. *)
Definition first_state (s : Life (C:=nat)) (link : Link) (phase : Phase) : Pooled :=
  mkPooled (mkWorld s 0 [] [example_placed.2]) [link] [first_call phase].

Lemma first_submitted : example_step example_pooled (first_state example_placed.1 link_submitted (Sent 5 0)).
Proof.
  eapply step_to.
  - eapply (pd_submit _ _ _ (mkWorld example_placed.1 0 [] [example_placed.2]) [link_spawn 1 10 5] [] example_call []
      (link_spawn 1 10 5) link_submitted (encoded example_query) 5 (Ok (5, 0)%Z)); try reflexivity; vm_compute; done.
  - vm_compute. reflexivity.
Qed.

Lemma first_dispatched :
  example_step (first_state example_placed.1 link_submitted (Sent 5 0)) (first_state example_placed.1 link_answered (Sent 5 0)).
Proof.
  eapply step_to.
  - eapply (pd_link _ _ _ _ [link_submitted] _ 0 link_submitted (with_conn link_submitted (l_conn link_answered))); [reflexivity|].
    apply (lm_frame link_submitted (encoded (with_id example_reply 5)) true (l_conn link_answered)). vm_compute. reflexivity.
  - vm_compute. reflexivity.
Qed.

Lemma first_answered :
  example_step (first_state example_placed.1 link_answered (Sent 5 0))
    (first_state example_placed.1 link_answered (Finishing (Ok example_reply) [Complete])).
Proof.
  eapply step_to.
  - eapply (pd_reply _ _ _ (mkWorld example_placed.1 0 [] [example_placed.2]) [link_answered] [] (first_call (Sent 5 0)) [] link_answered
      5 0 (Ok (with_id example_reply 5))); [reflexivity..|]. vm_compute. apply list_elem_of_here.
  - vm_compute. reflexivity.
Qed.

Lemma first_told :
  example_step (first_state example_placed.1 link_answered (Finishing (Ok example_reply) [Complete]))
    (first_state life_told link_answered (Finishing (Ok example_reply) [])).
Proof.
  eapply step_to.
  - eapply (pd_note _ _ _ example_placed.1 life_told 0 [] [example_placed.2] [link_answered] []
      (first_call (Finishing (Ok example_reply) [Complete])) [] (Ok example_reply) Complete [] (λ _, false)); vm_compute; reflexivity.
  - vm_compute. reflexivity.
Qed.

Lemma first_left :
  example_step (first_state life_told link_answered (Finishing (Ok example_reply) []))
    (mkPooled (mkWorld life_left 1 [] []) [link_answered] []).
Proof.
  eapply step_to.
  - eapply (pd_leave _ _ _ life_told life_left 0 [] [] [] [link_answered] []
      (first_call (Finishing (Ok example_reply) [])) [] (λ _, false) 6); vm_compute; reflexivity.
  - vm_compute. reflexivity.
Qed.

(** The second call, over the given connection. *)
Definition second_state (link : Link) (phase : Phase) : Pooled :=
  mkPooled (mkWorld placed_again.1 0 [] [placed_again.2]) [link] [second_call phase].

Definition placing : Pooled := mkPooled (mkWorld life_left 0 [Placing 50 false false] []) [link_answered] [].

Lemma second_started : example_step (mkPooled (mkWorld life_left 1 [] []) [link_answered] []) placing.
Proof.
  unfold placing. eapply (pd_pool _ _ _ (mkWorld life_left 1 [] []) (mkWorld life_left 0 [Placing 50 false false] []) None); cbn [w_leases w_life].
  - apply (ws_start example_observer (mkWorld life_left 1 [] []) (mkWorld life_left 0 [Placing 50 false false] []) 50 false). reflexivity.
  - done.
  - done.
Qed.

Lemma second_placed : example_step placing (second_state link_answered Leased).
Proof.
  eapply step_to.
  - eapply (pd_lease _ _ _ (mkWorld life_left 0 [Placing 50 false false] []) (mkWorld placed_again.1 0 [] [placed_again.2])
      [link_answered] [] (Placing 50 false false) 7 placed_again.2
      (default (mkEntry 0 0 0 0 0 false 0 None) (head (entries (l_pool placed_again.1)))) example_query).
    + eapply (ws_leased example_observer life_left placed_again.1 0 [] [] [] 50 false false (λ _, true) (λ _, false) 7 placed_again.2);
        vm_compute; reflexivity.
    + vm_compute. apply list_elem_of_here.
    + vm_compute. reflexivity.
  - vm_compute. reflexivity.
Qed.

Lemma second_link_ended : example_step (second_state link_answered Leased) (second_state link_ended Leased).
Proof.
  eapply step_to.
  - eapply (pd_link _ _ _ _ [link_answered] _ 0 link_answered); [reflexivity|]. apply (lm_end link_answered false "reset").
  - vm_compute. reflexivity.
Qed.

Lemma second_refused :
  example_step (second_state link_ended Leased) (second_state link_refused (Finishing (Err example_error) [MarkDead])).
Proof.
  eapply step_to.
  - eapply (pd_submit _ _ _ (mkWorld placed_again.1 0 [] [placed_again.2]) [link_ended] [] (second_call Leased) [] link_ended
      link_refused (encoded example_query) 8 (Err (failure_closed "upstream connection is closed"))); vm_compute; done.
  - vm_compute. reflexivity.
Qed.

Lemma second_told : example_step (second_state link_refused (Finishing (Err example_error) [MarkDead])) example_retrying.
Proof.
  eapply step_to.
  - eapply (pd_note _ _ _ placed_again.1 (next_life placed_again.1 (OpDead (λ _, false) placed_again.2)) 0 [] [placed_again.2]
      [link_refused] [] (second_call (Finishing (Err example_error) [MarkDead])) [] (Err example_error) MarkDead [] (λ _, false));
      vm_compute; reflexivity.
  - vm_compute. reflexivity.
Qed.

Lemma example_retrying_reached : rtc example_step (pooled_new example_pool_config 100) example_retrying.
Proof.
  etrans; [exact example_pooled_reached|].
  eapply rtc_l; [exact first_submitted|]. eapply rtc_l; [exact first_dispatched|]. eapply rtc_l; [exact first_answered|].
  eapply rtc_l; [exact first_told|]. eapply rtc_l; [exact first_left|]. eapply rtc_l; [exact second_started|].
  eapply rtc_l; [exact second_placed|]. eapply rtc_l; [exact second_link_ended|]. eapply rtc_l; [exact second_refused|].
  apply rtc_once. exact second_told.
Qed.

Lemma retry_elsewhere_witness :
  (∀ x, x ∈ entries (l_pool (w_life (pd_world example_retrying))) → conn x ≠ 0) ∧
  ∀ y new, example_step example_retrying y → pd_calls y = new :: pd_calls example_retrying → c_on new ≠ 0.
Proof.
  exact (retry_elsewhere example_observer example_pool_config 10 100 example_retrying (second_call (Finishing (Err example_error) []))
    example_error example_retrying example_configured example_retrying_reached (list_elem_of_here _ _) eq_refl eq_refl (rtc_refl _ _)).
Defined.
