(* ===== verification/Server.v ===== *)
(** * The listening server

    Models [crates/dns-lattice/src/server/mod.rs]: answering one decoded query,
    the UDP reply with its size limit and truncation, the loop of a TCP
    connection, the DoQ stream and the DoH requests over HTTP/1.1, HTTP/2 and
    HTTP/3. The resolver is any stateful function of a query, of which
    [Resolve.resolve] is one; base64 is a parameter; a stream is Transport.v's. *)

From Stdlib Require Import Ascii.
From stdpp Require Import base numbers list strings.
From S2P Require Import Prelude CoreError Name RecordData Edns Header Message Response Transport ResponseWf.

Definition MIN_EDNS_UDP_PAYLOAD_SIZE : Z := 512.
Definition BADVERS_EXTENDED_RCODE : Z := 1.

Record DohListenerConfig : Type := mkDohConfig { path : string }.
Definition doh_listener_config_default : DohListenerConfig := mkDohConfig "/dns-query".

(** [ServerBuilder]; [Tls] and [Quic] are the configurations the caller gives. *)
Record ServerBuilder (Resolver Tls Quic : Type) : Type := mkServerBuilder {
  resolver : Resolver;
  udp_addrs : list SocketAddr;
  tcp_addrs : list SocketAddr;
  dot_addrs : list (SocketAddr * Tls);
  doh_addrs : list (SocketAddr * Tls * DohListenerConfig);
  doh3_addrs : list (SocketAddr * Quic * DohListenerConfig);
  doq_addrs : list (SocketAddr * Quic);
  server_edns_size : Z;
}.
Arguments mkServerBuilder {Resolver Tls Quic}.
Arguments resolver {Resolver Tls Quic}.
Arguments udp_addrs {Resolver Tls Quic}.
Arguments tcp_addrs {Resolver Tls Quic}.
Arguments dot_addrs {Resolver Tls Quic}.
Arguments doh_addrs {Resolver Tls Quic}.
Arguments doh3_addrs {Resolver Tls Quic}.
Arguments doq_addrs {Resolver Tls Quic}.
Arguments server_edns_size {Resolver Tls Quic}.

Section builder.
Context {Resolver Tls Quic : Type}.
Implicit Types (b : ServerBuilder Resolver Tls Quic).

Definition server_new (r : Resolver) : ServerBuilder Resolver Tls Quic :=
  mkServerBuilder r [] [] [] [] [] [] DEFAULT_EDNS_UDP_PAYLOAD_SIZE.
Definition edns_udp_payload_size b (size : Z) :=
  mkServerBuilder (resolver b) (udp_addrs b) (tcp_addrs b) (dot_addrs b) (doh_addrs b) (doh3_addrs b) (doq_addrs b)
    (Z.max size MIN_EDNS_UDP_PAYLOAD_SIZE).
Definition udp_addr b (addr : SocketAddr) :=
  mkServerBuilder (resolver b) (udp_addrs b ++ [addr]) (tcp_addrs b) (dot_addrs b) (doh_addrs b) (doh3_addrs b)
    (doq_addrs b) (server_edns_size b).
Definition tcp_addr b (addr : SocketAddr) :=
  mkServerBuilder (resolver b) (udp_addrs b) (tcp_addrs b ++ [addr]) (dot_addrs b) (doh_addrs b) (doh3_addrs b)
    (doq_addrs b) (server_edns_size b).
Definition dot_addr b (addr : SocketAddr) (tls : Tls) :=
  mkServerBuilder (resolver b) (udp_addrs b) (tcp_addrs b) (dot_addrs b ++ [(addr, tls)]) (doh_addrs b) (doh3_addrs b)
    (doq_addrs b) (server_edns_size b).
Definition doh_addr b (addr : SocketAddr) (tls : Tls) (c : DohListenerConfig) :=
  mkServerBuilder (resolver b) (udp_addrs b) (tcp_addrs b) (dot_addrs b) (doh_addrs b ++ [(addr, tls, c)]) (doh3_addrs b)
    (doq_addrs b) (server_edns_size b).
Definition doh3_addr b (addr : SocketAddr) (quic : Quic) (c : DohListenerConfig) :=
  mkServerBuilder (resolver b) (udp_addrs b) (tcp_addrs b) (dot_addrs b) (doh_addrs b) (doh3_addrs b ++ [(addr, quic, c)])
    (doq_addrs b) (server_edns_size b).
Definition doq_addr b (addr : SocketAddr) (quic : Quic) :=
  mkServerBuilder (resolver b) (udp_addrs b) (tcp_addrs b) (dot_addrs b) (doh_addrs b) (doh3_addrs b)
    (doq_addrs b ++ [(addr, quic)]) (server_edns_size b).
End builder.

(** The OPT record of an answer to a query with [query_edns]. *)
Definition finalise_edns (query_edns : option Edns) (response : Message) (edns_max : Z) : Message :=
  let response_edns :=
    match query_edns with
    | Some query_edns =>
        let e :=
          match edns response with
          | Ok (Some e) => e
          | _ => set_dnssec_ok (edns_new edns_max) (dnssec_ok query_edns)
          end in
        Some (set_version (set_udp_payload_size e edns_max) 0)
    | None => None
    end in
  set_edns response response_edns.

(** The answers given without the resolver: to a malformed OPT record and to an
    unknown EDNS version. *)
Definition early_answer (query : Message) (edns_max : Z) : option Message :=
  match edns query with
  | Err _ => Some (set_edns (local_response query FormErr) (Some (edns_new edns_max)))
  | Ok (Some e) =>
      if decide (0 < version e)%Z
      then Some (set_edns (local_response query NoError)
                   (Some (set_dnssec_ok (set_extended_rcode (edns_new edns_max) BADVERS_EXTENDED_RCODE) (dnssec_ok e))))
      else None
  | Ok None => None
  end.

Definition udp_response_limit (query : Message) (edns_max : Z) : nat :=
  match edns query with
  | Ok (Some e) => Z.to_nat (Z.min (Z.max (udp_payload_size e) MIN_EDNS_UDP_PAYLOAD_SIZE) edns_max)
  | _ => UDP_MAX_RESPONSE_LEN
  end.

(** A reply that is too long: without records, with its OPT record, [TC] set. *)
Definition truncate (response : Message) : Message :=
  let h := header response in
  set_edns (mkMessage (mkHeader (id h) (qr h) (opcode h) (authoritative h) true (recursion_desired h)
              (recursion_available h) (rcode h)) (questions response) [] [] [])
    (match edns response with Ok e => e | Err _ => None end).

(** The OPT record without its options. *)
Definition without_options (response : Message) : Message :=
  match edns response with
  | Ok (Some e) => set_edns response (Some (clear_options e))
  | _ => response
  end.

(** The bytes of a UDP reply; [None] when it does not encode. *)
Definition udp_reply (response : Message) (limit : nat) : option (list Z) :=
  match encode response with
  | Err _ => None
  | Ok encoded =>
      if decide (limit < length encoded) then
        let response := truncate response in
        match encode response with
        | Err _ => None
        | Ok encoded =>
            if decide (limit < length encoded) then ok (encode (without_options response)) else Some encoded
        end
      else Some encoded
  end.

(** ** HTTP *)

Inductive Method : Type :=
  | GET
  | POST
  | OtherMethod.

(** A request: the path, the query string, the method and the body, [None] when
    reading it fails. *)
Record Request : Type := mkRequest {
  r_path : string;
  r_query : option string;
  r_method : Method;
  r_body : option (list Z);
}.

(** [str::split_once('=')] *)
Fixpoint split_once (c : Ascii.ascii) (s : string) : option (string * string) :=
  match s with
  | EmptyString => None
  | String a s =>
      if decide (a = c) then Some (EmptyString, s)
      else '(x, y) ← split_once c s; Some (String a x, y)
  end.

(** [str::split('&')] *)
Fixpoint split (c : Ascii.ascii) (s : string) : list string :=
  match s with
  | EmptyString => [EmptyString]
  | String a s =>
      if decide (a = c) then EmptyString :: split c s
      else match split c s with
           | x :: xs => String a x :: xs
           | [] => [String a EmptyString]
           end
  end.

(** The value of the first [dns] pair. *)
Definition dns_parameter (query : string) : option string :=
  head (omap (λ pair,
    '(key, value) ← split_once "="%char pair;
    if decide (key = "dns"%string) then Some value else None) (split "&"%char query)).

(** The body of a response is empty unless its status is 200. *)
Notation HttpResponse := (Z * list Z)%type.

Section server.
Context {State : Type} (resolve : Message → State → Run Error (Result Error Message * State)).
Context (base64_decode : string → option (list Z)).
Context (edns_max : Z).

Definition answer (query : Message) (s : State) : Run Error (Message * State) :=
  match early_answer query edns_max with
  | Some response => Ret (response, s)
  | None =>
      '(r, s) ← resolve query s;
      let response := match r with Ok answer => answer | Err _ => local_response query ServFail end in
      Ret (finalise_edns (match edns query with Ok e => e | Err _ => None end) response edns_max, s)
  end.

(** The reply sent for one datagram, if any. *)
Definition handle_udp_datagram (payload : list Z) (s : State) : Run Error (option (list Z) * State) :=
  match decode payload with
  | Ret query =>
      '(response, s) ← answer query s;
      Ret (udp_reply response (udp_response_limit query edns_max), s)
  | Throw _ => Ret (None, s)
  | Panic => Panic
  | Hang => Hang
  end.

(** The loop of one connection: the stream as it ends. Every round reads at
    least the two bytes of a length, so the bytes to come are fuel enough. *)
Fixpoint handle_tcp_connection (fuel : nat) (stream : Stream) (s : State) : Run Error (Stream * State) :=
  match fuel with
  | O => Hang
  | S fuel =>
      match read_framed stream with
      | Ret (query, stream) =>
          '(response, s) ← answer query s;
          match write_framed stream response with
          | Ret stream => handle_tcp_connection fuel stream s
          | Throw _ => Ret (stream, s)
          | Panic => Panic
          | Hang => Hang
          end
      | Throw _ => Ret (stream, s)
      | Panic => Panic
      | Hang => Hang
      end
  end.

(** One DoQ stream: one query, one response. *)
Definition handle_doq_stream (stream : Stream) (s : State) : Run Error (Stream * State) :=
  match read_framed stream with
  | Ret (query, stream) =>
      '(response, s) ← answer query s;
      match write_framed stream response with
      | Ret stream => Ret (stream, s)
      | Throw _ => Ret (stream, s)
      | Panic => Panic
      | Hang => Hang
      end
  | Throw _ => Ret (stream, s)
  | Panic => Panic
  | Hang => Hang
  end.

Definition extract_query_bytes (req : Request) : option (list Z) :=
  match r_method req with
  | GET => query ← r_query req; encoded ← dns_parameter query; base64_decode encoded
  | POST => r_body req
  | OtherMethod => None
  end.

Definition http_status_response (status : Z) : HttpResponse := (status, []).

Definition encoded_response (response : Message) : HttpResponse :=
  match encode response with Ok bytes => (200%Z, bytes) | Err _ => http_status_response 500 end.

Definition handle_doh_request (config : DohListenerConfig) (req : Request) (s : State) : Run Error (HttpResponse * State) :=
  if negb (bool_decide (r_path req = path config)) then Ret (http_status_response 404, s)
  else
    match extract_query_bytes req with
    | None => Ret (http_status_response 400, s)
    | Some query_bytes =>
        match decode query_bytes with
        | Ret query => '(response, s) ← answer query s; Ret (encoded_response response, s)
        | Throw _ => Ret (http_status_response 400, s)
        | Panic => Panic
        | Hang => Hang
        end
    end.

(** [extract_doh3_query_bytes]: the body was read before, as far as it came. *)
Definition extract_doh3_query_bytes (req : Request) (body : list Z) : option (list Z) :=
  match r_method req with
  | GET => query ← r_query req; encoded ← dns_parameter query; base64_decode encoded
  | POST => Some body
  | OtherMethod => None
  end.

(** A request of [serve_doh3]'s inner task. *)
Definition handle_doh3_request (config : DohListenerConfig) (req : Request) (body : list Z) (s : State) :
    Run Error (HttpResponse * State) :=
  match extract_doh3_query_bytes req body with
  | None => Ret (http_status_response 400, s)
  | Some query_bytes =>
      match decode query_bytes with
      | Ret query =>
          if bool_decide (r_path req = path config)
          then '(response, s) ← answer query s; Ret (encoded_response response, s)
          else Ret (http_status_response 404, s)
      | Throw _ => Ret (http_status_response 400, s)
      | Panic => Panic
      | Hang => Hang
      end
  end.
End server.

(** ** What an answer is *)

(** The OPT record of a response, by the query's. *)
Definition response_edns_ok (query response : Message) (edns_max : Z) : Prop :=
  match edns query with
  | Ok None => edns response = Ok None
  | Err _ => edns response = Ok (Some (edns_new edns_max)) ∧ rcode (header response) = FormErr
  | Ok (Some q) => ∃ e, edns response = Ok (Some e) ∧ udp_payload_size e = edns_max ∧ version e = 0%Z ∧
      ((0 < version q)%Z → extended_rcode e = 1%Z ∧ dnssec_ok e = dnssec_ok q ∧ options e = [] ∧
         rcode (header response) = NoError)
  end.

Lemma early_answer_spec query edns_max response :
  wf_message query → is_u16 edns_max → early_answer query edns_max = Some response →
  wf_message response ∧ questions response = questions query ∧ response_edns_ok query response edns_max.
Proof.
  intros Hq Hm. unfold early_answer, response_edns_ok. destruct (edns query) as [[q|]|e] eqn:Eq; [| done |].
  - case_decide as Hv; [|done]. intros [= <-].
    assert (He : wf_edns (set_dnssec_ok (set_extended_rcode (edns_new edns_max) BADVERS_EXTENDED_RCODE) (dnssec_ok q))).
    { destruct (wf_edns_new edns_max Hm) as (H1 & _ & H3 & H4). split; [exact H1|].
      split; [cbn; unfold BADVERS_EXTENDED_RCODE; lia|]. by split. }
    split; [apply wf_set_edns; [by apply wf_local_response|done]|]. split; [done|].
    eexists. split; [by apply edns_set_some|]. done.
  - intros [= <-]. pose proof (wf_edns_new edns_max Hm) as He.
    split; [apply wf_set_edns; [by apply wf_local_response|done]|]. split; [done|].
    split; [by apply edns_set_some|done].
Qed.

Lemma finalise_edns_spec query response edns_max :
  wf_message response → is_u16 edns_max → early_answer query edns_max = None →
  let final := finalise_edns (match edns query with Ok e => e | Err _ => None end) response edns_max in
  wf_message final ∧ questions final = questions response ∧ response_edns_ok query final edns_max.
Proof.
  intros Hr Hm. unfold early_answer, finalise_edns, response_edns_ok. cbn zeta.
  destruct (edns query) as [[q|]|e]; [| |done].
  - case_decide as Hv; [done|]. intros _. set (e := match edns response with Ok (Some e) => e | _ => _ end).
    assert (He : wf_edns (set_version (set_udp_payload_size e edns_max) 0)).
    { assert (He : wf_edns e).
      { subst e. destruct (edns response) as [[e|]|] eqn:Ee; [by eapply edns_wf| |]; by apply wf_edns_new. }
      destruct He as (_ & H1 & _ & H2). split; [exact Hm|]. split; [exact H1|]. split; [cbn; lia|exact H2]. }
    split; [by apply wf_set_edns|]. split; [done|]. eexists. split; [by apply edns_set_some|]. split; [done|].
    split; [done|]. intros H. lia.
  - intros _. split; [by apply wf_set_edns|]. split; [done|]. apply edns_set_none.
Qed.

Lemma wf_clear_options e : wf_edns e → wf_edns (clear_options e).
Proof. intros (H1 & H2 & H3 & _). split; [exact H1|]. split; [exact H2|]. split; [exact H3|constructor]. Qed.

(** ** The size of a UDP reply *)

Lemma length_question_wire_le q : wf_question q → length (question_wire q) ≤ 259.
Proof.
  intros ([_ Hn] & _). unfold question_wire. rewrite !length_app, !length_to_be, length_name_wire. lia.
Qed.

(** A message with at most one question and no record but an OPT record
    without options. *)
Lemma length_small_wire h qs x :
  Forall wf_question qs → length qs ≤ 1 →
  match x with [] => True | [e] => ∃ o, e = to_record o ∧ options o = [] | _ => False end →
  length (message_wire (mkMessage h qs [] [] x)) ≤ 282.
Proof.
  intros Hq Hl Hx. unfold message_wire. cbn [questions answers authorities additionals header].
  rewrite !length_app, length_header_wire. unfold many_wire at 2 3. cbn [map concat length].
  assert (length (many_wire question_wire qs) ≤ 259).
  { destruct Hq as [|q qs Hq Hqs]; [cbn; lia|]. destruct qs; [|cbn in Hl; lia].
    unfold many_wire. cbn [map concat]. rewrite app_nil_r. by apply length_question_wire_le. }
  assert (length (many_wire rr_wire x) ≤ 11).
  { destruct x as [|e [|e2 x]]; [cbn; lia| |done]. destruct Hx as (o & -> & Ho).
    unfold many_wire. cbn [map concat]. rewrite app_nil_r. unfold rr_wire, rr_rest, to_record. rewrite Ho.
    cbn [rr_name rr_rdata rr_class rr_ttl options_data]. rewrite !length_app, !length_to_be, length_name_wire.
    cbn. lia. }
  lia.
Qed.

Lemma encode_wf m : wf_message m → encode m = if decide (fits (length (message_wire m))) then Ok (message_wire m) else Err MessageTooLong.
Proof. intros H. unfold encode. rewrite encode_into_wf by done. done. Qed.

Lemma decode_wire m : wf_message m → fits (length (message_wire m)) → decode (message_wire m) = Ret m.
Proof. intros H Hf. rewrite <-(app_nil_r (message_wire m)). by apply decode_message_wire. Qed.

(** An OPT record is not longer once parsed and written again. *)
Lemma parse_options_length fuel declared rest acc opts :
  parse_options fuel declared rest acc = Ok opts →
  length (options_data opts) ≤ length (options_data acc) + length rest.
Proof.
  revert rest acc. induction fuel as [|fuel IH]; intros rest acc H; cbn [parse_options] in H; [by injection H as <-; lia|].
  destruct rest as [|c1 [|c0 [|l1 [|l0 rest]]]]; try done; [injection H as <-; lia|].
  case_decide as Hl; [done|]. apply IH in H. rewrite length_drop in H.
  unfold options_data in H at 2. rewrite map_app, concat_app, length_app in H. cbn [map concat opt_code opt_bytes] in H.
  rewrite app_nil_r, !length_app, !length_to_be, length_take in H. fold (options_data acc) in H. cbn [length]. lia.
Qed.

Lemma edns_record_length m e :
  wf_message m → edns m = Ok (Some e) → length (rr_wire (to_record e)) ≤ length (many_wire rr_wire (additionals m)).
Proof.
  intros Hm He. unfold edns in He. pose proof (find_opt_spec (additionals m)) as Hs.
  destruct (find_opt None (additionals m)) as [[[r d]|]|]; cbn [mbind result_bind] in He; try done.
  destruct Hs as (_ & Hr & Hd). unfold from_record in He. destruct (negb _); [done|].
  apply result_bind_ok in He as (e' & He & Hee). injection Hee as <-.
  apply result_bind_ok in He as (opts & Ho & He). injection He as <-. apply parse_options_length in Ho. cbn in Ho.
  transitivity (length (rr_wire r)).
  - unfold rr_wire, rr_rest, to_record. cbn [rr_name rr_rdata rr_class rr_ttl options].
    rewrite !length_app, !length_to_be, !length_name_wire.
    assert (length (rdata_wire (Unknown OPT_RTYPE (options_data opts))) ≤ length (rdata_wire (rr_rdata r))).
    { unfold opt_data in Hd. destruct (rr_rdata r); try done. case_decide; [|done]. injection Hd as ->. exact Ho. }
    assert (total_length root ≤ total_length (rr_name r)) by (unfold total_length; cbn; lia). lia.
  - clear -Hr. unfold many_wire. induction Hr as [x l|x y l _ IH]; cbn [map concat]; rewrite length_app; lia.
Qed.

(** What is left of a response that was too long. *)
Record truncated_form (response m : Message) : Prop := {
  tf_header : header m = header (truncate response);
  tf_truncated : truncated (header m) = true;
  tf_questions : questions m = questions response;
  tf_records : answers m = [] ∧ authorities m = [] ∧ length (additionals m) ≤ 1;
  tf_edns : edns m = edns response ∨ ∃ e, edns response = Ok (Some e) ∧ edns m = Ok (Some (clear_options e));
}.

Lemma wf_truncate response : wf_message response → wf_message (truncate response).
Proof.
  intros Hr. pose proof (edns_wf response) as He. destruct Hr as (Hh & Hq & Hrest). apply wf_set_edns.
  - split; [done|]. split; [done|]. split_and!; constructor.
  - destruct (edns response) as [[e|]|] eqn:Ee; try done. by apply He.
Qed.

Lemma truncate_additionals response e :
  edns response = Ok e → additionals (truncate response) = option_list (to_record <$> e).
Proof. intros E. unfold truncate. rewrite E. by destruct e. Qed.

Lemma without_options_truncate response e :
  wf_message response → edns response = Ok e →
  edns (truncate response) = edns response ∧
  without_options (truncate response) = set_edns (truncate response) (clear_options <$> e) ∧
  additionals (without_options (truncate response)) = option_list (to_record ∘ clear_options <$> e).
Proof.
  intros Hr Ee. assert (He : edns (truncate response) = edns response).
  { unfold truncate. rewrite Ee. destruct e as [e|]; [|apply edns_set_none]. apply edns_set_some. by eapply edns_wf. }
  assert (Hw : without_options (truncate response) = set_edns (truncate response) (clear_options <$> e)).
  { unfold without_options. rewrite He, Ee. destruct e as [e|]; [done|]. unfold truncate. by rewrite Ee. }
  split; [exact He|]. split; [exact Hw|]. rewrite Hw. unfold set_edns at 1. cbn [additionals].
  rewrite (truncate_additionals _ _ Ee). by destruct e as [e|].
Qed.

Lemma truncate_form response :
  wf_message response → (∃ e, edns response = Ok e) →
  truncated_form response (truncate response) ∧ truncated_form response (without_options (truncate response)) ∧
  wf_message (without_options (truncate response)) ∧
  (length (questions response) ≤ 1 → length (message_wire (without_options (truncate response))) ≤ 282).
Proof.
  intros Hr (e & Ee). pose proof Hr as (Hh & Hq & _).
  pose proof (without_options_truncate _ _ Hr Ee) as (He & Hw & Hx). pose proof (truncate_additionals _ _ Ee) as Ht.
  assert (Hwf : wf_message (without_options (truncate response))).
  { rewrite Hw. apply wf_set_edns; [by apply wf_truncate|]. destruct e as [e|]; [|done].
    by apply wf_clear_options, (edns_wf response). }
  split; [|split; [|split; [exact Hwf|]]].
  - split; try done; [|by left]. split; [done|]. split; [done|]. rewrite Ht. destruct e; cbn; lia.
  - split; try (by rewrite Hw); [|].
    + split; [by rewrite Hw|]. split; [by rewrite Hw|]. rewrite Hx. destruct e; cbn; lia.
    + rewrite Hw, Ee. destruct e as [e|]; [right; exists e; split; [done|]|left; apply edns_set_none].
      apply edns_set_some. by apply wf_clear_options, (edns_wf response).
  - intros Hl. assert (without_options (truncate response) =
      mkMessage (header (truncate response)) (questions response) [] [] (option_list (to_record ∘ clear_options <$> e))) as ->.
    { rewrite <-Hx, Hw. reflexivity. }
    apply length_small_wire; [done|done|]. destruct e as [e|]; [|done]. by exists (clear_options e).
Qed.

Lemma truncate_fits response :
  wf_message response → (∃ e, edns response = Ok e) → fits (length (message_wire response)) →
  fits (length (message_wire (truncate response))).
Proof.
  intros Hr (e & Ee) Hf. eapply fits_le; [exact Hf|]. unfold message_wire. rewrite !length_app, !length_header_wire.
  assert (length (many_wire rr_wire (additionals (truncate response))) ≤ length (many_wire rr_wire (additionals response))).
  { rewrite (truncate_additionals _ _ Ee). destruct e as [e|]; [|cbn; lia].
    change (many_wire rr_wire (option_list (to_record <$> Some e))) with (rr_wire (to_record e) ++ []).
    rewrite app_nil_r. by apply edns_record_length. }
  cbn [truncate set_edns questions answers authorities] in *. unfold many_wire at 2 3. cbn [map concat length]. lia.
Qed.

Lemma udp_reply_spec response limit :
  wf_message response → (∃ e, edns response = Ok e) → 512 ≤ limit → length (questions response) ≤ 1 →
  match udp_reply response limit with
  | None => encode response = Err MessageTooLong
  | Some bytes => length bytes ≤ limit ∧ ∃ m, decode bytes = Ret m ∧
      (m = response ∨ (limit < length (message_wire response) ∧ truncated_form response m))
  end.
Proof.
  intros Hr He Hlim Hq. unfold udp_reply. rewrite (encode_wf response) by done.
  case_decide as Hf; [|done]. case_decide as Hl.
  2:{ split; [lia|]. exists response. split; [by apply decode_wire|by left]. }
  destruct (truncate_form response Hr He) as (Ht & Hw & Hwf & Hsmall). specialize (Hsmall Hq).
  cbn zeta. rewrite (encode_wf (truncate response)) by by apply wf_truncate. rewrite decide_True by by apply truncate_fits.
  case_decide as Hl2.
  - rewrite (encode_wf (without_options _)) by done. rewrite decide_True by (unfold fits; lia). cbn [ok].
    split; [lia|]. eexists. split; [apply decode_wire; [done|unfold fits; lia]|]. by right.
  - split; [lia|]. eexists. split; [apply decode_wire; [by apply wf_truncate|by apply truncate_fits]|]. by right.
Qed.

(** Whatever its length, a reply that is sent decodes to the response or to its
    truncated form. *)
Lemma udp_reply_decodes response limit bytes :
  wf_message response → (∃ e, edns response = Ok e) → udp_reply response limit = Some bytes →
  ∃ m, wf_message m ∧ decode bytes = Ret m ∧ (m = response ∨ truncated_form response m).
Proof.
  intros Hr He. assert (Henc : ∀ m, wf_message m → ∀ b, encode m = Ok b → decode b = Ret m).
  { intros m Hm b. rewrite encode_wf by done. case_decide; [|done]. intros [= <-]. by apply decode_wire. }
  destruct (truncate_form response Hr He) as (Ht & Hw & Hwf & _). unfold udp_reply.
  destruct (encode response) as [b|] eqn:E; [|done]. case_decide; [|intros [= <-]; exists response; auto].
  cbn zeta. destruct (encode (truncate response)) as [b1|] eqn:E1; [|done]. case_decide.
  - destruct (encode (without_options _)) as [b2|] eqn:E2; [|done]. intros [= <-]. eauto 10.
  - intros [= <-]. eauto 10 using wf_truncate.
Qed.

(** ** An answer is a reply to its query *)

Lemma early_reply query edns_max response :
  wf_message query → is_u16 edns_max → early_answer query edns_max = Some response → reply_to query response.
Proof.
  intros Hq Hm He. destruct (early_answer_spec _ _ _ Hq Hm He) as (Hw & Hqs & _). split; [done|].
  split; [| |rewrite Hqs; apply same_questions_refl]; unfold early_answer in He;
    (destruct (edns query) as [[e|]|]; [case_decide| |]; try done; by injection He as <-).
Qed.

Lemma finalise_reply query response edns_max :
  reply_to query response → is_u16 edns_max → early_answer query edns_max = None →
  reply_to query (finalise_edns (match edns query with Ok e => e | Err _ => None end) response edns_max).
Proof.
  intros [Hw [H1 H2 H3]] Hm He. destruct (finalise_edns_spec query response edns_max Hw Hm He) as (Hf & _). split; [done|by split].
Qed.

Lemma truncated_reply query response m :
  wf_message m → reply_to query response → m = response ∨ truncated_form response m → reply_to query m.
Proof.
  intros Hm Hr [->|[Hh _ Hq _ _]]; [done|]. destruct Hr as [_ [H1 H2 H3]]. split; [done|].
  split; [by rewrite Hh|by rewrite Hh|by rewrite Hq].
Qed.

(** ** The claims *)

Section claims.
Context {State : Type} (resolve : Message → State → Run Error (Result Error Message * State)).
Context (base64_decode : string → option (list Z)).
Context (edns_max : Z).

Lemma answer_run query s response s' :
  wf_message query → is_u16 edns_max →
  (∀ m s', resolve query s = Ret (Ok m, s') → wf_message m) →
  answer resolve edns_max query s = Ret (response, s') →
  wf_message response ∧ response_edns_ok query response edns_max ∧
  (questions response = questions query ∨ ∃ m, resolve query s = Ret (Ok m, s') ∧ questions response = questions m).
Proof.
  intros Hq Hm Hres. unfold answer. destruct (early_answer query edns_max) as [r|] eqn:Ee.
  { intros [-> ->]%ret_pair_inj. destruct (early_answer_spec _ _ _ Hq Hm Ee) as (? & ? & ?). auto. }
  intros H. apply run_bind_ret in H as ([r s1] & Er & H). apply ret_pair_inj in H as [<- ->].
  destruct r as [m|e].
  - destruct (finalise_edns_spec query m edns_max) as (H1 & H2 & H3); [by eapply Hres|done|done|].
    split; [done|]. split; [done|]. right. by exists m.
  - destruct (finalise_edns_spec query (local_response query ServFail) edns_max) as (H1 & H2 & H3);
      [by apply wf_local_response|done|done|]. split; [done|]. split; [done|]. by left.
Qed.

(** C32: A datagram that is a DNS message with at most one question gets at most
    one reply. Its OPT record follows the query's: none if the query had none,
    the server's payload size and version 0 if it had one, FORMERR for a
    malformed one and BADVERS for another version. The bytes sent never exceed
    the limit the query set (512 without EDNS); they decode to the whole answer,
    or, if that is longer than the limit, to the answer without records and with
    [TC] set. Nothing is sent only when the answer cannot be encoded at all. *)
Theorem udp_datagram_reply payload query s o s' :
  bytes_ok payload → (512 ≤ edns_max ≤ u16_max)%Z → decode payload = Ret query → length (questions query) ≤ 1 →
  (∀ m s', resolve query s = Ret (Ok m, s') → wf_message m ∧ length (questions m) ≤ 1) →
  handle_udp_datagram resolve edns_max payload s = Ret (o, s') →
  ∃ response, answer resolve edns_max query s = Ret (response, s') ∧ response_edns_ok query response edns_max ∧
    let limit := udp_response_limit query edns_max in
    limit ≤ match edns query with Ok (Some _) => Z.to_nat edns_max | _ => 512 end ∧
    match o with
    | None => encode response = Err MessageTooLong
    | Some bytes => length bytes ≤ limit ∧ ∃ m, decode bytes = Ret m ∧
        (m = response ∨ (limit < length (message_wire response) ∧ truncated_form response m))
    end.
Proof.
  intros Hb Hm Hd Hl Hres. unfold handle_udp_datagram. rewrite Hd. intros H.
  apply run_bind_ret in H as ([response s1] & Ea & H). apply ret_pair_inj in H as [<- ->].
  exists response. split; [done|].
  destruct (answer_run query s response s' (decode_ret_wf _ _ Hb Hd) ltac:(lia) (λ m s' E, proj1 (Hres m s' E)) Ea)
    as (Hw & He & Hq).
  split; [done|]. cbn zeta.
  assert (Hlim : 512 ≤ udp_response_limit query edns_max ≤ match edns query with Ok (Some _) => Z.to_nat edns_max | _ => 512 end).
  { unfold udp_response_limit, UDP_MAX_RESPONSE_LEN, MIN_EDNS_UDP_PAYLOAD_SIZE. destruct (edns query) as [[q|]|]; lia. }
  split; [apply Hlim|]. apply udp_reply_spec; [done| |apply Hlim|].
  - unfold response_edns_ok in He. destruct (edns query) as [[q|]|]; [destruct He as (e & -> & _)|..|destruct He as [-> _]]; eauto.
  - destruct Hq as [->|(m & E & ->)]; [done|]. apply (Hres _ _ E).
Qed.

(** The loop of a connection ends: the fuel is never what stops it. *)
Lemma read_framed_shorter stream query stream' :
  read_framed stream = Ret (query, stream') → length (s_in stream') < length (s_in stream).
Proof.
  unfold read_framed, read_exact. intros H. case_decide as H1; [|done]. cbn [mbind run_bind s_in] in H.
  case_decide as H2; [|done]. cbn [mbind run_bind] in H. apply run_bind_ret in H as (m & _ & H).
  apply ret_pair_inj in H as [_ <-]. cbn [s_in]. rewrite !length_drop. lia.
Qed.

Lemma read_framed_part stream query stream' :
  read_framed stream = Ret (query, stream') → part_of (s_in stream') (s_in stream).
Proof.
  unfold read_framed, read_exact. intros H. case_decide; [|done]. cbn [mbind run_bind s_in] in H.
  case_decide; [|done]. cbn [mbind run_bind] in H. apply run_bind_ret in H as (m & _ & H).
  apply ret_pair_inj in H as [_ <-]. cbn [s_in]. rewrite drop_drop. set (n := _ + _).
  rewrite <-(take_drop n (s_in stream)) at 2. apply part_suffix.
Qed.

Lemma write_framed_in stream m stream' : write_framed stream m = Ret stream' → s_in stream' = s_in stream.
Proof.
  unfold write_framed, write_all. intros H. apply run_bind_ret in H as (payload & _ & H). case_decide; [done|].
  destruct (s_writes stream) as [|[]]; try done. by injection H as <-.
Qed.

(** The frame a read takes off the stream, and the one a write puts on it. *)
Lemma read_framed_takes stream query stream' :
  bytes_ok (s_in stream) → read_framed stream = Ret (query, stream') →
  ∃ payload, s_in stream = frame payload ++ s_in stream' ∧ decode payload = Ret query ∧ bytes_ok payload ∧
    s_out stream' = s_out stream.
Proof.
  intros Hb. unfold read_framed, read_exact. intros H. case_decide as H1; [|done]. cbn [mbind run_bind s_in] in H.
  case_decide as H2; [|done]. cbn [mbind run_bind] in H. apply run_bind_ret in H as (m & Hd & H).
  apply ret_pair_inj in H as [<- <-]. set (n := Z.to_nat (from_be (take 2 (s_in stream)))) in *.
  rewrite length_drop in H2. exists (take n (drop 2 (s_in stream))). cbn [s_in s_out].
  split; [|split; [done|split; [by apply Forall_take, Forall_drop|done]]].
  assert (length (take 2 (s_in stream)) = 2) as Hl by (rewrite length_take; lia).
  unfold frame. rewrite length_take, length_drop, Nat.min_l by lia.
  pose proof (from_be_bound (take 2 (s_in stream)) ltac:(by apply Forall_take)) as Hr.
  unfold n at 1. rewrite Z2Nat.id by lia. rewrite <-Hl at 1. rewrite to_from_be by by apply Forall_take.
  by rewrite <-app_assoc, !take_drop.
Qed.

Lemma write_framed_frame stream m stream' :
  write_framed stream m = Ret stream' → ∃ body, encode m = Ok body ∧ s_out stream' = s_out stream ++ frame body.
Proof.
  unfold write_framed, write_all. intros H. apply run_bind_ret in H as (payload & He & H). case_decide; [done|].
  destruct (encode m) as [b|] eqn:E; [|done]. injection He as <-.
  destruct (s_writes stream) as [|[]]; try done. injection H as <-. by exists b.
Qed.

(** A connection is served to its end, unless its bytes make the decoder loop. *)
Lemma tcp_connection_ends fuel stream s :
  (∀ query s, ∃ r s', resolve query s = Ret (r, s')) → length (s_in stream) < fuel →
  (∃ stream' s', handle_tcp_connection resolve edns_max fuel stream s = Ret (stream', s')) ∨
  (handle_tcp_connection resolve edns_max fuel stream s = Hang ∧ loops_on (s_in stream)).
Proof.
  intros Hr. revert stream s. induction fuel as [|fuel IH]; intros stream s Hf; [lia|]. cbn [handle_tcp_connection].
  pose proof (read_framed_outcome stream) as [Hp Hh].
  destruct (read_framed stream) as [[query stream1]|e| |] eqn:Er; [|by eauto|done|by auto].
  pose proof (read_framed_part _ _ _ Er) as Hpart. apply read_framed_shorter in Er.
  assert (∃ response s1, answer resolve edns_max query s = Ret (response, s1)) as (response & s1 & ->).
  { unfold answer. destruct (early_answer _ _); [by eauto|]. destruct (Hr query s) as (r & s1 & ->). cbn. by eauto. }
  cbn [mbind run_bind]. pose proof (write_framed_outcome stream1 response) as [Hwp Hwh].
  destruct (write_framed stream1 response) as [stream2|e| |] eqn:Ew; [|by eauto|done..].
  apply write_framed_in in Ew. destruct (IH stream2 s1) as [?|[? Hl]]; [rewrite Ew; lia|by left|right].
  split; [done|]. rewrite Ew in Hl. by eapply loops_on_part.
Qed.
End claims.

(** ** What a reply with many questions does *)

(** 130 root questions to a resolver that fails. *)
Definition many_questions : Message :=
  mkMessage (mkHeader 1 false Query false false false false NoError) (repeat (mkQuestion root TA In) 130) [] [] [].

Definition failing_resolver (query : Message) (s : unit) : Run Error (Result Error Message * unit) := Ret (Err NoRoute, s).

(** The truncated reply keeps the questions, so it can exceed its limit and is
    sent all the same. *)
Lemma many_questions_over_limit :
  ∃ bytes, handle_udp_datagram failing_resolver 1232 (encoded many_questions) tt = Ret (Some bytes, tt) ∧
    udp_response_limit many_questions 1232 = 512 ∧ length bytes = 662.
Proof. eexists. split; [vm_compute; reflexivity|]. split; vm_compute; reflexivity. Qed.

(** The same request to another path: 404 over HTTP/2, 400 over HTTP/3. *)
Lemma doh3_path_differs :
  let req := mkRequest "/other" None POST (Some [0%Z]) in
  handle_doh_request failing_resolver (λ _, None) 1232 doh_listener_config_default req tt = Ret ((404%Z, []), tt) ∧
  handle_doh3_request failing_resolver (λ _, None) 1232 doh_listener_config_default req [0%Z] tt = Ret ((400%Z, []), tt).
Proof. split; vm_compute; reflexivity. Qed.

(** An answer with 40 TXT records to a query without EDNS. *)
Definition long_answer : Message :=
  mkMessage (mkHeader 4660 true Query false false true true NoError) (questions example_query)
    (repeat (mkRR example_name TTxt In 60 (Txt [[65; 66; 67; 68; 69; 70; 71; 72]%Z])) 40) [] [].

Definition long_resolver (query : Message) (s : unit) : Run Error (Result Error Message * unit) := Ret (Ok long_answer, s).

Lemma wf_long_answer : wf_message long_answer.
Proof.
  split; [repeat split; cbn; try lia|]. split; [apply wf_example_query|]. split; [|split; constructor].
  unfold long_answer. cbn [answers]. apply Forall_forall. intros r Hr%list_elem_of_In%repeat_spec. subst r.
  split; [apply (Forall_inv (proj1 (proj2 wf_example_query)))|]. split.
  { repeat constructor; cbn; lia. }
  split; [reflexivity|]. cbn. split; [exact I|lia].
Qed.

Lemma udp_datagram_reply_witness :
  ∃ bytes m, handle_udp_datagram long_resolver 512 (encoded example_query) tt = Ret (Some bytes, tt) ∧
    length bytes ≤ 512 ∧ decode bytes = Ret m ∧ truncated (header m) = true.
Proof.
  destruct (handle_udp_datagram long_resolver 512 (encoded example_query) tt) as [[[bytes|] []]| | |] eqn:E;
    try (vm_compute in E; discriminate).
  destruct (udp_datagram_reply long_resolver 512 (encoded example_query) example_query tt (Some bytes) tt)
    as (response & Ea & _ & _ & Hl & m & Hm & Hr).
  - apply (bool_decide_unpack _). vm_compute. exact I.
  - lia.
  - vm_compute. reflexivity.
  - vm_compute. lia.
  - intros m s' H. unfold long_resolver in H. apply ret_pair_inj in H as [[= <-] _]. split; [exact wf_long_answer|].
    vm_compute. lia.
  - exact E.
  - exists bytes, m. split; [reflexivity|]. split; [exact Hl|]. split; [exact Hm|].
    vm_compute in E. injection E as <-. vm_compute in Hm. injection Hm as <-. reflexivity.
Defined.
