(* ===== verification/Lifecycle.v ===== *)
(** * The life of a server

    Models the rest of [crates/dns-lattice/src/server/mod.rs]: [ServerBuilder::bind],
    [Server::serve_until] with its set of loops, the six accept loops, and the
    tasks they start for datagrams, connections, requests and streams, over the
    handlers of Server.v. What the operating system and the TLS, HTTP and QUIC
    libraries hand over is the event of a step; a task that runs is run to its
    end. Proved: how [bind] and [serve_until] end, that nothing is accepted after
    that, and that every UDP reply answers one accepted datagram. *)

From stdpp Require Import base numbers list strings.
From S2P Require Import Prelude CoreError Name RecordData Edns Header Message Response Transport Server.

(** ** Binding *)

Section bind.
Context {Resolver Tls Quic Udp Tcp Endpoint OS : Type}.
(** [UdpSocket::bind], [TcpListener::bind] and [quinn::Endpoint::server]. *)
Context (bind_udp : SocketAddr → OS → Result string Udp * OS).
Context (bind_tcp : SocketAddr → OS → Result string Tcp * OS).
Context (bind_quic : Quic → SocketAddr → OS → Result string Endpoint * OS).

Record Server : Type := mkServer {
  srv_resolver : Resolver;
  udp_sockets : list Udp;
  tcp_listeners : list Tcp;
  dot_listeners : list (Tcp * Tls);
  doh_listeners : list (Tcp * Tls * DohListenerConfig);
  doh3_endpoints : list (Endpoint * DohListenerConfig);
  doq_endpoints : list Endpoint;
  srv_edns_size : Z;
}.

(** One of [bind]'s loops: the first address that fails ends it. *)
Fixpoint bind_each {A S} (f : A → OS → Result string S * OS) (addrs : list A) (w : OS) : Result Error (list S) * OS :=
  match addrs with
  | [] => (Ok [], w)
  | a :: addrs =>
      match f a w with
      | (Err text, w) => (Err (Transport text), w)
      | (Ok s, w) =>
          match bind_each f addrs w with
          | (Ok ss, w) => (Ok (s :: ss), w)
          | (Err e, w) => (Err e, w)
          end
      end
  end.

(** [?] after a loop. *)
Definition and_then {A B} (m : Result Error A * OS) (f : A → OS → Result Error B * OS) : Result Error B * OS :=
  match m with (Ok a, w) => f a w | (Err e, w) => (Err e, w) end.

Definition bind (b : ServerBuilder Resolver Tls Quic) (w : OS) : Result Error Server * OS :=
  and_then (bind_each bind_udp (udp_addrs b) w) (λ udp w,
  and_then (bind_each bind_tcp (tcp_addrs b) w) (λ tcp w,
  and_then (bind_each (λ '(addr, tls) w,
    match bind_tcp addr w with (Ok s, w) => (Ok (s, tls), w) | (Err t, w) => (Err t, w) end) (dot_addrs b) w) (λ dot w,
  and_then (bind_each (λ '(addr, tls, config) w,
    match bind_tcp addr w with (Ok s, w) => (Ok (s, tls, config), w) | (Err t, w) => (Err t, w) end) (doh_addrs b) w) (λ doh w,
  and_then (bind_each (λ '(addr, quic, config) w,
    match bind_quic quic addr w with (Ok s, w) => (Ok (s, config), w) | (Err t, w) => (Err t, w) end) (doh3_addrs b) w) (λ doh3 w,
  and_then (bind_each (λ '(addr, quic) w, bind_quic quic addr w) (doq_addrs b) w) (λ doq w,
  (Ok (mkServer (resolver b) udp tcp dot doh doh3 doq (server_edns_size b)), w))))))).
End bind.
Arguments Server : clear implicits.

(** ** The accept loops *)

(** A QUIC connection for HTTP/3 once accepted: whether its handshake
    completed, the protocol it negotiated, whether HTTP/3 started on it, and the
    requests that arrive, [None] for one that could not be read. *)
Record Doh3Incoming : Type := mkDoh3Incoming {
  connected : bool;
  protocol : option string;
  h3_started : bool;
  requests : list (option (Request * list Z));
}.

Inductive Loop (Udp Tcp Tls Endpoint : Type) : Type :=
  | UdpLoop (socket : Udp)
  | TcpLoop (listener : Tcp)
  | DotLoop (listener : Tcp) (acceptor : Tls)
  | DohLoop (listener : Tcp) (acceptor : Tls) (config : DohListenerConfig)
  | Doh3Loop (endpoint : Endpoint) (config : DohListenerConfig)
  | DoqLoop (endpoint : Endpoint).
Arguments UdpLoop {Udp Tcp Tls Endpoint}.
Arguments TcpLoop {Udp Tcp Tls Endpoint}.
Arguments DotLoop {Udp Tcp Tls Endpoint}.
Arguments DohLoop {Udp Tcp Tls Endpoint}.
Arguments Doh3Loop {Udp Tcp Tls Endpoint}.
Arguments DoqLoop {Udp Tcp Tls Endpoint}.

(** The tasks the loops and their connections start. *)
Inductive Task (Udp : Type) : Type :=
  | UdpTask (socket : Udp) (payload : list Z) (from : SocketAddr)
  | TcpTask (stream : Stream)
  | DotTask (handshake : option Stream)
  | DohTask (config : DohListenerConfig) (handshake : option (list Request))
  | DohRequestTask (config : DohListenerConfig) (req : Request)
  | Doh3Task (config : DohListenerConfig) (incoming : Doh3Incoming)
  | Doh3RequestTask (config : DohListenerConfig) (req : Request) (body : list Z)
  | DoqTask (handshake : option (list Stream))
  | DoqStreamTask (stream : Stream).
Arguments UdpTask {Udp}.
Arguments TcpTask {Udp}.
Arguments DotTask {Udp}.
Arguments DohTask {Udp}.
Arguments DohRequestTask {Udp}.
Arguments Doh3Task {Udp}.
Arguments Doh3RequestTask {Udp}.
Arguments DoqTask {Udp}.
Arguments DoqStreamTask {Udp}.

(** What a loop's await gave it: the call's failure, a datagram, a connection
    with what its handshake will give, or the end of a closed endpoint. *)
Inductive Arrival : Type :=
  | Failed (text : string)
  | Datagram (payload : list Z) (from : SocketAddr)
  | Accepted (stream : Stream)
  | AcceptedTls (handshake : option Stream)
  | AcceptedHttp (handshake : option (list Request))
  | Incoming3 (incoming : Doh3Incoming)
  | IncomingQuic (handshake : option (list Stream))
  | EndpointClosed.

Section loops.
Context {Udp Tcp Tls Endpoint : Type}.

(** One turn of each loop: the task it starts, or what the loop returns.
    [None] when the await cannot give that. *)
Notation Turn := (option (Task Udp + Result Error unit)).

Definition serve_udp (socket : Udp) (a : Arrival) : Turn :=
  match a with
  | Failed text => Some (inr (Err (Transport text)))
  | Datagram payload from => Some (inl (UdpTask socket payload from))
  | _ => None
  end.

Definition serve_tcp (a : Arrival) : Turn :=
  match a with
  | Failed text => Some (inr (Err (Transport text)))
  | Accepted stream => Some (inl (TcpTask stream))
  | _ => None
  end.

Definition serve_dot (a : Arrival) : Turn :=
  match a with
  | Failed text => Some (inr (Err (Transport text)))
  | AcceptedTls handshake => Some (inl (DotTask handshake))
  | _ => None
  end.

Definition serve_doh (config : DohListenerConfig) (a : Arrival) : Turn :=
  match a with
  | Failed text => Some (inr (Err (Transport text)))
  | AcceptedHttp handshake => Some (inl (DohTask config handshake))
  | _ => None
  end.

Definition serve_doh3 (config : DohListenerConfig) (a : Arrival) : Turn :=
  match a with
  | EndpointClosed => Some (inr (Ok tt))
  | Incoming3 incoming => Some (inl (Doh3Task config incoming))
  | _ => None
  end.

Definition serve_doq (a : Arrival) : Turn :=
  match a with
  | EndpointClosed => Some (inr (Ok tt))
  | IncomingQuic handshake => Some (inl (DoqTask handshake))
  | _ => None
  end.

Definition loop_turn (l : Loop Udp Tcp Tls Endpoint) (a : Arrival) : Turn :=
  match l with
  | UdpLoop socket => serve_udp socket a
  | TcpLoop _ => serve_tcp a
  | DotLoop _ _ => serve_dot a
  | DohLoop _ _ config => serve_doh config a
  | Doh3Loop _ config => serve_doh3 config a
  | DoqLoop _ => serve_doq a
  end.

Definition loops_of {Resolver} (s : Server Resolver Tls Udp Tcp Endpoint) : list (Loop Udp Tcp Tls Endpoint) :=
  map UdpLoop (udp_sockets s) ++ map TcpLoop (tcp_listeners s) ++ map (λ '(l, a), DotLoop l a) (dot_listeners s) ++
  map (λ '(l, a, c), DohLoop l a c) (doh_listeners s) ++ map (λ '(e, c), Doh3Loop e c) (doh3_endpoints s) ++
  map DoqLoop (doq_endpoints s).

(** ** The running server *)

(** What a finished task sent or left behind. *)
Inductive Output : Type :=
  | UdpSent (socket : Udp) (to : SocketAddr) (bytes : list Z)
  | StreamDone (stream : Stream)
  | HttpSent (response : HttpResponse).

Context {State : Type} (resolve : Message → State → Run Error (Result Error Message * State)).
Context (base64_decode : string → option (list Z)).
Context (edns_max : Z).

Definition done_with {A} (m : Run Error (A * State)) (f : A → list Output) : Run Error (list Output * list (Task Udp) * State) :=
  '(a, s) ← m; Ret (f a, [], s).

(** The task of a DoT connection, of which the handshake may fail. *)
Definition dot_task (handshake : option Stream) (s : State) : Run Error (list Output * list (Task Udp) * State) :=
  match handshake with
  | Some stream =>
      done_with (handle_tcp_connection resolve edns_max (S (length (s_in stream))) stream s) (λ stream, [StreamDone stream])
  | None => Ret ([], [], s)
  end.

(** The tasks of the connections that carry many requests: one task for each. *)
Definition doh_task (config : DohListenerConfig) (handshake : option (list Request)) : list (Task Udp) :=
  match handshake with Some reqs => map (DohRequestTask config) reqs | None => [] end.

Definition doh3_task (config : DohListenerConfig) (incoming : Doh3Incoming) : list (Task Udp) :=
  if connected incoming && bool_decide (protocol incoming = Some "h3"%string) && h3_started incoming
  then map (λ '(req, body), Doh3RequestTask config req body) (omap (λ r, r) (requests incoming))
  else [].

Definition doq_task (handshake : option (list Stream)) : list (Task Udp) :=
  match handshake with Some streams => map DoqStreamTask streams | None => [] end.

(** A task run to its end: what it sent and the tasks it started. *)
Definition run_task (t : Task Udp) (s : State) : Run Error (list Output * list (Task Udp) * State) :=
  match t with
  | UdpTask socket payload from =>
      done_with (handle_udp_datagram resolve edns_max payload s)
        (λ reply, match reply with Some bytes => [UdpSent socket from bytes] | None => [] end)
  | TcpTask stream =>
      done_with (handle_tcp_connection resolve edns_max (S (length (s_in stream))) stream s) (λ stream, [StreamDone stream])
  | DotTask handshake => dot_task handshake s
  | DohTask config handshake => Ret ([], doh_task config handshake, s)
  | DohRequestTask config req =>
      done_with (handle_doh_request resolve base64_decode edns_max config req s) (λ response, [HttpSent response])
  | Doh3Task config incoming => Ret ([], doh3_task config incoming, s)
  | Doh3RequestTask config req body =>
      done_with (handle_doh3_request resolve base64_decode edns_max config req body s) (λ response, [HttpSent response])
  | DoqTask handshake => Ret ([], doq_task handshake, s)
  | DoqStreamTask stream => done_with (handle_doq_stream resolve edns_max stream s) (λ stream, [StreamDone stream])
  end.

(** [sv_result] is what [serve_until] returned; from then on its loops are
    aborted, while tasks already started go on. *)
Record Serving : Type := mkServing {
  sv_loops : list (Loop Udp Tcp Tls Endpoint);
  sv_result : option (Result Error unit);
  sv_tasks : list (Task Udp);
  sv_state : State;
  sv_out : list Output;
}.

Definition serve {Resolver} (srv : Server Resolver Tls Udp Tcp Endpoint) (s : State) : Serving :=
  mkServing (loops_of srv) None [] s [].

Inductive Event : Type :=
  | Arrive (i : nat) (a : Arrival)
  | LoopDied (i : nat) (text : string)
  | Shutdown
  | RunTask (k : nat).

Definition with_result (v : Serving) (r : Result Error unit) : Serving :=
  mkServing (sv_loops v) (Some r) (sv_tasks v) (sv_state v) (sv_out v).

(** An event of [serve_until]'s select or of a task; events that cannot
    happen change nothing. *)
Definition serve_until (v : Serving) (e : Event) : Run Error Serving :=
  match e with
  | RunTask k =>
      match sv_tasks v !! k with
      | Some t =>
          '(out, tasks, s) ← run_task t (sv_state v);
          Ret (mkServing (sv_loops v) (sv_result v) (delete k (sv_tasks v) ++ tasks) s (sv_out v ++ out))
      | None => Ret v
      end
  | _ =>
      match sv_result v with
      | Some _ => Ret v
      | None =>
          match e with
          | Shutdown => Ret (with_result v (Ok tt))
          | LoopDied i text =>
              match sv_loops v !! i with
              | Some _ => Ret (with_result v (Err (Transport text)))
              | None => Ret v
              end
          | Arrive i a =>
              match sv_loops v !! i ≫= (λ l, loop_turn l a) with
              | Some (inl t) => Ret (mkServing (sv_loops v) None (sv_tasks v ++ [t]) (sv_state v) (sv_out v))
              | Some (inr r) => Ret (with_result v r)
              | None => Ret v
              end
          | RunTask _ => Ret v
          end
      end
  end.

Fixpoint serve_events (v : Serving) (es : list Event) : Run Error Serving :=
  match es with
  | [] => Ret v
  | e :: es => v ← serve_until v e; serve_events v es
  end.
End loops.

(** ** Binding, as one loop *)

Section bind_spec.
Context {Resolver Tls Quic Udp Tcp Endpoint OS : Type}.
Context (bind_udp : SocketAddr → OS → Result string Udp * OS).
Context (bind_tcp : SocketAddr → OS → Result string Tcp * OS).
Context (bind_quic : Quic → SocketAddr → OS → Result string Endpoint * OS).

Inductive BindCall : Type :=
  | BindUdp (addr : SocketAddr)
  | BindTcp (addr : SocketAddr)
  | BindQuic (quic : Quic) (addr : SocketAddr).

(** What the caller asked for, in the order it is bound. *)
Definition bind_calls (b : ServerBuilder Resolver Tls Quic) : list BindCall :=
  map BindUdp (udp_addrs b) ++ map BindTcp (tcp_addrs b) ++ map (λ '(addr, _), BindTcp addr) (dot_addrs b) ++
  map (λ '(addr, _, _), BindTcp addr) (doh_addrs b) ++ map (λ '(addr, quic, _), BindQuic quic addr) (doh3_addrs b) ++
  map (λ '(addr, quic), BindQuic quic addr) (doq_addrs b).

Definition bind_call (c : BindCall) (w : OS) : option string * OS :=
  match c with
  | BindUdp addr => let '(r, w) := bind_udp addr w in (match r with Err t => Some t | Ok _ => None end, w)
  | BindTcp addr => let '(r, w) := bind_tcp addr w in (match r with Err t => Some t | Ok _ => None end, w)
  | BindQuic quic addr => let '(r, w) := bind_quic quic addr w in (match r with Err t => Some t | Ok _ => None end, w)
  end.

(** The first failure of the calls made one after the other. *)
Fixpoint first_failure (cs : list BindCall) (w : OS) : option string * OS :=
  match cs with
  | [] => (None, w)
  | c :: cs => match bind_call c w with (Some t, w) => (Some t, w) | (None, w) => first_failure cs w end
  end.

Lemma first_failure_app cs cs' w :
  first_failure (cs ++ cs') w =
  match first_failure cs w with (Some t, w) => (Some t, w) | (None, w) => first_failure cs' w end.
Proof.
  revert w. induction cs as [|c cs IH]; intros w; cbn [app first_failure]; [done|].
  destruct (bind_call c w) as [[t|] w']; [done|apply IH].
Qed.

Definition failed {A} (m : Result Error A * OS) : option Error * OS :=
  (match m.1 with Ok _ => None | Err e => Some e end, m.2).
Definition as_transport (m : option string * OS) : option Error * OS := (Transport <$> m.1, m.2).

(** One loop, for addresses whose call is [call] and whose sockets keep [key]. *)
Lemma bind_each_calls {A S K} (f : A → OS → Result string S * OS) (call : A → BindCall) (key : A → K) (kept : S → K) addrs w :
  (∀ a w, bind_call (call a) w = (match (f a w).1 with Err t => Some t | Ok _ => None end, (f a w).2)) →
  (∀ a w s, (f a w).1 = Ok s → kept s = key a) →
  failed (bind_each f addrs w) = as_transport (first_failure (map call addrs) w) ∧
  ∀ ss, (bind_each f addrs w).1 = Ok ss → map kept ss = map key addrs.
Proof.
  intros Hf Hk. revert w. induction addrs as [|a addrs IH]; intros w; cbn [bind_each map first_failure].
  { split; [done|]. by intros ss [= <-]. }
  rewrite Hf. pose proof (Hk a w) as Hka. destruct (f a w) as [[s|t] w1]; cbn [fst snd] in *; [|done].
  destruct (IH w1) as [IH1 IH2]. destruct (bind_each f addrs w1) as [[ss|e] w2]; cbn [fst snd] in *.
  - split; [exact IH1|]. intros ss' [= <-]. cbn [map]. by rewrite (Hka s eq_refl), (IH2 ss eq_refl).
  - split; [exact IH1|done].
Qed.

(** The sockets a server has are those it was configured for, with their
    configurations. *)
Definition bound_for (b : ServerBuilder Resolver Tls Quic) (srv : Server Resolver Tls Udp Tcp Endpoint) : Prop :=
  srv_resolver srv = resolver b ∧ srv_edns_size srv = server_edns_size b ∧
  length (udp_sockets srv) = length (udp_addrs b) ∧ length (tcp_listeners srv) = length (tcp_addrs b) ∧
  map snd (dot_listeners srv) = map snd (dot_addrs b) ∧
  map (λ x, (x.1.2, x.2)) (doh_listeners srv) = map (λ x, (x.1.2, x.2)) (doh_addrs b) ∧
  map snd (doh3_endpoints srv) = map snd (doh3_addrs b) ∧ length (doq_endpoints srv) = length (doq_addrs b).

Lemma and_then_calls {A B} (m : Result Error A * OS) (f : A → OS → Result Error B * OS) cs cs' w (P : A → Prop) (Q : B → Prop) :
  failed m = as_transport (first_failure cs w) ∧ (∀ a, m.1 = Ok a → P a) →
  (∀ a w, P a → failed (f a w) = as_transport (first_failure cs' w) ∧ ∀ b, (f a w).1 = Ok b → Q b) →
  failed (and_then m f) = as_transport (first_failure (cs ++ cs') w) ∧ ∀ b, (and_then m f).1 = Ok b → Q b.
Proof.
  intros [Hm HP] Hf. rewrite first_failure_app. destruct m as [[a|e] w1]; destruct (first_failure cs w) as [[t|] w2];
    unfold failed, as_transport in *; cbn in *; try done; simplify_eq/=.
  by apply Hf, HP.
Qed.

Lemma bind_run b w :
  failed (bind bind_udp bind_tcp bind_quic b w) = as_transport (first_failure (bind_calls b) w) ∧
  ∀ srv, (bind bind_udp bind_tcp bind_quic b w).1 = Ok srv → bound_for b srv.
Proof.
  unfold bind, bind_calls.
  eapply and_then_calls.
  { apply (bind_each_calls bind_udp BindUdp (λ _, ()) (λ _, ())); [|done]. intros a w0. cbn. by destruct (bind_udp a w0). }
  intros udp w1 H1. cbn beta in *. eapply and_then_calls.
  { apply (bind_each_calls bind_tcp BindTcp (λ _, ()) (λ _, ())); [|done]. intros a w0. cbn. by destruct (bind_tcp a w0). }
  intros tcp w2 H2. cbn beta in *. eapply and_then_calls.
  { apply (bind_each_calls _ _ snd snd).
    - intros [a t] w0. cbn. destruct (bind_tcp a w0) as [[]]; done.
    - intros [a t] w0 s. destruct (bind_tcp a w0) as [[]]; cbn; [by intros [= <-]|done]. }
  intros dot w3 H3. cbn beta in *. eapply and_then_calls.
  { apply (bind_each_calls _ _ (λ x, (x.1.2, x.2)) (λ x, (x.1.2, x.2))).
    - intros [[a t] c] w0. cbn. destruct (bind_tcp a w0) as [[]]; done.
    - intros [[a t] c] w0 s. destruct (bind_tcp a w0) as [[]]; cbn; [by intros [= <-]|done]. }
  intros doh w4 H4. cbn beta in *. eapply and_then_calls.
  { apply (bind_each_calls _ _ snd snd).
    - intros [[a q] c] w0. cbn. destruct (bind_quic q a w0) as [[]]; done.
    - intros [[a q] c] w0 s. destruct (bind_quic q a w0) as [[]]; cbn; [by intros [= <-]|done]. }
  intros doh3 w5 H5. cbn beta in *. rewrite <-(app_nil_r (map _ (doq_addrs b))). eapply and_then_calls.
  { apply (bind_each_calls _ _ (λ _, ()) (λ _, ())); [|done].
    intros [a q] w0. cbn. destruct (bind_quic q a w0) as [[]]; done. }
  intros doq w6 H6. cbn beta in *. split; [done|]. intros srv [= <-].
  repeat split; cbn; try done; [apply (f_equal length) in H1|apply (f_equal length) in H2|apply (f_equal length) in H6];
    by rewrite !length_map in *.
Qed.

(** [bind] makes the calls for its UDP, TCP, DoT, DoH, DoH3 and DoQ
    addresses in that order, one after the other, and none after the first that
    fails, whose text it returns as [Transport]. When none fails it returns a
    server with one socket for each address, in order, and the TLS, HTTP and
    EDNS configuration the builder had. *)
Theorem bind_in_order b w :
  (let '(r, w') := bind bind_udp bind_tcp bind_quic b w in
   match first_failure (bind_calls b) w with
   | (None, w1) => w' = w1 ∧ ∃ srv, r = Ok srv ∧ bound_for b srv
   | (Some text, w1) => w' = w1 ∧ r = Err (Transport text)
   end).
Proof.
  destruct (bind_run b w) as [H1 H2]. destruct (bind _ _ _ b w) as [[srv|e] w']; destruct (first_failure _ w) as [[t|] w1];
    unfold failed, as_transport in H1; cbn in *; simplify_eq/=; [by eauto|done].
Qed.
End bind_spec.

(** ** What a server does *)

Section serve_spec.
Context {Udp Tcp Tls Endpoint State : Type}.
Context (resolve : Message → State → Run Error (Result Error Message * State)).
Context (base64_decode : string → option (list Z)).
Context (edns_max : Z).
Implicit Types (v : Serving (Udp:=Udp) (Tcp:=Tcp) (Tls:=Tls) (Endpoint:=Endpoint) (State:=State)).
Notation serve_until := (serve_until resolve base64_decode edns_max).
Notation serve_events := (serve_events resolve base64_decode edns_max).
Notation run_task := (run_task resolve base64_decode edns_max).

Definition is_udp_task (t : Task Udp) : bool := match t with UdpTask _ _ _ => true | _ => false end.
Definition is_udp_output (o : Output (Udp:=Udp)) : bool := match o with UdpSent _ _ _ => true | _ => false end.
Definition is_datagram (e : Event) : bool := match e with Arrive _ (Datagram _ _) => true | _ => false end.

Lemma done_with_run {A} (m : Run Error (A * State)) f out (ts : list (Task Udp)) s' :
  done_with m f = Ret (out, ts, s') → ts = [] ∧ ∃ a, m = Ret (a, s') ∧ out = f a.
Proof.
  unfold done_with. intros H. apply run_bind_ret in H as ([a s1] & -> & H). injection H as <- <- <-. eauto.
Qed.

Lemma run_task_udp t s out ts s' :
  run_task t s = Ret (out, ts, s') →
  forallb (λ t, negb (is_udp_task t)) ts = true ∧
  match t with
  | UdpTask socket payload from =>
      out = [] ∨ ∃ bytes, out = [UdpSent socket from bytes] ∧
        handle_udp_datagram resolve edns_max payload s = Ret (Some bytes, s')
  | _ => forallb (λ o, negb (is_udp_output o)) out = true
  end.
Proof.
  assert (Hmap : ∀ A (f : A → Task Udp) l, (∀ a, is_udp_task (f a) = false) → forallb (λ t, negb (is_udp_task t)) (map f l) = true).
  { intros A f l Hf. induction l as [|a l IH]; [done|]. cbn. by rewrite Hf. }
  destruct t as [socket payload from|stream|[stream|]|config [reqs|]|config req|config inc|config req body|[streams|]|stream];
    cbn [run_task dot_task doh_task doq_task].
  1:{ intros (-> & reply & Hr & ->)%done_with_run. split; [done|]. destruct reply as [bytes|]; [right; eauto|by left]. }
  all: try (intros (-> & a & _ & ->)%done_with_run; done).
  all: intros [= <- <- <-]; (split; [|done]); try done; try by apply Hmap.
  unfold doh3_task. destruct (_ && _); [|done]. apply Hmap. by intros [].
Qed.

(** A reply that was sent: to whom, and what it answers. *)
Definition replied (es : list Event) (loops : list (Loop Udp Tcp Tls Endpoint)) socket to bytes : Prop :=
  ∃ i payload query response s s', Arrive i (Datagram payload to) ∈ es ∧ loops !! i = Some (UdpLoop socket) ∧
    decode payload = Ret query ∧ answer resolve edns_max query s = Ret (response, s') ∧
    udp_reply response (udp_response_limit query edns_max) = Some bytes.

(** Why [serve_until] returned. *)
Definition ended (es : list Event) (loops : list (Loop Udp Tcp Tls Endpoint)) (r : Result Error unit) : Prop :=
  match r with
  | Ok _ => Shutdown ∈ es ∨ ∃ i l, Arrive i EndpointClosed ∈ es ∧ loops !! i = Some l ∧
      match l with Doh3Loop _ _ | DoqLoop _ => True | _ => False end
  | Err e => ∃ i l text, e = Transport text ∧ loops !! i = Some l ∧
      (LoopDied i text ∈ es ∨ (Arrive i (Failed text) ∈ es ∧ match l with Doh3Loop _ _ | DoqLoop _ => False | _ => True end))
  end.

Record serving_inv (loops : list (Loop Udp Tcp Tls Endpoint)) (es : list Event) v : Prop := {
  si_loops : sv_loops v = loops;
  si_heard socket payload from : UdpTask socket payload from ∈ sv_tasks v →
    ∃ i, Arrive i (Datagram payload from) ∈ es ∧ loops !! i = Some (UdpLoop socket);
  si_replied socket to bytes : UdpSent socket to bytes ∈ sv_out v → replied es loops socket to bytes;
  si_count : length (filter (λ o, is_udp_output o = true) (sv_out v)) + length (filter (λ t, is_udp_task t = true) (sv_tasks v)) ≤
    length (filter (λ e, is_datagram e = true) es);
  si_ended r : sv_result v = Some r → ended es loops r;
}.

Lemma in_snoc {A} (x y : A) l : x ∈ l → x ∈ l ++ [y].
Proof. intros H. apply elem_of_app. by left. Qed.
Lemma in_last {A} (x : A) l : x ∈ l ++ [x].
Proof. apply elem_of_app. right. apply list_elem_of_here. Qed.

Lemma ended_more es e loops r : ended es loops r → ended (es ++ [e]) loops r.
Proof. unfold ended. destruct r; naive_solver eauto using in_snoc. Qed.

Lemma replied_more es e loops socket to bytes : replied es loops socket to bytes → replied (es ++ [e]) loops socket to bytes.
Proof. intros (i & p & q & r & s & s' & H & ?). exists i, p, q, r, s, s'. split; [by apply in_snoc|done]. Qed.

(** More events, nothing new. *)
Lemma inv_more loops es e v : serving_inv loops es v → serving_inv loops (es ++ [e]) v.
Proof.
  intros []. split; try done.
  - intros socket payload from (i & H & Hl)%si_heard0. exists i. split; [by apply in_snoc|done].
  - intros socket to bytes H. by apply replied_more, si_replied0.
  - rewrite filter_app, length_app. lia.
  - intros r H. by apply ended_more, si_ended0.
Qed.

Lemma inv_result loops es v r : serving_inv loops es v → ended es loops r → serving_inv loops es (with_result v r).
Proof. intros [] Hr. split; try done. cbn. by intros r' [= <-]. Qed.

Lemma filter_none_length {A} (f : A → bool) l : forallb (λ x, negb (f x)) l = true → length (filter (λ x, f x = true) l) = 0.
Proof.
  induction l as [|x l IH]; [done|]. cbn [forallb]. intros [Hx Hl]%andb_true_iff. rewrite filter_cons.
  case_decide as H; [by rewrite H in Hx|auto].
Qed.

Lemma delete_filter_length {A} (f : A → bool) (l : list A) k x :
  l !! k = Some x →
  length (filter (λ x, f x = true) (delete k l)) + (if f x then 1 else 0) = length (filter (λ x, f x = true) l).
Proof.
  revert k. induction l as [|y l IH]; intros [|k] H; try discriminate H.
  - injection H as ->. cbn [delete list_delete]. rewrite filter_cons. destruct (f x) eqn:Hx; case_decide; try congruence; cbn [length]; lia.
  - change (delete (S k) (y :: l)) with (y :: delete k l). rewrite !filter_cons. specialize (IH k H). case_decide; cbn [length]; lia.
Qed.

Lemma run_task_inv loops es v k t out ts s' :
  serving_inv loops es v → sv_tasks v !! k = Some t → run_task t (sv_state v) = Ret (out, ts, s') →
  serving_inv loops (es ++ [RunTask k]) (mkServing (sv_loops v) (sv_result v) (delete k (sv_tasks v) ++ ts) s' (sv_out v ++ out)).
Proof.
  intros Hi Hk Hr. apply (inv_more _ _ (RunTask k)) in Hi. destruct Hi. apply run_task_udp in Hr as [Hts Hout].
  assert (Hold : ∀ socket to bytes, UdpSent socket to bytes ∈ out → ∃ payload,
    t = UdpTask socket payload to ∧ handle_udp_datagram resolve edns_max payload (sv_state v) = Ret (Some bytes, s')).
  { intros socket to bytes Hin. destruct t; try (rewrite forallb_forall in Hout; apply list_elem_of_In, Hout in Hin; done).
    destruct Hout as [->|(b & -> & Hh)]; [by apply not_elem_of_nil in Hin|]. apply list_elem_of_singleton in Hin as [= <- <- <-].
    eauto. }
  split; cbn [sv_loops sv_result sv_tasks sv_out]; try done.
  - intros socket payload from [H%list_elem_of_delete_inv|H]%elem_of_app; [by apply si_heard0|].
    rewrite forallb_forall in Hts. by apply list_elem_of_In, Hts in H.
  - intros socket to bytes [H|H]%elem_of_app; [by apply si_replied0|].
    destruct (Hold _ _ _ H) as (payload & -> & Hh).
    destruct (si_heard0 socket payload to) as (i & Hi & Hl); [by eapply list_elem_of_lookup_2|].
    unfold handle_udp_datagram in Hh. destruct (decode payload) as [query|e| |] eqn:Ed; try done.
    apply run_bind_ret in Hh as ([response s1] & Ha & Hb). apply ret_pair_inj in Hb as [Hb ->].
    by exists i, payload, query, response, (sv_state v), s'.
  - rewrite !filter_app, !length_app, (filter_none_length is_udp_task ts Hts).
    pose proof (delete_filter_length is_udp_task _ _ _ Hk) as Hd.
    assert (length (filter (λ o, is_udp_output o = true) out) ≤ if is_udp_task t then 1 else 0).
    { destruct t; try (by rewrite (filter_none_length is_udp_output)). cbn [is_udp_task].
      etrans; [apply length_filter|]. destruct Hout as [->|(b & -> & _)]; cbn; lia. }
    destruct (is_udp_task t); rewrite filter_app, length_app in si_count0; lia.
Qed.

Lemma serve_until_inv loops es v e v' :
  serving_inv loops es v → serve_until v e = Ret v' → serving_inv loops (es ++ [e]) v'.
Proof.
  intros Hi. destruct e as [i a|i text| |k]; cbn [Lifecycle.serve_until].
  4:{ destruct (sv_tasks v !! k) as [t|] eqn:Ek; [|intros [= <-]; by apply inv_more].
      intros H. apply run_bind_ret in H as ([[out ts] s'] & Er & H). injection H as <-. by eapply run_task_inv. }
  all: destruct (sv_result v) eqn:Er; [intros [= <-]; by apply inv_more|].
  - pose proof (si_loops _ _ _ Hi) as Hl. destruct (sv_loops v !! i) as [l|] eqn:El; cbn [mbind option_bind];
      [|intros [= <-]; by apply inv_more]. rewrite Hl in El.
    destruct (loop_turn l a) as [[t|r]|] eqn:Et; [| |intros [= <-]; by apply inv_more]; intros [= <-].
    + apply (inv_more _ _ (Arrive i a)) in Hi as Hi'. destruct Hi'. split; cbn [sv_loops sv_result sv_tasks sv_out]; try done.
      * intros socket payload from [H|H]%elem_of_app; [by apply si_heard0|]. apply list_elem_of_singleton in H. subst t.
        exists i. destruct l, a; try done. cbn in Et. injection Et as -> -> ->. split; [apply in_last|done].
      * pose proof (si_count _ _ _ Hi). rewrite !filter_app, !length_app, !filter_cons, !filter_nil.
        assert (is_udp_task t = true → is_datagram (Arrive i a) = true) by (destruct l, a; try done; by injection Et as <-).
        repeat case_decide; cbn [length]; try lia. naive_solver.
    + apply inv_result; [by apply inv_more|]. destruct l, a; try done; injection Et as <-; cbn;
        first [right; eexists i, _; split; [apply in_last|done]|eexists i, _, text; split; [done|]; split; [done|]; right; split; [apply in_last|done]].
  - pose proof (si_loops _ _ _ Hi) as Hl. destruct (sv_loops v !! i) as [l|] eqn:El; intros [= <-]; [|by apply inv_more].
    rewrite Hl in El. apply inv_result; [by apply inv_more|]. exists i, l, text. split; [done|]. split; [done|]. left. apply in_last.
  - intros [= <-]. apply inv_result; [by apply inv_more|]. left. apply in_last.
Qed.

Lemma serve_events_inv loops es : ∀ es0 v v',
  serving_inv loops es0 v → serve_events v es = Ret v' → serving_inv loops (es0 ++ es) v'.
Proof.
  induction es as [|e es IH]; intros es0 v v' Hi H; cbn [Lifecycle.serve_events] in H.
  - injection H as <-. by rewrite app_nil_r.
  - apply run_bind_ret in H as (v1 & H1 & H). apply (serve_until_inv _ _ _ _ _ Hi) in H1.
    apply (IH _ _ _ H1) in H. by rewrite <-app_assoc in H.
Qed.

(** After [serve_until] returned nothing new is accepted. *)
Lemma serve_until_stopped v e v' r :
  sv_result v = Some r → serve_until v e = Ret v' →
  sv_result v' = Some r ∧ (match e with RunTask _ => True | _ => v' = v end).
Proof.
  intros Hr. destruct e; cbn [Lifecycle.serve_until]; rewrite ?Hr; try (by intros [= <-]).
  destruct (_ !! k); [|by intros [= <-]]. intros H. apply run_bind_ret in H as ([[o ts] s] & _ & H). by injection H as <-.
Qed.

(** C33: Whatever arrives and in whatever order the tasks run, every UDP reply
    a server sends is the reply to a datagram its socket received, goes back to
    that datagram's sender, and is the answer to the decoded query cut to its
    limit; there are never more replies than datagrams. [serve_until] returns
    [Ok] only after a shutdown or the close of a QUIC endpoint, and an error only
    with the text of a loop's own failure; after it returned nothing more is
    accepted, and only tasks already started run on. *)
Theorem serve_replies {Resolver} (srv : Server Resolver Tls Udp Tcp Endpoint) s es v :
  serve_events (serve srv s) es = Ret v →
  (∀ socket to bytes, UdpSent socket to bytes ∈ sv_out v → replied es (loops_of srv) socket to bytes) ∧
  length (filter (λ o, is_udp_output o = true) (sv_out v)) ≤ length (filter (λ e, is_datagram e = true) es) ∧
  ∀ r, sv_result v = Some r → ended es (loops_of srv) r ∧
    ∀ e v', serve_until v e = Ret v' → sv_result v' = Some r ∧ match e with RunTask _ => True | _ => v' = v end.
Proof.
  intros H. assert (Hi : serving_inv (loops_of srv) [] (serve srv s)).
  { split; try done; [intros * Hx|intros * Hx]; by apply not_elem_of_nil in Hx. }
  apply (serve_events_inv _ _ _ _ _ Hi) in H. cbn [app] in H. split; [apply H|]. split.
  - pose proof (si_count _ _ _ H). lia.
  - intros r Hr. split; [by apply H|]. intros e v'. by apply serve_until_stopped.
Qed.
End serve_spec.

(** One UDP socket and one DoQ endpoint: a datagram is answered, then the
    endpoint closes and the server ends. *)
Definition example_server : Server unit unit nat nat nat := mkServer tt [7] [] [] [] [] [9] 1232.

Definition example_events : list Event :=
  [Arrive 0 (Datagram (encoded example_query) (V4 1, 5353%Z)); RunTask 0; Arrive 1 EndpointClosed;
   Arrive 0 (Datagram [] (V4 2, 53%Z))].

Lemma serve_replies_witness :
  ∃ v bytes, serve_events failing_resolver (λ _, None) 1232 (serve example_server tt) example_events = Ret v ∧
    sv_out v = [UdpSent 7 (V4 1, 5353%Z) bytes] ∧ sv_result v = Some (Ok tt) ∧ sv_tasks v = [] ∧
    replied failing_resolver 1232 example_events (loops_of example_server) 7 (V4 1, 5353%Z) bytes.
Proof.
  destruct (serve_events failing_resolver (λ _, None) 1232 (serve example_server tt) example_events) as [v| | |] eqn:E;
    try (vm_compute in E; discriminate E).
  pose proof (serve_replies _ _ _ _ _ _ _ E) as (Hr & _ & _).
  vm_compute in E. injection E as <-. eexists _, _. split; [reflexivity|]. split; [reflexivity|].
  split; [reflexivity|]. split; [reflexivity|]. apply Hr. apply list_elem_of_here.
Defined.
