(* ===== verification/ServerEngine.v ===== *)
(** * The server over the resolver

    The composition of the two halves of the program: the handlers and the
    serving machine of Server.v and Lifecycle.v with [Resolve.resolve] as their
    resolver, in any world that keeps it sound. A computation is [sound] when from a sound resolver state it
    returns to one; every handler is, so a server keeps its resolver sound
    whatever reaches its sockets, and whatever it sends answers a query that
    reached it. *)

From stdpp Require Import base numbers list gmap strings.
From S2P Require Import Prelude CoreError Name RecordData Edns Header Message Matcher Time.
From S2P Require Import FakeIpFamily FakeIpPool CacheConfig StoreKey Entry Shard ShardInv ShardOps Store Flight Response Transport ResponseWf.
From S2P Require Import EngineState Reply Upstreams Resolve EngineLogic ResolveSpec Server Lifecycle.

(** ** What is sent *)

(** A reply's bytes for a query's bytes. *)
Definition exchange (payload body : list Z) : Prop :=
  ∃ query m, decode payload = Ret query ∧ decode body = Ret m ∧ answers_query Match query m.

(** A stream served from [stream] to [stream']: the queries it took off, in
    order, and one reply to each, in the same order. *)
Definition served_stream (stream stream' : Stream) : Prop :=
  ∃ exchanges rest, s_in stream = concat (map (λ x, frame x.1) exchanges) ++ rest ∧
    s_out stream' = s_out stream ++ concat (map (λ x, frame x.2) exchanges) ∧
    Forall (λ x, exchange x.1 x.2) exchanges.

Lemma served_nothing stream stream' : s_out stream' = s_out stream → served_stream stream stream'.
Proof. intros H. exists [], (s_in stream). cbn. rewrite H, app_nil_r. by repeat constructor. Qed.

Lemma served_cons stream stream1 stream' payload body :
  s_in stream = frame payload ++ s_in stream1 → s_out stream1 = s_out stream ++ frame body →
  exchange payload body → served_stream stream1 stream' → served_stream stream stream'.
Proof.
  intros Hi Ho Hx (xs & rest & Hxi & Hxo & Hxs). exists ((payload, body) :: xs), rest. cbn.
  rewrite Hi, Hxi, Hxo, Ho, <-!app_assoc. split; [done|]. split; [done|]. by constructor.
Qed.

(** A response with status 200 has a reply in it, to the query of its request. *)
Definition served_http (payload : option (list Z)) (response : HttpResponse) : Prop :=
  response.1 = 200%Z → ∃ bytes, payload = Some bytes ∧ exchange bytes response.2.

(** ** What arrives *)

Definition stream_bytes (stream : Stream) : Prop := bytes_ok (s_in stream).
Definition request_bytes (req : Request) : Prop := ∀ body, r_body req = Some body → bytes_ok body.

(** Every byte that arrives is one. *)
Definition arrival_bytes (a : Arrival) : Prop :=
  match a with
  | Datagram payload _ => bytes_ok payload
  | Accepted stream | AcceptedTls (Some stream) => stream_bytes stream
  | AcceptedHttp (Some reqs) => Forall request_bytes reqs
  | Incoming3 incoming => Forall (λ x, ∀ req body, x = Some (req, body) → bytes_ok body) (requests incoming)
  | IncomingQuic (Some streams) => Forall stream_bytes streams
  | _ => True
  end.

Definition event_bytes (e : Event) : Prop := match e with Arrive _ a => arrival_bytes a | _ => True end.

Definition came (es : list Event) (a : Arrival) : Prop := ∃ i, Arrive i a ∈ es.

(** The streams and requests among the events, by their transport. *)
Definition stream_came (es : list Event) (stream : Stream) : Prop :=
  came es (Accepted stream) ∨ came es (AcceptedTls (Some stream)) ∨
  ∃ streams, came es (IncomingQuic (Some streams)) ∧ stream ∈ streams.
Definition request_came (es : list Event) (req : Request) : Prop :=
  ∃ reqs, came es (AcceptedHttp (Some reqs)) ∧ req ∈ reqs.
Definition request3_came (es : list Event) (req : Request) (body : list Z) : Prop :=
  ∃ incoming, came es (Incoming3 incoming) ∧ Some (req, body) ∈ requests incoming.

(** Where a task's input came from. *)
Definition task_came {Udp} (es : list Event) (t : Task Udp) : Prop :=
  match t with
  | UdpTask _ payload from => came es (Datagram payload from)
  | TcpTask stream | DoqStreamTask stream => stream_came es stream
  | DotTask handshake => came es (AcceptedTls handshake)
  | DohTask _ handshake => came es (AcceptedHttp handshake)
  | DohRequestTask _ req => request_came es req
  | Doh3Task _ incoming => came es (Incoming3 incoming)
  | Doh3RequestTask _ req body => request3_came es req body
  | DoqTask handshake => came es (IncomingQuic handshake)
  end.

Lemma came_bytes es a : Forall event_bytes es → came es a → arrival_bytes a.
Proof. intros H [i Hi]. by apply (proj1 (Forall_forall _ _) H) in Hi. Qed.

Lemma stream_came_bytes es stream : Forall event_bytes es → stream_came es stream → stream_bytes stream.
Proof.
  intros He [H|[H|(streams & H & Hin)]]; apply (came_bytes _ _ He) in H; [done..|]. by eapply Forall_forall in H.
Qed.

(** A loop's turn starts a task on what arrived, and tasks only start tasks on
    parts of it. *)
Lemma loop_turn_came {Udp Tcp Tls Endpoint} es i (l : Loop Udp Tcp Tls Endpoint) a t :
  Arrive i a ∈ es → loop_turn l a = Some (inl t) → task_came es t.
Proof.
  intros Hi. destruct l, a; try done; cbn; intros [= <-]; cbn; unfold stream_came; try (left; by exists i); by exists i.
Qed.

Section engine.
Context `{WS : Watch State} {WL : WatchLaws State} {Backend RouteHook Udp Tcp Tls Endpoint : Type}.
Context (cfg : Config Backend RouteHook) (w : World Backend RouteHook) (fuel : nat).
Context (base64_decode : string → option (list Z)) (edns_max : Z).
Context (max_bytes : Z) (hang : Prop) (es : list Event) (Hes : Forall event_bytes es).
Context (Hcfg : cfg_ok cfg) (Hfuel : 0 < fuel).
Context (Hworld : ∀ id, world_ok w max_bytes id hang).
Context (Hbase64 : ∀ text bytes, base64_decode text = Some bytes → bytes_ok bytes) (Hedns : is_u16 edns_max).
Notation resolver := (Resolve.resolve cfg w fuel).

(** Where a server may wait for ever: the resolver does, or the decoder on a
    message that reached a socket. *)
Definition reached (bytes : list Z) : Prop :=
  (∃ to, came es (Datagram bytes to)) ∨
  (∃ stream, stream_came es stream ∧ part_of bytes (s_in stream)) ∨
  (∃ req, request_came es req ∧ extract_query_bytes base64_decode req = Some bytes) ∨
  (∃ req body, request3_came es req body ∧ extract_doh3_query_bytes base64_decode req body = Some bytes).
Definition blocked : Prop := hang ∨ ∃ bytes, reached bytes ∧ decode bytes = Hang.

(** Every message on the rest of a stream reached a socket. *)
Definition arriving (stream : Stream) : Prop := ∀ bytes, part_of bytes (s_in stream) → reached bytes.

Lemma stream_arriving stream : stream_came es stream → arriving stream.
Proof. intros H bytes Hb. right. left. by exists stream. Qed.

Definition sound {A} (m : Run Error (A * St)) (Q : A → Prop) : Prop :=
  (∃ a s, m = Ret (a, s) ∧ engine_ok max_bytes s ∧ Q a) ∨ (m = Hang ∧ blocked).

Lemma sound_ret {A} (a : A) s (Q : A → Prop) : engine_ok max_bytes s → Q a → sound (Ret (a, s)) Q.
Proof. intros H HQ. left. eauto 10. Qed.

Lemma sound_bind {A B} (m : Run Error (A * St)) (f : A * St → Run Error (B * St)) Q R :
  sound m Q → (∀ a s, engine_ok max_bytes s → Q a → sound (f (a, s)) R) → sound (m ≫= f) R.
Proof. intros [(a & s & -> & Hs & Ha)|[-> Hb]] Hf; [by apply Hf|by right]. Qed.

Lemma sound_mono {A} (m : Run Error (A * St)) (Q R : A → Prop) : sound m Q → (∀ a, Q a → R a) → sound m R.
Proof. intros [(a & s & -> & Hs & Ha)|H] HR; [left; eauto 10|by right]. Qed.

(** A reply that can be sent. *)
Definition replies (query response : Message) : Prop := reply_to query response ∧ ∃ e, edns response = Ok e.

Lemma response_edns_parses query response : response_edns_ok query response edns_max → ∃ e, edns response = Ok e.
Proof. unfold response_edns_ok. destruct (edns query) as [[q|]|]; [intros (e & -> & _)|intros ->|intros [-> _]]; eauto. Qed.

Lemma answer_sound query s :
  wf_message query → engine_ok max_bytes s → sound (answer resolver edns_max query s) (replies query).
Proof.
  intros Hq Hs. unfold answer. destruct (early_answer query edns_max) as [response|] eqn:Ee.
  { apply sound_ret; [done|]. split; [by eapply early_reply|]. eapply response_edns_parses.
    by apply (early_answer_spec query edns_max response). }
  apply (sound_bind _ _ (result_ok query)).
  - destruct (resolve_run cfg w max_bytes hang fuel query s Hs Hcfg Hfuel Hq (Hworld _))
      as [(r & s' & mid & E & Hs' & Hr & _)|[E Hh]]; [left; eauto 10|right; split; [done|by left]].
  - intros r s' Hs' Hr. apply sound_ret; [done|].
    assert (Ha : reply_to query (match r with Ok answer => answer | Err _ => local_response query ServFail end)).
    { destruct r as [m|e]; [apply Hr|by apply reply_local]. }
    split; [by apply finalise_reply|]. eapply response_edns_parses. by apply finalise_edns_spec; [apply Ha|..].
Qed.

(** Decoding and going on, or giving up. *)
Lemma decode_sound {B} bytes (f : Message → Run Error (B * St)) (g : Run Error (B * St)) R :
  bytes_ok bytes → reached bytes → (∀ m, decode bytes = Ret m → wf_message m → sound (f m) R) → sound g R →
  sound (match decode bytes with Ret m => f m | Throw _ => g | Panic => Panic | Hang => Hang end) R.
Proof.
  intros Hb Hr Hf Hg. pose proof (decode_no_panic_aux bytes) as Hp.
  destruct (decode bytes) as [m|e| |] eqn:E; [apply Hf; [done|by eapply decode_ret_wf]|done|done|].
  right. split; [done|]. right. eauto.
Qed.

Lemma udp_sound payload s :
  bytes_ok payload → reached payload → engine_ok max_bytes s →
  sound (handle_udp_datagram resolver edns_max payload s) (λ o, ∀ bytes, o = Some bytes → exchange payload bytes).
Proof.
  intros Hb Hr0 Hs. apply decode_sound; [done|done| |by apply sound_ret]. intros query Hd Hq.
  eapply sound_bind; [by apply answer_sound|]. intros response s' Hs' [Hr He]. apply sound_ret; [done|].
  intros bytes Hu. destruct (udp_reply_decodes _ _ _ (proj1 Hr) He Hu) as (m & Hm & Hdm & Hcase).
  exists query, m. split; [done|]. split; [done|]. by eapply truncated_reply.
Qed.

(** The body of an encoded reply. *)
Lemma encoded_exchange payload query response body :
  decode payload = Ret query → replies query response → encode response = Ok body → exchange payload body.
Proof.
  intros Hd [[Hw Ha] _] He. exists query, response. split; [done|]. split; [|done].
  rewrite encode_wf in He by done. case_decide; [|done]. injection He as <-. by apply decode_wire.
Qed.

(** Reading a query from a stream, answering it and writing the answer. *)
Lemma framed_sound stream s (f : Stream → St → Run Error (Stream * St)) :
  bytes_ok (s_in stream) → arriving stream → engine_ok max_bytes s →
  (∀ stream2 s, bytes_ok (s_in stream2) → arriving stream2 → length (s_in stream2) < length (s_in stream) → engine_ok max_bytes s →
     sound (f stream2 s) (served_stream stream2)) →
  sound (match read_framed stream with
         | Ret (query, stream) =>
             '(response, s) ← answer resolver edns_max query s;
             match write_framed stream response with
             | Ret stream => f stream s
             | Throw _ => Ret (stream, s)
             | Panic => Panic
             | Hang => Hang
             end
         | Throw _ => Ret (stream, s)
         | Panic => Panic
         | Hang => Hang
         end) (served_stream stream).
Proof.
  intros Hb Har Hs Hf. pose proof (read_framed_outcome stream) as [Hp Hh].
  destruct (read_framed stream) as [[query stream1]|e| |] eqn:Er; [|by apply sound_ret; [|apply served_nothing]|done|].
  - pose proof (read_framed_shorter _ _ _ Er) as Hlt. pose proof (read_framed_part _ _ _ Er) as Hpart.
    destruct (read_framed_takes _ _ _ Hb Er) as (payload & Hi & Hd & Hpb & Ho).
    eapply sound_bind; [apply answer_sound; [by eapply decode_ret_wf|done]|]. intros response s1 Hs1 Hr.
    pose proof (write_framed_outcome stream1 response) as [Hwp Hwh].
    destruct (write_framed stream1 response) as [stream2|e| |] eqn:Ew; [|by apply sound_ret; [|apply served_nothing]|done..].
    pose proof (write_framed_in _ _ _ Ew) as Hin. destruct (write_framed_frame _ _ _ Ew) as (body & He & Ho2).
    eapply sound_mono; [apply Hf; [rewrite Hin; by eapply part_bytes_ok| |by rewrite Hin|done]|].
    + intros bytes Hbytes. rewrite Hin in Hbytes. apply Har. by eapply part_trans.
    + intros stream' H. eapply served_cons; [by rewrite Hin|by rewrite Ho2, Ho|by eapply encoded_exchange|done].
  - right. split; [done|]. right. destruct (Hh eq_refl) as (bytes & Hpart & Hd). eauto.
Qed.

Lemma tcp_sound n stream s :
  length (s_in stream) < n → bytes_ok (s_in stream) → arriving stream → engine_ok max_bytes s →
  sound (handle_tcp_connection resolver edns_max n stream s) (served_stream stream).
Proof.
  revert stream s. induction n as [|n IH]; intros stream s Hn Hb Har Hs; [lia|]. cbn [handle_tcp_connection].
  apply framed_sound; [done..|]. intros stream2 s2 Hb2 Har2 Hlt Hs2. apply IH; [lia|done..].
Qed.

Lemma doq_sound stream s :
  bytes_ok (s_in stream) → arriving stream → engine_ok max_bytes s →
  sound (handle_doq_stream resolver edns_max stream s) (served_stream stream).
Proof.
  intros Hb Har Hs. apply (framed_sound stream s (λ stream s, Ret (stream, s))); [done..|].
  intros stream2 s2 _ _ _ Hs2. apply sound_ret; [done|by apply served_nothing].
Qed.
Lemma encoded_response_sound payload query response s :
  decode payload = Ret query → replies query response → engine_ok max_bytes s →
  sound (Ret (encoded_response response, s)) (served_http (Some payload)).
Proof.
  intros Hd Hr Hs. apply sound_ret; [done|]. unfold encoded_response. destruct (encode response) as [body|] eqn:E; [|done].
  intros _. exists payload. split; [done|]. by eapply encoded_exchange.
Qed.

Lemma query_bytes_ok method query body payload :
  (∀ b, body = Some b → bytes_ok b) →
  match method with
  | GET => query ← query; encoded ← dns_parameter query; base64_decode encoded
  | POST => body
  | OtherMethod => None
  end = Some payload → bytes_ok payload.
Proof.
  intros Hb. destruct method; [|by apply Hb|done]. intros (q & _ & H)%bind_Some. apply bind_Some in H as (e & _ & H). by eapply Hbase64.
Qed.

Lemma doh_sound config req s :
  request_bytes req → request_came es req → engine_ok max_bytes s →
  sound (handle_doh_request resolver base64_decode edns_max config req s) (served_http (extract_query_bytes base64_decode req)).
Proof.
  intros Hb Hc Hs. unfold handle_doh_request. destruct (negb _); [by apply sound_ret|].
  destruct (extract_query_bytes _ _) as [bytes|] eqn:Ex; [|by apply sound_ret].
  apply decode_sound; [by eapply (query_bytes_ok _ _ (r_body req))|right; right; left; by exists req| |by apply sound_ret]. intros query Hd Hq.
  eapply sound_bind; [by apply answer_sound|]. intros response s' Hs' Hr. by eapply encoded_response_sound.
Qed.

Lemma doh3_sound config req body s :
  bytes_ok body → request3_came es req body → engine_ok max_bytes s →
  sound (handle_doh3_request resolver base64_decode edns_max config req body s)
    (served_http (extract_doh3_query_bytes base64_decode req body)).
Proof.
  intros Hb Hc Hs. unfold handle_doh3_request. destruct (extract_doh3_query_bytes _ _ _) as [bytes|] eqn:Ex; [|by apply sound_ret].
  apply decode_sound; [|right; right; right; by exists req, body| |by apply sound_ret].
  { eapply (query_bytes_ok _ _ (Some body)); [by intros b [= <-]|exact Ex]. }
  intros query Hd Hq. destruct (bool_decide _); [|by apply sound_ret].
  eapply sound_bind; [by apply answer_sound|]. intros response s' Hs' Hr. by eapply encoded_response_sound.
Qed.

(** ** Tasks and events *)

(** What was sent, and the query among the events that it answers. *)
Definition answered (o : Output (Udp:=Udp)) : Prop :=
  match o with
  | UdpSent _ to bytes => ∃ payload, came es (Datagram payload to) ∧ exchange payload bytes
  | StreamDone stream' => ∃ stream, stream_came es stream ∧ served_stream stream stream'
  | HttpSent response =>
      (∃ req, request_came es req ∧ served_http (extract_query_bytes base64_decode req) response) ∨
      (∃ req body, request3_came es req body ∧ served_http (extract_doh3_query_bytes base64_decode req body) response)
  end.

Definition task_sound (x : list (Output (Udp:=Udp)) * list (Task Udp)) : Prop :=
  Forall (answered) x.1 ∧ Forall (task_came es) x.2.

Lemma done_with_sound {A} (m : Run Error (A * St)) f (Q : A → Prop) :
  sound m Q → (∀ a, Q a → Forall (answered) (f a)) → sound (done_with (Udp:=Udp) m f) task_sound.
Proof.
  intros Hm Hf. eapply sound_bind; [exact Hm|]. intros a s' Hs' Ha. apply sound_ret; [done|]. split; [by apply Hf|constructor].
Qed.

Lemma tasks_sound s (ts : list (Task Udp)) :
  engine_ok max_bytes s → Forall (task_came es) ts → sound (Ret ([], ts, s)) task_sound.
Proof. intros Hs Ht. apply sound_ret; [done|]. split; [constructor|done]. Qed.

Lemma stream_done_sound stream (m : Run Error (Stream * St)) :
  stream_came es stream → sound m (served_stream stream) → sound (done_with m (λ stream, [StreamDone stream])) task_sound.
Proof.
  intros Hc Hm. eapply done_with_sound; [exact Hm|]. intros stream' H. apply Forall_singleton. by exists stream.
Qed.

Lemma doh3_task_came config incoming :
  came es (Incoming3 incoming) → Forall (task_came (Udp:=Udp) es) (doh3_task config incoming).
Proof.
  intros Hc. unfold doh3_task. destruct (_ && _); [|constructor]. apply Forall_fmap, Forall_forall.
  intros [req body] (x & Hx & ->)%list_elem_of_omap. by exists incoming.
Qed.

Lemma run_task_sound (t : Task Udp) s :
  task_came es t → engine_ok max_bytes s →
  sound (run_task resolver base64_decode edns_max t s) task_sound.
Proof.
  intros Hc Hs. destruct t as [socket payload from|stream|handshake|config handshake|config req|config inc|config req body|handshake|stream];
    cbn [run_task task_came] in *.
  - eapply done_with_sound; [apply udp_sound; [by apply (came_bytes _ _ Hes Hc)|left; by exists from|done]|].
    intros [bytes|] H; [|constructor]. apply Forall_singleton. exists payload. split; [done|by apply H].
  - apply (stream_done_sound stream); [done|]. apply tcp_sound; [lia|by eapply stream_came_bytes|by apply stream_arriving|done].
  - destruct handshake as [stream|]; [|by apply tasks_sound; [|constructor]].
    assert (Hst : stream_came es stream) by (right; by left).
    apply (stream_done_sound stream); [done|]. apply tcp_sound; [lia|by eapply stream_came_bytes|by apply stream_arriving|done].
  - apply tasks_sound; [done|]. destruct handshake as [reqs|]; [|constructor]. apply Forall_fmap, Forall_forall. intros req Hr.
    by exists reqs.
  - destruct Hc as (reqs & Hc & Hin). eapply done_with_sound; [apply doh_sound; [|by exists reqs|done]|].
    + apply (came_bytes _ _ Hes) in Hc. by eapply Forall_forall in Hc.
    + intros response H. apply Forall_singleton. left. exists req. split; [by exists reqs|done].
  - apply tasks_sound; [done|]. by apply doh3_task_came.
  - destruct Hc as (inc & Hc & Hin). eapply done_with_sound; [apply doh3_sound; [|by exists inc|done]|].
    + apply (came_bytes _ _ Hes) in Hc. exact (proj1 (Forall_forall _ _) Hc _ Hin req body eq_refl).
    + intros response H. apply Forall_singleton. right. exists req, body. split; [by exists inc|done].
  - apply tasks_sound; [done|]. destruct handshake as [streams|]; [|constructor]. apply Forall_fmap, Forall_forall.
    intros stream Hr. right. right. by exists streams.
  - apply (stream_done_sound stream); [done|]. apply doq_sound; [by eapply stream_came_bytes|by apply stream_arriving|done].
Qed.

Notation Serving := (Serving (Udp:=Udp) (Tcp:=Tcp) (Tls:=Tls) (Endpoint:=Endpoint) (State:=St)).

Record server_ok (v : Serving) : Prop := {
  sk_engine : engine_ok max_bytes (sv_state v);
  sk_tasks : Forall (task_came es) (sv_tasks v);
  sk_out : Forall (answered) (sv_out v);
}.

Lemma serve_until_sound (v : Serving) e :
  e ∈ es → server_ok v →
  (∃ v', serve_until resolver base64_decode edns_max v e = Ret v' ∧ server_ok v') ∨
  (serve_until resolver base64_decode edns_max v e = Hang ∧ blocked).
Proof.
  intros Hin [Hs Ht Ho]. destruct e as [i a|i text| |k]; cbn [serve_until].
  4:{ destruct (sv_tasks v !! k) as [t|] eqn:Ek; [|left; eexists; split; [done|by split]].
      destruct (run_task_sound t (sv_state v)) as [([out ts] & s' & -> & Hs' & Hx)|[-> Hb]];
        [by eapply Forall_lookup_1|done| |by right].
      left. eexists. split; [done|]. destruct Hx as [H1 H2]. split; cbn; [done| |by apply Forall_app].
      apply Forall_app. split; [by apply Forall_delete|done]. }
  all: left; destruct (sv_result v); [eexists; split; [done|by split]|].
  - destruct (_ ≫= _) as [[t|r]|] eqn:El; (eexists; split; [done|]; split; cbn; try done).
    apply bind_Some in El as (l & _ & El). apply Forall_app. split; [done|]. apply Forall_singleton. by eapply loop_turn_came.
  - destruct (_ !! _); (eexists; split; [done|by split]).
  - eexists. split; [done|by split].
Qed.

Lemma serve_events_sound l (v : Serving) :
  l ⊆ es → server_ok v →
  (∃ v', serve_events resolver base64_decode edns_max v l = Ret v' ∧ server_ok v') ∨
  (serve_events resolver base64_decode edns_max v l = Hang ∧ blocked).
Proof.
  revert v. induction l as [|e l IH]; intros v Hl Hv; cbn [serve_events]; [left; eauto|].
  destruct (serve_until_sound v e) as [(v1 & -> & Hv1)|[-> Hb]]; [apply Hl; by left|done| |by right].
  apply IH; [|done]. intros x Hx. apply Hl. by right.
Qed.
End engine.

(** A server over a resolver in any world that keeps it sound; Stack.v has the
    world of the crate's own backends. *)
Lemma server_sound `{WS : Watch State} {WL : WatchLaws State} {Backend RouteHook Resolver Tls Udp Tcp Endpoint : Type}
    (cfg : Config Backend RouteHook) (w : World Backend RouteHook) fuel base64_decode max_bytes hang
    (srv : Server Resolver Tls Udp Tcp Endpoint) s es :
  cfg_ok cfg → 0 < fuel → (∀ id, world_ok w max_bytes id hang) →
  (∀ text bytes, base64_decode text = Some bytes → bytes_ok bytes) → is_u16 (srv_edns_size srv) →
  Forall event_bytes es → engine_ok max_bytes s →
  let run := serve_events (Resolve.resolve cfg w fuel) base64_decode (srv_edns_size srv) (serve srv s) es in
  (∃ v, run = Ret v ∧ engine_ok max_bytes (sv_state v) ∧ Forall (answered base64_decode es) (sv_out v)) ∨
  (run = Hang ∧ blocked base64_decode hang es).
Proof.
  intros Hc Hf Hw Hb64 Hm Hes Hs run.
  destruct (serve_events_sound cfg w fuel base64_decode (srv_edns_size srv) max_bytes hang es Hes Hc Hf Hw Hb64 Hm es (serve srv s))
    as [(v & E & [H1 _ H3])|[E Hb]]; [done|by split|left; eauto|by right].
Qed.
