(* ===== verification/ErrorChain.v ===== *)
(** * Error chains, timeouts and retries of the encrypted backends

    What DoT, DoQ and DoH share: walking an error's causes
    ([error_chain_is_tls] of [upstream/dot.rs], copied in [doh.rs], and
    [is_connection_level] of [doh.rs]), [tokio::time::timeout] around a
    fallible future, and the loop that sends a query at most twice
    ([DoqPool::query] of [doq.rs], as in [stream.rs] and [doh.rs]). *)

From stdpp Require Import base list strings.
From S2P Require Import Prelude CoreError.

(** ** Causes *)

(** What the code asks of one error: its text, whether it is a
    [rustls::Error], and whether it is a [hyper::Error] about the message or the
    use of the client. *)
Record Node : Type := mkNode {
  n_text : string;
  n_rustls : bool;
  n_message : bool;
}.

(** An error with the error inside it, when it is an [io::Error] that holds one,
    and its [source()]. *)
Inductive Chain : Type :=
  | NoCause
  | Cause (n : Node) (inner source : Chain).

Definition to_string (err : Chain) : string :=
  match err with Cause n _ _ => n_text n | NoCause => "" end.

Fixpoint error_chain_is_tls (err : Chain) : bool :=
  match err with
  | NoCause => false
  | Cause n inner source => n_rustls n || error_chain_is_tls inner || error_chain_is_tls source
  end.

Fixpoint is_connection_level (err : Chain) : bool :=
  match err with
  | NoCause => true
  | Cause n _ source => if n_message n then false else is_connection_level source
  end.

Definition map_tls_connect_error (err : Chain) : Error :=
  if error_chain_is_tls err then Tls (to_string err) else Transport (to_string err).

(** [err] has this cause, inside or behind it. *)
Inductive has_cause : Chain → Node → Prop :=
  | cause_here n inner source : has_cause (Cause n inner source) n
  | cause_inner n inner source m : has_cause inner m → has_cause (Cause n inner source) m
  | cause_source n inner source m : has_cause source m → has_cause (Cause n inner source) m.

Lemma error_chain_is_tls_spec err : error_chain_is_tls err = true ↔ ∃ n, has_cause err n ∧ n_rustls n = true.
Proof.
  split.
  - induction err as [|n inner IHi source IHs]; cbn [error_chain_is_tls]; [done|].
    intros [[H|H]%orb_true_iff|H]%orb_true_iff.
    + exists n. split; [constructor|done].
    + destruct (IHi H) as (m & Hm & Hr). exists m. split; [by constructor 2|done].
    + destruct (IHs H) as (m & Hm & Hr). exists m. split; [by constructor 3|done].
  - intros (m & Hm & Hr). induction Hm; cbn [error_chain_is_tls]; rewrite ?orb_true_iff; auto.
Qed.

(** ** Timeouts *)

(** What [timeout] around a future that gives a [Result] gives. *)
Inductive Timed (E A : Type) : Type :=
  | Elapsed
  | Completed (r : Result E A).
Arguments Elapsed {E A}.
Arguments Completed {E A} r.

(** [.map_err(|_| Error::Timeout)?.map_err(f)?] *)
Definition timed {E A} (f : E → Error) (t : Timed E A) : Result Error A :=
  match t with
  | Elapsed => Err Timeout
  | Completed (Err e) => Err (f e)
  | Completed (Ok a) => Ok a
  end.

Lemma timed_ok {E A} (f : E → Error) (t : Timed E A) a : timed f t = Ok a ↔ t = Completed (Ok a).
Proof. destruct t as [|[]]; cbn; naive_solver. Qed.

(** ** Sending at most twice *)

Section retry.
Context {F A N : Type}.

(** [attempt fresh] is one attempt, with what it did; [again fresh] the retry
    rule. The log has every attempt made. *)
Context (attempt : bool → Run Error (Result F A * N)) (again : bool → F → bool) (error_of : F → Error).

Fixpoint retry_loop (fuel : nat) (fresh : bool) (log : list (bool * N)) :
    Run Error (Result Error A * list (bool * N)) :=
  match fuel with
  | O => Hang
  | S fuel =>
      '(r, n) ← attempt fresh;
      let log := log ++ [(fresh, n)] in
      match r with
      | Ok a => Ret (Ok a, log)
      | Err failed =>
          if again fresh failed then retry_loop fuel true log else Ret (Err (error_of failed), log)
      end
  end.

Definition RETRY_FUEL : nat := 2.

(** The last of the attempts decides the result. *)
Definition outcome (r : Result F A) : Result Error A :=
  match r with Ok a => Ok a | Err failed => Err (error_of failed) end.

(** Whether the first attempt is followed by a second one. *)
Definition second (r : Result F A) : bool :=
  match r with Ok _ => false | Err failed => again false failed end.

Lemma retry_loop_two :
  (∀ failed, again true failed = false) →
  retry_loop RETRY_FUEL false [] =
    ('(r, n) ← attempt false;
     if second r then '(r', n') ← attempt true; Ret (outcome r', [(false, n); (true, n')])
     else Ret (outcome r, [(false, n)])).
Proof.
  intros Hagain. unfold RETRY_FUEL. cbn [retry_loop app].
  destruct (attempt false) as [[[a|f] n]|e| |]; try done. cbn [mbind run_bind second outcome].
  destruct (again false f); [|done].
  destruct (attempt true) as [[[a|f2] n2]|e| |]; try done. cbn [mbind run_bind outcome]. by rewrite Hagain.
Qed.

(** What a loop that returned did: one attempt, or two of which the first
    failed in a way that allows it. *)
Lemma retry_loop_ret r log :
  (∀ failed, again true failed = false) →
  retry_loop RETRY_FUEL false [] = Ret (r, log) →
  ∃ r1 n1, attempt false = Ret (r1, n1) ∧
    (if second r1
     then ∃ r2 n2, attempt true = Ret (r2, n2) ∧ r = outcome r2 ∧ log = [(false, n1); (true, n2)]
     else r = outcome r1 ∧ log = [(false, n1)]).
Proof.
  intros Hagain. rewrite retry_loop_two by done. intros H. apply run_bind_ret in H as ([r1 n1] & -> & H).
  exists r1, n1. split; [done|]. destruct (second r1).
  - apply run_bind_ret in H as ([r2 n2] & -> & H). apply ret_pair_inj in H as [<- <-]. by exists r2, n2.
  - by apply ret_pair_inj in H as [<- <-].
Qed.

(** The loop does not run out of fuel, nor fail in a way of its own. *)
Lemma retry_loop_outcome :
  (∀ failed, again true failed = false) →
  (∀ fresh, ∃ r n, attempt fresh = Ret (r, n)) →
  ∃ r log, retry_loop RETRY_FUEL false [] = Ret (r, log).
Proof.
  intros Hagain Ha. rewrite retry_loop_two by done.
  destruct (Ha false) as (r & n & ->), (Ha true) as (r' & n' & ->). cbn [mbind run_bind].
  destruct (second r); eauto.
Qed.
End retry.
