(* ===== verification/Dot.v ===== *)
(** * DNS over TLS

    Models [crates/dns-lattice/src/upstream/dot.rs]: connecting, the mapping of
    TLS failures, and the backend with and without connection reuse. The TLS
    client configuration is opaque; connecting and the handshake are what the
    network gave, the session a Transport.v stream. *)

From stdpp Require Import base numbers list strings.
From S2P Require Import Prelude CoreError Time Name RecordData Header Message Transport Pool StreamQuery ErrorChain.

Section dot.
Context {TlsConfig : Type}.

Record DotBackendConfig : Type := mkDotConfig {
  dot_server : SocketAddr;
  server_name : string;
  tls_config : TlsConfig;
  dot_connect_timeout : Z;
  dot_read_timeout : Z;
}.

(** [webpki] is the client configuration that trusts the Mozilla roots. *)
Definition with_webpki_roots (webpki : TlsConfig) (server : SocketAddr) (name : string)
    (connect_timeout read_timeout : Z) : DotBackendConfig :=
  mkDotConfig server name webpki connect_timeout read_timeout.

(** What a pooled connection is opened with. *)
Record DotOpen : Type := mkDotOpen {
  o_server : SocketAddr;
  o_server_name : string;
  o_tls_config : TlsConfig;
  o_connect_timeout : Z;
  o_read_timeout : Z;
}.

(** The pool's configuration, what opens its connections, the read timeout and
    the budget of a call. *)
Record DotPool : Type := mkDotPool {
  dp_config : PoolConfig;
  dp_open : DotOpen;
  dp_read_timeout : Z;
  dp_budget : Z;
}.

Record DotBackend : Type := mkDotBackend {
  dot_config : DotBackendConfig;
  dot_pool : option DotPool;
}.

Definition dot_with_pool (b : DotBackend) (pool : PoolConfig) : DotBackend :=
  let c := dot_config b in
  let read := dot_read_timeout c in
  mkDotBackend c
    (if enabled pool
     then Some (mkDotPool pool
                  (mkDotOpen (dot_server c) (server_name c) (tls_config c) (dot_connect_timeout c) read)
                  read (duration_add (dot_connect_timeout c) (duration_mul read 3)))
     else None).

Definition dot_new (c : DotBackendConfig) : DotBackend := dot_with_pool (mkDotBackend c None) pool_config_new.

(** The network: a TCP connection within a timeout, and a TLS handshake over it
    within one; the socket carries whether Nagle's algorithm is off. *)
Context (tcp_connect : SocketAddr → Z → Timed string unit).
Context (tls_connect : string → TlsConfig → bool → Z → Timed Chain Stream).

Definition connect_tls (server : SocketAddr) (name : string) (tls : TlsConfig)
    (connect_timeout handshake_timeout : Z) (nodelay : bool) : Result Error Stream :=
  _ ← timed Transport (tcp_connect server connect_timeout);
  timed map_tls_connect_error (tls_connect name tls nodelay handshake_timeout).

(** [DotOpen::open] *)
Definition dot_open (o : DotOpen) : Result Error Stream :=
  connect_tls (o_server o) (o_server_name o) (o_tls_config o) (o_connect_timeout o) (o_read_timeout o) true.

(** [world] and [late] are what the attempts on pooled connections meet. *)
Definition dot_resolve (world : bool → Attempt) (late : bool) (b : DotBackend) (query : Message) : Run Error Message :=
  match dot_pool b with
  | Some _ => '(r, _) ← stream_query world late query; lift r
  | None =>
      let c := dot_config b in
      s ← lift (connect_tls (dot_server c) (server_name c) (tls_config c) (dot_connect_timeout c) (dot_read_timeout c) false);
      '(response, _) ← framed_query s query Match;
      Ret response
  end.

(** With or without connection reuse, what the backend returns answers the
    query under the caller's id. *)
Lemma dot_resolve_answers world late b query m : dot_resolve world late b query = Ret m → answers_query Match query m.
Proof.
  unfold dot_resolve. destruct (dot_pool b); intros H.
  - by eapply (tcp_resolve_answers (λ _, Err Timeout) world late (tcp_new (mkTcpConfig (V4 0, 0%Z) 0 0))).
  - apply run_bind_ret in H as (s & _ & H). apply run_bind_ret in H as ([r s'] & E & H).
    injection H as ->. by eapply framed_query_answers.
Qed.

(** ** How connecting fails *)

Section failures.
Context (server : SocketAddr) (name : string) (tls : TlsConfig) (connect_timeout handshake_timeout : Z) (nodelay : bool).

(** The TCP connection is up and the handshake came to this. *)
Definition handshake (t : Timed Chain Stream) : Prop :=
  tcp_connect server connect_timeout = Completed (Ok tt) ∧ tls_connect name tls nodelay handshake_timeout = t.

(** What went wrong, and the error that reports it. *)
Inductive connect_failure : Error → Prop :=
  | tcp_slow : tcp_connect server connect_timeout = Elapsed → connect_failure Timeout
  | tcp_refused text :
      tcp_connect server connect_timeout = Completed (Err text) → connect_failure (Transport text)
  | tls_slow : handshake Elapsed → connect_failure Timeout
  | tls_refused err n :
      handshake (Completed (Err err)) → has_cause err n → n_rustls n = true → connect_failure (Tls (to_string err))
  | peer_gone err :
      handshake (Completed (Err err)) → (∀ n, has_cause err n → n_rustls n = false) →
      connect_failure (Transport (to_string err)).

Lemma map_tls_connect_error_spec err e :
  map_tls_connect_error err = e ↔
  (∃ n, has_cause err n ∧ n_rustls n = true ∧ e = Tls (to_string err)) ∨
  ((∀ n, has_cause err n → n_rustls n = false) ∧ e = Transport (to_string err)).
Proof.
  unfold map_tls_connect_error. pose proof (error_chain_is_tls_spec err) as H.
  destruct (error_chain_is_tls err).
  - destruct (proj1 H eq_refl) as (n & Hn & Hr). split; [naive_solver|]. intros [?|[Hno _]]; [naive_solver|].
    apply Hno in Hn. congruence.
  - assert (Hno : ∀ n, has_cause err n → n_rustls n = false).
    { intros n Hn. destruct (n_rustls n) eqn:Hr; [|done]. discriminate (proj2 H (ex_intro _ n (conj Hn Hr))). }
    split; [naive_solver|]. intros [(n & Hn & Hr & _)|[_ ->]]; [|done]. rewrite Hno in Hr by done. done.
Qed.

(** Connecting over TLS fails with [Tls] exactly when the handshake reported
    an error that has a [rustls] error among its causes, nested inside I/O errors
    or behind them; a handshake the peer broke off is [Transport], as is a TCP
    failure, and either phase running out of time is [Timeout]. *)
Theorem connect_errors e :
  connect_tls server name tls connect_timeout handshake_timeout nodelay = Err e ↔ connect_failure e.
Proof.
  unfold connect_tls. split.
  - intros H. destruct (tcp_connect server connect_timeout) as [|[[]|text]] eqn:Et; cbn in H.
    + injection H as <-. by constructor.
    + destruct (tls_connect name tls nodelay handshake_timeout) as [|[s|err]] eqn:Eh; cbn in H; [|done|].
      * injection H as <-. by constructor 3.
      * injection H as H. apply map_tls_connect_error_spec in H as [(n & Hn & Hr & ->)|[Hno ->]].
        -- by apply (tls_refused err n).
        -- by apply peer_gone.
    + injection H as <-. by constructor.
  - intros [H|text H|[H1 H2]|err n [H1 H2] Hn Hr|err [H1 H2] Hno]; rewrite ?H, ?H1; cbn; try done; rewrite H2; cbn; [done|..];
      f_equal; apply map_tls_connect_error_spec; naive_solver.
Qed.
End failures.
End dot.
