(* ===== verification/Quic.v ===== *)
(** * The QUIC endpoint

    Models [crates/dns-lattice/src/upstream/quic.rs]: the endpoint a backend
    keeps and rebinds when its runtime is gone, opening connections on it, and
    the two classifications of connection errors
    ([connection_error_to_lattice_error] here,
    [map_quinn_connection_error] of [doh.rs]). The QUIC library is a parameter:
    what it gives for an address or a handshake. Runtimes and endpoints are
    numbers. *)

From stdpp Require Import base numbers list strings.
From S2P Require Import Prelude CoreError Time Transport ErrorChain.

Definition NO_ERROR : Z := 0.
Definition TRANSPORT_IDLE_MARGIN : Z := from_secs 2.

(** The library's connection error, as far as the code looks at it, and its
    text. *)
Inductive CloseKind : Type :=
  | TransportError (code : Z)
  | ApplicationClosed
  | ConnectionClosed
  | Reset
  | OtherClose.

Record ConnectionError : Type := mkConnectionError {
  ce_kind : CloseKind;
  ce_text : string;
}.

Definition closed_by_peer (close_reason : option ConnectionError) : bool :=
  match close_reason with
  | Some e => match ce_kind e with ApplicationClosed | ConnectionClosed | Reset => true | _ => false end
  | None => false
  end.

(** What closed the connection was the peer, an idle timeout or a reset: no
    failure of the transport or of TLS. *)
Definition no_transport_error (err : ConnectionError) : Prop :=
  match ce_kind err with TransportError _ => False | _ => True end.

(** [str::contains] *)
Fixpoint contains (sub s : string) : bool :=
  String.prefix sub s || match s with EmptyString => false | String _ s => contains sub s end.

Definition HANDSHAKE_FAILED : string := "cryptographic handshake failed".

Definition connection_error_to_lattice_error (err : ConnectionError) : Error :=
  let message := ce_text err in
  match ce_kind err with
  | TransportError _ => if contains HANDSHAKE_FAILED message then Tls message else Transport message
  | _ => Transport message
  end.

Definition map_quinn_connection_error (err : ConnectionError) : Error :=
  match ce_kind err with
  | TransportError code => if decide (256 ≤ code < 512)%Z then Tls (ce_text err) else Transport (ce_text err)
  | _ => Transport (ce_text err)
  end.

(** The library's text of a transport error mentions the handshake exactly for
    the codes of TLS alerts. *)
Definition alert_text (err : ConnectionError) : Prop :=
  ∀ code, ce_kind err = TransportError code → (contains HANDSHAKE_FAILED (ce_text err) = true ↔ 256 ≤ code < 512)%Z.

(** Then the two classifications agree. *)
Lemma classifications_agree err :
  alert_text err → connection_error_to_lattice_error err = map_quinn_connection_error err.
Proof.
  intros H. unfold connection_error_to_lattice_error, map_quinn_connection_error.
  destruct (ce_kind err) as [code| | | |] eqn:Ek; try done. specialize (H code Ek).
  case_decide as Hc; [by rewrite (proj2 H)|]. destruct (contains _ _); [|done]. by destruct Hc; apply H.
Qed.

(** ** The endpoint *)

(** A client configuration: the idle timeout it sets, if any. *)
Record ClientConfig : Type := mkClientConfig { max_idle_timeout : option Z }.

(** [usable] is whether the library accepts the TLS configuration, [idle_ok] the
    idle timeouts it can express. *)
Definition client_config (usable : Result string unit) (idle_ok : Z → bool) (idle_timeout : option Z) :
    Result Error ClientConfig :=
  match usable with
  | Err text => Err (Tls text)
  | Ok _ =>
      match idle_timeout with
      | Some d => Ok (mkClientConfig (if idle_ok d then Some d else None))
      | None => Ok (mkClientConfig None)
      end
  end.

Record Bound : Type := mkBound {
  runtime : nat;
  endpoint_id : nat;
}.

Record QuicClient : Type := mkQuicClient {
  qc_server : SocketAddr;
  qc_server_name : string;
  qc_config : Result Error ClientConfig;
  qc_connect_timeout : Z;
  bound : option Bound;
}.

Definition quic_client_new (server : SocketAddr) (name : string) (config : Result Error ClientConfig) (connect_timeout : Z) :
    QuicClient :=
  mkQuicClient server name config connect_timeout None.

Definition set_bound (q : QuicClient) (b : Bound) : QuicClient :=
  mkQuicClient (qc_server q) (qc_server_name q) (qc_config q) (qc_connect_timeout q) (Some b).

(** [current] is the caller's runtime, [bind] what binding a socket gives. The
    last component is the endpoint that is closed. *)
Definition endpoint (q : QuicClient) (current : Result string nat) (bind : SocketAddr → Result string nat) :
    Result Error nat * QuicClient * option nat :=
  match current with
  | Err text => (Err (Transport ("no Tokio runtime: " +:+ text)), q, None)
  | Ok now =>
      let fresh :=
        match bind (unspecified_like (qc_server q)) with
        | Err text => (Err (Transport ("binding QUIC endpoint: " +:+ text)), q, None)
        | Ok e => (Ok e, set_bound q (mkBound now e), endpoint_id <$> bound q)
        end in
      match bound q with
      | Some b => if decide (runtime b = now) then (Ok (endpoint_id b), q, None) else fresh
      | None => fresh
      end
  end.

(** [dial] starts a connection on an endpoint and gives what the handshake came
    to. *)
Definition connect {Connection} (q : QuicClient) (current : Result string nat) (bind : SocketAddr → Result string nat)
    (dial : nat → ClientConfig → SocketAddr → string → Z → Result string (Timed ConnectionError Connection)) :
    Result Error Connection * QuicClient * option nat :=
  match qc_config q with
  | Err e => (Err e, q, None)
  | Ok config =>
      match endpoint q current bind with
      | (Err e, q, gone) => (Err e, q, gone)
      | (Ok e, q, gone) =>
          (match dial e config (qc_server q) (qc_server_name q) (qc_connect_timeout q) with
           | Err text => Err (Transport text)
           | Ok connecting => timed connection_error_to_lattice_error connecting
           end, q, gone)
      end
  end.

(** [Handle::try_current().ok()] *)
Definition current_runtime (current : Result string nat) : option nat := ok current.

(** A connection whose runtime is gone has lost its driver. *)
Definition same_runtime (now opened : option nat) : bool :=
  match now, opened with
  | Some now, Some opened => bool_decide (opened = now)
  | _, _ => true
  end.

(** ** One socket *)

(** The client with the endpoints that are open. *)
Record Endpoints : Type := mkEndpoints {
  es_client : QuicClient;
  es_open : list nat;
}.

(** Any call, on any runtime; a socket that is bound is new. *)
Inductive endpoint_step : Endpoints → Endpoints → Prop :=
  | es_connect q open current bind r q' gone :
      (∀ a e, bind a = Ok e → e ∉ open) →
      endpoint q current bind = (r, q', gone) →
      endpoint_step (mkEndpoints q open)
        (mkEndpoints q'
           (match gone with Some g => filter (λ e, e ≠ g) | None => id end
              (match r with Ok e => if decide (e ∈ open) then open else e :: open | Err _ => open end))).

Definition bound_endpoint (q : QuicClient) : list nat :=
  match bound q with Some b => [endpoint_id b] | None => [] end.

Lemma endpoint_single_inv s s' :
  endpoint_step s s' → es_open s = bound_endpoint (es_client s) → es_open s' = bound_endpoint (es_client s').
Proof.
  intros [q open current bind r q' gone Hnew H]. cbn [es_client es_open]. intros ->. unfold endpoint in H.
  destruct current as [now|text]; [|by injection H as <- <- <-].
  assert (Hfresh : match bind (unspecified_like (qc_server q)) with
    | Err text => (Err (Transport ("binding QUIC endpoint: " +:+ text)), q, None)
    | Ok e => (Ok e, set_bound q (mkBound now e), endpoint_id <$> bound q) end = (r, q', gone) →
    match gone with Some g => filter (λ e, e ≠ g) | None => id end
      (match r with Ok e => if decide (e ∈ bound_endpoint q) then bound_endpoint q else e :: bound_endpoint q
       | Err _ => bound_endpoint q end) = bound_endpoint q').
  { destruct (bind (unspecified_like (qc_server q))) as [e|text] eqn:Eb; intros [= <- <- <-]; [|done].
    apply Hnew in Eb. rewrite decide_False by done. unfold bound_endpoint in *. cbn [bound set_bound endpoint_id].
    destruct (bound q) as [b|]; [|done]. cbn [fmap option_fmap option_map].
    rewrite filter_cons_True by (intros ->; apply Eb; constructor).
    rewrite filter_cons_False by (intros Hn; by apply Hn). done. }
  destruct (bound q) as [b|] eqn:Eq; [|auto]. destruct (decide (runtime b = now)); [|auto].
  injection H as <- <- <-. unfold bound_endpoint. rewrite Eq. rewrite decide_True by constructor. done.
Qed.

(** Whatever runtimes come and go, a client has at most one socket open, the one
    it would use next. *)
Lemma endpoint_single q s :
  bound q = None → rtc endpoint_step (mkEndpoints q []) s → es_open s = bound_endpoint (es_client s).
Proof.
  intros Hq. apply (rtc_ind_r (λ s, es_open s = bound_endpoint (es_client s))).
  - cbn. unfold bound_endpoint. by rewrite Hq.
  - intros y z _ Hyz Hy. by apply (endpoint_single_inv _ _ Hyz).
Qed.
