(* ===== verification/Doq.v ===== *)
(** * DNS over QUIC

    Models [crates/dns-lattice/src/upstream/doq.rs]: a query on its own stream
    of a pooled connection with its one retry, the query without connection
    reuse, and which connections are alive. A bidirectional stream is a
    Transport.v stream, whose error [Timeout] is the read timeout or the call's
    deadline; the pool is what it gave an attempt. *)

From stdpp Require Import base numbers list strings.
From S2P Require Import Prelude CoreError Time Name RecordData Header Message Transport Pool StreamQuery ErrorChain Quic.

Definition DOQ_ALPN : string := "doq".
Definition REQUEST_CANCELLED : Z := 3.

Section config.
Context {TlsConfig : Type}.

Record DoqBackendConfig : Type := mkDoqConfig {
  dq_server : SocketAddr;
  dq_server_name : string;
  dq_tls_config : TlsConfig;
  dq_connect_timeout : Z;
  dq_read_timeout : Z;
}.

Record DoqPool : Type := mkDoqPool {
  qp_config : PoolConfig;
  qp_client : QuicClient;
  qp_read_timeout : Z;
  qp_call_budget : Z;
}.

Record DoqBackend : Type := mkDoqBackend {
  doq_config : DoqBackendConfig;
  doq_pool : option DoqPool;
}.

(** What the QUIC library makes of the TLS configuration and of idle timeouts. *)
Context (usable : TlsConfig → Result string unit) (idle_ok : Z → bool).

Definition doq_with_pool (b : DoqBackend) (pool : PoolConfig) : DoqBackend :=
  let c := doq_config b in
  let connect := dq_connect_timeout c in
  let read := dq_read_timeout c in
  mkDoqBackend c
    (if enabled pool
     then Some (mkDoqPool pool
                  (quic_client_new (dq_server c) (dq_server_name c)
                     (client_config (usable (dq_tls_config c)) idle_ok
                        (Some (duration_add (idle_timeout pool) TRANSPORT_IDLE_MARGIN))) connect)
                  read (duration_add (duration_mul connect 2) (duration_mul read 2)))
     else None).

Definition doq_new (c : DoqBackendConfig) : DoqBackend := doq_with_pool (mkDoqBackend c None) pool_config_new.
End config.

(** ** Pooled connections *)

Record DoqConn : Type := mkDoqConn {
  close_reason : option ConnectionError;
  opened_on : option nat;
  dc_answered : bool;
}.

Definition doq_is_alive (conn : DoqConn) (now : option nat) : bool :=
  match close_reason conn with None => true | Some _ => false end && same_runtime now (opened_on conn).

Definition doq_peer_closed (conn : DoqConn) : bool := closed_by_peer (close_reason conn).

(** How the guard of a stream ended it: closed, or reset and stopped with
    [DOQ_REQUEST_CANCELLED]. *)
Inductive StreamEnd : Type :=
  | Finished
  | Cancelled.

(** What an attempt meets: the lease, the stream (or why there is none), and the
    connection when a failure is reported. *)
Record DoqAttempt : Type := mkDoqAttempt {
  da_lease : Result Error unit;
  da_open : Timed ConnectionError Stream;
  da_conn : DoqConn;
}.

(** What it told its lease and did to its stream. *)
Record DoqNotes : Type := mkDoqNotes {
  dn_lease : list LeaseNote;
  dn_stream : option StreamEnd;
  dn_sent : list Z;
}.

Definition doq_failed (a : DoqAttempt) (query : Message) (error : Error) : AttemptError * list LeaseNote :=
  let closed := match close_reason (da_conn a) with Some _ => true | None => false end in
  (mkAttemptError error
     (closed && dc_answered (da_conn a) && match opcode (header query) with Query => true | _ => false end),
   if closed then [MarkDead] else []).

(** The [async] block of an attempt: write, read, validate. *)
Definition exchange (stream : Stream) (framed : list Z) (query : Message) : Run Error (Message * Stream) :=
  stream ← write_all stream framed;
  '(answer, stream) ← read_framed stream;
  _ ← lift (validate_response query answer Ignore);
  Ret (answer, stream).

Definition doq_attempt (a : DoqAttempt) (framed : list Z) (query : Message) :
    Run Error (Result AttemptError Message * DoqNotes) :=
  match da_lease a with
  | Err e => Ret (Err (final_ e), mkDoqNotes [] None [])
  | Ok _ =>
      match da_open a with
      | Elapsed => Ret (Err (final_ Timeout), mkDoqNotes [] None [])
      | Completed (Err err) =>
          let '(failed, notes) := doq_failed a query (connection_error_to_lattice_error err) in
          Ret (Err failed, mkDoqNotes notes None [])
      | Completed (Ok stream) =>
          exchanged ← catch (exchange stream framed query);
          match exchanged with
          | Err Timeout => Ret (Err (final_ Timeout), mkDoqNotes [NoteTimeout] (Some Cancelled) [])
          | Err err =>
              let '(failed, notes) := doq_failed a query err in
              Ret (Err failed, mkDoqNotes notes (Some Cancelled) [])
          | Ok (answer, stream) =>
              Ret (Ok (with_id answer (id (header query))), mkDoqNotes [Complete] (Some Finished) (s_out stream))
          end
      end
  end.

(** [DoqPool::query]: [world fresh] is what an attempt meets, [late] whether the
    deadline has passed after the first one. *)
Definition doq_query (world : bool → DoqAttempt) (late : bool) (query : Message) :
    Run Error (Result Error Message * list (bool * DoqNotes)) :=
  let wire_query := with_id query 0 in
  payload ← lift (encode wire_query);
  if decide (Z.of_nat (length payload) ≤ u16_max)%Z
  then retry_loop (λ fresh, doq_attempt (world fresh) (frame payload) query)
         (λ fresh failed, retry failed && negb fresh && negb late) ae_error RETRY_FUEL false []
  else Throw MessageTooLong.

(** ** Without reuse *)

(** The steps before the stream, in order: the TLS configuration, the socket,
    the handshake, the stream. *)
Definition doq_open (c_server : SocketAddr) (usable : Result string unit) (bind : SocketAddr → Result string nat)
    (dial : nat → Result string (Timed ConnectionError unit)) (open_bi : Timed ConnectionError Stream) : Result Error Stream :=
  _ ← match usable with Err text => Err (Tls text) | Ok u => Ok u end;
  e ← match bind (unspecified_like c_server) with
      | Err text => Err (Transport ("binding QUIC endpoint: " +:+ text))
      | Ok e => Ok e
      end;
  connecting ← match dial e with Err text => Err (Transport text) | Ok t => Ok t end;
  _ ← timed connection_error_to_lattice_error connecting;
  timed connection_error_to_lattice_error open_bi.

(** The result and what was done to the stream: its send side is closed whatever
    happened on it. *)
Definition doq_resolve_unpooled (opened : Result Error Stream) (query : Message) :
    Run Error (Result Error Message * option StreamEnd) :=
  match opened with
  | Err e => Ret (Err e, None)
  | Ok stream =>
      response ← catch (framed_query stream (with_id query 0) Ignore);
      Ret (match response with Ok (m, _) => Ok (with_id m (id (header query))) | Err e => Err e end, Some Finished)
  end.

Definition doq_resolve {TlsConfig} (b : DoqBackend (TlsConfig:=TlsConfig)) (world : bool → DoqAttempt) (late : bool)
    (opened : Result Error Stream) (query : Message) : Run Error Message :=
  match doq_pool b with
  | Some _ => '(r, _) ← doq_query world late query; lift r
  | None => '(r, _) ← doq_resolve_unpooled opened query; lift r
  end.

(** ** One attempt *)

(** A restored answer answers the query under the caller's id. *)
Lemma with_id_answers query answer :
  answers_query Ignore query answer → answers_query Match query (with_id answer (id (header query))).
Proof. by intros []. Qed.

Lemma exchange_ret stream framed query answer stream' :
  exchange stream framed query = Ret (answer, stream') →
  answers_query Ignore query answer ∧ s_out stream' = s_out stream ++ framed.
Proof.
  unfold exchange. intros H. apply run_bind_ret in H as (s1 & Hw & H). apply run_bind_ret in H as ([m s2] & Hr & H).
  apply run_bind_ret in H as ([] & Hv & H). apply ret_pair_inj in H as [<- <-]. split.
  - apply validate_response_spec. by destruct (validate_response query m Ignore) as [[]|].
  - unfold write_all in Hw. destruct (s_writes stream) as [|[[]|e] ws]; [done| |done]. injection Hw as <-.
    unfold read_framed, read_exact in Hr. case_decide; [|done]. cbn [mbind run_bind s_in] in Hr.
    case_decide; [|done]. cbn [mbind run_bind] in Hr. apply run_bind_ret in Hr as (m' & _ & Hr).
    by apply ret_pair_inj in Hr as [_ <-].
Qed.

Lemma exchange_outcome stream framed query :
  exchange stream framed query ≠ Panic ∧ (exchange stream framed query = Hang → loops_on (s_in stream)).
Proof.
  unfold exchange, write_all. destruct (s_writes stream) as [|[[]|e] ws]; [done| |done].
  cbn [mbind run_bind]. destruct (read_framed_outcome (mkStream (s_in stream) (s_end stream) ws (s_out stream ++ framed))) as [Hp Hh].
  destruct (read_framed _) as [[m s2]|e| |]; [|done|done|by auto]. cbn [mbind run_bind].
  by destruct (validate_response query m Ignore) as [[]|].
Qed.

(** The answer on the attempt's stream makes the decoder loop. *)
Definition attempt_loops (a : DoqAttempt) : Prop := ∃ stream, da_open a = Completed (Ok stream) ∧ loops_on (s_in stream).

Lemma doq_attempt_outcome a framed query :
  (∃ r n, doq_attempt a framed query = Ret (r, n)) ∨
  (doq_attempt a framed query = Hang ∧ attempt_loops a).
Proof.
  unfold doq_attempt. destruct (da_lease a); [|by eauto]. destruct (da_open a) as [|[stream|err]] eqn:Eo; [by eauto| |by eauto].
  destruct (exchange_outcome stream framed query) as [Hp Hh].
  destruct (exchange stream framed query) as [[m s]|e| |]; cbn [catch mbind run_bind]; [by eauto| |done|].
  - destruct e; eauto.
  - right. split; [done|]. exists stream. auto.
Qed.

(** The failures of an attempt after which the query is sent again. *)
Record doq_may_retry (a : DoqAttempt) (framed : list Z) (query : Message) : Prop := {
  mr_lease : da_lease a = Ok tt;
  mr_closed : close_reason (da_conn a) ≠ None;
  mr_answered : dc_answered (da_conn a) = true;
  mr_opcode : opcode (header query) = Query;
  mr_failure : (∃ err, da_open a = Completed (Err err)) ∨
    ∃ stream e, da_open a = Completed (Ok stream) ∧ exchange stream framed query = Throw e ∧ e ≠ Timeout;
}.

Lemma doq_failed_retry a query e :
  retry (doq_failed a query e).1 = true ↔
  close_reason (da_conn a) ≠ None ∧ dc_answered (da_conn a) = true ∧ opcode (header query) = Query.
Proof.
  unfold doq_failed. cbn [fst retry]. rewrite !andb_true_iff.
  destruct (close_reason (da_conn a)), (opcode (header query)); naive_solver.
Qed.

(** What one attempt that returned did. *)
Lemma doq_attempt_spec a framed query r n :
  doq_attempt a framed query = Ret (r, n) →
  ((∃ f, r = Err f ∧ retry f = true) ↔ doq_may_retry a framed query) ∧
  (dn_stream n = match da_open a with Completed (Ok _) => if decide (da_lease a = Ok tt) then Some (if is_ok r then Finished else Cancelled) else None | _ => None end) ∧
  (∀ m, r = Ok m → answers_query Match query m ∧
     ∃ stream, da_open a = Completed (Ok stream) ∧ dn_sent n = s_out stream ++ framed).
Proof.
  unfold doq_attempt. destruct (da_lease a) as [[]|e] eqn:El; intros H.
  2:{ apply ret_pair_inj in H as [<- <-]. split; [|split; [by destruct (da_open a) as [|[]]|done]]. split; [naive_solver|]. intros [H _ _ _ _]. congruence. }
  destruct (da_open a) as [|[stream|err]] eqn:Eo.
  - apply ret_pair_inj in H as [<- <-]. split; [|done]. split; [naive_solver|]. intros [_ _ _ _ H]. rewrite Eo in H. naive_solver.
  - destruct (exchange stream framed query) as [[m s]|e| |] eqn:Ex; cbn [catch mbind run_bind] in H; [| |done..].
    + apply ret_pair_inj in H as [<- <-]. apply exchange_ret in Ex as Hx. destruct Hx as [Ha Hs]. split; [|split; [done|]].
      * split; [naive_solver|]. intros [_ _ _ _ [[? H]|(? & ? & H1 & H2 & _)]]; [congruence|]. rewrite Eo in H1. injection H1 as <-. congruence.
      * intros ? [= <-]. split; [by apply with_id_answers|]. exists stream. split; [done|exact Hs].
    + destruct (decide (e = Timeout)) as [->|Hne].
      * apply ret_pair_inj in H as [<- <-]. split; [|done]. split; [naive_solver|].
        intros [_ _ _ _ [[? H]|(? & ? & H1 & H2 & H3)]]; [congruence|]. rewrite Eo in H1. injection H1 as <-. congruence.
      * assert (r = Err (doq_failed a query e).1 ∧ n = mkDoqNotes (doq_failed a query e).2 (Some Cancelled) []) as [-> ->].
        { destruct e; try done; by apply ret_pair_inj in H as [<- <-]. }
        split; [|split; [done|done]]. transitivity (retry (doq_failed a query e).1 = true); [naive_solver|].
        rewrite doq_failed_retry. split; [intros (H1 & H2 & H3); split; try done; right; by exists stream, e|].
        by intros [].
  - apply ret_pair_inj in H as [<- <-]. split; [|done].
    transitivity (retry (doq_failed a query (connection_error_to_lattice_error err)).1 = true); [naive_solver|].
    rewrite doq_failed_retry. split; [intros (H1 & H2 & H3); split; try done; left; by exists err|]. by intros [].
Qed.

(** ** A query *)

Lemma doq_attempts_return (world : bool → DoqAttempt) framed query :
  (∀ fresh, ∃ r n, doq_attempt (world fresh) framed query = Ret (r, n)) ∨ ∃ fresh, attempt_loops (world fresh).
Proof.
  destruct (doq_attempt_outcome (world false) framed query) as [H|[_ H]]; [|by right; exists false].
  destruct (doq_attempt_outcome (world true) framed query) as [H'|[_ H']]; [|by right; exists true].
  left. by intros [].
Qed.

(** A stream opened by an attempt in the log was ended, gracefully only when it
    brought an answer. *)
Definition streams_ended (world : bool → DoqAttempt) (r : Result Error Message) (log : list (bool * DoqNotes)) : Prop :=
  ∀ i fresh n, log !! i = Some (fresh, n) →
    dn_stream n =
      match da_lease (world fresh), da_open (world fresh) with
      | Ok _, Completed (Ok _) => Some (if is_ok r && (S i =? length log) then Finished else Cancelled)
      | _, _ => None
      end.

Lemma streams_ended_last (a : DoqAttempt) (r : Result AttemptError Message) (n : DoqNotes) (b : bool) :
  (dn_stream n = match da_open a with Completed (Ok _) => if decide (da_lease a = Ok tt) then Some (if is_ok r then Finished else Cancelled) else None | _ => None end) →
  b = is_ok r →
  dn_stream n = match da_lease a, da_open a with Ok _, Completed (Ok _) => Some (if b then Finished else Cancelled) | _, _ => None end.
Proof. intros -> ->. by destruct (da_open a) as [|[]], (da_lease a) as [[]|]. Qed.

Lemma doq_query_run world late query payload r log :
  encode (with_id query 0) = Ok payload → doq_query world late query = Ret (r, log) →
  (log.*1 = [false] ∨ log.*1 = [false; true]) ∧
  (log.*1 = [false; true] ↔ doq_may_retry (world false) (frame payload) query ∧ late = false) ∧
  streams_ended world r log ∧
  (∀ m, r = Ok m → answers_query Match query m ∧
     ∃ fresh n stream, last log = Some (fresh, n) ∧ da_open (world fresh) = Completed (Ok stream) ∧
       dn_sent n = s_out stream ++ frame payload).
Proof.
  intros He H. unfold doq_query in H. rewrite He in H. cbn [lift mbind run_bind] in H. case_decide; [|done].
  apply retry_loop_ret in H as (r1 & n1 & H1 & H); [|intros f; by rewrite andb_false_r].
  destruct (doq_attempt_spec _ _ _ _ _ H1) as (Hr1 & Hs1 & Hm1).
  assert (Hsec : second (λ fresh failed, retry failed && negb fresh && negb late) r1 = true ↔
    doq_may_retry (world false) (frame payload) query ∧ late = false).
  { rewrite <-Hr1. unfold second. destruct r1 as [m|f]; [naive_solver|]. rewrite !andb_true_iff, !negb_true_iff. naive_solver. }
  destruct (second _ r1) eqn:Es.
  - destruct H as (r2 & n2 & H2 & -> & ->). destruct (doq_attempt_spec _ _ _ _ _ H2) as (_ & Hs2 & Hm2).
    assert (is_ok r1 = false) as Hr by (by destruct r1). cbn. split; [by right|]. split; [tauto|]. split.
    + intros [|[|i]] fresh n [= <- <-]; (eapply streams_ended_last; [eassumption|]); [|by destruct r2]. rewrite Hr.
      by rewrite andb_false_r.
    + intros m Hm. destruct r2 as [m2|f2]; [|done]. injection Hm as <-. destruct (Hm2 _ eq_refl) as (Ha & stream & Ho & Hse).
      split; [done|]. by exists true, n2, stream.
  - destruct H as [-> ->]. cbn. split; [by left|]. split; [split; [done|]; intros ?%Hsec; congruence|]. split.
    + intros [|i] fresh n [= <- <-]. eapply streams_ended_last; [eassumption|]. by destruct r1.
    + intros m Hm. destruct r1 as [m1|f1]; [|done]. injection Hm as <-. destruct (Hm1 _ eq_refl) as (Ha & stream & Ho & Hse).
      split; [done|]. by exists false, n1, stream.
Qed.

(** ** The documented resend *)

(** The query could not be written, or the stream ended before a whole frame had
    come. *)
Definition cut_off (stream : Stream) (e : Error) : Prop :=
  read_exact stream 2 = Throw e ∨
  ∃ len rest, read_exact stream 2 = Ret (len, rest) ∧ read_exact rest (Z.to_nat (from_be len)) = Throw e.

Definition broken_off (stream : Stream) (framed : list Z) (e : Error) : Prop :=
  write_all stream framed = Throw e ∨ ∃ written, write_all stream framed = Ret written ∧ cut_off written e.

(** The failures after which the documentation has a query sent again: on a
    connection that had answered and was then closed, no stream could be opened
    or the connection was gone before the answer had come. *)
Record doq_lost (a : DoqAttempt) (framed : list Z) (query : Message) : Prop := {
  dl_lease : da_lease a = Ok tt;
  dl_answered : dc_answered (da_conn a) = true;
  dl_opcode : opcode (header query) = Query;
  dl_closed : ∃ err, close_reason (da_conn a) = Some err ∧ no_transport_error err;
  dl_failure : (∃ err, da_open a = Completed (Err err) ∧ no_transport_error err) ∨
    ∃ stream text, da_open a = Completed (Ok stream) ∧ broken_off stream framed (Transport text);
}.

Lemma broken_off_exchange stream framed query e :
  broken_off stream framed e → exchange stream framed query = Throw e.
Proof.
  unfold exchange. intros [->|(s1 & -> & H)]; [done|]. cbn [mbind run_bind]. unfold read_framed.
  destruct H as [->|(len & rest & -> & H)]; [done|]. cbn [mbind run_bind]. by rewrite H.
Qed.

Lemma doq_lost_retried a framed query : doq_lost a framed query → doq_may_retry a framed query.
Proof.
  intros [H1 H2 H3 (err & H4 & _) H5]. split; [done|congruence|done|done|].
  destruct H5 as [(err' & H5 & _)|(stream & text & H5 & H6)]; [left; by exists err'|right].
  exists stream, (Transport text). split; [done|]. split; [by apply broken_off_exchange|done].
Qed.


(** Whatever path a query takes, what the backend returns answers it under the
    caller's id. *)
Lemma doq_resolve_answers {TlsConfig} (b : DoqBackend (TlsConfig:=TlsConfig)) world late opened query m :
  doq_resolve b world late opened query = Ret m → answers_query Match query m.
Proof.
  unfold doq_resolve. destruct (doq_pool b); intros H; apply run_bind_ret in H as ([r x] & E & H);
    (destruct r as [m'|]; [|done]); injection H as ->.
  - destruct (encode (with_id query 0)) as [payload|e] eqn:He; [|unfold doq_query in E; by rewrite He in E].
    by apply (doq_query_run _ _ _ _ _ _ He E).
  - unfold doq_resolve_unpooled in E. destruct opened as [stream|e]; [|done].
    destruct (framed_query stream (with_id query 0) Ignore) as [[a s]|e| |] eqn:Ef; try done.
    cbn [catch mbind run_bind] in E. apply ret_pair_inj in E as [[= <-] _]. apply framed_query_answers in Ef.
    apply with_id_answers. destruct Ef as [_ H2 H3]. by split.
Qed.

(** ** A closed connection and a bad answer *)

(** An answer to another question, on a connection that was then closed. *)
Definition other_answer : Message :=
  mkMessage (mkHeader 0 true Query false false true true NoError) [mkQuestion example_name TNs In] [] [] [].

Definition open_stream (m : Message) : Stream := mkStream (frame (encoded m)) Timeout [Ok tt] [].

Definition stale_conn : DoqConn := mkDoqConn (Some (mkConnectionError ApplicationClosed "closed by peer: 0")) None true.

Definition mismatch_world (fresh : bool) : DoqAttempt :=
  if fresh then mkDoqAttempt (Ok tt) (Completed (Ok (open_stream (with_id example_reply 0)))) (mkDoqConn None None false)
  else mkDoqAttempt (Ok tt) (Completed (Ok (open_stream other_answer))) stale_conn.

(** The query is sent again although its failure was a mismatch. *)
Lemma doq_retries_mismatch :
  doq_may_retry (mismatch_world false) (frame (encoded (with_id example_query 0))) example_query ∧
  exchange (open_stream other_answer) (frame (encoded (with_id example_query 0))) example_query =
    Throw (Transport "upstream response question section does not match the query").
Proof.
  assert (exchange (open_stream other_answer) (frame (encoded (with_id example_query 0))) example_query =
    Throw (Transport "upstream response question section does not match the query")) as E by (vm_compute; reflexivity).
  split; [|exact E]. split; try done. right. eexists _, _. split; [reflexivity|]. split; [exact E|done].
Qed.

(** A connection that the peer closed before the answer had come. *)
Definition lost_world (fresh : bool) : DoqAttempt :=
  if fresh then mkDoqAttempt (Ok tt) (Completed (Ok (open_stream (with_id example_reply 0)))) (mkDoqConn None None false)
  else mkDoqAttempt (Ok tt) (Completed (Ok (mkStream [0; 1]%Z (Transport "connection lost") [Ok tt] []))) stale_conn.

Lemma example_lost : doq_lost (lost_world false) (frame (encoded (with_id example_query 0))) example_query.
Proof.
  split; [done..|by eexists|]. right. eexists _, _. split; [reflexivity|]. right. eexists. split; [reflexivity|].
  right. eexists _, _. split; reflexivity.
Qed.

