(* ===== verification/Doh.v ===== *)
(** * DNS over HTTPS: requests and answers

    Models [crates/dns-lattice/src/upstream/doh.rs]: building the RFC 8484
    request of a query, checking the answer, mapping errors, and a query without
    connection reuse; and puts the client against the request handler of
    Server.v. base64, the URI parser and the HTTP client are parameters. *)

From Stdlib Require Import Ascii.
From stdpp Require Import base numbers list strings pretty.
From S2P Require Import Prelude CoreError Time Name RecordData Edns Header Message Transport StreamQuery ErrorChain Quic Response ResponseWf Server.

(** ** Requests *)

Inductive DohMethod : Type :=
  | Get
  | Post.

(** A URI as the HTTP library takes it apart; a path has no query in it. *)
Record PathAndQuery : Type := mkPathAndQuery {
  pq_path : string;
  pq_query : option string;
}.

Record Uri : Type := mkUri {
  scheme : option string;
  authority : option string;
  host : option string;
  path_and_query : option PathAndQuery;
}.

Record DohRequest : Type := mkDohRequest {
  dr_method : Method;
  dr_uri : Uri;
  dr_headers : list (string * string);
  dr_body : list Z;
}.

(** The endpoint, the wire format, the TLS configuration and the bound on a
    request. *)
Record DohBackendConfig (TlsConfig : Type) : Type := mkDohBackendConfig {
  doh_uri : Uri;
  doh_method : DohMethod;
  doh_tls_config : TlsConfig;
  doh_timeout : Z;
}.
Arguments mkDohBackendConfig {TlsConfig} _ _ _ _.
Arguments doh_uri {TlsConfig} _.
Arguments doh_method {TlsConfig} _.
Arguments doh_tls_config {TlsConfig} _.
Arguments doh_timeout {TlsConfig} _.

(** What came back: the status, the body, and whether the connection's token
    says that it had answered a query before. *)
Record HttpReply : Type := mkHttpReply {
  hr_status : Z;
  hr_body : Timed Chain (list Z);
  hr_token : option bool;
}.

Definition is_success (status : Z) : bool := bool_decide (200 ≤ status < 300)%Z.

Definition DNS_MESSAGE : string := "application/dns-message".

Section client.
Context (base64_encode : list Z → string).
(** [PathAndQuery::from_str], [Uri::from_parts] and the last step of a request's
    builder. *)
Context (from_str : string → Result string PathAndQuery) (from_parts : Uri → Result string Uri).
Context (build : DohRequest → Result string DohRequest).
Context (status_text : Z → string).

Definition transport {A} (r : Result string A) : Result Error A :=
  match r with Ok a => Ok a | Err text => Err (Transport text) end.

Definition build_doh_request (uri : Uri) (method : DohMethod) (query : Message) : Result Error DohRequest :=
  payload ← encode query;
  match method with
  | Post =>
      transport (build (mkDohRequest POST uri [("content-type", DNS_MESSAGE); ("accept", DNS_MESSAGE)]%string payload))
  | Get =>
      let encoded := base64_encode payload in
      let path := match path_and_query uri with Some pq => pq_path pq | None => "/"%string end in
      let separator := if contains "?" path then "&"%string else "?"%string in
      pq ← transport (from_str (path +:+ separator +:+ "dns=" +:+ encoded)%string);
      uri ← transport (from_parts (mkUri (scheme uri) (authority uri) (host uri) (Some pq)));
      transport (build (mkDohRequest GET uri [("accept", DNS_MESSAGE)]%string []))
  end.

Definition decode_validated (query : Message) (body : list Z) : Run Error Message :=
  response ← decode body;
  _ ← lift (validate_response query response Ignore);
  Ret (with_id response (id (header query))).

Definition map_hyper_error (err : Chain) : Error :=
  if error_chain_is_tls err then Tls (to_string err) else Transport (to_string err).

(** [DohBackend::resolve_unpooled]; [request] is the client that is built for
    the call. *)
Definition doh_resolve_unpooled {TlsConfig} (config : DohBackendConfig TlsConfig)
    (request : DohRequest → Timed Chain HttpReply) (query : Message) : Run Error Message :=
  req ← lift (build_doh_request (doh_uri config) (doh_method config) query);
  response ← lift (timed map_hyper_error (request req));
  if negb (is_success (hr_status response))
  then Throw (Transport ("doh server returned http status " +:+ status_text (hr_status response)))
  else
    body ← lift (timed (λ err, Transport (to_string err)) (hr_body response));
    decode_validated query body.

Lemma decode_validated_answers query body m : decode_validated query body = Ret m → answers_query Match query m.
Proof.
  unfold decode_validated. intros H. apply run_bind_ret in H as (r & _ & H). apply run_bind_ret in H as ([] & Hv & H).
  injection H as <-. assert (answers_query Ignore query r) as [_ H2 H3].
  { apply validate_response_spec. by destruct (validate_response query r Ignore) as [[]|]. }
  by split.
Qed.

Lemma decode_validated_outcome query body :
  decode_validated query body ≠ Panic ∧ (decode_validated query body = Hang → decode body = Hang).
Proof.
  unfold decode_validated. pose proof (decode_no_panic_aux body) as Hp.
  destruct (decode body) as [m|e| |]; try done. cbn [mbind run_bind]. by destruct (validate_response query m Ignore) as [[]|].
Qed.

Lemma doh_unpooled_answers {TlsConfig} (config : DohBackendConfig TlsConfig) request query m :
  doh_resolve_unpooled config request query = Ret m → answers_query Match query m.
Proof.
  unfold doh_resolve_unpooled. intros H. apply run_bind_ret in H as (req & _ & H). apply run_bind_ret in H as (r & _ & H).
  destruct (is_success (hr_status r)); [|done]. cbn [negb] in H. apply run_bind_ret in H as (body & _ & H).
  by eapply decode_validated_answers.
Qed.

(** ** The configured query *)

(** A GET request does not depend on the query the configured URI has. *)
Lemma doh_get_drops_query sch auth h path q1 q2 query :
  build_doh_request (mkUri sch auth h (Some (mkPathAndQuery path q1))) Get query =
  build_doh_request (mkUri sch auth h (Some (mkPathAndQuery path q2))) Get query.
Proof. done. Qed.

(** ** Against the server *)

(** The request a server gets. *)
Definition delivered (req : DohRequest) : Request :=
  let pq := path_and_query (dr_uri req) in
  mkRequest (match pq with Some pq => pq_path pq | None => "/" end) (pq ≫= pq_query) (dr_method req) (Some (dr_body req)).

Context {State : Type} (resolve : Message → State → Run Error (Result Error Message * State)).
Context (base64_decode : string → option (list Z)).

(** What a client gets from the server's handler. *)
Definition served (edns_max : Z) (config : DohListenerConfig) (s : State) (req : DohRequest) : Timed Chain HttpReply :=
  match handle_doh_request resolve base64_decode edns_max config (delivered req) s with
  | Ret ((status, body), _) => Completed (Ok (mkHttpReply status (Completed (Ok body)) None))
  | _ => Elapsed
  end.

Lemma split_whole c s : contains (String c EmptyString) s = false → split c s = [s].
Proof.
  induction s as [|a s IH]; [done|]. cbn [contains split]. intros [Hp Hs]%orb_false_iff. rewrite IH by done.
  rewrite decide_False; [done|]. intros ->. cbn [String.prefix] in Hp. destruct (Ascii.ascii_dec c c); [|done]. by destruct s.
Qed.

Lemma contains_other c a s : a ≠ c → contains (String c EmptyString) (String a s) = contains (String c EmptyString) s.
Proof. intros H. cbn [contains String.prefix]. by destruct (Ascii.ascii_dec c a) as [->|]. Qed.

Lemma contains_dns c text :
  c ∉ ["d"%char; "n"%char; "s"%char; "="%char] → contains (String c EmptyString) ("dns=" +:+ text) = contains (String c EmptyString) text.
Proof. rewrite !not_elem_of_cons. intros (H1 & H2 & H3 & H4 & _). change ("dns=" +:+ text) with (String "d" (String "n" (String "s" (String "=" text)))).
  by rewrite !contains_other by done.
Qed.

Lemma dns_parameter_encoded text : contains "&" text = false → dns_parameter ("dns=" +:+ text) = Some text.
Proof.
  intros H. unfold dns_parameter. rewrite split_whole; [done|].
  by rewrite contains_dns by (apply (bool_decide_unpack _); done).
Qed.

(** ** What the libraries promise *)

(** RFC 3986: the characters of a path with its slashes, and of a query. *)
Definition alphanumeric (c : ascii) : bool :=
  let n := nat_of_ascii c in
  bool_decide (48 ≤ n ≤ 57) || bool_decide (65 ≤ n ≤ 90) || bool_decide (97 ≤ n ≤ 122).
Definition path_char (c : ascii) : bool :=
  alphanumeric c ||
  bool_decide (c ∈ ["-"; "."; "_"; "~"; "!"; "$"; "&"; "'"; "("; ")"; "*"; "+"; ","; ";"; "="; ":"; "@"; "/"; "%"]%char).
Definition query_char (c : ascii) : bool := path_char c || bool_decide (c = "?"%char).

(** RFC 4648, section 5: the alphabet of base64url. *)
Definition base64_char (c : ascii) : bool := alphanumeric c || bool_decide (c ∈ ["-"; "_"]%char).

Fixpoint all_chars (test : ascii → bool) (s : string) : bool :=
  match s with EmptyString => true | String c s => test c && all_chars test s end.

(** The longest URI the HTTP library takes. *)
Definition MAX_URI_LEN : nat := Z.to_nat 65534.

Definition path_ok (path : string) : bool := String.prefix "/" path && all_chars path_char path.

(** A registered name or IPv4 address, or an IPv6 address in brackets. *)
Definition name_char (c : ascii) : bool := alphanumeric c || bool_decide (c ∈ ["-"; "."]%char).
Definition literal_char (c : ascii) : bool :=
  bool_decide (c ∈ [":"; "."]%char) || alphanumeric c && bool_decide (nat_of_ascii c ≤ 57 ∨ 97 ≤ nat_of_ascii c ≤ 102).
Definition host_ok (h : string) : Prop :=
  (h ≠ EmptyString ∧ all_chars name_char h = true) ∨
  ∃ a, h = "[" +:+ a +:+ "]" ∧ a ≠ EmptyString ∧ all_chars literal_char a = true.

(** What follows the host in an authority. *)
Definition port_ok (port : string) : Prop :=
  port = EmptyString ∨ ∃ n : N, (n ≤ 65535)%N ∧ port = ":" +:+ pretty n.

(** An absolute http or https URI without user information, its parts as the RFC
    writes them and its host the one of its authority. *)
Definition uri_ok (u : Uri) : Prop :=
  (scheme u = Some "http" ∨ scheme u = Some "https")%string ∧
  (∃ h port, host u = Some h ∧ authority u = Some (h +:+ port) ∧ host_ok h ∧ port_ok port) ∧
  ∃ pq, path_and_query u = Some pq ∧ path_ok (pq_path pq) = true ∧
    ∀ q, pq_query pq = Some q → all_chars query_char q = true.

(** The headers of a POST and of a GET request. *)
Definition doh_headers : list (list (string * string)) :=
  [[("content-type", DNS_MESSAGE); ("accept", DNS_MESSAGE)]; [("accept", DNS_MESSAGE)]]%string.

(** base64url decodes what it encodes and keeps to its alphabet; a path and a
    query of the RFC's characters, not too long together, are taken apart as
    they were put together; a URI is put together again from all its parts; and
    a request of such a URI and the headers of RFC 8484 can be built. *)
Record http_laws : Prop := {
  hl_base64 bytes : bytes_ok bytes → base64_decode (base64_encode bytes) = Some bytes;
  hl_alphabet bytes : bytes_ok bytes → all_chars base64_char (base64_encode bytes) = true;
  hl_from_str path text :
    path_ok path = true → all_chars query_char text = true → String.length (path +:+ "?" +:+ text) ≤ MAX_URI_LEN →
    from_str (path +:+ "?" +:+ text) = Ok (mkPathAndQuery path (Some text));
  hl_from_parts u : uri_ok u → from_parts u = Ok u;
  hl_build r : uri_ok (dr_uri r) → dr_headers r ∈ doh_headers → build r = Ok r;
}.

Lemma all_chars_app test a b : all_chars test (a +:+ b) = all_chars test a && all_chars test b.
Proof.
  induction a as [|c a IH]; [done|]. change (String c a +:+ b) with (String c (a +:+ b)). cbn [all_chars].
  by rewrite IH, andb_assoc.
Qed.

Lemma all_chars_weaken (test test' : ascii → bool) s :
  (∀ c, test c = true → test' c = true) → all_chars test s = true → all_chars test' s = true.
Proof. intros Ht. induction s as [|c s IH]; [done|]. cbn [all_chars]. rewrite !andb_true_iff. intros [? ?]. auto. Qed.

(** A character outside the alphabet is not there. *)
Lemma all_chars_without test c s :
  test c = false → all_chars test s = true → contains (String c EmptyString) s = false.
Proof.
  intros Hc. induction s as [|a s IH]; [done|]. cbn [all_chars]. intros [Ha Hs]%andb_true_iff.
  rewrite contains_other; [by apply IH|]. intros ->. congruence.
Qed.

Lemma base64_is_query c : base64_char c = true → query_char c = true.
Proof.
  unfold base64_char, query_char, path_char. intros [->|Hc%bool_decide_eq_true]%orb_true_iff; [done|].
  rewrite (bool_decide_eq_true_2 (c ∈ _)); [by rewrite orb_true_r|].
  revert Hc. rewrite !elem_of_cons. naive_solver.
Qed.

(** A GET request carries the whole message in its URI. *)
Definition fits (uri : Uri) (method : DohMethod) (payload : list Z) : Prop :=
  method = Get → ∀ pq, path_and_query uri = Some pq →
    String.length (pq_path pq +:+ "?dns=" +:+ base64_encode payload) ≤ MAX_URI_LEN.

(** The bytes of the query reach the server's decoder. *)
Lemma request_delivered uri method query payload :
  http_laws → encode query = Ok payload → bytes_ok payload → uri_ok uri → fits uri method payload →
  ∃ req, build_doh_request uri method query = Ok req ∧
    r_path (delivered req) = match path_and_query uri with Some pq => pq_path pq | None => "/"%string end ∧
    extract_query_bytes base64_decode (delivered req) = Some payload ∧
    extract_doh3_query_bytes base64_decode (delivered req) (dr_body req) = Some payload.
Proof.
  intros [Hb Ha Hf Hu Hd] He Hpay Hok Hfit. specialize (Hb _ Hpay). specialize (Ha _ Hpay).
  unfold build_doh_request. rewrite He. cbn [mbind result_bind].
  destruct method; [|rewrite Hd by first [done | apply list_elem_of_here]; eexists; split; [done|]; split; done].
  destruct Hok as (Hs & Hau & pq & Epq & Hp & Hq). rewrite Epq. specialize (Hfit eq_refl pq Epq).
  assert (Hpath : contains "?" (pq_path pq) = false).
  { apply andb_true_iff in Hp as [_ Hp]. by eapply all_chars_without; [|exact Hp]. }
  assert (Htext : all_chars query_char ("dns=" +:+ base64_encode payload) = true).
  { rewrite all_chars_app. apply andb_true_iff. split; [done|]. eapply all_chars_weaken; [apply base64_is_query|done]. }
  rewrite Hpath, Hf by done. cbn [transport mbind result_bind].
  assert (Hok' : uri_ok (mkUri (scheme uri) (authority uri) (host uri)
    (Some (mkPathAndQuery (pq_path pq) (Some ("dns=" +:+ base64_encode payload)))))).
  { split; [done|]. split; [done|]. eexists. split; [reflexivity|]. split; [exact Hp|]. by intros q [= <-]. }
  rewrite Hu by done. cbn [transport mbind result_bind].
  rewrite Hd by first [done | apply list_elem_of_further, list_elem_of_here]. eexists. split; [done|]. split; [done|].
  unfold extract_query_bytes, extract_doh3_query_bytes, delivered.
  cbn [r_method r_query dr_method dr_uri path_and_query mbind option_bind pq_query].
  rewrite dns_parameter_encoded by (by eapply all_chars_without; [|exact Ha]). cbn [mbind option_bind]. by rewrite Hb.
Qed.

(** An answer of the server answers its query if the resolver's do. *)
Lemma answer_answers edns_max query s response s' :
  (∀ m s', resolve query s = Ret (Ok m, s') → answers_query Ignore query m) →
  answer resolve edns_max query s = Ret (response, s') → answers_query Ignore query response.
Proof.
  pose proof (same_questions_refl (questions query)) as Hq.
  intros Hres. unfold answer. destruct (early_answer query edns_max) as [r|] eqn:Ee.
  - intros [-> ->]%ret_pair_inj. unfold early_answer in Ee. destruct (edns query) as [[e|]|]; [case_decide| |]; try done;
      injection Ee as <-; by split.
  - intros H. apply run_bind_ret in H as ([r s1] & Er & H). apply ret_pair_inj in H as [<- ->].
    destruct r as [m|e]; [|by split]. destruct (Hres _ _ Er) as [H1 H2 H3]. by split.
Qed.

End client.

(** ** A concrete client *)

(** base64url without padding: four characters for three bytes. *)
Definition digit_char (d : Z) : ascii :=
  ascii_of_nat (Z.to_nat
    (if decide (d < 26) then 65 + d else if decide (d < 52) then 71 + d else if decide (d < 62) then d - 4
     else if decide (d = 62) then 45 else 95))%Z.
Definition char_digit (c : ascii) : Z :=
  let n := Z.of_nat (nat_of_ascii c) in
  (if decide (97 ≤ n) then n - 71 else if decide (n = 95) then 63 else if decide (65 ≤ n) then n - 65
   else if decide (n = 45) then 62 else n + 4)%Z.

Fixpoint url_encode (bytes : list Z) : string :=
  match bytes with
  | a :: b :: c :: bytes =>
      String (digit_char (a / 4)) (String (digit_char (a mod 4 * 16 + b / 16))
        (String (digit_char (b mod 16 * 4 + c / 64)) (String (digit_char (c mod 64)) (url_encode bytes))))
  | [a; b] =>
      String (digit_char (a / 4)) (String (digit_char (a mod 4 * 16 + b / 16)) (String (digit_char (b mod 16 * 4)) EmptyString))
  | [a] => String (digit_char (a / 4)) (String (digit_char (a mod 4 * 16)) EmptyString)
  | [] => EmptyString
  end%Z.

Fixpoint url_digits (text : list Z) : option (list Z) :=
  match text with
  | a :: b :: c :: d :: text =>
      bytes ← url_digits text; Some (a * 4 + b / 16 :: b mod 16 * 16 + c / 4 :: c mod 4 * 64 + d :: bytes)
  | [a; b; c] => Some [a * 4 + b / 16; b mod 16 * 16 + c / 4]
  | [a; b] => Some [a * 4 + b / 16]
  | [_] => None
  | [] => Some []
  end%Z.

Fixpoint chars (s : string) : list ascii := match s with EmptyString => [] | String c s => c :: chars s end.

Definition url_decode (text : string) : option (list Z) :=
  if all_chars base64_char text then url_digits (map char_digit (chars text)) else None.

Lemma digit_ok d : (0 ≤ d < 64)%Z → base64_char (digit_char d) = true ∧ char_digit (digit_char d) = d.
Proof.
  intros Hd. assert (H : forallb (λ d, base64_char (digit_char d) && bool_decide (char_digit (digit_char d) = d))
    (map Z.of_nat (seq 0 64)) = true) by (vm_compute; reflexivity).
  rewrite forallb_forall in H. specialize (H d). rewrite andb_true_iff, bool_decide_eq_true in H. apply H.
  apply in_map_iff. exists (Z.to_nat d). split; [lia|]. apply in_seq. lia.
Qed.

(** Three bytes at a time. *)
Lemma triples_ind (P : list Z → Prop) :
  P [] → (∀ a, P [a]) → (∀ a b, P [a; b]) → (∀ a b c l, P l → P (a :: b :: c :: l)) → ∀ l, P l.
Proof.
  intros H0 H1 H2 H3 l. assert (H : P l ∧ (∀ a, P (a :: l)) ∧ ∀ a b, P (a :: b :: l)); [|apply H].
  induction l as [|x l (IH1 & IH2 & IH3)]; [done|]. split; [apply IH2|]. split; [intros a; apply IH3|].
  intros a b. by apply H3.
Qed.

Ltac digits := repeat match goal with
  | |- context [digit_char ?d] =>
      let H := fresh in
      assert (0 ≤ d < 64)%Z as H by (Z.to_euclidean_division_equations; lia);
      apply digit_ok in H; destruct H; generalize dependent (digit_char d); intros
  end.

Lemma url_encode_ok bytes :
  bytes_ok bytes → all_chars base64_char (url_encode bytes) = true ∧
    url_digits (map char_digit (chars (url_encode bytes))) = Some bytes.
Proof.
  induction bytes as [|a|a b|a b c l IH] using triples_ind; unfold bytes_ok in *; rewrite ?Forall_cons; [done|..];
    cbn [url_encode].
  - intros [Ha _]. digits. cbn. split; [by rewrite !andb_true_iff|]. f_equal.
    repeat match goal with H : char_digit _ = _ |- _ => rewrite H; clear H end.
    f_equal. Z.to_euclidean_division_equations. lia.
  - intros (Ha & Hb & _). digits. cbn. split; [by rewrite !andb_true_iff|]. f_equal.
    repeat match goal with H : char_digit _ = _ |- _ => rewrite H; clear H end.
    repeat f_equal; Z.to_euclidean_division_equations; lia.
  - intros (Ha & Hb & Hc & [IH1 IH2]%IH). digits. cbn [all_chars chars map url_digits]. rewrite IH2.
    split; [by rewrite !andb_true_iff|]. cbn [mbind option_bind].
    repeat match goal with H : char_digit _ = _ |- _ => rewrite H; clear H end.
    repeat f_equal; Z.to_euclidean_division_equations; lia.
Qed.

(** A path up to the first question mark, of the RFC's characters. *)
Definition parse_path (text : string) : Result string PathAndQuery :=
  match split_once "?" text with
  | Some (p, q) =>
      if path_ok p && all_chars query_char q && bool_decide (String.length text ≤ MAX_URI_LEN)
      then Ok (mkPathAndQuery p (Some q)) else Err "invalid uri"%string
  | None => if path_ok text then Ok (mkPathAndQuery text None) else Err "invalid uri"%string
  end.

(** All the parts, or an error. *)
Definition join_parts (u : Uri) : Result string Uri :=
  match scheme u, authority u, path_and_query u with
  | Some _, Some _, Some _ => Ok u
  | _, _, _ => Err "invalid uri parts"%string
  end.

Lemma split_once_app c p t : contains (String c EmptyString) p = false → split_once c (p +:+ String c t) = Some (p, t).
Proof.
  induction p as [|a p IH].
  { change ("" +:+ String c t) with (String c t). cbn [split_once]. by destruct (decide (c = c)). }
  change (String a p +:+ String c t) with (String a (p +:+ String c t)). cbn [split_once].
  intros H. destruct (decide (a = c)) as [->|Hne].
  - cbn [contains String.prefix] in H. destruct (ascii_dec c c); [|done]. by destruct p.
  - rewrite contains_other in H by done. by rewrite IH.
Qed.

Definition example_doh_uri : Uri :=
  mkUri (Some "https"%string) (Some "dns.example"%string) (Some "dns.example"%string)
    (Some (mkPathAndQuery "/dns-query" None)).

Definition example_doh_config (method : DohMethod) : DohBackendConfig unit :=
  mkDohBackendConfig example_doh_uri method tt 1000.

Lemma example_http_laws : http_laws url_encode parse_path join_parts Ok url_decode.
Proof.
  split.
  - intros bytes [H1 H2]%url_encode_ok. unfold url_decode. by rewrite H1.
  - intros bytes Hb. by apply url_encode_ok.
  - intros p t Hp Ht Hl. unfold parse_path. change (p +:+ "?" +:+ t) with (p +:+ String "?" t) in *.
    rewrite split_once_app.
    + by rewrite Hp, Ht, bool_decide_eq_true_2.
    + apply andb_true_iff in Hp as [_ Hp]. by eapply all_chars_without; [|exact Hp].
  - intros u (Es & (h & port & _ & Ea & _) & pq & Ep & _). unfold join_parts. destruct Es as [Es|Es]; by rewrite Es, Ea, Ep.
  - done.
Qed.

Lemma example_uri_ok : uri_ok example_doh_uri.
Proof.
  split; [by right|]. split.
  { exists "dns.example", EmptyString. split; [done|]. split; [done|]. split; [|by left]. left. split; [done|vm_compute; reflexivity]. }
  eexists. split; [reflexivity|]. split; [vm_compute; reflexivity|done].
Qed.

(** A resolver that knows one answer. *)
Definition example_resolver (query : Message) (s : unit) : Run Error (Result Error Message * unit) :=
  Ret (Ok (with_id example_reply 0), s).

Definition example_served : Message :=
  match answer example_resolver 1232 example_query tt with Ret (r, _) => r | _ => example_reply end.

