(* ===== verification/Doh3.v ===== *)
(** * DNS over HTTP/3

    Models the HTTP/3 backend of [crates/dns-lattice/src/upstream/doh.rs]
    ([Doh3Backend], [Doh3Pool], [Doh3Connector]): one request on a pooled
    connection with its bounded body and its cancellation, the retry rule, and
    the query without connection reuse. The HTTP/3 library is what each of its
    futures gave; [Elapsed] is the deadline passing while it is awaited. *)

From stdpp Require Import base numbers list strings.
From S2P Require Import Prelude CoreError Time Name RecordData Header Message Transport Pool StreamQuery ErrorChain Quic Server Doh.

Definition H3_NO_ERROR : Z := 256.
Definition MAX_DNS_BODY : nat := Z.to_nat 65535.

Section config.
Context {TlsConfig : Type}.

Record Doh3BackendConfig : Type := mkDoh3Config {
  h3_uri : Uri;
  h3_server : SocketAddr;
  h3_method : DohMethod;
  h3_tls_config : TlsConfig;
  h3_timeout : Z;
}.

Record Doh3Pool : Type := mkDoh3Pool {
  hp_config : PoolConfig;
  hp_client : QuicClient;
  hp_uri : Uri;
  hp_method : DohMethod;
  hp_timeout : Z;
}.

(** With the TLS configuration whose ALPN is fixed to [h3]. *)
Record Doh3Backend : Type := mkDoh3Backend {
  h3_config : Doh3BackendConfig;
  h3_tls : TlsConfig;
  h3_pool : option Doh3Pool;
}.

Context (with_alpn_h3 : TlsConfig → TlsConfig).
Context (usable : TlsConfig → Result string unit) (idle_ok : Z → bool).

Definition doh3_with_pool (b : Doh3Backend) (pool : PoolConfig) : Doh3Backend :=
  let c := h3_config b in
  mkDoh3Backend c (h3_tls b)
    (if enabled pool
     then Some (mkDoh3Pool pool
                  (quic_client_new (h3_server c) (match host (h3_uri c) with Some h => h | None => "" end)
                     (client_config (usable (h3_tls b)) idle_ok
                        (Some (duration_add (idle_timeout pool) TRANSPORT_IDLE_MARGIN))) (h3_timeout c))
                  (h3_uri c) (h3_method c) (h3_timeout c))
     else None).

Definition doh3_new (c : Doh3BackendConfig) : Doh3Backend :=
  doh3_with_pool (mkDoh3Backend c (with_alpn_h3 (h3_tls_config c)) None) pool_config_new.
End config.

(** ** Connections *)

Record Doh3Conn : Type := mkDoh3Conn {
  h3_close_reason : option ConnectionError;
  h3_driver_finished : bool;
  h3_runtime : option nat;
  h3_answered : bool;
}.

Definition doh3_is_alive (conn : Doh3Conn) (now : option nat) : bool :=
  match h3_close_reason conn with None => true | Some _ => false end && negb (h3_driver_finished conn) &&
  same_runtime now (h3_runtime conn).

Definition doh3_peer_closed (conn : Doh3Conn) : bool := closed_by_peer (h3_close_reason conn).

(** [Doh3Connector::connect]: the QUIC connection, the protocol it negotiated,
    the HTTP/3 setup; and whether the connection is closed again. *)
Definition doh3_connect (connected : Result Error (option string)) (setup : Timed string unit) (now : option nat) :
    Result Error Doh3Conn * bool :=
  match connected with
  | Err e => (Err e, false)
  | Ok protocol =>
      if bool_decide (protocol = Some "h3"%string)
      then (_ ← timed Transport setup; Ok (mkDoh3Conn None false now false), false)
      else (Err (Tls "HTTP/3 peer did not negotiate ALPN h3"), true)
  end.

(** ** Failures *)

Inductive StreamErrorKind : Type :=
  | H3ConnectionError
  | RemoteClosing
  | OtherStreamError.

Record H3StreamError : Type := mkH3StreamError {
  se_kind : StreamErrorKind;
  se_text : string;
}.

Record Exchange : Type := mkExchange {
  ex_error : Error;
  ex_connection_level : bool;
}.

Definition exchange_local (error : Error) : Exchange := mkExchange error false.

Definition from_stream (err : H3StreamError) : Exchange :=
  mkExchange (Transport (se_text err))
    match se_kind err with H3ConnectionError | RemoteClosing => true | OtherStreamError => false end.

Record H3Failure : Type := mkH3Failure {
  hf_error : Error;
  hf_closed : bool;
  hf_answered : bool;
}.

Definition h3_local (error : Error) : H3Failure := mkH3Failure error false false.

(** [late] is [now >= deadline]. *)
Definition retry_allowed (failed : H3Failure) (is_query fresh late : bool) : bool :=
  hf_closed failed && hf_answered failed && is_query && negb fresh &&
  negb match hf_error failed with Timeout | Tls _ => true | _ => false end && negb late.

(** ** One request *)

(** The request's stream as its guard sees it: not opened yet, open (with a
    read in flight or not), or read to its end. *)
Inductive Guard : Type :=
  | NoStream
  | Open (reading : bool)
  | Done.

Inductive Signal : Type :=
  | StopStream
  | StopSending.

(** [CancelOnDrop::drop] *)
Definition guard_dropped (g : Guard) : list Signal :=
  match g with
  | Open reading => StopStream :: (if reading then [] else [StopSending])
  | NoStream | Done => []
  end.

Inductive Stopped : Type :=
  | Late
  | Failed (e : Exchange).

Record Stop : Type := mkStop {
  st_why : Stopped;
  st_guard : Guard;
}.

(** An awaited future of the library: the guard when the deadline passes during
    it, and when it fails. *)
Definition await {A} (late failed : Guard) (t : Timed H3StreamError A) : Run Stop A :=
  match t with
  | Elapsed => Throw (mkStop Late late)
  | Completed (Err e) => Throw (mkStop (Failed (from_stream e)) failed)
  | Completed (Ok a) => Ret a
  end.

(** The response: its status, the chunks of its body, and how the body ends. *)
Record H3Stream : Type := mkH3Stream {
  h_send_request : Timed H3StreamError unit;
  h_send_data : Timed H3StreamError unit;
  h_finish : Timed H3StreamError unit;
  h_response : Timed H3StreamError Z;
  h_chunks : list (list Z);
  h_end : Timed H3StreamError unit;
}.

Definition BODY_TOO_LARGE : Error := Transport "doh HTTP/3 response body is larger than a DNS message".

(** The loop over [recv_data]; [data] is what was kept so far. *)
Fixpoint recv_body (chunks : list (list Z)) (ends : Timed H3StreamError unit) (data : list Z) : Run Stop (list Z) :=
  match chunks with
  | [] => _ ← await (Open true) (Open false) ends; Ret data
  | chunk :: chunks =>
      if decide (MAX_DNS_BODY < length data + length chunk)
      then Throw (mkStop (Failed (exchange_local BODY_TOO_LARGE)) (Open false))
      else recv_body chunks ends (data ++ chunk)
  end.

Definition decoded (query : Message) (data : list Z) : Run Stop Message :=
  match decode_validated query data with
  | Ret m => Ret m
  | Throw e => Throw (mkStop (Failed (exchange_local e)) Done)
  | Panic => Panic
  | Hang => Hang
  end.

Section exchange.
Context (status_text : Z → string).

Definition status_error (status : Z) : Error := Transport ("doh HTTP/3 server returned http status " +:+ status_text status).

Definition h3_exchange (h : H3Stream) (body : list Z) (query : Message) : Run Stop Message :=
  _ ← await NoStream NoStream (h_send_request h);
  _ ← (if decide (body = []) then Ret tt else await (Open false) (Open false) (h_send_data h));
  _ ← await (Open false) (Open false) (h_finish h);
  status ← await (Open true) (Open false) (h_response h);
  if negb (is_success status) then Throw (mkStop (Failed (exchange_local (status_error status))) (Open false))
  else
    data ← recv_body (h_chunks h) (h_end h) [];
    decoded query data.

(** ** An attempt and the query *)

(** What an attempt meets, and the connection when a failure is reported. *)
Record H3Attempt : Type := mkH3Attempt {
  ha_lease : Result Error unit;
  ha_stream : H3Stream;
  ha_conn : Doh3Conn;
}.

(** What it told its lease, and the library about its stream. *)
Record H3Notes : Type := mkH3Notes {
  hn_lease : list LeaseNote;
  hn_signals : list Signal;
}.

Definition h3_failed (a : H3Attempt) (e : Exchange) : H3Failure * list LeaseNote :=
  let closed := ex_connection_level e || match h3_close_reason (ha_conn a) with Some _ => true | None => false end in
  (mkH3Failure (ex_error e) closed (h3_answered (ha_conn a)), if closed then [MarkDead] else []).

(** [built] is the request built for the query. *)
Definition h3_attempt (a : H3Attempt) (built : Result Error DohRequest) (query : Message) :
    Run Error (Result H3Failure Message * H3Notes) :=
  match built with
  | Err e => Ret (Err (h3_local e), mkH3Notes [] [])
  | Ok req =>
      match ha_lease a with
      | Err e => Ret (Err (h3_local e), mkH3Notes [] [])
      | Ok _ =>
          match h3_exchange (ha_stream a) (dr_body req) query with
          | Throw (mkStop Late guard) => Ret (Err (h3_local Timeout), mkH3Notes [NoteTimeout] (guard_dropped guard))
          | Throw (mkStop (Failed e) guard) =>
              let '(failed, notes) := h3_failed a e in
              Ret (Err failed, mkH3Notes notes (guard_dropped guard))
          | Ret answer => Ret (Ok answer, mkH3Notes [Complete] (guard_dropped Done))
          | Panic => Panic
          | Hang => Hang
          end
      end
  end.

Definition is_query (query : Message) : bool := match opcode (header query) with Query => true | _ => false end.

(** [Doh3Pool::query]: the request is built again for every attempt. *)
Definition h3_query (world : bool → H3Attempt) (late : bool) (built : Result Error DohRequest) (query : Message) :
    Run Error (Result Error Message * list (bool * H3Notes)) :=
  retry_loop (λ fresh, h3_attempt (world fresh) built query)
    (λ fresh failed, retry_allowed failed (is_query query) fresh late) hf_error RETRY_FUEL false [].

(** ** Without reuse *)

(** The futures of [resolve_unpooled] up to the request; each has the whole
    timeout to itself. *)
Record H3Connecting : Type := mkH3Connecting {
  hc_tls : Result string unit;
  hc_bind : Result string unit;
  hc_dial : Result string (Timed ConnectionError (option string));
  hc_setup : Timed string unit;
}.

Definition h3_connected (hc : H3Connecting) : Result Error unit :=
  _ ← match hc_tls hc with Err text => Err (Tls text) | Ok u => Ok u end;
  _ ← transport (hc_bind hc);
  connecting ← transport (hc_dial hc);
  protocol ← timed map_quinn_connection_error connecting;
  if bool_decide (protocol = Some "h3"%string) then timed Transport (hc_setup hc)
  else Err (Tls "HTTP/3 peer did not negotiate ALPN h3").

Definition stream_step {A} (t : Timed H3StreamError A) : Run Error A := lift (timed (λ e, Transport (se_text e)) t).

(** The body is collected whole, whatever its length. *)
Definition doh3_resolve_unpooled (host : option string) (hc : H3Connecting) (h : H3Stream) (built : Result Error DohRequest)
    (query : Message) : Run Error Message :=
  match host with
  | None => Throw (Transport "DoH HTTP/3 URI has no host")
  | Some _ =>
      _ ← lift (h3_connected hc);
      req ← lift built;
      _ ← stream_step (h_send_request h);
      _ ← (if decide (dr_body req = []) then Ret tt else stream_step (h_send_data h));
      _ ← stream_step (h_finish h);
      status ← stream_step (h_response h);
      if negb (is_success status) then Throw (status_error status)
      else
        _ ← stream_step (h_end h);
        decode_validated query (concat (h_chunks h))
  end.

Definition doh3_resolve {TlsConfig} (b : Doh3Backend (TlsConfig:=TlsConfig)) (world : bool → H3Attempt) (late : bool)
    (hc : H3Connecting) (h : H3Stream) (built : Result Error DohRequest) (query : Message) : Run Error Message :=
  match host (h3_uri (h3_config b)) with
  | None => Throw (Transport "DoH HTTP/3 URI has no host")
  | Some name =>
      match h3_pool b with
      | Some _ => '(r, _) ← h3_query world late built query; lift r
      | None => doh3_resolve_unpooled (Some name) hc h built query
      end
  end.
(** ** What a request gives *)

Lemma recv_body_ret chunks ends data d :
  recv_body chunks ends data = Ret d →
  d = data ++ concat chunks ∧ (length data ≤ MAX_DNS_BODY → length d ≤ MAX_DNS_BODY) ∧ ends = Completed (Ok tt).
Proof.
  revert data. induction chunks as [|c cs IH]; intros data; cbn [recv_body concat].
  - intros H. apply run_bind_ret in H as ([] & He & H). injection H as <-. rewrite app_nil_r.
    split; [done|]. split; [done|]. by destruct ends as [|[[]|]].
  - case_decide as Hl; [done|]. intros (-> & Hd & He)%IH. split; [by rewrite app_assoc|]. split; [|done].
    intros _. apply Hd. rewrite length_app. lia.
Qed.

(** A body is refused as soon as it is longer than any DNS message, whatever
    follows. *)
Lemma recv_body_large chunks ends data :
  length data ≤ MAX_DNS_BODY → MAX_DNS_BODY < length (data ++ concat chunks) →
  recv_body chunks ends data = Throw (mkStop (Failed (exchange_local BODY_TOO_LARGE)) (Open false)).
Proof.
  revert data. induction chunks as [|c cs IH]; intros data Hd; cbn [recv_body concat].
  - rewrite app_nil_r. lia.
  - intros Hl. case_decide; [done|]. apply IH; [rewrite length_app; lia|]. by rewrite <-app_assoc.
Qed.

Lemma recv_body_outcome chunks ends data : recv_body chunks ends data ≠ Panic ∧ recv_body chunks ends data ≠ Hang.
Proof.
  revert data. induction chunks as [|c cs IH]; intros data; cbn [recv_body]; [by destruct ends as [|[]]|].
  by case_decide.
Qed.

Lemma await_outcome {A B} (g1 g2 : Guard) (t : Timed H3StreamError A) (f : A → Run Stop B) :
  (∃ st, (a ← await g1 g2 t; f a) = Throw st) ∨ ∃ a, t = Completed (Ok a) ∧ (a ← await g1 g2 t; f a) = f a.
Proof. destruct t as [|[a|e]]; cbn; eauto. Qed.

Lemma h3_exchange_outcome h body query :
  h3_exchange h body query ≠ Panic ∧ (h3_exchange h body query = Hang → decode (concat (h_chunks h)) = Hang).
Proof.
  unfold h3_exchange.
  destruct (await_outcome NoStream NoStream (h_send_request h) (λ _, _ ← (if decide (body = []) then Ret tt else await (Open false) (Open false) (h_send_data h));
    _ ← await (Open false) (Open false) (h_finish h); status ← await (Open true) (Open false) (h_response h);
    if negb (is_success status) then Throw (mkStop (Failed (exchange_local (status_error status))) (Open false))
    else data ← recv_body (h_chunks h) (h_end h) []; decoded query data)) as [(st & ->)|([] & _ & ->)]; [done|].
  destruct (if decide (body = []) then _ else _) as [[]|st| |] eqn:Eb; try done;
    [|by case_decide; [|destruct (h_send_data h) as [|[]]]..].
  cbn [mbind run_bind]. destruct (h_finish h) as [|[[]|]]; try done. cbn [await mbind run_bind].
  destruct (h_response h) as [|[status|]]; try done. cbn [await mbind run_bind]. destruct (is_success status); [|done].
  cbn [negb]. destruct (recv_body_outcome (h_chunks h) (h_end h) []) as [Hp Hh].
  destruct (recv_body _ _ _) as [data|st| |] eqn:Er; try done. cbn [mbind run_bind]. apply recv_body_ret in Er as [-> _].
  unfold decoded. destruct (decode_validated_outcome query ([] ++ concat (h_chunks h))) as [Hp' Hh'].
  destruct (decode_validated query _) as [m|e| |]; try done. eauto.
Qed.

Lemma h3_exchange_ret h body query m :
  h3_exchange h body query = Ret m →
  answers_query Match query m ∧ length (concat (h_chunks h)) ≤ MAX_DNS_BODY ∧
  (∃ status, h_response h = Completed (Ok status) ∧ is_success status = true) ∧
  decode_validated query (concat (h_chunks h)) = Ret m.
Proof.
  unfold h3_exchange. intros H. apply run_bind_ret in H as ([] & _ & H). apply run_bind_ret in H as ([] & _ & H).
  apply run_bind_ret in H as ([] & _ & H). apply run_bind_ret in H as (status & Hst & H).
  destruct (is_success status) eqn:Es; [|done]. cbn [negb] in H. apply run_bind_ret in H as (data & Hd & H).
  apply recv_body_ret in Hd as (-> & Hl & _). cbn [app] in *. unfold decoded in H.
  destruct (decode_validated query (concat (h_chunks h))) as [m'|e| |] eqn:Ed; try done. injection H as ->.
  split; [by eapply decode_validated_answers|]. split; [apply Hl; cbn; lia|]. split; [|done].
  exists status. split; [|done]. destruct (h_response h) as [|[]]; try done. by injection Hst as ->.
Qed.

(** The failures of an attempt after which the query is sent again. *)
Record h3_may_retry (a : H3Attempt) (built : Result Error DohRequest) (query : Message) : Prop := {
  hr_lease : ha_lease a = Ok tt;
  hr_answered : h3_answered (ha_conn a) = true;
  hr_opcode : opcode (header query) = Query;
  hr_failure : ∃ req e guard, built = Ok req ∧
    h3_exchange (ha_stream a) (dr_body req) query = Throw (mkStop (Failed e) guard) ∧
    match ex_error e with Timeout | Tls _ => False | _ => True end ∧
    (ex_connection_level e = true ∨ h3_close_reason (ha_conn a) ≠ None);
}.

(** The body on the attempt's stream makes the decoder loop. *)
Definition body_loops (a : H3Attempt) : Prop := decode (concat (h_chunks (ha_stream a))) = Hang.

Lemma h3_attempt_outcome a built query :
  (∃ r n, h3_attempt a built query = Ret (r, n)) ∨ (h3_attempt a built query = Hang ∧ body_loops a).
Proof.
  unfold h3_attempt. destruct built as [req|e]; [|by eauto]. destruct (ha_lease a); [|by eauto].
  destruct (h3_exchange_outcome (ha_stream a) (dr_body req) query) as [Hp Hh].
  destruct (h3_exchange _ _ _) as [m|[[|e] g]| |]; [by eauto|by eauto|by eauto|done|].
  right. split; [done|]. by apply Hh.
Qed.

Lemma is_query_spec query : is_query query = true ↔ opcode (header query) = Query.
Proof. unfold is_query. by destruct (opcode (header query)). Qed.

Lemma h3_failed_retry a e query late :
  retry_allowed (h3_failed a e).1 (is_query query) false late = true ↔
  (ex_connection_level e = true ∨ h3_close_reason (ha_conn a) ≠ None) ∧ h3_answered (ha_conn a) = true ∧
  opcode (header query) = Query ∧ match ex_error e with Timeout | Tls _ => False | _ => True end ∧ late = false.
Proof.
  unfold retry_allowed, h3_failed. cbn [fst hf_closed hf_answered hf_error]. rewrite !andb_true_iff, orb_true_iff, is_query_spec.
  destruct (h3_close_reason (ha_conn a)), (ex_error e), late; naive_solver.
Qed.

Lemma h3_attempt_spec a built query late r n :
  h3_attempt a built query = Ret (r, n) →
  ((∃ f, r = Err f ∧ retry_allowed f (is_query query) false late = true) ↔ h3_may_retry a built query ∧ late = false) ∧
  (∀ m, r = Ok m → answers_query Match query m ∧ hn_signals n = [] ∧
     length (concat (h_chunks (ha_stream a))) ≤ MAX_DNS_BODY ∧ decode_validated query (concat (h_chunks (ha_stream a))) = Ret m).
Proof.
  assert (Hloc : ∀ e, retry_allowed (h3_local e) (is_query query) false late = false) by done.
  unfold h3_attempt. destruct built as [req|e]; intros H.
  2:{ apply ret_pair_inj in H as [<- <-]. split; [|done]. split; [intros (f & [= <-] & Hf); by rewrite Hloc in Hf|].
      intros [[_ _ _ (? & ? & ? & ? & _)] _]. done. }
  destruct (ha_lease a) as [[]|e] eqn:El.
  2:{ apply ret_pair_inj in H as [<- <-]. split; [|done]. split; [intros (f & [= <-] & Hf); by rewrite Hloc in Hf|].
      intros [[? _ _ _] _]. congruence. }
  destruct (h3_exchange (ha_stream a) (dr_body req) query) as [m|[[|e] g]| |] eqn:Ex; [..|done|done];
    apply ret_pair_inj in H as [<- <-].
  - split; [split; [naive_solver|]; intros [[_ _ _ (? & ? & ? & [= <-] & ? & _)] _]; congruence|].
    intros ? [= <-]. apply h3_exchange_ret in Ex as (? & ? & _ & ?). done.
  - split; [|done]. split; [intros (f & [= <-] & Hf); by rewrite Hloc in Hf|].
    intros [[_ _ _ (? & ? & ? & [= <-] & ? & _)] _]. congruence.
  - split; [|done]. transitivity (retry_allowed (h3_failed a e).1 (is_query query) false late = true).
    { split; [intros (f & [= <-] & Hf); exact Hf|]. intros Hf. eexists. split; [reflexivity|exact Hf]. }
    rewrite h3_failed_retry. split.
    + intros (H1 & H2 & H3 & H4 & H5). split; [|done]. split; [done..|]. by exists req, e, g.
    + intros [[_ H2 H3 (req' & e' & g' & [= <-] & H5 & H6 & H7)] H8]. rewrite Ex in H5. injection H5 as <- _. done.
Qed.

Lemma h3_query_run world late built query r log :
  h3_query world late built query = Ret (r, log) →
  (log.*1 = [false] ∨ log.*1 = [false; true]) ∧
  (log.*1 = [false; true] ↔ h3_may_retry (world false) built query ∧ late = false) ∧
  (∀ m, r = Ok m → answers_query Match query m ∧
     ∃ fresh n, last log = Some (fresh, n) ∧ hn_signals n = [] ∧
       let body := concat (h_chunks (ha_stream (world fresh))) in
       length body ≤ MAX_DNS_BODY ∧ decode_validated query body = Ret m).
Proof.
  intros H. unfold h3_query in H.
  assert (Hno : ∀ failed, retry_allowed failed (is_query query) true late = false).
  { intros f. unfold retry_allowed. cbn [negb]. by rewrite andb_false_r. }
  apply retry_loop_ret in H as (r1 & n1 & H1 & H); [|exact Hno].
  destruct (h3_attempt_spec _ _ _ late _ _ H1) as (Hr1 & Hm1).
  set (again := λ fresh failed, retry_allowed failed (is_query query) fresh late) in *.
  assert (Hsec : second again r1 = true ↔ h3_may_retry (world false) built query ∧ late = false).
  { rewrite <-Hr1. unfold second, again. destruct r1 as [m|f]; naive_solver. }
  destruct (second again r1).
  - destruct H as (r2 & n2 & H2 & -> & ->). destruct (h3_attempt_spec _ _ _ late _ _ H2) as (_ & Hm2).
    cbn. split; [by right|]. split; [tauto|]. intros m Hm. destruct r2 as [m2|f2]; [|done]. injection Hm as <-.
    destruct (Hm2 _ eq_refl) as (Ha & Hs & Hl & Hd). split; [done|]. by exists true, n2.
  - destruct H as [-> ->]. cbn. split; [by left|]. split; [split; [done|]; intros ?%Hsec; done|].
    intros m Hm. destruct r1 as [m1|f1]; [|done]. injection Hm as <-.
    destruct (Hm1 _ eq_refl) as (Ha & Hs & Hl & Hd). split; [done|]. by exists false, n1.
Qed.

(** The failures after which the documentation has a query sent again: on a
    connection that had answered, a request fails because the connection was
    closed or is taking no more requests ([GOAWAY]), not by a failure of the
    transport or of TLS. *)
Record h3_lost (a : H3Attempt) (built : Result Error DohRequest) (query : Message) : Prop := {
  hl_lease : ha_lease a = Ok tt;
  hl_answered : h3_answered (ha_conn a) = true;
  hl_opcode : opcode (header query) = Query;
  hl_closed err : h3_close_reason (ha_conn a) = Some err → no_transport_error err;
  hl_failure : ∃ req e guard, built = Ok req ∧
    h3_exchange (ha_stream a) (dr_body req) query = Throw (mkStop (Failed (from_stream e)) guard) ∧
    match se_kind e with H3ConnectionError | RemoteClosing => True | OtherStreamError => False end;
}.

Lemma h3_lost_retried a built query : h3_lost a built query → h3_may_retry a built query.
Proof.
  intros [H1 H2 H3 _ (req & e & guard & H4 & H5 & H6)]. split; [done..|]. exists req, (from_stream e), guard.
  split; [done|]. split; [done|]. split; [done|]. left. cbn. by destruct (se_kind e).
Qed.

(** C37: A pooled HTTP/3 query returns after at most two attempts, unless the body
    that one of them received makes the decoder loop. A second attempt is on a
    fresh connection, and is made only if the first failed, other than for time or
    TLS, on a connection that had answered before and was closed or taking no
    more requests, the opcode is [Query] and the deadline has not passed; and it
    is made when, as the documentation has it, the request failed because the
    connection that had answered was closed or sent [GOAWAY]. (After a status that
    is no success or a mismatching answer, on a connection that was closed by
    then, the documentation has it not made and the code makes it,
    [doh3_retries_status]; this theorem claims neither.) An answer that is
    returned answers the query under the caller's id; it is the whole body of the
    response, which is never longer than a DNS message, and its request is not
    cancelled. *)
Theorem doh3_query_bounded world late built query :
  ((∃ r log, h3_query world late built query = Ret (r, log)) ∨ ∃ fresh, body_loops (world fresh)) ∧
  ∀ r log, h3_query world late built query = Ret (r, log) →
    (log.*1 = [false] ∨ log.*1 = [false; true]) ∧
    (log.*1 = [false; true] → h3_may_retry (world false) built query ∧ late = false) ∧
    (h3_lost (world false) built query → late = false → log.*1 = [false; true]) ∧
    (∀ m, r = Ok m → answers_query Match query m ∧
       ∃ fresh n, last log = Some (fresh, n) ∧ hn_signals n = [] ∧
         let body := concat (h_chunks (ha_stream (world fresh))) in
         length body ≤ MAX_DNS_BODY ∧ decode_validated query body = Ret m).
Proof.
  split.
  - destruct (h3_attempt_outcome (world false) built query) as [H0|[_ H]]; [|by right; exists false].
    destruct (h3_attempt_outcome (world true) built query) as [H1|[_ H]]; [|by right; exists true].
    left. apply retry_loop_outcome; [|by intros []]. intros f. unfold retry_allowed. cbn [negb]. by rewrite andb_false_r.
  - intros r log H. destruct (h3_query_run _ _ _ _ _ _ H) as (H1 & H2 & H3). split; [done|].
    split; [by apply H2|]. split; [|done]. intros Hlost Hlate. apply H2. split; [by apply h3_lost_retried|done].
Qed.

(** Whatever path a query takes, what the backend returns answers it under the
    caller's id. *)
Lemma doh3_resolve_answers {TlsConfig} (b : Doh3Backend (TlsConfig:=TlsConfig)) world late hc h built query m :
  doh3_resolve b world late hc h built query = Ret m → answers_query Match query m.
Proof.
  unfold doh3_resolve. destruct (host _) as [name|]; [|done]. destruct (h3_pool b); intros H.
  - apply run_bind_ret in H as ([r log] & E & H). apply h3_query_run in E as (_ & _ & Hm).
    destruct r as [m'|]; [|done]. injection H as ->. by apply Hm.
  - unfold doh3_resolve_unpooled in H. repeat (apply run_bind_ret in H as (? & _ & H)).
    destruct (is_success _); [|done]. cbn [negb] in H. apply run_bind_ret in H as (? & _ & H).
    by eapply decode_validated_answers.
Qed.
End exchange.

(** ** A closed connection and a refused query *)

Definition ok_stream (status : Z) (m : Message) : H3Stream :=
  mkH3Stream (Completed (Ok tt)) (Completed (Ok tt)) (Completed (Ok tt)) (Completed (Ok status)) [encoded m] (Completed (Ok tt)).

Definition refused_world (fresh : bool) : H3Attempt :=
  if fresh then mkH3Attempt (Ok tt) (ok_stream 200 example_reply) (mkDoh3Conn None false None false)
  else mkH3Attempt (Ok tt) (ok_stream 500 example_reply)
         (mkDoh3Conn (Some (mkConnectionError ApplicationClosed "closed by peer: 256")) false None true).

Definition example_post : Result Error DohRequest :=
  Ok (mkDohRequest POST example_doh_uri [] (encoded example_query)).

(** The query is sent again after a status that is no success. *)
Lemma doh3_retries_status : h3_may_retry (λ _, EmptyString) (refused_world false) example_post example_query.
Proof. split; try done. eexists _, _, _. split; [reflexivity|]. split; [vm_compute; reflexivity|]. split; [exact I|by right]. Qed.

(** A connection that sent [GOAWAY]. *)
Definition goaway_world (fresh : bool) : H3Attempt :=
  if fresh then mkH3Attempt (Ok tt) (ok_stream 200 example_reply) (mkDoh3Conn None false None false)
  else mkH3Attempt (Ok tt)
         (mkH3Stream (Completed (Err (mkH3StreamError RemoteClosing "Remote is closing the connection"))) Elapsed Elapsed Elapsed [] Elapsed)
         (mkDoh3Conn None false None true).

Lemma example_goaway : h3_lost (λ _, EmptyString) (goaway_world false) example_post example_query.
Proof. split; [done..|]. eexists _, _, _. split; [reflexivity|]. split; [reflexivity|done]. Qed.

Lemma doh3_query_bounded_witness :
  ∃ log, h3_query (λ _, EmptyString) goaway_world false example_post example_query = Ret (Ok example_reply, log) ∧
    log.*1 = [false; true].
Proof.
  assert (H : ∃ log, h3_query (λ _, EmptyString) goaway_world false example_post example_query = Ret (Ok example_reply, log)).
  { eexists. vm_compute. reflexivity. }
  destruct H as (log & E). exists log. split; [exact E|].
  destruct (proj2 (doh3_query_bounded (λ _, EmptyString) goaway_world false example_post example_query) _ _ E)
    as (_ & _ & Hl & _).
  exact (Hl example_goaway eq_refl).
Defined.
