(* ===== verification/DohGate.v ===== *)
(** * Admission, generations and the cold start of DNS over HTTPS

    Models the state the calls of a pooled [DohBackend] share
    ([crates/dns-lattice/src/upstream/doh.rs]): the permits and counters
    ([DohPool], [DohCounters], [Admission]), the client generations with their
    gate ([GenState], [DohPool::generation]) and the connections that count
    themselves ([CountedIo]). Calls are numbered; an access to the atomics or a
    lock section is a step, except that an admission takes or gives its permit and
    counts itself in one. A call's guard on the gate moves with its phase. *)

From stdpp Require Import base numbers list gmap.
From S2P Require Import Prelude CoreError Time Pool.

(** ** Counters *)

Record DohCounters : Type := mkDohCounters {
  d_open : Z;
  d_opened : Z;
  d_closed_lifetime : Z;
  d_in_flight : Z;
  d_queries : Z;
  d_reused_queries : Z;
  d_retries : Z;
  d_queued : Z;
}.

Definition doh_no_counts : DohCounters := mkDohCounters 0 0 0 0 0 0 0 0.

Definition doh_count_opened (n : DohCounters) : DohCounters :=
  mkDohCounters (bump (d_open n)) (bump (d_opened n)) (d_closed_lifetime n) (d_in_flight n) (d_queries n)
    (d_reused_queries n) (d_retries n) (d_queued n).

Definition doh_count_closed (n : DohCounters) (lifetime : bool) : DohCounters :=
  mkDohCounters (drop_one (d_open n)) (d_opened n) (if lifetime then bump (d_closed_lifetime n) else d_closed_lifetime n)
    (d_in_flight n) (d_queries n) (d_reused_queries n) (d_retries n) (d_queued n).

Definition doh_count_admitted (n : DohCounters) : DohCounters :=
  mkDohCounters (d_open n) (d_opened n) (d_closed_lifetime n) (bump (d_in_flight n)) (bump (d_queries n))
    (d_reused_queries n) (d_retries n) (d_queued n).

(** [Admission::drop] *)
Definition doh_count_released (n : DohCounters) : DohCounters :=
  mkDohCounters (d_open n) (d_opened n) (d_closed_lifetime n) (drop_one (d_in_flight n)) (d_queries n)
    (d_reused_queries n) (d_retries n) (d_queued n).

Definition doh_count_reused (n : DohCounters) (reused : bool) : DohCounters :=
  mkDohCounters (d_open n) (d_opened n) (d_closed_lifetime n) (d_in_flight n) (d_queries n)
    (if reused then bump (d_reused_queries n) else d_reused_queries n) (d_retries n) (d_queued n).

Definition doh_count_retry (n : DohCounters) : DohCounters :=
  mkDohCounters (d_open n) (d_opened n) (d_closed_lifetime n) (d_in_flight n) (d_queries n) (d_reused_queries n)
    (bump (d_retries n)) (d_queued n).

Definition doh_count_queued (n : DohCounters) : DohCounters :=
  mkDohCounters (d_open n) (d_opened n) (d_closed_lifetime n) (d_in_flight n) (d_queries n) (d_reused_queries n)
    (d_retries n) (bump (d_queued n)).

(** What [pool_stats] reports, of any pool. *)
Record PoolStats : Type := mkPoolStats {
  connections_open : Z;
  connections_opened : Z;
  closed_idle : Z;
  closed_lifetime : Z;
  closed_error : Z;
  in_flight_queries : Z;
  queries : Z;
  reused_queries : Z;
  retries : Z;
  queued_queries : Z;
  unsolicited : Z;
}.

Definition doh_snapshot (n : DohCounters) : PoolStats :=
  mkPoolStats (d_open n) (d_opened n) 0 (d_closed_lifetime n) 0 (d_in_flight n) (d_queries n) (d_reused_queries n)
    (d_retries n) (d_queued n) 0.

(** ** Generations and calls *)

(** [gate] is the call that holds the lock; [had_connection], whether the
    generation ever had one, is for the statements only. *)
Record Gen : Type := mkGen {
  retired : bool;
  shutdown : bool;
  g_open : Z;
  http1 : bool;
  gate : option nat;
  had_connection : bool;
}.

Definition gen_new : Gen := mkGen false false 0 false None false.

Definition has_connection (g : Gen) : bool := bool_decide (0 < g_open g)%Z.

Definition set_gate (holder : option nat) (g : Gen) : Gen :=
  mkGen (retired g) (shutdown g) (g_open g) (http1 g) holder (had_connection g).
Definition retire_gen (g : Gen) : Gen := mkGen true (shutdown g) (g_open g) (http1 g) (gate g) (had_connection g).
Definition shut_down (g : Gen) : Gen := mkGen (retired g) true (g_open g) (http1 g) (gate g) (had_connection g).

(** [CountedIo::new] and [drop] on the generation *)
Definition gen_opened (h2 : bool) (g : Gen) : Gen :=
  mkGen (retired g) (shutdown g) (bump (g_open g)) (http1 g || negb h2) (gate g) true.
Definition gen_closed (g : Gen) : Gen :=
  mkGen (retired g) (shutdown g) (drop_one (g_open g)) (http1 g) (gate g) (had_connection g).

(** Where an admitted call is: it has no generation yet, it took one, it waits
    for the gate, it holds the gate and has not looked again, it runs its
    request (with the gate or without), it reads the body. *)
Inductive Phase : Type :=
  | Started
  | Chosen (g : nat)
  | AtGate (g : nat)
  | Locked (g : nat)
  | Sending (g : nat) (guard : bool)
  | Reading (g : nat).

(** The generation whose gate a call in this phase holds. *)
Definition holds (p : Phase) : option nat :=
  match p with Locked g | Sending g true => Some g | _ => None end.

(** A connection: its generation and its token. *)
Notation CountedIo := (nat * bool)%type.

Record DohState : Type := mkDohState {
  d_counters : DohCounters;
  d_permits : nat;
  d_waiting : nat;
  d_current : nat;
  d_since : Z;
  d_gens : list Gen;
  d_calls : gmap nat Phase;
  d_conns : list CountedIo;
}.

(** [DohPool::new] *)
Definition doh_pool_new (c : PoolConfig) (now : Z) : DohState :=
  mkDohState doh_no_counts (capacity c) 0 0 now [gen_new] ∅ [].

(** [DohPool::generation]: the generation a query uses. [now] and [later] are
    the two reads of the clock. *)
Definition generation (c : PoolConfig) (now later : Z) (s : DohState) : nat * DohState :=
  let expired :=
    match max_lifetime c with
    | Some max => bool_decide (max ≤ saturating_duration_since now (d_since s))%Z
    | None => false
    end in
  if expired then
    let fresh := length (d_gens s) in
    (fresh, mkDohState (d_counters s) (d_permits s) (d_waiting s) fresh later
              (alter retire_gen (d_current s) (d_gens s) ++ [gen_new]) (d_calls s) (d_conns s))
  else (d_current s, s).

(** A call's phase changes, and its guard with it. *)
Definition move_guard (c : nat) (old new : option Phase) (gs : list Gen) : list Gen :=
  let gs := match old ≫= holds with Some g => alter (set_gate None) g gs | None => gs end in
  match new ≫= holds with Some g => alter (set_gate (Some c)) g gs | None => gs end.

Definition set_phase (s : DohState) (c : nat) (p : option Phase) : DohState :=
  mkDohState (d_counters s) (d_permits s) (d_waiting s) (d_current s) (d_since s)
    (move_guard c (d_calls s !! c) p (d_gens s)) (partial_alter (λ _, p) c (d_calls s)) (d_conns s).

Definition set_admission (s : DohState) (n : DohCounters) (permits waiting : nat) : DohState :=
  mkDohState n permits waiting (d_current s) (d_since s) (d_gens s) (d_calls s) (d_conns s).

Definition set_conns (s : DohState) (n : DohCounters) (gs : list Gen) (conns : list CountedIo) : DohState :=
  mkDohState n (d_permits s) (d_waiting s) (d_current s) (d_since s) gs (d_calls s) conns.

(** ** Steps *)

Inductive doh_step (cfg : PoolConfig) : DohState → DohState → Prop :=
  (* [admit]: a permit at once, or the queue and then a permit or the deadline *)
  | ds_admit s c k :
      d_calls s !! c = None → d_permits s = S k →
      doh_step cfg s (set_phase (set_admission s (doh_count_admitted (d_counters s)) k (d_waiting s)) c (Some Started))
  | ds_queue s :
      d_permits s = 0 → doh_step cfg s (set_admission s (doh_count_queued (d_counters s)) 0 (S (d_waiting s)))
  | ds_grant s c k w :
      d_calls s !! c = None → d_permits s = S k → d_waiting s = S w →
      doh_step cfg s (set_phase (set_admission s (doh_count_admitted (d_counters s)) k w) c (Some Started))
  | ds_give_up s w :
      d_waiting s = S w → doh_step cfg s (set_admission s (d_counters s) (d_permits s) w)
  (* [resolve] takes a generation, [send] looks for a connection *)
  | ds_choose s c now later :
      d_calls s !! c = Some Started →
      doh_step cfg s (let '(g, s) := generation cfg now later s in set_phase s c (Some (Chosen g)))
  | ds_look s c g G :
      d_calls s !! c = Some (Chosen g) → d_gens s !! g = Some G →
      doh_step cfg s (set_phase s c (Some (if has_connection G then Sending g false else AtGate g)))
  | ds_lock s c g G :
      d_calls s !! c = Some (AtGate g) → d_gens s !! g = Some G → gate G = None →
      doh_step cfg s (set_phase s c (Some (Locked g)))
  | ds_look_again s c g G :
      d_calls s !! c = Some (Locked g) → d_gens s !! g = Some G →
      doh_step cfg s (set_phase s c (Some (Sending g (negb (has_connection G)))))
  | ds_http1 s c g G :
      d_calls s !! c = Some (Sending g true) → d_gens s !! g = Some G → http1 G = true →
      doh_step cfg s (set_phase s c (Some (Sending g false)))
  (* the response, over a connection that is open or was closed since *)
  | ds_response s c g guard l1 a l2 :
      d_calls s !! c = Some (Sending g guard) → d_conns s = l1 ++ (g, a) :: l2 →
      doh_step cfg s (set_phase (set_conns s (doh_count_reused (d_counters s) a) (d_gens s) (l1 ++ (g, true) :: l2)) c
                        (Some (Reading g)))
  | ds_response_gone s c g guard a :
      d_calls s !! c = Some (Sending g guard) →
      doh_step cfg s (set_phase (set_conns s (doh_count_reused (d_counters s) a) (d_gens s) (d_conns s)) c (Some (Reading g)))
  | ds_retry s c p :
      d_calls s !! c = Some p →
      doh_step cfg s (set_phase (set_admission s (doh_count_retry (d_counters s)) (d_permits s) (d_waiting s)) c (Some Started))
  (* the call returns, fails or is dropped, wherever it is *)
  | ds_end s c p :
      d_calls s !! c = Some p →
      doh_step cfg s (set_phase (set_admission s (doh_count_released (d_counters s)) (S (d_permits s)) (d_waiting s)) c None)
  (* connections of a client, and the end of the backend *)
  | ds_open s g h2 :
      g < length (d_gens s) → (Z.of_nat (S (length (d_conns s))) < 2 ^ 64)%Z →
      doh_step cfg s (set_conns s (doh_count_opened (d_counters s)) (alter (gen_opened h2) g (d_gens s)) ((g, false) :: d_conns s))
  | ds_close s g G l1 a l2 :
      d_conns s = l1 ++ (g, a) :: l2 → d_gens s !! g = Some G →
      doh_step cfg s (set_conns s (doh_count_closed (d_counters s) (retired G)) (alter gen_closed g (d_gens s)) (l1 ++ l2))
  | ds_shutdown s :
      doh_step cfg s (set_conns s (d_counters s) (alter shut_down (d_current s) (d_gens s)) (d_conns s)).

(** ** The invariant *)

(** The connections of a generation. *)
Definition conns_of (g : nat) (conns : list CountedIo) : nat := length (filter (λ x, x.1 = g) conns).

(** The generation of a call, when it has one. *)
Definition phase_gen (p : Phase) : option nat :=
  match p with
  | Started => None
  | Chosen g | AtGate g | Locked g | Sending g _ | Reading g => Some g
  end.

(** The generation a call runs its request on without the gate. *)
Definition unguarded (p : Phase) : option nat :=
  match p with Sending g false => Some g | _ => None end.

(** Gates and connections. *)
Record gate_inv (s : DohState) : Prop := {
  gi_current : d_current s < length (d_gens s);
  gi_gens c p g : d_calls s !! c = Some p → phase_gen p = Some g → g < length (d_gens s);
  gi_gate g G c : d_gens s !! g = Some G → gate G = Some c ↔ d_calls s !! c ≫= holds = Some g;
  gi_cold c g G : d_calls s !! c ≫= unguarded = Some g → d_gens s !! g = Some G → had_connection G = true;
  gi_had g G : d_gens s !! g = Some G → (0 < g_open G)%Z ∨ http1 G = true → had_connection G = true;
  gi_open : d_open (d_counters s) = Z.of_nat (length (d_conns s));
  gi_small : (Z.of_nat (length (d_conns s)) < 2 ^ 64)%Z;
  gi_gen_open g G : d_gens s !! g = Some G → g_open G = Z.of_nat (conns_of g (d_conns s));
  gi_conns g a : (g, a) ∈ d_conns s → g < length (d_gens s);
  gi_retired g G : d_gens s !! g = Some G → retired G = bool_decide (g ≠ d_current s);
}.

(** Admission: permits and the gauge. *)
Record admission_inv (cfg : PoolConfig) (s : DohState) : Prop := {
  ai_permits : d_permits s + size (d_calls s) = capacity cfg;
  ai_in_flight : d_in_flight (d_counters s) = Z.of_nat (size (d_calls s));
}.

(** *** Moving a guard *)

Definition moved (c : nat) (old new : option Phase) (g : nat) (holder : option nat) : option nat :=
  if decide (new ≫= holds = Some g) then Some c
  else if decide (old ≫= holds = Some g) then None else holder.

Lemma move_guard_lookup c old new gs g :
  move_guard c old new gs !! g = (λ G, set_gate (moved c old new g (gate G)) G) <$> gs !! g.
Proof.
  assert (Hid : ∀ o : option Gen, o = (λ G, set_gate (gate G) G) <$> o) by (by intros [[]|]).
  unfold move_guard, moved. destruct (old ≫= holds) as [go|], (new ≫= holds) as [gn|]; rewrite ?list_lookup_alter;
    repeat case_decide; simplify_eq; try done; destruct (gs !! _) as [[]|]; done.
Qed.

Lemma length_move_guard c old new gs : length (move_guard c old new gs) = length gs.
Proof. unfold move_guard. destruct (old ≫= holds), (new ≫= holds); by rewrite ?length_alter. Qed.

(** What moving a call asks: the gate it takes is free or its own, and it runs
    without one only where there has been a connection. *)
Record may_move (s : DohState) (c : nat) (new : option Phase) : Prop := {
  mm_gen g : new ≫= phase_gen = Some g → g < length (d_gens s);
  mm_gate g G : new ≫= holds = Some g → d_gens s !! g = Some G → gate G = None ∨ d_calls s !! c ≫= holds = Some g;
  mm_cold g G : new ≫= unguarded = Some g → d_gens s !! g = Some G → had_connection G = true;
}.

Lemma set_phase_gate s c new : gate_inv s → may_move s c new → gate_inv (set_phase s c new).
Proof.
  intros [] []. unfold set_phase.
  assert (Hl : ∀ g G', move_guard c (d_calls s !! c) new (d_gens s) !! g = Some G' →
    ∃ G, d_gens s !! g = Some G ∧ G' = set_gate (moved c (d_calls s !! c) new g (gate G)) G).
  { intros g G'. rewrite move_guard_lookup. destruct (d_gens s !! g) as [G|]; [|done]. intros [= <-]. eauto. }
  split; cbn [d_counters d_permits d_waiting d_current d_since d_gens d_calls d_conns]; rewrite ?length_move_guard; try done.
  - intros c' p g. destruct (decide (c = c')) as [->|Hne].
    + rewrite lookup_partial_alter_eq. intros -> Hp. by apply mm_gen0.
    + rewrite lookup_partial_alter_ne by done. apply gi_gens0.
  - intros g G' c' (G & HG & ->)%Hl. cbn [set_gate gate]. unfold moved.
    pose proof (gi_gate0 g G c HG) as Hc. pose proof (gi_gate0 g G c' HG) as Hc'.
    destruct (decide (c = c')) as [<-|Hne].
    + rewrite lookup_partial_alter_eq. repeat case_decide; naive_solver.
    + rewrite lookup_partial_alter_ne by done. case_decide as Hn.
      { destruct (mm_gate0 _ _ Hn HG) as [Hg|Hg]; [split; [congruence|]; intros ?%Hc'; congruence|].
        apply Hc in Hg. split; [congruence|]. intros ?%Hc'. congruence. }
      case_decide as Ho; [|done]. apply Hc in Ho. split; [done|]. intros ?%Hc'. congruence.
  - intros c' g G' Hu (G & HG & ->)%Hl. cbn [set_gate had_connection]. destruct (decide (c = c')) as [->|Hne].
    + rewrite lookup_partial_alter_eq in Hu. by eapply mm_cold0.
    + rewrite lookup_partial_alter_ne in Hu by done. by eapply gi_cold0.
  - intros g G' (G & HG & ->)%Hl. by apply (gi_had0 g G).
  - intros g G' (G & HG & ->)%Hl. by apply (gi_gen_open0 g G).
  - intros g G' (G & HG & ->)%Hl. by apply (gi_retired0 g G).
Qed.

Lemma set_admission_gate s n k w :
  d_open n = d_open (d_counters s) → gate_inv s → gate_inv (set_admission s n k w).
Proof. intros Hn []. split; try done. cbn. congruence. Qed.

(** *** Connections *)

Lemma conns_of_middle g l1 x l2 : conns_of g (l1 ++ x :: l2) = (if decide (x.1 = g) then 1 else 0) + conns_of g (l1 ++ l2).
Proof.
  unfold conns_of. rewrite !filter_app, !length_app. destruct (decide (x.1 = g)).
  - rewrite filter_cons_True by done. cbn. lia.
  - rewrite filter_cons_False by done. lia.
Qed.

Lemma conns_of_le g conns : conns_of g conns ≤ length conns.
Proof. apply length_filter. Qed.

(** The generations change, but not what calls rely on. *)
Lemma set_conns_gate s n gs conns :
  gate_inv s →
  length gs = length (d_gens s) →
  (∀ g G', gs !! g = Some G' → ∃ G, d_gens s !! g = Some G ∧ gate G' = gate G ∧ retired G' = retired G ∧
     (had_connection G = true → had_connection G' = true) ∧
     ((0 < g_open G')%Z ∨ http1 G' = true → had_connection G' = true) ∧
     g_open G' = Z.of_nat (conns_of g conns)) →
  d_open n = Z.of_nat (length conns) → (Z.of_nat (length conns) < 2 ^ 64)%Z →
  (∀ g a, (g, a) ∈ conns → g < length gs) →
  gate_inv (set_conns s n gs conns).
Proof.
  intros [] Hlen Hgs Hopen Hsmall Hconns. unfold set_conns.
  split; cbn [d_counters d_permits d_waiting d_current d_since d_gens d_calls d_conns]; rewrite ?Hlen; try done.
  - intros g G' c (G & HG & -> & _)%Hgs. by apply gi_gate0.
  - intros c g G' Hu (G & HG & _ & _ & Hh & _)%Hgs. by eapply Hh, gi_cold0.
  - intros g G' (G & _ & _ & _ & _ & Hh & _)%Hgs. done.
  - intros g G' (G & _ & _ & _ & _ & _ & Ho)%Hgs. done.
  - intros g a Hin. rewrite <-Hlen. by eapply Hconns.
  - intros g G' (G & HG & _ & -> & _)%Hgs. by apply gi_retired0.
Qed.

(** A token is set. *)
Lemma token_gate s n l1 g a l2 :
  gate_inv s → d_conns s = l1 ++ (g, a) :: l2 → d_open n = d_open (d_counters s) →
  gate_inv (set_conns s n (d_gens s) (l1 ++ (g, true) :: l2)).
Proof.
  intros Hi Hl Hn. pose proof Hi as []. rewrite Hl, length_app in *. cbn [length] in *.
  apply set_conns_gate; try done; rewrite ?length_app; cbn [length]; try done; [|congruence|].
  - intros g' G HG. exists G. split; [done|]. split; [done|]. split; [done|]. split; [done|]. split; [by apply (gi_had0 _ _ HG)|].
    rewrite (gi_gen_open0 g' G HG), !conns_of_middle. done.
  - intros g' a' Hin. apply elem_of_app in Hin as [Hin|[[= -> ->]|Hin]%elem_of_cons]; eapply gi_conns0;
      rewrite elem_of_app, elem_of_cons; eauto.
Qed.

Lemma unchanged_gate s n : gate_inv s → d_open n = d_open (d_counters s) → gate_inv (set_conns s n (d_gens s) (d_conns s)).
Proof.
  intros Hi Hn. pose proof Hi as []. apply set_conns_gate; try done; [|congruence].
  intros g G HG. exists G. split_and!; try done; [by apply (gi_had0 _ _ HG)|by apply (gi_gen_open0 _ _ HG)].
Qed.

Lemma open_gate s g h2 :
  gate_inv s → g < length (d_gens s) → (Z.of_nat (S (length (d_conns s))) < 2 ^ 64)%Z →
  gate_inv (set_conns s (doh_count_opened (d_counters s)) (alter (gen_opened h2) g (d_gens s)) ((g, false) :: d_conns s)).
Proof.
  intros Hi Hg Hs. pose proof Hi as [].
  assert (Hb : ∀ n : nat, n ≤ length (d_conns s) → bump (Z.of_nat n) = Z.of_nat (S n)).
  { intros n Hn. unfold bump, wrapping_add. rewrite Z.mod_small by lia. lia. }
  apply set_conns_gate; try done; rewrite ?length_alter; try done.
  - intros g' G'. rewrite list_lookup_alter. unfold conns_of. case_decide as Heq; [subst g'|].
    + destruct (d_gens s !! g) as [G|] eqn:HG; [|done]. intros [= <-]. exists G. split_and!; try done.
      cbn [gen_opened g_open]. rewrite (gi_gen_open0 g G HG), Hb by apply conns_of_le.
      by rewrite filter_cons_True by done.
    + intros HG. exists G'. split_and!; try done; [by apply (gi_had0 _ _ HG)|]. rewrite filter_cons_False by (cbn; congruence).
      by apply gi_gen_open0.
  - cbn [doh_count_opened d_open length]. rewrite gi_open0. by apply Hb.
  - intros g' a [[= -> ->]|Hin]%elem_of_cons; [done|by eapply gi_conns0].
Qed.

Lemma close_gate s g G l1 a l2 :
  gate_inv s → d_conns s = l1 ++ (g, a) :: l2 → d_gens s !! g = Some G →
  gate_inv (set_conns s (doh_count_closed (d_counters s) (retired G)) (alter gen_closed g (d_gens s)) (l1 ++ l2)).
Proof.
  intros Hi Hl HG. pose proof Hi as [].
  assert (Hd : ∀ n : nat, drop_one (Z.of_nat (S n)) = Z.of_nat n).
  { intros n. unfold drop_one. case_decide; lia. }
  assert (Hlen : length (d_conns s) = S (length (l1 ++ l2))) by (rewrite Hl, !length_app; cbn; lia).
  apply set_conns_gate; try done; rewrite ?length_alter; try done; [|..|lia|].
  - intros g' G'. rewrite list_lookup_alter. case_decide as Heq; [subst g'|].
    + rewrite HG. intros [= <-]. exists G. split_and!; try done; cbn [gen_closed g_open http1 had_connection].
      * intros [Ho|Ho]; apply (gi_had0 g G HG); [left|by right]. unfold drop_one in Ho. case_decide; lia.
      * rewrite (gi_gen_open0 g G HG), Hl, conns_of_middle, decide_True by done. apply Hd.
    + intros HG'. exists G'. split_and!; try done; [by apply (gi_had0 _ _ HG')|].
      rewrite (gi_gen_open0 g' G' HG'), Hl, conns_of_middle, decide_False by done. done.
  - cbn [doh_count_closed d_open]. rewrite gi_open0, Hlen. apply Hd.
  - intros g' a' Hin. eapply gi_conns0. rewrite Hl. apply elem_of_app in Hin as [Hin|Hin]; rewrite elem_of_app, elem_of_cons; eauto.
Qed.

Lemma shutdown_gate s :
  gate_inv s → gate_inv (set_conns s (d_counters s) (alter shut_down (d_current s) (d_gens s)) (d_conns s)).
Proof.
  intros Hi. pose proof Hi as []. apply set_conns_gate; try done; rewrite ?length_alter; try done.
  intros g' G'. rewrite list_lookup_alter. case_decide as Heq.
  - subst g'. destruct (d_gens s !! d_current s) as [G|] eqn:HG; [|done]. intros [= <-]. exists G.
    split_and!; try done; [by apply (gi_had0 _ _ HG)|by apply (gi_gen_open0 _ _ HG)].
  - intros HG. exists G'. split_and!; try done; [by apply (gi_had0 _ _ HG)|by apply (gi_gen_open0 _ _ HG)].
Qed.

(** *** Generations *)

Lemma generation_gate cfg now later s :
  gate_inv s → let '(g, s') := generation cfg now later s in
    gate_inv s' ∧ g < length (d_gens s') ∧ d_calls s' = d_calls s ∧ d_permits s' = d_permits s ∧
    d_in_flight (d_counters s') = d_in_flight (d_counters s).
Proof.
  intros Hi. pose proof Hi as []. unfold generation.
  destruct (match max_lifetime cfg with Some _ => _ | None => _ end); [|done].
  split; [|cbn; rewrite length_app, length_alter; cbn; split_and!; try done; lia].
  assert (Hl : ∀ g G', (alter retire_gen (d_current s) (d_gens s) ++ [gen_new]) !! g = Some G' →
    (∃ G, d_gens s !! g = Some G ∧ g < length (d_gens s) ∧ G' = mkGen true (shutdown G) (g_open G) (http1 G) (gate G) (had_connection G)) ∨
    (g = length (d_gens s) ∧ G' = gen_new)).
  { intros g G' H. apply lookup_app_Some in H as [H|[Hge H]].
    - left. apply lookup_lt_Some in H as Hlt. rewrite length_alter in Hlt. rewrite list_lookup_alter in H. case_decide as Heq.
      + subst g. destruct (d_gens s !! d_current s) as [G|]; [|done]. injection H as <-. by exists G.
      + exists G'. split; [done|]. split; [done|]. rewrite <-(bool_decide_eq_true_2 (g ≠ d_current s)) by congruence.
        rewrite <-(gi_retired0 g G' H). by destruct G'.
    - right. rewrite length_alter in *. destruct (g - length (d_gens s)) as [|n] eqn:En; [|done]. injection H as <-. split; [lia|done]. }
  assert (Hnone : conns_of (length (d_gens s)) (d_conns s) = 0).
  { unfold conns_of. apply length_zero_iff_nil, elem_of_nil_inv. intros [g a] [Hg Hin]%list_elem_of_filter. cbn in Hg.
    apply gi_conns0 in Hin. lia. }
  split; cbn [d_counters d_permits d_waiting d_current d_since d_gens d_calls d_conns]; rewrite ?length_app, ?length_alter; cbn [length]; try done.
  - lia.
  - intros c p g Hc Hp. specialize (gi_gens0 c p g Hc Hp). lia.
  - intros g G' c [(G & HG & _ & ->)|[-> ->]]%Hl; [by apply (gi_gate0 g G)|]. split; [done|]. intros Hc.
    destruct (d_calls s !! c) as [p|] eqn:Ep; [|done]. cbn in Hc.
    assert (length (d_gens s) < length (d_gens s)); [|lia]. eapply gi_gens0; [exact Ep|].
    destruct p as [| | | |? []|]; try done.
  - intros c g G' Hu [(G & HG & _ & ->)|[-> ->]]%Hl; [by apply (gi_cold0 c g G)|].
    destruct (d_calls s !! c) as [p|] eqn:Ep; [|done]. cbn in Hu.
    assert (length (d_gens s) < length (d_gens s)); [|lia]. eapply gi_gens0; [exact Ep|].
    destruct p as [| | | |? []|]; try done.
  - intros g G' [(G & HG & _ & ->)|[-> ->]]%Hl; [by apply (gi_had0 g G)|]. cbn. intros [?|?]; [lia|done].
  - intros g G' [(G & HG & _ & ->)|[-> ->]]%Hl; [by apply (gi_gen_open0 g G)|]. by rewrite Hnone.
  - intros g a Hin%gi_conns0. lia.
  - intros g G' [(G & HG & Hlt & ->)|[-> ->]]%Hl; cbn [retired gen_new].
    + rewrite bool_decide_eq_true_2; [done|lia].
    + by rewrite bool_decide_eq_false_2 by auto.
Qed.

(** *** Every step *)

Definition doh_inv (cfg : PoolConfig) (s : DohState) : Prop := gate_inv s ∧ admission_inv cfg s.

(** A call that moves and stays. *)
Lemma move_inv cfg s s' c p p' :
  gate_inv s' → may_move s' c (Some p') → d_calls s' = d_calls s → d_permits s' = d_permits s →
  d_in_flight (d_counters s') = d_in_flight (d_counters s) →
  d_calls s !! c = Some p → admission_inv cfg s → doh_inv cfg (set_phase s' c (Some p')).
Proof.
  intros Hg Hm Hc Hk Hn Hp [H1 H2]. split; [by apply set_phase_gate|].
  assert (Hsz : size (partial_alter (λ _, Some p') c (d_calls s')) = size (d_calls s)).
  { change (partial_alter (λ _, Some p') c (d_calls s')) with (<[c:=p']> (d_calls s')). rewrite Hc.
    by apply map_size_insert_Some. }
  split; cbn [set_phase d_permits d_calls d_counters]; rewrite Hsz; congruence.
Qed.

Lemma admit_inv cfg s c k w :
  configured cfg → doh_inv cfg s → d_calls s !! c = None → d_permits s = S k →
  doh_inv cfg (set_phase (set_admission s (doh_count_admitted (d_counters s)) k w) c (Some Started)).
Proof.
  intros Hcfg [Hg [H1 H2]] Hc Hk. split.
  - apply set_phase_gate; [by apply set_admission_gate|]. by split.
  - pose proof (configured_bounds _ Hcfg) as [Hb1 Hb2]. unfold MAX_CONNECTIONS_LIMIT, MAX_IN_FLIGHT_LIMIT in *.
    assert (capacity cfg ≤ 4096) by (unfold capacity; nia).
    assert (Hsz : size (partial_alter (λ _, Some Started) c (d_calls s)) = S (size (d_calls s))).
    { change (partial_alter (λ _, Some Started) c (d_calls s)) with (<[c:=Started]> (d_calls s)).
      by apply map_size_insert_None. }
    split; cbn [set_phase set_admission d_permits d_calls d_counters doh_count_admitted d_in_flight]; rewrite Hsz; [lia|].
    unfold bump, wrapping_add. rewrite H2, Z.mod_small by lia. lia.
Qed.

Lemma end_inv cfg s c p :
  doh_inv cfg s → d_calls s !! c = Some p →
  doh_inv cfg (set_phase (set_admission s (doh_count_released (d_counters s)) (S (d_permits s)) (d_waiting s)) c None).
Proof.
  intros [Hg [H1 H2]] Hc. split.
  - apply set_phase_gate; [by apply set_admission_gate|]. by split.
  - assert (Hsz : S (size (partial_alter (λ _, None) c (d_calls s))) = size (d_calls s)).
    { change (partial_alter (λ _, None) c (d_calls s)) with (delete c (d_calls s)).
      assert (size (d_calls s) ≠ 0) by (intros H0%map_size_empty_iff; rewrite H0 in Hc; by rewrite lookup_empty in Hc).
      rewrite map_size_delete_Some by done. lia. }
    split; cbn [set_phase set_admission d_permits d_calls d_counters doh_count_released d_in_flight]; [lia|].
    unfold drop_one. rewrite H2. case_decide; lia.
Qed.

Lemma doh_step_inv cfg s s' : configured cfg → doh_step cfg s s' → doh_inv cfg s → doh_inv cfg s'.
Proof.
  intros Hcfg Hs Hi. pose proof Hi as [Hg Ha]. pose proof Hg as [].
  destruct Hs as [s c k Hc Hk|s Hk|s c k w Hc Hk Hw|s w Hw|s c now later Hc|s c g G Hc HG|s c g G Hc HG Hgate|s c g G Hc HG
    |s c g G Hc HG Hh|s c g guard l1 a l2 Hc Hl|s c g guard a Hc|s c p Hc|s c p Hc|s g h2 Hlt Hsm|s g G l1 a l2 Hl HG|s].
  - by apply admit_inv.
  - split; [by apply set_admission_gate|]. destruct Ha as [H1 H2]. split; cbn; [lia|done].
  - by apply admit_inv.
  - split; [by apply set_admission_gate|]. by destruct Ha.
  - pose proof (generation_gate cfg now later s Hg) as H. destruct (generation cfg now later s) as [g s'].
    destruct H as (Hg' & Hlt & Hcalls & Hperm & Hfl). eapply move_inv; try done. split; try done. by intros ? [= <-].
  - eapply move_inv; try done. assert (Hlt : g < length (d_gens s)) by (by eapply gi_gens0).
    destruct (has_connection G) eqn:Eh; split; try done; try by intros ? [= <-].
    intros g' G' [= <-] HG'. rewrite HG in HG'. injection HG' as <-. apply (gi_had0 g G HG). left. by apply bool_decide_eq_true in Eh.
  - eapply move_inv; try done. split; try done.
    + intros ? [= <-]. by eapply gi_gens0.
    + intros g' G' [= <-] HG'. left. congruence.
  - eapply move_inv; try done. split.
    + intros ? [= <-]. by eapply gi_gens0.
    + intros g' G' Hh HG'. destruct (negb (has_connection G)); [|done]. injection Hh as <-. right. by rewrite Hc.
    + intros g' G' Hu HG'. destruct (has_connection G) eqn:Eh; [|done]. injection Hu as <-. rewrite HG in HG'. injection HG' as <-.
      apply (gi_had0 g G HG). left. by apply bool_decide_eq_true in Eh.
  - eapply move_inv; try done. split; try done.
    + intros ? [= <-]. by eapply gi_gens0.
    + intros g' G' [= <-] HG'. rewrite HG in HG'. injection HG' as <-. apply (gi_had0 g G HG). by right.
  - eapply (move_inv cfg s); try done; [by eapply token_gate|]. split; try done. intros ? [= <-]. by eapply gi_gens0.
  - eapply (move_inv cfg s); [by apply unchanged_gate| |done..]. split; try done. intros ? [= <-]. by eapply gi_gens0.
  - eapply (move_inv cfg s); [by apply set_admission_gate|by split|done..].
  - by eapply end_inv.
  - split; [by apply open_gate|]. by destruct Ha.
  - split; [by eapply close_gate|]. by destruct Ha.
  - split; [by apply shutdown_gate|]. by destruct Ha.
Qed.

Lemma doh_pool_new_inv cfg now : doh_inv cfg (doh_pool_new cfg now).
Proof.
  split; [|split; [cbn; rewrite map_size_empty; lia|done]].
  assert (H0 : ∀ g G, [gen_new] !! g = Some G → g = 0 ∧ G = gen_new).
  { intros [|g] G [= <-]. done. }
  split; cbn [doh_pool_new d_counters d_permits d_waiting d_current d_since d_gens d_calls d_conns length]; try done.
  - lia.
  - intros g G c [-> ->]%H0. by rewrite lookup_empty.
  - intros g G [-> ->]%H0. cbn. intros [?|?]; [lia|done].
  - intros g G [-> ->]%H0. done.
  - intros g a Hin. by apply elem_of_nil in Hin.
  - intros g G [-> ->]%H0. done.
Qed.

(** C38: The pool of a DoH backend keeps its bounds and its cold start in every
    interleaving. Every admitted call holds one of the [max_connections] x
    [max_in_flight] permits and the gauge of queries in flight counts them; the
    gauge of open connections, of the pool and of each generation, is exact; only
    the current generation is not retired. While a generation has never had a
    connection at most one call runs its request on it; a call that waits for
    the gate finds it free, or held by an admitted call whose leaving opens it. *)
Theorem doh_cold_start cfg now s :
  configured cfg → rtc (doh_step cfg) (doh_pool_new cfg now) s →
  d_permits s + size (d_calls s) = max_connections cfg * max_in_flight cfg ∧
  d_in_flight (d_counters s) = Z.of_nat (size (d_calls s)) ∧
  d_open (d_counters s) = Z.of_nat (length (d_conns s)) ∧
  (∀ g G, d_gens s !! g = Some G →
     g_open G = Z.of_nat (conns_of g (d_conns s)) ∧ (retired G = false ↔ g = d_current s)) ∧
  (∀ g G c1 c2 guard1 guard2, d_gens s !! g = Some G → had_connection G = false →
     d_calls s !! c1 = Some (Sending g guard1) → d_calls s !! c2 = Some (Sending g guard2) → c1 = c2) ∧
  (∀ g G c, d_gens s !! g = Some G → d_calls s !! c = Some (AtGate g) →
     gate G = None ∨ ∃ c' p s', gate G = Some c' ∧ d_calls s !! c' = Some p ∧
       s' = set_phase (set_admission s (doh_count_released (d_counters s)) (S (d_permits s)) (d_waiting s)) c' None ∧
       doh_step cfg s s' ∧ gate <$> d_gens s' !! g = Some None).
Proof.
  intros Hcfg Hr. assert (H : doh_inv cfg s).
  { refine (rtc_ind_r (doh_inv cfg) _ _ _ _ Hr); [apply doh_pool_new_inv|]. intros y z _ Hyz. by apply doh_step_inv. }
  destruct H as [[] [H1 H2]]. split; [exact H1|]. split; [exact H2|]. split; [done|]. split; [|split].
  - intros g G HG. split; [by apply gi_gen_open0|]. rewrite (gi_retired0 g G HG), bool_decide_eq_false. split; [apply dec_stable|auto].
  - intros g G c1 c2 b1 b2 HG Hno Hc1 Hc2.
    assert (Hguard : ∀ c b, d_calls s !! c = Some (Sending g b) → gate G = Some c).
    { intros c b Hc. apply (gi_gate0 g G c HG). rewrite Hc. destruct b; [done|].
      rewrite (gi_cold0 c g G) in Hno; [done|by rewrite Hc|done]. }
    apply Hguard in Hc1, Hc2. congruence.
  - intros g G c HG Hc. destruct (gate G) as [c'|] eqn:Eg; [|by left]. right.
    apply (gi_gate0 g G c' HG) in Eg as Hh. destruct (d_calls s !! c') as [p|] eqn:Ep; [|done]. cbn in Hh.
    eexists c', p, _. split; [done|]. split; [done|]. split; [done|]. split; [by apply ds_end with p|].
    cbn [set_phase set_admission d_gens d_calls]. rewrite move_guard_lookup, HG. cbn [fmap option_fmap option_map set_gate gate].
    unfold moved. cbn [mbind option_bind]. rewrite decide_False by done. by rewrite Ep, decide_True.
Qed.

(** Two calls on a new pool: the first sends its request, the second waits. *)
Definition example_start : DohState := doh_pool_new pool_config_new 0.
Definition example_admitted (c : nat) (s : DohState) : DohState :=
  set_phase (set_admission s (doh_count_admitted (d_counters s)) (pred (d_permits s)) (d_waiting s)) c (Some Started).
Definition example_at_gate (c : nat) (s : DohState) : DohState :=
  set_phase (set_phase s c (Some (Chosen 0))) c (Some (AtGate 0)).
Definition example_cold : DohState :=
  let s := example_at_gate 1 (example_at_gate 0 (example_admitted 1 (example_admitted 0 example_start))) in
  set_phase (set_phase s 0 (Some (Locked 0))) 0 (Some (Sending 0 true)).

Lemma doh_cold_start_witness :
  rtc (doh_step pool_config_new) example_start example_cold ∧
  d_calls example_cold !! 0 = Some (Sending 0 true) ∧ d_calls example_cold !! 1 = Some (AtGate 0) ∧
  d_permits example_cold + 2 = 256.
Proof.
  assert (Hr : rtc (doh_step pool_config_new) example_start example_cold).
  { eapply rtc_l; [exact (ds_admit _ example_start 0 255 eq_refl eq_refl)|].
    eapply rtc_l; [refine (ds_admit _ _ 1 254 _ _); vm_compute; reflexivity|].
    eapply rtc_l; [refine (ds_choose _ _ 0 1 1 _); vm_compute; reflexivity|].
    eapply rtc_l; [refine (ds_look _ _ 0 0 gen_new _ _); vm_compute; reflexivity|].
    eapply rtc_l; [refine (ds_choose _ _ 1 2 2 _); vm_compute; reflexivity|].
    eapply rtc_l; [refine (ds_look _ _ 1 0 gen_new _ _); vm_compute; reflexivity|].
    eapply rtc_l; [refine (ds_lock _ _ 0 0 gen_new _ _ _); vm_compute; reflexivity|].
    apply rtc_once. refine (ds_look_again _ _ 0 0 (set_gate (Some 0) gen_new) _ _); vm_compute; reflexivity. }
  split; [exact Hr|]. split; [reflexivity|]. split; [reflexivity|].
  exact (proj1 (doh_cold_start pool_config_new 0 example_cold configured_new Hr)).
Defined.
