(* ===== verification/DohPool.v ===== *)
(** * The HTTP client pool of DNS over HTTPS

    Models the pooled [DohBackend] of [crates/dns-lattice/src/upstream/doh.rs]:
    one attempt, the query with its retry ([DohPool::attempt], [resolve]) and the
    backend with and without connection reuse. What an attempt met is its
    argument; the state the calls share is DohGate.v's. *)

From stdpp Require Import base numbers list gmap strings.
From S2P Require Import Prelude CoreError Time Name RecordData Header Message Transport Pool StreamQuery ErrorChain Server Doh DohGate.

Definition H2_KEEP_ALIVE_INTERVAL : Z := from_secs 15.
Definition H2_KEEP_ALIVE_TIMEOUT_MAX : Z := from_secs 20.

(** ** One attempt *)

(** The HTTP client's error: its causes, whether it is about connecting, and
    whether the connection it names had answered a query. *)
Record HyperError : Type := mkHyperError {
  he_chain : Chain;
  he_is_connect : bool;
  he_token : option bool;
}.

Definition failed_on_answering_connection (err : HyperError) : bool :=
  match he_token err with Some answered => answered | None => false end && negb (he_is_connect err) &&
  negb (error_chain_is_tls (he_chain err)) && is_connection_level (he_chain err).

Record DohFailure : Type := mkDohFailure {
  df_error : Error;
  retryable : bool;
}.

Definition fatal (error : Error) : DohFailure := mkDohFailure error false.

Section attempt.
Context (status_text : Z → string).

(** [sent] is what [GenState::send] gave before the deadline. The second
    component is whether the query counts as reused. *)
Definition doh_attempt (built : Result Error DohRequest) (sent : Timed HyperError HttpReply) (query : Message) :
    Run Error (Result DohFailure Message * bool) :=
  match built with
  | Err e => Ret (Err (fatal e), false)
  | Ok _ =>
      match sent with
      | Elapsed => Ret (Err (fatal Timeout), false)
      | Completed (Err err) =>
          Ret (Err (mkDohFailure (map_hyper_error (he_chain err)) (failed_on_answering_connection err)), false)
      | Completed (Ok response) =>
          let reused := match hr_token response with Some answered => answered | None => false end in
          if negb (is_success (hr_status response))
          then Ret (Err (fatal (Transport ("doh server returned http status " +:+ status_text (hr_status response)))), reused)
          else
            match hr_body response with
            | Elapsed => Ret (Err (fatal Timeout), reused)
            | Completed (Err err) =>
                Ret (Err (mkDohFailure (Transport (to_string err)) (reused && is_connection_level err)), reused)
            | Completed (Ok body) =>
                answer ← catch (decode_validated query body);
                Ret (match answer with Ok m => Ok m | Err e => Err (fatal e) end, reused)
            end
      end
  end.

(** [DohPool::resolve] once it is admitted: [sent retried] is what an attempt
    met. *)
Definition doh_query (sent : bool → Timed HyperError HttpReply) (late : bool) (built : Result Error DohRequest)
    (query : Message) : Run Error (Result Error Message * list (bool * bool)) :=
  retry_loop (λ retried, doh_attempt built (sent retried) query)
    (λ retried failed,
      retryable failed && negb retried && match opcode (header query) with Query => true | _ => false end && negb late)
    df_error RETRY_FUEL false [].

(** [admitted] is what waiting for a permit gave. *)
Definition doh_pool_resolve (admitted : Result Error unit) (sent : bool → Timed HyperError HttpReply) (late : bool)
    (built : Result Error DohRequest) (query : Message) : Run Error Message :=
  _ ← lift admitted;
  '(r, _) ← doh_query sent late built query;
  lift r.

Lemma doh_attempt_answers built sent query m reused :
  doh_attempt built sent query = Ret (Ok m, reused) → answers_query Match query m.
Proof.
  unfold doh_attempt. destruct built as [req|e]; [|done]. destruct sent as [|[response|err]]; [done| |done].
  destruct (is_success (hr_status response)); cbn [negb]; [|done].
  destruct (hr_body response) as [|[body|err]]; [done| |done].
  destruct (decode_validated query body) as [a|e| |] eqn:Ed; cbn [catch mbind run_bind]; intros H;
    apply ret_pair_inj in H as [H _] || done; [|done]. injection H as <-. by eapply decode_validated_answers.
Qed.

(** The body of the response makes the decoder loop. *)
Definition reply_loops (sent : Timed HyperError HttpReply) : Prop :=
  ∃ response body, sent = Completed (Ok response) ∧ hr_body response = Completed (Ok body) ∧ decode body = Hang.

Lemma doh_attempt_outcome built sent query :
  (∃ r n, doh_attempt built sent query = Ret (r, n)) ∨ reply_loops sent.
Proof.
  unfold doh_attempt. destruct built as [req|e]; [|by eauto]. destruct sent as [|[response|err]]; [by eauto| |by eauto].
  cbn zeta. destruct (is_success (hr_status response)); cbn [negb]; [|by eauto].
  destruct (hr_body response) as [|[body|err]] eqn:Eb; [by eauto| |by eauto].
  destruct (decode_validated_outcome query body) as [Hp Hh].
  destruct (decode_validated query body) as [a|e| |]; cbn [catch mbind run_bind]; [by eauto|by eauto|done|right; by exists response, body; auto].
Qed.

(** The failures after which a query is sent again: the connection had answered
    before, and it failed rather than the message. *)
Inductive doh_may_retry (sent : Timed HyperError HttpReply) : Prop :=
  | stale_request err :
      sent = Completed (Err err) → he_token err = Some true → he_is_connect err = false →
      (∀ n, has_cause (he_chain err) n → n_rustls n = false) → is_connection_level (he_chain err) = true →
      doh_may_retry sent
  | stale_body response err :
      sent = Completed (Ok response) → hr_token response = Some true → is_success (hr_status response) = true →
      hr_body response = Completed (Err err) → is_connection_level err = true → doh_may_retry sent.

Lemma no_tls_cause err : error_chain_is_tls err = false ↔ ∀ n, has_cause err n → n_rustls n = false.
Proof.
  pose proof (error_chain_is_tls_spec err) as H. destruct (error_chain_is_tls err); split; try done.
  - intros Hno. destruct (proj1 H eq_refl) as (n & Hn & Hr). rewrite Hno in Hr by done. done.
  - intros _ n Hn. destruct (n_rustls n) eqn:Hr; [|done]. discriminate (proj2 H (ex_intro _ n (conj Hn Hr))).
Qed.

Lemma failed_on_answering_spec err :
  failed_on_answering_connection err = true ↔
  he_token err = Some true ∧ he_is_connect err = false ∧ (∀ n, has_cause (he_chain err) n → n_rustls n = false) ∧
  is_connection_level (he_chain err) = true.
Proof.
  unfold failed_on_answering_connection. rewrite !andb_true_iff, !negb_true_iff, no_tls_cause.
  destruct (he_token err) as [[]|]; naive_solver.
Qed.

Lemma doh_attempt_retry req sent query r n :
  doh_attempt (Ok req) sent query = Ret (r, n) →
  (∃ f, r = Err f ∧ retryable f = true) ↔ doh_may_retry sent.
Proof.
  unfold doh_attempt. intros H. destruct sent as [|[response|err]] eqn:Es.
  - apply ret_pair_inj in H as [<- _]. split; [naive_solver|]. intros [|]; done.
  - cbn zeta in H. destruct (is_success (hr_status response)) eqn:Est; cbn [negb] in H.
    2:{ apply ret_pair_inj in H as [<- _]. split; [naive_solver|]. intros [?|? ? [= <-] ? ?]; [done|congruence]. }
    destruct (hr_body response) as [|[body|err]] eqn:Eb.
    + apply ret_pair_inj in H as [<- _]. split; [naive_solver|]. intros [?|? ? [= <-] ? ? ?]; [done|congruence].
    + apply run_bind_ret in H as (a & _ & H). apply ret_pair_inj in H as [<- _].
      split; [destruct a; naive_solver|]. intros [?|? ? [= <-] ? ? ?]; [done|congruence].
    + apply ret_pair_inj in H as [<- _]. split.
      * intros (f & [= <-] & Hf). cbn [retryable] in Hf. apply andb_true_iff in Hf as [Ht Hl].
        destruct (hr_token response) as [[]|] eqn:Et; try done. by eapply stale_body.
      * intros [?|? ? [= <-] Ht ? Hb Hl]; [done|]. eexists. split; [done|]. cbn [retryable]. rewrite Ht.
        cbn [andb]. congruence.
  - apply ret_pair_inj in H as [<- _]. split.
    + intros (f & [= <-] & Hf). apply failed_on_answering_spec in Hf as (? & ? & ? & ?). by eapply stale_request.
    + intros [? [= <-] ? ? ? ?|]; [|done]. eexists. split; [done|]. by apply failed_on_answering_spec.
Qed.

(** A query is sent at most twice, the second time exactly when the retry rule
    allows it, and what is returned answers it under the caller's id. *)
Lemma doh_query_run sent late req query r log :
  doh_query sent late (Ok req) query = Ret (r, log) →
  (log.*1 = [false] ∨ log.*1 = [false; true]) ∧
  (log.*1 = [false; true] ↔ doh_may_retry (sent false) ∧ opcode (header query) = Query ∧ late = false) ∧
  (∀ m, r = Ok m → answers_query Match query m).
Proof.
  intros H. unfold doh_query in H.
  apply retry_loop_ret in H as (r1 & n1 & H1 & H); [|intros f; cbn [negb]; by rewrite andb_false_r].
  pose proof (doh_attempt_retry _ _ _ _ _ H1) as Hr1.
  set (again := λ retried failed, retryable failed && negb retried && _ && negb late) in *.
  assert (Hsec : second again r1 = true ↔ doh_may_retry (sent false) ∧ opcode (header query) = Query ∧ late = false).
  { rewrite <-Hr1. unfold second, again. destruct r1 as [m|f]; [naive_solver|].
    rewrite !andb_true_iff. destruct (opcode (header query)), late; naive_solver. }
  destruct (second again r1).
  - destruct H as (r2 & n2 & H2 & -> & ->). cbn. split; [by right|]. split; [tauto|].
    intros m Hm. destruct r2 as [m2|]; [|done]. injection Hm as <-. by eapply doh_attempt_answers.
  - destruct H as [-> ->]. cbn. split; [by left|]. split; [split; [done|]; intros ?%Hsec; done|].
    intros m Hm. destruct r1 as [m1|]; [|done]. injection Hm as <-. by eapply doh_attempt_answers.
Qed.

(** The query returns, unless the body of a response makes the decoder loop. *)
Lemma doh_query_returns sent late built query :
  (∃ r log, doh_query sent late built query = Ret (r, log)) ∨ ∃ retried, reply_loops (sent retried).
Proof.
  destruct (doh_attempt_outcome built (sent false) query) as [H0|]; [|by right; exists false].
  destruct (doh_attempt_outcome built (sent true) query) as [H1|]; [|by right; exists true].
  left. apply retry_loop_outcome; [|by intros []]. intros f. cbn [negb]. by rewrite andb_false_r.
Qed.

(** Admitted or not, what a call returns answers its query. *)
Lemma doh_pool_resolve_answers admitted sent late req query m :
  doh_pool_resolve admitted sent late (Ok req) query = Ret m → answers_query Match query m.
Proof.
  unfold doh_pool_resolve. intros H. apply run_bind_ret in H as ([] & _ & H).
  apply run_bind_ret in H as ([r log] & E & H). destruct r as [m'|]; [|done]. injection H as ->.
  by eapply (doh_query_run _ _ _ _ _ _ E).
Qed.

(** ** A TLS failure in the body *)

(** Bytes of an answer that do not decrypt. *)
Definition bad_record : Chain :=
  Cause (mkNode "error reading a body from connection" false false) NoCause
    (Cause (mkNode "received corrupt message" false false) (Cause (mkNode "received corrupt message" true false) NoCause NoCause) NoCause).

(** It is reported as [Transport], and the query is sent again. *)
Lemma doh_body_tls_retried req query :
  doh_attempt (Ok req) (Completed (Ok (mkHttpReply 200 (Completed (Err bad_record)) (Some true)))) query =
    Ret (Err (mkDohFailure (Transport "error reading a body from connection") true), true) ∧
  map_hyper_error bad_record = Tls "error reading a body from connection".
Proof. split; reflexivity. Qed.
End attempt.

(** ** The backend *)

Section backend.
Context {TlsConfig : Type}.

(** [DohPool]: the policy, the keep-alive timeout of its clients and the shared
    state. *)
Record DohPool : Type := mkDohPool {
  dpool_config : PoolConfig;
  keep_alive_timeout : Z;
  dpool_state : DohState;
}.

Record DohBackend : Type := mkDohBackend {
  db_config : DohBackendConfig TlsConfig;
  db_pool : option DohPool;
}.

Definition doh_pool (pool : PoolConfig) (config : DohBackendConfig TlsConfig) (now : Z) : DohPool :=
  mkDohPool pool (Z.max (from_secs 1) (Z.min (doh_timeout config) H2_KEEP_ALIVE_TIMEOUT_MAX)) (doh_pool_new pool now).

Definition doh_with_pool (b : DohBackend) (pool : PoolConfig) (now : Z) : DohBackend :=
  mkDohBackend (db_config b) (if enabled pool then Some (doh_pool pool (db_config b) now) else None).

Definition doh_new (config : DohBackendConfig TlsConfig) (now : Z) : DohBackend :=
  doh_with_pool (mkDohBackend config None) pool_config_new now.

(** [unpooled] is the query without reuse ([doh_resolve_unpooled]). *)
Definition doh_resolve (status_text : Z → string) (b : DohBackend) (admitted : Result Error unit)
    (sent : bool → Timed HyperError HttpReply) (late : bool) (built : Result Error DohRequest)
    (unpooled : DohBackendConfig TlsConfig → Message → Run Error Message) (query : Message) : Run Error Message :=
  match db_pool b with
  | Some _ => doh_pool_resolve status_text admitted sent late built query
  | None => unpooled (db_config b) query
  end.
End backend.
