(* ===== verification/PooledSession.v ===== *)
(** * Queries over pooled sessions

    [DoqPool::query] ([crates/dns-lattice/src/upstream/doq.rs]) and
    [Doh3Pool::query] ([upstream/doh.rs]) over one pool in one state: the leases,
    the sessions and their ends, and the queries between their two attempts. Both
    clients are instances of one interface, which says what an attempt that ended
    told its lease; the theorems are proved against it. *)

From stdpp Require Import base numbers list gmap strings.
From S2P Require Import Prelude CoreError Time Name Header RecordData Message Transport Pool PoolInv PoolLife PoolAcquire StreamQuery PooledQuery PooledRetry ErrorChain Quic Doq Doh Doh3.

(** ** Clients *)

(** What a client does with a session [S] it leased: how its attempt at a query
    may end and what it tells the lease; what an answer changes; what the library
    and the peer may do to the session meanwhile; and after which failures the
    query may be sent again, the deadline having passed or not. *)
Class SessionClient (S F : Type) : Type := {
  attempt_ends : S → Message → Result F Message → list LeaseNote → Prop;
  answered_by : S → S;
  session_moves : S → S → Prop;
  session_new : S → Prop;
  may_again : F → Message → bool → bool;
}.

(** Only a failure that marked the lease's connection dead lets the query be sent
    again, and an answer is one to the query. *)
Class SessionLaws (S F : Type) `{!SessionClient S F} : Prop := {
  law_retry s query e notes late :
    attempt_ends s query (Err e) notes → may_again e query late = true → MarkDead ∈ notes;
  law_answer s query m notes : attempt_ends s query (Ok m) notes → answers_query Match query m;
}.

Section sessions.
Context {S F : Type} `{!SessionClient S F, !SessionLaws S F}.
Context (o : PoolObserver) (c : PoolConfig).

(** ** State and steps *)

Inductive SPhase : Type :=
  | SLeased
  | SEnding (result : Result F Message) (notes : list LeaseNote)
  | SAbandoned.

(** An attempt that has its lease; [s_first] is the connection of the attempt
    before, when it is the second. *)
Record SCall : Type := mkSCall {
  s_lease : Lease;
  s_on : nat;
  s_query : Message;
  s_first : option nat;
  s_phase : SPhase;
}.

Definition s_set_phase (call : SCall) (phase : SPhase) : SCall :=
  mkSCall (s_lease call) (s_on call) (s_query call) (s_first call) phase.

Definition s_leaving (phase : SPhase) : bool := match phase with SEnding _ [] | SAbandoned => true | _ => false end.

(** [ss_retrying]: the queries between their attempts, each with the connection
    that failed it. *)
Record Sessions : Type := mkSessions {
  ss_world : World (C:=nat);
  ss_conns : list S;
  ss_calls : list SCall;
  ss_retrying : list (Message * nat);
}.

Definition sessions_new (grace : Z) : Sessions := mkSessions (world_new c grace) [] [] [].

(** What [query] does when an attempt is over: it loops, with [fresh] set, or not. *)
Definition goes_again (call : SCall) (late : bool) : list (Message * nat) :=
  match s_phase call, s_first call with
  | SEnding (Err e) [], None => if may_again e (s_query call) late then [(s_query call, s_on call)] else []
  | _, _ => []
  end.

Inductive session_step : Sessions → Sessions → Prop :=
  | se_pool w w' out conns calls retrying :
      world_step o w out w' → w_leases w' = w_leases w → l_opened (w_life w') = l_opened (w_life w) →
      session_step (mkSessions w conns calls retrying) (mkSessions w' conns calls retrying)
  | se_connect w w' conns calls retrying session :
      world_step o w None w' → w_leases w' = w_leases w → l_opened (w_life w') = l_opened (w_life w) ++ [length conns] →
      session_new session →
      session_step (mkSessions w conns calls retrying) (mkSessions w' (conns ++ [session]) calls retrying)
  | se_first w w' conns calls retrying deadline queued now l e query :
      world_step o w (Some (Placing deadline false queued, now, Ok l)) w' →
      e ∈ entries (l_pool (w_life w')) → e_id e = l_entry l →
      session_step (mkSessions w conns calls retrying) (mkSessions w' conns (mkSCall l (conn e) query None SLeased :: calls) retrying)
  | se_again w w' conns calls retrying1 retrying2 deadline queued now l e query k :
      world_step o w (Some (Placing deadline true queued, now, Ok l)) w' →
      e ∈ entries (l_pool (w_life w')) → e_id e = l_entry l →
      session_step (mkSessions w conns calls (retrying1 ++ (query, k) :: retrying2))
        (mkSessions w' conns (mkSCall l (conn e) query (Some k) SLeased :: calls) (retrying1 ++ retrying2))
  | se_give_up w conns calls retrying1 retrying2 query k :
      session_step (mkSessions w conns calls (retrying1 ++ (query, k) :: retrying2)) (mkSessions w conns calls (retrying1 ++ retrying2))
  | se_end w conns cs1 call cs2 retrying session result notes :
      s_phase call = SLeased → conns !! s_on call = Some session → attempt_ends session (s_query call) result notes →
      session_step (mkSessions w conns (cs1 ++ call :: cs2) retrying)
        (mkSessions w (match result with Ok _ => <[s_on call := answered_by session]> conns | Err _ => conns end)
           (cs1 ++ s_set_phase call (SEnding result notes) :: cs2) retrying)
  | se_abandon w conns cs1 call cs2 retrying :
      s_phase call = SLeased →
      session_step (mkSessions w conns (cs1 ++ call :: cs2) retrying)
        (mkSessions w conns (cs1 ++ s_set_phase call SAbandoned :: cs2) retrying)
  | se_note s s' k callers ls conns cs1 call cs2 retrying result n notes pc :
      s_phase call = SEnding result (n :: notes) → life_op o s (note_op n pc (s_lease call)) = Some s' →
      session_step (mkSessions (mkWorld s k callers ls) conns (cs1 ++ call :: cs2) retrying)
        (mkSessions (mkWorld s' k callers ls) conns (cs1 ++ s_set_phase call (SEnding result notes) :: cs2) retrying)
  | se_leave s s' k callers ls1 ls2 conns cs1 call cs2 retrying pc now late :
      s_leaving (s_phase call) = true → life_op o s (OpDrop pc (s_lease call) now) = Some s' →
      session_step (mkSessions (mkWorld s k callers (ls1 ++ s_lease call :: ls2)) conns (cs1 ++ call :: cs2) retrying)
        (mkSessions (mkWorld s' (Datatypes.S k) callers (ls1 ++ ls2)) conns (cs1 ++ cs2) (goes_again call late ++ retrying))
  | se_move w conns calls retrying k session session' :
      conns !! k = Some session → session_moves session session' →
      session_step (mkSessions w conns calls retrying) (mkSessions w (<[k := session']> conns) calls retrying).

(** ** The invariant *)

Definition s_holder (call : SCall) : Lease * nat := (s_lease call, s_on call).

(** The pool has not got connection [k] and never has it again. *)
Definition gone (y : Sessions) (k : nat) : Prop := k < length (ss_conns y) ∧ buried (w_life (ss_world y)) k.

Record call_ok (y : Sessions) (call : SCall) : Prop := {
  co_answer m notes : s_phase call = SEnding (Ok m) notes → answers_query Match (s_query call) m;
  co_retry e notes late :
    s_phase call = SEnding (Err e) notes → may_again e (s_query call) late = true → MarkDead ∈ notes ∨ gone y (s_on call);
  co_first k : s_first call = Some k → gone y k ∧ s_on call ≠ k;
}.

Record sessions_inv (y : Sessions) : Prop := {
  sv_world : world_inv c o (ss_world y);
  sv_holders : holders_inv c (ss_world y) (length (ss_conns y)) (map s_holder (ss_calls y));
  sv_calls : Forall (call_ok y) (ss_calls y);
  sv_retrying : Forall (λ r, gone y r.2) (ss_retrying y);
}.

(** What is gone stays gone over a step of the pool. *)
Lemma buried_world w out w' n k :
  l_opened (w_life w') = l_opened (w_life w) ∨ l_opened (w_life w') = l_opened (w_life w) ++ [n] → k < n →
  world_step o w out w' → buried (w_life w) k → buried (w_life w') k.
Proof.
  intros Ho Hk Hs Hb. destruct (world_step_opens _ _ _ _ Hs) as [[E Ht]|(x & E & He)]; [by eapply buried_tied|].
  destruct Ho as [Ho|Ho]; rewrite Ho in E.
  { apply (f_equal length) in E. rewrite length_app in E. cbn in E. lia. }
  apply app_inj_tail in E as [_ <-]. intros e [(e0 & He0 & _ & <-)|[_ ->]]%He; [by apply Hb|lia].
Qed.

Lemma call_ok_gone y y' call : (∀ k, gone y k → gone y' k) → call_ok y call → call_ok y' call.
Proof.
  intros Hg []. split; [done| |].
  - intros e notes late H1 H2. destruct (co_retry0 e notes late H1 H2); auto.
  - intros k H. destruct (co_first0 k H). auto.
Qed.

Lemma note_world (call : SCall) s s' k callers ls n pc :
  s_lease call ∈ ls → life_op o s (note_op n pc (s_lease call)) = Some s' →
  world_step o (mkWorld s k callers ls) None (mkWorld s' k callers ls) ∧ l_opened s' = l_opened s.
Proof.
  intros Hl Hop. split; [|destruct n; by injection Hop as <-].
  eapply ws_lease; [exact Hl| |exact Hop]. by destruct n; apply bool_decide_eq_true.
Qed.

Lemma leave_opened (s s' : Life (C:=nat)) pc l now : life_op o s (OpDrop pc l now) = Some s' → l_opened s' = l_opened s.
Proof. cbn [life_op]. destruct (lease_drop _ _ _ _) as [wake p']. by intros [= <-]. Qed.

(** The lease of a call is the world's. *)
Lemma call_lease s k callers ls n cs1 call cs2 :
  holders_inv c (mkWorld s k callers ls) n (map s_holder (cs1 ++ call :: cs2)) → s_lease call ∈ ls.
Proof.
  intros Hh. change (s_lease call ∈ w_leases (mkWorld s k callers ls)). rewrite (hv_leases _ _ _ _ Hh), map_app, map_app.
  cbn [map s_holder fst]. apply elem_of_app. right. apply list_elem_of_here.
Qed.

Lemma holder_on y call : sessions_inv y → call ∈ ss_calls y → s_on call < length (ss_conns y).
Proof. intros Hi Hc. apply (hv_on _ _ _ _ (sv_holders _ Hi) (s_holder call)). by apply list_elem_of_fmap_2. Qed.

Lemma session_step_gone y y' k : sessions_inv y → session_step y y' → gone y k → gone y' k.
Proof.
  intros Hi Hs [Hk Hb]. pose proof (sv_holders _ Hi) as Hh. unfold gone.
  destruct Hs as [w w' out conns calls retrying Hs Hl Ho|w w' conns calls retrying session Hs Hl Ho Hn
    |w w' conns calls retrying deadline queued now l e query Hs He Hid|w w' conns calls r1 r2 deadline queued now l e query k' Hs He Hid
    |w conns calls r1 r2 query k'|w conns cs1 call cs2 retrying session result notes Hph Hc Ha|w conns cs1 call cs2 retrying Hph
    |s s' k' callers ls conns cs1 call cs2 retrying result n notes pc Hph Hop
    |s s' k' callers ls1 ls2 conns cs1 call cs2 retrying pc now late Hph Hop|w conns calls retrying k' session session' Hc Hm];
    cbn [ss_world ss_conns ss_calls ss_retrying] in *; try done.
  - split; [done|]. eapply (buried_world w); [by left|exact Hk|exact Hs|done].
  - rewrite length_app. split; [lia|]. eapply (buried_world w); [by right|exact Hk|exact Hs|done].
  - split; [done|]. destruct (world_step_leased _ _ _ _ _ _ Hs) as [_ Ho]. eapply (buried_world w); [by left|exact Hk|exact Hs|done].
  - split; [done|]. destruct (world_step_leased _ _ _ _ _ _ Hs) as [_ Ho]. eapply (buried_world w); [by left|exact Hk|exact Hs|done].
  - split; [|done]. destruct result; [by rewrite length_insert|done].
  - split; [done|]. destruct (note_world call s s' k' callers ls n pc (call_lease _ _ _ _ _ _ _ _ Hh) Hop) as [Hw Ho].
    by apply (buried_world (mkWorld s k' callers ls) None (mkWorld s' k' callers ls) (length conns)); [left|..].
  - split; [done|].
    apply (buried_world (mkWorld s k' callers (ls1 ++ s_lease call :: ls2)) None (mkWorld s' (Datatypes.S k') callers (ls1 ++ ls2)) (length conns));
      [left; by eapply leave_opened|exact Hk|eapply ws_end_lease; exact Hop|done].
  - by rewrite length_insert.
Qed.

(** The world and the holders of leases over a step. *)
Lemma session_step_world y y' :
  sessions_inv y → session_step y y' →
  world_inv c o (ss_world y') ∧ holders_inv c (ss_world y') (length (ss_conns y')) (map s_holder (ss_calls y')).
Proof.
  intros [Hw Hh _ _] Hs.
  destruct Hs as [w w' out conns calls retrying Hs Hl Ho|w w' conns calls retrying session Hs Hl Ho Hn
    |w w' conns calls retrying deadline queued now l e query Hs He Hid|w w' conns calls r1 r2 deadline queued now l e query k' Hs He Hid
    |w conns calls r1 r2 query k'|w conns cs1 call cs2 retrying session result notes Hph Hc Ha|w conns cs1 call cs2 retrying Hph
    |s s' k' callers ls conns cs1 call cs2 retrying result n notes pc Hph Hop
    |s s' k' callers ls1 ls2 conns cs1 call cs2 retrying pc now late Hph Hop|w conns calls retrying k' session session' Hc Hm];
    cbn [ss_world ss_conns ss_calls ss_retrying] in *; try done.
  - split; [by eapply world_step_inv|]. eapply holders_pool; try done. by eapply world_step_tied.
  - split; [by eapply world_step_inv|]. rewrite length_app, Nat.add_1_r. by eapply holders_connect.
  - assert (Hw' : world_inv c o w') by by eapply world_step_inv. split; [done|]. by eapply holders_lease.
  - assert (Hw' : world_inv c o w') by by eapply world_step_inv. split; [done|]. by eapply holders_lease.
  - split; [done|]. rewrite !map_app in *. destruct result; [by rewrite length_insert|done].
  - split; [done|]. by rewrite !map_app in *.
  - destruct (note_world call s s' k' callers ls n pc (call_lease _ _ _ _ _ _ _ _ Hh) Hop) as [Hs Ho].
    split; [by eapply world_step_inv|]. rewrite !map_app in *. eapply holders_pool; try done. by eapply world_step_tied.
  - assert (Hs : world_step o (mkWorld s k' callers (ls1 ++ s_lease call :: ls2)) None (mkWorld s' (Datatypes.S k') callers (ls1 ++ ls2)))
      by (eapply ws_end_lease; exact Hop).
    pose proof (leave_opened _ _ _ _ _ Hop) as Ho.
    split; [by eapply world_step_inv|]. rewrite map_app in *. cbn [map] in Hh.
    eapply holders_leave; [exact Hh| |exact Ho|by eapply world_step_tied].
    cbn [w_leases s_holder fst]. by rewrite <-Permutation_middle.
  - by rewrite length_insert.
Qed.

Lemma calls_kept y y' cs : (∀ k, gone y k → gone y' k) → Forall (call_ok y) cs → Forall (call_ok y') cs.
Proof. intros Hg H. eapply Forall_impl; [exact H|]. intros call. by apply call_ok_gone. Qed.

Lemma calls_moved y y' cs1 call call' cs2 :
  (∀ k, gone y k → gone y' k) → Forall (call_ok y) (cs1 ++ call :: cs2) → (call_ok y call → call_ok y' call') →
  Forall (call_ok y') (cs1 ++ call' :: cs2).
Proof.
  rewrite !Forall_app, !Forall_cons. intros Hg (H1 & H2 & H3) H. split; [by eapply calls_kept|]. split; [by apply H|by eapply calls_kept].
Qed.

(** Telling a lease that its connection is dead buries it. *)
Lemma told_gone s s' k callers ls conns cs1 call cs2 retrying pc calls' :
  sessions_inv (mkSessions (mkWorld s k callers ls) conns (cs1 ++ call :: cs2) retrying) →
  life_op o s (note_op MarkDead pc (s_lease call)) = Some s' →
  gone (mkSessions (mkWorld s' k callers ls) conns calls' retrying) (s_on call).
Proof.
  intros Hi Hop. pose proof Hi as [Hw Hh _ _]. cbn [ss_world ss_conns ss_calls] in *.
  assert (Hin : call ∈ cs1 ++ call :: cs2) by (apply elem_of_app; right; apply list_elem_of_here).
  split; [exact (holder_on _ _ Hi Hin)|]. cbn [ss_world w_life].
  pose proof (life_op_tied _ _ _ _ Hop) as Ht. cbn [note_op life_op] in Hop. injection Hop as <-. specialize (Ht eq_refl).
  cbn [after_section l_pool] in *. intros x Hx Hon. destruct (Ht x Hx) as (x0 & Hx0 & Hid & Hcn). rewrite <-Hcn in Hon.
  apply (hv_entry _ _ _ _ Hh (s_holder call) x0) in Hon; [|by apply list_elem_of_fmap_2|done].
  eapply mark_dead_gone; [apply (pi_ids _ _ (wi_pool _ _ _ Hw))|exact Hx|]. by rewrite <-Hid.
Qed.

Lemma session_step_calls y y' :
  sessions_inv y → session_step y y' → Forall (call_ok y') (ss_calls y') ∧ Forall (λ r, gone y' r.2) (ss_retrying y').
Proof.
  intros Hi Hs. pose proof (λ k, session_step_gone y y' k Hi Hs) as Hg. pose proof (session_step_world y y' Hi Hs) as [Hw' Hh'].
  pose proof (sv_calls _ Hi) as Hc. pose proof (sv_retrying _ Hi) as Hr.
  assert (Hrg : ∀ rs, Forall (λ r : Message * nat, gone y r.2) rs → Forall (λ r, gone y' r.2) rs).
  { intros rs H. eapply Forall_impl; [exact H|]. intros r. apply Hg. }
  assert (Hnew : ∀ l e query first w conns, (∀ k, first = Some k → gone y' k ∧ conn e ≠ k) →
    y' = mkSessions w conns (mkSCall l (conn e) query first SLeased :: ss_calls y) (ss_retrying y') →
    Forall (call_ok y') (ss_calls y')).
  { intros l e query first w conns Hf E. rewrite E at 2. cbn [ss_calls]. constructor; [by split|by eapply calls_kept]. }
  pose proof Hs as Hs'.
  destruct Hs' as [w w' out conns calls retrying Hs1 Hl Ho|w w' conns calls retrying session Hs1 Hl Ho Hn
    |w w' conns calls retrying deadline queued now l e query Hs1 He Hid|w w' conns calls r1 r2 deadline queued now l e query k' Hs1 He Hid
    |w conns calls r1 r2 query k'|w conns cs1 call cs2 retrying session result notes Hph Hcn Ha|w conns cs1 call cs2 retrying Hph
    |s s' k' callers ls conns cs1 call cs2 retrying result n notes pc Hph Hop
    |s s' k' callers ls1 ls2 conns cs1 call cs2 retrying pc now late Hph Hop|w conns calls retrying k' session session' Hcn Hm];
    cbn [ss_calls ss_retrying] in *; try (split; [by eapply calls_kept|by apply Hrg]).
  - split; [|by apply Hrg]. by apply (Hnew l e query None w' conns).
  - rewrite !Forall_app, Forall_cons in Hr. destruct Hr as (Hr1 & Hk & Hr2). split; [|apply Hrg, Forall_app; by split].
    apply (Hnew l e query (Some k') w' conns); [|done]. intros k [= <-]. pose proof (Hg _ Hk) as Hk'. split; [done|].
    destruct Hk' as [_ Hb]. by apply Hb.
  - rewrite !Forall_app, Forall_cons in Hr. split; [by eapply calls_kept|]. apply Hrg, Forall_app. tauto.
  - split; [|by apply Hrg]. eapply calls_moved; [exact Hg|exact Hc|]. intros []. split; cbn [s_set_phase s_phase s_query s_on s_first].
    + intros m ns [= -> ->]. by eapply law_answer.
    + intros e ns late [= -> ->] Hm. left. by eapply law_retry.
    + intros k H. destruct (co_first0 k H). split; [by apply Hg|done].
  - split; [|by apply Hrg]. eapply calls_moved; [exact Hg|exact Hc|]. intros []. split; cbn [s_set_phase s_phase s_query s_on s_first]; try done.
  - split; [|by apply Hrg]. eapply calls_moved; [exact Hg|exact Hc|]. intros []. split; cbn [s_set_phase s_phase s_query s_on s_first].
    + intros m ns [= -> ->]. by eapply co_answer0.
    + intros e ns late [= -> <-] Hm. destruct (co_retry0 _ _ _ Hph Hm) as [[Hn|?]%elem_of_cons|?]; [|by left|right; by apply Hg].
      subst n. right. by eapply told_gone.
    + intros k H. destruct (co_first0 k H). split; [by apply Hg|done].
  - rewrite Forall_app, Forall_cons in Hc. destruct Hc as (H1 & H2 & H3).
    split; [apply Forall_app; split; by eapply calls_kept|]. apply Forall_app. split; [|by apply Hrg].
    unfold goes_again. destruct (s_phase call) as [|[m|err] [|n notes]|] eqn:Ep; try constructor.
    destruct (s_first call); [constructor|]. destruct (may_again err (s_query call) late) eqn:Em; [|constructor].
    constructor; [|constructor]. cbn [snd]. destruct (co_retry _ _ H2 _ _ _ Ep Em) as [Hn|Hgone]; [by apply not_elem_of_nil in Hn|by apply Hg].
Qed.

Lemma session_step_inv y y' : sessions_inv y → session_step y y' → sessions_inv y'.
Proof.
  intros Hi Hs. destruct (session_step_world _ _ Hi Hs) as [Hw Hh]. destruct (session_step_calls _ _ Hi Hs) as [Hc Hr]. by split.
Qed.

Lemma session_steps_inv grace y : configured c → rtc session_step (sessions_new grace) y → sessions_inv y.
Proof.
  intros Hc Hr. refine (rtc_ind_r sessions_inv _ _ _ _ Hr); [|intros; by eapply session_step_inv].
  split; cbn [sessions_new ss_world ss_conns ss_calls ss_retrying].
  - by apply world_new_inv.
  - split; try done; try (by intros h ?%not_elem_of_nil); try (by intros h e ?%not_elem_of_nil). cbn. lia.
  - constructor.
  - constructor.
Qed.

Lemma session_steps_gone y y' k : sessions_inv y → rtc session_step y y' → gone y k → gone y' k.
Proof.
  intros Hi Hr. induction Hr as [y|y y1 y' Hs _ IH]; [done|]. intros Hg. apply IH; [by eapply session_step_inv|].
  by eapply session_step_gone.
Qed.

(** C30: Queries over pooled sessions, DoQ and HTTP/3 alike. In every state that
    pool, sessions and queries can reach, whatever callers, connects, sweeps,
    timeouts and ends of sessions do: the attempts are at most the pool's
    capacity and those on one session at most [max_in_flight]; an answer an
    attempt returns is one to its query; a query that waits to be sent again was
    failed by a connection that the pool does not have and never gets again;
    so its second attempt, which is its last, is on another one. *)
Theorem sessions_sound grace y :
  configured c → rtc session_step (sessions_new grace) y →
  length (ss_calls y) ≤ capacity c ∧
  (∀ query k y', (query, k) ∈ ss_retrying y → rtc session_step y y' → buried (w_life (ss_world y')) k) ∧
  ∀ call, call ∈ ss_calls y →
    length (filter (λ x, s_on x = s_on call) (ss_calls y)) ≤ max_in_flight c ∧
    match s_phase call with SEnding (Ok m) _ => answers_query Match (s_query call) m | _ => True end ∧
    ∀ k, s_first call = Some k → s_on call ≠ k ∧ ∀ late, goes_again call late = [].
Proof.
  intros Hc Hr. pose proof (session_steps_inv _ _ Hc Hr) as Hi. split; [|split].
  - pose proof (pi_permits _ _ (wi_pool _ _ _ (sv_world _ Hi))) as Hp. cbn [system_of permits admitted leases] in Hp.
    rewrite (hv_leases _ _ _ _ (sv_holders _ Hi)), !length_map in Hp. lia.
  - intros query k y' Hin Hr'. pose proof (proj1 (Forall_forall _ _) (sv_retrying _ Hi) _ Hin) as Hg. cbn [snd] in Hg.
    by eapply session_steps_gone.
  - intros call Hin. pose proof (proj1 (Forall_forall _ _) (sv_calls _ Hi) call Hin) as []. split; [|split].
    + rewrite <-(length_map s_holder). etrans; [|apply (hv_room _ _ _ _ (sv_holders _ Hi) (s_on call))]. apply Nat.eq_le_incl.
      clear. induction (ss_calls y) as [|x calls IH]; [done|]. cbn [map]. rewrite !filter_cons. cbn [s_holder snd].
      case_decide; cbn [map length]; by rewrite IH.
    + destruct (s_phase call) as [|[m|e] notes|] eqn:Ep; try done. by eapply co_answer0.
    + intros k Hk. split; [by apply co_first0|]. intros late. unfold goes_again. rewrite Hk. by destruct (s_phase call) as [|[] []|].
Qed.
End sessions.

(** ** The two clients *)

(** [DoqPool::attempt]: the stream is whatever opening one on the session gave. *)
#[export] Instance doq_client : SessionClient DoqConn AttemptError := {|
  attempt_ends session query result notes :=
    ∃ open payload n, encode (with_id query 0) = Ok payload ∧
      doq_attempt (mkDoqAttempt (Ok tt) open session) (frame payload) query = Ret (result, n) ∧ notes = dn_lease n;
  answered_by session := mkDoqConn (close_reason session) (opened_on session) true;
  session_moves session session' :=
    close_reason session = None ∧ ∃ reason, session' = mkDoqConn (Some reason) (opened_on session) (dc_answered session);
  session_new session := dc_answered session = false;
  may_again failed query late := retry failed && negb late;
|}.

Lemma doq_failed_marks a query err failed notes : doq_failed a query err = (failed, notes) → retry failed = true → MarkDead ∈ notes.
Proof.
  unfold doq_failed. destruct (close_reason (da_conn a)); intros [= <- <-]; cbn [retry andb]; [intros _; apply list_elem_of_here|done].
Qed.

#[export] Instance doq_laws : SessionLaws DoqConn AttemptError.
Proof.
  split.
  - intros session query e notes late (open & payload & n & _ & H & ->) [Hr _]%andb_true_iff. unfold doq_attempt in H.
    cbn [da_lease da_open] in H. set (a := mkDoqAttempt _ _ _) in H.
    destruct open as [|[stream|err]]; [by injection H as <- <-| |].
    + destruct (exchange stream (frame payload) query) as [[m s]|err| |]; cbn [catch mbind run_bind] in H; try done.
      destruct (doq_failed a query err) as [failed ns] eqn:Ef.
      destruct err; injection H as <- <-; first [done|by eapply doq_failed_marks].
    + destruct (doq_failed a query _) as [failed ns] eqn:Ef. injection H as <- <-. by eapply doq_failed_marks.
  - intros session query m notes (open & payload & n & _ & H & ->). by eapply doq_attempt_spec.
Qed.

Section doh3.
Context (status_text : Z → string).

(** [Doh3Pool::attempt] with a request that could be built. *)
Definition doh3_client : SessionClient Doh3Conn H3Failure := {|
  attempt_ends session query result notes :=
    ∃ stream request n, h3_attempt status_text (mkH3Attempt (Ok tt) stream session) (Ok request) query = Ret (result, n) ∧
      notes = hn_lease n;
  answered_by session := mkDoh3Conn (h3_close_reason session) (h3_driver_finished session) (h3_runtime session) true;
  session_moves session session' :=
    (h3_close_reason session = None ∧ ∃ reason,
      session' = mkDoh3Conn (Some reason) (h3_driver_finished session) (h3_runtime session) (h3_answered session)) ∨
    session' = mkDoh3Conn (h3_close_reason session) true (h3_runtime session) (h3_answered session);
  session_new session := h3_answered session = false;
  may_again failed query late := retry_allowed failed (is_query query) false late;
|}.

Lemma doh3_laws : @SessionLaws _ _ doh3_client.
Proof.
  split.
  - intros session query e notes late (stream & request & n & H & ->) Hr. unfold h3_attempt in H. cbn [ha_lease ha_stream] in H.
    cbn [may_again doh3_client] in Hr. unfold retry_allowed in Hr. rewrite !andb_true_iff in Hr. destruct Hr as (((((Hr & _) & _) & _) & _) & _).
    destruct (h3_exchange _ _ _ _) as [m|[[|ex] g]| |]; try done; [by injection H as <- <-|].
    unfold h3_failed in H. injection H as <- <-. cbn [hf_closed hn_lease] in *. rewrite Hr. apply list_elem_of_here.
  - intros session query m notes (stream & request & n & H & ->). by eapply (h3_attempt_spec status_text _ _ _ false).
Qed.
End doh3.

(** ** A DoQ query that is sent again *)

Notation doq_step := (session_step (S:=DoqConn) (F:=AttemptError) example_observer).

Definition healthy : DoqConn := mkDoqConn None None false.
Definition idle_close : ConnectionError := mkConnectionError OtherClose "timed out".
Definition closed_session : DoqConn := mkDoqConn (Some idle_close) None true.

(** The stream on which the session answers. *)
Definition answer_stream : Stream := mkStream (frame (encoded (with_id example_reply 0))) Timeout [Ok tt] [].

Definition doq_error : AttemptError := mkAttemptError (Transport "timed out") true.

(** The second query's lease is told and dropped: its connection leaves the pool. *)
Definition life_dead : Life (C:=nat) := next_life placed_again.1 (OpDead (λ _, false) placed_again.2).
Definition life_emptied : Life (C:=nat) := next_life life_dead (OpDrop (λ _, false) placed_again.2 9).

Definition turn_life (s : Life (C:=nat)) (r : option (Life (C:=nat) * (Result Error Lease + Caller))) : Life (C:=nat) :=
  match r with Some (s', _) => s' | None => s end.

(** It asks for a fresh connection, which opens. *)
Definition life_opening : Life (C:=nat) :=
  turn_life life_emptied (acquire_turn example_observer life_emptied 50 10 true false (λ _, true) (λ _, false)).
Definition life_finished : Life (C:=nat) := next_life life_opening (OpFinish 1 (run_connect (Connected (Ok 1))) 11).
Definition life_reported : Life (C:=nat) := next_life life_finished (last_act life_finished).
Definition life_reopened : Life (C:=nat) := next_life life_reported (last_act life_reported).
Definition placed_fresh : Life (C:=nat) * Lease :=
  match acquire_turn example_observer life_reopened 50 12 true true (λ _, true) (λ _, false) with
  | Some (s, inl (Ok l)) => (s, l)
  | _ => (life_reopened, mkLease 9 false)
  end.

Definition quiet_state (s : Life (C:=nat)) (permits : nat) (callers : list Caller) (conns : list DoqConn) (retrying : list (Message * nat)) :
    Sessions :=
  mkSessions (F:=AttemptError) (mkWorld s permits callers []) conns [] retrying.

(** One call in the given phase. *)
Definition call_state (s : Life (C:=nat)) (l : Lease) (on : nat) (first : option nat) (session : list DoqConn) (phase : SPhase) : Sessions :=
  mkSessions (F:=AttemptError) (mkWorld s 0 [] [l]) session [mkSCall l on example_query first phase] [].

Definition example_second : Sessions := call_state placed_fresh.1 placed_fresh.2 1 (Some 0) [closed_session; healthy] SLeased.

Lemma doq_step_to (y y1 y' : Sessions) : doq_step y y1 → y1 = y' → doq_step y y'.
Proof. by intros ? <-. Qed.

(** Steps of the pool alone, each between two quiet states. *)
Lemma quiet_step s s' k k' callers callers' out conns retrying :
  world_step example_observer (mkWorld s k callers []) out (mkWorld s' k' callers' []) → l_opened s' = l_opened s →
  doq_step (quiet_state s k callers conns retrying) (quiet_state s' k' callers' conns retrying).
Proof. intros H Ho. by apply (se_pool _ (mkWorld s k callers []) (mkWorld s' k' callers' []) out). Qed.

Lemma start_step s deadline fresh conns retrying :
  doq_step (quiet_state s 1 [] conns retrying) (quiet_state s 0 [Placing deadline fresh false] conns retrying).
Proof. eapply quiet_step; [by eapply ws_start|done]. Qed.

Lemma wait_step s s' deadline fresh now caller conns retrying :
  (next_epoch (l_pool s) < u64_max)%Z →
  acquire_turn example_observer s deadline now fresh false (λ _, true) (λ _, false) = Some (s', inr caller) →
  doq_step (quiet_state s 0 [Placing deadline fresh false] conns retrying) (quiet_state s' 0 [caller] conns retrying).
Proof.
  intros He H. eapply quiet_step; [by eapply (ws_wait _ s s' 0 [] [] [])|]. by destruct (acquire_turn_tied _ _ _ _ _ _ _ _ _ _ H).
Qed.

Lemma connected_step s deadline fresh epoch now conns retrying :
  wait_connect s epoch deadline now = Some (Ok tt) →
  doq_step (quiet_state s 0 [Waiting deadline fresh epoch] conns retrying) (quiet_state s 0 [Placing deadline fresh true] conns retrying).
Proof. intros H. eapply quiet_step; [by eapply (ws_connected _ s 0 [] [] [])|done]. Qed.

Lemma act_step s s' k callers conns retrying :
  life_op example_observer s (last_act s) = Some s' → l_opened s' = l_opened s →
  doq_step (quiet_state s k callers conns retrying) (quiet_state s' k callers conns retrying).
Proof. intros H Ho. eapply quiet_step; [by eapply (ws_own _ s s' k callers [] (last_act s))|done]. Qed.

Lemma open_step s s' deadline fresh epoch now conns retrying :
  (next_entry_id (l_pool s) < u64_max)%Z → connecting (l_pool s) = Some epoch →
  life_op example_observer s (OpFinish epoch (run_connect (Connected (Ok (length conns)))) now) = Some s' →
  l_opened s' = l_opened s ++ [length conns] →
  doq_step (quiet_state s 0 [Waiting deadline fresh epoch] conns retrying)
    (quiet_state s' 0 [Waiting deadline fresh epoch] (conns ++ [healthy]) retrying).
Proof.
  intros Hn Hc Hop Ho. apply (se_connect _ (mkWorld s 0 [Waiting deadline fresh epoch] []) (mkWorld s' 0 [Waiting deadline fresh epoch] []));
    [by eapply ws_connect|done|done|done].
Qed.

(** A lease for a query that is new, or waits to be sent again. *)
Lemma lease_step s s' deadline fresh queued now l e conns (again : option nat) :
  (next_epoch (l_pool s) < u64_max)%Z → fresh = (if again is Some _ then true else false) →
  acquire_turn example_observer s deadline now fresh queued (λ _, true) (λ _, false) = Some (s', inl (Ok l)) →
  e ∈ entries (l_pool s') → e_id e = l_entry l →
  doq_step (quiet_state s 0 [Placing deadline fresh queued] conns (option_list (pair example_query <$> again)))
    (call_state s' l (conn e) again conns SLeased).
Proof.
  intros Hn -> Ht He Hid. destruct again as [k|]; cbn [fmap option_fmap option_map option_list].
  - eapply (se_again _ _ (mkWorld s' 0 [] [l]) conns [] [] [] deadline queued now l e example_query k); [|done|done].
    by eapply (ws_leased _ s s' 0 [] [] []).
  - eapply (se_first _ _ (mkWorld s' 0 [] [l]) conns [] [] deadline queued now l e example_query); [|done|done].
    by eapply (ws_leased _ s s' 0 [] [] []).
Qed.

Lemma told_step s s' l on first conns result n notes :
  life_op example_observer s (note_op n (λ _, false) l) = Some s' →
  doq_step (call_state s l on first conns (SEnding result (n :: notes))) (call_state s' l on first conns (SEnding result notes)).
Proof. intros H. by eapply (se_note _ s s' 0 [] [l] conns [] (mkSCall l on example_query first (SEnding result (n :: notes))) []). Qed.

Lemma left_step s s' l on first conns result now retrying :
  life_op example_observer s (OpDrop (λ _, false) l now) = Some s' →
  goes_again (S:=DoqConn) (mkSCall l on example_query first (SEnding result [])) false = retrying →
  doq_step (call_state s l on first conns (SEnding result [])) (quiet_state s' 1 [] conns retrying).
Proof.
  intros H <-. rewrite <-(app_nil_r (goes_again _ _)).
  by eapply (se_leave _ s s' 0 [] [] [] conns [] (mkSCall l on example_query first (SEnding result [])) [] [] (λ _, false) now false).
Qed.

Lemma end_step s l on first conns session opened payload result n notes conns' :
  conns !! on = Some session → encode (with_id example_query 0) = Ok payload →
  doq_attempt (mkDoqAttempt (Ok tt) opened session) (frame payload) example_query = Ret (result, n) → notes = dn_lease n →
  conns' = match result with Ok _ => <[on := answered_by session]> conns | Err _ => conns end →
  doq_step (call_state s l on first conns SLeased) (call_state s l on first conns' (SEnding result notes)).
Proof.
  intros Hs He Ha -> ->. eapply (se_end _ (mkWorld s 0 [] [l]) conns [] (mkSCall l on example_query first SLeased) [] []); [done..|].
  by exists opened, payload, n.
Qed.

Definition waiting_life : Life (C:=nat) := w_life example_waiting.
Definition healthy_answered : DoqConn := mkDoqConn None None true.

(** The first query is answered over the pool's first session. *)
Lemma doq_answered_reached :
  rtc doq_step (sessions_new example_pool_config 100) (quiet_state life_left 1 [] [healthy_answered] []).
Proof.
  eapply rtc_l. { eapply doq_step_to; [apply (start_step (life_new example_pool_config 100) 50 false)|]. reflexivity. }
  eapply rtc_l. { apply (wait_step _ waiting_life 50 false 1 (Waiting 50 false 0)); vm_compute; reflexivity. }
  eapply rtc_l. { apply (open_step _ example_finished 50 false 0 3 [] []); vm_compute; reflexivity. }
  eapply rtc_l. { apply (act_step _ example_reported); vm_compute; reflexivity. }
  eapply rtc_l. { apply (act_step _ example_open); vm_compute; reflexivity. }
  eapply rtc_l. { apply (connected_step _ 50 false 0 4). vm_compute. reflexivity. }
  eapply rtc_l.
  { apply (lease_step _ example_placed.1 50 false true 4 example_placed.2
      (default (mkEntry 0 0 0 0 0 false 0 None) (head (entries (l_pool example_placed.1)))) [healthy] None);
      [vm_compute; reflexivity|reflexivity|vm_compute; reflexivity|vm_compute; apply list_elem_of_here|vm_compute; reflexivity]. }
  eapply rtc_l.
  { eapply (end_step example_placed.1 example_placed.2 _ None [healthy] healthy (Completed (Ok answer_stream))
      (encoded (with_id example_query 0)) (Ok example_reply) _ [Complete] [healthy_answered]); vm_compute; reflexivity. }
  eapply rtc_l. { apply (told_step _ life_told). vm_compute. reflexivity. }
  apply rtc_once. apply (left_step _ life_left _ _ None [healthy_answered] (Ok example_reply) 6 []); vm_compute; reflexivity.
Qed.

(** The second one finds it closed, and goes again over a fresh one. *)
Lemma example_second_reached : rtc doq_step (sessions_new example_pool_config 100) example_second.
Proof.
  etrans; [exact doq_answered_reached|].
  eapply rtc_l. { apply (start_step life_left 50 false). }
  eapply rtc_l.
  { apply (lease_step _ placed_again.1 50 false false 7 placed_again.2
      (default (mkEntry 0 0 0 0 0 false 0 None) (head (entries (l_pool placed_again.1)))) [healthy_answered] None);
      [vm_compute; reflexivity|reflexivity|vm_compute; reflexivity|vm_compute; apply list_elem_of_here|vm_compute; reflexivity]. }
  eapply rtc_l.
  { eapply (se_move _ (mkWorld placed_again.1 0 [] [placed_again.2]) [healthy_answered] _ [] 0 healthy_answered closed_session);
      [reflexivity|]. split; [done|]. by exists idle_close. }
  eapply rtc_l.
  { eapply (end_step placed_again.1 placed_again.2 _ None [closed_session] closed_session (Completed (Err idle_close))
      (encoded (with_id example_query 0)) (Err doq_error) _ [MarkDead] [closed_session]); vm_compute; reflexivity. }
  eapply rtc_l. { apply (told_step _ life_dead). vm_compute. reflexivity. }
  eapply rtc_l. { apply (left_step _ life_emptied _ _ None [closed_session] (Err doq_error) 9 [(example_query, 0)]); vm_compute; reflexivity. }
  eapply rtc_l. { apply (start_step life_emptied 50 true). }
  eapply rtc_l. { apply (wait_step _ life_opening 50 true 10 (Waiting 50 true 1)); vm_compute; reflexivity. }
  eapply rtc_l. { apply (open_step _ life_finished 50 true 1 11 [closed_session]); vm_compute; reflexivity. }
  eapply rtc_l. { apply (act_step _ life_reported); vm_compute; reflexivity. }
  eapply rtc_l. { apply (act_step _ life_reopened); vm_compute; reflexivity. }
  eapply rtc_l. { apply (connected_step _ 50 true 1 12). vm_compute. reflexivity. }
  apply rtc_once.
  apply (lease_step _ placed_fresh.1 50 true true 12 placed_fresh.2
    (default (mkEntry 0 0 0 0 0 false 0 None) (head (entries (l_pool placed_fresh.1)))) [closed_session; healthy] (Some 0));
    [vm_compute; reflexivity|reflexivity|vm_compute; reflexivity|vm_compute; apply list_elem_of_here|vm_compute; reflexivity].
Qed.

Lemma sessions_sound_witness :
  map s_first (ss_calls example_second) = [Some 0] ∧ length (ss_calls example_second) ≤ 1 ∧
  ∀ call, call ∈ ss_calls example_second → ∀ k, s_first call = Some k → s_on call ≠ k.
Proof.
  destruct (sessions_sound example_observer example_pool_config 100 example_second example_configured example_second_reached)
    as (Hl & _ & Hc).
  split; [done|]. split; [exact Hl|]. intros call Hin k Hk. by apply (Hc call Hin).
Defined.
