(* ===== verification/Stack.v ===== *)
(** * The whole stack: the resolver over its six backends

    The composition the facade ships: [Resolve.resolve] with the UDP, TCP, DoT,
    DoQ, DoH and DoH3 backends of the other files as its upstreams
    ([crates/dns-lattice/src/upstream]). What the files before assume of a
    backend is proved of these six: whatever the network does, a backend does
    not panic and what it returns is a well-formed reply to its query. Left to
    the network is that what it delivers are bytes. *)

From stdpp Require Import base numbers list gmap strings.
From S2P Require Import Prelude CoreError Time Name RecordData Edns Header Message Matcher Transport StreamConn Pool StreamQuery.
From S2P Require Import FakeIpFamily FakeIpPool CacheConfig StoreKey Entry Shard Store Flight Response ResponseWf Reverse FakeIpAnswer FakeIpReply.
From S2P Require Import EngineState Reply Upstreams Resolve EngineLogic ResolveSpec Server Lifecycle ServerEngine.
From S2P Require Import ErrorChain Dot Quic Doq Doh Doh3 DohGate DohPool.

(** ** Outcomes of a computation over the network *)

Section outcomes.
(** The byte strings the network delivers. *)
Context (N : list Z → Prop).

Definition stuck : Prop := ∃ bytes, N bytes ∧ decode bytes = Hang.

(** No panic, a result with [P], or an error; it loops only on delivered bytes
    the decoder loops on. *)
Definition gives {E A} (r : Run E A) (P : A → Prop) : Prop :=
  match r with Ret a => P a | Throw _ => True | Panic => False | Hang => stuck end.

Lemma gives_mono {E A} (r : Run E A) (P Q : A → Prop) : gives r P → (∀ a, P a → Q a) → gives r Q.
Proof. destruct r; cbn; auto. Qed.

Lemma gives_bind {E A B} (r : Run E A) (f : A → Run E B) P Q :
  gives r P → (∀ a, P a → gives (f a) Q) → gives (r ≫= f) Q.
Proof. destruct r; cbn; auto. Qed.

Lemma gives_lift {E A} (r : Result E A) (P : A → Prop) : (∀ a, r = Ok a → P a) → gives (lift r) P.
Proof. destruct r; cbn; auto. Qed.

Lemma gives_catch {E A} (r : Run E A) P : gives r P → gives (catch (E:=E) r) (λ x, ∀ a, x = Ok a → P a).
Proof. destruct r; cbn; [intros H ? [= <-]; done|done|done|done]. Qed.

(** What is known of every result is known of this one. *)
Lemma gives_also {E A} (r : Run E A) (P Q : A → Prop) :
  gives r P → (∀ a, r = Ret a → Q a) → gives r (λ a, P a ∧ Q a).
Proof. destruct r; cbn; auto. Qed.

Lemma gives_retry {F N'} (attempt : bool → Run Error (Result F Message * N')) again (error_of : F → Error) (P : Message → Prop) :
  (∀ f, again true f = false) → (∀ fresh, gives (attempt fresh) (λ x, ∀ m, x.1 = Ok m → P m)) →
  gives (retry_loop attempt again error_of RETRY_FUEL false []) (λ x, ∀ m, x.1 = Ok m → P m).
Proof.
  intros Hagain Ha. rewrite retry_loop_two by done.
  assert (Ho : ∀ (r : Result F Message) (log : list (bool * N')), (∀ m, r = Ok m → P m) →
    gives (E:=Error) (Ret (outcome error_of r, log)) (λ x, ∀ m, x.1 = Ok m → P m)).
  { intros r log H m Hm. cbn in Hm. destruct r; [|done]. injection Hm as ->. by apply H. }
  eapply gives_bind; [apply Ha|]. intros [r n] Hr. destruct (second again r); [|by apply Ho].
  eapply gives_bind; [apply Ha|]. intros [r' n'] Hr'. by apply Ho.
Qed.

(** ** Decoding what is delivered *)

Context (HN : ∀ bytes, N bytes → bytes_ok bytes).

Lemma gives_decode bytes : N bytes → gives (decode bytes) wf_message.
Proof.
  intros H. pose proof (decode_no_panic_aux bytes) as Hp.
  destruct (decode bytes) as [m|e| |] eqn:E; [by eapply decode_ret_wf; [apply HN|]|done|done|by exists bytes].
Qed.

Lemma wf_with_id m i : is_u16 i → wf_message m → wf_message (with_id m i).
Proof. intros Hi [(_ & H2 & H3) Hr]. by split. Qed.

Lemma wf_query_id query : wf_message query → is_u16 (id (header query)).
Proof. by intros [[H _] _]. Qed.

Lemma gives_reply {E} (r : Run E Message) query :
  gives r wf_message → (∀ m, r = Ret m → answers_query Match query m) → gives r (reply_to query).
Proof. intros Hr Ha. by apply gives_also. Qed.

Lemma gives_validated query bytes :
  wf_message query → N bytes → gives (decode_validated query bytes) (reply_to query).
Proof.
  intros Hq Hb. apply gives_reply; [|intros m; apply decode_validated_answers].
  eapply gives_bind; [by apply gives_decode|]. intros m Hm. eapply gives_bind; [by apply (gives_lift _ (λ _, True))|].
  intros _ _. by apply wf_with_id; [apply wf_query_id|].
Qed.

(** ** Sockets and streams *)

Definition socket_from (s : UdpSocket) : Prop := Forall N (u_inbox s).
Definition stream_from (s : Stream) : Prop := ∀ bytes, part_of bytes (s_in s) → N bytes.

Lemma gives_receive sent inbox ends :
  Forall N inbox → gives (udp_receive sent inbox ends) (λ x, wf_message x.1 ∧ Forall N x.2).
Proof.
  induction 1 as [|d inbox Hd Hin IH]; cbn [udp_receive]; [done|]. pose proof (gives_decode d Hd) as Hg.
  destruct (decode d) as [m|e| |]; [|done..]. by destruct (is_ok _).
Qed.

Lemma gives_exchange s sent : socket_from s → gives (udp_exchange s sent) (λ x, wf_message x.1 ∧ socket_from x.2).
Proof.
  intros Hs. eapply gives_bind; [by apply (gives_lift _ (λ _, True))|]. intros payload _.
  eapply (gives_bind _ _ socket_from).
  - unfold send_udp. by destruct (u_sends s) as [|[]].
  - intros s1 H1. eapply gives_bind; [by apply gives_receive|]. intros [m inbox] [Hm Hi]. by split.
Qed.

Lemma gives_udp_answer b s query : socket_from s → gives (udp_answer b s query) (λ x, wf_message x.1).
Proof.
  assert (He : ∀ s sent, socket_from s → gives (udp_exchange s sent) (λ x, wf_message x.1)).
  { intros s1 sent H1. eapply gives_mono; [by apply gives_exchange|]. by intros x []. }
  intros Hs. unfold udp_answer. destruct (with_opt b query) as [sent|]; [|by apply He].
  eapply gives_bind; [by apply gives_exchange|]. intros [first s1] [Hf H1]. destruct (rejects_edns first); [by apply He|].
  eapply (gives_bind _ _ wf_message); [|done]. apply gives_lift. intros a Ha.
  assert (a = set_edns first None) as ->; [|by apply wf_set_edns].
  unfold strip_edns in Ha. destruct (edns first) as [[e|]|]; [destruct (_ && _)|..]; congruence.
Qed.

Lemma gives_read_framed s : stream_from s → gives (read_framed s) (λ x, wf_message x.1).
Proof.
  intros Hs. unfold read_framed, read_exact. case_decide; [|done]. cbn [mbind run_bind s_in]. case_decide; [|done].
  cbn [mbind run_bind]. eapply gives_bind; [apply gives_decode, Hs, part_take_drop|]. done.
Qed.

Lemma gives_framed s query c : stream_from s → gives (framed_query s query c) (λ x, wf_message x.1).
Proof.
  intros Hs. unfold framed_query. eapply (gives_bind _ _ stream_from).
  - unfold write_framed, write_all. destruct (encode query); [|done]. cbn [lift mbind run_bind]. case_decide; [done|].
    by destruct (s_writes s) as [|[]].
  - intros s1 H1. eapply gives_bind; [by apply gives_read_framed|]. intros [m s2] Hm.
    eapply gives_bind; [by apply (gives_lift _ (λ _, True))|]. done.
Qed.

Lemma gives_tcp connected query :
  (∀ s, connected = Ok s → stream_from s) → gives (tcp_query connected query) wf_message.
Proof.
  intros Hs. eapply gives_bind; [by apply gives_lift|]. intros s H1. eapply gives_bind; [by apply gives_framed|].
  by intros [].
Qed.

(** ** Each backend *)

(** An answer that a pooled stream hands over was decoded from what arrived. *)
Definition attempt_from (a : Attempt) : Prop :=
  ∀ m, at_waited a = WAnswer m → ∃ bytes, N bytes ∧ decode bytes = Ret m.
Definition doq_from (a : DoqAttempt) : Prop := ∀ s, da_open a = Completed (Ok s) → stream_from s.
Definition reply_from (r : HttpReply) : Prop := ∀ body, hr_body r = Completed (Ok body) → N body.
Definition h3_from (h : H3Stream) : Prop := N (concat (h_chunks h)).

Context (query : Message) (Hq : wf_message query).

Lemma reply_restored m : wf_message m → answers_query Ignore query m → reply_to query (with_id m (id (header query))).
Proof. intros Hm Ha. split; [by apply wf_with_id; [apply wf_query_id|]|by apply with_id_answers]. Qed.

Lemma gives_udp bound connected b :
  (∀ a1 a2 s, bound a1 a2 = Ok s → socket_from s) → (∀ a s, connected a = Ok s → stream_from s) →
  gives (udp_resolve bound connected b query) (reply_to query).
Proof.
  intros Hb Hc. apply gives_reply; [|intros m; apply udp_resolve_answers].
  unfold udp_resolve. eapply gives_bind; [apply gives_lift; apply Hb|]. intros s Hs.
  eapply gives_bind; [by apply gives_udp_answer|]. intros [m s1] Hm.
  destruct (truncated (header m)); [|done]. apply gives_tcp, Hc.
Qed.

Lemma gives_stream_query world late :
  (∀ fresh, attempt_from (world fresh)) →
  gives (stream_query world late query) (λ x, ∀ m, x.1 = Ok m → reply_to query m).
Proof.
  intros Hw. unfold stream_query. eapply (gives_bind _ _ (λ p, encode query = Ok p)); [by apply gives_lift|].
  intros payload He. case_decide as Hl; [|done].
  destruct (stream_query_outcome world late query payload He Hl) as (r & log & E & _ & _ & Hr & _).
  unfold stream_query in E. rewrite He in E. cbn [lift mbind run_bind] in E. rewrite decide_True in E by done. rewrite E.
  cbn. intros m ->. cbn zeta in Hr. set (a := world _) in Hr. destruct (attempt a query).1 as [m'|e] eqn:Ea; [injection Hr as <-|done].
  apply attempt_ok in Ea as (_ & _ & x & Hx & Ha & ->). destruct (Hw _ _ Hx) as (bytes & Hb & Hd).
  apply reply_restored; [|done]. by eapply decode_ret_wf; [apply HN|].
Qed.

Lemma gives_pooled world late :
  (∀ fresh, attempt_from (world fresh)) →
  gives ('(r, _) ← stream_query world late query; lift r) (reply_to query).
Proof. intros Hw. eapply gives_bind; [by apply gives_stream_query|]. intros [r log] Hr. by apply gives_lift. Qed.

Lemma gives_framed_reply s : stream_from s → gives ('(m, _) ← framed_query s query Match; Ret m) (reply_to query).
Proof.
  intros Hs. eapply gives_bind; [apply gives_also; [by apply gives_framed|intros x Hx; exact Hx]|].
  intros [m s'] [Hm E]. split; [done|by eapply framed_query_answers].
Qed.

Lemma gives_tcp_backend connected world late b :
  (∀ a s, connected a = Ok s → stream_from s) → (∀ fresh, attempt_from (world fresh)) →
  gives (tcp_resolve connected world late b query) (reply_to query).
Proof.
  intros Hc Hw. unfold tcp_resolve. destruct (tcp_pool b); [by apply gives_pooled|].
  eapply gives_bind; [apply gives_lift; apply Hc|]. apply gives_framed_reply.
Qed.

Lemma gives_dot {TlsConfig} tcp_connect tls_connect world late (b : DotBackend (TlsConfig:=TlsConfig)) :
  (∀ name tls nodelay t s, tls_connect name tls nodelay t = Completed (Ok s) → stream_from s) →
  (∀ fresh, attempt_from (world fresh)) →
  gives (dot_resolve tcp_connect tls_connect world late b query) (reply_to query).
Proof.
  intros Hc Hw. unfold dot_resolve. destruct (dot_pool b); [by apply gives_pooled|].
  eapply (gives_bind _ _ stream_from); [|apply gives_framed_reply]. apply gives_lift. intros s Hs.
  apply result_bind_ok in Hs as ([] & _ & Hs). apply timed_ok in Hs. by eapply Hc.
Qed.

Lemma gives_doq_attempt a framed :
  doq_from a → gives (doq_attempt a framed query) (λ x, ∀ m, x.1 = Ok m → reply_to query m).
Proof.
  intros Ha. unfold doq_attempt. destruct (da_lease a); [|done]. destruct (da_open a) as [|[s|err]] eqn:Eo; [done| |done].
  specialize (Ha s Eo). eapply (gives_bind _ _ (λ r, ∀ x, r = Ok x → wf_message x.1 ∧ answers_query Ignore query x.1)).
  - apply gives_catch, gives_also; [|intros [m s'] E; by apply exchange_ret in E as [? _]].
    unfold Doq.exchange. eapply (gives_bind _ _ stream_from).
    + unfold write_all. by destruct (s_writes s) as [|[]].
    + intros s1 H1. eapply gives_bind; [by apply gives_read_framed|]. intros [m s2] Hm.
      eapply gives_bind; [by apply (gives_lift _ (λ _, True))|]. done.
  - intros [[m s']|e] Hr; [|by destruct e]. cbn. intros ? [= <-]. destruct (Hr _ eq_refl) as [H1 H2]. by apply reply_restored.
Qed.

Lemma gives_doq {TlsConfig} (b : DoqBackend (TlsConfig:=TlsConfig)) world late opened :
  (∀ fresh, doq_from (world fresh)) → (∀ s, opened = Ok s → stream_from s) →
  gives (doq_resolve b world late opened query) (reply_to query).
Proof.
  intros Hw Ho. unfold doq_resolve. destruct (doq_pool b).
  - eapply (gives_bind _ _ (λ x, ∀ m, x.1 = Ok m → reply_to query m)); [|intros [r log] Hr; by apply gives_lift].
    unfold doq_query. eapply gives_bind; [by apply (gives_lift _ (λ _, True))|]. intros payload _. case_decide; [|done].
    apply gives_retry; [intros f; by rewrite andb_false_r|]. intros fresh. by apply gives_doq_attempt.
  - eapply (gives_bind _ _ (λ x, ∀ m, x.1 = Ok m → reply_to query m)); [|intros [r log] Hr; by apply gives_lift].
    unfold doq_resolve_unpooled. destruct opened as [s|e]; [|done]. specialize (Ho s eq_refl).
    eapply gives_bind; [apply gives_catch, (gives_also _ (λ x, wf_message x.1) (λ x, answers_query Ignore (with_id query 0) x.1));
      [by apply gives_framed|intros [m s'] E; by eapply framed_query_answers]|].
    intros [[m s']|e] Hr; [|done]. cbn. intros ? [= <-]. destruct (Hr _ eq_refl) as [H1 H2].
    apply reply_restored; [done|]. destruct H2. by split.
Qed.

Lemma gives_doh_unpooled {TlsConfig} base64_encode from_str from_parts build status_text
    (config : DohBackendConfig TlsConfig) request :
  (∀ req r, request req = Completed (Ok r) → reply_from r) →
  gives (doh_resolve_unpooled base64_encode from_str from_parts build status_text config request query) (reply_to query).
Proof.
  intros Hr. unfold doh_resolve_unpooled. eapply gives_bind; [by apply (gives_lift _ (λ _, True))|]. intros req _.
  eapply (gives_bind _ _ reply_from); [apply gives_lift; intros r H%timed_ok; by eapply Hr|]. intros r Hfrom.
  destruct (negb _); [done|]. eapply (gives_bind _ _ N); [apply gives_lift; intros body H%timed_ok; by apply Hfrom|].
  intros body Hb. by apply gives_validated.
Qed.

Lemma gives_doh_attempt status_text built sent :
  (∀ r, sent = Completed (Ok r) → reply_from r) →
  gives (doh_attempt status_text built sent query) (λ x, ∀ m, x.1 = Ok m → reply_to query m).
Proof.
  intros Hs. unfold doh_attempt. destruct built; [|done]. destruct sent as [|[r|err]]; [done| |done]. cbn zeta.
  destruct (negb _); [done|]. destruct (hr_body r) as [|[body|err]] eqn:Eb; [done| |done].
  eapply gives_bind; [apply gives_catch, gives_validated; [done|by eapply Hs]|].
  intros [m|e] Hm; [|done]. cbn. intros ? [= <-]. by apply Hm.
Qed.

Lemma gives_doh {TlsConfig} status_text (b : DohBackend (TlsConfig:=TlsConfig)) admitted sent late built unpooled :
  (∀ retried r, sent retried = Completed (Ok r) → reply_from r) →
  (∀ config, gives (unpooled config query) (reply_to query)) →
  gives (doh_resolve status_text b admitted sent late built unpooled query) (reply_to query).
Proof.
  intros Hs Hu. unfold doh_resolve. destruct (db_pool b); [|apply Hu].
  unfold doh_pool_resolve. eapply gives_bind; [by apply (gives_lift _ (λ _, True))|]. intros _ _.
  eapply (gives_bind _ _ (λ x, ∀ m, x.1 = Ok m → reply_to query m)); [|intros [r log] Hr; by apply gives_lift].
  apply gives_retry; [intros f; cbn [negb]; by rewrite andb_false_r|]. intros fresh. apply gives_doh_attempt, Hs.
Qed.

Lemma gives_h3_exchange status_text h body :
  h3_from h → gives (h3_exchange status_text h body query) (reply_to query).
Proof.
  intros Hh. unfold h3_exchange.
  assert (Ha : ∀ A g1 g2 (t : Timed H3StreamError A), gives (await g1 g2 t) (λ _, True)) by by intros A g1 g2 [|[]].
  eapply gives_bind; [apply Ha|]. intros _ _. eapply (gives_bind _ _ (λ _, True)); [by case_decide|]. intros _ _.
  eapply gives_bind; [apply Ha|]. intros _ _. eapply gives_bind; [apply Ha|]. intros status _.
  destruct (negb _); [done|]. eapply (gives_bind _ _ N).
  - destruct (recv_body_outcome (h_chunks h) (h_end h) []) as [Hp Hg].
    destruct (recv_body _ _ _) as [d|st| |] eqn:E; try done. by apply recv_body_ret in E as [-> _].
  - intros data Hd. unfold decoded. pose proof (gives_validated query data Hq Hd) as H.
    by destruct (decode_validated query data).
Qed.

Lemma gives_doh3 {TlsConfig} status_text (b : Doh3Backend (TlsConfig:=TlsConfig)) world late hc h built :
  (∀ fresh, h3_from (ha_stream (world fresh))) → h3_from h →
  gives (doh3_resolve status_text b world late hc h built query) (reply_to query).
Proof.
  intros Hw Hh. unfold doh3_resolve. destruct (host _) as [name|]; [|done]. destruct (h3_pool b).
  - eapply (gives_bind _ _ (λ x, ∀ m, x.1 = Ok m → reply_to query m)); [|intros [r log] Hr; by apply gives_lift].
    apply gives_retry; [intros f; unfold retry_allowed; cbn [negb]; by rewrite andb_false_r|]. intros fresh.
    unfold h3_attempt. destruct built as [req|e]; [|done]. destruct (ha_lease _); [|done].
    pose proof (gives_h3_exchange status_text (ha_stream (world fresh)) (dr_body req) (Hw fresh)) as H.
    destruct (h3_exchange _ _ _ _) as [m|[[|e] g]| |]; try done. cbn. by intros ? [= <-].
  - assert (Hs : ∀ E' A (t : Result E' A), gives (lift t) (λ _, True)) by by intros E' A [].
    unfold doh3_resolve_unpooled, stream_step.
    repeat (eapply (gives_bind _ _ (λ _, True)); [first [apply Hs | by case_decide; [|apply Hs]]|]; intros ? _).
    destruct (negb _); [done|]. eapply (gives_bind _ _ (λ _, True)); [apply Hs|]. intros _ _. by apply gives_validated.
Qed.

End outcomes.

(** ** The backends together *)

Section stack.
Context `{WS : Watch State} {WL : WatchLaws State} {TlsConfig RouteHook Custom : Type}.
Context (base64_encode : list Z → string) (from_str : string → Result string PathAndQuery).
Context (from_parts : Uri → Result string Uri) (build : DohRequest → Result string DohRequest) (status_text : Z → string).

(** The implementations of the [UpstreamBackend] trait: the six of the crate,
    and others. *)
Inductive Upstream : Type :=
  | Udp (b : UdpBackend)
  | Tcp (b : TcpBackend)
  | Dot (b : DotBackend (TlsConfig:=TlsConfig))
  | Doq (b : DoqBackend (TlsConfig:=TlsConfig))
  | Doh (b : DohBackend (TlsConfig:=TlsConfig))
  | Doh3 (b : Doh3Backend (TlsConfig:=TlsConfig))
  | Other (b : Custom).

(** What one query meets, whichever backend it goes to: sockets and
    connections, and the attempts on pooled ones. *)
Record Network : Type := mkNetwork {
  n_bound : SocketAddr → SocketAddr → Result Error UdpSocket;
  n_connected : SocketAddr → Result Error Stream;
  n_tcp_connect : SocketAddr → Z → Timed string unit;
  n_tls_connect : string → TlsConfig → bool → Z → Timed Chain Stream;
  n_attempt : bool → Attempt;
  n_doq_attempt : bool → DoqAttempt;
  n_doq_opened : Result Error Stream;
  n_admitted : Result Error unit;
  n_sent : bool → Timed HyperError HttpReply;
  n_request : DohRequest → Timed Chain HttpReply;
  n_h3_attempt : bool → H3Attempt;
  n_h3_connecting : H3Connecting;
  n_h3_stream : H3Stream;
  n_late : bool;
}.

Definition upstream_resolve (n : Network) (b : Upstream) (query : Message) : Run Error Message :=
  let request := build_doh_request base64_encode from_str from_parts build in
  match b with
  | Udp b => udp_resolve (n_bound n) (n_connected n) b query
  | Tcp b => tcp_resolve (n_connected n) (n_attempt n) (n_late n) b query
  | Dot b => dot_resolve (n_tcp_connect n) (n_tls_connect n) (n_attempt n) (n_late n) b query
  | Doq b => doq_resolve b (n_doq_attempt n) (n_late n) (n_doq_opened n) query
  | Doh b =>
      let c := db_config b in
      doh_resolve status_text b (n_admitted n) (n_sent n) (n_late n) (request (doh_uri c) (doh_method c) query)
        (λ c, doh_resolve_unpooled base64_encode from_str from_parts build status_text c (n_request n)) query
  | Doh3 b =>
      let c := h3_config b in
      doh3_resolve status_text b (n_h3_attempt n) (n_late n) (n_h3_connecting n) (n_h3_stream n)
        (request (h3_uri c) (h3_method c) query) query
  | Other _ => Throw NoRoute
  end.

(** Everything the network hands over is among the byte strings [N]. *)
Record network_ok (N : list Z → Prop) (n : Network) : Prop := {
  no_bound a1 a2 s : n_bound n a1 a2 = Ok s → socket_from N s;
  no_connected a s : n_connected n a = Ok s → stream_from N s;
  no_tls name tls nodelay t s : n_tls_connect n name tls nodelay t = Completed (Ok s) → stream_from N s;
  no_attempt fresh : attempt_from N (n_attempt n fresh);
  no_doq_attempt fresh : doq_from N (n_doq_attempt n fresh);
  no_doq_opened s : n_doq_opened n = Ok s → stream_from N s;
  no_sent retried r : n_sent n retried = Completed (Ok r) → reply_from N r;
  no_request req r : n_request n req = Completed (Ok r) → reply_from N r;
  no_h3_attempt fresh : h3_from N (ha_stream (n_h3_attempt n fresh));
  no_h3_stream : h3_from N (n_h3_stream n);
}.

Lemma upstream_gives (N : list Z → Prop) n b query :
  (∀ bytes, N bytes → bytes_ok bytes) → network_ok N n → wf_message query →
  gives N (upstream_resolve n b query) (reply_to query).
Proof.
  intros HN [] Hq. destruct b as [b|b|b|b|b|b|b]; cbn [upstream_resolve]; [..|done].
  - by apply gives_udp.
  - by apply gives_tcp_backend.
  - by apply gives_dot.
  - by apply gives_doq.
  - apply gives_doh; [done..|]. intros c. by apply gives_doh_unpooled.
  - by apply gives_doh3.
Qed.

(** While a query waits for the network ([during]) others run and the network
    goes on; [rest] is the world without the six backends, with the custom
    ones. *)
Context (during : Upstream → Message → M unit) (net : Upstream → Message → St → Network).

Definition stack_world (rest : World Custom RouteHook) : World Upstream RouteHook :=
  mkWorld (store_hash rest) (flight_hash rest) (sizes rest) (EngineState.runtime rest)
    (λ b query,
      match b with
      | Other b => backend_resolve rest b query
      | _ => during b query;; n ← gets (net b query); run (catch (upstream_resolve n b query))
      end)
    (hook_select rest) (follower_wait rest).

Lemma gives_quiet (N : list Z → Prop) max_bytes id hang (r : Run Error Message) (P : Message → Prop) :
  (stuck N → hang) → gives N r P → quiet max_bytes id hang (run (catch r)) (λ x, ∀ m, x = Ok m → P m).
Proof.
  intros Hh Hr s Hs. destruct r as [m|e| |]; cbn in Hr; [left|left|done|right].
  - exists (Ok m), s, []. rewrite app_nil_r. split_and!; [done..|]. by intros ? [= <-].
  - exists (Err e), s, []. rewrite app_nil_r. by split_and!.
  - split; [done|]. by apply Hh.
Qed.

Lemma stack_world_ok (N : list Z → Prop) rest max_bytes id (hang : Prop) :
  (∀ bytes, N bytes → bytes_ok bytes) → (stuck N → hang) →
  (∀ b query, quiet max_bytes id hang (during b query) (λ _, True)) → (∀ b query s, network_ok N (net b query s)) →
  world_ok rest max_bytes id hang → world_ok (stack_world rest) max_bytes id hang.
Proof.
  intros HN Hh Hd Hn [H1 H2 H3 H4]. split; [done| |done|done]. intros b query Hq. cbn [stack_world backend_resolve].
  assert (H : quiet max_bytes id hang (during b query;; n ← gets (net b query); run (catch (upstream_resolve n b query)))
    (λ r, ∀ m, r = Ok m → reply_to query m)); [|by destruct b; [..|apply H2]].
  eapply quiet_bind; [apply Hd|]. intros _ _. eapply quiet_bind; [apply quiet_gets|]. intros n (s & _ & ->).
  eapply gives_quiet; [done|]. by apply upstream_gives.
Qed.
End stack.

(** C34: A server over the resolver and its backends answers what reaches it, and
    nothing else. The resolver's configuration is any, with a sink or without
    one, whose minimum TTLs and stale reply TTL are below 2^31 and whose failure
    recheck is at most 2^32-1 seconds ([cfg_ok]; the builder takes larger
    rechecks, on which the resolver can panic: [recheck_overflow]). The backends
    are the six of the crate, over a network that may do anything but deliver what
    is no byte, and custom ones that, with the hooks, keep to their traits'
    documentation. Whatever datagrams, connections, requests and streams arrive,
    well formed or not, and in whatever order the tasks run, no handler and no
    backend panics and the resolver stays sound. Every UDP datagram sent
    decodes to a reply (its id, [QR], its questions) to a query received from
    that address; every served stream carries one reply to each query taken off
    it, in the order of the queries; every HTTP response with status 200 carries
    a reply to the query of its request. A task fails to finish only if a custom
    backend, a hook or the leader of a flight never settles, or a message that
    reached the server or that the network delivered to a backend makes the
    decoder loop. *)
Theorem stack_sound `{WS : Watch State} {WL : WatchLaws State}
    {TlsConfig RouteHook Custom Resolver Tls UdpSock TcpSock Endpoint : Type}
    base64_encode from_str from_parts build status_text during net (rest : World Custom RouteHook)
    (cfg : Config (Upstream (TlsConfig:=TlsConfig) (Custom:=Custom)) RouteHook) fuel
    base64_decode max_bytes (hang : Prop) (N : list Z → Prop) (srv : Server Resolver Tls UdpSock TcpSock Endpoint) s es :
  cfg_ok cfg → 0 < fuel →
  (∀ bytes, N bytes → bytes_ok bytes) → (∀ b query s, network_ok N (net b query s)) →
  (∀ id b query, quiet max_bytes id (hang ∨ stuck N) (during b query) (λ _, True)) →
  (∀ id, world_ok rest max_bytes id (hang ∨ stuck N)) →
  (∀ text bytes, base64_decode text = Some bytes → bytes_ok bytes) → is_u16 (srv_edns_size srv) →
  Forall event_bytes es → engine_ok max_bytes s →
  let w := stack_world base64_encode from_str from_parts build status_text during net rest in
  let run := serve_events (Resolve.resolve cfg w fuel) base64_decode (srv_edns_size srv) (serve srv s) es in
  (∃ v, run = Ret v ∧ engine_ok max_bytes (sv_state v) ∧ Forall (answered base64_decode es) (sv_out v)) ∨
  (run = Hang ∧ blocked base64_decode (hang ∨ stuck N) es).
Proof.
  intros Hc Hf HN Hnet Hd Hrest Hb64 Hm Hes Hs w run. eapply server_sound; try done.
  intros id. apply (stack_world_ok _ _ _ _ _ _ _ N); try done; by right.
Qed.

(** A server with one UDP socket over two backends: the pooled TCP one has no
    connection, the UDP one gets an answer. *)
Section example.
#[local] Instance example_watch : Watch State := counted_watch State.
#[local] Instance example_laws : WatchLaws State := counted_watch_laws State.

Definition example_network : Network (TlsConfig:=unit) :=
  mkNetwork (λ _ _, Ok example_socket) (λ _, Err Timeout) (λ _ _, Elapsed) (λ _ _ _ _, Elapsed)
    (λ _, mkAttempt (Err Timeout) (Ok (0, 0)%Z) WTimeout false false)
    (λ _, mkDoqAttempt (Err Timeout) Elapsed (mkDoqConn None None false)) (Err Timeout)
    (Err Timeout) (λ _, Elapsed) (λ _, Elapsed)
    (λ _, mkH3Attempt (Err Timeout) (mkH3Stream Elapsed Elapsed Elapsed Elapsed [] Elapsed) (mkDoh3Conn None false None false))
    (mkH3Connecting (Ok tt) (Ok tt) (Ok Elapsed) Elapsed) (mkH3Stream Elapsed Elapsed Elapsed Elapsed [] Elapsed) false.

Lemma example_network_ok : network_ok bytes_ok example_network.
Proof.
  split; try done; try by constructor.
  intros a1 a2 s [= <-]. apply Forall_singleton. apply (bool_decide_unpack _). by vm_compute.
Qed.

Definition example_rest : World Empty_set unit :=
  mkWorld (λ _, 0%Z) (λ _, 0%Z) store_sizes true (λ (b : Empty_set) _, match b with end)
    (λ _ _ _ s, Ret (Ok None, s)) (λ _ _ s, Ret (Some (WDone (Flight.Failed Timeout)), s)).

Lemma example_rest_ok max_bytes id hang : world_ok example_rest max_bytes id hang.
Proof.
  split; [apply store_sizes_ok|by intros []|by intros h q g; apply example_quiet|].
  intros c t. apply example_quiet. split_and!; [done|done|by intros o [= <-]].
Qed.

Definition example_stack : Config (Upstream (TlsConfig:=unit) (Custom:=Empty_set)) unit :=
  build_config (resolver_with (Tcp (tcp_new (mkTcpConfig (V4 16843009, 53%Z) 1000 1000)))
                  (Udp (udp_new (mkUdpConfig (V4 16843009, 53%Z) 1000 None)))).

Definition example_stack_world : World (Upstream (TlsConfig:=unit) (Custom:=Empty_set)) unit :=
  stack_world (λ _, EmptyString) (λ _, Err EmptyString) Ok Ok (λ _, EmptyString) (λ _ _, mret ()) (λ _ _ _, example_network) example_rest.

(** The upstream's answer with an OPT record like the query's. *)
Definition example_answer : Message :=
  set_edns Transport.example_reply (Some (set_dnssec_ok (edns_new 1232) true)).

Lemma stack_sound_witness :
  ∃ v, serve_events (Resolve.resolve example_stack example_stack_world 3) (λ _, None) 1232
         (serve example_server example_state) example_events = Ret v ∧
    engine_ok 200000 (sv_state v) ∧ sv_out v = [UdpSent 7 (V4 1, 5353%Z) (encoded example_answer)] ∧
    Forall (answered (λ _, None) example_events) (sv_out v).
Proof.
  assert (Hes : Forall event_bytes example_events).
  { assert (bytes_ok (encoded example_query)) as Hq by (apply (bool_decide_unpack _); vm_compute; exact I).
    unfold example_events. rewrite !Forall_cons. split_and!; [exact Hq|exact I|exact I|by apply Forall_nil|by apply Forall_nil]. }
  destruct (stack_sound (λ _, EmptyString) (λ _, Err EmptyString) Ok Ok (λ _, EmptyString) (λ _ _, mret ())
    (λ _ _ _, example_network) example_rest example_stack 3 (λ _, None) 200000 False bytes_ok example_server example_state
    example_events (config_with_ok _ _) ltac:(lia) ltac:(done) ltac:(intros; exact example_network_ok)
    ltac:(intros; by apply example_quiet) ltac:(intros; apply example_rest_ok) ltac:(done) ltac:(cbn; lia) Hes
    example_engine_ok) as [(v & E & Hv & Ho)|[E _]]; [|exfalso; vm_compute in E; discriminate E].
  change (serve_events (Resolve.resolve example_stack example_stack_world 3) (λ _, None) 1232
    (serve example_server example_state) example_events = Ret v) in E.
  exists v. split; [exact E|]. split; [exact Hv|]. split; [|exact Ho].
  enough (match serve_events (Resolve.resolve example_stack example_stack_world 3) (λ _, None) 1232
    (serve example_server example_state) example_events with Ret v => sv_out v | _ => [] end =
    [UdpSent 7 (V4 1, 5353%Z) (encoded example_answer)]) as H by by rewrite E in H.
  vm_compute. reflexivity.
Defined.
End example.
