(* ===== verification/Wire.v ===== *)
(** * The benchmark's own wire handling

    Models [bench/resolver/src/wire.rs], the DNS wire code of the benchmark
    upstream, which by design shares nothing with the library: parsing a query,
    building a query, and building the response a query's name selects. A [&str]
    is the list of its bytes. Proved in WireSpec.v: both agree with the codec of
    Message.v. *)

From stdpp Require Import base numbers list strings pretty.
From S2P Require Import Prelude Name.

Definition HEADER_LEN : nat := 12.
Definition TYPE_A : Z := 1.
Definition TYPE_SOA : Z := 6.
Definition TYPE_TXT : Z := 16.
Definition TYPE_AAAA : Z := 28.
Definition TYPE_OPT : Z := 41.
Definition CLASS_IN : Z := 1.
Definition RCODE_NOERROR : Z := 0.
Definition RCODE_NXDOMAIN : Z := 3.
Definition RCODE_REFUSED : Z := 5.
Definition MIN_UDP_PAYLOAD : Z := 512.
Definition EDNS_PAYLOAD : Z := 1232.
Definition A_ADDR : list Z := [192; 0; 2; 1]%Z.
Definition AAAA_ADDR : list Z := [32; 1; 13; 184; 0; 0; 0; 0; 0; 0; 0; 0; 0; 0; 0; 1]%Z.
Definition TXT_STRINGS : nat := 5.
Definition TXT_STRING_LEN : nat := 220.
Definition FLAG_QR : Z := 32768.
Definition FLAG_AA : Z := 1024.
Definition FLAG_TC : Z := 512.
Definition FLAG_RD : Z := 256.
Definition FLAG_RA : Z := 128.
Definition QNAME_POINTER : list Z := [192; 12]%Z.
Definition MAX_NAME_LEN : nat := 255.
Definition MAX_LABEL_LEN : nat := 63.

(** The bytes of an ASCII literal. *)
Definition bytes_of (s : string) : list Z := map (λ c, Z.of_N (Ascii.N_of_ascii c)) (String.list_ascii_of_string s).

Definition ZONE : string := "bench.test".

(** ** The query mix *)

Inductive WireAnswer : Type :=
  | AnswerA (count : Z)
  | AnswerAaaa
  | AnswerTxt
  | AnswerNxDomain
  | AnswerRefused.

Inductive Mix : Type :=
  | MixA
  | MixAaaa
  | MixTxt
  | MixNx.

Definition mix_all : list Mix := [MixA; MixAaaa; MixTxt; MixNx].

Definition mix_as_str (m : Mix) : string :=
  match m with MixA => "a" | MixAaaa => "aaaa" | MixTxt => "txt" | MixNx => "nx" end.

Definition mix_qtype (m : Mix) : Z :=
  match m with MixA | MixNx => TYPE_A | MixAaaa => TYPE_AAAA | MixTxt => TYPE_TXT end.

(** [format!("{}-{worker}-{index}.{ZONE}.")] *)
Definition mix_fqdn (m : Mix) (worker index : N) : string :=
  (mix_as_str m +:+ "-" +:+ pretty worker +:+ "-" +:+ pretty index +:+ "." +:+ ZONE +:+ ".")%string.

Definition mix_from_prefix (prefix : list Z) : option Mix :=
  List.find (λ m, eq_ignore_ascii_case prefix (bytes_of (mix_as_str m))) mix_all.

Definition mix_parse (name : list Z) : option Mix := mix_from_prefix name.

Definition hyphen : Z := 45.

(** The first part of [label.split(|b| b == b'-')]. *)
Fixpoint before_hyphen (label : list Z) : list Z :=
  match label with
  | [] => []
  | b :: label => if decide (b = hyphen) then [] else b :: before_hyphen label
  end.

Definition mix_from_first_label (label : list Z) : option Mix := mix_from_prefix (before_hyphen label).

Definition mix_answer (m : Mix) : WireAnswer :=
  match m with MixA => AnswerA 1 | MixAaaa => AnswerAaaa | MixTxt => AnswerTxt | MixNx => AnswerNxDomain end.

Inductive WireTransport : Type :=
  | OverUdp
  | OverStream.

#[export] Instance wire_transport_eq_dec : EqDecision WireTransport.
Proof. solve_decision. Defined.

Record ResponseConfig : Type := mkResponseConfig {
  rc_ttl : Z;
  rc_transport : WireTransport;
}.

Inductive WireError : Type :=
  | WTruncated
  | NotAQuery
  | QuestionCount (count : Z)
  | CompressedName
  | WLabelTooLong
  | EmptyLabel
  | WNameTooLong
  | UnsupportedSection
  | TrailingBytes.

Definition wire_error_fmt (e : WireError) : string :=
  match e with
  | WTruncated => "message is truncated"
  | NotAQuery => "message is a response, not a query"
  | QuestionCount count => "QDCOUNT is " +:+ pretty count +:+ ", expected 1"
  | CompressedName => "query name is compressed"
  | WLabelTooLong => "label is longer than 63 bytes"
  | EmptyLabel => "name has an empty label"
  | WNameTooLong => "name is longer than 255 bytes"
  | UnsupportedSection => "only a single OPT record may follow the question"
  | TrailingBytes => "bytes follow the last record"
  end%string.

(** ** Parsing a query *)

Record WireQuery : Type := mkWireQuery {
  wq_id : Z;
  wq_opcode : Z;
  wq_recursion_desired : bool;
  wq_edns_payload : option Z;
  question : list Z;
  qname_len : nat;
}.

Definition qname (q : WireQuery) : Run WireError (list Z) := slice (question q) 0 (qname_len q).

Definition first_label (q : WireQuery) : Run WireError (list Z) :=
  len ← index (question q) 0; slice (question q) 1 (1 + Z.to_nat len).

Definition wire_qtype (q : WireQuery) : Run WireError Z :=
  a ← index (question q) (qname_len q); b ← index (question q) (qname_len q + 1); Ret (from_be [a; b]).
Definition wire_qclass (q : WireQuery) : Run WireError Z :=
  a ← index (question q) (qname_len q + 2); b ← index (question q) (qname_len q + 3); Ret (from_be [a; b]).

(** [bytes.get(pos..pos + 2)] *)
Definition wire_read_u16 (bytes : list Z) (pos : nat) : Run WireError Z :=
  match drop pos bytes with
  | a :: b :: _ => Ret (from_be [a; b])
  | _ => Throw WTruncated
  end.

Definition get_byte (bytes : list Z) (pos : nat) : Run WireError Z :=
  match bytes !! pos with Some b => Ret b | None => Throw WTruncated end.

(** The loop over the labels of the query name, from [start]: the position
    after it. Every round moves on, so the buffer's length is fuel enough. *)
Fixpoint qname_end (fuel : nat) (bytes : list Z) (start pos : nat) : Run WireError nat :=
  match fuel with
  | O => Hang
  | S fuel =>
      len ← get_byte bytes pos;
      if decide (Z.land len 192 = 192)%Z then Throw CompressedName
      else if decide (MAX_LABEL_LEN < Z.to_nat len) then Throw WLabelTooLong
      else
        let pos := pos + (1 + Z.to_nat len) in
        if decide (MAX_NAME_LEN < pos - start) then Throw WNameTooLong
        else if decide (len = 0)%Z then Ret pos
        else qname_end fuel bytes start pos
  end.

(** The single OPT record at [pos]: its payload size and the position after it. *)
Definition parse_opt (bytes : list Z) (pos : nat) : Run WireError (Z * nat) :=
  owner ← get_byte bytes pos;
  rtype ← (if decide (owner ≠ 0)%Z then Throw UnsupportedSection else wire_read_u16 bytes (pos + 1));
  if decide (rtype ≠ TYPE_OPT) then Throw UnsupportedSection
  else
    payload ← wire_read_u16 bytes (pos + 3);
    rdlen ← wire_read_u16 bytes (pos + 9);
    let pos := pos + (11 + Z.to_nat rdlen) in
    if decide (length bytes < pos) then Throw WTruncated else Ret (payload, pos).

Definition parse_query (bytes : list Z) : Run WireError WireQuery :=
  if decide (length bytes < HEADER_LEN) then Throw WTruncated
  else
    i ← wire_read_u16 bytes 0;
    flags ← wire_read_u16 bytes 2;
    if decide (Z.land flags FLAG_QR ≠ 0)%Z then Throw NotAQuery
    else
      qdcount ← wire_read_u16 bytes 4;
      ancount ← wire_read_u16 bytes 6;
      nscount ← wire_read_u16 bytes 8;
      arcount ← wire_read_u16 bytes 10;
      if decide (qdcount ≠ 1)%Z then Throw (QuestionCount qdcount)
      else if decide (ancount ≠ 0 ∨ nscount ≠ 0 ∨ 1 < arcount)%Z then Throw UnsupportedSection
      else
        let start := HEADER_LEN in
        pos ← qname_end (S (length bytes)) bytes start start;
        let qname_len := pos - start in
        if decide (length bytes < pos + 4) then Throw WTruncated
        else
          let pos := pos + 4 in
          question ← slice bytes start pos;
          '(edns_payload, pos) ←
            (if decide (arcount = 1)%Z then '(payload, pos) ← parse_opt bytes pos; Ret (Some payload, pos)
             else Ret (None, pos));
          if decide (pos ≠ length bytes) then Throw TrailingBytes
          else
            Ret (mkWireQuery i (Z.land (Z.shiftr flags 11) 15) (bool_decide (Z.land flags FLAG_RD ≠ 0)%Z) edns_payload
                   question qname_len).

(** ** Building a query *)

Definition put_u16 (buf : list Z) (v : Z) : list Z := buf ++ to_be 2 v.

Fixpoint put_labels (parts : list (list Z)) (buf : list Z) : Result WireError (list Z) :=
  match parts with
  | [] => Ok buf
  | label :: parts =>
      if decide (label = []) then Err EmptyLabel
      else if decide (MAX_LABEL_LEN < length label) then Err WLabelTooLong
      else put_labels parts (buf ++ [Z.of_nat (length label)] ++ label)
  end.

Definition wire_encode_name (name : list Z) (buf : list Z) : Result WireError (list Z) :=
  let start := length buf in
  let trimmed := strip_trailing_dot name in
  buf ← (if decide (trimmed = []) then Ok buf else put_labels (split_dots trimmed) buf);
  let buf := buf ++ [0]%Z in
  if decide (MAX_NAME_LEN < length buf - start) then Err WNameTooLong else Ok buf.

Definition put_opt (buf : list Z) (payload : Z) : list Z :=
  put_u16 (put_u16 (put_u16 (buf ++ [0]%Z) TYPE_OPT) payload ++ [0; 0; 0; 0]%Z) 0.

Definition encode_query (i : Z) (name : list Z) (qt : Z) (edns_payload : option Z) : Result WireError (list Z) :=
  let buf := put_u16 [] i in
  let buf := put_u16 buf FLAG_RD in
  let buf := put_u16 buf 1 in
  let buf := put_u16 buf 0 in
  let buf := put_u16 buf 0 in
  let buf := put_u16 buf (if edns_payload is Some _ then 1 else 0) in
  buf ← wire_encode_name name buf;
  let buf := put_u16 buf qt in
  let buf := put_u16 buf CLASS_IN in
  Ok (match edns_payload with Some payload => put_opt buf payload | None => buf end).

(** ** Building a response *)

Definition udp_limit (edns_payload : option Z) : Z :=
  match edns_payload with Some payload => Z.max payload MIN_UDP_PAYLOAD | None => MIN_UDP_PAYLOAD end.

(** [Result::expect] *)
Definition expect {A} (r : Result WireError A) : Run WireError A := match r with Ok a => Ret a | Err _ => Panic end.

Definition put_record (buf owner : list Z) (rtype ttl : Z) (rdata : list Z) : Run WireError (list Z) :=
  if decide (Z.of_nat (length rdata) ≤ u16_max)%Z
  then Ret (put_u16 (put_u16 (put_u16 (buf ++ owner) rtype) CLASS_IN ++ to_be 4 ttl) (Z.of_nat (length rdata)) ++ rdata)
  else Panic.

Definition txt_string (s : nat) : list Z :=
  Z.of_nat TXT_STRING_LEN :: map (λ byte, 97 + (Z.of_nat (s * 7 + byte)) mod 26)%Z (seq 0 TXT_STRING_LEN).

Definition txt_rdata : list Z := concat (map txt_string (seq 0 TXT_STRINGS)).

Definition soa_rdata (minimum : Z) : Run WireError (list Z) :=
  rdata ← expect (wire_encode_name (bytes_of "ns.bench.test") []);
  rdata ← expect (wire_encode_name (bytes_of "hostmaster.bench.test") rdata);
  Ret (rdata ++ concat (map (to_be 4) [1; 3600; 600; 86400; minimum]%Z)).

(** The A records for the offsets from [offset] on. *)
Fixpoint put_addresses (n : nat) (offset : Z) (ttl : Z) (buf : list Z) : Run WireError (list Z) :=
  match n with
  | O => Ret buf
  | S n =>
      let addr := take 3 A_ADDR ++ [((List.nth 3 A_ADDR 0 + offset) mod 256)%Z] in
      buf ← put_record buf QNAME_POINTER TYPE_A ttl addr;
      put_addresses n (offset + 1) ttl buf
  end.

Definition answer_rcode (answer : WireAnswer) : Z :=
  match answer with AnswerNxDomain => RCODE_NXDOMAIN | AnswerRefused => RCODE_REFUSED | _ => RCODE_NOERROR end.

Definition answer_counts (answer : WireAnswer) (cut : bool) : Z * Z :=
  if cut then (0, 0)%Z
  else match answer with
       | AnswerA count => (count, 0)%Z
       | AnswerAaaa | AnswerTxt => (1, 0)%Z
       | AnswerNxDomain => (0, 1)%Z
       | AnswerRefused => (0, 0)%Z
       end.

Definition put_answer (answer : WireAnswer) (ttl : Z) (buf : list Z) : Run WireError (list Z) :=
  match answer with
  | AnswerA count => put_addresses (Z.to_nat count) 0 ttl buf
  | AnswerAaaa => put_record buf QNAME_POINTER TYPE_AAAA ttl AAAA_ADDR
  | AnswerTxt => put_record buf QNAME_POINTER TYPE_TXT ttl txt_rdata
  | AnswerNxDomain =>
      owner ← expect (wire_encode_name (bytes_of ZONE) []);
      soa ← soa_rdata ttl;
      put_record buf owner TYPE_SOA ttl soa
  | AnswerRefused => Ret buf
  end.

Definition build_response (q : WireQuery) (answer : WireAnswer) (ttl : Z) (cut : bool) : Run WireError (list Z) :=
  let '(ancount, nscount) := answer_counts answer cut in
  let flags := Z.lor (Z.lor (Z.lor FLAG_QR FLAG_AA) FLAG_RA) (Z.shiftl (wq_opcode q) 11 mod 65536) in
  let flags := Z.lor flags (answer_rcode answer) in
  let flags := if wq_recursion_desired q then Z.lor flags FLAG_RD else flags in
  let flags := if cut then Z.lor flags FLAG_TC else flags in
  let buf := put_u16 [] (wq_id q) in
  let buf := put_u16 buf flags in
  let buf := put_u16 buf 1 in
  let buf := put_u16 buf ancount in
  let buf := put_u16 buf nscount in
  let buf := put_u16 buf (if wq_edns_payload q is Some _ then 1 else 0) in
  let buf := buf ++ question q in
  buf ← (if cut then Ret buf else put_answer answer ttl buf);
  Ret (if wq_edns_payload q is Some _ then put_opt buf EDNS_PAYLOAD else buf).

Definition respond_with (q : WireQuery) (answer : WireAnswer) (config : ResponseConfig) : Run WireError (list Z) :=
  full ← build_response q answer (rc_ttl config) false;
  if decide (rc_transport config = OverUdp ∧ udp_limit (wq_edns_payload q) < Z.of_nat (length full))%Z
  then build_response q answer (rc_ttl config) true
  else Ret full.

Definition respond (q : WireQuery) (config : ResponseConfig) : Run WireError (list Z) :=
  label ← first_label q;
  respond_with q (match mix_from_first_label label with Some m => mix_answer m | None => AnswerRefused end) config.

(** ** Fixtures *)

Definition fixture_cases : list (string * Mix * WireAnswer) :=
  [("a", MixA, AnswerA 1); ("aaaa", MixAaaa, AnswerAaaa); ("a10", MixA, AnswerA 10); ("txt", MixTxt, AnswerTxt);
   ("nxdomain", MixNx, AnswerNxDomain)]%string.

(** The same for what a parse returns. *)
Definition expect_parsed {A} (r : Run WireError A) : Run WireError A := match r with Throw _ => Panic | r => r end.

Definition codec_fixture (case : string * Mix * WireAnswer) : Run WireError (string * list Z) :=
  let '(name, mix, answer) := case in
  query ← expect (encode_query 4660 (bytes_of (mix_fqdn mix 0 0)) (mix_qtype mix) (Some EDNS_PAYLOAD));
  parsed ← expect_parsed (parse_query query);
  bytes ← respond_with parsed answer (mkResponseConfig 300 OverStream);
  Ret (name, bytes).

Definition codec_fixtures : Run WireError (list (string * list Z)) :=
  (fix go cases := match cases with
     | [] => Ret []
     | case :: cases => f ← codec_fixture case; fs ← go cases; Ret (f :: fs)
     end) fixture_cases.
