(* ===== verification/WireSpec.v ===== *)
(** * The benchmark's wire code against the codec

    Wire.v is written without the library, so that both contestants of the
    benchmark decode the same bytes. Here it is put against Message.v: the names
    it encodes, the queries it builds, the queries it parses and the responses it
    builds are exactly those of the codec. *)

From stdpp Require Import base numbers list strings pretty.
From S2P Require Import Prelude CoreError Name RecordData Edns Header Message Transport Wire.

(** ** Names *)

Lemma put_labels_ok parts ls : ∀ buf,
  parts_to_labels parts = Ok ls → put_labels parts buf = Ok (buf ++ labels_wire ls) ∧ ls = parts.
Proof.
  revert ls. induction parts as [|p parts IH]; intros ls buf H; cbn [parts_to_labels put_labels] in *.
  { injection H as <-. by rewrite app_nil_r. }
  case_decide; [done|]. case_decide; [|done]. case_decide as Hl; [done|].
  apply result_bind_ok in H as (rest & Hr & H). injection H as <-. unfold MAX_LABEL_LEN. rewrite decide_False by done.
  destruct (IH rest (buf ++ [Z.of_nat (length p)] ++ p) Hr) as [-> ->]. split; [|done].
  unfold labels_wire. cbn [map concat]. by rewrite <-!app_assoc.
Qed.

Lemma strip_trailing_dot_nil s : strip_trailing_dot s = [] → s = [] ∨ s = [dot].
Proof.
  unfold strip_trailing_dot. case_decide as Hl; [|auto]. intros H. right.
  apply last_Some in Hl as (l & ->). rewrite length_app in H. cbn [length] in H.
  replace (length l + 1 - 1) with (length l) in H by lia. by rewrite take_app_length in H; subst.
Qed.

(** [encode_name] appends the wire form of the name the library parses. *)
Lemma wire_encode_name_ok s n buf :
  from_ascii s = Ok n → wire_encode_name s buf = Ok (buf ++ name_wire n).
Proof.
  intros H. unfold wire_encode_name, MAX_NAME_LEN. cbv zeta.
  assert (Hend : ∀ n, total_length n ≤ 255 →
    (if decide (255 < length ((buf ++ labels_wire (labels n)) ++ [0%Z]) - length buf) then Err WNameTooLong
     else Ok ((buf ++ labels_wire (labels n)) ++ [0%Z])) = Ok (buf ++ name_wire n)).
  { intros m Hm. rewrite <-app_assoc. fold (name_wire m). rewrite length_app, length_name_wire, decide_False by lia. done. }
  unfold from_ascii in H. case_decide as Hroot.
  - injection H as <-. assert (strip_trailing_dot s = []) as -> by by destruct Hroot as [->| ->].
    rewrite decide_True by done. cbn [mbind result_bind]. rewrite <-(Hend root) by (cbn; lia). cbn [labels root labels_wire map concat].
    by rewrite app_nil_r.
  - case_decide as Ht; [done|].
    apply result_bind_ok in H as (ls & Hls & H). apply result_bind_ok in H as ([] & Hc & H). injection H as <-.
    destruct (put_labels_ok _ _ buf Hls) as [-> _]. cbn [mbind result_bind]. apply (Hend (mkName ls)).
    by apply check_total_length_ok.
Qed.

Lemma put_labels_accepts parts : ∀ buf out,
  Forall (Forall (λ b, b < 128)%Z) parts → put_labels parts buf = Ok out → ∃ ls, parts_to_labels parts = Ok ls.
Proof.
  induction parts as [|p parts IH]; intros buf out Ha H; cbn [parts_to_labels put_labels] in *; [eauto|].
  apply Forall_cons in Ha as [Hp Ha]. case_decide; [done|]. rewrite decide_True by done. unfold MAX_LABEL_LEN in H.
  case_decide; [done|]. destruct (IH _ _ Ha H) as (ls & ->). cbn [mbind result_bind]. eauto.
Qed.

Lemma split_dots_forall (P : Z → Prop) s : Forall P s → Forall (Forall P) (split_dots s).
Proof.
  induction 1 as [|c s Hc _ IH]; cbn [split_dots]; [by repeat constructor|].
  case_decide; [by constructor|]. destruct IH as [|seg segs Hseg IH]; [by repeat constructor|]. by repeat constructor.
Qed.

(** An ASCII name is accepted by both or by neither. *)
Lemma wire_encode_name_accepts s buf out :
  Forall (λ b, b < 128)%Z s → wire_encode_name s buf = Ok out → ∃ n, from_ascii s = Ok n.
Proof.
  intros Ha H. unfold wire_encode_name in H. cbv zeta in H. unfold from_ascii.
  destruct (decide (s = [] ∨ s = [dot])) as [|Hroot]; [eauto|].
  destruct (decide (strip_trailing_dot s = [])) as [Ht|Ht]; [exfalso; by apply Hroot, strip_trailing_dot_nil|].
  apply result_bind_ok in H as (buf' & Hb & H).
  assert (Hs : Forall (λ b, b < 128)%Z (strip_trailing_dot s)).
  { unfold strip_trailing_dot. destruct (decide (last s = Some dot)); [by apply Forall_take|done]. }
  destruct (put_labels_accepts _ _ _ (split_dots_forall _ _ Hs) Hb) as (ls & Hls). rewrite Hls. cbn [mbind result_bind].
  destruct (put_labels_ok _ _ buf Hls) as [Hp _]. rewrite Hp in Hb. injection Hb as <-.
  unfold MAX_NAME_LEN in H. case_decide as Hl; [done|].
  rewrite <-app_assoc, length_app in Hl. change (labels_wire ls ++ [0%Z]) with (name_wire (mkName ls)) in Hl.
  rewrite length_name_wire in Hl. rewrite (proj2 (check_total_length_ok (mkName ls))) by lia. cbn. eauto.
Qed.

Lemma many_wire_single {A} (wire : A → list Z) x : many_wire wire [x] = wire x.
Proof. apply app_nil_r. Qed.

(** ** Building a query *)

(** The OPT record of a query or response without options. *)
Definition opt_records (payload : option Z) : list ResourceRecord := option_list (to_record ∘ edns_new <$> payload).

Definition query_message (i : Z) (n : Name) (qt : Z) (payload : option Z) : Message :=
  mkMessage (mkHeader i false Query false false true false NoError) [mkQuestion n (type_from_u16 qt) In] [] []
    (opt_records payload).

Definition is_payload (payload : option Z) : Prop := match payload with Some p => is_u16 p | None => True end.

Lemma wf_opt_records payload : is_payload payload → Forall wf_rr (opt_records payload).
Proof.
  destruct payload as [p|]; [|constructor]. cbn. intros Hp. constructor; [|constructor].
  apply wf_to_record. repeat split; cbn; try lia. constructor.
Qed.

Lemma wf_query_message i n qt payload :
  is_u16 i → wf_name n → is_u16 qt → is_payload payload → wf_message (query_message i n qt payload).
Proof.
  intros Hi Hn Hq Hp. split; [done|]. split.
  { constructor; [|constructor]. split; [done|]. split; [by apply wf_type_from|done]. }
  split; [constructor|]. split; [constructor|]. by apply wf_opt_records.
Qed.

(** The eleven bytes of that record. *)
Lemma put_opt_wire buf p : is_u16 p → put_opt buf p = buf ++ rr_wire (to_record (edns_new p)).
Proof.
  intros Hp. unfold put_opt, put_u16. rewrite <-!app_assoc. f_equal. unfold rr_wire, rr_rest, to_record.
  cbn [edns_new udp_payload_size extended_rcode version dnssec_ok options rr_name rr_rdata rr_class rr_ttl record_type
    type_to_u16 options_data map concat rdata_wire length name_wire labels_wire labels root app].
  rewrite (proj2 (wf_opt_class_opt _ Hp)). change (Z.lor (Z.shiftl 0 24) (Z.shiftl 0 16)) with 0%Z.
  change (to_be 4 0) with [0; 0; 0; 0]%Z. by rewrite app_nil_r.
Qed.

Lemma opt_records_wire buf payload :
  is_payload payload →
  (match payload with Some p => put_opt buf p | None => buf end) = buf ++ many_wire rr_wire (opt_records payload).
Proof.
  destruct payload as [p|]; intros Hp; [|symmetry; apply app_nil_r]. rewrite put_opt_wire by done.
  change (many_wire rr_wire (opt_records (Some p))) with (rr_wire (to_record (edns_new p)) ++ []). by rewrite app_nil_r.
Qed.

Lemma length_opt_records payload : length (opt_records payload) = if payload is Some _ then 1 else 0.
Proof. by destruct payload. Qed.

Lemma encode_query_wire i s qt payload n :
  is_u16 qt → is_payload payload → from_ascii s = Ok n →
  encode_query i s qt payload = Ok (message_wire (query_message i n qt payload)).
Proof.
  intros Hq Hp Hn. unfold encode_query. rewrite (wire_encode_name_ok _ _ _ Hn). cbn [mbind result_bind].
  rewrite opt_records_wire by done. f_equal. unfold put_u16, message_wire. cbn [app].
  assert (Hh : header_wire (header (query_message i n qt payload)) (counts_of (query_message i n qt payload)) =
    to_be 2 i ++ to_be 2 FLAG_RD ++ to_be 2 1 ++ to_be 2 0 ++ to_be 2 0 ++ to_be 2 (if payload is Some _ then 1 else 0)).
  { unfold header_wire, counts_of. cbn [query_message header id questions answers authorities additionals qc ac nsc arc].
    rewrite length_opt_records. by destruct payload. }
  rewrite Hh. cbn [query_message questions answers authorities additionals]. unfold many_wire at 2 3 4. cbn [map concat].
  unfold question_wire. cbn [q_name qtype qclass class_to_u16]. rewrite type_to_from by done.
  rewrite app_nil_r. cbn [app]. rewrite <-!app_assoc. done.
Qed.

(** ** Parsing a query *)

Lemma wire_read_u16_has buf pos v rest :
  is_u16 v → has_at buf pos (to_be 2 v ++ rest) →
  wire_read_u16 buf pos = Ret v ∧ has_at buf (pos + 2) rest.
Proof.
  intros Hv Hat. split; [|by apply (has_at_app _ _ (to_be 2 v))]. unfold wire_read_u16. rewrite (proj1 Hat).
  pose proof (from_to_be 2 v) as Hb. change (256 ^ Z.of_nat 2)%Z with 65536%Z in Hb.
  pose proof (length_to_be 2 v) as Hl. destruct (to_be 2 v) as [|a [|b [|c l]]]; try discriminate Hl. cbn [app]. by rewrite Hb.
Qed.

Lemma has_at_byte buf pos b rest : has_at buf pos (b :: rest) → buf !! pos = Some b ∧ has_at buf (pos + 1) rest.
Proof.
  intros Hat. split; [|by apply (has_at_app _ _ [b])].
  replace (buf !! pos) with (drop pos buf !! 0) by (rewrite lookup_drop; f_equal; lia). by rewrite (proj1 Hat).
Qed.

Lemma get_byte_has buf pos b rest : has_at buf pos (b :: rest) → get_byte buf pos = Ret b ∧ has_at buf (pos + 1) rest.
Proof. intros [Hb Hat]%has_at_byte. unfold get_byte. by rewrite Hb. Qed.

Lemma land_192 len : (0 ≤ len < 64)%Z → Z.land len 192 ≠ 192%Z.
Proof. intros H. rewrite land_192_low by lia. lia. Qed.

Lemma qname_end_has ls : ∀ fuel buf start pos rest,
  Forall label_ok ls → length ls < fuel → start ≤ pos → pos - start + length (labels_wire ls) + 1 ≤ 255 →
  has_at buf pos (labels_wire ls ++ [0%Z] ++ rest) →
  qname_end fuel buf start pos = Ret (pos + length (labels_wire ls) + 1) ∧
  has_at buf (pos + length (labels_wire ls) + 1) rest.
Proof.
  induction ls as [|l ls IH]; intros fuel buf start pos rest Hls Hf Hs Hlen Hat; (destruct fuel as [|fuel]; [cbn in Hf; lia|]).
  - cbn [labels_wire map concat app length] in *. destruct (get_byte_has _ _ _ _ Hat) as [Hb Hat'].
    rewrite Nat.add_0_r in *. split; [|exact Hat'].
    cbn [qname_end]. rewrite Hb. cbn [mbind run_bind]. rewrite decide_False by done. unfold MAX_LABEL_LEN, MAX_NAME_LEN.
    cbn [Z.to_nat]. rewrite decide_False by lia. rewrite decide_False by lia. done.
  - apply Forall_cons in Hls as [[Hl Hb] Hls]. unfold labels_wire in *. cbn [map concat app length] in *.
    rewrite length_app in *. fold (labels_wire ls) in *.
    destruct (get_byte_has _ _ _ _ Hat) as [Hget _]. cbn [qname_end]. rewrite Hget. cbn [mbind run_bind].
    rewrite decide_False by (apply land_192; lia). unfold MAX_LABEL_LEN, MAX_NAME_LEN. rewrite Nat2Z.id.
    rewrite !decide_False by lia.
    destruct (IH fuel buf start (pos + (1 + length l)) rest Hls) as [-> Hat']; try (cbn [length] in Hf; lia).
    + apply (has_at_app buf pos (Z.of_nat (length l) :: l)). by rewrite <-app_assoc in Hat.
    + split; [f_equal; lia|]. by replace (pos + S (length l + length (labels_wire ls)) + 1)
        with (pos + (1 + length l) + length (labels_wire ls) + 1) by lia.
Qed.

Lemma opcode_to_from v : (0 ≤ v < 16)%Z → opcode_to_u8 (opcode_from_u8 v) = v.
Proof. apply (nibble_forall (λ v, opcode_to_u8 (opcode_from_u8 v) = v)). by decide_eval. Qed.

(** The fields the benchmark reads out of the flags. *)
Lemma flags_fields h :
  wf_header h →
  bool_decide (Z.land (flags_of_header h) FLAG_QR ≠ 0)%Z = qr h ∧
  bool_decide (Z.land (flags_of_header h) FLAG_RD ≠ 0)%Z = recursion_desired h ∧
  Z.land (Z.shiftr (flags_of_header h) 11) 15 = opcode_to_u8 (opcode h) ∧ is_u16 (flags_of_header h).
Proof.
  intros Hh. destruct (header_flags h Hh) as [He Hr]. unfold header_of_flags in He.
  split; [by apply (f_equal qr) in He|]. split; [by apply (f_equal recursion_desired) in He|]. split; [|done].
  apply (f_equal opcode) in He. cbn [opcode] in He. rewrite <-He, opcode_to_from; [done|].
  change 15%Z with (Z.ones 4). rewrite Z.land_ones by lia. apply Z.mod_pos_bound. lia.
Qed.

(** What [parse_query] reads of a query message. *)
Definition parsed (m : Message) (q : Question) (e : option Edns) : WireQuery :=
  mkWireQuery (id (header m)) (opcode_to_u8 (opcode (header m))) (recursion_desired (header m)) (udp_payload_size <$> e)
    (question_wire q) (length (name_wire (q_name q))).

(** The queries it accepts: one question and nothing but an OPT record. *)
Record plain_query (m : Message) (q : Question) (e : option Edns) : Prop := {
  pq_wf : wf_message m;
  pq_edns : match e with Some e => wf_edns e | None => True end;
  pq_qr : qr (header m) = false;
  pq_question : questions m = [q];
  pq_records : answers m = [] ∧ authorities m = [];
  pq_opt : additionals m = option_list (to_record <$> e);
  pq_fits : fits (length (message_wire m));
}.

Lemma to_record_rest e :
  wf_edns e → fits (length (options_data (options e))) →
  ∃ ttl, rr_wire (to_record e) = [0%Z] ++ to_be 2 TYPE_OPT ++ to_be 2 (udp_payload_size e) ++ to_be 4 ttl ++
    to_be 2 (Z.of_nat (length (options_data (options e)))) ++ options_data (options e).
Proof.
  intros (Hp & _) Hf. exists (rr_ttl (to_record e)). unfold rr_wire, rr_rest. cbn [to_record rr_name rr_rdata rr_class rdata_wire record_type type_to_u16].
  by rewrite (proj2 (wf_opt_class_opt _ Hp)).
Qed.

Lemma parse_opt_has e buf pos :
  wf_edns e → fits (length (options_data (options e))) → has_at buf pos (rr_wire (to_record e)) →
  parse_opt buf pos = Ret (udp_payload_size e, length buf).
Proof.
  intros He Hf Hat. destruct (to_record_rest e He Hf) as (ttl & Hw). rewrite Hw in Hat. destruct He as (Hp & _).
  pose proof Hat as [Hd Hl]. apply (f_equal length) in Hd.
  rewrite length_drop in Hd. rewrite !length_app, !length_to_be in Hd. cbn [length] in Hd.
  unfold parse_opt. destruct (get_byte_has _ _ _ _ Hat) as [-> H1]. cbn [mbind run_bind]. rewrite decide_False by (by intros []).
  destruct (wire_read_u16_has _ _ TYPE_OPT _ ltac:(unfold TYPE_OPT; lia) H1) as [-> H2]. cbn [mbind run_bind].
  rewrite decide_False by (by intros []).
  replace (pos + 1 + 2) with (pos + 3) in H2 by lia.
  destruct (wire_read_u16_has _ _ _ _ Hp H2) as [-> H3]. cbn [mbind run_bind].
  apply has_at_app in H3. rewrite length_to_be in H3. replace (pos + 3 + 2 + 4) with (pos + 9) in H3 by lia.
  unfold fits in Hf.
  destruct (wire_read_u16_has _ _ (Z.of_nat (length (options_data (options e)))) _ ltac:(lia) H3) as [-> H4].
  cbn [mbind run_bind]. rewrite Nat2Z.id, decide_False by lia. do 2 f_equal. lia.
Qed.

Lemma parse_query_wire m q e : plain_query m q e → parse_query (message_wire m) = Ret (parsed m q e).
Proof.
  intros []. pose proof pq_wf0 as (Hh & Hq & _). rewrite pq_question0 in Hq. apply Forall_cons in Hq as [(Hn & _) _].
  destruct pq_records0 as [Ha Hns]. destruct (flags_fields (header m) Hh) as (Hqr & Hrd & Hop & Hflags).
  set (arc := if e is Some _ then 1%Z else 0%Z).
  assert (Hw : message_wire m = to_be 2 (id (header m)) ++ to_be 2 (flags_of_header (header m)) ++ to_be 2 1 ++ to_be 2 0 ++
    to_be 2 0 ++ to_be 2 arc ++ question_wire q ++ many_wire rr_wire (additionals m)).
  { unfold message_wire, header_wire, counts_of. cbn [qc ac nsc Header.arc]. rewrite pq_question0, Ha, Hns, pq_opt0.
    unfold many_wire at 1 2 3. cbn [map concat length]. rewrite app_nil_r, <-!app_assoc. cbn [app]. unfold arc. by destruct e. }
  set (buf := message_wire m) in *. assert (Hat : has_at buf 0 buf) by (split; [done|lia]). rewrite Hw in Hat at 2.
  assert (Hlen : 12 + length (name_wire (q_name q)) + 4 ≤ length buf).
  { rewrite Hw, !length_app, !length_to_be. unfold question_wire. rewrite !length_app, !length_to_be. lia. }
  unfold parse_query, HEADER_LEN. rewrite decide_False by lia.
  destruct Hh as (Hi & _).
  destruct (wire_read_u16_has _ _ _ _ Hi Hat) as [-> H1]. cbn [mbind run_bind Nat.add] in *.
  destruct (wire_read_u16_has _ _ _ _ Hflags H1) as [-> H2]. cbn [mbind run_bind Nat.add] in *.
  rewrite pq_qr0 in Hqr. apply bool_decide_eq_false in Hqr. rewrite decide_False by done.
  destruct (wire_read_u16_has _ _ 1 _ ltac:(lia) H2) as [-> H3]. cbn [mbind run_bind Nat.add] in *.
  destruct (wire_read_u16_has _ _ 0 _ ltac:(lia) H3) as [-> H4]. cbn [mbind run_bind Nat.add] in *.
  destruct (wire_read_u16_has _ _ 0 _ ltac:(lia) H4) as [-> H5]. cbn [mbind run_bind Nat.add] in *.
  destruct (wire_read_u16_has _ _ arc _ ltac:(unfold arc; destruct e; lia) H5) as [-> H6]. cbn [mbind run_bind Nat.add] in *.
  rewrite decide_False by lia. rewrite decide_False by (unfold arc; destruct e; lia).
  unfold question_wire in H6. unfold name_wire in H6. rewrite <-!app_assoc in H6.
  destruct Hn as [Hls Htot]. pose proof (length_name_wire (q_name q)) as Hnl. unfold name_wire in Hnl. rewrite length_app in Hnl.
  cbn [length] in Hnl. pose proof (length_labels_wire (labels (q_name q))) as Hll.
  assert (Hend : 12 + length (labels_wire (labels (q_name q))) + 1 = 12 + length (name_wire (q_name q))).
  { unfold name_wire. rewrite length_app. cbn [length]. lia. }
  destruct (qname_end_has _ (S (length buf)) _ 12 12 _ Hls ltac:(lia) ltac:(lia) ltac:(lia) H6) as [-> H7].
  cbn [mbind run_bind]. rewrite Hend in *. rewrite decide_False by lia. rewrite slice_ret by lia. cbn [mbind run_bind].
  apply has_at_app in H7. rewrite length_to_be in H7. apply has_at_app in H7. rewrite length_to_be in H7.
  assert (Hqs : take (12 + length (name_wire (q_name q)) + 4 - 12) (drop 12 buf) = question_wire q).
  { rewrite (proj1 H6). replace (12 + length (name_wire (q_name q)) + 4 - 12) with (length (question_wire q))
      by (unfold question_wire; rewrite !length_app, !length_to_be; lia).
    unfold question_wire, name_wire. rewrite !app_assoc. rewrite <-app_assoc. apply take_app_length. }
  rewrite Hqs. unfold parsed. rewrite Hop, Hrd. replace (_ + length (name_wire (q_name q)) - 12) with (length (name_wire (q_name q))) by lia.
  replace (12 + length (name_wire (q_name q)) + 2 + 2) with (12 + length (name_wire (q_name q)) + 4) in H7 by lia.
  rewrite pq_opt0 in H7. pose proof (has_at_length _ _ _ H7) as Hl7. destruct e as [e|]; unfold arc; cbn [fmap option_fmap option_map option_list] in *.
  - rewrite decide_True by done. change (option_list _) with [to_record e] in H7, Hl7. rewrite many_wire_single in H7, Hl7.
    assert (fits (length (options_data (options e)))).
    { apply (fits_le _ _ pq_fits0). pose proof (length_rr_wire (to_record e)) as Hrr. cbn [to_record rr_rdata rdata_wire] in Hrr. lia. }
    rewrite (parse_opt_has e) by done.
    cbn [mbind run_bind]. rewrite decide_False by lia. done.
  - rewrite decide_False by done. cbn [mbind run_bind]. change (many_wire _ _) with (@nil Z) in Hl7. cbn [length] in Hl7. rewrite decide_False by lia. done.
Qed.

(** ** Compressed answers *)

(** A record whose owner is written as a pointer to the question's name. *)
Definition pointed_wire (rr : ResourceRecord) : list Z := QNAME_POINTER ++ rr_rest rr.

(** The wire form of a message with its answers' owners compressed away. *)
Definition compressed_wire (m : Message) : list Z :=
  header_wire (header m) (counts_of m) ++ many_wire question_wire (questions m) ++
  many_wire pointed_wire (answers m) ++ many_wire rr_wire (authorities m) ++ many_wire rr_wire (additionals m).

Lemma decode_name_pointer n buf pos r1 r2 :
  wf_name n → 12 < pos → has_at buf 12 (name_wire n ++ r1) → has_at buf pos (QNAME_POINTER ++ r2) →
  decode_name buf pos = Ret (n, pos + 2).
Proof.
  intros [Hls Hn] Hpos Hat Hat2. unfold decode_name.
  pose proof (has_at_length _ _ _ Hat) as Hl. pose proof (has_at_length _ _ _ Hat2) as Hl2.
  rewrite length_app, length_name_wire in Hl. cbn [length QNAME_POINTER app] in Hl2.
  assert (Hstep : decode_name_step buf (mkCursor [] pos false 0) = Ret (inl (mkCursor [] 12 true (pos + 2)))).
  { unfold decode_name_step. cbn [c_cur c_labels c_jumped c_real_end]. rewrite decide_False by lia.
    destruct (has_at_byte _ _ _ _ Hat2) as [Hb1%index_spec Hat3]. destruct (has_at_byte _ _ _ _ Hat3) as [Hb2%index_spec _].
    rewrite Hb1. cbn [mbind run_bind]. rewrite decide_True by done. rewrite decide_False by lia. rewrite Hb2.
    cbn [mbind run_bind]. change (Z.to_nat _) with 12. by rewrite decide_False by lia. }
  cbn [decode_name_loop]. rewrite Hstep. cbn [mbind run_bind].
  destruct (has_at_split _ _ _ Hat) as [Hb Hb']. unfold name_wire in Hb. rewrite <-!app_assoc in Hb.
  pose proof (decode_loop_wire (labels n) (take 12 buf) r1 (length buf) [] true (pos + 2) Hls) as Hloop.
  rewrite <-Hb, Hb' in Hloop. rewrite Hloop.
  - cbn [mbind run_bind c_labels c_jumped c_real_end app].
    replace (mkName (labels n)) with n by by destruct n. by rewrite (proj2 (check_total_length_ok n) Hn).
  - pose proof (length_labels_wire (labels n)). rewrite <-length_name_wire in Hl. unfold name_wire in Hl.
    rewrite length_app in Hl. lia.
Qed.

Lemma length_pointed_wire rr : length (pointed_wire rr) = 12 + length (rdata_wire (rr_rdata rr)).
Proof. unfold pointed_wire. rewrite length_app, length_rr_rest. done. Qed.

Lemma decode_pointed_has n buf pos q1 rest rrs :
  wf_name n → has_at buf 12 (name_wire n ++ q1) → 12 < pos →
  Forall (λ rr, rr_fits rr ∧ rr_name rr = n) rrs → has_at buf pos (many_wire pointed_wire rrs ++ rest) →
  decode_many (decode_rr buf) (length rrs) pos = Ret (rrs, pos + length (many_wire pointed_wire rrs)) ∧
  has_at buf (pos + length (many_wire pointed_wire rrs)) rest.
Proof.
  intros Hn Hq Hpos Hrrs. apply (decode_many_has decode_rr pointed_wire (λ rr, rr_fits rr ∧ rr_name rr = n) 13); [|lia|done].
  intros rr p r Hp [[Hrr Hf] Hname] Hat. unfold pointed_wire in *. rewrite <-app_assoc in Hat.
  assert (Hd : decode_name buf p = Ret (rr_name rr, p + 2)).
  { rewrite Hname. by apply (decode_name_pointer n buf p q1 (rr_rest rr ++ r)). }
  apply has_at_app in Hat. rewrite length_app, Nat.add_assoc. by apply decode_rr_named.
Qed.

(** The decoder reads such a message back. *)
Lemma decode_compressed m q :
  wf_message m → questions m = [q] → Forall (λ rr, rr_name rr = q_name q) (answers m) →
  fits (length (compressed_wire m)) → decode (compressed_wire m) = Ret m.
Proof.
  intros (Hh & Hq & Ha & Hn & Hx) Hmq Hnames Hf. set (buf := compressed_wire m).
  assert (Hat : has_at buf 0 (compressed_wire m ++ [])) by (split; [by rewrite app_nil_r|lia]).
  assert (Hl : length (compressed_wire m) = 12 + length (many_wire question_wire (questions m)) +
    length (many_wire pointed_wire (answers m)) + length (many_wire rr_wire (authorities m)) +
    length (many_wire rr_wire (additionals m))).
  { unfold compressed_wire. rewrite !length_app, length_header_wire. lia. }
  assert (Hone : ∀ rr, 1 ≤ length (rr_wire rr)) by (intros rr; pose proof (length_rr_wire rr); lia).
  assert (Hpone : ∀ rr, 1 ≤ length (pointed_wire rr)) by (intros rr; rewrite length_pointed_wire; lia).
  pose proof (length_many_wire question_wire (questions m) length_question_wire).
  pose proof (length_many_wire pointed_wire (answers m) Hpone).
  pose proof (length_many_wire rr_wire (authorities m) Hone).
  pose proof (length_many_wire rr_wire (additionals m) Hone).
  unfold compressed_wire in Hat. rewrite <-!app_assoc in Hat. unfold decode.
  apply decode_header_has in Hat as [-> Hat]; [|done|unfold counts_ok, counts_of; cbn; unfold fits in *; lia].
  cbn [mbind run_bind counts_of qc ac nsc arc]. rewrite !Nat2Z.id.
  pose proof Hat as Hname. rewrite Hmq, many_wire_single in Hname. unfold question_wire in Hname. rewrite <-!app_assoc in Hname.
  apply (decode_many_has decode_question question_wire wf_question 0) in Hat as [-> Hat];
    [|intros ????; by apply decode_question_has|lia|done]. cbn [mbind run_bind].
  rewrite Hmq in Hq, Hat |- *. rewrite many_wire_single in Hat |- *. apply Forall_cons in Hq as [(Hwn & _) _].
  assert (Hfits : Forall (λ rr, rr_fits rr ∧ rr_name rr = q_name q) (answers m)).
  { apply Forall_and; split; [|done]. apply Forall_and; split; [done|].
    apply Forall_forall. intros rr Hrr. apply (fits_le _ _ Hf).
    apply list_elem_of_split in Hrr as (l1 & l2 & Hs). rewrite Hl, Hs. unfold many_wire.
    rewrite map_app, concat_app. cbn [map concat]. rewrite !length_app, length_pointed_wire. lia. }
  apply (decode_pointed_has (q_name q) _ _ _ _ _ Hwn Hname) in Hat as [-> Hat];
    [|pose proof (length_question_wire q); lia|done]. cbn [mbind run_bind].
  apply decode_rrs_has in Hat as [-> Hat]; [|done|eapply fits_le; [exact Hf|lia]]. cbn [mbind run_bind].
  apply decode_rrs_has in Hat as [-> _]; [|done|eapply fits_le; [exact Hf|lia]]. cbn [mbind run_bind].
  destruct m. cbn in *. by subst.
Qed.

(** ** The response *)

(** The first label decides the answer. *)
Definition selected (n : Name) : WireAnswer :=
  match labels n with
  | label :: _ => match mix_from_first_label label with Some m => mix_answer m | None => AnswerRefused end
  | [] => AnswerRefused
  end.

Lemma first_label_parsed m q e :
  wf_question q → first_label (parsed m q e) = Ret (match labels (q_name q) with l :: _ => l | [] => [] end).
Proof.
  intros [[Hls _] _]. unfold first_label, parsed. cbn [question]. unfold question_wire, name_wire.
  destruct (labels (q_name q)) as [|l ls]; [done|]. unfold labels_wire. cbn [map concat app].
  cbn [index lookup list_lookup mbind run_bind]. rewrite Nat2Z.id. rewrite slice_ret.
  - replace (1 + length l - 1) with (length l) by lia. rewrite <-!app_assoc. change (drop 1 (?x :: ?l)) with l.
    f_equal. apply take_app_length.
  - lia.
  - cbn [length]. rewrite !length_app. lia.
Qed.

Definition zone_name : Name := mkName [bytes_of "bench"; bytes_of "test"].

Definition zone_soa (minimum : Z) : RData :=
  Soa (mkName [bytes_of "ns"; bytes_of "bench"; bytes_of "test"])
    (mkName [bytes_of "hostmaster"; bytes_of "bench"; bytes_of "test"]) 1 3600 600 86400 minimum.

Definition txt_strings : list (list Z) := map (λ s, List.tl (txt_string s)) (seq 0 TXT_STRINGS).

Lemma txt_strings_wire : txt_rdata = rdata_wire (Txt txt_strings).
Proof. by vm_compute. Qed.

(** 192.0.2.1, 192.0.2.2 and so on, the last byte wrapping. *)
Definition nth_address (offset : Z) : Z := (3221225984 + (1 + offset) mod 256)%Z.

Definition answer_data (answer : WireAnswer) : list RData :=
  match answer with
  | AnswerA count => map (A ∘ nth_address) (seqZ 0 count)
  | AnswerAaaa => [Aaaa (from_be AAAA_ADDR)]
  | AnswerTxt => [Txt txt_strings]
  | _ => []
  end.

Definition answer_records (n : Name) (answer : WireAnswer) (ttl : Z) : list ResourceRecord :=
  map (λ r, mkRR n (record_type r) In ttl r) (answer_data answer).

Definition authority_records (answer : WireAnswer) (ttl : Z) : list ResourceRecord :=
  match answer with AnswerNxDomain => [mkRR zone_name TSoa In ttl (zone_soa ttl)] | _ => [] end.

(** The response to the query [m] for [q], truncated when [cut]. *)
Definition response_message (m : Message) (q : Question) (e : option Edns) (answer : WireAnswer) (ttl : Z) (cut : bool) : Message :=
  mkMessage
    (mkHeader (id (header m)) true (opcode (header m)) true cut (recursion_desired (header m)) true
       (rcode_from_u8 (answer_rcode answer)))
    [q] (if cut then [] else answer_records (q_name q) answer ttl) (if cut then [] else authority_records answer ttl)
    (opt_records ((λ _, EDNS_PAYLOAD) <$> e)).

Definition answer_ok (answer : WireAnswer) : Prop := match answer with AnswerA count => is_u8 count | _ => True end.

(** The flags as the benchmark computes them and as the codec does. *)
Lemma response_flags o rd cut answer :
  wf_opcode o →
  (let flags := Z.lor (Z.lor (Z.lor FLAG_QR FLAG_AA) FLAG_RA) (Z.shiftl (opcode_to_u8 o) 11 mod 65536) in
   let flags := Z.lor flags (answer_rcode answer) in
   let flags := if rd : bool then Z.lor flags FLAG_RD else flags in
   if cut : bool then Z.lor flags FLAG_TC else flags) =
  flags_of_header (mkHeader 0 true o true cut rd true (rcode_from_u8 (answer_rcode answer))).
Proof.
  intros (v & Hv & _ & <-)%opcode_nibble. revert v Hv.
  set (P v := ∀ rd cut answer,
    (let flags := Z.lor (Z.lor (Z.lor FLAG_QR FLAG_AA) FLAG_RA) (Z.shiftl (opcode_to_u8 (opcode_from_u8 v)) 11 mod 65536) in
     let flags := Z.lor flags (answer_rcode answer) in
     let flags := if rd : bool then Z.lor flags FLAG_RD else flags in
     if cut : bool then Z.lor flags FLAG_TC else flags) =
    flags_of_header (mkHeader 0 true (opcode_from_u8 v) true cut rd true (rcode_from_u8 (answer_rcode answer)))).
  enough (Forall P nibbles) as HP by (intros v Hv; by apply (proj1 (Forall_forall P nibbles) HP)).
  repeat constructor; intros [] [] []; reflexivity.
Qed.

Lemma put_record_rest buf owner n r ttl :
  fits (length (rdata_wire r)) →
  put_record buf owner (type_to_u16 (record_type r)) ttl (rdata_wire r) =
  Ret (buf ++ owner ++ rr_rest (mkRR n (record_type r) In ttl r)).
Proof.
  intros Hf. unfold put_record. rewrite decide_True by done. unfold rr_rest, put_u16.
  cbn [rr_rdata rr_class rr_ttl class_to_u16]. by rewrite <-!app_assoc.
Qed.

Lemma nth_address_wire x :
  take 3 A_ADDR ++ [((List.nth 3 A_ADDR 0 + x) mod 256)%Z] = rdata_wire (A (nth_address x)).
Proof.
  unfold nth_address. change (List.nth 3 A_ADDR 0)%Z with 1%Z. pose proof (Z.mod_pos_bound (1 + x) 256 ltac:(lia)) as Hb.
  revert Hb. generalize ((1 + x) mod 256)%Z. intros b Hb.
  assert (Forall (λ b, take 3 A_ADDR ++ [b] = to_be 4 (3221225984 + b)%Z) (seqZ 0 256)) as H by by decide_eval.
  rewrite Forall_forall in H. apply H, elem_of_seqZ. lia.
Qed.

Lemma put_addresses_wire n k : ∀ offset ttl buf,
  put_addresses k offset ttl buf =
  Ret (buf ++ many_wire pointed_wire
         (map (λ r, mkRR n (record_type r) In ttl r) (map (A ∘ nth_address) (seqZ offset (Z.of_nat k))))).
Proof.
  induction k as [|k IH]; intros offset ttl buf.
  - cbn [put_addresses]. by rewrite app_nil_r.
  - cbn [put_addresses]. rewrite nth_address_wire.
    change TYPE_A with (type_to_u16 (record_type (A (nth_address offset)))).
    rewrite (put_record_rest _ _ n) by done. cbn [mbind run_bind]. rewrite IH. f_equal.
    rewrite <-app_assoc. f_equal. rewrite (seqZ_cons offset) by lia.
    replace (Z.pred (Z.of_nat (S k))) with (Z.of_nat k) by lia. done.
Qed.

Lemma soa_rdata_wire minimum : soa_rdata minimum = Ret (rdata_wire (zone_soa minimum)).
Proof. reflexivity. Qed.

(** The records of an answer are appended compressed, the SOA with its owner. *)
Lemma put_answer_wire n answer ttl buf :
  answer_ok answer →
  put_answer answer ttl buf =
  Ret (buf ++ many_wire pointed_wire (answer_records n answer ttl) ++ many_wire rr_wire (authority_records answer ttl)).
Proof.
  intros Ha. destruct answer as [count| | | |]; cbn [put_answer].
  - rewrite (put_addresses_wire n). cbn [authority_records]. unfold answer_records, answer_data.
    rewrite Z2Nat.id by (cbn in Ha; lia). by rewrite app_nil_r.
  - change (put_record buf QNAME_POINTER TYPE_AAAA ttl AAAA_ADDR) with
      (put_record buf QNAME_POINTER (type_to_u16 (record_type (Aaaa (from_be AAAA_ADDR)))) ttl (rdata_wire (Aaaa (from_be AAAA_ADDR)))). rewrite (put_record_rest _ _ n) by done. done.
  - rewrite txt_strings_wire. change TYPE_TXT with (type_to_u16 (record_type (Txt txt_strings))).
    rewrite (put_record_rest _ _ n) by (by vm_compute). unfold answer_records, answer_data, authority_records.
    cbn [map]. rewrite many_wire_single, app_nil_r. done.
  - change (expect (wire_encode_name (bytes_of ZONE) [])) with (@Ret WireError _ (name_wire zone_name)).
    cbn [mbind run_bind]. rewrite soa_rdata_wire. cbn [mbind run_bind].
    change TYPE_SOA with (type_to_u16 (record_type (zone_soa ttl))).
    rewrite (put_record_rest _ _ zone_name) by done. unfold answer_records, authority_records. rewrite many_wire_single. done.
  - cbn [authority_records answer_records answer_data map]. by rewrite app_nil_r.
Qed.

Lemma length_answer_records n answer ttl :
  answer_ok answer → Z.of_nat (length (answer_records n answer ttl)) = (answer_counts answer false).1.
Proof.
  intros Ha. unfold answer_records. rewrite length_map. destruct answer; try done. cbn in *.
  rewrite length_map, length_seqZ. lia.
Qed.

Lemma build_response_wire m q e answer ttl cut :
  wf_header (header m) → answer_ok answer →
  build_response (parsed m q e) answer ttl cut = Ret (compressed_wire (response_message m q e answer ttl cut)).
Proof.
  intros Hh Ha. unfold build_response.
  assert (Hc : answer_counts answer cut =
    (Z.of_nat (length (answers (response_message m q e answer ttl cut))),
     Z.of_nat (length (authorities (response_message m q e answer ttl cut))))).
  { cbn [response_message answers authorities]. destruct cut; [done|]. rewrite length_answer_records by done.
    destruct answer; done. }
  rewrite Hc. pose proof (response_flags (opcode (header m)) (recursion_desired (header m)) cut answer (proj1 (proj2 Hh))) as Hf.
  cbv zeta in Hf |- *. unfold parsed. cbn [wq_opcode wq_recursion_desired wq_edns_payload question wq_id]. rewrite Hf.
  set (r := response_message m q e answer ttl cut).
  assert (Hbuf : put_u16 (put_u16 (put_u16 (put_u16 (put_u16 (put_u16 [] (id (header m)))
      (flags_of_header (mkHeader 0 true (opcode (header m)) true cut (recursion_desired (header m)) true
        (rcode_from_u8 (answer_rcode answer))))) 1)
      (Z.of_nat (length (answers r)))) (Z.of_nat (length (authorities r))))
      (if udp_payload_size <$> e is Some _ then 1 else 0) ++ question_wire q =
    header_wire (header r) (counts_of r) ++ many_wire question_wire (questions r)).
  { unfold header_wire, counts_of, put_u16. cbn [qc ac nsc arc r response_message questions additionals].
    rewrite length_opt_records, many_wire_single. rewrite <-!app_assoc. by destruct e. }
  rewrite Hbuf. assert (Hp : is_payload ((λ _, EDNS_PAYLOAD) <$> e)) by by destruct e.
  assert (Hopt : ∀ buf, (if udp_payload_size <$> e is Some _ then put_opt buf EDNS_PAYLOAD else buf) =
    buf ++ many_wire rr_wire (additionals r)).
  { intros buf. cbn [r response_message additionals]. rewrite <-(opt_records_wire buf _ Hp). by destruct e. }
  unfold compressed_wire. destruct cut.
  - cbn [mbind run_bind]. rewrite Hopt. cbn [r response_message answers authorities]. by rewrite <-!app_assoc.
  - rewrite (put_answer_wire (q_name q)) by done. cbn [mbind run_bind]. rewrite Hopt. cbn [r response_message answers authorities].
    by rewrite <-!app_assoc.
Qed.

(** ** Sizes *)

Lemma length_many_pointed rrs k :
  Forall (λ rr, length (rdata_wire (rr_rdata rr)) ≤ k) rrs → length (many_wire pointed_wire rrs) ≤ (12 + k) * length rrs.
Proof.
  induction 1 as [|rr rrs Hrr _ IH]; [cbn; lia|]. unfold many_wire in *. cbn [map concat length].
  rewrite length_app, length_pointed_wire. lia.
Qed.

Lemma length_answers n answer ttl :
  answer_ok answer →
  length (many_wire pointed_wire (answer_records n answer ttl)) + length (many_wire rr_wire (authority_records answer ttl)) ≤ 4080.
Proof.
  intros Ha. destruct answer as [count| | | |]; [|by apply Nat.leb_le..].
  change (length (many_wire rr_wire (authority_records (AnswerA count) ttl))) with 0. rewrite Nat.add_0_r.
  etrans; [apply (length_many_pointed _ 4)|].
  - unfold answer_records, answer_data. rewrite map_map. apply Forall_map, Forall_forall. intros x _. done.
  - pose proof (length_answer_records n (AnswerA count) ttl Ha) as Hl. cbn [answer_counts fst] in Hl. cbn in Ha. lia.
Qed.

Lemma length_compressed m q e answer ttl cut :
  wf_question q → answer_ok answer →
  let n := length (compressed_wire (response_message m q e answer ttl cut)) in
  n ≤ 4400 ∧ (cut = true → n ≤ 282).
Proof.
  intros [[_ Hq] _] Ha n. pose proof (length_answers (q_name q) answer ttl Ha) as Hl.
  assert (Ho : length (many_wire rr_wire (opt_records ((λ _, EDNS_PAYLOAD) <$> e))) ≤ 11) by (destruct e; by apply Nat.leb_le).
  assert (Hqw : length (question_wire q) ≤ 259).
  { unfold question_wire. rewrite !length_app, length_name_wire, !length_to_be. lia. }
  subst n. unfold compressed_wire. rewrite !length_app, length_header_wire.
  cbn [response_message questions answers authorities additionals]. rewrite many_wire_single.
  destruct cut; [unfold many_wire at 1 2 4 5; cbn [map concat length]|]; lia.
Qed.

Lemma wf_response m q e answer ttl cut :
  wf_header (header m) → wf_question q → answer_ok answer → (0 ≤ ttl < 2147483648)%Z →
  wf_message (response_message m q e answer ttl cut).
Proof.
  intros (Hi & Ho & _) Hq Ha Ht. split; [|split; [|split; [|split]]]; cbn [response_message header questions answers authorities additionals].
  - split; [done|]. split; [done|]. by destruct answer.
  - constructor; [done|constructor].
  - destruct cut; [constructor|]. unfold answer_records. apply Forall_map, Forall_forall. intros r Hr.
    assert (wf_rdata r ∧ is_opt_type (record_type r) = false) as [Hr1 Hr2].
    { destruct answer as [count| | | |]; cbn [answer_data] in Hr.
      - apply list_elem_of_fmap in Hr as (x & -> & _). split; [|done]. cbn [wf_rdata compose]. unfold nth_address.
        pose proof (Z.mod_pos_bound (1 + x) 256 ltac:(lia)). lia.
      - apply list_elem_of_singleton in Hr as ->. split; [|done]. by decide_eval.
      - apply list_elem_of_singleton in Hr as ->. split; [|done]. cbn [wf_rdata]. by decide_eval.
      - by apply elem_of_nil in Hr.
      - by apply elem_of_nil in Hr. }
    split; [apply Hq|]. split; [done|]. split; [done|]. cbn [rr_rtype rr_class rr_ttl]. rewrite Hr2. done.
  - destruct cut, answer; try constructor; [|constructor].
    split; [by decide_eval|]. split; [|by split]. cbn [rr_rdata zone_soa wf_rdata].
    repeat split; try lia; by decide_eval.
  - apply wf_opt_records. by destruct e.
Qed.

(** ** The properties *)

Lemma fits_query_message i n qt payload :
  wf_name n → fits (length (message_wire (query_message i n qt payload))).
Proof.
  intros [_ Hn]. unfold message_wire. rewrite !length_app, length_header_wire.
  cbn [query_message questions answers authorities additionals]. rewrite many_wire_single.
  unfold question_wire. rewrite !length_app, length_name_wire, !length_to_be. cbn [q_name].
  assert (length (many_wire rr_wire (opt_records payload)) ≤ 11) by (destruct payload; by apply Nat.leb_le).
  unfold many_wire at 1 2. cbn [map concat length]. unfold fits. lia.
Qed.

(** The benchmark's own query encoder and the library agree: for an ASCII
    name it succeeds with exactly the bytes the library's codec writes for the
    message that asks for the name the library parses, and it fails exactly when
    the library does not accept the name. *)
Theorem encode_query_agrees i s qt payload bytes :
  is_u16 i → is_u16 qt → is_payload payload → Forall (λ b, 0 ≤ b < 128)%Z s →
  encode_query i s qt payload = Ok bytes ↔
  ∃ n, from_ascii s = Ok n ∧ encode (query_message i n qt payload) = Ok bytes.
Proof.
  intros Hi Hq Hp Hs.
  assert (Hlib : ∀ n, from_ascii s = Ok n →
    ∃ w, encode (query_message i n qt payload) = Ok w ∧ encode_query i s qt payload = Ok w).
  { intros n Hn. assert (wf_name n).
    { apply (from_ascii_wf s); [|done]. eapply Forall_impl; [exact Hs|]. intros b Hb. cbn in Hb. lia. }
    exists (message_wire (query_message i n qt payload)). split; [|by apply encode_query_wire].
    unfold encode. rewrite encode_into_wf by by apply wf_query_message.
    by rewrite decide_True by by apply fits_query_message. }
  split.
  - intros H. assert (∃ n, from_ascii s = Ok n) as (n & Hn).
    { pose proof H as H'. unfold encode_query in H'. apply result_bind_ok in H' as (buf & Hb & _).
      eapply wire_encode_name_accepts; [|exact Hb]. eapply Forall_impl; [exact Hs|]. intros b Hb'. cbn in Hb'. lia. }
    exists n. split; [done|]. destruct (Hlib n Hn) as (w & -> & Hw). congruence.
  - intros (n & Hn & H). destruct (Hlib n Hn) as (w & Hw & ->). congruence.
Qed.

(** "a-0-1.bench.test." *)
Definition example_bench_name : list Z := bytes_of (mix_fqdn MixA 0 1).

Lemma encode_query_agrees_witness :
  (∃ bytes, encode_query 7 example_bench_name TYPE_A (Some 1232%Z) = Ok bytes) ∧
  ∃ n bytes, from_ascii example_bench_name = Ok n ∧ encode (query_message 7 n TYPE_A (Some 1232%Z)) = Ok bytes.
Proof.
  assert (H : ∃ bytes, encode_query 7 example_bench_name TYPE_A (Some 1232%Z) = Ok bytes)
    by (eexists; vm_compute; reflexivity).
  split; [exact H|]. destruct H as [bytes H].
  apply encode_query_agrees in H as (n & Hn & He); [eauto|lia|by split|by split|by decide_eval].
Defined.

(** The benchmark's upstream answers the library's queries. For a query with
    one question and at most an OPT record, as the codec writes it, parsing it
    and building the response neither fails nor panics, and the codec reads the
    response, its answers' owner names compressed to pointers, as exactly the
    message the answer describes: it answers the query, and over UDP it is
    within the size the query advertised (or 512), truncated with no records
    exactly when the full response is not. *)
Theorem respond_with_decodes m q e answer ttl tr :
  plain_query m q e → answer_ok answer → (0 ≤ ttl < 2147483648)%Z →
  let limit := udp_limit (udp_payload_size <$> e) in
  let full := compressed_wire (response_message m q e answer ttl false) in
  let cut := bool_decide (tr = OverUdp ∧ (limit < Z.of_nat (length full))%Z) in
  let response := response_message m q e answer ttl cut in
  ∃ bytes,
    (parsed ← parse_query (message_wire m); respond_with parsed answer (mkResponseConfig ttl tr)) = Ret bytes ∧
    decode bytes = Ret response ∧ answers_query Match m response ∧
    (tr = OverUdp → (Z.of_nat (length bytes) ≤ limit)%Z).
Proof.
  intros Hp Ha Ht limit full cut response. pose proof Hp as []. pose proof pq_wf0 as (Hh & Hq & _).
  rewrite pq_question0 in Hq. apply Forall_cons in Hq as [Hq _]. exists (compressed_wire response).
  destruct (length_compressed m q e answer ttl cut Hq Ha) as [Hl Hcut]. fold response in Hl, Hcut.
  assert (Hlim : (512 ≤ limit)%Z) by (unfold limit, udp_limit, MIN_UDP_PAYLOAD; destruct (udp_payload_size <$> e); lia).
  split; [|split; [|split]].
  - rewrite (parse_query_wire m q e) by done. cbn [mbind run_bind]. unfold respond_with. cbn [rc_ttl rc_transport].
    rewrite !build_response_wire by done. cbn [mbind run_bind]. fold full.
    change (wq_edns_payload (parsed m q e)) with (udp_payload_size <$> e). fold limit. unfold response, cut.
    case_decide as Hc; [rewrite bool_decide_true by done; done|by rewrite bool_decide_false].
  - apply (decode_compressed response q).
    + by apply wf_response.
    + done.
    + cbn [response response_message answers]. destruct cut; [constructor|]. unfold answer_records.
      apply Forall_map, Forall_forall. done.
    + unfold fits. lia.
  - split; [done|done|]. rewrite pq_question0. by repeat constructor.
  - intros Hu. destruct cut eqn:Ec; [specialize (Hcut eq_refl); lia|]. apply bool_decide_eq_false in Ec.
    unfold response. fold full. destruct (decide (limit < Z.of_nat (length full))%Z); [|lia]. by destruct Ec.
Qed.

Lemma plain_query_message i n qt payload :
  is_u16 i → wf_name n → is_u16 qt → is_payload payload →
  plain_query (query_message i n qt payload) (mkQuestion n (type_from_u16 qt) In) (edns_new <$> payload).
Proof.
  intros Hi Hn Hq Hp. split; try done.
  - by apply wf_query_message.
  - destruct payload as [p|]; [|done]. cbn in Hp. split; [done|]. split; [cbn; lia|]. split; [cbn; lia|constructor].
  - by destruct payload.
  - by apply fits_query_message.
Qed.

Definition example_txt_query : Message := query_message 7 example_name TYPE_TXT None.

Lemma plain_example_txt_query : plain_query example_txt_query (mkQuestion example_name TTxt In) None.
Proof. apply (plain_query_message 7 example_name TYPE_TXT None); [lia|by decide_eval|by split|done]. Qed.

(** Too large a TXT answer for UDP without EDNS: truncated. *)
Lemma respond_with_decodes_witness :
  ∃ bytes,
    (parsed ← parse_query (message_wire example_txt_query);
     respond_with parsed AnswerTxt (mkResponseConfig 300 OverUdp)) = Ret bytes ∧
    (r ← decode bytes; Ret (truncated (header r), length (answers r))) = Ret (true, 0) ∧ length bytes ≤ 512.
Proof.
  destruct (respond_with_decodes example_txt_query (mkQuestion example_name TTxt In) None AnswerTxt 300 OverUdp)
    as (bytes & Hb & Hd & _ & Hl); [apply plain_example_txt_query|done|lia|].
  exists bytes. split; [exact Hb|]. rewrite Hd. split; [by vm_compute|]. specialize (Hl eq_refl). cbn in Hl.
  unfold MIN_UDP_PAYLOAD in Hl. lia.
Defined.

Lemma first_part p s :
  dot ∉ p → hyphen ∉ p → ∃ seg segs, split_dots (p ++ hyphen :: s) = seg :: segs ∧ before_hyphen seg = p.
Proof.
  induction p as [|c p IH]; intros Hd Hh; cbn [app split_dots].
  - rewrite decide_False by done. destruct (split_dots s) as [|seg segs] eqn:Es; [by apply split_dots_nonempty in Es|].
    exists (hyphen :: seg), segs. split; [done|]. cbn [before_hyphen]. by rewrite decide_True.
  - apply not_elem_of_cons in Hd as [Hc Hd], Hh as [Hc' Hh]. rewrite decide_False by done.
    destruct (IH Hd Hh) as (seg & segs & -> & Hs). exists (c :: seg), segs. split; [done|].
    cbn [before_hyphen]. rewrite decide_False by done. by rewrite Hs.
Qed.

Lemma bytes_of_app (a b : string) : bytes_of (a +:+ b) = bytes_of a ++ bytes_of b.
Proof. unfold bytes_of. induction a as [|c a IH]; [done|]. cbn. by rewrite <-IH. Qed.

Lemma bytes_of_fqdn mix worker i :
  ∃ s, bytes_of (mix_fqdn mix worker i) = bytes_of (mix_as_str mix) ++ hyphen :: s ++ [dot].
Proof.
  unfold mix_fqdn. rewrite !bytes_of_app. exists (bytes_of (pretty worker) ++ bytes_of "-" ++ bytes_of (pretty i) ++ [dot] ++ bytes_of ZONE).
  by rewrite <-!app_assoc.
Qed.

Lemma bytes_ok_bytes_of s : bytes_ok (bytes_of s).
Proof.
  apply Forall_map, Forall_forall. intros c _. cbn. pose proof (Ascii.N_ascii_bounded c). lia.
Qed.

(** The first label of a name of the mix starts with the mix's prefix. *)
Lemma selected_fqdn mix worker i n :
  from_ascii (bytes_of (mix_fqdn mix worker i)) = Ok n → selected n = mix_answer mix.
Proof.
  destruct (bytes_of_fqdn mix worker i) as (s & ->). intros H.
  change (hyphen :: s ++ [dot]) with ((hyphen :: s) ++ [dot]) in H. rewrite app_assoc in H.
  set (t := bytes_of (mix_as_str mix) ++ hyphen :: s) in H.
  assert (Hstrip : strip_trailing_dot (t ++ [dot]) = t).
  { unfold strip_trailing_dot. rewrite last_snoc, decide_True by done. rewrite length_app. cbn [length].
    replace (length t + 1 - 1) with (length t) by lia. apply take_app_length. }
  assert (Ht : t ≠ []) by by destruct mix.
  unfold from_ascii in H. rewrite Hstrip in H. case_decide as Hr.
  { destruct Hr as [Hr|Hr]; exfalso; [by destruct t|]. apply (app_inj_tail _ []) in Hr as [? _]. done. }
  rewrite decide_False in H by done. apply result_bind_ok in H as (ls & Hls & H).
  apply result_bind_ok in H as (_ & _ & H). injection H as <-. destruct (put_labels_ok _ _ [] Hls) as [_ ->].
  destruct (first_part (bytes_of (mix_as_str mix)) s) as (seg & segs & Hs & Hp); [by destruct mix; decide_eval..|].
  fold t in Hs. unfold selected. cbn [labels]. rewrite Hs. unfold mix_from_first_label. rewrite Hp. by destruct mix.
Qed.

(** The load generator and the upstream understand each other. Whatever
    worker and sequence number a name of the mix carries, the message for it is
    answered as the mix says: parsing its query and answering by its first label
    is answering with [Mix::answer]. *)
Theorem respond_follows_mix mix worker i n j payload config :
  from_ascii (bytes_of (mix_fqdn mix worker i)) = Ok n → is_u16 j → is_payload payload →
  let bytes := encode_query j (bytes_of (mix_fqdn mix worker i)) (mix_qtype mix) payload in
  bytes = Ok (message_wire (query_message j n (mix_qtype mix) payload)) ∧
  (parsed ← (w ← expect bytes; parse_query w); respond parsed config) =
  (parsed ← (w ← expect bytes; parse_query w); respond_with parsed (mix_answer mix) config).
Proof.
  intros Hn Hj Hp. cbv zeta. rewrite (encode_query_wire _ _ _ _ n) by (by destruct mix || done). split; [done|].
  assert (Hw : wf_name n) by (apply (from_ascii_wf _ _ (bytes_ok_bytes_of _) Hn)).
  cbn [expect mbind run_bind].
  assert (Hplain : plain_query (query_message j n (mix_qtype mix) payload)
    (mkQuestion n (type_from_u16 (mix_qtype mix)) In) (edns_new <$> payload)).
  { by apply plain_query_message; [|..|destruct mix|]. }
  rewrite (parse_query_wire _ _ _ Hplain). cbn [mbind run_bind]. unfold respond.
  rewrite first_label_parsed by (split; [done|]; split; [apply wf_type_from; by destruct mix|done]).
  cbn [mbind run_bind q_name]. rewrite <-(selected_fqdn _ _ _ _ Hn). unfold selected. by destruct (labels n).
Qed.

Lemma respond_follows_mix_witness :
  ∃ n bytes, from_ascii (bytes_of (mix_fqdn MixNx 3 12)) = Ok n ∧
    encode_query 9 (bytes_of (mix_fqdn MixNx 3 12)) TYPE_A (Some 1232%Z) = Ok bytes ∧
    (parsed ← parse_query bytes; respond parsed (mkResponseConfig 60 OverUdp)) =
    (parsed ← parse_query bytes; respond_with parsed AnswerNxDomain (mkResponseConfig 60 OverUdp)).
Proof.
  assert (H : ∃ n, from_ascii (bytes_of (mix_fqdn MixNx 3 12)) = Ok n) by (eexists; vm_compute; reflexivity).
  destruct H as (n & H). exists n.
  destruct (respond_follows_mix MixNx 3 12 n 9 (Some 1232%Z) (mkResponseConfig 60 OverUdp)) as [He Hr];
    [exact H|lia|by split|]. change (mix_qtype MixNx) with TYPE_A in *. rewrite He in Hr. eexists. split; [exact H|]. split; [exact He|].
  exact Hr.
Defined.
