(* ===== verification/Responder.v ===== *)
(** * The benchmark's upstream responder

    [bench/resolver/src/responder.rs] and [Proto] of [bench/resolver/src/lib.rs]:
    the counters and [Shared::reply] as one atomic step after the other, so that
    the calls of all transports interleave, and what each transport's handler
    makes of a request. The loopback sockets, TLS, HTTP and QUIC sessions and
    the JSON of the counters are the libraries'. *)

From stdpp Require Import base numbers list strings.
From S2P Require Import Prelude Name Wire WireSpec.

(** ** Transports *)

Inductive Proto : Type :=
  | PUdp
  | PTcp
  | PDot
  | PDoh2
  | PDoh3
  | PDoq.

#[export] Instance proto_eq_dec : EqDecision Proto.
Proof. solve_decision. Defined.

Definition proto_all : list Proto := [PUdp; PTcp; PDot; PDoh2; PDoh3; PDoq].

Definition proto_as_str (p : Proto) : string :=
  match p with PUdp => "udp" | PTcp => "tcp" | PDot => "dot" | PDoh2 => "doh2" | PDoh3 => "doh3" | PDoq => "doq" end.

Definition proto_parse (name : string) : option Proto := List.find (λ p, bool_decide (proto_as_str p = name)) proto_all.

Definition proto_index (p : Proto) : nat :=
  match p with PUdp => 0 | PTcp => 1 | PDot => 2 | PDoh2 => 3 | PDoh3 => 4 | PDoq => 5 end.

(** ** Counters *)

Record ResponderConfig : Type := mkResponderConfig {
  ttl : Z;
  latency : Z;
  drop_every : Z;
}.

Definition responder_config_default : ResponderConfig := mkResponderConfig 0 0 0.

Record ProtoCounters : Type := mkProtoCounters {
  queries : Z;
  connections : Z;
  handshakes : Z;
  resumed : Z;
}.

(** [protos] is the array of six. *)
Record Counters : Type := mkCounters {
  protos : list ProtoCounters;
  tc_replies : Z;
  dropped : Z;
  malformed : Z;
}.

Record Shared : Type := mkShared {
  config : ResponderConfig;
  counters : Counters;
  received : Z;
}.

Definition no_counts : ProtoCounters := mkProtoCounters 0 0 0 0.

(** [Shared] of [Responder::start]. *)
Definition shared_new (c : ResponderConfig) : Shared := mkShared c (mkCounters (replicate 6 no_counts) 0 0 0) 0.

(** [fetch_add(1, Relaxed)] *)
Definition fetch_add1 (n : Z) : Z := wrapping_add 64 n 1.

(** [Counters::proto]; the index is below six. *)
Definition counters_proto (c : Counters) (p : Proto) : ProtoCounters := default no_counts (protos c !! proto_index p).

Definition on_proto (f : ProtoCounters → ProtoCounters) (p : Proto) (s : Shared) : Shared :=
  let c := counters s in
  mkShared (config s) (mkCounters (alter f (proto_index p) (protos c)) (tc_replies c) (dropped c) (malformed c)) (received s).

Definition count_query : Proto → Shared → Shared :=
  on_proto (λ c, mkProtoCounters (fetch_add1 (queries c)) (connections c) (handshakes c) (resumed c)).
Definition count_connection : Proto → Shared → Shared :=
  on_proto (λ c, mkProtoCounters (queries c) (fetch_add1 (connections c)) (handshakes c) (resumed c)).
Definition count_handshake : Proto → Shared → Shared :=
  on_proto (λ c, mkProtoCounters (queries c) (connections c) (fetch_add1 (handshakes c)) (resumed c)).
Definition count_resumed : Proto → Shared → Shared :=
  on_proto (λ c, mkProtoCounters (queries c) (connections c) (handshakes c) (fetch_add1 (resumed c))).

Definition count_tc (s : Shared) : Shared :=
  let c := counters s in mkShared (config s) (mkCounters (protos c) (fetch_add1 (tc_replies c)) (dropped c) (malformed c)) (received s).
Definition count_dropped (s : Shared) : Shared :=
  let c := counters s in mkShared (config s) (mkCounters (protos c) (tc_replies c) (fetch_add1 (dropped c)) (malformed c)) (received s).
Definition count_malformed (s : Shared) : Shared :=
  let c := counters s in mkShared (config s) (mkCounters (protos c) (tc_replies c) (dropped c) (fetch_add1 (malformed c))) (received s).
Definition count_received (s : Shared) : Shared := mkShared (config s) (counters s) (fetch_add1 (received s)).

(** [Iterator::sum] overflows like [+]. *)
Definition add_u64 {E} (a b : Z) : Run E Z := if decide (a + b ≤ u64_max)%Z then Ret (a + b)%Z else Panic.

Definition total_queries (c : Counters) : Run WireError Z :=
  foldl (λ acc p, n ← acc; add_u64 n (queries (counters_proto c p))) (Ret 0%Z) proto_all.

Definition handshake_done (p : Proto) (was_resumed : bool) (s : Shared) : Shared :=
  let s := count_handshake p s in if was_resumed then count_resumed p s else s.

(** ** Answering one query *)

(** [response.get(2).is_some_and(|flags| flags & 0x02 != 0)] *)
Definition tc_set (response : list Z) : bool :=
  match response !! 2 with Some flags => bool_decide (Z.land flags 2 ≠ 0)%Z | None => false end.

Definition reply_transport (p : Proto) : WireTransport := if decide (p = PUdp) then OverUdp else OverStream.

(** [every != 0 && seq.is_multiple_of(every)] *)
Definition drops (c : ResponderConfig) (seq : Z) : bool :=
  bool_decide (drop_every c ≠ 0 ∧ seq mod drop_every c = 0)%Z.

(** [Shared::reply]; its result may be an error after it has counted. *)
Definition reply (s : Shared) (p : Proto) (bytes : list Z) : Run WireError (Shared * Result WireError (option (list Z))) :=
  parsed ← catch (parse_query bytes);
  match parsed with
  | Err err => Ret (count_malformed s, Err err)
  | Ok query =>
      let s := count_query p s in
      seq ← add_u64 (received s) 1;
      let s := count_received s in
      if drops (config s) seq then Ret (count_dropped s, Ok None)
      else
        response ← respond query (mkResponseConfig (ttl (config s)) (reply_transport p));
        let s := if bool_decide (p = PUdp) && tc_set response then count_tc s else s in
        Ret (s, Ok (Some response))
  end.

(** Where a call of [reply] is between two of its atomic operations. *)
Inductive ReplyAt : Type :=
  | AtParse
  | AtMalformed (err : WireError)
  | AtCount (query : WireQuery)
  | AtSequence (query : WireQuery)
  | AtDrop
  | AtSleep (query : WireQuery)
  | AtRespond (query : WireQuery)
  | AtTruncated (response : list Z)
  | AtEnd (result : Result WireError (option (list Z)))
  | AtGone.

Definition reply_step (s : Shared) (p : Proto) (bytes : list Z) (at_ : ReplyAt) : Run WireError (Shared * ReplyAt) :=
  match at_ with
  | AtParse => parsed ← catch (parse_query bytes); Ret (s, match parsed with Ok q => AtCount q | Err e => AtMalformed e end)
  | AtMalformed err => Ret (count_malformed s, AtEnd (Err err))
  | AtCount q => Ret (count_query p s, AtSequence q)
  | AtSequence q =>
      seq ← add_u64 (received s) 1;
      Ret (count_received s,
           if drops (config s) seq then AtDrop else if decide (latency (config s) = 0)%Z then AtRespond q else AtSleep q)
  | AtDrop => Ret (count_dropped s, AtEnd (Ok None))
  | AtSleep q => Ret (s, AtRespond q)
  | AtRespond q =>
      response ← respond q (mkResponseConfig (ttl (config s)) (reply_transport p));
      Ret (s, if bool_decide (p = PUdp) && tc_set response then AtTruncated response else AtEnd (Ok (Some response)))
  | AtTruncated response => Ret (count_tc s, AtEnd (Ok (Some response)))
  | AtEnd _ | AtGone => Ret (s, at_)
  end.

(** A call that runs alone: six steps are enough. *)
Fixpoint reply_steps (n : nat) (s : Shared) (p : Proto) (bytes : list Z) (at_ : ReplyAt) : Run WireError (Shared * ReplyAt) :=
  match n with
  | O => Ret (s, at_)
  | S n => '(s, at_) ← reply_step s p bytes at_; reply_steps n s p bytes at_
  end.

Lemma reply_alone s p bytes :
  reply_steps 6 s p bytes AtParse = ('(s, r) ← reply s p bytes; Ret (s, AtEnd r)).
Proof.
  unfold reply. cbn [reply_steps reply_step]. destruct (parse_query bytes) as [q|e| |]; cbn [catch mbind run_bind]; try done.
  cbn [reply_step mbind run_bind]. destruct (add_u64 (received (count_query p s)) 1) as [n|err| |]; cbn [mbind run_bind]; try done.
  set (s1 := count_received (count_query p s)). change (config (count_query p s)) with (config s1).
  destruct (drops (config s1) n); [done|].
  destruct (decide (latency (config s1) = 0)%Z); cbn [reply_step mbind run_bind].
  all: destruct (respond q _) as [r|err| |]; cbn [mbind run_bind]; try done; destruct (bool_decide _ && tc_set r); done.
Qed.

(** ** Parsing and answering never fail to return *)

Lemma wire_read_u16_runs bytes pos : wire_read_u16 bytes pos ≠ Panic ∧ wire_read_u16 bytes pos ≠ Hang.
Proof. unfold wire_read_u16. by destruct (drop pos bytes) as [|a [|b l]]. Qed.

Lemma get_byte_runs bytes pos : get_byte bytes pos ≠ Panic ∧ get_byte bytes pos ≠ Hang.
Proof. unfold get_byte. by destruct (bytes !! pos). Qed.

(** A run ends, in a value that satisfies [P] or an error. *)
Definition ends {E A} (P : A → Prop) (m : Run E A) : Prop :=
  match m with Ret a => P a | Throw _ => True | Panic | Hang => False end.

Lemma ends_runs {E A} (m : Run E A) : m ≠ Panic ∧ m ≠ Hang → ends (λ _, True) m.
Proof. by destruct m; intros [? ?]. Qed.

Lemma ends_bind {E A B} (P : A → Prop) (Q : B → Prop) (m : Run E A) (f : A → Run E B) :
  ends P m → (∀ a, m = Ret a → P a → ends Q (f a)) → ends Q (m ≫= f).
Proof. destruct m as [a| | |]; cbn; auto. Qed.

Lemma ends_if {E A} (Q : A → Prop) (b : Prop) `{!Decision b} (m1 m2 : Run E A) :
  (b → ends Q m1) → (¬ b → ends Q m2) → ends Q (if decide b then m1 else m2).
Proof. destruct (decide b); auto. Qed.

Lemma ends_throw {E A} (Q : A → Prop) (err : E) : ends Q (Throw err).
Proof. done. Qed.

Lemma ends_u16 bytes pos : ends (λ _, True) (wire_read_u16 bytes pos).
Proof. apply ends_runs, wire_read_u16_runs. Qed.

(** The name ends after its first label, which is in the message, and is no
    longer than a name may be. *)
Lemma qname_end_ends fuel bytes start : ∀ pos,
  length bytes - pos < fuel → start ≤ pos →
  ends (λ e, ∃ len, bytes !! pos = Some len ∧ pos + 1 + Z.to_nat len ≤ e ∧ e - start ≤ MAX_NAME_LEN ∧ start < e)
    (qname_end fuel bytes start pos).
Proof.
  induction fuel as [|fuel IH]; intros pos Hf Hs; [lia|]. cbn [qname_end]. unfold get_byte.
  destruct (bytes !! pos) as [len|] eqn:El; [|done]. cbn [mbind run_bind]. pose proof (lookup_lt_Some _ _ _ El) as Hlt.
  apply ends_if; [done|intros _]. apply ends_if; [done|intros _]. apply ends_if; [done|intros Hn].
  destruct (decide (len = 0)%Z) as [->|]; cbn [ends].
  - exists 0%Z. split; [done|]. cbn in *. lia.
  - specialize (IH (pos + (1 + Z.to_nat len)) ltac:(lia) ltac:(lia)).
    destruct (qname_end fuel bytes start _) as [e| | |]; cbn [ends] in *; try done.
    destruct IH as (len' & _ & H1 & H2 & H3). exists len. split; [done|]. lia.
Qed.

Lemma parse_opt_ends bytes pos : ends (λ _, True) (parse_opt bytes pos).
Proof.
  unfold parse_opt. eapply ends_bind; [apply ends_runs, get_byte_runs|]. intros owner _ _.
  eapply ends_bind. { apply ends_if; [done|]. intros _. apply ends_u16. } intros rtype _ _.
  apply ends_if; [done|intros _]. eapply ends_bind; [apply ends_u16|]. intros payload _ _.
  eapply ends_bind; [apply ends_u16|]. intros rdlen _ _. by apply ends_if.
Qed.

(** What a parsed question holds: its first label, and no more than a name, a
    type and a class. *)
Definition question_ok (q : WireQuery) : Prop :=
  (∃ len, question q !! 0 = Some len ∧ 1 + Z.to_nat len ≤ length (question q)) ∧ length (question q) ≤ MAX_NAME_LEN + 4.

Lemma parse_query_ends bytes : ends question_ok (parse_query bytes).
Proof.
  unfold parse_query. apply ends_if; [done|intros _].
  eapply ends_bind; [apply ends_u16|]. intros i _ _. eapply ends_bind; [apply ends_u16|]. intros flags _ _.
  apply ends_if; [done|intros _]. do 4 (eapply ends_bind; [apply ends_u16|]; intros ? _ _).
  apply ends_if; [done|intros _]. apply ends_if; [done|intros _]. cbv zeta.
  eapply ends_bind; [apply (qname_end_ends _ bytes HEADER_LEN HEADER_LEN); lia|].
  intros pos _ (len & Hl & H1 & H2 & H3). apply ends_if; [done|intros Hlen]. rewrite slice_ret by lia. cbn [mbind run_bind].
  eapply (ends_bind (λ _, True)).
  { apply ends_if; [|done]. intros _. eapply ends_bind; [apply parse_opt_ends|]. by intros [] _ _. }
  intros [payload end_] _ _. apply ends_if; [done|intros _]. cbn [ends]. unfold question_ok. cbn [question]. split.
  - exists len. rewrite lookup_take_lt, lookup_drop by lia. rewrite Nat.add_0_r. split; [done|].
    rewrite length_take, length_drop. lia.
  - rewrite length_take, length_drop. lia.
Qed.

Lemma length_put_u16 buf v : length (put_u16 buf v) = length buf + 2.
Proof. unfold put_u16. by rewrite length_app, length_to_be. Qed.

Lemma build_response_ret q answer t cut :
  answer_ok answer → ∃ out, build_response q answer t cut = Ret out ∧ length out ≤ length (question q) + 4103.
Proof.
  intros Ha. unfold build_response. destruct (answer_counts answer cut) as [ancount nscount]. cbv zeta.
  set (buf := put_u16 (put_u16 _ nscount) _).
  assert (Hbuf : length buf = 12) by (subst buf; by rewrite !length_put_u16).
  assert (∃ out, (if cut then Ret (buf ++ question q) else put_answer answer t (buf ++ question q)) = Ret out ∧
    length out ≤ length (question q) + 4092) as (out & -> & Ho).
  { destruct cut; [eexists; split; [done|]; rewrite length_app; lia|].
    rewrite (put_answer_wire (mkName [])) by done. eexists. split; [done|].
    pose proof (length_answers (mkName []) answer t Ha). rewrite !length_app. lia. }
  cbn [mbind run_bind]. eexists. split; [done|]. destruct (wq_edns_payload q); [|lia].
  unfold put_opt. rewrite length_put_u16, length_app, !length_put_u16, length_app. cbn [length]. lia.
Qed.

Lemma respond_ret q c : question_ok q → ∃ out, respond q c = Ret out ∧ length out ≤ 4362.
Proof.
  intros [(len & Hl & Hlen) Hq]. unfold MAX_NAME_LEN in Hq. unfold respond, first_label, index. rewrite Hl. cbn [mbind run_bind].
  rewrite slice_ret by lia. cbn [mbind run_bind].
  set (answer := match mix_from_first_label _ with Some m => mix_answer m | None => AnswerRefused end).
  assert (Ha : answer_ok answer) by (unfold answer; by destruct (mix_from_first_label _) as [[]|]).
  unfold respond_with. destruct (build_response_ret q answer (rc_ttl c) false Ha) as (full & -> & Hf). cbn [mbind run_bind].
  destruct (decide _); [|eexists; split; [done|lia]].
  destruct (build_response_ret q answer (rc_ttl c) true Ha) as (out & -> & Ho). eexists. split; [done|lia].
Qed.

(** A call of [reply] returns, as long as fewer than 2^64 - 1 queries came before. *)
Lemma reply_ends s p bytes :
  (received s < u64_max)%Z →
  ends (λ r, match r.2 with Ok (Some answer) => (Z.of_nat (length answer) ≤ u16_max)%Z | _ => True end) (reply s p bytes).
Proof.
  intros Hr. unfold reply. pose proof (parse_query_ends bytes) as Hp.
  destruct (parse_query bytes) as [q| | |]; cbn [ends catch mbind run_bind] in *; try done.
  unfold add_u64. change (received (count_query p s)) with (received s). rewrite decide_True by lia. cbn [mbind run_bind].
  destruct (drops _ _); [done|]. destruct (respond_ret q (mkResponseConfig (ttl (config (count_received (count_query p s)))) (reply_transport p)) Hp)
    as (out & -> & Hl). cbn [mbind run_bind ends snd]. lia.
Qed.

(** ** All calls together *)

(** A query some handler received, and where its call of [reply] is. *)
Record Asked : Type := mkAsked {
  a_proto : Proto;
  a_bytes : list Z;
  a_at : ReplyAt;
}.

(** A connection a listener accepted: before its handshake, between the two
    counters of [handshake_done], or after them. *)
Inductive ConnAt : Type :=
  | Accepted
  | Shaken
  | Serving (was_resumed : bool).

Record Accepting : Type := mkAccepting {
  n_proto : Proto;
  n_at : ConnAt;
}.

Record Bench : Type := mkBench {
  b_shared : Shared;
  b_asked : list Asked;
  b_conns : list Accepting;
}.

Definition bench_new (c : ResponderConfig) : Bench := mkBench (shared_new c) [] [].

(** One atomic operation of one task. A call is dropped only where it awaits;
    the sum of [reply] that could overflow, after 2^64 - 1 queries, has no step. *)
Inductive bench_step : Bench → Bench → Prop :=
  | bs_ask s asked conns p bytes : bench_step (mkBench s asked conns) (mkBench s (asked ++ [mkAsked p bytes AtParse]) conns)
  | bs_reply s s' asked1 asked2 conns p bytes at_ at_' :
      reply_step s p bytes at_ = Ret (s', at_') →
      bench_step (mkBench s (asked1 ++ mkAsked p bytes at_ :: asked2) conns)
        (mkBench s' (asked1 ++ mkAsked p bytes at_' :: asked2) conns)
  | bs_gone s asked1 asked2 conns p bytes q :
      bench_step (mkBench s (asked1 ++ mkAsked p bytes (AtSleep q) :: asked2) conns)
        (mkBench s (asked1 ++ mkAsked p bytes AtGone :: asked2) conns)
  | bs_accept s asked conns p :
      p ≠ PUdp → bench_step (mkBench s asked conns) (mkBench (count_connection p s) asked (conns ++ [mkAccepting p Accepted]))
  | bs_handshake s asked conns1 conns2 p (was_resumed : bool) :
      p ≠ PTcp → (was_resumed = true → p = PDot ∨ p = PDoh2) →
      bench_step (mkBench s asked (conns1 ++ mkAccepting p Accepted :: conns2))
        (mkBench (count_handshake p s) asked
           (conns1 ++ mkAccepting p (if was_resumed then Shaken else Serving false) :: conns2))
  | bs_resumed s asked conns1 conns2 p :
      bench_step (mkBench s asked (conns1 ++ mkAccepting p Shaken :: conns2))
        (mkBench (count_resumed p s) asked (conns1 ++ mkAccepting p (Serving true) :: conns2)).

(** ** Accounting *)

Section accounting.
Context (c : ResponderConfig).

Definition tally {A} (f : A → bool) (l : list A) : Z := foldr (λ a n, (if f a then 1 else 0) + n)%Z 0%Z l.

Lemma tally_app {A} (f : A → bool) l1 l2 : tally f (l1 ++ l2) = (tally f l1 + tally f l2)%Z.
Proof. induction l1 as [|a l1 IH]; cbn [tally foldr app] in *; [done|]. unfold tally in *. rewrite IH. lia. Qed.

Lemma tally_cons {A} (f : A → bool) a l : tally f (a :: l) = ((if f a then 1 else 0) + tally f l)%Z.
Proof. done. Qed.

Lemma tally_bound {A} (f : A → bool) l : (0 ≤ tally f l ≤ Z.of_nat (length l))%Z.
Proof. induction l as [|a l IH]; [done|]. rewrite tally_cons. cbn [length]. destruct (f a); lia. Qed.

Lemma tally_le {A} (f g : A → bool) l : (∀ a, f a = true → g a = true) → (tally f l ≤ tally g l)%Z.
Proof.
  intros H. induction l as [|a l IH]; [done|]. rewrite !tally_cons. specialize (H a). destruct (f a), (g a); lia.
Qed.

(** [reply] has counted the query, for the transport and for the sequence. *)
Definition counted (at_ : ReplyAt) : bool := match at_ with AtParse | AtMalformed _ | AtCount _ | AtEnd (Err _) => false | _ => true end.
Definition sequenced (at_ : ReplyAt) : bool := match at_ with AtSequence _ => false | at_ => counted at_ end.

Definition seen (p : Proto) (a : Asked) : bool := bool_decide (a_proto a = p) && counted (a_at a).
Definition numbered (a : Asked) : bool := sequenced (a_at a).
Definition dropping (a : Asked) : bool := match a_at a with AtDrop | AtEnd (Ok None) => true | _ => false end.
Definition unanswered (a : Asked) : bool := match a_at a with AtEnd (Ok None) => true | _ => false end.
Definition rejected (a : Asked) : bool := match a_at a with AtEnd (Err _) => true | _ => false end.
Definition cut_short (a : Asked) : bool :=
  bool_decide (a_proto a = PUdp) && match a_at a with AtEnd (Ok (Some response)) => tc_set response | _ => false end.

Definition accepted (p : Proto) (n : Accepting) : bool := bool_decide (n_proto n = p).
Definition shaken (p : Proto) (n : Accepting) : bool :=
  bool_decide (n_proto n = p) && match n_at n with Accepted => false | _ => true end.
Definition resuming (p : Proto) (n : Accepting) : bool :=
  bool_decide (n_proto n = p) && match n_at n with Serving true => true | _ => false end.

(** Every query has what parsing its bytes and answering it gives. *)
Definition asked_ok (a : Asked) : Prop :=
  match a_at a with
  | AtParse | AtGone => True
  | AtMalformed err | AtEnd (Err err) => parse_query (a_bytes a) = Throw err
  | AtDrop | AtEnd (Ok None) => drop_every c ≠ 0%Z ∧ ∃ q, parse_query (a_bytes a) = Ret q
  | AtCount q | AtSequence q | AtSleep q | AtRespond q => parse_query (a_bytes a) = Ret q
  | AtTruncated response =>
      a_proto a = PUdp ∧ tc_set response = true ∧
      (q ← parse_query (a_bytes a); respond q (mkResponseConfig (ttl c) OverUdp)) = Ret response
  | AtEnd (Ok (Some response)) =>
      (q ← parse_query (a_bytes a); respond q (mkResponseConfig (ttl c) (reply_transport (a_proto a)))) = Ret response
  end.

(** The shared state as the calls and the connections account for it. *)
Definition tallied (asked : list Asked) (conns : list Accepting) : Shared :=
  mkShared c
    (mkCounters
       (map (λ p, mkProtoCounters (tally (seen p) asked) (tally (accepted p) conns) (tally (shaken p) conns) (tally (resuming p) conns))
          proto_all)
       (tally cut_short asked) (tally unanswered asked) (tally rejected asked))
    (tally numbered asked).

Record accounts (y : Bench) : Prop := {
  ac_shared : b_shared y = tallied (b_asked y) (b_conns y);
  ac_asked : Forall asked_ok (b_asked y);
  ac_dropping : tally dropping (b_asked y) = if decide (drop_every c = 0)%Z then 0%Z else (tally numbered (b_asked y) / drop_every c)%Z;
}.

Definition within (y : Bench) : Prop := (Z.of_nat (length (b_asked y)) < u64_max ∧ Z.of_nat (length (b_conns y)) < u64_max)%Z.

Lemma div_succ n k : (0 < k)%Z → (0 ≤ n)%Z → ((n + 1) / k = n / k + (if decide ((n + 1) mod k = 0) then 1 else 0))%Z.
Proof.
  intros Hk Hn. pose proof (Z.div_mod n k ltac:(lia)). pose proof (Z.mod_pos_bound n k Hk).
  pose proof (Z.div_mod (n + 1) k ltac:(lia)). pose proof (Z.mod_pos_bound (n + 1) k Hk).
  case_decide; nia.
Qed.

(** One of a list moves: a counter of it stays or goes up by one. *)
Lemma tally_same {A} (f : A → bool) l1 l2 a a' : f a = f a' → tally f (l1 ++ a :: l2) = tally f (l1 ++ a' :: l2).
Proof. intros H. by rewrite !tally_app, !tally_cons, H. Qed.

Lemma tally_more {A} (f : A → bool) l1 l2 a a' :
  (Z.of_nat (length (l1 ++ a :: l2)) < u64_max)%Z → f a = false → f a' = true →
  fetch_add1 (tally f (l1 ++ a :: l2)) = tally f (l1 ++ a' :: l2).
Proof.
  intros Hl H H'. pose proof (tally_bound f (l1 ++ a :: l2)). unfold fetch_add1, wrapping_add. rewrite Z.mod_small by lia.
  rewrite !tally_app, !tally_cons, H, H'. lia.
Qed.

Lemma tally_new {A} (f : A → bool) l a : f a = false → tally f l = tally f (l ++ [a]).
Proof. intros H. rewrite tally_app, tally_cons, H. cbn. lia. Qed.

Lemma tally_added {A} (f : A → bool) l a :
  (Z.of_nat (length l) < u64_max)%Z → f a = true → fetch_add1 (tally f l) = tally f (l ++ [a]).
Proof.
  intros Hl H. pose proof (tally_bound f l). unfold fetch_add1, wrapping_add. rewrite Z.mod_small by lia.
  rewrite tally_app, tally_cons, H. cbn. lia.
Qed.

(** The equation of two shared states, counter by counter. *)
Ltac counter :=
  first [reflexivity | apply tally_same; reflexivity | apply tally_more; [assumption|reflexivity|reflexivity]
        | apply tally_new; reflexivity | apply tally_added; [assumption|reflexivity]].
Ltac counters_go :=
  try solve [counter];
  lazymatch goal with
  | |- tally _ _ = _ => idtac
  | |- fetch_add1 _ = _ => idtac
  | |- _ => f_equal; counters_go
  end.
Ltac counters_agree :=
  unfold tallied, count_malformed, count_query, count_received, count_dropped, count_tc, count_connection, count_handshake,
    count_resumed, on_proto; cbn; counters_go.

Lemma forall_moved (a1 a2 : list Asked) a a' :
  Forall asked_ok (a1 ++ a :: a2) → asked_ok a' → Forall asked_ok (a1 ++ a' :: a2).
Proof. rewrite !Forall_app, !Forall_cons. tauto. Qed.

Lemma dropping_moved a1 a2 a a' conns conns' s s' :
  accounts (mkBench s (a1 ++ a :: a2) conns) → dropping a = dropping a' → numbered a = numbered a' → asked_ok a' →
  s' = tallied (a1 ++ a' :: a2) conns' → accounts (mkBench s' (a1 ++ a' :: a2) conns').
Proof.
  intros [] Hd Hn Ha Hs. cbn [b_shared b_asked b_conns] in *. split; cbn [b_shared b_asked b_conns]; [done|by eapply forall_moved|].
  rewrite <-(tally_same dropping _ _ a) by done. rewrite <-(tally_same numbered _ _ a) by done. done.
Qed.

(** A query gets its number: it is dropped exactly when the number is a multiple. *)
Lemma accounts_numbered a1 a2 conns p bytes q at_ :
  (0 ≤ drop_every c)%Z → within (mkBench (tallied (a1 ++ mkAsked p bytes (AtSequence q) :: a2) conns) (a1 ++ mkAsked p bytes (AtSequence q) :: a2) conns) →
  accounts (mkBench (tallied (a1 ++ mkAsked p bytes (AtSequence q) :: a2) conns) (a1 ++ mkAsked p bytes (AtSequence q) :: a2) conns) →
  (if drops c (tally numbered (a1 ++ mkAsked p bytes (AtSequence q) :: a2) + 1) then at_ = AtDrop else at_ = AtRespond q ∨ at_ = AtSleep q) →
  accounts (mkBench (count_received (tallied (a1 ++ mkAsked p bytes (AtSequence q) :: a2) conns)) (a1 ++ mkAsked p bytes at_ :: a2) conns).
Proof.
  intros He [Hw _] [_ Hall Hdr] Hd. cbn [b_shared b_asked b_conns] in *. set (old := a1 ++ mkAsked p bytes (AtSequence q) :: a2) in *.
  assert (Hok : asked_ok (mkAsked p bytes (AtSequence q))) by (by apply Forall_app in Hall as [_ [? _]%Forall_cons]).
  assert (Hat : at_ = AtDrop ∨ at_ = AtRespond q ∨ at_ = AtSleep q) by (destruct (drops _ _); tauto).
  assert (Hnum : tally numbered (a1 ++ mkAsked p bytes at_ :: a2) = (tally numbered old + 1)%Z).
  { subst old. rewrite !tally_app, !tally_cons. destruct Hat as [->|[->| ->]]; cbn; lia. }
  assert (Hdrop : tally dropping (a1 ++ mkAsked p bytes at_ :: a2) =
    (tally dropping old + if drops c (tally numbered old + 1) then 1 else 0)%Z).
  { generalize dependent (drops c (tally numbered old + 1)). intros d Hd. subst old. rewrite !tally_app, !tally_cons. destruct d; [subst at_|destruct Hd as [-> | ->]]; cbn; lia. }
  pose proof (tally_bound numbered old) as Hb. split; cbn [b_shared b_asked b_conns].
  - destruct Hat as [->|[->| ->]]; counters_agree.
  - eapply forall_moved; [exact Hall|]. destruct Hat as [->|[->| ->]]; try done.
    split; [|by exists q]. intros E. unfold drops in Hd. rewrite E in Hd. rewrite bool_decide_false in Hd by tauto. by destruct Hd.
  - rewrite Hnum, Hdrop, Hdr. unfold drops. case_decide as E; [by rewrite bool_decide_false by tauto|].
    rewrite div_succ by lia. repeat case_decide; case_bool_decide; lia || tauto.
Qed.

Lemma accounts_reply s s' a1 a2 conns p bytes at_ at_' :
  (0 ≤ drop_every c)%Z → within (mkBench s (a1 ++ mkAsked p bytes at_ :: a2) conns) →
  accounts (mkBench s (a1 ++ mkAsked p bytes at_ :: a2) conns) →
  reply_step s p bytes at_ = Ret (s', at_') →
  accounts (mkBench s' (a1 ++ mkAsked p bytes at_' :: a2) conns).
Proof.
  intros He Hwi Ha Hs. pose proof Ha as [Hsh Hall _]. pose proof Hwi as [Hw _]. cbn [b_shared b_asked b_conns] in *.
  assert (Hok : asked_ok (mkAsked p bytes at_)) by (by apply Forall_app in Hall as [_ [? _]%Forall_cons]).
  destruct at_ as [|err|q|q| |q|q|response|r|]; cbn [reply_step] in Hs.
  - destruct (parse_query bytes) as [q|err| |] eqn:Ep; cbn in Hs; try done; injection Hs as <- <-;
      (eapply dropping_moved; [done..|]; rewrite Hsh; counters_agree).
  - injection Hs as <- <-. eapply dropping_moved; [done..|]. rewrite Hsh. counters_agree.
  - injection Hs as <- <-. eapply dropping_moved; [done..|]. rewrite Hsh. destruct p; counters_agree.
  - apply run_bind_ret in Hs as (seq & Hq & [= <- <-]). unfold add_u64 in Hq. case_decide; [injection Hq as <-|done]. subst s.
    eapply accounts_numbered; [done..|]. cbn [tallied config counters received latency]. destruct (drops _ _); [done|]. case_decide; tauto.
  - injection Hs as <- <-. eapply dropping_moved; [done..|]. rewrite Hsh. counters_agree.
  - injection Hs as <- <-. eapply dropping_moved; [done..|]. rewrite Hsh. counters_agree.
  - apply run_bind_ret in Hs as (response & Hr & [= <- <-]). cbn [asked_ok a_at a_bytes] in Hok. rewrite Hsh in Hr. cbn [tallied config] in Hr.
    destruct (bool_decide (p = PUdp)) eqn:Ep; [apply bool_decide_eq_true in Ep as ->|].
    + cbn [andb]. destruct (tc_set response) eqn:Et; (eapply dropping_moved; [done..| |]).
      * cbn [asked_ok a_at a_bytes a_proto]. by rewrite Hok.
      * rewrite Hsh. counters_agree.
      * cbn [asked_ok a_at a_bytes a_proto]. by rewrite Hok.
      * rewrite Hsh. counters_agree. apply tally_same. unfold cut_short. cbn. by rewrite Et.
    + cbn [andb]. eapply dropping_moved; [done..| |].
      * cbn [asked_ok a_at a_bytes a_proto]. by rewrite Hok.
      * rewrite Hsh. counters_agree. apply tally_same. unfold cut_short. cbn [a_proto]. by rewrite Ep.
  - injection Hs as <- <-. destruct Hok as (Hp & Ht & Hr). cbn [a_proto] in Hp. subst p. eapply dropping_moved; [done..|]. rewrite Hsh.
    counters_agree. apply tally_more; [assumption|done|]. unfold cut_short. cbn. by rewrite Ht.
  - injection Hs as <- <-. done.
  - injection Hs as <- <-. done.
Qed.
(** A step of the connections leaves the calls as they are. *)
Lemma conns_moved s s' asked conns conns' :
  accounts (mkBench s asked conns) → (s = tallied asked conns → s' = tallied asked conns') → accounts (mkBench s' asked conns').
Proof. intros [Hs Ha Hd] H. cbn [b_shared b_asked b_conns] in *. split; [by apply H|done|done]. Qed.

Lemma bench_step_within y y' : bench_step y y' → within y' → within y.
Proof.
  destruct 1; unfold within; cbn [b_asked b_conns]; repeat (rewrite length_app || cbn [length]); lia.
Qed.

Lemma bench_step_accounts y y' : (0 ≤ drop_every c)%Z → within y → accounts y → bench_step y y' → accounts y'.
Proof.
  intros He Hw Ha Hs. pose proof Hw as [Hwa Hwc].
  destruct Hs as [s asked conns p bytes|s s' a1 a2 conns p bytes at_ at_' Hr|s a1 a2 conns p bytes q|s asked conns p Hp
    |s asked conns1 conns2 p r Hp Hr|s asked conns1 conns2 p]; cbn [b_asked b_conns] in *.
  - destruct Ha as [Hs Ha Hd]. cbn [b_shared b_asked b_conns] in *. split; cbn [b_shared b_asked b_conns].
    + rewrite Hs. destruct p; counters_agree.
    + apply Forall_app. split; [done|]. by constructor.
    + by rewrite <-!tally_new.
  - by eapply accounts_reply.
  - eapply dropping_moved; [done..|]. destruct Ha as [Hs _ _]. cbn [b_shared b_asked b_conns] in Hs. rewrite Hs. counters_agree.
  - eapply conns_moved; [done|]. intros ->. destruct p; counters_agree.
  - eapply conns_moved; [done|]. intros ->. destruct p, r; counters_agree.
  - eapply conns_moved; [done|]. intros ->. destruct p; counters_agree.
Qed.

Lemma bench_steps_accounts y : (0 ≤ drop_every c)%Z → rtc bench_step (bench_new c) y → within y → accounts y.
Proof.
  intros He Hr. refine (rtc_ind_r (λ y, within y → accounts y) _ _ _ _ Hr).
  - intros _. split; [done|constructor|]. cbn. by case_decide.
  - intros y1 y2 _ Hs IH Hw. pose proof (bench_step_within _ _ Hs Hw) as Hw1. by eapply bench_step_accounts; [|..|exact Hs]; [|exact Hw1|apply IH].
Qed.

(** The call has counted its query and has no number yet. *)
Definition between (a : Asked) : bool := match a_at a with AtSequence _ => true | _ => false end.

Lemma tally_seen asked :
  foldr (λ p n, tally (seen p) asked + n)%Z 0%Z proto_all = (tally numbered asked + tally between asked)%Z.
Proof.
  induction asked as [|a asked IH]; [done|]. cbn [foldr proto_all] in *. rewrite !tally_cons.
  assert (H : ∀ p, (if seen p a then 1 else 0)%Z = (if decide (a_proto a = p) then if counted (a_at a) then 1 else 0 else 0)%Z).
  { intros p. unfold seen. case_decide; [by rewrite bool_decide_true|by rewrite bool_decide_false]. }
  rewrite !H. assert (Hc : (if counted (a_at a) then 1 else 0)%Z = ((if numbered a then 1 else 0) + (if between a then 1 else 0))%Z).
  { unfold numbered, between. by destruct (a_at a) as [| | | | | | | |[]|]. }
  destruct (a_proto a); repeat first [rewrite decide_True by done|rewrite decide_False by done]; lia.
Qed.

Lemma total_queries_tally asked conns :
  (Z.of_nat (length asked) < u64_max)%Z →
  total_queries (counters (tallied asked conns)) = Ret (received (tallied asked conns) + tally between asked)%Z.
Proof.
  intros Hl. cbn [tallied received]. rewrite <-tally_seen. pose proof (tally_bound numbered asked) as H1.
  assert (Hs : (tally numbered asked + tally between asked ≤ Z.of_nat (length asked))%Z).
  { clear. induction asked as [|a asked IH]; [done|]. rewrite !tally_cons. cbn [length].
    assert (numbered a && between a = false) as Hx by (unfold numbered, between; by destruct (a_at a) as [| | | | | | | |[]|]).
    destruct (numbered a), (between a); done || lia. }
  rewrite <-tally_seen in Hs. pose proof (λ p, tally_bound (seen p) asked) as Hb. unfold total_queries, add_u64.
  cbn [foldl foldr proto_all tallied counters counters_proto protos map lookup list_lookup proto_index default queries mbind run_bind from_option id] in *.
  pose proof (Hb PUdp). pose proof (Hb PTcp). pose proof (Hb PDot). pose proof (Hb PDoh2). pose proof (Hb PDoh3). pose proof (Hb PDoq).
  repeat (rewrite decide_True by lia; cbn [mbind run_bind]). f_equal. lia.
Qed.

(** The next operation of a call never panics or hangs. *)
Lemma reply_step_runs y a :
  within y → accounts y → a ∈ b_asked y → ∃ s at_, reply_step (b_shared y) (a_proto a) (a_bytes a) (a_at a) = Ret (s, at_).
Proof.
  intros [Hw _] [Hs Ha _] Hin. pose proof (proj1 (Forall_forall _ _) Ha a Hin) as Hok.
  assert (Hrecv : (received (b_shared y) + 1 ≤ u64_max)%Z).
  { rewrite Hs. cbn [tallied received]. pose proof (tally_bound numbered (b_asked y)). lia. }
  unfold asked_ok in Hok. destruct (a_at a) as [|err|q|q| |q|q|response|r|]; cbn [reply_step]; eauto.
  - pose proof (parse_query_ends (a_bytes a)) as He. destruct (parse_query (a_bytes a)); cbn; eauto; done.
  - unfold add_u64. rewrite (decide_True (P:=(received (b_shared y) + 1 ≤ u64_max)%Z)) by exact Hrecv. cbn. eauto.
  - pose proof (parse_query_ends (a_bytes a)) as He. rewrite Hok in He. cbn [ends] in He.
    edestruct (respond_ret q) as (out & Ho & _); [done|]. rewrite Ho. cbn. eauto.
Qed.
End accounting.

(** C39: The responder's counters tell exactly what it did, and neither the
    interleaving of the transports nor a latency changes what it answers. In
    every reachable state, for fewer than 2^64 - 1 queries and connections: each
    counter is the number of calls, or connections, that are past its increment
    ([tallied]); with [drop_every] N, of the first n numbered queries exactly
    n / N are left unanswered, and none with 0; the total over the transports
    is the number of queries numbered plus those about to be; no operation of
    a call panics; and every call that ended was rejected for the error its bytes
    have, or dropped, or answered with exactly what [respond] gives for them. *)
Theorem responder_counts c y :
  is_u64 (drop_every c) → rtc bench_step (bench_new c) y → within y →
  b_shared y = tallied c (b_asked y) (b_conns y) ∧
  tally dropping (b_asked y) = (if decide (drop_every c = 0)%Z then 0%Z else (received (b_shared y) / drop_every c)%Z) ∧
  total_queries (counters (b_shared y)) = Ret (received (b_shared y) + tally between (b_asked y))%Z ∧
  ∀ a, a ∈ b_asked y →
    (∃ s at_, reply_step (b_shared y) (a_proto a) (a_bytes a) (a_at a) = Ret (s, at_)) ∧
    match a_at a with
    | AtEnd (Err err) => parse_query (a_bytes a) = Throw err
    | AtEnd (Ok None) => drop_every c ≠ 0%Z
    | AtEnd (Ok (Some response)) =>
        (q ← parse_query (a_bytes a); respond q (mkResponseConfig (ttl c) (reply_transport (a_proto a)))) = Ret response
    | _ => True
    end.
Proof.
  intros He Hr Hw. pose proof (bench_steps_accounts c y (proj1 He) Hr Hw) as Ha. pose proof Ha as [Hs Hall Hd].
  split; [done|]. split; [rewrite Hd, Hs; done|]. split; [rewrite Hs; apply total_queries_tally, Hw|].
  intros a Hin. split; [by eapply reply_step_runs|]. pose proof (proj1 (Forall_forall _ _) Hall a Hin) as Hok. unfold asked_ok in Hok.
  destruct (a_at a) as [| | | | | | | |[[response|]|err]|]; done || apply Hok.
Qed.

(** ** A concrete run *)

(** Every second query is dropped; a query over UDP and one over TCP interleave,
    and datagrams that are none arrive. *)
Definition example_responder : ResponderConfig := mkResponderConfig 60 0 2.

Definition bench_query : list Z :=
  match encode_query 7 (bytes_of "a-0-1.bench.test.") TYPE_A None with Ok bytes => bytes | Err _ => [] end.

Definition bench_parsed : WireQuery :=
  match parse_query bench_query with Ret q => q | _ => mkWireQuery 0 0 false None [] 0 end.

Definition bench_answer : list Z :=
  match respond bench_parsed (mkResponseConfig 60 OverStream) with Ret response => response | _ => [] end.

(** Runs the operations of the calls at the given positions. *)
Definition bench_move (y : Bench) (i : nat) : Bench :=
  match b_asked y !! i with
  | Some a =>
      match reply_step (b_shared y) (a_proto a) (a_bytes a) (a_at a) with
      | Ret (s, at_) => mkBench s (<[i := mkAsked (a_proto a) (a_bytes a) at_]> (b_asked y)) (b_conns y)
      | _ => y
      end
  | None => y
  end.

Definition bench_ask (y : Bench) (p : Proto) (bytes : list Z) : Bench :=
  mkBench (b_shared y) (b_asked y ++ [mkAsked p bytes AtParse]) (b_conns y).

Lemma bench_move_step y i : rtc bench_step y (bench_move y i).
Proof.
  unfold bench_move. destruct y as [s asked conns]. cbn [b_shared b_asked b_conns].
  destruct (asked !! i) as [a|] eqn:E; [|done]. destruct (reply_step _ _ _ _) as [[s' at_]| | |] eqn:Es; [|done..].
  rewrite <-(take_drop_middle _ _ _ E) at 1. rewrite insert_take_drop by (by eapply lookup_lt_Some).
  destruct a as [p bytes at0]. apply rtc_once. by apply bs_reply.
Qed.

Lemma bench_moves_step ks y : rtc bench_step y (foldl bench_move y ks).
Proof. revert y. induction ks as [|i ks IH]; intros y; [done|]. cbn [foldl]. etrans; [apply bench_move_step|apply IH]. Qed.

Definition example_bench : Bench :=
  foldl bench_move
    (bench_ask (bench_ask (bench_ask (bench_new example_responder) PUdp bench_query) PTcp bench_query) PUdp [1; 2]%Z)
    [0; 1; 0; 1; 2; 1; 0; 1; 0; 2].

Lemma example_bench_reached : rtc bench_step (bench_new example_responder) example_bench.
Proof.
  eapply rtc_l; [apply bs_ask|]. eapply rtc_l; [apply bs_ask|]. eapply rtc_l; [apply bs_ask|]. apply bench_moves_step.
Qed.

(** The TCP query ks numbered first and answered, the UDP one ks dropped. *)
Lemma responder_counts_witness :
  map a_at (b_asked example_bench) = [AtEnd (Ok None); AtEnd (Ok (Some bench_answer)); AtEnd (Err WTruncated)] ∧
  b_shared example_bench = tallied example_responder (b_asked example_bench) [] ∧
  tally dropping (b_asked example_bench) = (received (b_shared example_bench) / 2)%Z.
Proof.
  destruct (responder_counts example_responder example_bench) as (Hs & Hd & _);
    [by split|exact example_bench_reached|by split|].
  split; [vm_compute; reflexivity|]. split; [exact Hs|exact Hd].
Defined.
