(* ===== verification/ResponderServe.v ===== *)
(** * The benchmark responder's handlers, and the UDP backend over it

    What [serve_udp], [serve_framed], [doh2_request], [doh3_request] and
    [doq_stream] of [bench/resolver/src/responder.rs] make of the bytes of a
    request, at the responder's default latency of zero, when each waits for
    [Shared::reply] itself; and the library's UDP backend resolving a query
    through them. *)

From stdpp Require Import base numbers list strings.
From S2P Require Import Prelude CoreError Name RecordData Edns Header Message Transport Wire WireSpec Responder.

(** ** Datagrams *)

(** The datagrams of [serve_udp] and the answers it sends. *)
Fixpoint serve_udp (s : Shared) (datagrams : list (list Z)) : Run WireError (Shared * list (list Z)) :=
  match datagrams with
  | [] => Ret (s, [])
  | datagram :: datagrams =>
      '(s, result) ← reply s PUdp datagram;
      '(s, sent) ← serve_udp s datagrams;
      Ret (s, match result with Ok (Some answer) => answer :: sent | _ => sent end)
  end.

(** ** Framed streams *)

(** [AsyncReadExt::read_exact] on the bytes still to come. *)
Definition take_exact (n : nat) (input : list Z) : option (list Z * list Z) :=
  if decide (n ≤ length input) then Some (take n input, drop n input) else None.

(** The reading loop of [serve_framed]: the answers it hands to the writer. A
    frame takes two bytes, so the input's length is fuel enough. *)
Fixpoint read_queries (fuel : nat) (s : Shared) (p : Proto) (input : list Z) : Run WireError (Shared * list (list Z)) :=
  match fuel with
  | O => Hang
  | S fuel =>
      match take_exact 2 input with
      | None => Ret (s, [])
      | Some (len_buf, input) =>
          match take_exact (Z.to_nat (from_be len_buf)) input with
          | None => Ret (s, [])
          | Some (query, input) =>
              '(s, result) ← reply s p query;
              match result with
              | Ok (Some answer) => '(s, answers) ← read_queries fuel s p input; Ret (s, answer :: answers)
              | Ok None => read_queries fuel s p input
              | Err _ => Ret (s, [])
              end
          end
      end
  end.

(** The writer task of [serve_framed]; [writes] says which writes succeed. *)
Fixpoint write_answers (answers : list (list Z)) (writes : list bool) : list Z :=
  match answers with
  | [] => []
  | answer :: answers =>
      if decide (u16_max < Z.of_nat (length answer))%Z then write_answers answers writes
      else
        match writes with
        | true :: writes => to_be 2 (Z.of_nat (length answer)) ++ answer ++ write_answers answers writes
        | _ => []
        end
  end.

Definition serve_framed (s : Shared) (p : Proto) (input : list Z) (writes : list bool) : Run WireError (Shared * list Z) :=
  '(s, answers) ← read_queries (S (length input)) s p input;
  Ret (s, write_answers answers writes).

(** ** HTTP *)

Inductive HttpReply : Type :=
  | HttpAnswer (body : list Z)
  | HttpStatus (code : Z)
  | HttpNever.

(** [post] is whether the method is POST, [body] what collecting the body gave. *)
Definition doh2_request (s : Shared) (post : bool) (body : option (list Z)) : Run WireError (Shared * HttpReply) :=
  if negb post then Ret (s, HttpStatus 405)
  else
    match body with
    | None => Ret (s, HttpStatus 400)
    | Some body =>
        '(s, result) ← reply s PDoh2 body;
        Ret (s, match result with Ok (Some answer) => HttpAnswer answer | Ok None => HttpNever | Err _ => HttpStatus 400 end)
    end.

(** [chunks] are the parts of the body up to its end or a failure; the reply is
    what the handler sends, as far as the stream still takes it. *)
Definition doh3_request (s : Shared) (post : bool) (chunks : list (list Z)) : Run WireError (Shared * HttpReply) :=
  if post then
    '(s, result) ← reply s PDoh3 (concat chunks);
    Ret (s, match result with Ok (Some answer) => HttpAnswer answer | Ok None => HttpNever | Err _ => HttpStatus 400 end)
  else Ret (s, HttpStatus 405).

(** ** DoQ streams *)

Inductive DoqReply : Type :=
  | DoqClosed
  | DoqWrote (bytes : list Z)
  | DoqNever
  | DoqReset (code : Z).

Definition doq_stream (s : Shared) (input : list Z) : Run WireError (Shared * DoqReply) :=
  match take_exact 2 input with
  | None => Ret (s, DoqClosed)
  | Some (len_buf, input) =>
      match take_exact (Z.to_nat (from_be len_buf)) input with
      | None => Ret (s, DoqClosed)
      | Some (query, _) =>
          '(s, result) ← reply s PDoq query;
          Ret (s, match result with
                  | Ok (Some answer) =>
                      if decide (u16_max < Z.of_nat (length answer))%Z then DoqClosed
                      else DoqWrote (to_be 2 (Z.of_nat (length answer)) ++ answer)
                  | Ok None => DoqNever
                  | Err _ => DoqReset 1
                  end)
      end
  end.

(** ** What the handlers answer *)

Lemma take_exact_app n a b : n = length a → take_exact n (a ++ b) = Some (a, b).
Proof.
  intros ->. unfold take_exact. rewrite decide_True by (rewrite length_app; lia).
  by rewrite take_app_length, drop_app_length.
Qed.

(** A frame is read back. *)
Lemma take_frame payload rest :
  fits (length payload) →
  take_exact 2 (frame payload ++ rest) = Some (to_be 2 (Z.of_nat (length payload)), payload ++ rest) ∧
  take_exact (Z.to_nat (from_be (to_be 2 (Z.of_nat (length payload))))) (payload ++ rest) = Some (payload, rest).
Proof.
  intros Hf. unfold fits in Hf. unfold frame. rewrite <-app_assoc. split; [by apply take_exact_app; rewrite length_to_be|].
  apply take_exact_app. rewrite from_to_be by (change (256 ^ Z.of_nat 2)%Z with 65536%Z; lia). lia.
Qed.

Lemma take_exact_shorter n input got rest : take_exact n input = Some (got, rest) → length input = n + length rest.
Proof.
  unfold take_exact. case_decide; [|done]. intros [= <- <-]. rewrite length_drop. lia.
Qed.

(** The reading loop ends for any input: it panics only past the counter's end. *)
Lemma read_queries_ends fuel p : ∀ s input,
  length input < fuel → (received s + Z.of_nat (length input) < u64_max)%Z → (0 ≤ received s)%Z →
  ends (λ r, Forall (λ answer, (Z.of_nat (length answer) ≤ u16_max)%Z) r.2) (read_queries fuel s p input).
Proof.
  induction fuel as [|fuel IH]; intros s input Hf Hr H0; [lia|]. cbn [read_queries].
  destruct (take_exact 2 input) as [[len_buf input1]|] eqn:E1; [|constructor].
  destruct (take_exact _ input1) as [[query input2]|] eqn:E2; [|constructor].
  apply take_exact_shorter in E1, E2.
  eapply ends_bind; [apply reply_ends; lia|]. intros [s' result] Hs Hlen.
  assert (Hs' : (0 ≤ received s' ≤ received s + 1)%Z).
  { unfold reply in Hs. destruct (parse_query query) as [q|err| |]; cbn [catch mbind run_bind] in Hs; try done; [|injection Hs as <- _; cbn; lia].
    unfold add_u64 in Hs. change (received (count_query p s)) with (received s) in Hs.
    rewrite decide_True in Hs by lia. cbn [mbind run_bind] in Hs.
    assert (Hc : received (count_received (count_query p s)) = (received s + 1)%Z).
    { cbn. unfold fetch_add1, wrapping_add. apply Z.mod_small. lia. }
    destruct (drops _ _); [injection Hs as <- _; cbn [count_dropped received]; lia|].
    apply run_bind_ret in Hs as (response & _ & [= <- _]). destruct (_ && _); cbn [count_tc received]; lia. }
  destruct result as [[answer|]|]; [|apply IH; lia|constructor].
  eapply ends_bind; [apply IH; lia|]. intros [s2 answers] _ Ha. cbn [ends snd] in *. by constructor.
Qed.

(** ** The library's queries *)

Lemma selected_ok n : answer_ok (selected n).
Proof. unfold selected. destruct (labels n) as [|l ls]; [done|]. by destruct (mix_from_first_label l) as [[]|]. Qed.

(** [reply] on the encoding of a query of one question: the response its first
    label selects, whole on every transport but UDP. *)
Lemma reply_plain s p m q e :
  plain_query m q e → drop_every (config s) = 0%Z → (0 ≤ received s < u64_max)%Z → (0 ≤ ttl (config s) < 2147483648)%Z →
  ∃ s' bytes cut,
    reply s p (message_wire m) = Ret (s', Ok (Some bytes)) ∧ config s' = config s ∧ received s' = (received s + 1)%Z ∧
    let response := response_message m q e (selected (q_name q)) (ttl (config s)) cut in
    decode bytes = Ret response ∧ answers_query Match m response ∧ fits (length bytes) ∧ (p ≠ PUdp → cut = false).
Proof.
  intros Hp Hd Hr Ht. pose proof Hp as []. pose proof pq_wf as (_ & Hq & _). rewrite pq_question in Hq. apply Forall_cons in Hq as [Hq _].
  destruct (respond_with_decodes m q e (selected (q_name q)) (ttl (config s)) (reply_transport p) Hp (selected_ok _) Ht)
    as (bytes & Hb & Hdec & Ha & _).
  pose proof (parse_query_wire m q e Hp) as Hpw. rewrite Hpw in Hb. cbn [mbind run_bind] in Hb.
  assert (Hresp : respond (parsed m q e) (mkResponseConfig (ttl (config s)) (reply_transport p)) = Ret bytes).
  { unfold respond. rewrite first_label_parsed by done. cbn [mbind run_bind]. rewrite <-Hb. unfold selected. by destruct (labels (q_name q)). }
  assert (Hl : (Z.of_nat (length bytes) ≤ u16_max)%Z).
  { pose proof (parse_query_ends (message_wire m)) as Hq'. rewrite Hpw in Hq'. cbn [ends] in Hq'.
    destruct (respond_ret _ (mkResponseConfig (ttl (config s)) (reply_transport p)) Hq') as (out & Ho & Hlo).
    rewrite Hresp in Ho. injection Ho as <-. lia. }
  assert (Hrecv : received (count_received (count_query p s)) = (received s + 1)%Z).
  { cbn. unfold fetch_add1, wrapping_add. apply Z.mod_small. lia. }
  eexists _, bytes, _. split; [|split; [|split; [|split; [exact Hdec|split; [exact Ha|split; [unfold fits; lia|]]]]]].
  - unfold reply. rewrite Hpw. cbn [catch mbind run_bind]. unfold add_u64. change (received (count_query p s)) with (received s).
    rewrite decide_True by lia. cbn [mbind run_bind]. change (config (count_received (count_query p s))) with (config s).
    unfold drops. rewrite bool_decide_false by tauto. rewrite Hresp. cbn [mbind run_bind]. reflexivity.
  - by destruct (_ && _).
  - rewrite <-Hrecv. by destruct (_ && _).
  - intros Hp'. apply bool_decide_false. unfold reply_transport. rewrite decide_False by done. by intros [? _].
Qed.

(** A query with one question that carries no OPT record, with one. *)
Lemma plain_with_opt m q size :
  plain_query m q None → is_u16 size → plain_query (set_edns m (Some (edns_new size))) q (Some (edns_new size)).
Proof.
  intros [] Hs. assert (He : wf_edns (edns_new size)).
  { split; [done|]. split; [cbn; lia|]. split; [cbn; lia|constructor]. }
  assert (Hx : additionals (set_edns m (Some (edns_new size))) = [to_record (edns_new size)]).
  { unfold set_edns. cbn [additionals]. by rewrite pq_opt. }
  split; try done; [by apply wf_set_edns|]. unfold fits, message_wire in *. rewrite Hx, pq_opt in *.
  cbn [set_edns header questions answers authorities] in *. destruct pq_records as [-> ->].
  rewrite pq_question in *. rewrite !length_app, !length_header_wire, many_wire_single in *.
  destruct pq_wf as (_ & Hq & _). rewrite pq_question in Hq. apply Forall_cons in Hq as [[[_ Hn] _] _].
  unfold question_wire. rewrite !length_app, length_name_wire, !length_to_be. unfold many_wire at 1 2. cbn [map concat length].
  rewrite many_wire_single. change (length (rr_wire (to_record (edns_new size)))) with 11. lia.
Qed.

Lemma plain_edns m q e : plain_query m q e → edns m = Ok e.
Proof.
  intros []. assert (m = set_edns (mkMessage (header m) (questions m) (answers m) (authorities m) []) e) as ->.
  { destruct m. cbn in *. subst. by destruct e. }
  destruct e as [e|]; [by apply edns_set_some|apply edns_set_none].
Qed.

Lemma plain_encode m q e : plain_query m q e → encode m = Ok (message_wire m).
Proof. intros []. unfold encode. rewrite encode_into_wf by done. by rewrite decide_True. Qed.

(** What an exchange over a socket with one good answer gives. *)
Lemma exchange_answered sent payload bytes response :
  encode sent = Ok payload → decode bytes = Ret response → answers_query Match sent response →
  udp_exchange (mkSocket [Ok ()] [bytes] Timeout []) sent = Ret (response, mkSocket [] [] Timeout [payload]).
Proof.
  intros He Hd Ha. unfold udp_exchange. rewrite He. cbn [lift mbind run_bind send_udp u_sends u_inbox u_end u_sent udp_receive app].
  rewrite Hd. apply validate_response_spec in Ha. rewrite Ha. done.
Qed.

(** ** Resolving a query *)

(** The library's UDP backend with the responder as its server: the datagram it
    sends is served over UDP and, should it then connect, its frame over TCP,
    with what the responder counted in between. *)
Definition bench_resolve (s : Shared) (b : UdpBackend) (query : Message) : Run Error Message :=
  let datagram := encoded (default query (with_opt b query)) in
  match serve_udp s [datagram] with
  | Ret (s, answers) =>
      let stream := match serve_framed s PTcp (frame (encoded query)) [true] with Ret (_, out) => out | _ => [] end in
      udp_resolve (λ _ _, Ok (mkSocket [Ok tt] answers Timeout [])) (λ _, Ok (mkStream stream Timeout [Ok tt] [])) b query
  | _ => Throw Timeout
  end.

Lemma set_edns_response sent m q e answer t cut :
  header sent = header m →
  set_edns (response_message sent q (Some e) answer t cut) None = response_message m q None answer t cut.
Proof. intros H. unfold set_edns, response_message. cbn [header questions answers authorities]. by rewrite H. Qed.

(** The OPT record of an answer to the query that got one says nothing more. *)
Lemma strip_response sent q e answer t cut :
  strip_edns (response_message sent q (Some e) answer t cut) = Ok (set_edns (response_message sent q (Some e) answer t cut) None).
Proof.
  unfold strip_edns. replace (edns (response_message sent q (Some e) answer t cut)) with (Ok (E:=Error) (Some (edns_new EDNS_PAYLOAD))); [done|].
  unfold edns. by rewrite (from_to_record (edns_new EDNS_PAYLOAD)) || reflexivity.
Qed.

Lemma encoded_wire m payload : encode m = Ok payload → encoded m = payload.
Proof. unfold encoded. by intros ->. Qed.

Lemma serve_one_datagram s datagram s' answer :
  reply s PUdp datagram = Ret (s', Ok (Some answer)) → serve_udp s [datagram] = Ret (s', [answer]).
Proof. intros H. cbn [serve_udp]. by rewrite H. Qed.

Lemma serve_one_frame s p payload s' answer :
  fits (length payload) → fits (length answer) → reply s p payload = Ret (s', Ok (Some answer)) →
  serve_framed s p (frame payload) [true] = Ret (s', frame answer).
Proof.
  intros Hp Ha H. unfold serve_framed. cbn [read_queries]. destruct (take_frame payload [] Hp) as [H1 H2]. rewrite !app_nil_r in *.
  rewrite H1, H2, H. cbn [mbind run_bind]. unfold frame at 1. rewrite length_app, length_to_be. cbn [Nat.add read_queries].
  change (take_exact 2 []) with (@None (list Z * list Z)). cbn [mbind run_bind write_answers]. unfold fits in Ha. rewrite decide_False by lia. unfold frame. by rewrite app_nil_r.
Qed.

Lemma tcp_query_answered m payload answer response :
  encode m = Ok payload → fits (length payload) → decode answer = Ret response → fits (length answer) → answers_query Match m response →
  tcp_query (Ok (mkStream (frame answer) Timeout [Ok tt] [])) m = Ret response.
Proof.
  intros He Hf Hd Hl Ha. unfold tcp_query, framed_query, write_framed. cbn [lift mbind run_bind]. rewrite He. cbn [lift mbind run_bind].
  unfold fits in Hf, Hl. rewrite decide_False by lia. cbn [write_all s_writes mbind run_bind s_in s_end s_out].
  unfold read_framed, read_exact, frame. cbn [s_in s_end s_writes s_out].
  rewrite decide_True by (rewrite length_app, length_to_be; lia).
  rewrite take_app_length', drop_app_length' by (by rewrite length_to_be). cbn [mbind run_bind s_in s_end s_writes s_out].
  rewrite from_to_be by (change (256 ^ Z.of_nat 2)%Z with 65536%Z; lia). rewrite Nat2Z.id, decide_True by done.
  rewrite take_ge, drop_ge by done. cbn [mbind run_bind]. rewrite Hd. cbn [mbind run_bind].
  apply validate_response_spec in Ha. by rewrite Ha.
Qed.

(** C40: The library resolves its queries against the benchmark's upstream. For
    every query of one question, with or without an OPT record, the UDP backend,
    whatever EDNS payload size it is set to add, over the responder's handlers
    returns exactly the response the query's first label selects, whole: when
    the answer does not fit the datagram the query allows, the responder
    truncates it, the backend asks again over TCP, and the responder's framed
    answer is read back. *)
Theorem bench_resolves s b m q e :
  plain_query m q e → (∀ size, edns_udp_payload_size b = Some size → is_u16 size) →
  drop_every (config s) = 0%Z → (0 ≤ received s < u64_max - 1)%Z → (0 ≤ ttl (config s) < 2147483648)%Z →
  bench_resolve s b m = Ret (response_message m q e (selected (q_name q)) (ttl (config s)) false).
Proof.
  intros Hp Hsize Hd Hr Ht. pose proof (plain_edns _ _ _ Hp) as He. pose proof (plain_encode _ _ _ Hp) as Henc.
  assert (Htcp : ∀ s', config s' = config s → received s' = (received s + 1)%Z →
    ∃ s2 out, serve_framed s' PTcp (frame (encoded m)) [true] = Ret (s2, frame out) ∧
      tcp_query (Ok (mkStream (frame out) Timeout [Ok tt] [])) m = Ret (response_message m q e (selected (q_name q)) (ttl (config s)) false)).
  { intros s' Hc Hr'. destruct (reply_plain s' PTcp m q e) as (s2 & out & cut & Hrep & _ & _ & Hdec & Ha & Hf & Hcut);
      [done|by rewrite Hc|lia|by rewrite Hc|]. rewrite Hcut, Hc in * by done.
    exists s2, out. unfold encoded. rewrite Henc. split; [by apply serve_one_frame; [apply Hp|..]|].
    eapply tcp_query_answered; [done|apply Hp|done..]. }
  unfold bench_resolve. cbv zeta. destruct (with_opt b m) as [sent|] eqn:Ew; cbn [default from_option Datatypes.id].
  - unfold with_opt in Ew. destruct (edns_udp_payload_size b) as [size|] eqn:Es; [|done]. rewrite He in Ew.
    destruct e; [done|]. injection Ew as <-. set (sent := set_edns m (Some (edns_new size))).
    assert (Hp' : plain_query sent q (Some (edns_new size))) by (by apply plain_with_opt, Hsize).
    pose proof (plain_encode _ _ _ Hp') as Henc'. rewrite (encoded_wire _ _ Henc').
    destruct (reply_plain s PUdp _ _ _ Hp' Hd ltac:(lia) Ht) as (s' & bytes & cut & Hrep & Hc & Hr' & Hdec & Ha & _).
    rewrite (serve_one_datagram _ _ _ _ Hrep). destruct (Htcp s' Hc Hr') as (s2 & out & -> & Hout).
    unfold udp_resolve. cbn [lift mbind run_bind]. unfold udp_answer. unfold with_opt. rewrite Es, He. fold sent.
    rewrite (exchange_answered _ _ _ _ Henc' Hdec Ha). cbn [mbind run_bind].
    assert (rejects_edns (response_message sent q (Some (edns_new size)) (selected (q_name q)) (ttl (config s)) cut) = false) as ->.
    { unfold rejects_edns. by destruct (selected (q_name q)). }
    rewrite strip_response, (set_edns_response sent m) by done. cbn [lift mbind run_bind response_message header truncated].
    by destruct cut.
  - rewrite (encoded_wire _ _ Henc) at 1.
    destruct (reply_plain s PUdp _ _ _ Hp Hd ltac:(lia) Ht) as (s' & bytes & cut & Hrep & Hc & Hr' & Hdec & Ha & _).
    rewrite (serve_one_datagram _ _ _ _ Hrep). destruct (Htcp s' Hc Hr') as (s2 & out & -> & Hout).
    unfold udp_resolve. cbn [lift mbind run_bind]. unfold udp_answer. rewrite Ew.
    rewrite (exchange_answered _ _ _ _ Henc Hdec Ha). cbn [mbind run_bind response_message header truncated]. by destruct cut.
Qed.

(** A TXT answer is too large for UDP without EDNS: the backend gets all of it
    over TCP. *)
Definition txt_name : Name := mkName [bytes_of "txt-0-1"; bytes_of "bench"; bytes_of "test"].

Definition example_upstream : UdpBackend := udp_new (mkUdpConfig (V4 2130706433, 53%Z) 5 None).

Lemma bench_resolves_witness :
  ∃ r, bench_resolve (shared_new responder_config_default) example_upstream (query_message 7 txt_name TYPE_TXT None) = Ret r ∧
    truncated (header r) = false ∧ map rr_rdata (answers r) = [Txt txt_strings] ∧
    serve_udp (shared_new responder_config_default) [encoded (query_message 7 txt_name TYPE_TXT None)] ≠ Panic.
Proof.
  eexists. split.
  - apply (bench_resolves _ example_upstream _ (mkQuestion txt_name TTxt In) None); [|done|done|done|done].
    apply (plain_query_message 7 txt_name TYPE_TXT None); [lia|by decide_eval|by split|done].
  - split; [done|]. split; [by vm_compute|by vm_compute].
Defined.
