(* ===== verification/LoadGen.v ===== *)
(** * The benchmark's load generator

    [bench/resolver/src/loadgen.rs]: the names of the workers, priming, a worker's
    closed loop, and what the measurement counts; and the verdict of
    [bench/resolver/src/cli.rs] on a run. The histogram is the library's
    (hdrhistogram); the clock and the scheduler say when a phase changes and how
    long a query takes. *)

From Stdlib Require Import Ascii.
From stdpp Require Import base numbers list gmap strings pretty.
From S2P Require Import Prelude Wire Responder.

(** ** Outcomes *)

Inductive Outcome : Type :=
  | OutOk
  | OutTimeout
  | OutMismatch
  | OutError (label : string).

#[export] Instance outcome_eq_dec : EqDecision Outcome.
Proof. solve_decision. Defined.

Record OutcomeCounts : Type := mkOutcomeCounts {
  n_ok : Z;
  n_timeout : Z;
  n_mismatch : Z;
  n_errors : gmap string Z;
}.

Definition no_outcomes : OutcomeCounts := mkOutcomeCounts 0 0 0 ∅.

(** [*errors.entry(label).or_default() += count] *)
Definition add_errors (errors : gmap string Z) (label : string) (count : Z) : gmap string Z :=
  <[label := (default 0%Z (errors !! label) + count)%Z]> errors.

Definition outcomes_add (c : OutcomeCounts) (o : Outcome) : OutcomeCounts :=
  match o with
  | OutOk => mkOutcomeCounts (n_ok c + 1) (n_timeout c) (n_mismatch c) (n_errors c)
  | OutTimeout => mkOutcomeCounts (n_ok c) (n_timeout c + 1) (n_mismatch c) (n_errors c)
  | OutMismatch => mkOutcomeCounts (n_ok c) (n_timeout c) (n_mismatch c + 1) (n_errors c)
  | OutError label => mkOutcomeCounts (n_ok c) (n_timeout c) (n_mismatch c) (add_errors (n_errors c) label 1)
  end.

Definition merge (c other : OutcomeCounts) : OutcomeCounts :=
  mkOutcomeCounts (n_ok c + n_ok other) (n_timeout c + n_timeout other) (n_mismatch c + n_mismatch other)
    (map_fold (λ label count errors, add_errors errors label count) (n_errors c) (n_errors other)).

Definition failures (c : OutcomeCounts) : Z :=
  (n_timeout c + n_mismatch c + map_fold (λ _ count sum, count + sum) 0 (n_errors c))%Z.

(** ** Names *)

Inductive NameMode : Type :=
  | Cold
  | Warm.

#[export] Instance name_mode_eq_dec : EqDecision NameMode.
Proof. solve_decision. Defined.

Definition name_mode_as_str (m : NameMode) : string := match m with Cold => "cold" | Warm => "warm" end.
Definition name_mode_parse (name : string) : option NameMode :=
  if decide (name = "cold"%string) then Some Cold else if decide (name = "warm"%string) then Some Warm else None.

Record LoadSpec : Type := mkLoadSpec {
  concurrency : N;
  mix : Mix;
  names_per_worker : N;
  name_mode : NameMode;
}.

Definition names_for (spec : LoadSpec) (worker : N) : list string :=
  map (λ index, mix_fqdn (mix spec) (match name_mode spec with Cold => worker | Warm => 0%N end) (N.of_nat index))
    (seq 0 (N.to_nat (names_per_worker spec))).

Section load.
(** A contestant's prepared queries, and what a query does at a given moment:
    its outcome and the microseconds it took. *)
Context {Prepared : Type} (prepare : string → Prepared).

(** [prime]: [asks] are the outcomes of the queries to come. *)
Fixpoint prime_names (names : list string) (query : nat → Prepared → Outcome) (turn : nat) : option Outcome :=
  match names with
  | [] => None
  | fqdn :: names =>
      let outcome := query turn (prepare fqdn) in
      if decide (outcome = OutOk) then prime_names names query (S turn) else Some outcome
  end.

Definition prime (query : nat → Prepared → Outcome) (spec : LoadSpec) : option Outcome :=
  prime_names (names_for spec 0) query 0.

(** ** A worker *)

Inductive LoadPhase : Type :=
  | WARMUP
  | MEASURE
  | STOP.

(** The histogram of the library: [add] of another one, [saturating_record]. *)
Context {Histogram : Type} (new_histogram : Histogram) (record : Histogram → Z → Histogram)
  (add : Histogram → Histogram → Histogram) (hist_len : Histogram → Z).

Record WorkerResult : Type := mkWorkerResult {
  histogram : Histogram;
  outcomes : OutcomeCounts;
}.

(** A worker in its loop, with the names it asked and how often it yielded. *)
Record Worker : Type := mkWorker {
  w_result : WorkerResult;
  w_next : nat;
  w_iterations : Z;
  w_asked : list Prepared;
  w_yields : nat;
}.

Definition worker_new (prepared : list Prepared) (worker : N) : Worker :=
  mkWorker (mkWorkerResult new_histogram no_outcomes) (N.to_nat worker `mod` Nat.max (length prepared) 1) 0 [] 0.

(** One turn of [run_worker]'s loop in the phase it loaded, with what the
    contestant does this time; it panics where the index is out of range. *)
Definition worker_turn (prepared : list Prepared) (phase : LoadPhase) (query : Prepared → Outcome * Z) (w : Worker) :
    Run unit Worker :=
  match prepared !! w_next w with
  | None => Panic
  | Some p =>
      let '(outcome, micros) := query p in
      let r := w_result w in
      let r := match phase with
               | MEASURE => mkWorkerResult (record (histogram r) (Z.max micros 1)) (outcomes_add (outcomes r) outcome)
               | _ => r
               end in
      let iterations := wrapping_add 32 (w_iterations w) 1 in
      Ret (mkWorker r ((w_next w + 1) `mod` length prepared) iterations (w_asked w ++ [p])
             (if decide (iterations mod 16 = 0)%Z then S (w_yields w) else w_yields w))
  end.

(** [run_worker]: the turns are the phases it loads and the contestant's moves.
    It is done when it loads [STOP], or has no names; [Err] is a worker that is
    still looping after the given turns. *)
Fixpoint worker_loop (prepared : list Prepared) (turns : list (LoadPhase * (Prepared → Outcome * Z))) (w : Worker) :
    Run unit (Result Worker Worker) :=
  match turns with
  | [] => Ret (Err w)
  | (phase, query) :: turns =>
      match phase, prepared with
      | STOP, _ | _, [] => Ret (Ok w)
      | _, _ => w ← worker_turn prepared phase query w; worker_loop prepared turns w
      end
  end.

Definition run_worker (prepared : list Prepared) (worker : N) (turns : list (LoadPhase * (Prepared → Outcome * Z))) :=
  worker_loop prepared turns (worker_new prepared worker).

(** ** The whole load *)

Record LoadStats : Type := mkLoadStats {
  queries_ : Z;
  merged : WorkerResult;
}.

(** The end of [closed_loop]: the workers' results put together. *)
Definition collect (results : list WorkerResult) : LoadStats :=
  let total :=
    foldl (λ t r, mkWorkerResult (add (histogram t) (histogram r)) (merge (outcomes t) (outcomes r)))
      (mkWorkerResult new_histogram no_outcomes) results in
  mkLoadStats (hist_len (histogram total)) total.
End load.

(** ** Counting *)

Definition error_sum (errors : gmap string Z) : Z := map_fold (λ _ count sum, (count + sum)%Z) 0%Z errors.

(** Every outcome counted. *)
Definition total (c : OutcomeCounts) : Z := (n_ok c + n_timeout c + n_mismatch c + error_sum (n_errors c))%Z.

Lemma error_sum_insert errors label count :
  errors !! label = None → error_sum (<[label := count]> errors) = (count + error_sum errors)%Z.
Proof. intros H. unfold error_sum. rewrite map_fold_insert_L; [done| |done]. intros. lia. Qed.

Lemma error_sum_add errors label count : error_sum (add_errors errors label count) = (error_sum errors + count)%Z.
Proof.
  unfold add_errors. destruct (errors !! label) as [n|] eqn:E; cbn [default from_option Datatypes.id].
  - rewrite <-(insert_delete_eq errors label (n + count)%Z), error_sum_insert by apply lookup_delete_eq.
    rewrite <-(insert_delete_id errors label n E) at 2. rewrite error_sum_insert by apply lookup_delete_eq. lia.
  - rewrite error_sum_insert by done. lia.
Qed.

Lemma error_sum_merge errors other :
  error_sum (map_fold (λ label count errors, add_errors errors label count) errors other) = (error_sum errors + error_sum other)%Z.
Proof.
  revert other. apply (map_first_key_ind _).
  - rewrite map_fold_empty. unfold error_sum at 3. rewrite map_fold_empty. lia.
  - intros label count other Hnone Hfirst IH. rewrite error_sum_insert by done.
    rewrite map_fold_insert_first_key by done. rewrite error_sum_add, IH. lia.
Qed.

Lemma total_add c o : total (outcomes_add c o) = (total c + 1)%Z.
Proof. unfold total. destruct o; cbn [outcomes_add n_ok n_timeout n_mismatch n_errors]; rewrite ?error_sum_add; lia. Qed.

Lemma total_merge c other : total (merge c other) = (total c + total other)%Z.
Proof. unfold total, merge. cbn [n_ok n_timeout n_mismatch n_errors]. rewrite error_sum_merge. lia. Qed.

Lemma total_failures c : total c = (n_ok c + failures c)%Z.
Proof. unfold total, failures. fold (error_sum (n_errors c)). lia. Qed.

(** ** What a run counts *)

Section counts.
Context {Prepared : Type}.
Context {Histogram : Type} (new_histogram : Histogram) (record : Histogram → Z → Histogram)
  (add : Histogram → Histogram → Histogram) (hist_len : Histogram → Z).
Hypothesis len_new : hist_len new_histogram = 0%Z.
Hypothesis len_record : ∀ h value, hist_len (record h value) = (hist_len h + 1)%Z.
Hypothesis len_add : ∀ h other, hist_len (add h other) = (hist_len h + hist_len other)%Z.

Notation Turn := (LoadPhase * (Prepared → Outcome * Z))%type.

Definition is_stop (turn : Turn) : bool := match turn.1 with STOP => true | _ => false end.
Definition is_measured (turn : Turn) : bool := match turn.1 with MEASURE => true | _ => false end.

(** The turns a worker takes: those before it loads [STOP]. *)
Fixpoint taken_turns (turns : list Turn) : list Turn :=
  match turns with
  | [] => []
  | turn :: turns => if is_stop turn then [] else turn :: taken_turns turns
  end.

(** Everything it asked is the rotation of its names from its offset on. *)
Definition rotation (prepared : list Prepared) (start : nat) (asked : list Prepared) : Prop :=
  ∀ k, k < length asked → asked !! k = prepared !! ((start + k) `mod` length prepared).

Definition counts (r : WorkerResult (Histogram:=Histogram)) (n : Z) : Prop :=
  total (outcomes r) = n ∧ hist_len (histogram r) = n.

Record worker_inv (prepared : list Prepared) (start : nat) (measured taken : nat) (w : Worker (Prepared:=Prepared)) : Prop := {
  wk_counts : counts (w_result w) (Z.of_nat measured);
  wk_asked : length (w_asked w) = taken;
  wk_next : w_next w = (start + taken) `mod` length prepared;
  wk_rotation : rotation prepared start (w_asked w);
}.

Lemma worker_turn_spec prepared start measured taken phase query w :
  prepared ≠ [] → worker_inv prepared start measured taken w → 
  ∃ w', worker_turn record prepared phase query w = Ret w' ∧
    worker_inv prepared start (measured + if is_measured (phase, query) then 1 else 0) (S taken) w'.
Proof.
  intros Hp []. assert (Hl : length prepared ≠ 0) by by destruct prepared.
  unfold worker_turn. assert (Hn : w_next w < length prepared) by (rewrite wk_next0; by apply Nat.mod_upper_bound).
  apply lookup_lt_is_Some in Hn as [p Hn]. rewrite Hn. destruct (query p) as [outcome micros]. eexists. split; [done|].
  split; cbn [w_result w_next w_asked].
  - destruct wk_counts0 as [Ht Hh]. unfold is_measured. destruct phase; cbn [fst]; try by rewrite Nat.add_0_r.
    split; cbn [outcomes histogram]; [rewrite total_add|rewrite len_record]; lia.
  - rewrite length_app. cbn [length]. lia.
  - rewrite wk_next0, Nat.Div0.add_mod_idemp_l. f_equal. lia.
  - intros k Hk. rewrite length_app in Hk. cbn [length] in Hk. destruct (decide (k < length (w_asked w))) as [Hlt|].
    + rewrite lookup_app_l by done. by apply wk_rotation0.
    + replace k with (length (w_asked w)) by lia. rewrite list_lookup_middle by done. by rewrite wk_asked0, <-wk_next0.
Qed.

Lemma worker_loop_spec prepared start : ∀ turns measured taken w,
  prepared ≠ [] → worker_inv prepared start measured taken w →
  ∃ w', worker_loop record prepared turns w = Ret (if existsb is_stop turns then Ok w' else Err w') ∧
    worker_inv prepared start (measured + length (List.filter is_measured (taken_turns turns))) (taken + length (taken_turns turns)) w'.
Proof.
  intros turns. induction turns as [|[phase query] turns IH]; intros measured taken w Hp Hi.
  { exists w. cbn. by rewrite !Nat.add_0_r. }
  destruct (worker_turn_spec prepared start measured taken phase query w Hp Hi) as (w1 & Hw & Hi1).
  cbn [worker_loop existsb taken_turns]. unfold is_stop at 1 3 4. cbn [fst].
  destruct phase; cbn [orb]; [| |exists w; cbn; by rewrite !Nat.add_0_r].
  all: destruct prepared as [|p prepared]; [done|]; rewrite Hw; cbn [mbind run_bind];
    destruct (IH _ _ w1 Hp Hi1) as (w' & -> & Hi'); exists w'; (split; [done|]); cbn [List.filter is_measured fst length] in *.
  - by rewrite Nat.add_0_r, Nat.add_succ_comm in Hi'.
  - rewrite <-Nat.add_assoc, Nat.add_succ_comm in Hi'. by rewrite (Nat.add_succ_r taken).
Qed.

(** A worker with names never indexes out of range and is done exactly when it
    loads [STOP]. It asks its names in rotation from its offset, one query a turn,
    and counts exactly the queries it began while measuring, each once in the
    outcomes and once in the histogram. *)
Theorem worker_counts prepared worker turns :
  prepared ≠ [] →
  ∃ w, run_worker new_histogram record prepared worker turns = Ret (if existsb is_stop turns then Ok w else Err w) ∧
    counts (w_result w) (Z.of_nat (length (List.filter is_measured (taken_turns turns)))) ∧
    length (w_asked w) = length (taken_turns turns) ∧
    rotation prepared (N.to_nat worker `mod` length prepared) (w_asked w).
Proof.
  intros Hp. assert (Hl : length prepared ≠ 0) by by destruct prepared.
  destruct (worker_loop_spec prepared (N.to_nat worker `mod` length prepared) turns 0 0 (worker_new new_histogram prepared worker))
    as (w & Hw & []); [done| |by exists w].
  split; cbn [worker_new w_result w_asked w_next]; [|done| |intros k Hk; cbn in Hk; lia].
  - split; [done|]. exact len_new.
  - rewrite Nat.max_l by lia. by rewrite Nat.add_0_r, Nat.Div0.mod_mod.
Qed.

(** The queries a run reports are the outcomes of its workers, each once, so
    the failures are those that were not as expected. *)
Theorem load_counts (results : list (WorkerResult (Histogram:=Histogram))) (measured : list Z) :
  Forall2 counts results measured →
  let stats := collect new_histogram add hist_len results in
  queries_ stats = foldr Z.add 0%Z measured ∧ queries_ stats = total (outcomes (merged stats)) ∧
  queries_ stats = (n_ok (outcomes (merged stats)) + failures (outcomes (merged stats)))%Z.
Proof.
  intros H stats. enough (counts (merged stats) (foldr Z.add 0%Z measured)) as [Ht Hh].
  { subst stats. unfold collect in *. cbn [queries_ merged] in *. rewrite Hh. split; [done|]. split; [done|]. by rewrite <-total_failures. }
  subst stats. unfold collect. cbn [merged]. set (start := mkWorkerResult new_histogram no_outcomes).
  assert (Hs : counts start 0) by (split; [done|exact len_new]). rewrite <-(Z.add_0_l (foldr _ _ _)).
  enough (∀ t k, counts t k → counts (foldl (λ t r, mkWorkerResult (add (histogram t) (histogram r)) (merge (outcomes t) (outcomes r))) t results)
    (k + foldr Z.add 0%Z measured)) as Hall by (by apply Hall).
  clear Hs start. induction H as [|r n results measured [Ht Hh] _ IH]; intros t k [Htk Hhk]; cbn [foldl foldr].
  - by rewrite Z.add_0_r.
  - rewrite Z.add_assoc. apply IH. split; cbn [outcomes histogram]; [rewrite total_merge|rewrite len_add]; lia.
Qed.
End counts.

(** ** Cold names *)

Notation dash := "-"%char.
Definition chars (s : string) : list Ascii.ascii := String.list_ascii_of_string s.

Lemma chars_app a b : chars (a +:+ b) = chars a ++ chars b.
Proof. unfold chars. induction a as [|c a IH]; [done|]. cbn. by rewrite <-IH. Qed.

Lemma chars_inj a b : chars a = chars b → a = b.
Proof.
  intros H. rewrite <-(String.string_of_list_ascii_of_string a), <-(String.string_of_list_ascii_of_string b).
  unfold chars in H. by rewrite H.
Qed.

(** Decimal digits hold no hyphen. *)
Lemma pretty_go_digits n : ∀ s, dash ∉ chars s → dash ∉ chars (pretty_N_go n s).
Proof.
  induction (N.lt_wf_0 n) as [n _ IH]. intros s Hs. destruct (decide (n = 0)%N) as [->|Hn]; [by rewrite pretty_N_go_0|].
  rewrite pretty_N_go_step by lia. apply IH; [apply N.div_lt; lia|]. cbn. apply not_elem_of_cons. split; [|done].
  unfold pretty_N_char. by repeat case_match.
Qed.

Lemma pretty_digits (n : N) : dash ∉ chars (pretty n).
Proof.
  unfold pretty, pretty_N. case_decide; [by decide_eval|]. apply pretty_go_digits. by decide_eval.
Qed.

(** What stands before the first hyphen is what it is. *)
Lemma split_dash a b x y : dash ∉ a → dash ∉ b → a ++ dash :: x = b ++ dash :: y → a = b ∧ x = y.
Proof.
  revert b. induction a as [|c a IH]; intros [|d b] Ha Hb H; cbn in H.
  - by injection H as ->.
  - injection H as <- _. exfalso. apply Hb, list_elem_of_here.
  - injection H as -> _. exfalso. apply Ha, list_elem_of_here.
  - injection H as <- H. apply not_elem_of_cons in Ha as [_ Ha], Hb as [_ Hb]. by destruct (IH b Ha Hb H) as [-> ->].
Qed.

Lemma mix_fqdn_inj m worker index worker' index' :
  mix_fqdn m worker index = mix_fqdn m worker' index' → worker = worker' ∧ index = index'.
Proof.
  intros H. apply (f_equal chars) in H. unfold mix_fqdn in H. rewrite !chars_app in H. apply app_inv_head in H.
  change (chars "-") with [dash] in H. injection H as H.
  apply split_dash in H as [Hw H]; [|apply pretty_digits..]. apply chars_inj, pretty_N_inj in Hw.
  apply app_inv_tail in H. apply chars_inj, pretty_N_inj in H. done.
Qed.

(** In cold mode no name is used twice: neither by one worker in a rotation nor
    by two workers, so no two queries in flight ask for the same name. In
    warm mode every worker has the names that [prime] resolved. *)
Theorem names_spec spec worker worker' :
  NoDup (names_for spec worker) ∧ length (names_for spec worker) = N.to_nat (names_per_worker spec) ∧
  match name_mode spec with
  | Cold => worker ≠ worker' → names_for spec worker ## names_for spec worker'
  | Warm => names_for spec worker = names_for spec 0
  end.
Proof.
  split; [|split].
  - unfold names_for. apply NoDup_fmap_2_strong; [|apply NoDup_seq]. intros i j _ _ H.
    apply mix_fqdn_inj in H as [_ H]. lia.
  - unfold names_for. by rewrite length_map, length_seq.
  - unfold names_for. destruct (name_mode spec); [|done]. intros Hne name H1 H2.
    apply list_elem_of_fmap in H1 as (i & -> & _), H2 as (j & H & _). by apply mix_fqdn_inj in H as [? _].
Qed.

(** ** The verdict *)

Definition cold_shortfall (cache : NameMode) (upstream client_queries : Z) (concurrency : Z) : option string :=
  if decide (cache ≠ Cold) then None
  else if decide (Z.min (upstream + concurrency) u64_max < client_queries)%Z then
    Some ("cold run: the responder saw " +:+ pretty upstream +:+ " queries but the client completed " +:+
          pretty client_queries +:+ "; some answers did not reach the upstream")%string
  else None.

(** [failures * 1000] overflows. *)
Definition mul_u64 {E} (a b : Z) : Run E Z := if decide (a * b ≤ u64_max)%Z then Ret (a * b)%Z else Panic.

(** [delta] of two samples of a counter, of which one may be missing; a counter
    that went back panics. *)
Definition delta (start finish : option Z) : Run unit (option Z) :=
  match finish, start with
  | Some finish, Some start => if decide (start ≤ finish)%Z then Ret (Some (finish - start)%Z) else Panic
  | _, _ => Ret None
  end.

(** The reasons [run_client] gives for an invalid run. [stats_port] is whether
    the port was given, the samples are the transport's query counters around
    the measurement. *)
Definition invalid_reasons (cache : NameMode) (concurrency : Z) (stats_port : bool) (start finish : option Z)
    (queries : Z) (failed : Z) : Run unit (list string) :=
  let none := if decide (queries = 0)%Z then ["no query completed"] else [] in
  scaled ← (if decide (0 < queries)%Z then mul_u64 failed 1000 else Ret 0%Z);
  let lossy :=
    if decide (0 < queries ∧ queries < scaled)%Z
    then [pretty failed +:+ " of " +:+ pretty queries +:+ " queries failed (more than 0.1%)"]%string else [] in
  seen ← (if stats_port then delta start finish else Ret None);
  Ret (none ++ lossy ++
    if stats_port then
      match seen with
      | Some upstream =>
          (if decide (cache = Warm ∧ 0 < upstream)%Z
           then ["warm run: the responder saw " +:+ pretty upstream +:+ " queries during the measurement"]%string else []) ++
          option_list (cold_shortfall cache upstream queries concurrency)
      | None => ["the responder stats could not be read"]%string
      end
    else if decide (cache = Warm) then ["warm run without --stats-port cannot prove cache hits"]%string else []).

(** A run is valid exactly when queries completed, at most one in a thousand of
    them failed, and the upstream saw what the mode calls for: nothing in a warm
    run, which must have been watched, and in a watched cold run every query
    but those that may be in flight at the edges. *)
Theorem valid_run cache concurrency stats_port start finish queries failed :
  (0 ≤ queries ≤ u64_max)%Z → (0 ≤ failed)%Z → (failed * 1000 ≤ u64_max)%Z → (0 ≤ concurrency)%Z →
  (∀ a b, start = Some a → finish = Some b → 0 ≤ a ≤ b)%Z →
  ∃ reasons, invalid_reasons cache concurrency stats_port start finish queries failed = Ret reasons ∧
    (reasons = [] ↔
      (0 < queries)%Z ∧ (failed * 1000 ≤ queries)%Z ∧
      (if stats_port then ∃ a b, start = Some a ∧ finish = Some b ∧
         match cache with Warm => a = b | Cold => (queries ≤ b - a + concurrency)%Z end
       else cache = Cold)).
Proof.
  intros Hq Hf Hs Hc Hab. unfold invalid_reasons.
  assert (Hscaled : (if decide (0 < queries)%Z then @mul_u64 unit failed 1000 else Ret 0%Z) =
    Ret (if decide (0 < queries)%Z then failed * 1000 else 0)%Z).
  { case_decide; [|done]. unfold mul_u64. by rewrite decide_True. }
  rewrite Hscaled. cbn [mbind run_bind].
  assert (Hd : delta start finish = Ret (match finish, start with Some b, Some a => Some (b - a)%Z | _, _ => None end)).
  { unfold delta. destruct finish as [b|], start as [a|]; try done. destruct (Hab a b eq_refl eq_refl). by rewrite decide_True. }
  assert (Hseen : (if stats_port then delta start finish else Ret None) =
    Ret (if stats_port then match finish, start with Some b, Some a => Some (b - a)%Z | _, _ => None end else None)).
  { destruct stats_port; [by rewrite Hd|done]. }
  rewrite Hseen. cbn [mbind run_bind]. eexists. split; [done|]. rewrite !app_nil.
  assert (Hcold : ∀ n, option_list (cold_shortfall cache n queries concurrency) = [] ↔
    (cache = Cold → (queries ≤ Z.min (n + concurrency) u64_max)%Z)).
  { intros n. unfold cold_shortfall. destruct cache; [rewrite decide_False by tauto|by rewrite decide_True].
    destruct (decide (Z.min (n + concurrency) u64_max < queries)%Z); cbn [option_list]; split; try done; [intros Hx; specialize (Hx eq_refl); lia|lia]. }
  split.
  - intros (H1 & H2 & H3). destruct (decide (queries = 0)%Z); [done|]. rewrite (decide_True (P:=(0 < queries)%Z)) in H2 by lia.
    destruct (decide (0 < queries ∧ queries < failed * 1000)%Z); [done|]. split; [lia|]. split; [lia|].
    destruct stats_port; [|by destruct cache].
    destruct finish as [b|], start as [a|]; try done. exists a, b. split; [done|]. split; [done|].
    apply app_nil in H3 as [H3 H4]. rewrite Hcold in H4. destruct (Hab a b eq_refl eq_refl).
    destruct cache; [specialize (H4 eq_refl); lia|].
    destruct (decide (0 < b - a)%Z); [rewrite decide_True in H3 by done; done|lia].
  - intros (H1 & H2 & H3). rewrite (decide_True (P:=(0 < queries)%Z)) by lia. rewrite decide_False by lia. split; [done|].
    rewrite decide_False by lia. split; [done|].
    destruct stats_port; [|by subst cache]. destruct H3 as (a & b & -> & -> & H3). apply app_nil. split.
    + rewrite decide_False; [done|]. intros [-> ?]. lia.
    + apply Hcold. intros ->. lia.
Qed.
