(* ===== verification/Cli.v ===== *)
(** * The benchmark's command line

    [Args] and [ClientArgs] of [bench/resolver/src/cli.rs]: options in both
    spellings, and the checked options of a client. Parsing a floating-point
    number and the number of processors are the standard library's. *)

From Stdlib Require Import Ascii Sorted.
From stdpp Require Import base numbers list strings pretty.
From S2P Require Import Prelude Wire Responder LoadGen.

(** ** Options *)

(** A [BTreeMap] with string keys, its entries in the order of their keys. *)
Notation Values := (list (string * string)).

(** [BTreeMap::insert]: whether the key was new, and the map. *)
Fixpoint btree_insert (name value : string) (values : Values) : bool * Values :=
  match values with
  | [] => (true, [(name, value)])
  | (n, v) :: rest =>
      match String.compare name n with
      | Lt => (true, (name, value) :: values)
      | Eq => (false, (name, value) :: rest)
      | Gt => let '(fresh, rest) := btree_insert name value rest in (fresh, (n, v) :: rest)
      end
  end.

(** [BTreeMap::get] *)
Definition btree_get (name : string) (values : Values) : option string := snd <$> List.find (λ e, String.eqb name e.1) values.

(** [arg.strip_prefix("--")] *)
Definition strip_dashes (arg : string) : option string :=
  match arg with String "-" (String "-" opt) => Some opt | _ => None end.

(** [option.split_once('=')] *)
Fixpoint split_once_eq (opt : string) : option (string * string) :=
  match opt with
  | EmptyString => None
  | String "=" value => Some (EmptyString, value)
  | String c opt => '(name, value) ← split_once_eq opt; Some (String c name, value)
  end.

(** [Args::parse] *)
Definition put_option (name value : string) (values : Values) (rest : Values → Result string Values) : Result string Values :=
  let '(fresh, values) := btree_insert name value values in
  if fresh then rest values else Err ("--" +:+ name +:+ " given twice")%string.

Fixpoint parse_args (args : list string) (values : Values) : Result string Values :=
  match args with
  | [] => Ok values
  | arg :: args =>
      match strip_dashes arg with
      | None => Err ("unexpected argument '" +:+ arg +:+ "'")%string
      | Some opt =>
          match split_once_eq opt with
          | Some (name, value) => put_option name value values (parse_args args)
          | None =>
              match args with
              | [] => Err ("--" +:+ opt +:+ " needs a value")%string
              | value :: args => put_option opt value values (parse_args args)
              end
          end
      end
  end.

Definition args_required (values : Values) (name : string) : Result string string :=
  ok_or ("--" +:+ name +:+ " is required")%string (btree_get name values).

(** [Args::parsed] with the type's [FromStr]. *)
Definition args_parsed {T} (from_str : string → option T) (values : Values) (name : string) (default : T) : Result string T :=
  match btree_get name values with
  | None => Ok default
  | Some text => ok_or ("--" +:+ name +:+ ": invalid value '" +:+ text +:+ "'")%string (from_str text)
  end.

Definition args_only (values : Values) (known : list string) : Result string unit :=
  match List.find (λ e, negb (bool_decide (e.1 ∈ known))) values with
  | Some (name, _) => Err ("unknown option --" +:+ name)%string
  | None => Ok tt
  end.

(** ** Numbers *)

Definition digit (c : ascii) : option Z :=
  let n := (Z.of_N (N_of_ascii c) - 48)%Z in if decide (0 ≤ n < 10)%Z then Some n else None.

Fixpoint digits_value (max acc : Z) (s : string) : option Z :=
  match s with
  | EmptyString => Some acc
  | String c s =>
      d ← digit c;
      let acc := (acc * 10 + d)%Z in
      if decide (acc ≤ max)%Z then digits_value max acc s else None
  end.

(** [str::parse] for an unsigned integer up to [max]. *)
Definition parse_uint (max : Z) (s : string) : option Z :=
  match s with
  | EmptyString => None
  | String "+" EmptyString => None
  | String "+" s => digits_value max 0 s
  | s => digits_value max 0 s
  end.

(** ** The options of a client *)

Definition CLIENT_OPTIONS : list string :=
  ["proto"; "port"; "ca"; "mix"; "concurrency"; "warmup"; "duration"; "names"; "cache"; "timeout-ms"; "workers"; "stats-port";
   "out"]%string.

Section client.
(** [f64] with its parser, the defaults 2.0 and 8.0, and its comparisons with
    zero; [available] is what [available_parallelism] gives, if anything. *)
Context {F64 : Type} (parse_f64 : string → option F64) (two eight : F64) (non_negative positive : F64 → bool).
Context (available : option Z).

Record ClientArgs : Type := mkClientArgs {
  ca_proto : Proto;
  ca_port : Z;
  ca_ca : string;
  ca_mix : Mix;
  ca_concurrency : Z;
  ca_warmup : F64;
  ca_duration : F64;
  ca_names : Z;
  ca_cache : NameMode;
  ca_timeout_ms : Z;
  ca_workers : Z;
  ca_stats_port : option Z;
  ca_out : option string;
}.

Definition client_args (args : list string) : Result string ClientArgs :=
  values ← parse_args args [];
  _ ← args_only values CLIENT_OPTIONS;
  proto_name ← args_required values "proto";
  let mix_name := default "a"%string (btree_get "mix" values) in
  let cache_name := default "cold"%string (btree_get "cache" values) in
  let default_workers := default 1%Z available in
  proto ← ok_or ("--proto: unknown '" +:+ proto_name +:+ "'")%string (proto_parse proto_name);
  port_text ← args_required values "port";
  port ← ok_or "--port: invalid port"%string (parse_uint u16_max port_text);
  ca ← args_required values "ca";
  mix ← ok_or ("--mix: unknown '" +:+ mix_name +:+ "'")%string (mix_parse (bytes_of mix_name));
  concurrency ← args_parsed (parse_uint u32_max) values "concurrency" 16%Z;
  warmup ← args_parsed parse_f64 values "warmup" two;
  duration ← args_parsed parse_f64 values "duration" eight;
  names ← args_parsed (parse_uint u32_max) values "names" 1024%Z;
  cache ← ok_or ("--cache: unknown '" +:+ cache_name +:+ "'")%string (name_mode_parse cache_name);
  timeout_ms ← args_parsed (parse_uint u64_max) values "timeout-ms" 2000%Z;
  workers ← args_parsed (parse_uint u64_max) values "workers" default_workers;
  stats_port ← match btree_get "stats-port" values with
               | None => Ok None
               | Some text => port ← ok_or "--stats-port: invalid port"%string (parse_uint u16_max text); Ok (Some port)
               end;
  if decide (concurrency = 0 ∨ names = 0 ∨ workers = 0)%Z
  then Err "--concurrency, --names and --workers must be at least 1"%string
  else if negb (non_negative warmup && positive duration)
  then Err "--warmup must be >= 0 and --duration > 0"%string
  else Ok (mkClientArgs proto port ca mix concurrency warmup duration names cache timeout_ms workers stats_port (btree_get "out" values)).
End client.

(** ** What parsing options gives *)

(** No name twice, in the order of the names. *)
Definition sorted_values (values : Values) : Prop := StronglySorted (λ a b, String.compare a.1 b.1 = Lt) values.

Lemma compare_lt_trans a b c : String.compare a b = Lt → String.compare b c = Lt → String.compare a c = Lt.
Proof.
  revert b c. induction a as [|x a IH]; intros [|y b] [|z c]; cbn; try done.
  unfold Ascii.compare. destruct (N.compare_spec (N_of_ascii x) (N_of_ascii y)) as [E1|E1|E1];
    destruct (N.compare_spec (N_of_ascii y) (N_of_ascii z)) as [E2|E2|E2]; intros H1 H2; try done.
  all: destruct (N.compare_spec (N_of_ascii x) (N_of_ascii z)) as [E3|E3|E3]; try done; try lia.
  by eapply IH.
Qed.

Lemma compare_refl a : String.compare a a = Eq.
Proof. induction a as [|c a IH]; [done|]. cbn. unfold Ascii.compare. by rewrite N.compare_refl. Qed.

Lemma btree_get_cons name n v values :
  btree_get name ((n, v) :: values) = if decide (name = n) then Some v else btree_get name values.
Proof.
  unfold btree_get. cbn [List.find fst]. destruct (String.eqb_spec name n) as [->|Hne]; [by rewrite decide_True|by rewrite decide_False].
Qed.

(** Below every key of the map there is none. *)
Lemma btree_get_below name values :
  Forall (λ e, String.compare name e.1 = Lt) values → btree_get name values = None.
Proof.
  induction 1 as [|[n v] values H _ IH]; [done|]. rewrite btree_get_cons, decide_False; [done|]. intros <-.
  cbn [fst] in H. by rewrite compare_refl in H.
Qed.

Lemma compare_gt a b : String.compare a b = Gt → String.compare b a = Lt.
Proof. intros H. rewrite String.compare_antisym, H. done. Qed.

Lemma forall_below name n values :
  String.compare name n = Lt → Forall (λ e : string * string, String.compare n e.1 = Lt) values →
  Forall (λ e, String.compare name e.1 = Lt) values.
Proof. intros H Hf. eapply Forall_impl; [exact Hf|]. intros e He. by eapply compare_lt_trans. Qed.

(** Inserting keeps the order, says whether the key was new and binds it. *)
Lemma btree_insert_spec name value values :
  sorted_values values →
  let r := btree_insert name value values in
  sorted_values r.2 ∧ (r.1 = true ↔ btree_get name values = None) ∧
  (∀ n, btree_get n r.2 = if decide (n = name) then Some value else btree_get n values) ∧
  (∀ k, String.compare k name = Lt → Forall (λ e, String.compare k e.1 = Lt) values → Forall (λ e, String.compare k e.1 = Lt) r.2).
Proof.
  induction 1 as [|[n v] values Hs IH Hn]; cbn [btree_insert].
  - cbn [fst snd]. split; [by repeat constructor|]. split; [done|]. split; [|intros k Hk _; by repeat constructor].
    intros m. by rewrite btree_get_cons.
  - cbn [fst] in Hn. destruct (String.compare name n) eqn:Ec; cbn [fst snd].
    + apply String.compare_eq_iff in Ec as ->. split; [by constructor|]. split.
      { rewrite btree_get_cons, decide_True by done. done. }
      split; [|intros k Hk [_ Hf]%Forall_cons; by constructor].
      intros m. rewrite !btree_get_cons. by case_decide.
    + assert (Hb : Forall (λ e : string * string, String.compare name e.1 = Lt) ((n, v) :: values)).
      { constructor; [done|]. by eapply forall_below. }
      split; [constructor; [by constructor|done]|]. split; [by rewrite btree_get_below|].
      split; [|intros k Hk Hf; by constructor]. intros m. by rewrite btree_get_cons.
    + destruct IH as (H1 & H2 & H3 & H4). destruct (btree_insert name value values) as [fresh rest]. cbn [fst snd] in *.
      assert (name ≠ n) as Hne by (intros ->; by rewrite compare_refl in Ec).
      split; [constructor; [done|]; apply H4; [by apply compare_gt|done]|].
      split; [by rewrite btree_get_cons, decide_False|]. split.
      * intros m. rewrite !btree_get_cons, H3. repeat case_decide; congruence.
      * intros k Hk [Hkn Hf]%Forall_cons. constructor; [done|]. by apply H4.
Qed.

(** An option, as one argument or as two. *)
Definition joined (name value : string) : string := ("--" +:+ name +:+ "=" +:+ value)%string.
Definition spelled (one : bool) (name value : string) : list string :=
  if one then [joined name value] else [("--" +:+ name)%string; value].

Definition has_eq (name : string) : Prop := "="%char ∈ chars name.

Lemma split_once_cons c opt :
  "="%char ≠ c → split_once_eq (String c opt) = ('(name, value) ← split_once_eq opt; Some (String c name, value)).
Proof. intros H. destruct c as [[] [] [] [] [] [] [] []]; done. Qed.

Lemma split_once_joined name value : ¬ has_eq name → split_once_eq (name +:+ String "=" value)%string = Some (name, value).
Proof.
  induction name as [|c name IH]; intros H; [done|]. unfold has_eq in H. cbn in H. apply not_elem_of_cons in H as [Hc H].
  change (String c name +:+ ?s)%string with (String c (name +:+ s))%string. by rewrite split_once_cons, IH.
Qed.

Lemma split_once_none name : ¬ has_eq name → split_once_eq name = None.
Proof.
  induction name as [|c name IH]; intros H; [done|]. unfold has_eq in H. cbn in H. apply not_elem_of_cons in H as [Hc H].
  by rewrite split_once_cons, IH.
Qed.

(** Both spellings of an option parse alike, whatever the value holds. *)
Lemma parse_spelled one name value args values :
  ¬ has_eq name → parse_args (spelled one name value ++ args) values = put_option name value values (parse_args args).
Proof.
  intros H. destruct one; cbn [spelled app parse_args].
  - change (strip_dashes (joined name value)) with (Some (name +:+ String "=" value)%string). cbv match. by rewrite split_once_joined.
  - change (strip_dashes ("--" +:+ name)) with (Some name). cbv match. by rewrite split_once_none.
Qed.

(** The value of a name in a list of options. *)
Definition option_of (name : string) (opts : list (bool * string * string)) : option string :=
  snd <$> List.find (λ o, String.eqb name o.1.2) opts.

Lemma parse_options opts : ∀ values,
  sorted_values values → Forall (λ o, ¬ has_eq o.1.2) opts →
  NoDup (map (λ o, o.1.2) opts) → (∀ o, o ∈ opts → btree_get o.1.2 values = None) →
  ∃ values', parse_args (concat (map (λ o, spelled o.1.1 o.1.2 o.2) opts)) values = Ok values' ∧ sorted_values values' ∧
    ∀ name, btree_get name values' = match option_of name opts with Some v => Some v | None => btree_get name values end.
Proof.
  induction opts as [|[[one name] value] opts IH]; intros values Hs Hf Hn Hg; [by exists values|].
  apply Forall_cons in Hf as [Hname Hf]. cbn [map] in Hn. apply NoDup_cons in Hn as [Hnotin Hn]. cbn [fst snd] in *.
  cbn [map concat fst snd]. rewrite parse_spelled by done. unfold put_option.
  destruct (btree_insert_spec name value values Hs) as (H1 & H2 & H3 & _).
  destruct (btree_insert name value values) as [fresh values1]. cbn [fst snd] in *.
  rewrite (proj2 H2) by (apply (Hg (one, name, value)), list_elem_of_here).
  destruct (IH values1 H1 Hf Hn) as (values' & -> & Hs' & Hget).
  { intros o Ho. rewrite H3. rewrite decide_False; [by apply Hg, list_elem_of_further|]. intros E. apply Hnotin. rewrite <-E.
    by apply list_elem_of_fmap_2 with (f := λ o : bool * string * string, o.1.2). }
  exists values'. split; [done|]. split; [done|]. intros m. rewrite Hget, H3. unfold option_of at 2. cbn [List.find fst snd].
  destruct (String.eqb_spec m name) as [->|Hne]; cbn [fmap option_fmap option_map snd]; [|by rewrite decide_False].
  rewrite decide_True by done. unfold option_of. destruct (List.find _ opts) as [[[one' n'] v']|] eqn:Ef; [|done].
  apply List.find_some in Ef as [Hin Heq]. cbn [fst snd] in Heq. apply String.eqb_eq in Heq as <-. exfalso. apply Hnotin.
  apply list_elem_of_In in Hin. by apply list_elem_of_fmap_2 with (f := λ o : bool * string * string, o.1.2) in Hin.
Qed.

(** A command line of options with different names, each in either spelling, is
    read back as exactly those options. *)
Theorem parse_render opts :
  Forall (λ o, ¬ has_eq o.1.2) opts → NoDup (map (λ o, o.1.2) opts) →
  ∃ values, parse_args (concat (map (λ o, spelled o.1.1 o.1.2 o.2) opts)) [] = Ok values ∧ sorted_values values ∧
    ∀ name, btree_get name values = option_of name opts.
Proof.
  intros Hf Hn. destruct (parse_options opts [] ltac:(constructor) Hf Hn ltac:(done)) as (values & Hp & Hs & Hg).
  exists values. split; [done|]. split; [done|]. intros name. rewrite Hg. by destruct (option_of name opts).
Qed.

(** ** What a client runs with *)

Lemma digits_value_bound max s : ∀ acc n, (0 ≤ acc ≤ max)%Z → digits_value max acc s = Some n → (0 ≤ n ≤ max)%Z.
Proof.
  induction s as [|c s IH]; intros acc n Ha; cbn [digits_value]; [by intros [= <-]|].
  intros H. apply bind_Some in H as (d & Hd & H). unfold digit in Hd. cbv zeta in Hd, H.
  destruct (decide (0 ≤ Z.of_N (N_of_ascii c) - 48 < 10)%Z); [|done]. injection Hd as <-.
  destruct (decide _) in H; [|done]. eapply IH; [|exact H]. lia.
Qed.

Lemma parse_uint_bound max s n : (0 ≤ max)%Z → parse_uint max s = Some n → (0 ≤ n ≤ max)%Z.
Proof.
  intros Hm. unfold parse_uint. intros H.
  repeat match type of H with (match ?x with _ => _ end) = _ => destruct x end; try done;
    (eapply digits_value_bound; [|exact H]; lia).
Qed.

Section accepted.
Context {F64 : Type} (parse_f64 : string → option F64) (two eight : F64) (non_negative positive : F64 → bool).
Context (available : option Z).
Notation parse := (client_args parse_f64 two eight non_negative positive available).

Lemma ok_or_ok {A} (err : string) (o : option A) a : ok_or err o = Ok a → o = Some a.
Proof. by destruct o; intros [= <-]. Qed.

Lemma args_parsed_uint max values name dflt n :
  (0 ≤ dflt ≤ max)%Z → args_parsed (parse_uint max) values name dflt = Ok n → (0 ≤ n ≤ max)%Z.
Proof.
  intros Hd. unfold args_parsed. destruct (btree_get name values); [|by intros [= <-]].
  intros H%ok_or_ok. eapply parse_uint_bound; [|done]. lia.
Qed.

(** The command line of a client that is accepted is one whose every number is
    within its type and no count is zero, whose times are not negative, and
    whose transport, mix and cache are ones there are. *)
Theorem client_args_sound args a :
  (∀ n, available = Some n → 0 ≤ n ≤ u64_max)%Z → parse args = Ok a →
  (is_u16 (ca_port a) ∧ (∀ port, ca_stats_port a = Some port → is_u16 port)) ∧
  (1 ≤ ca_concurrency a ≤ u32_max ∧ 1 ≤ ca_names a ≤ u32_max ∧ 1 ≤ ca_workers a ≤ u64_max ∧ 0 ≤ ca_timeout_ms a ≤ u64_max)%Z ∧
  non_negative (ca_warmup a) = true ∧ positive (ca_duration a) = true ∧
  ∃ values, parse_args args [] = Ok values ∧ Forall (λ e, e.1 ∈ CLIENT_OPTIONS) values ∧
    btree_get "proto" values = Some (proto_as_str (ca_proto a)).
Proof.
  intros Hav H. unfold client_args in H.
  apply result_bind_ok in H as (values & Hargs & H). apply result_bind_ok in H as ([] & Honly & H).
  apply result_bind_ok in H as (proto_name & Hpn & H). cbv zeta in H.
  apply result_bind_ok in H as (proto & Hproto & H). apply result_bind_ok in H as (port_text & _ & H).
  apply result_bind_ok in H as (port & Hport & H). apply result_bind_ok in H as (ca & _ & H).
  apply result_bind_ok in H as (mix & _ & H). apply result_bind_ok in H as (conc & Hconc & H).
  apply result_bind_ok in H as (warmup & _ & H). apply result_bind_ok in H as (duration & _ & H).
  apply result_bind_ok in H as (names & Hnames & H). apply result_bind_ok in H as (cache & _ & H).
  apply result_bind_ok in H as (timeout & Htime & H). apply result_bind_ok in H as (workers & Hworkers & H).
  apply result_bind_ok in H as (stats & Hstats & H).
  destruct (decide (conc = 0 ∨ names = 0 ∨ workers = 0)%Z) as [|Hnz]; [done|].
  destruct (non_negative warmup && positive duration) eqn:Ef; cbn [negb] in H; [|done]. apply andb_true_iff in Ef as [Hw Hd].
  injection H as <-. cbn [ca_port ca_stats_port ca_concurrency ca_names ca_workers ca_timeout_ms ca_warmup ca_duration ca_proto].
  apply ok_or_ok in Hport. apply (parse_uint_bound u16_max) in Hport; [|lia].
  apply args_parsed_uint in Hconc, Hnames, Htime; [|lia..].
  apply args_parsed_uint in Hworkers; [|destruct available as [n|]; cbn; [by apply Hav|lia]].
  split; [split; [lia|]|].
  { intros p ->. destruct (btree_get "stats-port" values) as [text|]; [|done].
    apply result_bind_ok in Hstats as (p' & Hp' & [= <-]). apply ok_or_ok in Hp'. apply (parse_uint_bound u16_max) in Hp'; lia. }
  split; [lia|]. split; [done|]. split; [done|]. exists values. split; [done|]. split.
  - unfold args_only in Honly. destruct (List.find _ values) as [[name v]|] eqn:Efind; [done|].
    apply Forall_forall. intros e He. apply list_elem_of_In in He. pose proof (List.find_none _ _ Efind e He) as Hn.
    by apply negb_false_iff, bool_decide_eq_true in Hn.
  - apply ok_or_ok in Hproto, Hpn. unfold proto_parse in Hproto. apply List.find_some in Hproto as [_ Hproto].
    apply bool_decide_eq_true in Hproto. by rewrite Hproto.
Qed.
End accepted.

(** The defaults, and both spellings in one command line. *)
Definition example_f64 (s : string) : option Z := parse_uint u32_max s.

Example options_accept_both_spellings :
  match client_args example_f64 2%Z 8%Z (λ x, bool_decide (0 ≤ x)%Z) (λ x, bool_decide (0 < x)%Z) None
          ["--proto=doq"; "--port"; "853"; "--ca"; "ca.der"]%string with
  | Ok a => ca_proto a = PDoq ∧ ca_port a = 853%Z ∧ ca_concurrency a = 16%Z ∧ ca_cache a = Cold ∧ ca_timeout_ms a = 2000%Z ∧
            ca_stats_port a = None
  | Err _ => False
  end.
Proof. by vm_compute. Qed.

Example bad_options_are_rejected :
  Forall (λ extra, is_ok (client_args example_f64 2%Z 8%Z (λ x, bool_decide (0 ≤ x)%Z) (λ x, bool_decide (0 < x)%Z) None
                            (["--proto"; "udp"; "--port"; "1"; "--ca"; "x"]%string ++ extra)) = false)
    [["--mix"; "mx"]; ["--cache"; "hot"]; ["--bogus"; "1"]; ["--concurrency"; "0"]; ["--duration"; "0"]; ["--port"; "2"];
     ["--port"]; ["udp"]]%string.
Proof. repeat constructor. Qed.
